(* ===== verification/_CoqProject ===== *)
-Q . S2P
Prelude.v
Pic8259.v
Pit8254.v
Lapic.v
IoApic.v
Uart16550.v
Cmos.v
Ports.v
VirtQueue.v
VirtioBlk.v
VirtioNet.v
Memory.v
Registers.v
Paging.v
Tlb.v
Decode.v
Cpu.v
Interrupts.v
Operands.v
Arithmetic.v
Branch.v
Logic.v
DataMove.v
Execute.v
Restart.v
Strings.v
NetWire.v
Tcp.v
TcpStream.v
SystemDns.v
Udp.v
Slirp.v
HostThread.v
Protocol.v
Framing.v
Session.v
Text.v
Filesystem.v
Layer.v
LayerSafety.v
LayerTheorems.v
LayerResult.v
Content.v
ContentSafety.v
ContentTheorems.v
Registry.v
Reference.v
Oci.v
Pull.v
PullTheorems.v
