(* ===== verification/Prelude.v ===== *)
(** Verification of rish, a portable runtime for Linux container images.

    * The program

    rish runs container images on hosts that have no Linux kernel. Its crates form
    two halves. The virtual machine, [src/crates/rish-softvm-core], is an x86-64
    interpreter with a chipset, virtio devices and a user-mode network stack; the
    host talks to the guest inside it with [rish-guest-protocol]. The image pipeline
    names images and reads registry documents ([rish-registry]), keeps blobs in a
    content-addressed store ([rish-content]) and unpacks layers ([rish-layer]).

    * Conventions

    A machine word is a [Z] in the range of its type, and every place where the code
    wraps, saturates, checks or panics says so ([wrapping_add], [saturating_add],
    [checked_add], a [Panic] value). Fallible code is [result E A] with the notation
    [let?]; code that also changes state is [st S E A], whose errors keep the state
    reached, with [let!]. Records are updated with [r <| field := v |>]. [ensures]
    states Hoare triples over [st] with one assertion for success and one for failure.
    Code that is not under [src/] is a class ([Iced], [Serde], [Archive], [Host], ...),
    its documented behaviour a class of laws or a hypothesis that the theorems name;
    each has a concrete instance in the witnesses. The names are those of the source.

    * The virtual machine

    - [Pic8259], [Pit8254], [Lapic], [IoApic], [Uart16550], [Cmos]: the devices of
      [devices/], each a record with its port or register operations; [Ports]:
      [PortBus] and [InterruptLines] of [devices/mod.rs], and [acpi_pm.rs].
    - [VirtQueue], [VirtioBlk], [VirtioNet]: [virtio/queue.rs], [block.rs], [net.rs]
      over the classes [GuestMemory], [BlockBackend] and [NetBackend].
    - [Memory]: [memory.rs], RAM and the dispatch of MMIO to those devices, an instance
      of [GuestMemory].
    - [Registers], [Paging], [Tlb], [Decode]: [arch/] and the two caches of [cpu/].
    - [Cpu], [Interrupts], [Operands], [Arithmetic], [Branch], [Logic], [DataMove]: the
      state of [cpu/mod.rs] with translation and linear accesses, [cpu/interrupts.rs],
      and the integer instructions of [ops/].
    - [Execute]: fetch, dispatch, [execute_one], [step] and [run_instructions] of
      [cpu/mod.rs] and [cpu/dispatch.rs]; [Restart] and [Strings] prove what a page
      fault in the middle of an instruction leaves behind.
    - [NetWire], [Tcp], [TcpStream], [SystemDns], [Udp], [Slirp], [HostThread]: [net/],
      from the wire formats to the backend, an instance of [NetBackend].
    - [Protocol], [Framing], [Session]: [rish-guest-protocol].

    The theorems say that translation through the TLB is the page walk and the walk a
    radix tree; that cached instructions are those in memory; that an instruction of
    the modelled families that faults restarts from its own registers, and what a
    repeated string instruction has then done to memory; that an interrupt return
    gives back what delivery saved, and in-service interrupts are a stack; that a
    virtqueue serves each entry once, requests have their effect on the disk and
    malformed ones fail closed; that a TCP connection loses and reorders nothing of
    what the host sends, that the thread at the host's end passes on what it was given
    of the guest's bytes, and that silence closes a connection (that a held segment may
    be delivered twice, and that a half-close ends both directions, is proved as well);
    that frames sent are well formed and DNS queries are answered; that a session with
    a guest returns what the guest did, within its budget of messages; and that the arithmetic, shifts and divisions are those of the
    integers. Batched device updates equal single ones.

    * The image pipeline

    - [Text]: the parts of [str] the parsers use. [Filesystem]: directories, links,
      inodes and the calls of [std::fs], in which any call may fail, and the removal of
      a tree part-way.
    - [Layer], [LayerSafety], [LayerTheorems], [LayerResult]: [rish-layer], the two
      passes over an archive, whiteouts, entries and modes. Only the tree below the
      destination changes, nothing changes before the whole archive has passed,
      whiteouts and entries have exactly their effect, and a layer reported as applied
      has left the tree its entries describe; three ways a layer still reaches further
      are proved as well.
    - [Content], [ContentSafety], [ContentTheorems]: [rish-content], the store with its
      digests, pins, leases, quota, collection and ingestion. [step] interleaves any
      number of threads at the points where the lock is not held, and the invariant
      [sound] holds in every state reached from an intact directory, with the bytes
      accounted for at most the quota or what was found there; a collection keeps exactly
      what is rooted; an ingestion stores what was read.
    - [Registry]: digests, media types, documents, platform selection, headers and the
      validation of responses of [rish-registry]; the manifest selected is the best.
    - [Reference]: image references; what one prints parses again as the same.
    - [Oci]: validation of image configurations of [rish-oci], and the limits on JSON of
      [rish-pull]; a document passes exactly when it is within them.
    - [Pull], [PullTheorems]: [puller.rs] of [rish-pull], on the store and the registry
      data above. The registry and the reading of JSON are parameters. An image pulled
      has every blob stored and leased and every document named by the one before it;
      a pull that fails leaves no lease.

    * Fuel and bounds

    Loops of the code that are not structural take fuel. Where the code's loop is
    bounded the fuel is that bound, and lemmas show it is enough: bytes left in a page
    walk or transfer ([read_linear_loop], [fetch_rest]), toggles that fit a number of
    nanoseconds ([refresh_fuel]), options of a segment ([parse_mss_loop]), bytes
    buffered ([frames_loop], [take_frames]), bytes of a name ([name_tail_fuel]), the
    length of a text ([trim]), links followed by the file system. The interpreter's
    own loop has no bound in the code: [execute_one] answers [None] when its fuel runs
    out, and the theorems about it speak of runs with enough. Sizes keep the limits of
    the source as constants with its names.

    * Not modelled

    SSE and x87 instructions are the host's floating point. CPUID, control and model
    registers and descriptor-table loads of [ops/system.rs] are left out, and so is
    [boot/], which runs once before the machine does. [rish-softvm-x86_64], [rish-vm],
    [rish-ffi], [rish-cli] and the platform shells are threads, files and foreign calls
    around what is modelled. [rish-guest-agent], [rish-guest-boot] and
    [rish-guest-importer] run inside a guest on Linux system calls. [rish-applets],
    [rish-core], [rish-runtime] and the planning of [rish-oci] are tables and small
    commands that the modelled parts do not call. [rish-snapshot] and [verified_image/]
    of [rish-pull] compose the modelled store, pins and layers with files of their own,
    and are not modelled; neither is [auth.rs] of [rish-registry]. JSON, gzip, tar,
    base64, SHA-256 and instruction decoding are libraries. *)
From stdpp Require Export base list numbers option decidable relations.
From Stdlib Require Export ZArith Lia.

#[export] Set Default Goal Selector "!".
#[global] Open Scope Z_scope.

(** ** Results *)

(** Rust's [Result<A, E>]. *)
Inductive result (E A : Type) : Type :=
| Ok (value : A)
| Err (error : E).
Arguments Ok {E A} _.
Arguments Err {E A} _.

#[export] Instance result_eq_dec `{EqDecision E, EqDecision A} : EqDecision (result E A).
Proof. solve_decision. Defined.

(** The [?] operator: run [c], return early with its error, else continue. *)
Definition rbind {E A B} (c : result E A) (k : A → result E B) : result E B :=
  match c with
  | Ok a => k a
  | Err e => Err e
  end.

Definition is_ok {E A} (r : result E A) : bool :=
  match r with Ok _ => true | Err _ => false end.

Definition is_err {E A} (r : result E A) : bool := negb (is_ok r).

(** [r.map_err(f)] *)
Definition map_err {E F A} (f : E → F) (r : result E A) : result F A :=
  match r with Ok a => Ok a | Err e => Err (f e) end.

Declare Scope result_scope.
Delimit Scope result_scope with result.
Notation "'let?' x ':=' c 'in' k" := (rbind c (λ x, k))
  (at level 10, x pattern, c at level 100, k at level 200,
   format "'let?'  x  ':='  c  'in' '//' k") : result_scope.
#[global] Open Scope result_scope.

Lemma rbind_ok {E A B} (c : result E A) (k : A → result E B) b :
  rbind c k = Ok b ↔ ∃ a, c = Ok a ∧ k a = Ok b.
Proof. destruct c; naive_solver. Qed.

Lemma rbind_err {E A B} (c : result E A) (k : A → result E B) e :
  rbind c k = Err e ↔ c = Err e ∨ ∃ a, c = Ok a ∧ k a = Err e.
Proof. destruct c; naive_solver. Qed.

(** Fallible code that mutates a state: an error keeps the state reached. *)
Definition st (S E A : Type) : Type := S → result E A * S.
Definition sret {S E A} (a : A) : st S E A := λ s, (Ok a, s).
Definition sfail {S E A} (e : E) : st S E A := λ s, (Err e, s).
Definition sbind {S E A B} (c : st S E A) (k : A → st S E B) : st S E B := λ s,
  match c s with
  | (Ok a, s) => k a s
  | (Err e, s) => (Err e, s)
  end.
(** A computation that only reads the state. *)
Definition sread {S E A} (f : S → result E A) : st S E A := λ s, (f s, s).
(** One that replaces it, or fails and leaves it alone. *)
Definition supdate {S E} (f : S → result E S) : st S E () := λ s,
  match f s with Ok s => (Ok (), s) | Err e => (Err e, s) end.

Notation "'let!' x ':=' c 'in' k" := (sbind c (λ x, k))
  (at level 10, x pattern, c at level 100, k at level 200,
   format "'let!'  x  ':='  c  'in' '//' k") : result_scope.

(** Running the first computation of a sequence. *)
Lemma sbind_ok {S E A B} (c : st S E A) (k : A → st S E B) s a s' :
  c s = (Ok a, s') → (let! x := c in k x) s = k a s'.
Proof. intros Ec. unfold sbind. by rewrite Ec. Qed.
Lemma sbind_err {S E A B} (c : st S E A) (k : A → st S E B) s e s' :
  c s = (Err e, s') → (let! x := c in k x) s = (Err e, s').
Proof. intros Ec. unfold sbind. by rewrite Ec. Qed.
(** The ways a sequence can end. *)
Lemma sbind_inv {S E A B} (c : st S E A) (k : A → st S E B) s r s' :
  (let! x := c in k x) s = (r, s') →
  (∃ a s1, c s = (Ok a, s1) ∧ k a s1 = (r, s')) ∨ (∃ e, c s = (Err e, s') ∧ r = Err e).
Proof.
  unfold sbind. destruct (c s) as [[a|e] s1]; [left|right].
  - by exists a, s1.
  - exists e. by simplify_eq.
Qed.

(** [keeps J c]: the computation preserves [J], whether it fails or not. *)
Definition keeps {S E A} (J : S → Prop) (c : st S E A) : Prop := ∀ s, J s → J (c s).2.

Lemma keeps_bind {S E A B} (J : S → Prop) (c : st S E A) (k : A → st S E B) :
  keeps J c → (∀ a s, J s → (c s).1 = Ok a → keeps J (k a)) → keeps J (let! a := c in k a).
Proof.
  intros Hc Hk s Hs. unfold sbind. specialize (Hc s Hs).
  destruct (c s) as [[a|e] s'] eqn:Ec; [|done]. apply (Hk a s Hs); [by rewrite Ec|done].
Qed.
Lemma keeps_ret {S E A} (J : S → Prop) (a : A) : keeps J (sret (E := E) a).
Proof. by intros s. Qed.
Lemma keeps_fail {S E A} (J : S → Prop) (e : E) : keeps J (sfail (A := A) e).
Proof. by intros s. Qed.
Lemma keeps_read {S E A} (J : S → Prop) (f : S → result E A) : keeps J (sread f).
Proof. by intros s. Qed.
Create HintDb keeps.
#[export] Hint Resolve keeps_ret keeps_fail keeps_read : keeps.

(** Follow the structure of a computation. *)
Ltac keep :=
  repeat first
    [ solve [auto with keeps]
    | apply keeps_bind; [|intros ? [? ?] ? ?]
    | match goal with |- keeps _ (match ?c with _ => _ end) => destruct c end ].

(** ** Triples *)

(** [ensures J P c Q]: from a state in [P], [c] succeeds in [Q] or fails in [J]. *)
Section triples.
Context {S E : Type} (J : S → Prop).
Definition ensures {A} (P : S → Prop) (c : st S E A) (Q : A → S → Prop) : Prop :=
  ∀ f, P f → match c f with (Ok a, f') => Q a f' | (Err _, f') => J f' end.

Lemma ensures_bind {A B} P (c : st S E A) R (k : A → st S E B) Q :
  ensures P c R → (∀ a, ensures (R a) (k a) Q) → ensures P (let! a := c in k a) Q.
Proof.
  intros Hc Hk f Hf. unfold sbind. specialize (Hc f Hf). destruct (c f) as [[a|e] f1]; [|done]. by apply Hk.
Qed.
Lemma ensures_ret {A} (P : S → Prop) (a : A) (Q : A → S → Prop) : (∀ f, P f → Q a f) → ensures P (sret a) Q.
Proof. intros HQ f Hf. by apply HQ. Qed.
Lemma ensures_fail {A} (P : S → Prop) e (Q : A → S → Prop) : (∀ f, P f → J f) → ensures P (sfail e) Q.
Proof. intros HP f Hf. by apply HP. Qed.
Lemma ensures_read {A} (P : S → Prop) (g : S → result E A) : (∀ f, P f → J f) → ensures P (sread g) (λ _, P).
Proof. intros HP f Hf. unfold sread. destruct (g f); [done|by apply HP]. Qed.
Lemma ensures_conseq {A} (P P' : S → Prop) (c : st S E A) Q Q' :
  ensures P c Q → (∀ f, P' f → P f) → (∀ a f, Q a f → Q' a f) → ensures P' c Q'.
Proof.
  intros Hc HP HQ f Hf. specialize (Hc f (HP f Hf)). destruct (c f) as [[a|e] f1]; [by apply HQ|done].
Qed.
Lemma ensures_left {A} (P R : S → Prop) (c : st S E A) Q : ensures P c Q → ensures (λ f, P f ∧ R f) c Q.
Proof. intros Hc f [Hf _]. by apply Hc. Qed.
Lemma ensures_pure {A} (P : S → Prop) (φ : Prop) (c : st S E A) Q :
  (φ → ensures P c Q) → ensures (λ f, P f ∧ φ) c Q.
Proof. intros Hc f [Hf ?]. by apply Hc. Qed.
Lemma ensures_snd {A} (P : S → Prop) (c : st S E A) : (∀ f, P f → J (c f).2) → ensures P c (λ _, J).
Proof. intros H f Hf. specialize (H f Hf). by destruct (c f) as [[] ?]. Qed.
Lemma ensures_run {A} P (c : st S E A) f : ensures P c (λ _, J) → P f → J (c f).2.
Proof. intros H Hf. specialize (H f Hf). by destruct (c f) as [[] ?]. Qed.
End triples.

(** ** Record updates *)

(** [Settable R] gives the eta expansion of a record; [SetField proj] is then
    derived by abstracting the occurrence of [proj r] in it.  Updates are
    written [r <| field := v |>], as a Rust assignment to one field. *)
Class Settable (R : Type) := eta_expand : R → R.
Class SetField {R E : Type} (proj : R → E) := set_field : (E → E) → R → R.
Arguments set_field {R E} proj {_} _ _.

Ltac derive_set_field :=
  lazymatch goal with
  | |- @SetField ?R ?E ?proj =>
      let s := constr:(_ : Settable R) in
      exact (λ (f : E → E) (r : R),
        ltac:(let e := eval hnf in (s r) in
              lazymatch e with context [proj r] => idtac end;
              lazymatch eval pattern (proj r) in e with
              | ?g _ => let t := eval cbv beta in (g (f (proj r))) in exact t
              end))
  end.
#[export] Hint Extern 1 (SetField _) => derive_set_field : typeclass_instances.

Declare Scope record_scope.
Delimit Scope record_scope with record.
Notation "r <| proj := v |>" := (set_field proj (λ _, v) r)
  (at level 1, left associativity, proj at level 11, v at level 99,
   format "r  <|  proj  :=  v  |>") : record_scope.
Notation "r <| proj ::= f |>" := (set_field proj f r)
  (at level 1, left associativity, proj at level 11, f at level 99,
   format "r  <|  proj  ::=  f  |>") : record_scope.
#[global] Open Scope record_scope.

(** ** Machine words *)

(** A [w]-bit unsigned word is a [Z] in [0, 2^w). *)
Definition word (w z : Z) : Prop := 0 ≤ z < 2 ^ w.

(** [as uN]: truncation to [w] bits. *)
Definition wrap (w z : Z) : Z := z `mod` 2 ^ w.

(** The two's complement value of an [n]-bit word. *)
Definition signed (n x : Z) : Z := if x <? 2 ^ (n - 1) then x else x - 2 ^ n.

Definition wrapping_add (w a b : Z) : Z := wrap w (a + b).
Definition wrapping_sub (w a b : Z) : Z := wrap w (a - b).
Definition wrapping_mul (w a b : Z) : Z := wrap w (a * b).
Definition saturating_add (w a b : Z) : Z := Z.min (a + b) (2 ^ w - 1).
Definition saturating_mul (w a b : Z) : Z := Z.min (a * b) (2 ^ w - 1).
Definition saturating_sub (a b : Z) : Z := Z.max 0 (a - b).
Definition checked_add (w a b : Z) : option Z :=
  if a + b <? 2 ^ w then Some (a + b) else None.
Definition checked_mul (w a b : Z) : option Z :=
  if a * b <? 2 ^ w then Some (a * b) else None.

(** Bitwise operators; [a .&~ b] is Rust's [a & !b]. *)
Declare Scope word_scope.
Delimit Scope word_scope with word.
Notation "a .& b" := (Z.land a b) (at level 52, left associativity) : word_scope.
Notation "a .&~ b" := (Z.ldiff a b) (at level 52, left associativity) : word_scope.
Notation "a .^ b" := (Z.lxor a b) (at level 53, left associativity) : word_scope.
Notation "a .| b" := (Z.lor a b) (at level 54, left associativity) : word_scope.
#[global] Open Scope word_scope.

(** [x & m != 0] *)
Definition has (x m : Z) : bool := negb (x .& m =? 0).

(** [1 << i] *)
Definition bit (i : Z) : Z := 1 ≪ i.

(** [x.trailing_zeros()] and [x.leading_zeros()] at width [w]. *)
Fixpoint pos_ctz (p : positive) : Z :=
  match p with xO q => 1 + pos_ctz q | _ => 0 end.

Definition trailing_zeros (w x : Z) : Z :=
  match x with Zpos p => pos_ctz p | _ => w end.

Definition leading_zeros (w x : Z) : Z :=
  if x =? 0 then w else w - 1 - Z.log2 x.

(** [v.to_le_bytes()] of an [n]-byte integer and [from_le_bytes]. *)
Definition to_le_bytes (n v : Z) : list Z := Z_to_little_endian n 8 v.
Definition from_le_bytes (bs : list Z) : Z := little_endian_to_Z 8 bs.

(** [&a[start..start + len]] *)
Definition slice {A} (l : list A) (start len : Z) : list A :=
  take (Z.to_nat len) (drop (Z.to_nat start) l).

(** [a[start..start + k.len()].copy_from_slice(k)] *)
Definition splice {A} (l : list A) (start : Z) (k : list A) : list A :=
  list_inserts (Z.to_nat start) k l.

(** [v.len()] as a [u64]/[usize]. *)
Definition len {A} (l : list A) : Z := Z.of_nat (length l).

Arguments word : simpl never.
Arguments wrap : simpl never.
Arguments has : simpl never.
Arguments bit : simpl never.
Arguments trailing_zeros : simpl never.
Arguments leading_zeros : simpl never.
Arguments to_le_bytes : simpl never.
Arguments from_le_bytes : simpl never.
Arguments slice : simpl never.
Arguments splice : simpl never.
Arguments len : simpl never.
#[global] Arguments Z.testbit : simpl never.

(** ** Bits *)

Create HintDb words.

Lemma bit_pow2 i : 0 ≤ i → bit i = 2 ^ i.
Proof. intros. unfold bit. rewrite Z.shiftl_mul_pow2 by lia. lia. Qed.

Lemma bit_testbit i j : 0 ≤ i → 0 ≤ j → Z.testbit (bit i) j = bool_decide (i = j).
Proof.
  intros. rewrite bit_pow2 by lia. case_bool_decide.
  - subst. by apply Z.pow2_bits_true.
  - by apply Z.pow2_bits_false.
Qed.

Lemma has_testbit x i : 0 ≤ i → has x (bit i) = Z.testbit x i.
Proof.
  intros Hi. unfold has. rewrite bit_pow2 by lia.
  destruct (Z.testbit x i) eqn:E.
  - apply negb_true_iff, Z.eqb_neq. intros H0.
    assert (Z.testbit (x .& 2 ^ i) i = false) as Hf by by rewrite H0, Z.bits_0.
    rewrite Z.land_spec, E, Z.pow2_bits_true in Hf by lia. done.
  - apply negb_false_iff, Z.eqb_eq, Z.bits_inj'. intros j Hj.
    rewrite Z.land_spec, Z.bits_0.
    destruct (decide (i = j)) as [<-|]; [by rewrite E|].
    by rewrite Z.pow2_bits_false, andb_false_r by lia.
Qed.

Lemma has_0_l m : has 0 m = false.
Proof. done. Qed.

Lemma word_nonneg w x : word w x → 0 ≤ x.
Proof. by intros []. Qed.

Lemma word_testbit w x i : word w x → 0 ≤ w ≤ i → Z.testbit x i = false.
Proof.
  intros [Hx Hlt] [Hw Hi]. apply (Z.bounded_iff_bits_nonneg w x); lia.
Qed.

Lemma word_bits w x :
  0 ≤ w → 0 ≤ x → (∀ i, w ≤ i → Z.testbit x i = false) → word w x.
Proof. intros Hw Hx Hbits. split; [done|]. by apply Z.bounded_iff_bits_nonneg. Qed.

Lemma word_mono w w' x : w ≤ w' → 0 ≤ w → word w x → word w' x.
Proof. intros Hle Hw [??]. split; [done|]. pose proof (Z.pow_le_mono_r 2 w w'). lia. Qed.

Lemma word_wrap w x : 0 ≤ w → word w (wrap w x).
Proof. intros. apply Z.mod_pos_bound. lia. Qed.

Lemma wrap_small w x : word w x → wrap w x = x.
Proof. intros. by apply Z.mod_small. Qed.

Lemma word_land w x y : 0 ≤ w → word w x → 0 ≤ y → word w (x .& y).
Proof.
  intros Hw Hx Hy. apply word_bits; [done|apply Z.land_nonneg; left; by eapply word_nonneg|].
  intros i Hi. by rewrite Z.land_spec, (word_testbit w).
Qed.

Lemma word_land_r w x y : 0 ≤ w → 0 ≤ x → word w y → word w (x .& y).
Proof. intros. rewrite Z.land_comm. by apply word_land. Qed.

Lemma word_ldiff w x y : 0 ≤ w → word w x → word w (x .&~ y).
Proof.
  intros Hw Hx. apply word_bits; [done|apply Z.ldiff_nonneg; left; by eapply word_nonneg|].
  intros i Hi. by rewrite Z.ldiff_spec, (word_testbit w).
Qed.

Lemma word_lor w x y : 0 ≤ w → word w x → word w y → word w (x .| y).
Proof.
  intros Hw Hx Hy. apply word_bits; [done| |].
  - apply Z.lor_nonneg. split; by eapply word_nonneg.
  - intros i Hi. by rewrite Z.lor_spec, !(word_testbit w).
Qed.

Lemma word_lxor w x y : 0 ≤ w → word w x → word w y → word w (x .^ y).
Proof.
  intros Hw Hx Hy. apply word_bits; [done| |].
  - apply Z.lxor_nonneg. split; intros _; by eapply word_nonneg.
  - intros i Hi. by rewrite Z.lxor_spec, !(word_testbit w).
Qed.

Lemma word_shiftr w x n : 0 ≤ n → word w x → word w (x ≫ n).
Proof.
  intros Hn [Hx Hlt]. split; [by apply Z.shiftr_nonneg|].
  rewrite Z.shiftr_div_pow2 by lia.
  apply Z.le_lt_trans with x; [|done].
  apply Z.div_le_upper_bound; nia.
Qed.

Lemma word_bit w i : 0 ≤ i < w → word w (bit i).
Proof.
  intros. rewrite bit_pow2 by lia. split; [lia|]. apply Z.pow_lt_mono_r; lia.
Qed.

Lemma word_0 w : 0 ≤ w → word w 0.
Proof. intros. split; lia. Qed.

(** A concrete constant is a word when the comparison computes. *)
Lemma word_const w c : (0 <=? c) && (c <? 2 ^ w) = true → word w c.
Proof. unfold word. lia. Qed.

(** [lia] with [/] and [mod] by constants. *)
Ltac dlia := Z.to_euclidean_division_equations; lia.

(** Decide [word w e] by following the operators of [e]; leaves are constants
    and hypotheses. *)
Ltac solve_nonneg :=
  first [ lia
        | match goal with H : word _ ?x |- 0 ≤ ?x => exact (word_nonneg _ _ H) end
        | apply Z.land_nonneg; left; solve_nonneg
        | apply Z.lor_nonneg; split; solve_nonneg
        | apply Z.ldiff_nonneg; left; solve_nonneg
        | apply Z.shiftr_nonneg; solve_nonneg
        | apply Z.shiftl_nonneg; solve_nonneg ].
Ltac solve_word :=
  first
  [ assumption
  | lazymatch goal with
    | |- word _ (wrap _ _) =>
        first [ apply word_wrap; lia | eapply word_mono; [| |apply word_wrap; lia]; lia ]
    | |- word _ (_ .| _) => apply word_lor; [lia|solve_word|solve_word]
    | |- word _ (_ .^ _) => apply word_lxor; [lia|solve_word|solve_word]
    | |- word _ (_ .&~ _) => apply word_ldiff; [lia|solve_word]
    | |- word _ (_ .& _) =>
        first [ apply word_land; [lia|solve_word|solve_nonneg]
              | apply word_land_r; [lia|solve_nonneg|solve_word] ]
    | |- word _ (_ ≫ _) => apply word_shiftr; [lia|solve_word]
    | |- word _ (bit _) => apply word_bit; lia
    | |- word _ (if ?c then _ else _) => destruct c; solve_word
    | |- word _ (Zpos _) => apply word_const; reflexivity
    | |- word _ Z0 => apply word_const; reflexivity
    | |- word ?w ?x =>
        match goal with H : word ?v x |- _ => apply (word_mono v w x); [lia|lia|exact H] end
    end ].
#[export] Hint Extern 1 (word _ _) => solve_word : words.

Lemma wrap_testbit w x i : 0 ≤ w → 0 ≤ i →
  Z.testbit (wrap w x) i = bool_decide (i < w) && Z.testbit x i.
Proof.
  intros. unfold wrap. case_bool_decide.
  - rewrite Z.mod_pow2_bits_low by lia. done.
  - by rewrite Z.mod_pow2_bits_high by lia.
Qed.

Lemma wrap_land_ones w x : 0 ≤ w → wrap w x = x .& Z.ones w.
Proof. intros. by rewrite Z.land_ones. Qed.

(** Words of one width are equal when their bits agree below the width. *)
Lemma word_ext w x y :
  0 ≤ w → word w x → word w y → (∀ i, 0 ≤ i < w → Z.testbit x i = Z.testbit y i) → x = y.
Proof.
  intros Hw Hx Hy Hbits. apply Z.bits_inj'. intros i Hi.
  destruct (decide (i < w)); [apply Hbits; lia|].
  by rewrite !(word_testbit w) by (done || lia).
Qed.

Create Rewrite HintDb bits.
#[export] Hint Rewrite Z.land_spec Z.lor_spec Z.lxor_spec Z.ldiff_spec Z.bits_0 : bits.
#[export] Hint Rewrite Z.shiftr_spec Z.shiftl_spec bit_testbit has_testbit wrap_testbit
  using lia : bits.

(** Normalise [testbit] of bitwise expressions. *)
Ltac bits := repeat (progress autorewrite with bits in * ).

(** A low field joined with a high one: the join is the positional sum, and
    both fields can be taken out again. *)
Lemma lor_shiftl w lo hi : 0 ≤ w → word w lo → lo .| (hi ≪ w) = lo + hi * 2 ^ w.
Proof.
  intros Hw Hlo. assert (lo .& (hi ≪ w) = 0) as Hdis.
  { apply Z.bits_inj'. intros i Hi. rewrite Z.land_spec, Z.bits_0, Z.shiftl_spec by done.
    destruct (decide (i < w)).
    - by rewrite (Z.testbit_neg_r hi), andb_false_r by lia.
    - by rewrite (word_testbit w) by (done || lia). }
  rewrite <- Z.lxor_lor, <- Z.add_nocarry_lxor by done. by rewrite Z.shiftl_mul_pow2.
Qed.

Lemma lor_shiftl_low w lo hi : 0 ≤ w → word w lo → wrap w (lo .| (hi ≪ w)) = lo.
Proof.
  intros Hw Hlo. rewrite lor_shiftl by done. unfold wrap.
  rewrite Z.mod_add by lia. by apply Z.mod_small.
Qed.

Lemma lor_shiftl_high w lo hi : 0 ≤ w → word w lo → (lo .| (hi ≪ w)) ≫ w = hi.
Proof.
  intros Hw Hlo. rewrite lor_shiftl, Z.shiftr_div_pow2 by done.
  rewrite Z.div_add by lia. rewrite Z.div_small by done. lia.
Qed.

(** ** Lowest and highest set bits *)

Lemma pos_ctz_nonneg p : 0 ≤ pos_ctz p.
Proof. induction p; simpl; lia. Qed.

Lemma trailing_zeros_spec w x :
  0 < x →
  Z.testbit x (trailing_zeros w x) = true ∧
  0 ≤ trailing_zeros w x ∧
  ∀ i, 0 ≤ i < trailing_zeros w x → Z.testbit x i = false.
Proof.
  destruct x as [|p|p]; try lia. intros _. unfold trailing_zeros.
  induction p as [p IH|p IH|]; simpl;
    [split_and!; [done|lia|intros; lia]| |split_and!; [done|lia|intros; lia]].
  pose proof (pos_ctz_nonneg p). destruct IH as (Hhit & _ & Hlow).
  rewrite Pos2Z.inj_xO. split; [|split; [lia|]].
  - replace (1 + pos_ctz p) with (Z.succ (pos_ctz p)) by lia.
    by rewrite Z.testbit_even_succ by lia.
  - intros i Hi. destruct (decide (i = 0)) as [->|].
    + apply Z.testbit_even_0.
    + replace i with (Z.succ (i - 1)) by lia.
      rewrite Z.testbit_even_succ by lia. apply Hlow. lia.
Qed.

Lemma trailing_zeros_lt w x : 0 ≤ w → word w x → x ≠ 0 → trailing_zeros w x < w.
Proof.
  intros Hw Hx Hne. destruct (trailing_zeros_spec w x) as (Hhit & _ & _).
  { destruct Hx. lia. }
  destruct (decide (w ≤ trailing_zeros w x)); [|lia].
  rewrite (word_testbit w) in Hhit by (done || lia). done.
Qed.

Lemma log2_word w x : 0 < w → word w x → x ≠ 0 → 0 ≤ Z.log2 x < w.
Proof.
  intros Hw [Hx Hlt] Hne. split; [apply Z.log2_nonneg|].
  apply Z.log2_lt_pow2; lia.
Qed.

(** ** Remainders of split amounts *)

Lemma mod_carry x y m :
  0 ≤ y → 0 < m → y < m - x `mod` m → (x + y) `mod` m = x `mod` m + y.
Proof.
  intros. pose proof (Z.mod_pos_bound x m ltac:(lia)).
  rewrite <- Z.add_mod_idemp_l by lia. apply Z.mod_small; lia.
Qed.

Lemma mod_restart x y m :
  0 < m → (y - (m - x `mod` m)) `mod` m = (x + y) `mod` m.
Proof.
  intros. replace (y - (m - x `mod` m)) with (x `mod` m + y + (-1) * m) by lia.
  rewrite Z.mod_add by lia. by rewrite Z.add_mod_idemp_l by lia.
Qed.

Lemma div_carry x y m :
  0 < m → (x + y) / m = x / m + (x `mod` m + y) / m.
Proof.
  intros. rewrite (Z.div_mod x m) at 1 by lia.
  replace (m * (x / m) + x `mod` m + y) with (x `mod` m + y + x / m * m) by lia.
  rewrite Z.div_add by lia. lia.
Qed.

(** ** Byte lists *)

Lemma len_nonneg {A} (l : list A) : 0 ≤ len l.
Proof. unfold len. lia. Qed.

Lemma len_app {A} (l k : list A) : len (l ++ k) = len l + len k.
Proof. unfold len. rewrite length_app. lia. Qed.

Lemma len_replicate {A} n (x : A) : 0 ≤ n → len (replicate (Z.to_nat n) x) = n.
Proof. intros. unfold len. rewrite length_replicate. lia. Qed.

Lemma len_to_le_bytes n v : 0 ≤ n → len (to_le_bytes n v) = n.
Proof. intros. by apply length_Z_to_little_endian. Qed.

Lemma from_to_le_bytes n v : 0 ≤ n → from_le_bytes (to_le_bytes n v) = wrap (8 * n) v.
Proof.
  intros. unfold from_le_bytes, to_le_bytes, wrap.
  rewrite little_endian_to_Z_to_little_endian by lia. f_equal. f_equal. lia.
Qed.

Lemma to_from_le_bytes bs :
  Forall (word 8) bs → to_le_bytes (len bs) (from_le_bytes bs) = bs.
Proof. intros. apply Z_to_little_endian_to_Z; [done|lia|done]. Qed.

Lemma to_le_bytes_words n v : 0 ≤ n → Forall (word 8) (to_le_bytes n v).
Proof. intros. apply Z_to_little_endian_bound; lia. Qed.

Lemma from_le_bytes_word bs : Forall (word 8) bs → word (8 * len bs) (from_le_bytes bs).
Proof.
  intros. unfold word, from_le_bytes.
  replace (8 * len bs) with (len bs * 8) by lia.
  apply little_endian_to_Z_bound; [lia|done].
Qed.

Lemma len_splice {A} (l : list A) s k : len (splice l s k) = len l.
Proof. unfold len, splice. by rewrite length_inserts. Qed.

Lemma len_slice {A} (l : list A) s n : 0 ≤ s → 0 ≤ n → s + n ≤ len l → len (slice l s n) = n.
Proof. intros. unfold len, slice in *. rewrite length_take, length_drop. lia. Qed.

Lemma slice_0_all {A} (l : list A) : slice l 0 (len l) = l.
Proof. unfold slice, len. rewrite Nat2Z.id. by apply take_ge. Qed.

Lemma lookup_slice {A} (l : list A) s n (i : nat) :
  0 ≤ s → Z.of_nat i < n → slice l s n !! i = l !! (Z.to_nat s + i)%nat.
Proof. intros. unfold slice. rewrite lookup_take_lt, lookup_drop by lia. done. Qed.

Lemma lookup_slice_ge {A} (l : list A) s n (i : nat) :
  n ≤ Z.of_nat i → slice l s n !! i = None.
Proof. intros. unfold slice. apply lookup_take_ge. lia. Qed.

(** The byte at [i] after a splice comes from the spliced list inside its range
    and from the old list outside it. *)
Lemma lookup_splice {A} (l : list A) s k (i : nat) :
  0 ≤ s → s + len k ≤ len l →
  splice l s k !! i =
    if decide (s ≤ Z.of_nat i < s + len k) then k !! (i - Z.to_nat s)%nat else l !! i.
Proof.
  intros Hs Hle. unfold splice, len in *. case_decide as Hin.
  - rewrite list_lookup_inserts by lia. done.
  - destruct (decide (Z.of_nat i < s)).
    + by rewrite list_lookup_inserts_lt by lia.
    + by rewrite list_lookup_inserts_ge by lia.
Qed.

Lemma slice_splice {A} (l : list A) s k :
  0 ≤ s → s + len k ≤ len l → slice (splice l s k) s (len k) = k.
Proof.
  intros Hs Hle. apply list_eq. intros i.
  destruct (decide (Z.of_nat i < len k)).
  - rewrite lookup_slice, lookup_splice by lia.
    rewrite decide_True by lia. f_equal. lia.
  - rewrite lookup_slice_ge by lia. symmetry. apply lookup_ge_None. unfold len in *. lia.
Qed.

Lemma slice_splice_disjoint {A} (l : list A) s k t n :
  0 ≤ s → 0 ≤ t → s + len k ≤ len l →
  t + n ≤ s ∨ s + len k ≤ t → slice (splice l s k) t n = slice l t n.
Proof.
  intros Hs Ht Hle Hdis. apply list_eq. intros i.
  destruct (decide (Z.of_nat i < n)).
  - rewrite !lookup_slice, lookup_splice by lia. rewrite decide_False by lia. done.
  - by rewrite !lookup_slice_ge by lia.
Qed.

Lemma splice_nil {A} (l : list A) s : splice l s [] = l.
Proof. done. Qed.

Lemma Forall_splice {A} (P : A → Prop) l s k :
  Forall P l → Forall P k → Forall P (splice l s k).
Proof. intros. by apply Forall_inserts. Qed.

Lemma Forall_slice {A} (P : A → Prop) l s n : Forall P l → Forall P (slice l s n).
Proof. intros. unfold slice. by apply Forall_take, Forall_drop. Qed.

Lemma slice_add {A} (l : list A) s n m :
  0 ≤ s → 0 ≤ n → 0 ≤ m → slice l s (n + m) = slice l s n ++ slice l (s + n) m.
Proof.
  intros. unfold slice. rewrite Z2Nat.inj_add, <-take_take_drop by lia.
  rewrite drop_drop. do 3 f_equal. lia.
Qed.

Lemma splice_app {A} (l : list A) s k1 k2 :
  0 ≤ s → splice l s (k1 ++ k2) = splice (splice l (s + len k1) k2) s k1.
Proof.
  intros Hs. unfold splice. revert s Hs. induction k1 as [|x k1 IH]; intros s Hs; simpl.
  - f_equal. unfold len. simpl. lia.
  - f_equal. specialize (IH (s + 1) ltac:(lia)).
    replace (S (Z.to_nat s)) with (Z.to_nat (s + 1)) by lia. rewrite IH.
    f_equal. f_equal. unfold len. simpl. lia.
Qed.

(** Two adjacent stores are one. *)
Lemma splice_adjacent {A} (l : list A) s k1 k2 :
  0 ≤ s → s + len k1 + len k2 ≤ len l →
  splice (splice l s k1) (s + len k1) k2 = splice l s (k1 ++ k2).
Proof.
  intros Hs Hle. apply list_eq. intros i.
  pose proof (len_nonneg k1). pose proof (len_nonneg k2).
  rewrite lookup_splice by (rewrite ?len_splice; lia).
  rewrite !lookup_splice by (rewrite ?len_app; lia). rewrite len_app.
  repeat case_decide; try lia; [| |done].
  - rewrite lookup_app_r by (unfold len in *; lia). f_equal. unfold len in *. lia.
  - rewrite lookup_app_l by (unfold len in *; lia). done.
Qed.

Lemma slice_slice {A} (l : list A) s n t k :
  0 ≤ s → 0 ≤ t → 0 ≤ k → t + k ≤ n → slice (slice l s n) t k = slice l (s + t) k.
Proof.
  intros. apply list_eq. intros i. destruct (decide (Z.of_nat i < k)).
  - rewrite !lookup_slice by lia. f_equal. lia.
  - by rewrite !lookup_slice_ge by lia.
Qed.

Lemma slice_0 {A} (l : list A) s : slice l s 0 = [].
Proof. done. Qed.

#[export] Hint Resolve len_nonneg to_le_bytes_words Forall_splice Forall_slice : words.
Lemma len_nil {A} : len (@nil A) = 0.
Proof. done. Qed.
Lemma len_cons {A} (x : A) l : len (x :: l) = 1 + len l.
Proof. unfold len. simpl. lia. Qed.

Create Rewrite HintDb len.
#[export] Hint Rewrite @len_nil @len_cons @len_app @len_splice : len.
#[export] Hint Rewrite @len_slice @len_to_le_bytes @len_replicate using lia : len.

(** A little-endian field reads back after it is stored. *)
Lemma from_le_bytes_splice n v a (l : list Z) :
  0 ≤ n → 0 ≤ a → a + n ≤ len l → word (8 * n) v →
  from_le_bytes (slice (splice l a (to_le_bytes n v)) a n) = v.
Proof.
  intros. pose proof (slice_splice l a (to_le_bytes n v)) as E.
  rewrite len_to_le_bytes in E by done. rewrite E, from_to_le_bytes by lia. by apply wrap_small.
Qed.

(** A property of a bounded range, checked by evaluation. *)
Lemma forallb_range (f : Z → bool) a n x :
  forallb f (seqZ a n) = true → a ≤ x < a + n → f x = true.
Proof.
  intros H Hx. rewrite forallb_forall in H. apply H, list_elem_of_In, elem_of_seqZ. lia.
Qed.

(** ** Case analysis *)

(** Split the innermost [if] or [match] of the goal or of hypothesis [H]. *)
Ltac split_match :=
  match goal with
  | |- context [match ?x with _ => _ end] =>
      lazymatch x with context [match _ with _ => _ end] => fail | _ => destruct x eqn:? end
  end.
Ltac split_match_in H :=
  match type of H with
  | context [match ?x with _ => _ end] =>
      lazymatch x with context [match _ with _ => _ end] => fail | _ => destruct x eqn:? end
  end.

(** Unpack the successful run of a [let?] chain. *)
Ltac inv_ok :=
  repeat match goal with
  | H : rbind _ _ = Ok _ |- _ => apply rbind_ok in H as (? & ? & ?)
  | H : Ok _ = Ok _ |- _ => injection H as H
  | H : Err _ = Ok _ |- _ => discriminate H
  end.

(** The lowest set bit of a non-zero word, as [trailing_zeros] finds it. *)
Lemma trailing_zeros_word w x :
  0 ≤ w → word w x → x ≠ 0 →
  0 ≤ trailing_zeros w x < w ∧ Z.testbit x (trailing_zeros w x) = true ∧
  ∀ i, Z.testbit x i = true → trailing_zeros w x ≤ i.
Proof.
  intros Hw Hx Hne. pose proof (trailing_zeros_lt w x Hw Hx Hne).
  destruct (trailing_zeros_spec w x) as (Hhit & Hpos & Hlow); [destruct Hx; lia|].
  split_and!; [lia|lia|done|]. intros i Hi.
  destruct (decide (i < trailing_zeros w x)); [|lia].
  destruct (decide (i < 0)); [by rewrite Z.testbit_neg_r in Hi by lia|].
  by rewrite Hlow in Hi by lia.
Qed.
