(* ===== verification/Pic8259.v ===== *)
(** The master/slave 8259A interrupt controller pair of
    [rish-softvm-core/src/devices/pic8259.rs]: its two chips, the line inputs
    and latches, the CPU side ([pending_irq], [acknowledge]) and the port side
    (ICW/OCW command and data writes).

    The theorems show that [pending_irq] selects exactly the first deliverable
    line in cascade priority order, that every operation preserves the chip
    invariant, that an acknowledged line stays quiet until an end-of-interrupt
    command, and that delivery fails closed until the initialisation sequence
    completes. *)
From S2P Require Import Prelude.
Local Open Scope Z_scope.

Definition PIC_MASTER_COMMAND : Z := 0x20.
Definition PIC_MASTER_DATA : Z := 0x21.
Definition PIC_SLAVE_COMMAND : Z := 0xA0.
Definition PIC_SLAVE_DATA : Z := 0xA1.
Definition ICW1_INIT : Z := 0x10.
Definition ICW1_ICW4 : Z := 0x01.
Definition ICW4_8086 : Z := 0x01.
Definition OCW2_EOI : Z := 0x20.

(** One chip. *)
Record Pic := mkPic {
  vector_offset : Z;
  mask : Z;
  init_state : Z;
  expect_icw4 : bool;
  in_service : Z;
  initialized : bool
}.
#[export] Instance Pic_eta : Settable Pic := λ p,
  mkPic (vector_offset p) (mask p) (init_state p) (expect_icw4 p) (in_service p) (initialized p).

(** [#[derive(Default)]] *)
Definition Pic_default : Pic := mkPic 0 0 0 false 0 false.

Record Pic8259 := mkPic8259 {
  master : Pic;
  slave : Pic;
  inputs : Z;
  latched : Z
}.
#[export] Instance Pic8259_eta : Settable Pic8259 := λ p,
  mkPic8259 (master p) (slave p) (inputs p) (latched p).

Definition new : Pic8259 := mkPic8259 Pic_default Pic_default 0 0.

Definition requests (p : Pic8259) : Z := inputs p .| latched p.

(** Lines of the slave that request, are unmasked and are not in service. *)
Definition slave_bits (p : Pic8259) : Z :=
  if initialized (slave p)
  then wrap 8 (requests p ≫ 8) .&~ mask (slave p) .&~ in_service (slave p)
  else 0.

(** The same for the master, without the cascade line. *)
Definition direct_bits (p : Pic8259) : Z :=
  wrap 8 (requests p) .&~ mask (master p) .&~ in_service (master p) .&~ bit 2.

Definition pending_irq (p : Pic8259) : option Z :=
  if negb (initialized (master p)) then None
  else
    let cascade := if negb (slave_bits p =? 0) then bit 2 else 0 in
    let master_pending := direct_bits p .| cascade in
    if master_pending =? 0 then None
    else
      let line := trailing_zeros 8 master_pending in
      if line =? 2 then
        let slave_line := trailing_zeros 8 (slave_bits p) in
        Some (8 + slave_line)
      else Some line.

(** The vector handed to the CPU and the new state. *)
Definition acknowledge (irq : Z) (p : Pic8259) : Z * Pic8259 :=
  if negb (initialized (master p)) || ((irq >=? 8) && negb (initialized (slave p))) then (0, p)
  else
    let p := p <| latched ::= λ l, l .&~ bit irq |> in
    if irq >=? 8 then
      let p := p <| slave ::= λ c, c <| in_service ::= λ s, s .| bit (irq - 8) |> |> in
      let p := p <| master ::= λ c, c <| in_service ::= λ s, s .| bit 2 |> |> in
      (wrapping_add 8 (vector_offset (slave p)) (irq - 8), p)
    else
      let p := p <| master ::= λ c, c <| in_service ::= λ s, s .| bit irq |> |> in
      (wrapping_add 8 (vector_offset (master p)) irq, p).

Definition pulse (line : Z) (p : Pic8259) : Pic8259 :=
  if line <? 16 then p <| latched ::= λ l, l .| bit line |> else p.

Definition end_of_interrupt (irq : Z) (p : Pic8259) : Pic8259 :=
  if irq >=? 8 then
    p <| slave ::= λ c, c <| in_service ::= λ s, s .&~ bit (irq - 8) |> |>
  else
    p <| master ::= λ c, c <| in_service ::= λ s, s .&~ bit irq |> |>.

(** [lines.asserted] is the argument. *)
Definition set_input (asserted : Z) (p : Pic8259) : Pic8259 :=
  let p := p <| latched ::= λ l, l .| (asserted .&~ inputs p) |> in
  p <| inputs := asserted |>.

(** The body shared by [write_master_command] and [write_slave_command]. *)
Definition chip_command (value : Z) (c : Pic) : Pic :=
  if has value ICW1_INIT then
    c <| init_state := 1 |> <| expect_icw4 := has value ICW1_ICW4 |> <| initialized := false |>
  else
    let code := value .& 0xE0 in
    if code =? 0x60 then c <| in_service ::= λ s, s .&~ bit (value .& 7) |>
    else if code =? OCW2_EOI then c <| in_service := 0 |>
    else c.

(** The body shared by [write_master_data] and [write_slave_data]. *)
Definition chip_data (value : Z) (c : Pic) : Pic :=
  match init_state c with
  | 1 => c <| vector_offset := value .& 0xF8 |> <| init_state := 2 |>
  | 2 => c <| init_state := 3 |>
  | 3 =>
      let c := if expect_icw4 c && has value ICW4_8086 then c <| initialized := true |> else c in
      c <| init_state := 0 |>
  | _ => c <| mask := value |>
  end.

Definition write_master_command (value : Z) (p : Pic8259) : Pic8259 :=
  p <| master ::= chip_command value |>.
Definition write_slave_command (value : Z) (p : Pic8259) : Pic8259 :=
  p <| slave ::= chip_command value |>.
Definition write_master_data (value : Z) (p : Pic8259) : Pic8259 :=
  p <| master ::= chip_data value |>.
Definition write_slave_data (value : Z) (p : Pic8259) : Pic8259 :=
  p <| slave ::= chip_data value |>.

(** [PortDevice::read] *)
Definition read (port : Z) (p : Pic8259) : Z :=
  if port =? PIC_MASTER_DATA then mask (master p)
  else if port =? PIC_SLAVE_DATA then mask (slave p)
  else 0.

(** [PortDevice::write]; [value] is the [u32] written. *)
Definition write (port value : Z) (p : Pic8259) : Pic8259 :=
  let value := wrap 8 value in
  if port =? PIC_MASTER_COMMAND then write_master_command value p
  else if port =? PIC_MASTER_DATA then write_master_data value p
  else if port =? PIC_SLAVE_COMMAND then write_slave_command value p
  else if port =? PIC_SLAVE_DATA then write_slave_data value p
  else p.

(** ** Invariant *)

Record chip_ok (c : Pic) : Prop := {
  ok_offset : word 8 (vector_offset c);
  ok_offset_low : vector_offset c .& 7 = 0;
  ok_mask : word 8 (mask c);
  ok_state : 0 ≤ init_state c ≤ 3;
  ok_service : word 8 (in_service c);
  ok_ready : initialized c = true → init_state c = 0
}.

Record pic_ok (p : Pic8259) : Prop := {
  ok_master : chip_ok (master p);
  ok_slave : chip_ok (slave p);
  ok_inputs : word 16 (inputs p);
  ok_latched : word 16 (latched p)
}.

(** What the two sides of the controller can do: the devices raise lines, the
    CPU acknowledges the line [pending_irq] reported, the guest writes ports. *)
Inductive step : Pic8259 → Pic8259 → Prop :=
| step_input lines p : word 16 lines → step p (set_input lines p)
| step_pulse line p : 0 ≤ line → step p (pulse line p)
| step_ack irq p : pending_irq p = Some irq → step p (acknowledge irq p).2
| step_write port value p : step p (write port value p).

(** The device side alone. *)
Inductive line_step : Pic8259 → Pic8259 → Prop :=
| line_input lines p : word 16 lines → line_step p (set_input lines p)
| line_pulse line p : 0 ≤ line → line_step p (pulse line p).

(** ** Specification of the priority scan *)

(** Line [irq] asks for service and nothing suppresses it. *)
Definition deliverable (p : Pic8259) (irq : Z) : bool :=
  initialized (master p) && Z.testbit (requests p) irq &&
  if irq <? 8 then
    negb (irq =? 2) && (0 <=? irq) &&
    negb (Z.testbit (mask (master p)) irq) && negb (Z.testbit (in_service (master p)) irq)
  else
    (irq <? 16) && initialized (slave p) &&
    negb (Z.testbit (mask (slave p)) (irq - 8)) && negb (Z.testbit (in_service (slave p)) (irq - 8)).

(** Cascade priority: 0, 1, 8 .. 15, 3 .. 7. *)
Definition rank (irq : Z) : Z :=
  if irq <? 2 then irq else if irq <? 8 then irq + 8 else irq - 6.

Lemma slave_bits_testbit p i :
  0 ≤ i < 8 → initialized (master p) = true →
  Z.testbit (slave_bits p) i = deliverable p (8 + i).
Proof.
  intros Hi Hm. unfold slave_bits, deliverable. rewrite Hm.
  rewrite (proj2 (Z.ltb_ge (8 + i) 8)), (proj2 (Z.ltb_lt (8 + i) 16)) by lia.
  replace (8 + i - 8) with i by lia.
  destruct (initialized (slave p)); bits; [|by rewrite !andb_false_r].
  rewrite bool_decide_eq_true_2 by lia. replace (i + 8) with (8 + i) by lia. simpl.
  by rewrite andb_assoc.
Qed.

Lemma direct_bits_testbit p i :
  0 ≤ i < 8 → initialized (master p) = true →
  Z.testbit (direct_bits p) i = deliverable p i.
Proof.
  intros Hi Hm. unfold direct_bits, deliverable. rewrite Hm.
  rewrite (proj2 (Z.ltb_lt i 8)), (proj2 (Z.leb_le 0 i)) by lia.
  bits. rewrite bool_decide_eq_true_2 by lia. simpl.
  destruct (Z.eqb_spec i 2) as [->|]; simpl; [by rewrite !andb_false_r|].
  rewrite bool_decide_eq_false_2 by lia. simpl. by rewrite andb_true_r, andb_assoc.
Qed.

Lemma slave_bits_word p : word 8 (slave_bits p).
Proof. unfold slave_bits. destruct (initialized _); auto 10 with words. Qed.

Lemma direct_bits_word p : word 8 (direct_bits p).
Proof. unfold direct_bits. auto 10 with words. Qed.

Lemma deliverable_range p j :
  deliverable p j = true → 0 ≤ j < 16 ∧ j ≠ 2 ∧ initialized (master p) = true ∧
  (8 ≤ j → initialized (slave p) = true).
Proof.
  unfold deliverable. rewrite !andb_true_iff. intros [[Hm Hr] Hl].
  destruct (Z.ltb_spec j 8); rewrite !andb_true_iff in Hl; destruct_and!;
    split_and!; intros; done || lia.
Qed.

Lemma rank_inj i j :
  0 ≤ i < 16 → 0 ≤ j < 16 → i ≠ 2 → j ≠ 2 → rank i ≤ rank j → rank j ≤ rank i → i = j.
Proof.
  unfold rank. intros.
  destruct (Z.ltb_spec i 2), (Z.ltb_spec j 2), (Z.ltb_spec i 8), (Z.ltb_spec j 8); lia.
Qed.

(** The bits the scan looks at: a line of the master, or line 2 for the slave. *)
Definition master_pending (p : Pic8259) : Z :=
  direct_bits p .| (if negb (slave_bits p =? 0) then bit 2 else 0).

Lemma master_pending_word p : word 8 (master_pending p).
Proof.
  apply word_lor; [lia|apply direct_bits_word|]. destruct (negb _); auto with words.
Qed.

Lemma master_pending_testbit p i :
  0 ≤ i < 8 → initialized (master p) = true →
  Z.testbit (master_pending p) i =
    if i =? 2 then negb (slave_bits p =? 0) else deliverable p i.
Proof.
  intros Hi Hm. unfold master_pending. rewrite Z.lor_spec, direct_bits_testbit by done.
  destruct (Z.eqb_spec i 2) as [->|].
  - replace (deliverable p 2) with false; [by destruct (negb _)|].
    unfold deliverable. simpl. by rewrite !andb_false_r.
  - replace (Z.testbit (if negb (slave_bits p =? 0) then bit 2 else 0) i) with false;
      [by rewrite orb_false_r|].
    destruct (negb _); [|by rewrite Z.bits_0].
    rewrite bit_testbit by lia. by rewrite bool_decide_eq_false_2 by lia.
Qed.

Lemma pending_irq_selects p irq :
  pending_irq p = Some irq →
  deliverable p irq = true ∧ ∀ j, deliverable p j = true → rank irq ≤ rank j.
Proof.
  unfold pending_irq. destruct (initialized (master p)) eqn:Hm; [|done]. simpl.
  fold (master_pending p). destruct (Z.eqb_spec (master_pending p) 0) as [|Hne]; [done|].
  destruct (trailing_zeros_word 8 _ ltac:(lia) (master_pending_word p) Hne) as (Hb & Hhit & Hlow).
  set (line := trailing_zeros 8 (master_pending p)) in *.
  rewrite master_pending_testbit in Hhit by done.
  assert (∀ j, deliverable p j = true → (if j <? 8 then line ≤ j else line ≤ 2)) as Hmin.
  { intros j Hj. destruct (deliverable_range p j Hj) as (Hjr & Hj2 & _ & _).
    destruct (Z.ltb_spec j 8); apply Hlow; rewrite master_pending_testbit by (done || lia).
    - by destruct (Z.eqb_spec j 2).
    - simpl. apply negb_true_iff, Z.eqb_neq. intros H0.
      replace j with (8 + (j - 8)) in Hj by lia.
      rewrite <-slave_bits_testbit, H0, Z.bits_0 in Hj by (done || lia). done. }
  destruct (Z.eqb_spec line 2) as [Hl|Hl]; intros [= <-].
  - apply negb_true_iff, Z.eqb_neq in Hhit.
    destruct (trailing_zeros_word 8 _ ltac:(lia) (slave_bits_word p) Hhit) as (Hsb & Hsh & Hsl).
    split; [by rewrite <-slave_bits_testbit by done|]. intros j Hj.
    specialize (Hmin j Hj). destruct (deliverable_range p j Hj) as (Hjr & Hj2 & _ & _).
    replace (rank (8 + _)) with (2 + trailing_zeros 8 (slave_bits p)) by (unfold rank; repeat case_match; lia).
    unfold rank. destruct (Z.ltb_spec j 8); [destruct (Z.ltb_spec j 2); lia|].
    destruct (Z.ltb_spec j 2); [lia|]. assert (trailing_zeros 8 (slave_bits p) ≤ j - 8); [|lia].
    apply Hsl. rewrite slave_bits_testbit by (done || lia).
    by replace (8 + (j - 8)) with j by lia.
  - split; [done|]. intros j Hj. specialize (Hmin j Hj).
    destruct (deliverable_range p j Hj) as (Hjr & Hj2 & _ & _).
    unfold rank. destruct (Z.ltb_spec j 8), (Z.ltb_spec line 2), (Z.ltb_spec line 8),
      (Z.ltb_spec j 2); lia.
Qed.

Lemma pending_irq_none p j : pending_irq p = None → deliverable p j = false.
Proof.
  unfold pending_irq. destruct (deliverable p j) eqn:Hj; [|done].
  destruct (deliverable_range p j Hj) as (Hjr & Hj2 & Hm & _). rewrite Hm. simpl.
  fold (master_pending p). destruct (Z.eqb_spec (master_pending p) 0) as [H0|].
  2: by destruct (_ =? 2).
  assert (slave_bits p = 0) as Hs0.
  { pose proof (master_pending_testbit p 2 ltac:(lia) Hm) as H2.
    rewrite H0, Z.bits_0 in H2. simpl in H2. lia. }
  destruct (Z.ltb_spec j 8).
  - pose proof (master_pending_testbit p j ltac:(lia) Hm) as Hb.
    rewrite H0, Z.bits_0, (proj2 (Z.eqb_neq j 2)) in Hb by lia. congruence.
  - replace j with (8 + (j - 8)) in Hj by lia.
    rewrite <-slave_bits_testbit, Hs0, Z.bits_0 in Hj by (done || lia). done.
Qed.

(** [pending_irq] is the 8259 priority scan: it reports a line exactly when
    that line is deliverable (requested, unmasked, not in service, its chip
    initialised) and no deliverable line precedes it in cascade priority. *)
Theorem pending_irq_is_first_deliverable p irq :
  pending_irq p = Some irq ↔
  deliverable p irq = true ∧ ∀ j, deliverable p j = true → rank irq ≤ rank j.
Proof.
  split; [apply pending_irq_selects|]. intros [Hd Hmin].
  destruct (pending_irq p) as [irq'|] eqn:E; [|by rewrite (pending_irq_none p irq E) in Hd].
  destruct (pending_irq_selects p irq' E) as [Hd' Hmin'].
  destruct (deliverable_range _ _ Hd) as (? & ? & _), (deliverable_range _ _ Hd') as (? & ? & _).
  f_equal. apply rank_inj; auto.
Qed.

(** ** Invariant preservation *)

Lemma chip_ok_default : chip_ok Pic_default.
Proof. split; simpl; auto with words; done || lia. Qed.

Lemma chip_command_ok value c : chip_ok c → chip_ok (chip_command value c).
Proof.
  intros []. unfold chip_command. repeat case_match; split; simpl; auto with words; done || lia.
Qed.

Lemma chip_data_ok value c : word 8 value → chip_ok c → chip_ok (chip_data value c).
Proof.
  intros Hv [Hoff Hlow Hm Hs Hsv Hr]. unfold chip_data.
  assert ((value .& 0xF8) .& 7 = 0) as Hz
    by (rewrite <-Z.land_assoc; apply Z.land_0_r).
  repeat case_match; split; simpl; auto with words; try lia;
    intros Hi; specialize (Hr Hi); lia.
Qed.

Lemma chip_in_service_ok f c :
  word 8 (f (in_service c)) → chip_ok c → chip_ok (c <| in_service ::= f |>).
Proof. intros ? []. by split. Qed.

Lemma pic_set_input_ok lines p : word 16 lines → pic_ok p → pic_ok (set_input lines p).
Proof. intros ? []. split; simpl; auto with words. Qed.

Lemma pic_pulse_ok line p : 0 ≤ line → pic_ok p → pic_ok (pulse line p).
Proof.
  intros ? []. unfold pulse. destruct (Z.ltb_spec line 16); split; simpl; auto with words.
Qed.

Lemma pic_write_ok port value p : pic_ok p → pic_ok (write port value p).
Proof.
  intros []. unfold write. repeat case_match; try done; split; simpl;
    auto using chip_command_ok, chip_data_ok with words.
Qed.

Lemma pending_irq_range p irq :
  pending_irq p = Some irq →
  0 ≤ irq < 16 ∧ irq ≠ 2 ∧ initialized (master p) = true ∧ (8 ≤ irq → initialized (slave p) = true).
Proof. intros H. by apply deliverable_range, pending_irq_selects. Qed.

Lemma pic_acknowledge_ok irq p : 0 ≤ irq < 16 → pic_ok p → pic_ok (acknowledge irq p).2.
Proof.
  intros Hirq Hok. unfold acknowledge. destruct (_ || _); [done|]. destruct Hok as [Hm Hs ? ?].
  pose proof (ok_service _ Hm). pose proof (ok_service _ Hs).
  destruct (Z.geb_spec irq 8); split; simpl; auto with words;
    apply chip_in_service_ok; auto with words.
Qed.

Lemma pic_step_ok p q : step p q → pic_ok p → pic_ok q.
Proof.
  intros []; auto using pic_set_input_ok, pic_pulse_ok, pic_write_ok.
  intros. apply pic_acknowledge_ok; [|done]. by eapply proj1, pending_irq_range.
Qed.

(** every state the controller can reach from reset is well formed: byte
    registers stay bytes, a vector base is a multiple of eight, the ICW counter
    stays in 0..3, and a chip counts as initialised only between sequences. *)
Theorem reachable_pic_ok p : rtc step new p → pic_ok p.
Proof.
  intros Hr. assert (pic_ok new) as H0.
  { split; simpl; auto using chip_ok_default with words. }
  revert H0. induction Hr; eauto using pic_step_ok.
Qed.

(** ** Acknowledgement *)

Lemma line_step_chips p q :
  line_step p q → master q = master p ∧ slave q = slave p.
Proof. intros []; [done|]. unfold pulse. by case_match. Qed.

Lemma line_steps_chips p q :
  rtc line_step p q → master q = master p ∧ slave q = slave p.
Proof.
  induction 1 as [|p q r H _ [IH1 IH2]]; [done|].
  destruct (line_step_chips _ _ H). split; congruence.
Qed.

Lemma offset_add_word c i : chip_ok c → 0 ≤ i < 8 → wrapping_add 8 (vector_offset c) i = vector_offset c + i.
Proof.
  intros [[Hlo Hhi] Hlow _ _ _ _] Hi. apply Z.mod_small.
  change 7 with (Z.ones 3) in Hlow. rewrite Z.land_ones in Hlow by lia.
  change (2 ^ 3) with 8 in Hlow. change (2 ^ 8) with 256 in *.
  pose proof (Z.div_mod (vector_offset c) 8). lia.
Qed.

(** acknowledging the reported line yields its chip's base plus the line
    number, without wrapping, and from then on no device activity can make the
    controller report that line again before a command or data write. *)
Theorem acknowledge_pending p irq :
  pic_ok p → pending_irq p = Some irq →
  (acknowledge irq p).1 =
    vector_offset (if irq <? 8 then master p else slave p) + irq `mod` 8 ∧
  ∀ q, rtc line_step (acknowledge irq p).2 q → pending_irq q ≠ Some irq.
Proof.
  intros [Hm Hs _ _] Hp. destruct (pending_irq_range p irq Hp) as (Hr & H2 & Im & Is).
  assert (∀ q, master q = master (acknowledge irq p).2 → slave q = slave (acknowledge irq p).2 →
    deliverable q irq = false) as Hquiet.
  { intros q. unfold acknowledge, deliverable. rewrite Im. simpl.
    destruct (Z.ltb_spec irq 8), (Z.geb_spec irq 8); try lia; simpl; rewrite ?Is by lia; simpl.
    - intros -> _. simpl. rewrite Z.lor_spec, bit_testbit, bool_decide_eq_true_2 by lia.
      by rewrite orb_true_r, !andb_false_r.
    - intros _ ->. simpl. rewrite Z.lor_spec, bit_testbit, bool_decide_eq_true_2 by lia.
      by rewrite orb_true_r, !andb_false_r. }
  split.
  - unfold acknowledge. rewrite Im. simpl.
    destruct (Z.ltb_spec irq 8), (Z.geb_spec irq 8); try lia; simpl; rewrite ?Is by lia; simpl.
    + rewrite Z.mod_small by lia. apply (offset_add_word (master p)); [done|lia].
    + replace (irq `mod` 8) with (irq - 8)
        by (apply (Z.mod_unique _ _ 1); lia).
      apply (offset_add_word (slave p)); [done|lia].
  - intros q Hq Hqp. apply line_steps_chips in Hq as [Hqm Hqs].
    apply pending_irq_selects in Hqp as [Hd _]. by rewrite Hquiet in Hd.
Qed.

(** ** Initialisation sequence *)

Lemma uninitialized_quiet p : initialized (master p) = false → pending_irq p = None.
Proof. intros H. unfold pending_irq. by rewrite H. Qed.

(** an ICW1 written to the master silences the pair at once, it stays
    silent while lines toggle between the ICW2 and ICW3 writes, and the fourth
    word re-arms the chip, with ICW2's base, exactly when ICW1 announced an
    ICW4 and that word selects 8086 mode; the mask and the slave are untouched. *)
Theorem icw_sequence_fails_closed p icw1 icw2 icw3 icw4 q1 q2 q3 :
  has (wrap 8 icw1) ICW1_INIT = true →
  rtc line_step (write PIC_MASTER_COMMAND icw1 p) q1 →
  rtc line_step (write PIC_MASTER_DATA icw2 q1) q2 →
  rtc line_step (write PIC_MASTER_DATA icw3 q2) q3 →
  let q4 := write PIC_MASTER_DATA icw4 q3 in
  pending_irq q1 = None ∧ pending_irq q2 = None ∧ pending_irq q3 = None ∧
  initialized (master q4) = has (wrap 8 icw1) ICW1_ICW4 && has (wrap 8 icw4) ICW4_8086 ∧
  vector_offset (master q4) = wrap 8 icw2 .& 0xF8 ∧
  mask (master q4) = mask (master p) ∧ slave q4 = slave p.
Proof.
  intros Hi H1 H2 H3. apply line_steps_chips in H1 as [M1 S1], H2 as [M2 S2], H3 as [M3 S3].
  cbn in M1, S1, M2, S2, M3, S3. unfold chip_command in M1. rewrite Hi in M1.
  rewrite M1 in M2. cbn in M2. rewrite M2 in M3. cbn in M3. cbn. rewrite M3. cbn.
  split_and!; try (apply uninitialized_quiet; first [by rewrite M1|by rewrite M2|by rewrite M3]).
  - by destruct (_ && _).
  - by destruct (_ && _).
  - by destruct (_ && _).
  - congruence.
Qed.

(** ** Witnesses and divergences *)

(** Both chips programmed as a guest does: bases 0x20 and 0x28. *)
Definition init_pic : Pic8259 :=
  write 0xA1 1 (write 0xA1 2 (write 0xA1 0x28 (write 0xA0 0x11
    (write 0x21 1 (write 0x21 4 (write 0x21 0x20 (write 0x20 0x11 new))))))).

Lemma init_pic_steps : rtc step new init_pic.
Proof. unfold init_pic. do 8 (eapply rtc_r; [|apply step_write]). apply rtc_refl. Qed.

Lemma reachable_pic_ok_witness : pic_ok (acknowledge 10 (pulse 10 init_pic)).2.
Proof.
  apply reachable_pic_ok. transitivity init_pic; [exact init_pic_steps|].
  eapply rtc_l; [apply (step_pulse 10); lia|].
  eapply rtc_once, step_ack. reflexivity.
Defined.

Lemma acknowledge_pending_witness :
  (acknowledge 10 (pulse 10 init_pic)).1 = 0x2A ∧
  pending_irq (pulse 10 (acknowledge 10 (pulse 10 init_pic)).2) ≠ Some 10.
Proof.
  destruct (acknowledge_pending (pulse 10 init_pic) 10) as [Hv Hq].
  - split; [split|split| |]; simpl; auto with words; lia || done.
  - reflexivity.
  - split; [exact Hv|]. apply Hq. apply rtc_once, line_pulse. lia.
Defined.

Lemma icw_sequence_fails_closed_witness :
  vector_offset (master (write 0x21 1 (write 0x21 4 (pulse 3 (write 0x21 0x47 (write 0x20 0x11 init_pic)))))) = 0x40.
Proof.
  destruct (icw_sequence_fails_closed init_pic 0x11 0x47 4 1
    (write 0x20 0x11 init_pic) (pulse 3 (write 0x21 0x47 (write 0x20 0x11 init_pic)))
    (write 0x21 4 (pulse 3 (write 0x21 0x47 (write 0x20 0x11 init_pic)))))
    as (_ & _ & _ & _ & Hv & _).
  - reflexivity.
  - apply rtc_refl.
  - apply rtc_once, line_pulse. lia.
  - apply rtc_refl.
  - exact Hv.
Defined.

(** The module comment says OCW2 rotation is treated as an EOI; the command
    decoder ignores it. *)
Lemma rotate_on_eoi_is_ignored p : write PIC_MASTER_COMMAND 0xA0 p = p.
Proof. by destruct p as [[] ? ? ?]. Qed.

(** The cascade line does not look at the master's mask: with every master line
    masked, a slave line is still reported. *)
Lemma cascade_ignores_master_mask :
  mask (master (write 0x21 0xFF init_pic)) = 0xFF ∧
  pending_irq (pulse 10 (write 0x21 0xFF init_pic)) = Some 10.
Proof. split; reflexivity. Qed.
