(* ===== verification/Lapic.v ===== *)
(** The local APIC of [rish-softvm-core/src/devices/lapic.rs]: the register
    file, the divided countdown timer, the request and in-service bitmaps, the
    self-IPI path and the queue of vectors accepted for the CPU.

    The theorems show that the in-service bitmap behaves as a stack of
    vectors of strictly increasing priority class, of which EOI retires the
    most recent, that dispatch picks the highest request and only when it
    outranks the task priority and everything in service, and that the
    countdown does not depend on how instructions are batched. *)
From stdpp Require Import sorting.
From S2P Require Import Prelude.
Local Open Scope Z_scope.

Definition LAPIC_BASE : Z := 0xFEE00000.
Definition LAPIC_SIZE : Z := 0x1000.
Definition LAPIC_ID : Z := 0x20.
Definition LAPIC_VERSION : Z := 0x30.
Definition LAPIC_TPR : Z := 0x80.
Definition LAPIC_APR : Z := 0x90.
Definition LAPIC_PPR : Z := 0xA0.
Definition LAPIC_EOI : Z := 0xB0.
Definition LAPIC_RRD : Z := 0xC0.
Definition LAPIC_LDR : Z := 0xD0.
Definition LAPIC_DFR : Z := 0xE0.
Definition LAPIC_SVR : Z := 0xF0.
Definition LAPIC_ISR_BASE : Z := 0x100.
Definition LAPIC_TMR_BASE : Z := 0x180.
Definition LAPIC_IRR_BASE : Z := 0x200.
Definition LAPIC_ESR : Z := 0x280.
Definition LAPIC_ICR_LO : Z := 0x300.
Definition LAPIC_ICR_HI : Z := 0x310.
Definition LAPIC_LVT_TIMER : Z := 0x320.
Definition LAPIC_LVT_THERMAL : Z := 0x330.
Definition LAPIC_LVT_PERF : Z := 0x340.
Definition LAPIC_LVT_LINT0 : Z := 0x350.
Definition LAPIC_LVT_LINT1 : Z := 0x360.
Definition LAPIC_LVT_ERROR : Z := 0x370.
Definition LAPIC_TIMER_INITIAL : Z := 0x380.
Definition LAPIC_TIMER_CURRENT : Z := 0x390.
Definition LAPIC_TIMER_DIVIDE : Z := 0x3E0.

Definition LVT_MASKED : Z := bit 16.
Definition LVT_TIMER_MODE : Z := 3 ≪ 17.
Definition LVT_TIMER_PERIODIC : Z := bit 17.
Definition SVR_ENABLED : Z := bit 8.
Definition ICR_SHORTHAND_SELF : Z := 1 ≪ 18.
Definition ICR_DELIVERY_MODE : Z := 7 ≪ 8.
Definition ICR_DELIVERY_PENDING : Z := bit 12.
Definition QUEUE_LIMIT : Z := 64.

(** [irr] and [isr] are the arrays [[u32; 8]]. *)
Record LocalApic := mkLocalApic {
  id : Z;
  svr : Z;
  tpr : Z;
  ldr : Z;
  dfr : Z;
  esr : Z;
  icr_lo : Z;
  icr_hi : Z;
  lvt_timer : Z;
  lvt_thermal : Z;
  lvt_perf : Z;
  lvt_lint0 : Z;
  lvt_lint1 : Z;
  lvt_error : Z;
  timer_initial : Z;
  timer_current : Z;
  timer_divide : Z;
  timer_fractional : Z;
  irr : list Z;
  isr : list Z;
  interrupt_queue : list Z
}.
#[export] Instance LocalApic_eta : Settable LocalApic := λ l,
  mkLocalApic (id l) (svr l) (tpr l) (ldr l) (dfr l) (esr l) (icr_lo l) (icr_hi l)
    (lvt_timer l) (lvt_thermal l) (lvt_perf l) (lvt_lint0 l) (lvt_lint1 l) (lvt_error l)
    (timer_initial l) (timer_current l) (timer_divide l) (timer_fractional l)
    (irr l) (isr l) (interrupt_queue l).

Definition new : LocalApic :=
  mkLocalApic 0 0xFF 0 0 0xFFFFFFFF 0 0 0
    LVT_MASKED LVT_MASKED LVT_MASKED LVT_MASKED LVT_MASKED LVT_MASKED
    0 0 0 0 (replicate 8 0) (replicate 8 0) [].

Definition software_enabled (l : LocalApic) : bool := has (svr l) SVR_ENABLED.

Definition divisor (configuration : Z) : Z :=
  let c := configuration .& 0xB in
  if c =? 0 then 2 else if c =? 1 then 4 else if c =? 2 then 8 else if c =? 3 then 16
  else if c =? 8 then 32 else if c =? 9 then 64 else if c =? 10 then 128 else 1.

(** [bitmap[v / 32] |= 1 << (v % 32)] and [&= !(1 << (v % 32))] *)
Definition bitmap_set (v : Z) (bm : list Z) : list Z :=
  alter (λ w, w .| bit (v `mod` 32)) (Z.to_nat (v / 32)) bm.
Definition bitmap_clear (v : Z) (bm : list Z) : list Z :=
  alter (λ w, w .&~ bit (v `mod` 32)) (Z.to_nat (v / 32)) bm.

Definition request (vector : Z) (l : LocalApic) : LocalApic := l <| irr ::= bitmap_set vector |>.

(** The [for index in (0..n).rev()] loop of [highest]. *)
Fixpoint highest_below (n : nat) (bitmap : list Z) : option Z :=
  match n with
  | O => None
  | S index =>
      let w := bitmap !!! index in
      if negb (w =? 0) then Some (wrap 8 (Z.of_nat index * 32 + (31 - leading_zeros 32 w)))
      else highest_below index bitmap
  end.
Definition highest (bitmap : list Z) : option Z := highest_below 8 bitmap.

(** Whether the [if let] guard of [dispatch_ready] blocks class [priority]. *)
Definition outranked (priority : Z) (l : LocalApic) : bool :=
  match highest (isr l) with
  | Some in_service => in_service ≫ 4 >=? priority
  | None => false
  end.

Definition dispatch_ready (l : LocalApic) : LocalApic :=
  if negb (software_enabled l) then l
  else
    match highest (irr l) with
    | None => l
    | Some vector =>
        let priority := vector ≫ 4 in
        if priority <=? (tpr l ≫ 4) then l
        else if outranked priority l then l
        else
          let l := l <| irr ::= bitmap_clear vector |> in
          let l := l <| isr ::= bitmap_set vector |> in
          if len (interrupt_queue l) <? QUEUE_LIMIT
          then l <| interrupt_queue ::= λ q, q ++ [vector] |> else l
    end.

Definition raise_lvt (entry : Z) (l : LocalApic) : LocalApic :=
  if has entry LVT_MASKED || negb (software_enabled l) then l
  else
    let vector := entry .& 0xFF in
    if vector >=? 16 then request vector l else l.

Definition advance_timer (instructions : Z) (l : LocalApic) : LocalApic :=
  if (timer_initial l =? 0) || (timer_current l =? 0) then l
  else
    let divide := divisor (timer_divide l) in
    let l := l <| timer_fractional ::= λ f, saturating_add 64 f instructions |> in
    let elapsed := timer_fractional l / divide in
    if elapsed =? 0 then l
    else
      let l := l <| timer_fractional ::= λ f, f - elapsed * divide |> in
      let periodic := lvt_timer l .& LVT_TIMER_MODE =? LVT_TIMER_PERIODIC in
      let remaining := timer_current l in
      if elapsed <? remaining then l <| timer_current ::= λ c, c - wrap 32 elapsed |>
      else
        let l :=
          if periodic then
            let period := timer_initial l in
            let overshoot := elapsed - remaining in
            l <| timer_current := wrap 32 (period - overshoot `mod` period) |>
          else l <| timer_current := 0 |> in
        raise_lvt (lvt_timer l) l.

Definition tick (instructions : Z) (l : LocalApic) : LocalApic :=
  dispatch_ready (advance_timer instructions l).

Definition end_of_interrupt (l : LocalApic) : option Z * LocalApic :=
  let retired := highest (isr l) in
  let l := match retired with
           | Some vector => l <| isr ::= bitmap_clear vector |>
           | None => l
           end in
  (retired, dispatch_ready l).

Definition pop_interrupt (l : LocalApic) : option Z * LocalApic :=
  match interrupt_queue l with
  | [] => (None, l)
  | v :: q => (Some v, l <| interrupt_queue := q |>)
  end.

Definition processor_priority (l : LocalApic) : Z :=
  let in_service := match highest (isr l) with Some v => (v ≫ 4) ≪ 4 | None => 0 end in
  let task := tpr l .& 0xF0 in
  Z.max task in_service.

(** The [match aligned] of [read]. *)
Definition register (aligned : Z) (l : LocalApic) : Z :=
  if aligned =? LAPIC_ID then wrap 32 (id l ≪ 24)
  else if aligned =? LAPIC_VERSION then 0x50014
  else if aligned =? LAPIC_TPR then tpr l
  else if aligned =? LAPIC_APR then 0
  else if aligned =? LAPIC_PPR then processor_priority l
  else if (aligned =? LAPIC_EOI) || (aligned =? LAPIC_RRD) then 0
  else if aligned =? LAPIC_LDR then ldr l
  else if aligned =? LAPIC_DFR then dfr l
  else if aligned =? LAPIC_SVR then svr l
  else if (LAPIC_ISR_BASE <=? aligned) && (aligned <=? 0x17F) then
    isr l !!! Z.to_nat ((aligned - LAPIC_ISR_BASE) / 16)
  else if (LAPIC_TMR_BASE <=? aligned) && (aligned <=? 0x1FF) then 0
  else if (LAPIC_IRR_BASE <=? aligned) && (aligned <=? 0x27F) then
    irr l !!! Z.to_nat ((aligned - LAPIC_IRR_BASE) / 16)
  else if aligned =? LAPIC_ESR then esr l
  else if aligned =? LAPIC_ICR_LO then icr_lo l .&~ ICR_DELIVERY_PENDING
  else if aligned =? LAPIC_ICR_HI then icr_hi l
  else if aligned =? LAPIC_LVT_TIMER then lvt_timer l
  else if aligned =? LAPIC_LVT_THERMAL then lvt_thermal l
  else if aligned =? LAPIC_LVT_PERF then lvt_perf l
  else if aligned =? LAPIC_LVT_LINT0 then lvt_lint0 l
  else if aligned =? LAPIC_LVT_LINT1 then lvt_lint1 l
  else if aligned =? LAPIC_LVT_ERROR then lvt_error l
  else if aligned =? LAPIC_TIMER_INITIAL then timer_initial l
  else if aligned =? LAPIC_TIMER_CURRENT then timer_current l
  else if aligned =? LAPIC_TIMER_DIVIDE then timer_divide l
  else 0.

Definition read (offset size : Z) (l : LocalApic) : Z :=
  let value := register (offset .&~ 3) l in
  if size =? 1 then (value ≫ ((offset .& 3) * 8)) .& 0xFF
  else if size =? 2 then (value ≫ ((offset .& 2) * 8)) .& 0xFFFF
  else value.

Definition send_ipi (value : Z) (l : LocalApic) : LocalApic :=
  let l := l <| icr_lo := value |> in
  let fixed := value .& ICR_DELIVERY_MODE =? 0 in
  if negb fixed then l
  else
    let to_self := (value .& (3 ≪ 18) =? ICR_SHORTHAND_SELF)
      || ((value .& (3 ≪ 18) =? 0) && (icr_hi l ≫ 24 =? id l)) in
    if negb to_self then l
    else
      let vector := value .& 0xFF in
      if vector >=? 16 then dispatch_ready (request vector l) else l.

Definition write (offset size value : Z) (l : LocalApic) : option Z * LocalApic :=
  if negb (size =? 4) then (None, l)
  else if offset =? LAPIC_EOI then end_of_interrupt l
  else
    (None,
     if offset =? LAPIC_ID then l <| id := value ≫ 24 |>
     else if offset =? LAPIC_TPR then dispatch_ready (l <| tpr := value .& 0xFF |>)
     else if offset =? LAPIC_LDR then l <| ldr := value .& 0xFF000000 |>
     else if offset =? LAPIC_DFR then l <| dfr := value .| 0x0FFFFFFF |>
     else if offset =? LAPIC_SVR then
       let l := l <| svr := value |> in
       if software_enabled l then dispatch_ready l else l
     else if offset =? LAPIC_ESR then l <| esr := 0 |>
     else if offset =? LAPIC_ICR_HI then l <| icr_hi := value |>
     else if offset =? LAPIC_ICR_LO then send_ipi value l
     else if offset =? LAPIC_LVT_TIMER then l <| lvt_timer := value |>
     else if offset =? LAPIC_LVT_THERMAL then l <| lvt_thermal := value |>
     else if offset =? LAPIC_LVT_PERF then l <| lvt_perf := value |>
     else if offset =? LAPIC_LVT_LINT0 then l <| lvt_lint0 := value |>
     else if offset =? LAPIC_LVT_LINT1 then l <| lvt_lint1 := value |>
     else if offset =? LAPIC_LVT_ERROR then l <| lvt_error := value |>
     else if offset =? LAPIC_TIMER_INITIAL then
       l <| timer_initial := value |> <| timer_current := value |> <| timer_fractional := 0 |>
     else if offset =? LAPIC_TIMER_DIVIDE then l <| timer_divide := value .& 0xB |>
     else l).

(** ** Bitmaps as sets of vectors *)

Definition vec (bm : list Z) (v : Z) : bool := Z.testbit (bm !!! Z.to_nat (v / 32)) (v `mod` 32).

Definition bitmap_ok (bm : list Z) : Prop := length bm = 8%nat ∧ Forall (word 32) bm.

Lemma vector_index v : 0 ≤ v < 256 → (Z.to_nat (v / 32) < 8)%nat ∧ 0 ≤ v `mod` 32 < 32.
Proof. intros. dlia. Qed.

Lemma bitmap_word bm i : bitmap_ok bm → (i < 8)%nat → word 32 (bm !!! i).
Proof.
  intros [Hl Hw] Hi. destruct (lookup_lt_is_Some_2 bm i) as [w E]; [lia|].
  rewrite (list_lookup_total_correct _ _ _ E). by eapply Forall_lookup_1 in Hw.
Qed.

Lemma alter_total (f : Z → Z) (bm : list Z) i j :
  (j < length bm)%nat →
  alter f i bm !!! j = if decide (i = j) then f (bm !!! j) else bm !!! j.
Proof.
  intros Hj. rewrite list_lookup_total_alter. repeat case_decide; naive_solver.
Qed.

Lemma alter_ok (f : Z → Z) i bm :
  (∀ w, word 32 w → word 32 (f w)) → bitmap_ok bm → bitmap_ok (alter f i bm).
Proof.
  intros Hf [Hl Hw]. split; [by rewrite length_alter|].
  apply Forall_alter; [done|]. intros x Hx. apply Hf.
Qed.

Lemma bitmap_set_ok v bm : 0 ≤ v → bitmap_ok bm → bitmap_ok (bitmap_set v bm).
Proof.
  intros Hv. apply alter_ok. intros w Hw.
  assert (0 ≤ v `mod` 32 < 32) by (apply Z.mod_pos_bound; lia). auto with words.
Qed.

Lemma bitmap_clear_ok v bm : bitmap_ok bm → bitmap_ok (bitmap_clear v bm).
Proof. apply alter_ok. auto with words. Qed.

(** Equal position in the bitmap is equality of vectors. *)
Lemma vector_split u v :
  Z.to_nat (u / 32) = Z.to_nat (v / 32) → u `mod` 32 = v `mod` 32 → 0 ≤ u → 0 ≤ v → u = v.
Proof. intros. dlia. Qed.

Lemma vec_set v u bm :
  bitmap_ok bm → 0 ≤ u < 256 → 0 ≤ v < 256 →
  vec (bitmap_set v bm) u = vec bm u || bool_decide (u = v).
Proof.
  intros Hbm Hu Hv. destruct (vector_index u Hu), (vector_index v Hv).
  unfold vec, bitmap_set. rewrite alter_total by (destruct Hbm; lia).
  destruct (decide _) as [E|E].
  - bits. f_equal. apply bool_decide_ext. split; [intros; apply vector_split; (done || lia)|by intros ->].
  - rewrite bool_decide_false, orb_false_r; [done|]. by intros ->.
Qed.

Lemma vec_clear v u bm :
  bitmap_ok bm → 0 ≤ u < 256 → 0 ≤ v < 256 →
  vec (bitmap_clear v bm) u = vec bm u && negb (bool_decide (u = v)).
Proof.
  intros Hbm Hu Hv. destruct (vector_index u Hu), (vector_index v Hv).
  unfold vec, bitmap_clear. rewrite alter_total by (destruct Hbm; lia).
  destruct (decide _) as [E|E].
  - bits. do 2 f_equal. apply bool_decide_ext. split; [intros; apply vector_split; (done || lia)|by intros ->].
  - rewrite (bool_decide_false (u = v)), andb_true_r; [done|]. by intros ->.
Qed.

Definition is_highest (bm : list Z) (r : option Z) (bound : Z) : Prop :=
  match r with
  | Some v => 0 ≤ v < bound ∧ vec bm v = true ∧ ∀ u, v < u < bound → vec bm u = false
  | None => ∀ u, 0 ≤ u < bound → vec bm u = false
  end.

Lemma highest_below_spec n bm :
  (n ≤ 8)%nat → bitmap_ok bm → is_highest bm (highest_below n bm) (32 * Z.of_nat n).
Proof.
  intros Hn Hbm. induction n as [|n IH]; simpl; [intros u; lia|].
  pose proof (bitmap_word bm n Hbm ltac:(lia)) as Hw.
  assert (∀ k, 0 ≤ k < 32 → vec bm (32 * Z.of_nat n + k) = Z.testbit (bm !!! n) k) as Hvec.
  { intros k Hk. unfold vec. replace ((32 * Z.of_nat n + k) / 32) with (Z.of_nat n) by dlia.
    replace ((32 * Z.of_nat n + k) `mod` 32) with k by dlia. by rewrite Nat2Z.id. }
  destruct (Z.eqb_spec (bm !!! n) 0) as [E|E]; simpl.
  - assert (∀ u, 32 * Z.of_nat n ≤ u < 32 * Z.of_nat (S n) → vec bm u = false) as Hz.
    { intros u Hu. replace u with (32 * Z.of_nat n + (u - 32 * Z.of_nat n)) by lia.
      rewrite Hvec, E by lia. apply Z.bits_0. }
    specialize (IH ltac:(lia)). unfold is_highest in *. destruct (highest_below n bm) as [v|].
    + destruct IH as (Hv & Hs & Hhi). split_and!; [lia..|done|]. intros u Hu.
      destruct (decide (u < 32 * Z.of_nat n)); [apply Hhi; lia|apply Hz; lia].
    + intros u Hu. destruct (decide (u < 32 * Z.of_nat n)); [apply IH; lia|apply Hz; lia].
  - pose proof (log2_word 32 _ ltac:(lia) Hw E). unfold leading_zeros.
    rewrite (proj2 (Z.eqb_neq _ _) E), wrap_small by (unfold word; lia).
    replace (Z.of_nat n * 32 + (31 - (32 - 1 - Z.log2 (bm !!! n))))
      with (32 * Z.of_nat n + Z.log2 (bm !!! n)) by lia.
    assert (0 < bm !!! n) by (destruct Hw; lia).
    split_and!; [lia..|rewrite Hvec by lia; by apply Z.bit_log2|].
    intros u Hu. replace u with (32 * Z.of_nat n + (u - 32 * Z.of_nat n)) by lia.
    rewrite Hvec by lia. apply Z.bits_above_log2; lia.
Qed.

Lemma highest_spec bm : bitmap_ok bm → is_highest bm (highest bm) 256.
Proof. apply (highest_below_spec 8); lia. Qed.

Lemma highest_unique bm v :
  bitmap_ok bm → 0 ≤ v < 256 → vec bm v = true → (∀ u, v < u < 256 → vec bm u = false) →
  highest bm = Some v.
Proof.
  intros Hbm Hv Hs Hhi. pose proof (highest_spec bm Hbm) as Hspec.
  destruct (highest bm) as [w|]; simpl in Hspec.
  - destruct Hspec as (Hw & Hsw & Hhw). f_equal.
    destruct (Z.lt_trichotomy v w) as [|[|]]; [|done|].
    + rewrite Hhi in Hsw; [done|lia].
    + rewrite Hhw in Hs; [done|lia].
  - by rewrite Hspec in Hs.
Qed.

(** ** The invariant and the in-service stack *)

Record lapic_ok (l : LocalApic) : Prop := mk_lapic_ok {
  ok_irr : bitmap_ok (irr l);
  ok_isr : bitmap_ok (isr l);
  ok_tpr : word 8 (tpr l);
  ok_initial : word 32 (timer_initial l);
  ok_current : 0 ≤ timer_current l ≤ timer_initial l;
  ok_fraction : 0 ≤ timer_fractional l < 128;
  ok_lvt_timer : word 32 (lvt_timer l);
  ok_queue : len (interrupt_queue l) ≤ QUEUE_LIMIT;
  ok_vectors : Forall (λ v, 16 ≤ v < 256) (interrupt_queue l)
}.

(** The abstract view: vectors in service, most recent first, each of a
    strictly higher priority class than the ones it interrupted. *)
Definition outranks (u v : Z) : Prop := v ≫ 4 < u ≫ 4.

Record in_service (l : LocalApic) (s : list Z) : Prop := mk_in_service {
  is_members : ∀ v, 0 ≤ v < 256 → vec (isr l) v = true ↔ v ∈ s;
  is_range : Forall (λ v, 16 ≤ v < 256) s;
  is_sorted : StronglySorted outranks s
}.

(** Whether [dispatch_ready] hands [v] to the CPU. *)
Record deliverable (l : LocalApic) (v : Z) : Prop := mk_deliverable {
  dl_range : 0 ≤ v < 256;
  dl_enabled : software_enabled l = true;
  dl_requested : vec (irr l) v = true;
  dl_highest : ∀ u, v < u < 256 → vec (irr l) u = false;
  dl_task : tpr l ≫ 4 < v ≫ 4;
  dl_service : ∀ u, 0 ≤ u < 256 → vec (isr l) u = true → u ≫ 4 < v ≫ 4
}.

Lemma class_lt u v : u ≫ 4 < v ≫ 4 → u < v.
Proof. rewrite !Z.shiftr_div_pow2 by done. dlia. Qed.

Lemma class_le u v : u ≤ v → u ≫ 4 ≤ v ≫ 4.
Proof. rewrite !Z.shiftr_div_pow2 by done. dlia. Qed.

Lemma class_pos u t : 0 ≤ t → 0 ≤ u → t ≫ 4 < u ≫ 4 → 16 ≤ u.
Proof. rewrite !Z.shiftr_div_pow2 by done. dlia. Qed.

(** The guard on the highest in-service vector speaks for all of them. *)
Lemma outranked_spec l p :
  bitmap_ok (isr l) →
  outranked p l = false ↔ ∀ u, 0 ≤ u < 256 → vec (isr l) u = true → u ≫ 4 < p.
Proof.
  intros Hbm. unfold outranked. pose proof (highest_spec _ Hbm) as Hs.
  destruct (highest (isr l)) as [w|]; simpl in Hs.
  - destruct Hs as (Hw & Hset & Hhi). rewrite Z.geb_leb, Z.leb_gt. split; [|auto].
    intros Hlt u Hu Hsu. destruct (decide (u ≤ w)) as [Hle|].
    + pose proof (class_le _ _ Hle). lia.
    + rewrite Hhi in Hsu; [done|lia].
  - split; [|done]. intros _ u Hu Hsu. by rewrite Hs in Hsu.
Qed.

(** [dispatch_ready] case by case. *)
Definition delivered (v : Z) (l : LocalApic) : LocalApic :=
  l <| irr ::= bitmap_clear v |> <| isr ::= bitmap_set v |>
    <| interrupt_queue ::= λ q, if len q <? QUEUE_LIMIT then q ++ [v] else q |>.

Lemma dispatch_cases l :
  lapic_ok l →
  (∃ v, deliverable l v ∧ dispatch_ready l = delivered v l) ∨
  (dispatch_ready l = l ∧ ∀ v, ¬ deliverable l v).
Proof.
  intros Hl. unfold dispatch_ready.
  destruct (software_enabled l) eqn:He; simpl; [|right; split; [done|by intros v []; congruence]].
  pose proof (highest_spec _ (ok_irr _ Hl)) as Hh.
  destruct (highest (irr l)) as [v|] eqn:E; simpl in Hh.
  - destruct Hh as (Hv & Hset & Hhi).
    assert (∀ u, deliverable l u → u = v) as Huniq.
    { intros u [? ? H1 H2 ? ?]. rewrite (highest_unique _ u) in E; [congruence|..]; try done.
      apply Hl. }
    destruct (Z.leb_spec (v ≫ 4) (tpr l ≫ 4)).
    { right. split; [done|]. intros u Hu. pose proof (dl_task _ _ Hu).
      rewrite (Huniq u Hu) in *. lia. }
    destruct (outranked (v ≫ 4) l) eqn:Ho.
    { right. split; [done|]. intros u Hu. pose proof (dl_service _ _ Hu) as Hs.
      rewrite (Huniq u Hu) in *. apply outranked_spec in Hs; [congruence|apply Hl]. }
    left. exists v. split; [split; try done; apply outranked_spec; [apply Hl|done]|].
    unfold delivered, set_field; simpl. by destruct (_ <? QUEUE_LIMIT).
  - right. split; [done|]. intros v [? ? H1]. by rewrite Hh in H1.
Qed.

Lemma deliverable_16 l v : lapic_ok l → deliverable l v → 16 ≤ v < 256.
Proof.
  intros Hl [Hv _ _ _ Ht _]. split; [|lia].
  eapply class_pos; [|lia|exact Ht]. eapply word_nonneg, Hl.
Qed.

Lemma delivered_ok v l : lapic_ok l → deliverable l v → lapic_ok (delivered v l).
Proof.
  intros Hl Hd. pose proof (deliverable_16 _ _ Hl Hd). destruct Hl.
  split; simpl; auto using bitmap_clear_ok.
  - apply bitmap_set_ok; [lia|done].
  - unfold QUEUE_LIMIT in *. destruct (Z.ltb_spec (len (interrupt_queue l)) 64); [|done].
    unfold len in *. rewrite length_app; simpl. lia.
  - case_match; [|done]. apply Forall_app_2; [done|by apply Forall_singleton].
Qed.

Lemma dispatch_ok l : lapic_ok l → lapic_ok (dispatch_ready l).
Proof.
  intros Hl. destruct (dispatch_cases l Hl) as [(v & Hd & ->)|[-> _]]; [|done].
  by apply delivered_ok.
Qed.

(** [s'] is [s], or [s] with one outranking vector on top. *)
Definition pushes (s s' : list Z) : Prop :=
  s' = s ∨ ∃ v, s' = v :: s ∧ 16 ≤ v < 256 ∧ Forall (outranks v) s.

Lemma in_service_highest l s :
  bitmap_ok (isr l) → in_service l s → highest (isr l) = head s.
Proof.
  intros Hbm [Hm Hr Hs]. destruct s as [|v s]; simpl.
  - pose proof (highest_spec _ Hbm) as Hh. destruct (highest (isr l)) as [v|]; [|done].
    destruct Hh as (Hv & Hset & _). apply Hm in Hset; [|done]. by apply elem_of_nil in Hset.
  - apply Forall_cons in Hr as [Hv Hr]. apply StronglySorted_inv in Hs as [_ Hs].
    apply highest_unique; [done|lia|apply Hm; [lia|left]|]. intros u Hu.
    apply not_true_iff_false. intros Hset. apply Hm in Hset; [|lia].
    apply elem_of_cons in Hset as [->|Hset]; [lia|].
    rewrite Forall_forall in Hs. specialize (Hs u Hset). apply class_lt in Hs. lia.
Qed.

Lemma in_service_ext l l' s : isr l' = isr l → in_service l s → in_service l' s.
Proof. intros E [H1 H2 H3]. split; [by rewrite E|done..]. Qed.

Lemma dispatch_pushes l s :
  lapic_ok l → in_service l s → ∃ s', in_service (dispatch_ready l) s' ∧ pushes s s'.
Proof.
  intros Hl Hs. destruct (dispatch_cases l Hl) as [(v & Hd & ->)|[-> _]].
  - pose proof (deliverable_16 _ _ Hl Hd) as Hv. destruct Hs as [Hm Hr Hsort].
    assert (Forall (outranks v) s) as Ho.
    { apply Forall_forall. intros u Hu. rewrite Forall_forall in Hr. specialize (Hr u Hu).
      simpl in Hr. apply (dl_service _ _ Hd); [lia|]. apply Hm; [lia|done]. }
    exists (v :: s). split; [split|right; eauto].
    + intros u Hu. simpl. rewrite vec_set by (done || lia || apply Hl).
      rewrite orb_true_iff, bool_decide_eq_true, elem_of_cons, Hm by done. tauto.
    + by constructor.
    + by constructor.
  - exists s. split; [done|by left].
Qed.

Lemma eoi_pops l s :
  lapic_ok l → in_service l s →
  (end_of_interrupt l).1 = head s ∧
  ∃ s', in_service (end_of_interrupt l).2 s' ∧ pushes (tail s) s'.
Proof.
  intros Hl Hs. unfold end_of_interrupt. simpl.
  rewrite (in_service_highest l s) by (done || apply Hl). split; [done|].
  destruct s as [|v s]; simpl; [by apply dispatch_pushes|].
  destruct Hs as [Hm Hr Hsort]. apply Forall_cons in Hr as [Hv Hr].
  apply StronglySorted_inv in Hsort as [Hsort Hso].
  apply dispatch_pushes; [destruct Hl; split; simpl; auto using bitmap_clear_ok|].
  split; [|done..]. intros u Hu; simpl. rewrite vec_clear by (lia || apply Hl).
  rewrite andb_true_iff, negb_true_iff, bool_decide_eq_false, Hm, elem_of_cons by done.
  split; [tauto|]. intros Hin. split; [by right|]. intros ->.
  rewrite Forall_forall in Hso. specialize (Hso v Hin). unfold outranks in Hso. lia.
Qed.

Lemma lapic_eoi_ok l : lapic_ok l → lapic_ok (end_of_interrupt l).2.
Proof.
  intros Hl. unfold end_of_interrupt. simpl. apply dispatch_ok.
  case_match; [|done]. destruct Hl; split; simpl; auto using bitmap_clear_ok.
Qed.

(** ** The countdown *)

Definition idle (l : LocalApic) : bool := (timer_initial l =? 0) || (timer_current l =? 0).
Definition periodic (l : LocalApic) : bool := lvt_timer l .& LVT_TIMER_MODE =? LVT_TIMER_PERIODIC.

(** The request bitmap after the timer's LVT entry is raised. *)
Definition raised (l : LocalApic) : list Z :=
  if has (lvt_timer l) LVT_MASKED || negb (software_enabled l) then irr l
  else if lvt_timer l .& 0xFF >=? 16 then bitmap_set (lvt_timer l .& 0xFF) (irr l) else irr l.

(** The count after [e] elapsed periods of the divided clock. *)
Definition count_step (per : bool) (initial current e : Z) : Z :=
  if e <? current then current - e
  else if per then initial - (e - current) `mod` initial
  else 0.
Definition count_after (e : Z) (l : LocalApic) : Z :=
  count_step (periodic l) (timer_initial l) (timer_current l) e.

(** The request bitmap after [e] elapsed periods. *)
Definition requests_after (e : Z) (l : LocalApic) : list Z :=
  if e <? timer_current l then irr l else raised l.

Lemma divisor_range c : 1 ≤ divisor c ≤ 128.
Proof. unfold divisor. repeat case_match; lia. Qed.

Lemma advance_timer_eq n l :
  lapic_ok l → word 32 n →
  let total := timer_fractional l + n in
  let d := divisor (timer_divide l) in
  advance_timer n l =
    if idle l then l
    else l <| timer_current := count_after (total / d) l |>
           <| timer_fractional := total `mod` d |>
           <| irr := requests_after (total / d) l |>.
Proof.
  intros [_ _ _ Hi Hc Hf _ _ _] Hn total d. unfold advance_timer. fold (idle l). fold d.
  destruct (idle l) eqn:Hidle; [done|].
  apply orb_false_iff in Hidle as [Hi0%Z.eqb_neq Hc0%Z.eqb_neq].
  pose proof (divisor_range (timer_divide l)) as Hd. fold d in Hd.
  assert (saturating_add 64 (timer_fractional l) n = total) as E.
  { unfold saturating_add, word in *. lia. }
  assert (0 ≤ total / d) by (apply Z.div_pos; unfold word in *; lia).
  assert (total `mod` d = total - total / d * d) as Hmod by (rewrite Z.mod_eq by lia; lia).
  assert (∀ x, 0 ≤ (x - timer_current l) `mod` timer_initial l < timer_initial l) as Hm
    by (intros; apply Z.mod_pos_bound; unfold word in *; lia).
  specialize (Hm (total / d)).
  unfold requests_after, count_after, count_step, periodic, raised, raise_lvt, software_enabled in *.
  destruct l as [? ? ? ? ? ? ? ? lt ? ? ? ? ? ini cur dv frac ir sr q]; simpl in *.
  unfold set_field; simpl. rewrite !E, Hmod. unfold word in *.
  destruct (Z.eqb_spec (total / d) 0) as [E0|E0].
  { rewrite E0 in *. destruct (Z.ltb_spec 0 cur); [|lia]. by rewrite !Z.sub_0_r. }
  destruct (Z.ltb_spec (total / d) cur).
  { unfold wrap. by rewrite Z.mod_small by lia. }
  unfold wrap. rewrite (Z.mod_small (ini - _)) by lia.
  destruct (lt .& LVT_TIMER_MODE =? LVT_TIMER_PERIODIC); simpl; by repeat case_match.
Qed.

Lemma bitmap_set_idemp v bm : bitmap_set v (bitmap_set v bm) = bitmap_set v bm.
Proof.
  apply list_eq. intros i. unfold bitmap_set. rewrite !list_lookup_alter.
  repeat case_decide; try done. destruct (bm !! _) as [w|]; simpl; [|done]. f_equal. by rewrite <- Z.lor_assoc, Z.lor_diag.
Qed.

Lemma raised_ok l : lapic_ok l → bitmap_ok (raised l).
Proof.
  intros Hl. unfold raised. repeat case_match; try apply Hl.
  apply bitmap_set_ok; [|apply Hl]. apply Z.land_nonneg. by right.
Qed.

Lemma idle_false l : idle l = false → timer_initial l ≠ 0 ∧ timer_current l ≠ 0.
Proof. unfold idle. by intros [?%Z.eqb_neq ?%Z.eqb_neq]%orb_false_iff. Qed.

Lemma count_after_range e l :
  lapic_ok l → idle l = false → 0 ≤ e → 0 ≤ count_after e l ≤ timer_initial l.
Proof.
  intros [_ _ _ Hi Hc _ _ _ _] [Hi0 Hc0]%idle_false He. unfold count_after, count_step, word in *.
  pose proof (Z.mod_pos_bound (e - timer_current l) (timer_initial l)).
  destruct (Z.ltb_spec e (timer_current l)); [lia|]. case_match; lia.
Qed.

Lemma advance_timer_ok n l : lapic_ok l → word 32 n → lapic_ok (advance_timer n l).
Proof.
  intros Hl Hn. rewrite advance_timer_eq by done. destruct (idle l) eqn:Hidle; [done|].
  pose proof (divisor_range (timer_divide l)).
  assert (0 ≤ timer_fractional l + n) by (destruct Hl; unfold word in *; lia).
  pose proof (count_after_range ((timer_fractional l + n) / divisor (timer_divide l)) l Hl Hidle
    ltac:(apply Z.div_pos; lia)).
  pose proof (raised_ok l Hl).
  pose proof (Z.mod_pos_bound (timer_fractional l + n) (divisor (timer_divide l))).
  destruct Hl; split; simpl; try done; try lia. unfold requests_after. by case_match.
Qed.

Lemma lapic_request_ok v l : 0 ≤ v → lapic_ok l → lapic_ok (request v l).
Proof. intros Hv []; split; simpl; auto using bitmap_set_ok. Qed.

(** Once a count has run out the fraction is dead: the next programming of the
    timer clears it. *)
Definition settle (l : LocalApic) : LocalApic :=
  if timer_current l =? 0 then l <| timer_fractional := 0 |> else l.

(** One batch of elapsed periods against two. *)
Lemma count_step_add per initial current ea eb :
  0 < current ≤ initial → 0 ≤ ea → 0 ≤ eb →
  let c := count_step per initial current ea in
  if c =? 0 then
    count_step per initial current (ea + eb) = 0 ∧
    (ea <? current) = false ∧ (ea + eb <? current) = false
  else
    count_step per initial c eb = count_step per initial current (ea + eb) ∧
    (ea + eb <? current) = (ea <? current) && (eb <? c).
Proof.
  intros Hc Hea Heb. unfold count_step.
  pose proof (Z.mod_pos_bound (ea - current) initial).
  destruct (Z.ltb_spec ea current), per; simpl.
  all: repeat match goal with
       | |- context [?x =? ?y] => destruct (Z.eqb_spec x y); try lia
       | |- context [?x <? ?y] => destruct (Z.ltb_spec x y); try lia
       end.
  all: split; try done; try lia.
  - do 2 f_equal; lia.
  - replace (ea + eb - current) with (ea - current + eb) by lia. rewrite mod_carry; lia.
  - rewrite mod_restart by lia. do 2 f_equal; lia.
Qed.

Lemma raised_again c f r l :
  r = irr l ∨ r = raised l →
  raised (l <| timer_current := c |> <| timer_fractional := f |> <| irr := r |>) = raised l.
Proof.
  unfold raised, software_enabled; simpl. intros [-> | ->]; [done|].
  repeat case_match; try done. apply bitmap_set_idemp.
Qed.

(** The timer after [e] elapsed periods leave fraction [f]. *)
Definition elapse (e f : Z) (l : LocalApic) : LocalApic :=
  l <| timer_current := count_after e l |> <| timer_fractional := f |>
    <| irr := requests_after e l |>.

Lemma elapse_twice ea eb f r l :
  lapic_ok l → idle l = false → 0 ≤ ea → 0 ≤ eb →
  settle (elapse (ea + eb) r l) =
  settle (if idle (elapse ea f l) then elapse ea f l else elapse eb r (elapse ea f l)).
Proof.
  intros Hl Hidle Hea Heb. destruct (idle_false l Hidle) as [Hi0 Hc0].
  pose proof (ok_current _ Hl).
  pose proof (count_step_add (periodic l) (timer_initial l) (timer_current l) ea eb
    ltac:(lia) Hea Heb) as Hstep. simpl in Hstep.
  fold (count_after ea l) (count_after (ea + eb) l) in Hstep. set (l1 := elapse ea f l).
  assert (idle l1 = (count_after ea l =? 0)) as ->.
  { unfold idle. change (timer_initial l1) with (timer_initial l).
    by rewrite (proj2 (Z.eqb_neq _ _) Hi0). }
  destruct (Z.eqb_spec (count_after ea l) 0) as [E|E].
  - destruct Hstep as (E1 & E2 & E3). unfold l1, settle, elapse; simpl.
    rewrite E, E1; simpl. unfold requests_after. by rewrite E2, E3.
  - destruct Hstep as (E1 & E2). unfold elapse.
    assert (count_after eb l1 = count_after (ea + eb) l) as -> by done.
    assert (requests_after eb l1 = requests_after (ea + eb) l) as ->; [|done].
    unfold requests_after. change (timer_current l1) with (count_after ea l). rewrite E2.
    assert (raised l1 = raised l) as ->
      by (apply raised_again; unfold requests_after; case_match; auto).
    unfold l1, elapse, requests_after; simpl. by destruct (ea <? timer_current l), (eb <? _).
Qed.

(** the countdown does not depend on how guest instructions are batched.
    Advancing by [a] and then [b] instructions leaves the same count, the same
    fraction of the divided clock and the same interrupt requests as advancing
    by [a + b] at once, in every timer mode. *)
Theorem advance_timer_batches a b l :
  lapic_ok l → word 32 a → word 32 b → word 32 (a + b) →
  settle (advance_timer (a + b) l) = settle (advance_timer b (advance_timer a l)).
Proof.
  intros Hl Ha Hb Hab. pose proof (advance_timer_ok a l Hl Ha) as Hl1. revert Hl1.
  rewrite (advance_timer_eq (a + b)), (advance_timer_eq a) by done.
  destruct (idle l) eqn:Hidle; [intros _; by rewrite advance_timer_eq, Hidle by done|].
  set (f := timer_fractional l). set (d := divisor (timer_divide l)).
  fold (elapse ((f + (a + b)) / d) ((f + (a + b)) `mod` d) l).
  fold (elapse ((f + a) / d) ((f + a) `mod` d) l). intros Hl1.
  rewrite (advance_timer_eq b) by done. simpl. fold d.
  assert (1 ≤ d) by (apply divisor_range). pose proof (Z.mod_pos_bound (f + a) d).
  replace (f + (a + b)) with (f + a + b) by lia. rewrite div_carry by lia.
  rewrite Z.add_mod_idemp_l by lia. destruct Hl as [? ? ? ? ? Hf ? ? ?] eqn:E.
  apply elapse_twice; [done|done|apply Z.div_pos; unfold word in *; lia..].
Qed.

Definition timer_demo : LocalApic :=
  new <| svr := 0x1FF |> <| lvt_timer := 0x20040 |>
      <| timer_initial := 3 |> <| timer_current := 3 |> <| timer_divide := 0xB |>.

Lemma timer_demo_ok : lapic_ok timer_demo.
Proof.
  assert (bitmap_ok (replicate 8 0)) by (split; [done|by apply Forall_replicate, word_const]).
  split; simpl; try done.
Qed.

Lemma advance_timer_batches_witness :
  settle (advance_timer (4 + 5) timer_demo)
    = settle (advance_timer 5 (advance_timer 4 timer_demo)) ∧
  vec (irr (advance_timer 4 timer_demo)) 0x40 = true.
Proof.
  split; [|reflexivity].
  apply (advance_timer_batches 4 5 timer_demo); [apply timer_demo_ok|done..].
Defined.

(** dispatch follows the priority rules. After [dispatch_ready] a vector
    is in service exactly when it already was or it was deliverable: the APIC
    enabled, the vector the highest one requested, of a class above the task
    priority and above every vector in service. Its request is then consumed,
    every other request kept, and it is queued for the CPU while the queue has
    room. *)
Theorem dispatch_delivers l v :
  lapic_ok l → 0 ≤ v < 256 →
  (vec (isr (dispatch_ready l)) v = true ↔ vec (isr l) v = true ∨ deliverable l v) ∧
  (vec (irr (dispatch_ready l)) v = true ↔ vec (irr l) v = true ∧ ¬ deliverable l v) ∧
  (deliverable l v → len (interrupt_queue l) < QUEUE_LIMIT →
    interrupt_queue (dispatch_ready l) = interrupt_queue l ++ [v]).
Proof.
  intros Hl Hv. destruct (dispatch_cases l Hl) as [(w & Hd & ->)|[-> Hnone]]; [|naive_solver].
  assert (deliverable l v ↔ v = w) as Hiff.
  { split; [|by intros ->]. intros Hdv. destruct (Z.lt_trichotomy v w) as [|[|]]; [|done|].
    - pose proof (dl_highest _ _ Hdv w ltac:(destruct Hd; lia)). by destruct Hd; congruence.
    - pose proof (dl_highest _ _ Hd v ltac:(lia)). by destruct Hdv; congruence. }
  pose proof (dl_range _ _ Hd). simpl.
  rewrite vec_set, vec_clear by (done || apply Hl).
  rewrite orb_true_iff, andb_true_iff, negb_true_iff, bool_decide_eq_true,
    bool_decide_eq_false, Hiff.
  split_and!; [tauto|tauto|]. intros -> Hlt. by rewrite (proj2 (Z.ltb_lt _ _) Hlt).
Qed.

Lemma dispatch_delivers_witness :
  let l := request 0x40 (timer_demo) in
  vec (isr (dispatch_ready l)) 0x40 = true ↔ vec (isr l) 0x40 = true ∨ deliverable l 0x40.
Proof.
  apply (dispatch_delivers (request 0x40 timer_demo) 0x40); [|lia].
  apply lapic_request_ok; [lia|apply timer_demo_ok].
Defined.

(** ** Every operation *)

(** What can happen to the APIC: instructions retire, a device requests a
    vector, the guest writes a register, the CPU takes a vector. *)
Inductive event :=
  | Tick (instructions : Z)
  | Request (vector : Z)
  | Write (offset size value : Z)
  | Pop.

Definition event_ok (e : event) : Prop :=
  match e with
  | Tick n => word 32 n
  | Request v => 0 ≤ v < 256
  | Write _ _ value => word 32 value
  | Pop => True
  end.

Definition is_eoi (e : event) : bool :=
  match e with Write offset size _ => (size =? 4) && (offset =? LAPIC_EOI) | _ => false end.

(** The state after an event and the vector an EOI retired. *)
Definition run (e : event) (l : LocalApic) : option Z * LocalApic :=
  match e with
  | Tick n => (None, tick n l)
  | Request v => (None, request v l)
  | Write offset size value => write offset size value l
  | Pop => (None, (pop_interrupt l).2)
  end.

Inductive step : LocalApic → LocalApic → Prop :=
  | step_run e l : event_ok e → step l (run e l).2.

Lemma advance_timer_isr n l : isr (advance_timer n l) = isr l.
Proof. unfold advance_timer, raise_lvt. by repeat case_match. Qed.

(** Writes other than EOI set registers, request a vector, or dispatch. *)
Definition settles (l l' : LocalApic) : Prop :=
  lapic_ok l' ∧ ∀ s, in_service l s → ∃ s', in_service l' s' ∧ pushes s s'.

Lemma settles_same l l' : lapic_ok l' → isr l' = isr l → settles l l'.
Proof.
  intros Hl' E. split; [done|]. intros s Hs. exists s.
  split; [by eapply in_service_ext|by left].
Qed.

Lemma settles_dispatch l l1 : lapic_ok l1 → isr l1 = isr l → settles l (dispatch_ready l1).
Proof.
  intros Hl1 E. split; [by apply dispatch_ok|]. intros s Hs.
  apply dispatch_pushes; [done|by eapply in_service_ext].
Qed.

Lemma send_ipi_settles value l : lapic_ok l → word 32 value → settles l (send_ipi value l).
Proof.
  intros Hl Hv. assert (lapic_ok (l <| icr_lo := value |>)) by (by destruct Hl).
  unfold send_ipi. repeat case_match; try (by apply settles_same).
  apply settles_dispatch; [|done]. apply lapic_request_ok; [|done]. solve_nonneg.
Qed.

Lemma lapic_write_settles offset size value l :
  lapic_ok l → word 32 value → is_eoi (Write offset size value) = false →
  (write offset size value l).1 = None ∧ settles l (write offset size value l).2.
Proof.
  intros Hl Hv Heoi. unfold write. simpl in Heoi.
  destruct (size =? 4); simpl; [|split; [done|by apply settles_same]].
  simpl in Heoi. rewrite Heoi. split; [done|]. simpl.
  repeat case_match;
    first [by apply send_ipi_settles | apply settles_dispatch | apply settles_same]; try done.
  all: destruct Hl; split; simpl; try done.
  all: try (by auto with words).
  unfold word in *. lia.
Qed.

Lemma lapic_run_settles e l :
  lapic_ok l → event_ok e → is_eoi e = false → (run e l).1 = None ∧ settles l (run e l).2.
Proof.
  intros Hl He Heoi. destruct e as [n|v|offset size value|]; simpl in *.
  - split; [done|]. apply settles_dispatch; [by apply advance_timer_ok|apply advance_timer_isr].
  - split; [done|]. apply settles_same; [|done]. apply lapic_request_ok; [lia|done].
  - by apply lapic_write_settles.
  - split; [done|]. unfold pop_interrupt. destruct (interrupt_queue l) as [|v q] eqn:E.
    + by apply settles_same.
    + apply settles_same; [|done]. destruct Hl as [? ? ? ? ? ? ? Hq Hf]. rewrite E in *.
      split; simpl; try done; [|by apply Forall_cons in Hf as []].
      unfold len in *. simpl in Hq. lia.
Qed.

Lemma lapic_run_eoi e l : is_eoi e = true → run e l = end_of_interrupt l.
Proof.
  destruct e as [| |offset size value|]; try done. simpl.
  intros [Hs%Z.eqb_eq Ho%Z.eqb_eq]%andb_true_iff. by subst.
Qed.

Lemma lapic_run_ok e l : lapic_ok l → event_ok e → lapic_ok (run e l).2.
Proof.
  intros Hl He. destruct (is_eoi e) eqn:Heoi.
  - rewrite lapic_run_eoi by done. by apply lapic_eoi_ok.
  - by destruct (lapic_run_settles e l Hl He Heoi) as [_ [? _]].
Qed.

Lemma retired_range l v : lapic_ok l → (end_of_interrupt l).1 = Some v → 0 ≤ v < 256.
Proof.
  intros [] . unfold end_of_interrupt. pose proof (highest_spec (isr l) ok_isr0) as Hh.
  destruct (highest (isr l)) as [u|]; [|done]. intros [= <-]. apply Hh.
Qed.

(** C13: the in-service register is a stack. Whenever the bitmap stands for a
    stack of vectors of strictly decreasing priority class, any event leaves it
    standing for such a stack: an EOI retires exactly the vector on top, the
    most recently delivered one, and apart from that an event either leaves the
    stack alone or delivers one vector that outranks everything on it. *)
Theorem in_service_is_a_stack e l s :
  lapic_ok l → in_service l s → event_ok e →
  let base := if is_eoi e then tail s else s in
  (run e l).1 = (if is_eoi e then head s else None) ∧
  lapic_ok (run e l).2 ∧
  ∃ s', in_service (run e l).2 s' ∧ pushes base s'.
Proof.
  intros Hl Hs He. simpl. destruct (is_eoi e) eqn:Heoi.
  - rewrite lapic_run_eoi by done. destruct (eoi_pops l s Hl Hs) as [H1 H2].
    split_and!; [done|by apply lapic_eoi_ok|done].
  - destruct (lapic_run_settles e l Hl He Heoi) as [H1 [H2 H3]]. eauto.
Qed.

Lemma lapic_new_ok : lapic_ok new ∧ in_service new [].
Proof.
  assert (bitmap_ok (replicate 8 0)) by (split; [done|by apply Forall_replicate, word_const]).
  split; [by split|]. split; [|by constructor..].
  intros v Hv. destruct (vector_index v Hv) as [Hi _].
  unfold vec. change (isr new) with (replicate 8 0).
  rewrite list_lookup_total_alt, lookup_replicate_2 by done. simpl.
  rewrite Z.bits_0. split; [done|]. intros []%elem_of_nil.
Qed.

Lemma in_service_is_a_stack_witness :
  (run (Write LAPIC_EOI 4 0) new).1 = None ∧
  lapic_ok (run (Write LAPIC_EOI 4 0) new).2 ∧
  ∃ s', in_service (run (Write LAPIC_EOI 4 0) new).2 s' ∧ pushes [] s'.
Proof.
  apply (in_service_is_a_stack (Write LAPIC_EOI 4 0) new []); [apply lapic_new_ok..|].
  by apply word_const.
Defined.

(** Classes 1 to 15 leave room for fifteen nested handlers. *)
Lemma stack_depth s :
  Forall (λ v, 16 ≤ v < 256) s → StronglySorted outranks s → len s ≤ 15.
Proof.
  intros Hr Hs. assert (len s ≤ match head s with Some v => v ≫ 4 | None => 0 end) as Hle.
  { induction Hs as [|v s Hs IH Ho]; [done|]. apply Forall_cons in Hr as [Hv Hr].
    specialize (IH Hr). unfold len in *. simpl. destruct s as [|u s]; simpl in *.
    - rewrite Z.shiftr_div_pow2 by done. change (2 ^ 4) with 16. dlia.
    - apply Forall_cons in Ho as [Ho _]. unfold outranks in Ho. lia. }
  destruct s as [|v s]; simpl in Hle; [done|]. apply Forall_cons in Hr as [Hv _].
  rewrite Z.shiftr_div_pow2 in Hle by done. change (2 ^ 4) with 16 in Hle. revert Hle.
  generalize (len (v :: s)). intros. dlia.
Qed.

(** in every state reachable from reset the registers keep their ranges,
    the CPU queue holds at most 64 vectors, all of them 16 or above, and the
    vectors in service form a stack at most fifteen deep. *)
Theorem reachable_lapic_ok l :
  rtc step new l → lapic_ok l ∧ ∃ s, in_service l s ∧ len s ≤ 15.
Proof.
  intros Hr. assert (lapic_ok l ∧ ∃ s, in_service l s) as (Hl & s & Hs).
  { revert l Hr. apply (rtc_ind_r (λ l, lapic_ok l ∧ ∃ s, in_service l s)).
    - split; [apply lapic_new_ok|]. exists []. apply lapic_new_ok.
    - intros ?? _ [e l He] (Hl & s & Hs). destruct (is_eoi e) eqn:Heoi.
      + rewrite lapic_run_eoi by done. destruct (eoi_pops l s Hl Hs) as [_ (s' & Hs' & _)].
        eauto using lapic_eoi_ok.
      + destruct (lapic_run_settles e l Hl He Heoi) as [_ [H2 H3]].
        destruct (H3 s Hs) as (s' & Hs' & _). eauto. }
  split; [done|]. exists s. split; [done|]. destruct Hs. by apply stack_depth.
Qed.

Lemma reachable_lapic_ok_witness :
  let l := (run (Tick 4) (run (Write LAPIC_SVR 4 0x1FF) new).2).2 in
  lapic_ok l ∧ ∃ s, in_service l s ∧ len s ≤ 15.
Proof.
  apply reachable_lapic_ok. eapply rtc_l; [by apply (step_run (Write LAPIC_SVR 4 0x1FF)), word_const|].
  eapply rtc_l; [by apply (step_run (Tick 4)), word_const|]. apply rtc_refl.
Defined.
