(* ===== verification/IoApic.v ===== *)
(** The I/O APIC of [rish-softvm-core/src/devices/ioapic.rs]: 24 redirection
    entries behind a select/window register pair, line levels, edge and level
    delivery with the remote-IRR handshake.

    The theorems show which pins fire on a change of the lines, that remote IRR
    is held from delivery to EOI so that a level pin delivers once per EOI, and
    that entries read back as written apart from their read-only bits. *)
From S2P Require Import Prelude.
Local Open Scope Z_scope.

Definition IOAPIC_BASE : Z := 0xFEC00000.
Definition IOAPIC_SIZE : Z := 0x1000.
Definition IOAPIC_PINS : Z := 24.
Definition REG_ID : Z := 0x00.
Definition REG_VERSION : Z := 0x01.
Definition REG_ARBITRATION : Z := 0x02.
Definition REG_REDIRECTION_BASE : Z := 0x10.
Definition IOREGSEL : Z := 0x00.
Definition IOWIN : Z := 0x10.
Definition IOEOI : Z := 0x40.
Definition ENTRY_MASKED : Z := bit 16.
Definition ENTRY_LEVEL_TRIGGERED : Z := bit 15.
Definition ENTRY_REMOTE_IRR : Z := bit 14.

(** [redirection] is the array [[u64; IOAPIC_PINS]]. *)
Record IoApic := mkIoApic {
  id : Z;
  register_select : Z;
  redirection : list Z;
  lines : Z
}.
#[export] Instance IoApic_eta : Settable IoApic := λ a,
  mkIoApic (id a) (register_select a) (redirection a) (lines a).

Definition new : IoApic := mkIoApic 0 0 (replicate 24 ENTRY_MASKED) 0.

Definition entry (a : IoApic) (pin : nat) : Z := redirection a !!! pin.
Definition set_entry (pin : nat) (e : Z) (a : IoApic) : IoApic :=
  a <| redirection ::= <[pin := e]> |>.

(** [for pin in 0..IOAPIC_PINS] *)
Definition pins : list nat := seq 0 24.

(** The body of the loop in [set_lines], for one pin. *)
Definition raise_pin (rising : Z) (acc : IoApic * list Z) (pin : nat) : IoApic * list Z :=
  let '(a, fired) := acc in
  if negb (has rising (bit (Z.of_nat pin))) then (a, fired)
  else
    let e := entry a pin in
    if has e ENTRY_MASKED then (a, fired)
    else if has e ENTRY_LEVEL_TRIGGERED && has e ENTRY_REMOTE_IRR then (a, fired)
    else
      let a := if has e ENTRY_LEVEL_TRIGGERED
               then set_entry pin (entry a pin .| ENTRY_REMOTE_IRR) a else a in
      let vector := e .& 0xFF in
      (a, if vector >=? 16 then fired ++ [vector] else fired).

Definition set_lines (lns : Z) (a : IoApic) : list Z * IoApic :=
  let rising := lns .&~ lines a in
  let '(a, fired) := foldl (raise_pin rising) (a <| lines := lns |>, []) pins in
  (fired, a).

(** The body of the loop in [end_of_interrupt]. *)
Definition retire_pin (vector : Z) (acc : IoApic * list Z) (pin : nat) : IoApic * list Z :=
  let '(a, refired) := acc in
  let e := entry a pin in
  if negb (has e ENTRY_LEVEL_TRIGGERED) || negb (has e ENTRY_REMOTE_IRR)
     || negb (e .& 0xFF =? vector) then (a, refired)
  else
    let a := set_entry pin (entry a pin .&~ ENTRY_REMOTE_IRR) a in
    if has (lines a) (bit (Z.of_nat pin)) && negb (has e ENTRY_MASKED)
    then (set_entry pin (entry a pin .| ENTRY_REMOTE_IRR) a, refired ++ [vector])
    else (a, refired).

Definition end_of_interrupt (vector : Z) (a : IoApic) : list Z * IoApic :=
  let '(a, refired) := foldl (retire_pin vector) (a, []) pins in
  (refired, a).

(** [register - REG_REDIRECTION_BASE] wraps in a release build. *)
Definition redirection_index (register : Z) : Z := wrapping_sub 32 register REG_REDIRECTION_BASE.

Definition read_register (register : Z) (a : IoApic) : Z :=
  if register =? REG_ID then wrap 32 (id a ≪ 24)
  else if register =? REG_VERSION then 0x11 .| ((IOAPIC_PINS - 1) ≪ 16)
  else if register =? REG_ARBITRATION then wrap 32 (id a ≪ 24)
  else
    let index := redirection_index register in
    let pin := index / 2 in
    if pin >=? IOAPIC_PINS then 0
    else
      let e := entry a (Z.to_nat pin) in
      if index `mod` 2 =? 0 then wrap 32 e else wrap 32 (e ≫ 32).

Definition WRITABLE : Z := 0xFFFFFFFF .&~ (ENTRY_REMOTE_IRR .| bit 12).

Definition write_register (register value : Z) (a : IoApic) : IoApic :=
  if register =? REG_ID then a <| id := (value ≫ 24) .& 0xF |>
  else if (register =? REG_VERSION) || (register =? REG_ARBITRATION) then a
  else
    let index := redirection_index register in
    let pin := index / 2 in
    if pin >=? IOAPIC_PINS then a
    else
      let e := entry a (Z.to_nat pin) in
      if index `mod` 2 =? 0
      then set_entry (Z.to_nat pin) ((e .&~ WRITABLE) .| (value .& WRITABLE)) a
      else set_entry (Z.to_nat pin) ((e .& 0xFFFFFFFF) .| (value ≪ 32)) a.

Definition read (offset : Z) (a : IoApic) : Z :=
  if offset =? IOREGSEL then register_select a
  else if offset =? IOWIN then read_register (register_select a) a
  else 0.

Definition write (offset value : Z) (a : IoApic) : IoApic :=
  if offset =? IOREGSEL then a <| register_select := value .& 0xFF |>
  else if offset =? IOWIN then write_register (register_select a) value a
  else if offset =? IOEOI then (end_of_interrupt (value .& 0xFF) a).2
  else a.

#[global] Arguments set_lines : simpl never.
#[global] Arguments end_of_interrupt : simpl never.

(** ** Invariant *)

Record ioapic_ok (a : IoApic) : Prop := mk_ioapic_ok {
  ok_length : length (redirection a) = 24%nat;
  ok_entries : Forall (word 64) (redirection a);
  ok_select : word 8 (register_select a);
  ok_id : word 4 (id a)
}.

(** ** What a change of the lines does to one pin *)

Definition level (e : Z) : bool := has e ENTRY_LEVEL_TRIGGERED.
Definition remote_irr (e : Z) : bool := has e ENTRY_REMOTE_IRR.
Definition masked (e : Z) : bool := has e ENTRY_MASKED.

Definition fires (rising : Z) (pin : nat) (e : Z) : bool :=
  has rising (bit (Z.of_nat pin)) && negb (masked e) && negb (level e && remote_irr e).
Definition raised_entry (rising : Z) (pin : nat) (e : Z) : Z :=
  if fires rising pin e && level e then e .| ENTRY_REMOTE_IRR else e.
Definition vectors_of (rising : Z) (es : nat → Z) (ps : list nat) : list Z :=
  ps ≫= λ pin, if fires rising pin (es pin) && (es pin .& 0xFF >=? 16) then [es pin .& 0xFF] else [].

Lemma entry_set_entry a p q e :
  (p < length (redirection a))%nat →
  entry (set_entry p e a) q = if decide (p = q) then e else entry a q.
Proof.
  intros Hp. unfold entry, set_entry; simpl. case_decide as E.
  - subst. by apply list_lookup_total_insert_eq.
  - by apply list_lookup_total_insert_ne.
Qed.

Lemma set_entry_length a p e : length (redirection (set_entry p e a)) = length (redirection a).
Proof. unfold set_entry; simpl. by rewrite length_insert. Qed.

(** Everything but the entries. *)
Definition same_front (a b : IoApic) : Prop :=
  id a = id b ∧ register_select a = register_select b ∧ lines a = lines b ∧
  length (redirection a) = length (redirection b).

(** A loop that treats each pin by itself is described pin by pin. *)
Lemma per_pin (body : IoApic * list Z → nat → IoApic * list Z)
    (upd : nat → Z → Z) (out : nat → Z → list Z) L a f ps :
  (∀ a f pin, (pin < length (redirection a))%nat → lines a = L →
    let '(a', f') := body (a, f) pin in
    same_front a' a ∧ f' = f ++ out pin (entry a pin) ∧
    ∀ q, entry a' q = if decide (pin = q) then upd pin (entry a q) else entry a q) →
  lines a = L → NoDup ps → Forall (λ p, p < length (redirection a))%nat ps →
  let '(a', f') := foldl body (a, f) ps in
  same_front a' a ∧ f' = f ++ (ps ≫= λ p, out p (entry a p)) ∧
  ∀ q, entry a' q = if decide (q ∈ ps) then upd q (entry a q) else entry a q.
Proof.
  intros Hbody. revert a f. induction ps as [|p ps IH]; intros a f HL Hnd Hps; simpl.
  { split_and!; [done|by rewrite app_nil_r|done]. }
  apply NoDup_cons in Hnd as [Hp Hnd]. apply Forall_cons in Hps as [Hlt Hps].
  specialize (Hbody a f p Hlt HL).
  destruct (body (a, f) p) as [a1 f1]. destruct Hbody as (Hs & -> & He).
  specialize (IH a1 (f ++ out p (entry a p))).
  destruct (foldl body _ ps) as [a2 f2]. destruct IH as (Hs2 & -> & He2).
  { destruct Hs as (_ & _ & Hl & _). congruence. }
  { done. }
  { destruct Hs as (_ & _ & _ & ->). done. }
  split_and!.
  - unfold same_front in *. naive_solver congruence.
  - rewrite <- app_assoc. f_equal. f_equal.
    apply Forall_bind_ext, Forall_forall. intros q Hq. rewrite He, decide_False; [done|by intros ->].
  - intros q. rewrite He2, He. destruct (decide (p = q)) as [->|].
    + rewrite (decide_False (P := q ∈ ps)), (decide_True (P := q ∈ q :: ps)); set_solver.
    + destruct (decide (q ∈ ps)); [rewrite decide_True by set_solver|rewrite decide_False by set_solver]; done.
Qed.

Lemma pins_ok a : length (redirection a) = 24%nat →
  NoDup pins ∧ Forall (λ p, p < length (redirection a))%nat pins.
Proof.
  intros ->. split; [apply NoDup_seq|]. apply Forall_forall. intros p Hp.
  apply elem_of_seq in Hp. lia.
Qed.

Lemma elem_of_pins p : p ∈ pins ↔ (p < 24)%nat.
Proof. unfold pins. rewrite elem_of_seq. lia. Qed.

Lemma raise_pin_eq rising a f pin :
  raise_pin rising (a, f) pin =
    let e := entry a pin in
    (if fires rising pin e && level e then set_entry pin (e .| ENTRY_REMOTE_IRR) a else a,
     f ++ (if fires rising pin e && (e .& 0xFF >=? 16) then [e .& 0xFF] else [])).
Proof.
  unfold raise_pin, fires, level, remote_irr, masked. simpl.
  destruct (has rising _), (has (entry a pin) ENTRY_MASKED),
    (has (entry a pin) ENTRY_LEVEL_TRIGGERED), (has (entry a pin) ENTRY_REMOTE_IRR),
    (_ >=? 16); simpl; by rewrite ?app_nil_r.
Qed.

(** Writing one entry, or leaving it. *)
Lemma update_one (b : bool) pin e a (upd : Z → Z) :
  (pin < length (redirection a))%nat → (if b then e else entry a pin) = upd (entry a pin) →
  let a' := if b then set_entry pin e a else a in
  same_front a' a ∧
  ∀ q, entry a' q = if decide (pin = q) then upd (entry a q) else entry a q.
Proof.
  intros Hp He. destruct b; simpl.
  - split; [unfold same_front; by rewrite set_entry_length|]. intros q.
    rewrite entry_set_entry by done. case_decide; [by subst|done].
  - split; [done|]. intros q. case_decide; [by subst|done].
Qed.

Lemma set_lines_spec lns a :
  length (redirection a) = 24%nat →
  let rising := lns .&~ lines a in
  same_front (set_lines lns a).2 (a <| lines := lns |>) ∧
  (set_lines lns a).1 = vectors_of rising (entry a) pins ∧
  ∀ pin, (pin < 24)%nat →
    entry (set_lines lns a).2 pin = raised_entry rising pin (entry a pin).
Proof.
  intros Hlen rising. unfold set_lines. fold rising.
  pose proof (per_pin (raise_pin rising) (raised_entry rising)
    (λ pin e, if fires rising pin e && (e .& 0xFF >=? 16) then [e .& 0xFF] else [])
    lns (a <| lines := lns |>) [] pins) as H.
  destruct (foldl _ _ _) as [a' f']. destruct H as (Hs & Hf & He).
  - intros b f pin Hp _. rewrite raise_pin_eq; simpl.
    destruct (update_one (fires rising pin (entry b pin) && level (entry b pin)) pin
      (entry b pin .| ENTRY_REMOTE_IRR) b (raised_entry rising pin)) as [H1 H2]; done.
  - done.
  - by apply (pins_ok a).
  - by apply (pins_ok a).
  - simpl. split_and!; [done|done|]. intros pin Hp. rewrite He, decide_True; [done|].
    by apply elem_of_pins.
Qed.

(** ** What an EOI does to one pin *)

Definition retires (vector e : Z) : bool := level e && remote_irr e && (e .& 0xFF =? vector).
Definition asserted (lns : Z) (pin : nat) (e : Z) : bool :=
  has lns (bit (Z.of_nat pin)) && negb (masked e).
Definition retired_entry (vector lns : Z) (pin : nat) (e : Z) : Z :=
  if retires vector e && negb (asserted lns pin e) then e .&~ ENTRY_REMOTE_IRR else e.

(** Setting a bit again that was there. *)
Lemma ldiff_lor_bit e i : 0 ≤ i → Z.testbit e i = true → (e .&~ bit i) .| bit i = e.
Proof.
  intros Hi He. apply Z.bits_inj'. intros j Hj. bits.
  destruct (decide (i = j)) as [->|].
  - by rewrite bool_decide_true, orb_true_r, He.
  - by rewrite bool_decide_false, orb_false_r, andb_true_r.
Qed.

Lemma set_entry_twice p x y a :
  set_entry p x (set_entry p y a) = set_entry p x a.
Proof.
  unfold set_entry, set_field; simpl. by rewrite list_insert_insert_eq.
Qed.

Lemma set_entry_same a p : (p < length (redirection a))%nat → set_entry p (entry a p) a = a.
Proof.
  intros Hp. unfold set_entry, set_field, entry. destruct a; simpl in *. f_equal.
  apply list_insert_id. by apply list_lookup_lookup_total_lt.
Qed.

Lemma retire_pin_eq vector a f pin :
  (pin < length (redirection a))%nat →
  retire_pin vector (a, f) pin =
    let e := entry a pin in
    (if retires vector e && negb (asserted (lines a) pin e)
     then set_entry pin (e .&~ ENTRY_REMOTE_IRR) a else a,
     f ++ (if retires vector e && asserted (lines a) pin e then [vector] else [])).
Proof.
  intros Hp. unfold retire_pin. cbv zeta. simpl.
  replace (negb (has (entry a pin) ENTRY_LEVEL_TRIGGERED)
    || negb (has (entry a pin) ENTRY_REMOTE_IRR) || negb (entry a pin .& 255 =? vector))
    with (negb (retires vector (entry a pin)))
    by (unfold retires, level, remote_irr; by rewrite !negb_andb).
  destruct (retires vector (entry a pin)) eqn:Hr; simpl; [|by rewrite app_nil_r].
  fold (masked (entry a pin)). fold (asserted (lines a) pin (entry a pin)).
  destruct (asserted (lines a) pin (entry a pin)); simpl; [|by rewrite app_nil_r].
  rewrite set_entry_twice, entry_set_entry, decide_True by done.
  unfold retires, remote_irr in Hr. apply andb_true_iff in Hr as [[_ Hr]%andb_true_iff _].
  unfold ENTRY_REMOTE_IRR in *. rewrite has_testbit in Hr by done.
  by rewrite ldiff_lor_bit, set_entry_same.
Qed.

Lemma end_of_interrupt_spec vector a :
  length (redirection a) = 24%nat →
  same_front (end_of_interrupt vector a).2 a ∧
  (end_of_interrupt vector a).1 =
    (pins ≫= λ pin, if retires vector (entry a pin) && asserted (lines a) pin (entry a pin)
                    then [vector] else []) ∧
  ∀ pin, (pin < 24)%nat →
    entry (end_of_interrupt vector a).2 pin = retired_entry vector (lines a) pin (entry a pin).
Proof.
  intros Hlen. unfold end_of_interrupt.
  pose proof (per_pin (retire_pin vector) (retired_entry vector (lines a))
    (λ pin e, if retires vector e && asserted (lines a) pin e then [vector] else [])
    (lines a) a [] pins) as H.
  destruct (foldl _ _ _) as [a' f']. destruct H as (Hs & Hf & He).
  - intros b f pin Hp HL. rewrite retire_pin_eq by done; simpl. rewrite HL.
    destruct (update_one (retires vector (entry b pin) &&
        negb (asserted (lines a) pin (entry b pin))) pin
      (entry b pin .&~ ENTRY_REMOTE_IRR) b (retired_entry vector (lines a) pin)) as [H1 H2]; done.
  - done.
  - by apply (pins_ok a).
  - by apply (pins_ok a).
  - simpl. split_and!; [done|done|]. intros pin Hp. rewrite He, decide_True; [done|].
    by apply elem_of_pins.
Qed.

(** ** Register access *)

Lemma set_entry_ok p e a : word 64 e → ioapic_ok a → ioapic_ok (set_entry p e a).
Proof.
  intros He []. split; simpl; try done; [by rewrite length_insert|by apply Forall_insert].
Qed.

Lemma entry_word a p : ioapic_ok a → (p < 24)%nat → word 64 (entry a p).
Proof.
  intros [Hl Hw _ _] Hp. unfold entry.
  eapply Forall_lookup_1; [exact Hw|]. apply list_lookup_lookup_total_lt. lia.
Qed.

Lemma writable_word : word 32 WRITABLE.
Proof. by apply word_const. Qed.

Lemma word_shiftl_32 v : word 32 v → word 64 (v ≪ 32).
Proof. unfold word. rewrite Z.shiftl_mul_pow2 by done. lia. Qed.

Lemma index_range register :
  word 8 register → register ≠ REG_ID → register ≠ REG_VERSION → register ≠ REG_ARBITRATION →
  redirection_index register / 2 < IOAPIC_PINS → (Z.to_nat (redirection_index register / 2) < 24)%nat.
Proof.
  intros _ _ _ _ Hlt. unfold IOAPIC_PINS, redirection_index, wrapping_sub, wrap in *.
  pose proof (Z.mod_pos_bound (register - REG_REDIRECTION_BASE) (2 ^ 32) ltac:(done)).
  assert (0 ≤ (register - REG_REDIRECTION_BASE) `mod` 2 ^ 32 / 2) by (apply Z.div_pos; lia). lia.
Qed.

Lemma write_register_ok register value a :
  word 8 register → word 32 value → ioapic_ok a → ioapic_ok (write_register register value a).
Proof.
  intros Hr Hv Ha. unfold write_register.
  destruct (Z.eqb_spec register REG_ID).
  { destruct Ha; split; simpl; try done. assert (0 ≤ value ≫ 24) by solve_nonneg. auto with words. }
  destruct (Z.eqb_spec register REG_VERSION); [done|].
  destruct (Z.eqb_spec register REG_ARBITRATION); simpl; [done|].
  rewrite Z.geb_leb. destruct (Z.leb_spec IOAPIC_PINS (redirection_index register / 2)); [done|].
  pose proof (entry_word a _ Ha (index_range register Hr ltac:(done) ltac:(done) ltac:(done) H)).
  pose proof writable_word. pose proof (word_shiftl_32 value Hv).
  case_match; apply set_entry_ok; auto with words.
Qed.

Lemma front_ok a' a :
  same_front a' a → ioapic_ok a → (∀ p, (p < 24)%nat → word 64 (entry a' p)) → ioapic_ok a'.
Proof.
  intros (Hid & Hsel & _ & Hlen) [Hl _ Hs Hi] He. split; [congruence| |congruence..].
  apply Forall_lookup. intros p e Hp. assert (p < 24)%nat by (apply lookup_lt_Some in Hp; lia).
  apply list_lookup_total_correct in Hp. rewrite <- Hp. by apply He.
Qed.

Lemma set_lines_ok lns a : ioapic_ok a → ioapic_ok (set_lines lns a).2.
Proof.
  intros Ha. destruct (set_lines_spec lns a) as (Hf & _ & He); [apply Ha|].
  apply (front_ok _ (a <| lines := lns |>)); [done|by destruct Ha|]. intros p Hp.
  pose proof (entry_word a p Ha Hp). rewrite He by done.
  unfold raised_entry, ENTRY_REMOTE_IRR. case_match; auto with words.
Qed.

Lemma ioapic_eoi_ok v a : ioapic_ok a → ioapic_ok (end_of_interrupt v a).2.
Proof.
  intros Ha. destruct (end_of_interrupt_spec v a) as (Hf & _ & He); [apply Ha|].
  apply (front_ok _ a); [done..|]. intros p Hp.
  pose proof (entry_word a p Ha Hp). rewrite He by done.
  unfold retired_entry, ENTRY_REMOTE_IRR. case_match; auto with words.
Qed.

Lemma ioapic_write_ok offset value a :
  word 32 value → ioapic_ok a → ioapic_ok (write offset value a).
Proof.
  intros Hv Ha. unfold write. repeat case_match; try done.
  - destruct Ha; split; simpl; try done. assert (0 ≤ value) by solve_nonneg. auto with words.
  - apply write_register_ok; [apply Ha|done..].
  - by apply ioapic_eoi_ok.
Qed.

(** After its EOI a level entry waits again exactly if its line is asserted. *)
Lemma retired_remote vector lns pin e :
  retires vector e = true → remote_irr (retired_entry vector lns pin e) = asserted lns pin e.
Proof.
  intros Hr. unfold retired_entry. rewrite Hr.
  apply andb_true_iff in Hr as [[_ Hr]%andb_true_iff _]. unfold remote_irr, ENTRY_REMOTE_IRR in *.
  rewrite has_testbit in * by done. destruct (asserted _ _ _); cbn [andb negb]; [done|]. bits.
  rewrite bool_decide_true by done. by rewrite andb_false_r.
Qed.

Lemma set_lines_vectors lns a :
  ioapic_ok a → Forall (λ v, 0 ≤ v < 256) (set_lines lns a).1.
Proof.
  intros [Hlen _ _ _]. destruct (set_lines_spec lns a Hlen) as (_ & -> & _).
  unfold vectors_of. apply Forall_bind, Forall_true. intros pin. unfold compose. case_match; [|done].
  apply Forall_singleton. change 0xFF with (Z.ones 8). rewrite Z.land_ones by done.
  by apply Z.mod_pos_bound.
Qed.

Lemma eoi_vectors vector a : ioapic_ok a → Forall (λ v, v = vector) (end_of_interrupt vector a).1.
Proof.
  intros [Hlen _ _ _]. destruct (end_of_interrupt_spec vector a Hlen) as (_ & -> & _).
  apply Forall_bind, Forall_true. intros pin. unfold compose. case_match; [|done]. by apply Forall_singleton.
Qed.

(** ** Properties *)

(** [set_lines] delivers, in pin order, exactly the vectors (16 and up)
    of the pins whose line rises, whose entry is unmasked, and which are not
    level entries still waiting for an EOI; each such level entry gets its
    remote IRR set, and no other entry changes. *)
Theorem set_lines_fires lns a :
  ioapic_ok a →
  let rising := lns .&~ lines a in
  (set_lines lns a).1 = vectors_of rising (entry a) pins ∧
  lines (set_lines lns a).2 = lns ∧
  ∀ pin, (pin < 24)%nat →
    entry (set_lines lns a).2 pin =
      if fires rising pin (entry a pin) && level (entry a pin)
      then entry a pin .| ENTRY_REMOTE_IRR else entry a pin.
Proof.
  intros [Hlen _ _ _]. destruct (set_lines_spec lns a Hlen) as ((_ & _ & Hl & _) & H1 & H2).
  split_and!; done.
Qed.

(** A programmed controller: pin 9 level-triggered with vector 0x39, pin 4
    edge-triggered with vector 0x34. *)
Definition wired : IoApic :=
  set_entry 9 (0x39 .| ENTRY_LEVEL_TRIGGERED) (set_entry 4 0x34 new).

Lemma wired_ok : ioapic_ok wired.
Proof.
  repeat apply set_entry_ok; try (by apply word_const).
  split; simpl; try done. change (Forall (word 64) (replicate 24 ENTRY_MASKED)); by apply Forall_replicate, word_const.
Qed.

Lemma set_lines_fires_witness :
  (set_lines 0x210 wired).1 = [0x34; 0x39] ∧ lines (set_lines 0x210 wired).2 = 0x210.
Proof.
  destruct (set_lines_fires 0x210 wired wired_ok) as (H1 & H2 & _).
  split; [rewrite H1; reflexivity|exact H2].
Defined.

(** an EOI from the local APIC retires the level entries waiting on that
    vector. Each one whose line is still asserted and unmasked delivers again
    at once and keeps its remote IRR; the others drop it; no other entry is
    touched. *)
Theorem eoi_refires_asserted_lines vector a :
  ioapic_ok a →
  (end_of_interrupt vector a).1 =
    (pins ≫= λ pin, if retires vector (entry a pin) && asserted (lines a) pin (entry a pin)
                    then [vector] else []) ∧
  ∀ pin, (pin < 24)%nat →
    let e := entry a pin in
    let e' := entry (end_of_interrupt vector a).2 pin in
    (retires vector e = false → e' = e) ∧
    (retires vector e = true → remote_irr e' = asserted (lines a) pin e).
Proof.
  intros [Hlen _ _ _]. destruct (end_of_interrupt_spec vector a Hlen) as (_ & H1 & H2).
  split; [done|]. intros pin Hp. cbv zeta. rewrite H2 by done.
  split; [|by apply retired_remote]. intros Hr. unfold retired_entry. by rewrite Hr.
Qed.

Lemma eoi_refires_asserted_lines_witness :
  let a := (set_lines 0x200 wired).2 in
  (end_of_interrupt 0x39 a).1 = [0x39] ∧
  remote_irr (entry (end_of_interrupt 0x39 (set_lines 0 a).2).2 9) = false.
Proof.
  assert (ioapic_ok (set_lines 0x200 wired).2) as H by apply set_lines_ok, wired_ok.
  destruct (eoi_refires_asserted_lines 0x39 _ H) as (H1 & _).
  destruct (eoi_refires_asserted_lines 0x39 _ (set_lines_ok 0 _ H)) as (_ & H2).
  split; [rewrite H1; reflexivity|]. destruct (H2 9%nat ltac:(lia)) as [_ H3].
  rewrite H3; reflexivity.
Defined.

(** Anything but an EOI: line changes, register selection, register writes. *)
Inductive quiet_step : IoApic → IoApic → Prop :=
  | quiet_lines a lns : quiet_step a (set_lines lns a).2
  | quiet_write a offset value : offset ≠ IOEOI → word 32 value →
      quiet_step a (write offset value a).

(** Bit 14 is not writable. *)
Lemma write_low_keeps_irr e value :
  remote_irr ((e .&~ WRITABLE) .| (value .& WRITABLE)) = remote_irr e.
Proof.
  unfold remote_irr, ENTRY_REMOTE_IRR. rewrite !has_testbit by done.
  rewrite Z.lor_spec, Z.ldiff_spec, Z.land_spec.
  replace (Z.testbit WRITABLE 14) with false by reflexivity.
  by rewrite andb_true_r, andb_false_r, orb_false_r.
Qed.

Lemma write_high_keeps_irr e value :
  remote_irr ((e .& 0xFFFFFFFF) .| (value ≪ 32)) = remote_irr e.
Proof.
  unfold remote_irr, ENTRY_REMOTE_IRR. rewrite !has_testbit by done.
  rewrite Z.lor_spec, Z.land_spec, Z.shiftl_spec by done.
  rewrite (Z.testbit_neg_r value) by lia. by rewrite andb_true_r, orb_false_r.
Qed.

Lemma quiet_step_irr a b pin :
  ioapic_ok a → (pin < 24)%nat → quiet_step a b →
  ioapic_ok b ∧ (remote_irr (entry a pin) = true → remote_irr (entry b pin) = true).
Proof.
  intros Ha Hp Hs. revert Ha. destruct Hs as [a' lns|a' offset value Ho Hv]; intros Ha.
  - split; [by apply set_lines_ok|]. destruct (set_lines_spec lns a') as (_ & _ & He); [apply Ha|].
    rewrite He by done. unfold raised_entry. case_match; [|done]. unfold remote_irr, ENTRY_REMOTE_IRR.
    rewrite !has_testbit by done. intros _. bits. by rewrite bool_decide_true, orb_true_r.
  - split; [by apply ioapic_write_ok|]. unfold write.
    rewrite (proj2 (Z.eqb_neq offset IOEOI)) by done.
    repeat case_match; try done. unfold write_register. repeat case_match; try done.
    all: destruct (decide (Z.to_nat (redirection_index (register_select a') / 2) < 24)%nat) as [Hlt|Hge].
    all: try (rewrite entry_set_entry by (destruct Ha; lia); case_decide; [subst|done];
              by rewrite ?write_low_keeps_irr, ?write_high_keeps_irr).
    all: unfold entry, set_entry; simpl; by rewrite list_insert_ge by (destruct Ha; lia).
Qed.

(** the level handshake. Once a pin's remote IRR is set, no sequence of
    line changes and register writes clears it, only an EOI can; and as long as
    the entry stays level-triggered the pin delivers nothing, whatever its
    line does. *)
Theorem level_pin_waits_for_eoi a b pin lns :
  ioapic_ok a → (pin < 24)%nat → remote_irr (entry a pin) = true → rtc quiet_step a b →
  remote_irr (entry b pin) = true ∧
  (level (entry b pin) = true → fires (lns .&~ lines b) pin (entry b pin) = false).
Proof.
  intros Ha Hp Hirr Hr.
  assert (ioapic_ok b ∧ remote_irr (entry b pin) = true) as [_ Hb].
  { revert b Hr. apply (rtc_ind_r (λ b, ioapic_ok b ∧ remote_irr (entry b pin) = true)); [done|].
    intros b c _ Hstep [Hb Hi]. destruct (quiet_step_irr b c pin Hb Hp Hstep). auto. }
  split; [done|]. intros Hl. unfold fires. by rewrite Hb, Hl, andb_false_r.
Qed.

Lemma level_pin_waits_for_eoi_witness :
  let a := (set_lines 0x200 wired).2 in
  let b := (set_lines 0 a).2 in
  remote_irr (entry b 9) = true ∧
  (level (entry b 9) = true → fires (0x200 .&~ lines b) 9 (entry b 9) = false).
Proof.
  apply (level_pin_waits_for_eoi (set_lines 0x200 wired).2 _ 9 0x200).
  - apply set_lines_ok, wired_ok.
  - lia.
  - reflexivity.
  - eapply rtc_l; [apply quiet_lines|]. apply rtc_refl.
Defined.

(** Selecting a redirection register and going through the window. *)
Definition select_half (pin : nat) (high : bool) : Z :=
  REG_REDIRECTION_BASE + 2 * Z.of_nat pin + (if high then 1 else 0).
Definition write_half (pin : nat) (high : bool) (v : Z) (a : IoApic) : IoApic :=
  write IOWIN v (write IOREGSEL (select_half pin high) a).
Definition read_half (pin : nat) (high : bool) (a : IoApic) : Z :=
  read IOWIN (write IOREGSEL (select_half pin high) a).

Lemma write_select pin high a :
  (pin < 24)%nat →
  write IOREGSEL (select_half pin high) a = a <| register_select := select_half pin high |>.
Proof.
  intros Hp. change (write IOREGSEL (select_half pin high) a)
    with (a <| register_select := select_half pin high .& Z.ones 8 |>).
  rewrite Z.land_ones, Z.mod_small; [done| |done].
  unfold select_half, REG_REDIRECTION_BASE. destruct high; lia.
Qed.

Lemma select_half_index pin high :
  (pin < 24)%nat →
  let s := select_half pin high in
  (s =? REG_ID) = false ∧ (s =? REG_VERSION) = false ∧ (s =? REG_ARBITRATION) = false ∧
  redirection_index s / 2 = Z.of_nat pin ∧ (redirection_index s `mod` 2 =? 0) = negb high.
Proof.
  intros Hp s. unfold redirection_index, wrapping_sub.
  assert (s - REG_REDIRECTION_BASE = 2 * Z.of_nat pin + (if high then 1 else 0)) as ->
    by (unfold s, select_half; lia).
  rewrite wrap_small by (unfold word; destruct high; lia).
  unfold s, select_half, REG_ID, REG_VERSION, REG_ARBITRATION, REG_REDIRECTION_BASE.
  split_and!; try (apply Z.eqb_neq; destruct high; lia).
  - destruct high; dlia.
  - destruct high; simpl; [apply Z.eqb_neq|apply Z.eqb_eq]; dlia.
Qed.

Lemma write_half_eq pin high v a :
  (pin < 24)%nat →
  write_half pin high v a =
    set_entry pin (if high then (entry a pin .& 0xFFFFFFFF) .| (v ≪ 32)
                   else (entry a pin .&~ WRITABLE) .| (v .& WRITABLE))
      (a <| register_select := select_half pin high |>).
Proof.
  intros Hp. destruct (select_half_index pin high Hp) as (E1 & E2 & E3 & E4 & E5).
  unfold write_half. rewrite write_select by done.
  change (write_register (select_half pin high) v (a <| register_select := select_half pin high |>) =
    set_entry pin (if high then (entry a pin .& 0xFFFFFFFF) .| (v ≪ 32)
                   else (entry a pin .&~ WRITABLE) .| (v .& WRITABLE))
      (a <| register_select := select_half pin high |>)).
  unfold write_register. rewrite E1, E2, E3, E4, E5. simpl.
  rewrite Z.geb_leb, (proj2 (Z.leb_gt _ _)) by (unfold IOAPIC_PINS; lia).
  rewrite Nat2Z.id. by destruct high.
Qed.

Lemma read_half_eq pin high a :
  (pin < 24)%nat →
  read_half pin high a = if high then wrap 32 (entry a pin ≫ 32) else wrap 32 (entry a pin).
Proof.
  intros Hp. destruct (select_half_index pin high Hp) as (E1 & E2 & E3 & E4 & E5).
  unfold read_half. rewrite write_select by done.
  change (read_register (select_half pin high) (a <| register_select := select_half pin high |>) =
    if high then wrap 32 (entry a pin ≫ 32) else wrap 32 (entry a pin)).
  unfold read_register. rewrite E1, E2, E3, E4, E5.
  rewrite Z.geb_leb, (proj2 (Z.leb_gt _ _)) by (unfold IOAPIC_PINS; lia).
  rewrite Nat2Z.id. by destruct high.
Qed.

(** the register window. A redirection half reads back what was written,
    except for the two read-only bits (remote IRR and delivery status), which
    keep their values; the other half and every other pin are unchanged. *)
Theorem redirection_reads_back pin high v a :
  ioapic_ok a → (pin < 24)%nat → word 32 v →
  let a' := write_half pin high v a in
  read_half pin high a' =
    (if high then v
     else (read_half pin false a .&~ WRITABLE) .| (v .& WRITABLE)) ∧
  read_half pin (negb high) a' = read_half pin (negb high) a ∧
  ∀ q h, q ≠ pin → (q < 24)%nat → read_half q h a' = read_half q h a.
Proof.
  intros Ha Hp Hv a'. pose proof (ok_length _ Ha) as Hlen.
  assert (entry a' pin = (if high then (entry a pin .& 0xFFFFFFFF) .| (v ≪ 32)
                   else (entry a pin .&~ WRITABLE) .| (v .& WRITABLE))) as E.
  { unfold a'. rewrite write_half_eq by done. by rewrite entry_set_entry, decide_True by (simpl; lia). }
  pose proof writable_word as Hw. pose proof (entry_word a pin Ha Hp) as He.
  assert (word 32 (wrap 32 (entry a pin))) by auto with words.
  split; [|split].
  - rewrite !read_half_eq, E by done. destruct high.
    + change 0xFFFFFFFF with (Z.ones 32). rewrite <- wrap_land_ones by done.
      rewrite lor_shiftl_high by (done || auto with words). by apply wrap_small.
    + apply (word_ext 32); [done|auto with words..|]. intros i Hi. bits. rewrite !bool_decide_true by lia. done.
  - rewrite !read_half_eq, E by done. destruct high; simpl.
    + apply (word_ext 32); [done|auto with words..|]. intros i Hi.
      change 0xFFFFFFFF with (Z.ones 32). bits. rewrite (Z.testbit_neg_r v) by lia.
      rewrite Z.ones_spec_low by lia. by rewrite andb_true_r, orb_false_r.
    + f_equal. apply Z.bits_inj'. intros i Hi. bits.
      rewrite (word_testbit 32 WRITABLE) by (done || lia). by rewrite andb_true_r, andb_false_r, orb_false_r.
  - intros q h Hq Hq24. rewrite !read_half_eq by done. unfold a'. rewrite write_half_eq by done.
    by rewrite entry_set_entry, decide_False by (simpl; lia || congruence).
Qed.

Lemma redirection_reads_back_witness :
  let a' := write_half 9 false 0x1FFFF wired in
  read_half 9 false a' = (read_half 9 false wired .&~ WRITABLE) .| (0x1FFFF .& WRITABLE) ∧
  read_half 9 true a' = read_half 9 true wired ∧
  ∀ q h, q ≠ 9%nat → (q < 24)%nat → read_half q h a' = read_half q h wired.
Proof.
  apply (redirection_reads_back 9 false 0x1FFFF wired);
    [apply wired_ok|lia|by apply word_const].
Defined.

(** A directed EOI (register 0x40) re-arms a still asserted level line but the
    vector that refires is thrown away: remote IRR stays set and nothing is
    delivered. *)
Lemma directed_eoi_drops_the_refire :
  let a := (set_lines 0x200 wired).2 in
  (end_of_interrupt 0x39 a).1 = [0x39] ∧
  remote_irr (entry (write IOEOI 0x39 a) 9) = true ∧
  (set_lines 0x200 (write IOEOI 0x39 a)).1 = [].
Proof. vm_compute. done. Qed.

(** Unmasking a level entry whose line is already asserted delivers nothing,
    now or while the line stays up. *)
Lemma unmasking_asserted_line_is_silent :
  let a := (set_lines 0x200 (write_half 9 false (0x39 .| bit 15 .| bit 16) wired)).2 in
  let b := write_half 9 false (0x39 .| bit 15) a in
  (set_lines 0x200 b).1 = [] ∧ masked (entry b 9) = false ∧
  has (lines b) (bit 9) = true ∧ remote_irr (entry b 9) = false.
Proof. vm_compute. done. Qed.
