(* ===== verification/Uart16550.v ===== *)
(** The 16550A serial port of [rish-softvm-core/src/devices/uart16550.rs]:
    register file, bounded receive and transmit queues, interrupt conditions.

    The theorems show that both directions are FIFO streams: the guest reads
    what the host pushed, in order, and the host drains what the guest
    transmitted, in order, every missing byte being counted as dropped. *)
From S2P Require Import Prelude.
Local Open Scope Z_scope.

Definition REG_THR_RBR : Z := 0.
Definition REG_IER : Z := 1.
Definition REG_IIR_FCR : Z := 2.
Definition REG_LCR : Z := 3.
Definition REG_MCR : Z := 4.
Definition REG_LSR : Z := 5.
Definition REG_MSR : Z := 6.
Definition REG_SCR : Z := 7.
Definition LSR_DATA_READY : Z := bit 0.
Definition LSR_THR_EMPTY : Z := bit 5.
Definition LSR_TX_EMPTY : Z := bit 6.
Definition IIR_NO_INTERRUPT : Z := 1.
Definition LCR_DLAB : Z := bit 7.
Definition FCR_ENABLE_FIFO : Z := bit 0.
Definition FCR_CLEAR_RX : Z := bit 1.

Record Uart16550 := mkUart {
  base : Z;
  input : list Z;
  output : list Z;
  input_capacity : Z;
  output_capacity : Z;
  dropped_output : Z;
  divisor : Z;
  ier : Z;
  fifo_enabled : bool;
  lcr : Z;
  mcr : Z;
  scr : Z
}.
#[export] Instance Uart16550_eta : Settable Uart16550 := λ u,
  mkUart (base u) (input u) (output u) (input_capacity u) (output_capacity u)
    (dropped_output u) (divisor u) (ier u) (fifo_enabled u) (lcr u) (mcr u) (scr u).

Definition new (base input_capacity output_capacity : Z) : Uart16550 :=
  mkUart base [] [] input_capacity output_capacity 0 1 0 false 3 0 0.

Definition is_empty {A} (l : list A) : bool := match l with [] => true | _ => false end.

Definition poll_interrupt_edge (u : Uart16550) : bool :=
  let rx_now := has (ier u) 1 && negb (is_empty (input u)) in
  let tx_now := has (ier u) 2 in
  rx_now || tx_now.

(** The loop of [push_input], which breaks at capacity. *)
Fixpoint push_loop (bytes : list Z) (accepted : Z) (u : Uart16550) : Z * Uart16550 :=
  match bytes with
  | [] => (accepted, u)
  | byte :: bytes =>
      if len (input u) >=? input_capacity u then (accepted, u)
      else push_loop bytes (accepted + 1) (u <| input ::= λ q, q ++ [byte] |>)
  end.
Definition push_input (bytes : list Z) (u : Uart16550) : Z * Uart16550 := push_loop bytes 0 u.

Definition drain_output (u : Uart16550) : list Z * Uart16550 :=
  let count := Z.to_nat (Z.min (len (output u)) 4096) in
  (take count (output u), u <| output ::= drop count |>).

Definition has_pending_interrupt (u : Uart16550) : bool :=
  (has (ier u) 1 && negb (is_empty (input u))) || has (ier u) 2.

Definition irq_line (u : Uart16550) : Z :=
  if base u =? 0x3F8 then 4 else if base u =? 0x2F8 then 3 else 0.

Definition dlab (u : Uart16550) : bool := has (lcr u) LCR_DLAB.

(** The interrupt identification register. *)
Definition iir (u : Uart16550) : Z :=
  let source :=
    if has (ier u) 1 && negb (is_empty (input u)) then 4
    else if has (ier u) 2 then 2 else IIR_NO_INTERRUPT in
  let fifo_bits := if fifo_enabled u then 0xC0 else 0 in
  source .| fifo_bits.

(** [PortDevice::read] *)
Definition read (port : Z) (u : Uart16550) : Z * Uart16550 :=
  let reg := wrapping_sub 16 port (base u) in
  if reg =? REG_THR_RBR then
    if dlab u then (wrap 8 (divisor u), u)
    else match input u with
         | [] => (0, u)
         | b :: q => (b, u <| input := q |>)
         end
  else if reg =? REG_IER then
    if dlab u then (wrap 8 (divisor u ≫ 8), u) else (ier u, u)
  else if reg =? REG_IIR_FCR then (iir u, u)
  else if reg =? REG_LCR then (lcr u, u)
  else if reg =? REG_MCR then (mcr u, u)
  else if reg =? REG_LSR then
    (LSR_THR_EMPTY .| LSR_TX_EMPTY .| (if is_empty (input u) then 0 else LSR_DATA_READY), u)
  else if reg =? REG_MSR then (0xB0, u)
  else if reg =? REG_SCR then (scr u, u)
  else (0, u).

(** [PortDevice::write] *)
Definition write (port value : Z) (u : Uart16550) : Uart16550 :=
  let value := wrap 8 value in
  let reg := wrapping_sub 16 port (base u) in
  if reg =? REG_THR_RBR then
    if dlab u then u <| divisor ::= λ d, (d .& 0xFF00) .| value |>
    else if len (output u) <? output_capacity u then u <| output ::= λ q, q ++ [value] |>
    else u <| dropped_output ::= λ n, saturating_add 64 n 1 |>
  else if reg =? REG_IER then
    if dlab u then u <| divisor ::= λ d, (d .& 0x00FF) .| (value ≪ 8) |>
    else u <| ier := value .& 0xF |>
  else if reg =? REG_IIR_FCR then
    let u := u <| fifo_enabled := has value FCR_ENABLE_FIFO |> in
    if has value FCR_CLEAR_RX then u <| input := [] |> else u
  else if reg =? REG_LCR then u <| lcr := value |>
  else if reg =? REG_MCR then u <| mcr := value |>
  else if reg =? REG_SCR then u <| scr := value |>
  else u.

(** ** Receiving *)

Lemma push_loop_spec bytes n u :
  len (input u) ≤ input_capacity u →
  let k := Z.min (len bytes) (input_capacity u - len (input u)) in
  push_loop bytes n u = (n + k, u <| input ::= λ q, q ++ take (Z.to_nat k) bytes |>).
Proof.
  revert n u. induction bytes as [|b bs IH]; intros n u Hcap; simpl.
  - rewrite take_nil. change (len (@nil Z)) with 0.
    replace (Z.min 0 _) with 0 by lia. rewrite Z.add_0_r. f_equal.
    destruct u; unfold set_field; simpl. by rewrite app_nil_r.
  - rewrite Z.geb_leb. destruct (Z.leb_spec (input_capacity u) (len (input u))).
    + replace (Z.min _ _) with 0 by (unfold len in *; lia). rewrite Z.add_0_r. f_equal.
      destruct u; unfold set_field; simpl. by rewrite app_nil_r.
    + unfold len in *. rewrite IH; simpl; rewrite length_app; simpl; [|lia].
      set (k := Z.min _ _). set (k' := Z.min (Z.of_nat (S (length bs))) _).
      assert (k' = k + 1) as -> by lia. f_equal; [lia|].
      replace (Z.to_nat (k + 1)) with (S (Z.to_nat k)) by lia.
      destruct u; unfold set_field; simpl. by rewrite <- app_assoc.
Qed.

(** [n] reads of the receive buffer. *)
Fixpoint read_bytes (n : nat) (u : Uart16550) : list Z * Uart16550 :=
  match n with
  | O => ([], u)
  | S n => let '(b, u) := read (base u) u in
           let '(bs, u) := read_bytes n u in (b :: bs, u)
  end.

Lemma read_bytes_spec n u :
  dlab u = false → (n ≤ length (input u))%nat →
  read_bytes n u = (take n (input u), u <| input ::= drop n |>).
Proof.
  revert u. induction n as [|n IH]; intros u Hd Hn; simpl.
  - destruct u; unfold set_field; simpl. by rewrite drop_0.
  - unfold read. rewrite (proj2 (Z.eqb_eq (wrapping_sub 16 (base u) (base u)) REG_THR_RBR))
      by (unfold wrapping_sub, wrap; by rewrite Z.sub_diag).
    rewrite Hd. destruct (input u) as [|b q] eqn:E; simpl in Hn; [lia|].
    rewrite IH by (simpl; done || lia). simpl. f_equal. unfold set_field; simpl. by rewrite E.
Qed.

(** the receive path is a bounded FIFO. [push_input] accepts exactly the
    bytes that fit and reports how many; with the divisor latch closed, reading
    the receive buffer then yields the bytes queued before followed by the
    accepted ones, in order, and empties the queue. *)
Theorem received_bytes_in_order bytes u :
  dlab u = false → len (input u) ≤ input_capacity u →
  let '(accepted, u1) := push_input bytes u in
  accepted = Z.min (len bytes) (input_capacity u - len (input u)) ∧
  let expected := input u ++ take (Z.to_nat accepted) bytes in
  let '(got, u2) := read_bytes (length expected) u1 in
  got = expected ∧ input u2 = [] ∧ input_capacity u2 = input_capacity u.
Proof.
  intros Hd Hcap. unfold push_input. rewrite push_loop_spec by done. simpl.
  split; [done|]. rewrite read_bytes_spec by done. simpl.
  rewrite firstn_all, drop_all. done.
Qed.

Lemma received_bytes_in_order_witness :
  let '(accepted, u1) := push_input [1; 2; 3; 4] (new 0x3F8 3 8) in
  accepted = 3 ∧ let '(got, u2) := read_bytes 3 u1 in
  got = [1; 2; 3] ∧ input u2 = [] ∧ input_capacity u2 = 3.
Proof. apply (received_bytes_in_order [1; 2; 3; 4] (new 0x3F8 3 8)); [done|vm_compute; discriminate]. Defined.

(** ** Transmitting *)

Inductive op :=
  | Push (bytes : list Z)
  | Read (port : Z)
  | Write (port value : Z)
  | Drain.

(** Does this write put a byte on the wire? *)
Definition transmits (port : Z) (u : Uart16550) : bool :=
  (wrapping_sub 16 port (base u) =? REG_THR_RBR) && negb (dlab u).

(** A run of operations: the bytes the guest transmitted and the bytes the
    host drained, in order. *)
Fixpoint run (ops : list op) (u : Uart16550) : list Z * list Z * Uart16550 :=
  match ops with
  | [] => ([], [], u)
  | o :: ops =>
      let '(sent1, drained1, u1) :=
        match o with
        | Push bytes => ([], [], (push_input bytes u).2)
        | Read port => ([], [], (read port u).2)
        | Write port v => (if transmits port u then [wrap 8 v] else [], [], write port v u)
        | Drain => let '(bs, u) := drain_output u in ([], bs, u)
        end in
      let '(sent, drained, u2) := run ops u1 in
      (sent1 ++ sent, drained1 ++ drained, u2)
  end.

Lemma push_output bytes u :
  output (push_input bytes u).2 = output u ∧ dropped_output (push_input bytes u).2 = dropped_output u
  ∧ output_capacity (push_input bytes u).2 = output_capacity u.
Proof.
  unfold push_input. generalize 0. revert u.
  induction bytes as [|b bs IH]; intros u n; simpl; [done|]. case_match; [done|].
  exact (IH (u <| input ::= λ q, q ++ [b] |>) (n + 1)).
Qed.

Lemma read_output port u :
  output (read port u).2 = output u ∧ dropped_output (read port u).2 = dropped_output u
  ∧ output_capacity (read port u).2 = output_capacity u.
Proof. unfold read. by repeat case_match. Qed.

Lemma write_output port v u :
  output_capacity (write port v u) = output_capacity u ∧
  (output (write port v u), dropped_output (write port v u)) =
    if transmits port u then
      if len (output u) <? output_capacity u then (output u ++ [wrap 8 v], dropped_output u)
      else (output u, saturating_add 64 (dropped_output u) 1)
    else (output u, dropped_output u).
Proof.
  unfold write, transmits. destruct (_ =? REG_THR_RBR); simpl.
  - by destruct (dlab u), (_ <? _).
  - by repeat case_match.
Qed.

(** The wire after a run, whatever was on it before. *)
Lemma run_wire ops u :
  0 ≤ dropped_output u → len (output u) ≤ output_capacity u →
  let '(sent, drained, u') := run ops u in
  dropped_output u + len sent < 2 ^ 64 →
  drained ++ output u' `sublist_of` output u ++ sent ∧
  len (output u) + len sent + dropped_output u
    = len drained + len (output u') + dropped_output u' ∧
  len (output u') ≤ output_capacity u.
Proof.
  revert u. induction ops as [|o ops IH]; intros u Hd Hcap; simpl.
  { intros _. rewrite app_nil_r. change (len (@nil Z)) with 0. split_and!; [done|lia|lia]. }
  destruct o as [bytes|port|port v|].
  - destruct (push_output bytes u) as (E1 & E2 & E3). specialize (IH (push_input bytes u).2).
    rewrite E1, E2, E3 in IH. specialize (IH Hd Hcap). by destruct (run ops _) as [[sent drained] u'].
  - destruct (read_output port u) as (E1 & E2 & E3). specialize (IH (read port u).2).
    rewrite E1, E2, E3 in IH. specialize (IH Hd Hcap). by destruct (run ops _) as [[sent drained] u'].
  - destruct (write_output port v u) as (E3 & E). specialize (IH (write port v u)).
    destruct (transmits port u); [destruct (Z.ltb_spec (len (output u)) (output_capacity u))|];
      injection E as E1 E2; rewrite E1, E2, E3 in IH;
      destruct (run ops _) as [[sent drained] u'].
    all: autorewrite with len in *; pose proof (len_nonneg sent); intros Hsat.
    + destruct IH as (H1 & H2 & H3); [lia..|]. rewrite <- app_assoc in H1.
      split_and!; [done|lia|lia].
    + unfold saturating_add in *. replace (Z.min _ _) with (dropped_output u + 1) in * by lia.
      destruct IH as (H1 & H2 & H3); [lia..|]. split_and!; [|lia|lia].
      etrans; [exact H1|]. apply sublist_app; [done|]. by apply sublist_cons.
    + by apply IH.
  - unfold drain_output. set (k := Z.to_nat _). set (u1 := u <| output ::= drop k |>).
    remember (take k (output u)) as t eqn:Et.
    assert (output u = t ++ output u1) as E by (subst t; symmetry; apply take_drop).
    specialize (IH u1 Hd). change (dropped_output u1) with (dropped_output u) in IH.
    change (output_capacity u1) with (output_capacity u) in IH.
    destruct (run ops u1) as [[sent drained] u']. intros Hsat.
    rewrite E in Hcap |- *. autorewrite with len in *. pose proof (len_nonneg t).
    destruct IH as (H1 & H2 & H3); [lia|done|]. split_and!; [|lia|lia].
    rewrite <- !app_assoc. by apply sublist_app.
Qed.

(** A subsequence of full length is the whole. *)
Lemma sublist_full {A} (k l : list A) : k `sublist_of` l → (length l ≤ length k)%nat → k = l.
Proof.
  induction 1 as [|x k l H IH|x k l H IH]; simpl; intros Hl; [done|f_equal; apply IH; lia|].
  apply sublist_length in H. lia.
Qed.

(** the transmit path loses nothing silently. Over any run of host and
    guest operations from reset, what the host has drained followed by what
    is still queued is a subsequence of the bytes the guest transmitted, the
    missing ones are exactly counted by [dropped_output], and with none
    dropped it is the transmitted stream itself; the queue never exceeds its
    capacity. *)
Theorem transmitted_bytes_accounted ops base ic oc :
  0 ≤ oc →
  let '(sent, drained, u) := run ops (new base ic oc) in
  len sent < 2 ^ 64 →
  drained ++ output u `sublist_of` sent ∧
  len sent = len (drained ++ output u) + dropped_output u ∧
  (dropped_output u = 0 → drained ++ output u = sent) ∧
  len (output u) ≤ oc.
Proof.
  intros Hoc. pose proof (run_wire ops (new base ic oc)) as H.
  destruct (run ops _) as [[sent drained] u]. simpl in H. autorewrite with len in H.
  intros Hsat. destruct H as (H1 & H2 & H3); [done|done|lia|].
  autorewrite with len. split_and!; [done|lia| |done].
  intros Hz. apply sublist_full; [done|].
  rewrite length_app. unfold len in *. lia.
Qed.

Lemma transmitted_bytes_accounted_witness :
  let '(sent, drained, u) :=
    run [Write 0x3F8 65; Write 0x3F8 66; Drain; Write 0x3F8 67; Write 0x3F8 68; Write 0x3F8 69]
      (new 0x3F8 16 2) in
  drained ++ output u `sublist_of` sent ∧
  len sent = len (drained ++ output u) + dropped_output u ∧
  (dropped_output u = 0 → drained ++ output u = sent) ∧
  len (output u) ≤ 2.
Proof.
  apply (transmitted_bytes_accounted
    [Write 0x3F8 65; Write 0x3F8 66; Drain; Write 0x3F8 67; Write 0x3F8 68; Write 0x3F8 69]
    0x3F8 16 2); [lia|vm_compute; reflexivity].
Defined.
