(* ===== verification/Cmos.v ===== *)
(** The CMOS real-time clock of [rish-softvm-core/src/devices/cmos.rs]: the
    index/data port pair and the clock registers derived from the boot time.

    The theorems show that [civil_from_days] is the Gregorian calendar, and
    that the BCD registers a guest reads spell out the boot time. *)
From S2P Require Import Prelude.
Local Open Scope Z_scope.

Definition CMOS_INDEX : Z := 0x70.
Definition CMOS_DATA : Z := 0x71.
Definition RTC_SECONDS : Z := 0x00.
Definition RTC_MINUTES : Z := 0x02.
Definition RTC_HOURS : Z := 0x04.
Definition RTC_DAY_OF_WEEK : Z := 0x06.
Definition RTC_DAY_OF_MONTH : Z := 0x07.
Definition RTC_MONTH : Z := 0x08.
Definition RTC_YEAR : Z := 0x09.
Definition RTC_STATUS_A : Z := 0x0A.
Definition RTC_STATUS_B : Z := 0x0B.
Definition RTC_CENTURY : Z := 0x32.

Record Cmos := mkCmos {
  index : Z;
  boot_epoch_seconds : Z
}.
#[export] Instance Cmos_eta : Settable Cmos := λ c, mkCmos (index c) (boot_epoch_seconds c).

Definition new (boot_epoch_seconds : Z) : Cmos := mkCmos 0 boot_epoch_seconds.

Definition bcd (value : Z) : Z := wrap 8 (wrap 8 (value / 10) ≪ 4) .| wrap 8 (value `mod` 10).

(** Signed division truncates, as in Rust. *)
Definition civil_from_days (days : Z) : Z * Z * Z :=
  let z := days + 719468 in
  let era := (if z >=? 0 then z else z - 146096) `quot` 146097 in
  let doe := z - era * 146097 in
  let yoe := (doe - doe `quot` 1460 + doe `quot` 36524 - doe `quot` 146096) `quot` 365 in
  let y := yoe + era * 400 in
  let doy := doe - (365 * yoe + yoe `quot` 4 - yoe `quot` 100) in
  let mp := (5 * doy + 2) `quot` 153 in
  let d := wrap 32 (doy - (153 * mp + 2) `quot` 5 + 1) in
  let m := wrap 32 (if mp <? 10 then mp + 3 else mp - 9) in
  (if m <=? 2 then y + 1 else y, m, d).

Definition read_register (register : Z) (c : Cmos) : Z :=
  let epoch := boot_epoch_seconds c in
  let seconds := epoch `mod` 60 in
  let minutes := (epoch / 60) `mod` 60 in
  let hours := (epoch / 3600) `mod` 24 in
  let days := epoch / 86400 in
  let '(year, month, day) := civil_from_days days in
  let weekday := (days + 4) `mod` 7 in
  if register =? RTC_SECONDS then bcd seconds
  else if register =? RTC_MINUTES then bcd minutes
  else if register =? RTC_HOURS then bcd hours
  else if register =? RTC_DAY_OF_WEEK then bcd (weekday + 1)
  else if register =? RTC_DAY_OF_MONTH then bcd day
  else if register =? RTC_MONTH then bcd month
  else if register =? RTC_YEAR then bcd (year `mod` 100)
  else if register =? RTC_STATUS_A then 0x20
  else if register =? RTC_STATUS_B then 0x02
  else if register =? RTC_CENTURY then bcd (wrap 64 (year `quot` 100))
  else 0.

(** [PortDevice::read] and [PortDevice::write] *)
Definition read (port : Z) (c : Cmos) : Z :=
  if port =? CMOS_DATA then read_register (index c) c else 2 ^ 32 - 1.

Definition write (port value : Z) (c : Cmos) : Cmos :=
  if port =? CMOS_INDEX then c <| index := wrap 8 value |> else c.

(** ** The calendar *)

Definition is_leap (y : Z) : bool :=
  (y `mod` 4 =? 0) && (negb (y `mod` 100 =? 0) || (y `mod` 400 =? 0)).

Definition month_length (leap : bool) (m : Z) : Z :=
  if m =? 2 then if leap then 29 else 28
  else if (m =? 4) || (m =? 6) || (m =? 9) || (m =? 11) then 30 else 31.

Definition next_day (date : Z * Z * Z) : Z * Z * Z :=
  let '(y, m, d) := date in
  if d <? month_length (is_leap y) m then (y, m, d + 1)
  else if m <? 12 then (y, m + 1, 1)
  else (y + 1, 1, 1).

(** ** Years that begin in March *)

(** The first day, in its 400-year era, of year [y] of the era. *)
Definition year_start (y : Z) : Z := 365 * y + y / 4 - y / 100.
Definition year_end (y : Z) : Z := if y =? 399 then 146097 else year_start (y + 1).

Definition year_of_day (doe : Z) : Z :=
  (doe - doe / 1460 + doe / 36524 - doe / 146096) / 365.

(** Day [doy] of the March year [y]. *)
Definition date (y doy : Z) : Z * Z * Z :=
  let mp := (5 * doy + 2) / 153 in
  let d := doy - (153 * mp + 2) / 5 + 1 in
  let m := if mp <? 10 then mp + 3 else mp - 9 in
  (if m <=? 2 then y + 1 else y, m, d).

Lemma year_of_day_mono d d' : 0 ≤ d → d ≤ d' → d' < 146097 → year_of_day d ≤ year_of_day d'.
Proof. intros. unfold year_of_day. apply Z.div_le_mono; [done|]. dlia. Qed.

Definition year_bounds_ok (y : Z) : bool :=
  (year_of_day (year_start y) =? y) && (year_of_day (year_end y - 1) =? y) &&
  (0 <=? year_start y) && (year_start y <? year_end y) && (year_end y <=? 146097) &&
  (year_end y - year_start y =? (if is_leap (y + 1) then 366 else 365)).

Lemma year_bounds y :
  0 ≤ y < 400 →
  year_of_day (year_start y) = y ∧ year_of_day (year_end y - 1) = y ∧
  0 ≤ year_start y < year_end y ∧ year_end y ≤ 146097 ∧
  year_end y - year_start y = if is_leap (y + 1) then 366 else 365.
Proof.
  intros Hy. assert (year_bounds_ok y = true) as H.
  { apply (forallb_range _ 0 400); [vm_compute; reflexivity|lia]. }
  unfold year_bounds_ok in H. rewrite !andb_true_iff in H. lia.
Qed.

Lemma is_leap_era y era : is_leap (y + era * 400) = is_leap y.
Proof.
  unfold is_leap. replace (y + era * 400) with (y + (era * 100) * 4) at 1 by lia.
  replace (y + era * 400) with (y + (era * 4) * 100) at 1 by lia.
  by rewrite !Z.mod_add by done.
Qed.

(** [civil_from_days] on a day given by era, year of the era and day of the
    March year. *)
Lemma civil_from_days_eq era y doy :
  0 ≤ era → 0 ≤ y < 400 → 0 ≤ doy < year_end y - year_start y →
  civil_from_days (146097 * era + year_start y + doy - 719468) = date (y + era * 400) doy.
Proof.
  intros Hera Hy Hdoy. destruct (year_bounds y Hy) as (H1 & H2 & H3 & H4 & H5).
  assert (doy < 366) by (destruct (is_leap (y + 1)); lia).
  set (doe := year_start y + doy).
  assert (year_of_day doe = y) as Hyoe.
  { pose proof (year_of_day_mono (year_start y) doe).
    pose proof (year_of_day_mono doe (year_end y - 1)). lia. }
  unfold civil_from_days.
  replace (146097 * era + year_start y + doy - 719468 + 719468) with (era * 146097 + doe) by lia.
  rewrite (proj2 (Z.geb_le _ _)) by lia.
  rewrite (Z.quot_div_nonneg (era * 146097 + doe)) by lia.
  replace ((era * 146097 + doe) / 146097) with era by (apply (Z.div_unique _ _ _ doe); lia).
  replace (era * 146097 + doe - era * 146097) with doe by lia.
  rewrite !(Z.quot_div_nonneg doe) by lia.
  assert (0 ≤ doe - doe / 1460 + doe / 36524 - doe / 146096) by dlia.
  rewrite (Z.quot_div_nonneg (doe - _ + _ - _)) by lia. fold (year_of_day doe). rewrite Hyoe.
  rewrite !(Z.quot_div_nonneg y) by lia. fold (year_start y).
  replace (doe - year_start y) with doy by lia.
  rewrite (Z.quot_div_nonneg (5 * doy + 2)) by lia.
  rewrite (Z.quot_div_nonneg (153 * _ + 2)) by (try done; dlia).
  unfold date. rewrite !wrap_small; [done|..]; unfold word; repeat case_match; dlia.
Qed.

(** Every day has such a form. *)
Lemma day_form z :
  0 ≤ z →
  ∃ era y doy, 0 ≤ era ∧ 0 ≤ y < 400 ∧ 0 ≤ doy < year_end y - year_start y ∧
    z = 146097 * era + year_start y + doy.
Proof.
  intros Hz. set (doe := z `mod` 146097).
  assert (0 ≤ doe < 146097) by (apply Z.mod_pos_bound; lia).
  set (y := year_of_day doe).
  assert (0 ≤ y < 400) as Hy.
  { pose proof (year_of_day_mono 0 doe). pose proof (year_of_day_mono doe 146096).
    change (year_of_day 0) with 0 in *. change (year_of_day 146096) with 399 in *. lia. }
  assert (year_start y ≤ doe) as Hlo.
  { destruct (decide (y = 0)) as [E|]; [rewrite E; change (year_start 0) with 0; lia|].
    destruct (year_bounds (y - 1)) as (_ & H2 & H3 & H4 & _); [lia|].
    unfold year_end in *. rewrite (proj2 (Z.eqb_neq _ _)) in * by lia.
    replace (y - 1 + 1) with y in * by lia. apply Z.nlt_ge. intros Hlt.
    pose proof (year_of_day_mono doe (year_start y - 1)). lia. }
  assert (doe < year_end y) as Hhi.
  { unfold year_end. destruct (Z.eqb_spec y 399) as [|]; [lia|].
    destruct (year_bounds (y + 1)) as (H1 & _ & H3 & _); [lia|]. apply Z.nle_gt. intros Hle.
    pose proof (year_of_day_mono (year_start (y + 1)) doe). lia. }
  exists (z / 146097), y, (doe - year_start y). split_and!; try lia.
  - by apply Z.div_pos.
  - pose proof (Z.div_mod z 146097). lia.
Qed.

(** The month table, away from the end of February. *)
Definition succ_ok (leap : bool) (doy : Z) : bool :=
  let '(y, m, d) := date 0 doy in
  let '(y', m', d') := date 0 (doy + 1) in
  if d <? month_length leap m then (y' =? y) && (m' =? m) && (d' =? d + 1)
  else if m <? 12 then (y' =? y) && (m' =? m + 1) && (d' =? 1)
  else (y' =? y + 1) && (m' =? 1) && (d' =? 1).

Lemma date_shift y doy :
  date y doy = let '(y0, m, d) := date 0 doy in (y + y0, m, d).
Proof. unfold date. by repeat (case_match; simplify_eq/=); f_equal; f_equal; lia. Qed.

Lemma date_succ y doy :
  0 ≤ doy < 364 ∨ doy = 364 ∧ is_leap (y + 1) = true →
  next_day (date y doy) = date y (doy + 1).
Proof.
  intros Hdoy. rewrite (date_shift y doy), (date_shift y (doy + 1)).
  assert (let '(y0, _, _) := date 0 doy in succ_ok (is_leap (y + y0)) doy = true) as H.
  { destruct Hdoy as [Hdoy|[-> Hl]].
    - destruct (date 0 doy) as [[y0 m] d]. destruct (is_leap (y + y0)).
      + apply (forallb_range _ 0 364); [vm_compute; reflexivity|lia].
      + apply (forallb_range _ 0 364); [vm_compute; reflexivity|lia].
    - change (date 0 364) with (1, 2, 28). cbv beta iota. by rewrite Hl. }
  unfold succ_ok in H. destruct (date 0 doy) as [[y0 m] d], (date 0 (doy + 1)) as [[y1 m1] d1].
  unfold next_day. repeat case_match; rewrite !andb_true_iff in H; f_equal; try f_equal; lia.
Qed.

(** The last day of a March year is the last of February. *)
Lemma date_year_end y doy :
  doy = (if is_leap (y + 1) then 365 else 364) → next_day (date y doy) = date (y + 1) 0.
Proof.
  intros ->. rewrite (date_shift y), (date_shift (y + 1)). change (date 0 0) with (0, 3, 1).
  destruct (is_leap (y + 1)) eqn:Hl.
  - change (date 0 365) with (1, 2, 29). unfold next_day, month_length. rewrite Hl. simpl.
    by rewrite Z.add_0_r.
  - change (date 0 364) with (1, 2, 28). unfold next_day, month_length. rewrite Hl. simpl.
    by rewrite Z.add_0_r.
Qed.

Lemma civil_succ days :
  0 ≤ days + 719468 → civil_from_days (days + 1) = next_day (civil_from_days days).
Proof.
  intros Hz. destruct (day_form _ Hz) as (era & y & doy & Hera & Hy & Hdoy & E).
  replace days with (146097 * era + year_start y + doy - 719468) by lia.
  rewrite civil_from_days_eq by done.
  destruct (year_bounds y Hy) as (_ & _ & _ & _ & Hlen).
  rewrite <- (is_leap_era (y + 1) era) in Hlen.
  replace (y + 1 + era * 400) with (y + era * 400 + 1) in Hlen by lia.
  destruct (decide (doy + 1 < year_end y - year_start y)) as [Hin|Hend].
  - rewrite date_succ by (destruct (is_leap _); lia).
    rewrite <- civil_from_days_eq by lia. f_equal. lia.
  - rewrite date_year_end by (destruct (is_leap _); lia).
    unfold year_end in Hend, Hlen, Hdoy. destruct (Z.eqb_spec y 399) as [->|Hne].
    + replace (399 + era * 400 + 1) with (0 + (era + 1) * 400) by lia.
      rewrite <- civil_from_days_eq by (try lia; change (year_start 0) with 0; done || lia).
      f_equal. change (year_start 0) with 0. lia.
    + replace (y + era * 400 + 1) with (y + 1 + era * 400) by lia.
      destruct (year_bounds (y + 1)) as (_ & _ & ? & _); [lia|].
      rewrite <- civil_from_days_eq by lia. f_equal. lia.
Qed.

Lemma civil_iter n : civil_from_days (Z.of_nat n) = Nat.iter n next_day (1970, 1, 1).
Proof.
  induction n as [|n IH]; [reflexivity|].
  replace (Z.of_nat (S n)) with (Z.of_nat n + 1) by lia.
  rewrite civil_succ by lia. by rewrite IH.
Qed.

(** C36: [civil_from_days] is the Gregorian calendar: from 0000-03-01, day
    -719468, on, the date of each day is reached by that many steps of the
    calendar's successor function, and day 0 is 1970-01-01. *)
Theorem civil_from_days_correct n :
  civil_from_days (Z.of_nat n - 719468) = Nat.iter n next_day (0, 3, 1) ∧
  civil_from_days 0 = (1970, 1, 1).
Proof.
  split; [|reflexivity]. induction n as [|n IH]; [reflexivity|].
  replace (Z.of_nat (S n) - 719468) with (Z.of_nat n - 719468 + 1) by lia.
  rewrite civil_succ by lia. by rewrite IH.
Qed.

(** ** Reading the clock *)

Definition from_bcd (b : Z) : Z := (b ≫ 4) * 10 + (b .& 15).

Lemma from_bcd_bcd v : 0 ≤ v < 100 → from_bcd (bcd v) = v.
Proof.
  intros Hv. apply Z.eqb_eq. apply (forallb_range (λ v, from_bcd (bcd v) =? v) 0 100); [|lia].
  vm_compute; reflexivity.
Qed.

(** Select a register, read it, undo the BCD. *)
Definition rtc_value (r : Z) (c : Cmos) : Z := from_bcd (read CMOS_DATA (write CMOS_INDEX r c)).

Lemma rtc_register r c :
  word 8 r → rtc_value r c = from_bcd (read_register r c).
Proof.
  intros Hr. unfold rtc_value.
  change (read CMOS_DATA (write CMOS_INDEX r c))
    with (read_register (wrap 8 r) (c <| index := wrap 8 r |>)).
  by rewrite wrap_small.
Qed.

Lemma date_range n :
  let '(y, m, d) := Nat.iter n next_day (1970, 1, 1) in 1970 ≤ y ∧ 1 ≤ m ≤ 12 ∧ 1 ≤ d ≤ 31.
Proof.
  induction n as [|n IH]; simpl; [lia|].
  destruct (Nat.iter n next_day _) as [[y m] d]. destruct IH as (Hy & Hm & Hd).
  assert (month_length (is_leap y) m ≤ 31) by (unfold month_length; repeat case_match; lia).
  unfold next_day. destruct (Z.ltb_spec d (month_length (is_leap y) m)); [lia|].
  destruct (Z.ltb_spec m 12); lia.
Qed.

(** the clock registers spell out the boot time. Up to the year 9999, the
    BCD registers read through ports 0x70/0x71 decode to the time of day, the
    calendar date and the weekday (1970-01-01 being a Thursday) of the
    boot-time second count. *)
Theorem rtc_spells_boot_time c :
  let days := boot_epoch_seconds c / 86400 in
  let '(y, m, d) := Nat.iter (Z.to_nat days) next_day (1970, 1, 1) in
  0 ≤ boot_epoch_seconds c → y < 10000 →
  rtc_value RTC_SECONDS c + 60 * rtc_value RTC_MINUTES c + 3600 * rtc_value RTC_HOURS c + 86400 * days
    = boot_epoch_seconds c ∧
  rtc_value RTC_DAY_OF_MONTH c = d ∧ rtc_value RTC_MONTH c = m ∧
  100 * rtc_value RTC_CENTURY c + rtc_value RTC_YEAR c = y ∧
  rtc_value RTC_DAY_OF_WEEK c = (days + 4) `mod` 7 + 1.
Proof.
  intros days. pose proof (date_range (Z.to_nat days)) as Hr.
  pose proof (civil_iter (Z.to_nat days)) as Hc.
  destruct (Nat.iter _ next_day _) as [[y m] d]. intros He Hy.
  assert (0 ≤ days) by (by apply Z.div_pos). rewrite Z2Nat.id in Hc by done.
  rewrite !rtc_register by (by apply word_const).
  unfold read_register. fold days. rewrite Hc. simpl.
  pose proof (Z.mod_pos_bound y 100 ltac:(lia)).
  assert (y `quot` 100 = y / 100) as -> by (apply Z.quot_div_nonneg; lia).
  assert (0 ≤ y / 100 < 100) by dlia.
  rewrite (wrap_small 64) by (unfold word; lia).
  pose proof (Z.mod_pos_bound (boot_epoch_seconds c) 60 ltac:(lia)).
  pose proof (Z.mod_pos_bound (boot_epoch_seconds c / 60) 60 ltac:(lia)).
  pose proof (Z.mod_pos_bound (boot_epoch_seconds c / 3600) 24 ltac:(lia)).
  pose proof (Z.mod_pos_bound (days + 4) 7 ltac:(lia)).
  rewrite !from_bcd_bcd by lia. unfold days. split_and!; dlia.
Qed.

Lemma rtc_spells_boot_time_witness :
  let c := new 951827696 in
  rtc_value RTC_DAY_OF_MONTH c = 29 ∧ rtc_value RTC_MONTH c = 2 ∧
  100 * rtc_value RTC_CENTURY c + rtc_value RTC_YEAR c = 2000.
Proof.
  assert (Nat.iter (Z.to_nat (951827696 / 86400)) next_day (1970, 1, 1) = (2000, 2, 29)) as E
    by (vm_compute; reflexivity).
  pose proof (rtc_spells_boot_time (new 951827696)) as H. cbv zeta in H.
  change (boot_epoch_seconds (new 951827696)) with 951827696 in H. rewrite E in H.
  destruct H as (_ & H1 & H2 & H3 & _); [lia|lia|]. split; [exact H1|]. split; [exact H2|exact H3].
Defined.
