(* ===== verification/Ports.v ===== *)
(** The port-I/O side of [rish-softvm-core/src/devices/mod.rs]: the
    [PortDevice] trait as a class with the chipset devices as instances, the
    [PortBus] that dispatches by range, the [InterruptLines] wiring, and the
    ACPI power-management block of [devices/acpi_pm.rs].

    [CpuError] is the error type of [rish-softvm-core/src/error.rs]. The
    theorems show that the bus serves a port from the first device attached
    over it, exactly the ports it reports as claimed, and that a device error
    reaches the caller. *)
From stdpp Require Import gmap strings.
From S2P Require Import Prelude.
From S2P Require Import Pic8259.
From S2P Require Import Pit8254.
From S2P Require Import Uart16550.
From S2P Require Import Cmos.
Local Open Scope Z_scope.

Inductive CpuError :=
  | InvalidConfig (message : string)
  | GuestFault (message : string)
  | PageFault (linear error_code : Z)
  | UnimplementedInstruction (code : string) (address : Z) (bytes : list Z)
  | TripleFault
  | Halted.
#[export] Instance CpuError_eq_dec : EqDecision CpuError.
Proof. solve_decision. Defined.

(** [trait PortDevice]: both methods mutate the device and may fail. *)
Class PortDevice (D : Type) := mkPortDevice {
  device_read : Z → Z → D → result CpuError Z * D;
  device_write : Z → Z → Z → D → result CpuError () * D
}.

#[export] Instance Pic8259_device : PortDevice Pic8259.Pic8259 := mkPortDevice _
  (λ port _ p, (Ok (Pic8259.read port p), p))
  (λ port _ v p, (Ok (), Pic8259.write port v p)).
#[export] Instance Pit8254_device : PortDevice Pit8254.Pit8254 := mkPortDevice _
  (λ port _ p, let '(v, p) := Pit8254.read port p in (Ok v, p))
  (λ port _ v p, (Ok (), Pit8254.write port v p)).
#[export] Instance Uart16550_device : PortDevice Uart16550.Uart16550 := mkPortDevice _
  (λ port _ u, let '(v, u) := Uart16550.read port u in (Ok v, u))
  (λ port _ v u, (Ok (), Uart16550.write port v u)).
#[export] Instance Cmos_device : PortDevice Cmos.Cmos := mkPortDevice _
  (λ port _ c, (Ok (Cmos.read port c), c))
  (λ port _ v c, (Ok (), Cmos.write port v c)).

(** [Box<dyn PortDevice>] *)
Record dyn := mkDyn {
  dyn_type : Type;
  dyn_ops : PortDevice dyn_type;
  dyn_state : dyn_type
}.
Definition dyn_read (port size : Z) (d : dyn) : result CpuError Z * dyn :=
  let '(r, s) := @device_read _ (dyn_ops d) port size (dyn_state d) in
  (r, mkDyn (dyn_type d) (dyn_ops d) s).
Definition dyn_write (port size value : Z) (d : dyn) : result CpuError () * dyn :=
  let '(r, s) := @device_write _ (dyn_ops d) port size value (dyn_state d) in
  (r, mkDyn (dyn_type d) (dyn_ops d) s).

(** [claimed] is the [BTreeMap<u16, bool>], used as a set. *)
Record PortBus := mkPortBus {
  devices : list (Z * Z * dyn);
  claimed : gset Z
}.
Definition PortBus_default : PortBus := mkPortBus [] ∅.

(** [base.saturating_add(size)] on [u16] *)
Definition range_end (base size : Z) : Z := saturating_add 16 base size.
Definition covers (port : Z) (d : Z * Z * dyn) : bool :=
  let '(base, size, _) := d in (port >=? base) && (port <? range_end base size).

Definition attach (base size : Z) (d : dyn) (bus : PortBus) : PortBus :=
  mkPortBus (devices bus ++ [(base, size, d)])
    (list_to_set (seqZ base (range_end base size - base)) ∪ claimed bus).

(** [find] hands out the first device whose range holds the port; [serve] runs
    an operation on it in place. *)
Fixpoint serve {A} (f : dyn → A * dyn) (port : Z) (ds : list (Z * Z * dyn))
    : option A * list (Z * Z * dyn) :=
  match ds with
  | [] => (None, [])
  | (base, size, d) :: ds =>
      if covers port (base, size, d) then
        let '(a, d) := f d in (Some a, (base, size, d) :: ds)
      else let '(r, ds) := serve f port ds in (r, (base, size, d) :: ds)
  end.

Definition read (port size : Z) (bus : PortBus) : result CpuError Z * PortBus :=
  let '(r, ds) := serve (dyn_read port size) port (devices bus) in
  (default (Ok (2 ^ 32 - 1)) r, mkPortBus ds (claimed bus)).

Definition write (port size value : Z) (bus : PortBus) : result CpuError () * PortBus :=
  let '(r, ds) := serve (dyn_write port size value) port (devices bus) in
  (default (Ok ()) r, mkPortBus ds (claimed bus)).

Definition is_claimed (port : Z) (bus : PortBus) : bool := bool_decide (port ∈ claimed bus).

(** ** Interrupt lines *)

Definition assert_line (line asserted : Z) : Z :=
  if line <? 16 then asserted .| bit line else asserted.
Definition deassert_line (line asserted : Z) : Z :=
  if line <? 16 then asserted .&~ bit line else asserted.
Definition is_asserted (line asserted : Z) : bool := (line <? 16) && has asserted (bit line).

(** ** ACPI power-management registers *)

Definition PM_BASE : Z := 0x600.
Definition PM1_STATUS : Z := PM_BASE.
Definition PM1_ENABLE : Z := PM_BASE + 2.
Definition PM1_CONTROL : Z := PM_BASE + 4.
Definition PM_TIMER : Z := PM_BASE + 8.
Definition PM_LAST : Z := PM_TIMER + 3.
Definition SCI_ENABLE : Z := bit 0.

Record AcpiPm := mkAcpiPm {
  status : Z;
  enable : Z;
  control : Z
}.
#[export] Instance AcpiPm_eta : Settable AcpiPm := λ a, mkAcpiPm (status a) (enable a) (control a).

Definition pm_new : AcpiPm := mkAcpiPm 0 0 SCI_ENABLE.
Definition pm_handles (port : Z) : bool := (PM_BASE <=? port) && (port <=? PM_LAST).

Definition pm_read (port tsc : Z) (a : AcpiPm) : Z :=
  if port =? PM1_STATUS then status a
  else if port =? PM1_ENABLE then enable a
  else if port =? PM1_CONTROL then control a
  else if port =? PM_TIMER then (tsc ≫ 2) .& 0x00FFFFFF
  else 0.

Definition pm_write (port value : Z) (a : AcpiPm) : AcpiPm :=
  if port =? PM1_STATUS then a <| status ::= λ s, s .&~ wrap 16 value |>
  else if port =? PM1_ENABLE then a <| enable := wrap 16 value |>
  else if port =? PM1_CONTROL then a <| control := wrap 16 value .| SCI_ENABLE |>
  else a.

(** ** The bus *)

(** Buses built by attaching devices and used in any way. *)
Inductive bus_step : PortBus → PortBus → Prop :=
  | bus_attach base size d bus : word 16 base → word 16 size → bus_step bus (attach base size d bus)
  | bus_read port size bus : bus_step bus (read port size bus).2
  | bus_write port size v bus : bus_step bus (write port size v bus).2.

Definition ranges (ds : list (Z * Z * dyn)) : list (Z * Z) := (λ d, d.1) <$> ds.

Lemma serve_ranges {A} (f : dyn → A * dyn) port ds : ranges (serve f port ds).2 = ranges ds.
Proof.
  unfold ranges. induction ds as [|[[b s] d] ds IH]; simpl; [done|].
  destruct (_ && _); simpl.
  - by destruct (f d).
  - destruct (serve f port ds); simpl in *. by f_equal.
Qed.

Lemma covers_ranges port ds :
  existsb (covers port) ds
    = existsb (λ r, (port >=? r.1) && (port <? range_end r.1 r.2)) (ranges ds).
Proof.
  unfold ranges. induction ds as [|[[b s] d] ds IH]; simpl; [done|]. by rewrite IH.
Qed.

Definition bus_ok (bus : PortBus) : Prop :=
  ∀ port, port ∈ claimed bus ↔ existsb (covers port) (devices bus) = true.

Lemma bus_step_ok bus bus' : bus_step bus bus' → bus_ok bus → bus_ok bus'.
Proof.
  intros [base size d b Hb Hs|port size b|port size v b] Hok p; simpl.
  - rewrite existsb_app, orb_true_iff. simpl. rewrite orb_false_r, <- (Hok p).
    rewrite elem_of_union, elem_of_list_to_set, elem_of_seqZ, andb_true_iff.
    unfold range_end, saturating_add, word in *. rewrite Z.geb_le, Z.ltb_lt.
    split; intros [H|H]; auto; [right|left]; lia.
  - unfold read. pose proof (serve_ranges (dyn_read port size) port (devices b)) as Hr.
    destruct (serve _ _ _) as [r ds]; simpl in *. rewrite covers_ranges, Hr, <- covers_ranges. apply Hok.
  - unfold write. pose proof (serve_ranges (dyn_write port size v) port (devices b)) as Hr.
    destruct (serve _ _ _) as [r ds]; simpl in *. rewrite covers_ranges, Hr, <- covers_ranges. apply Hok.
Qed.

Lemma serve_first {A} (f : dyn → A * dyn) port pre b s d post :
  existsb (covers port) pre = false → covers port (b, s, d) = true →
  serve f port (pre ++ (b, s, d) :: post) =
    (Some (f d).1, pre ++ (b, s, (f d).2) :: post).
Proof.
  intros Hpre Hc. induction pre as [|[[b' s'] d'] pre IH].
  - cbn [serve app]. rewrite Hc. by destruct (f d).
  - cbn [serve app existsb] in *. apply orb_false_iff in Hpre as [-> Hpre]. by rewrite (IH Hpre).
Qed.

Lemma serve_none {A} (f : dyn → A * dyn) port ds :
  existsb (covers port) ds = false → serve f port ds = (None, ds).
Proof.
  induction ds as [|[[b s] d] ds IH]; [done|]. cbn [serve existsb].
  intros [-> H]%orb_false_iff. by rewrite (IH H).
Qed.

Lemma first_cover port ds :
  existsb (covers port) ds = true →
  ∃ pre b s d post, ds = pre ++ (b, s, d) :: post ∧ existsb (covers port) pre = false ∧
    covers port (b, s, d) = true.
Proof.
  induction ds as [|[[b s] d] ds IH]; [done|]. cbn [existsb].
  destruct (covers port (b, s, d)) eqn:E.
  - intros _. exists [], b, s, d, ds. done.
  - intros H. destruct (IH H) as (pre & b' & s' & d' & post & -> & Hpre & Hc).
    exists ((b, s, d) :: pre), b', s', d', post. split_and!; [done| |done].
    cbn [existsb]. by rewrite E.
Qed.

(** on a bus built by attaching devices and used in any way, an unclaimed
    port reads as all ones and swallows writes without touching a device; a
    claimed port is served by the first attached device covering it, that
    device's answer or error is the bus's, and no other device changes. *)
Theorem bus_serves_claimed_ports bus port size v :
  rtc bus_step PortBus_default bus →
  if is_claimed port bus then
    ∃ pre b s d post, devices bus = pre ++ (b, s, d) :: post ∧
      existsb (covers port) pre = false ∧ covers port (b, s, d) = true ∧
      read port size bus =
        ((dyn_read port size d).1,
         mkPortBus (pre ++ (b, s, (dyn_read port size d).2) :: post) (claimed bus)) ∧
      write port size v bus =
        ((dyn_write port size v d).1,
         mkPortBus (pre ++ (b, s, (dyn_write port size v d).2) :: post) (claimed bus))
  else read port size bus = (Ok (2 ^ 32 - 1), bus) ∧ write port size v bus = (Ok (), bus).
Proof.
  intros Hr. assert (bus_ok bus) as Hok.
  { revert bus Hr. apply (rtc_ind_r bus_ok); [intros p; simpl; set_solver|].
    intros. by eapply bus_step_ok. }
  unfold is_claimed. case_bool_decide as Hin; [apply Hok in Hin|].
  - destruct (first_cover _ _ Hin) as (pre & b & s & d & post & E & Hpre & Hc).
    exists pre, b, s, d, post. unfold read, write. rewrite E, !serve_first by done. done.
  - assert (existsb (covers port) (devices bus) = false) as E.
    { apply not_true_iff_false. by rewrite <- (Hok port). }
    unfold read, write. rewrite !serve_none by done. by destruct bus.
Qed.

Lemma bus_serves_claimed_ports_witness :
  let bus := attach 0x70 2 (mkDyn _ Cmos_device (Cmos.new 0)) PortBus_default in
  read 0x80 1 bus = (Ok (2 ^ 32 - 1), bus) ∧ write 0x80 1 7 bus = (Ok (), bus).
Proof.
  apply (bus_serves_claimed_ports
    (attach 0x70 2 (mkDyn _ Cmos_device (Cmos.new 0)) PortBus_default) 0x80 1 7).
  eapply rtc_l; [|apply rtc_refl]. apply bus_attach; by apply word_const.
Defined.
