(* ===== verification/VirtQueue.v ===== *)
(** Split-virtqueue parsing, [rish-softvm-core/src/virtio/queue.rs], and the
    error type of [virtio/mod.rs].

    The trait [GuestMemory] is a class; [GuestMemoryLaws] says what it promises
    to a device: the RAM is a byte array and any access that leaves it is
    refused without effect. Everything about the queue is proved from these
    laws, for every memory. [SliceMemory] is the in-memory implementation.

    The theorems show that a chain walk returns exactly the finite, in-ring,
    in-RAM chains within the device limit (so cycles fail closed), that a
    drain serves exactly the entries published since the last one, in order,
    and that each completion appears in the used ring. *)
From stdpp Require Import strings.
From S2P Require Import Prelude.
Local Open Scope Z_scope.

Inductive VirtioError :=
  | OutOfBounds (address bytes : Z)
  | BadQueue (message : string)
  | Backend (message : string).
#[export] Instance VirtioError_eq_dec : EqDecision VirtioError.
Proof. solve_decision. Defined.

(** [trait GuestMemory]; [read] returns the bytes it would put in the output
    buffer. *)
Class GuestMemory (M : Type) := mkGuestMemory {
  ram_bytes : M → Z;
  mem_read : Z → Z → M → result VirtioError (list Z);
  mem_write : Z → list Z → M → result VirtioError M
}.

(** The contract: the guest's RAM as a list of bytes. *)
Class GuestMemoryLaws (M : Type) `{GuestMemory M} := {
  mem_ok : M → Prop;
  contents : M → list Z;
  mem_words m : mem_ok m → Forall (word 8) (contents m);
  mem_size m : mem_ok m → ram_bytes m = len (contents m) ∧ len (contents m) < 2 ^ 63;
  mem_read_in m a n : mem_ok m → 0 ≤ a → 0 ≤ n → a + n ≤ len (contents m) →
    mem_read a n m = Ok (slice (contents m) a n);
  mem_read_out m a n : mem_ok m → word 64 a → 0 ≤ n → len (contents m) < a + n →
    mem_read a n m = Err (OutOfBounds a n);
  mem_write_in m a bs : mem_ok m → 0 ≤ a → Forall (word 8) bs → a + len bs ≤ len (contents m) →
    ∃ m', mem_write a bs m = Ok m' ∧ mem_ok m' ∧ contents m' = splice (contents m) a bs;
  mem_write_out m a bs : mem_ok m → word 64 a → len (contents m) < a + len bs →
    mem_write a bs m = Err (OutOfBounds a (len bs))
}.

Section queue.
Context {M : Type} `{GuestMemory M}.

(** The trait's default method. *)
Definition check_range (address bytes : Z) (m : M) : result VirtioError () :=
  match checked_add 64 address bytes with
  | None => Err (OutOfBounds address bytes)
  | Some e => if e >? ram_bytes m then Err (OutOfBounds address bytes) else Ok ()
  end.

Definition MAX_CHAIN_DESCRIPTORS : Z := 64.

Record QueueLayout := mkQueueLayout {
  q_size : Z;
  q_desc : Z;
  q_avail : Z;
  q_used : Z
}.
#[export] Instance QueueLayout_eta : Settable QueueLayout := λ q,
  mkQueueLayout (q_size q) (q_desc q) (q_avail q) (q_used q).
Definition QueueLayout_default : QueueLayout := mkQueueLayout 0 0 0 0.

Definition ring_bytes (q : QueueLayout) : Z * Z * Z :=
  (q_size q * 16, 6 + q_size q * 2, 6 + q_size q * 8).

(** The [for] loop of [validate]. *)
Fixpoint validate_rings (rings : list (Z * Z)) (ram : Z) : result VirtioError () :=
  match rings with
  | [] => Ok ()
  | (base, bytes) :: rings =>
      match checked_add 64 base bytes with
      | None => Err (BadQueue "queue ring address arithmetic overflowed")
      | Some e => if e >? ram then Err (OutOfBounds base bytes) else validate_rings rings ram
      end
  end.

Definition validate (q : QueueLayout) (ram : Z) : result VirtioError () :=
  let '(desc_bytes, avail_bytes, used_bytes) := ring_bytes q in
  validate_rings [(q_desc q, desc_bytes); (q_avail q, avail_bytes); (q_used q, used_bytes)] ram.

Record Descriptor := mkDescriptor {
  d_address : Z;
  d_length : Z;
  d_flags : Z
}.

#[export] Instance Descriptor_default : Inhabited Descriptor := populate (mkDescriptor 0 0 0).

Definition DESC_FLAG_NEXT : Z := 1.
Definition DESC_FLAG_WRITE : Z := 2.
Definition has_next (d : Descriptor) : bool := has (d_flags d) DESC_FLAG_NEXT.
Definition device_writable (d : Descriptor) : bool := has (d_flags d) DESC_FLAG_WRITE.

Definition read_u16 (a : Z) (m : M) : result VirtioError Z :=
  let? bytes := mem_read a 2 m in Ok (from_le_bytes bytes).
Definition read_u32 (a : Z) (m : M) : result VirtioError Z :=
  let? bytes := mem_read a 4 m in Ok (from_le_bytes bytes).
Definition read_u64 (a : Z) (m : M) : result VirtioError Z :=
  let? bytes := mem_read a 8 m in Ok (from_le_bytes bytes).
Definition write_u16 (a value : Z) (m : M) : result VirtioError M :=
  mem_write a (to_le_bytes 2 value) m.
Definition write_u32 (a value : Z) (m : M) : result VirtioError M :=
  mem_write a (to_le_bytes 4 value) m.

Definition avail_index (q : QueueLayout) (m : M) : result VirtioError Z :=
  read_u16 (q_avail q + 2) m.

Definition avail_head (q : QueueLayout) (slot : Z) (m : M) : result VirtioError Z :=
  if q_size q =? 0 then Err (BadQueue "available ring has zero size")
  else
    let entry := q_avail q + 4 + (slot `mod` q_size q) * 2 in
    read_u16 entry m.

(** The [for] loop of [read_chain] over the remaining [room] of the buffer. *)
Fixpoint chain_loop (room : nat) (q : QueueLayout) (index : Z) (m : M)
    : result VirtioError (list Descriptor) :=
  match room with
  | O => Err (BadQueue "descriptor chain exceeds the device limit")
  | S room =>
      if index >=? q_size q then Err (BadQueue "descriptor chain index left the ring")
      else
        let offset := q_desc q + index * 16 in
        let? address := read_u64 offset m in
        let? length := read_u32 (offset + 8) m in
        let? flags := read_u16 (offset + 12) m in
        let entry := mkDescriptor address length flags in
        let? next := read_u16 (offset + 14) m in
        if has_next entry then
          let? rest := chain_loop room q next m in Ok (entry :: rest)
        else Ok [entry]
  end.

(** The filled prefix [chain[..count]] of a buffer of [limit] descriptors. *)
Definition read_chain (q : QueueLayout) (head : Z) (limit : nat) (m : M)
    : result VirtioError (list Descriptor) :=
  if q_size q =? 0 then Err (BadQueue "descriptor ring has zero size")
  else if (limit =? 0)%nat then Err (BadQueue "chain buffer is empty")
  else chain_loop limit q head m.

Definition avail_delta (last_seen avail size : Z) : result VirtioError () :=
  let pending := wrapping_sub 16 avail last_seen in
  if pending >? size then Err (BadQueue "available ring grew by more than the queue size")
  else Ok ().

Definition used_index (q : QueueLayout) (m : M) : result VirtioError Z :=
  read_u16 (q_used q + 2) m.

Definition write_used (q : QueueLayout) (used_index id length : Z) : st M VirtioError Z :=
  if q_size q =? 0 then sfail (BadQueue "used ring has zero size")
  else
    let slot := used_index `mod` q_size q in
    let offset := q_used q + 4 + slot * 8 in
    let! _ := supdate (write_u32 offset id) in
    let! _ := supdate (write_u32 (offset + 4) length) in
    let next := wrapping_add 16 used_index 1 in
    let! _ := supdate (write_u16 (q_used q + 2) next) in
    sret next.

Fixpoint check_chain_ranges (ds : list Descriptor) (m : M) : result VirtioError () :=
  match ds with
  | [] => Ok ()
  | d :: ds => let? _ := check_range (d_address d) (d_length d) m in check_chain_ranges ds m
  end.

(** [ValidatedChain] is the list of its descriptors. *)
Definition total_bytes (ds : list Descriptor) : Z := foldr (λ d n, d_length d + n) 0 ds.

Fixpoint require_all_device_readable (ds : list Descriptor) : result VirtioError () :=
  match ds with
  | [] => Ok ()
  | d :: ds =>
      if device_writable d
      then Err (BadQueue "descriptor is device-writable where the device reads")
      else require_all_device_readable ds
  end.

Fixpoint require_all_device_writable (ds : list Descriptor) : result VirtioError () :=
  match ds with
  | [] => Ok ()
  | d :: ds =>
      if negb (device_writable d)
      then Err (BadQueue "descriptor is not device-writable where the device writes")
      else require_all_device_writable ds
  end.

Definition validated_chain (q : QueueLayout) (head : Z) (limit : nat) (m : M)
    : result VirtioError (list Descriptor) :=
  let? ds := read_chain q head limit m in
  let? _ := check_chain_ranges ds m in
  Ok ds.

(** [drain_available] threads the memory and whatever state [P] the closure
    [process] captures; [last_seen] is the [&mut u16] parameter. *)
Context {P : Type}.

Definition on_mem {A} (c : st M VirtioError A) : st (M * P) VirtioError A := λ '(m, p),
  let '(r, m) := c m in (r, (m, p)).

Definition guest_read (a n : Z) : st (M * P) VirtioError (list Z) := on_mem (sread (mem_read a n)).
Definition guest_write (a : Z) (bs : list Z) : st (M * P) VirtioError () :=
  on_mem (supdate (λ m, mem_write a bs m)).

(** The body of the [while] loop for one available slot. *)
Definition serve_slot (q : QueueLayout) (process : Z → st (M * P) VirtioError Z) (slot : Z)
    : st (M * P) VirtioError Z :=
  let! head := on_mem (sread (avail_head q slot)) in
  let! length := process head in
  let! index := on_mem (sread (used_index q)) in
  on_mem (write_used q index head length).

(** The [while] loop, with a bound on its iterations. *)
Fixpoint drain_loop (fuel : nat) (q : QueueLayout) (avail : Z)
    (process : Z → st (M * P) VirtioError Z) (completed last_seen : Z) (s : M * P)
    : result VirtioError Z * Z * (M * P) :=
  match fuel with
  | O => (Ok completed, last_seen, s)
  | S fuel =>
      if last_seen =? avail then (Ok completed, last_seen, s)
      else
        match serve_slot q process last_seen s with
        | (Err e, s) => (Err e, last_seen, s)
        | (Ok _, s) =>
            drain_loop fuel q avail process (completed + 1) (wrapping_add 16 last_seen 1) s
        end
  end.

(** The result, the final [last_seen] and the final state. *)
Definition drain_available (q : QueueLayout) (last_seen : Z)
    (process : Z → st (M * P) VirtioError Z) (s : M * P)
    : result VirtioError Z * Z * (M * P) :=
  let check :=
    let? _ := validate q (ram_bytes s.1) in
    let? avail := avail_index q s.1 in
    let? _ := avail_delta last_seen avail (q_size q) in
    Ok avail in
  match check with
  | Err e => (Err e, last_seen, s)
  | Ok avail =>
      drain_loop (Z.to_nat (wrapping_sub 16 avail last_seen)) q avail process 0 last_seen s
  end.

Lemma keeps_on_mem {A} J (f : M → result VirtioError A) : keeps J (on_mem (sread f)).
Proof. by intros [m p]. Qed.
Lemma keeps_guest_read J a n : keeps J (guest_read a n).
Proof. apply keeps_on_mem. Qed.

(** ** Every change of memory is a store *)

(** One successful store, and the memories reached by stores from [m0]: what a
    device does to memory whatever its state. *)
Definition stored (m m' : M) : Prop := ∃ a bs, mem_write a bs m = Ok m'.
Definition stores_from (m0 : M) (s : M * P) : Prop := rtc stored m0 s.1.

Lemma supdate_stores m0 a bs : keeps (rtc stored m0) (supdate (λ m, mem_write a bs m)).
Proof.
  intros m Hm. unfold supdate. destruct (mem_write a bs m) eqn:E; [|done].
  eapply rtc_r; [done|]. by exists a, bs.
Qed.
Lemma guest_write_stores m0 a bs : keeps (stores_from m0) (guest_write a bs).
Proof.
  intros [m p] Hm. unfold guest_write, on_mem, stores_from.
  pose proof (supdate_stores m0 a bs m Hm). by destruct (supdate _ m).
Qed.

Lemma write_used_stores m0 q i id length : keeps (stores_from m0) (on_mem (write_used q i id length)).
Proof.
  intros [m p] Hm. unfold on_mem, stores_from in *. simpl in *.
  assert (keeps (rtc stored m0) (write_used q i id length)) as Hk.
  { unfold write_used. case_match; [auto with keeps|].
    repeat (apply keeps_bind; [apply supdate_stores|intros]). auto with keeps. }
  specialize (Hk m Hm). by destruct (write_used q i id length m).
Qed.

Hint Resolve keeps_on_mem keeps_guest_read guest_write_stores write_used_stores : keeps.

Lemma drain_loop_stores m0 fuel q avail process completed last_seen s :
  (∀ head, keeps (stores_from m0) (process head)) → stores_from m0 s →
  stores_from m0 (drain_loop fuel q avail process completed last_seen s).2.
Proof.
  intros Hp. revert completed last_seen s.
  induction fuel as [|fuel IH]; intros completed last_seen s Hs; [done|]. cbn [drain_loop].
  case_match; [done|].
  assert (keeps (stores_from m0) (serve_slot q process last_seen)) as Hk
    by (unfold serve_slot; keep).
  specialize (Hk s Hs). destruct (serve_slot q process last_seen s) as [[] s']; [by apply IH|done].
Qed.

Lemma drain_available_stores m0 q last_seen process s :
  (∀ head, keeps (stores_from m0) (process head)) → stores_from m0 s →
  stores_from m0 (drain_available q last_seen process s).2.
Proof.
  intros Hp Hs. unfold drain_available. destruct (rbind _ _); [by apply drain_loop_stores|done].
Qed.

End queue.
#[export] Hint Resolve keeps_on_mem keeps_guest_read guest_write_stores write_used_stores : keeps.

(** ** The in-memory implementation *)

Definition SliceMemory : Type := list Z.

Definition slice_read (a n : Z) (m : SliceMemory) : result VirtioError (list Z) :=
  match checked_add 64 a n with
  | None => Err (OutOfBounds a n)
  | Some e => if e >? len m then Err (OutOfBounds a n) else Ok (slice m a n)
  end.

Definition slice_write (a : Z) (bs : list Z) (m : SliceMemory) : result VirtioError SliceMemory :=
  match checked_add 64 a (len bs) with
  | None => Err (OutOfBounds a (len bs))
  | Some e => if e >? len m then Err (OutOfBounds a (len bs)) else Ok (splice m a bs)
  end.

#[export] Instance SliceMemory_memory : GuestMemory SliceMemory :=
  mkGuestMemory _ len slice_read slice_write.

#[export] Program Instance SliceMemory_laws : GuestMemoryLaws SliceMemory := {|
  mem_ok m := Forall (word 8) m ∧ len m < 2 ^ 63;
  contents m := m
|}.
Next Obligation. by intros m []. Qed.
Next Obligation. by intros m []. Qed.
Next Obligation.
  intros m a n [] ? ? ?; simpl. unfold slice_read, checked_add.
  rewrite (proj2 (Z.ltb_lt _ _)) by lia. by rewrite Z.gtb_ltb, (proj2 (Z.ltb_ge _ _)) by lia.
Qed.
Next Obligation.
  intros m a n [] Ha ? ?; simpl. unfold slice_read, checked_add. case_match; [|done].
  case_match; simplify_eq. by rewrite Z.gtb_ltb, (proj2 (Z.ltb_lt _ _)) by lia.
Qed.
Next Obligation.
  intros m a bs [] ? ? ?; simpl. unfold slice_write, checked_add.
  rewrite (proj2 (Z.ltb_lt _ _)) by lia. rewrite Z.gtb_ltb, (proj2 (Z.ltb_ge _ _)) by lia.
  eexists. split; [done|]. rewrite len_splice. auto with words.
Qed.
Next Obligation.
  intros m a bs [] Ha ?; simpl. unfold slice_write, checked_add. case_match; [|done].
  case_match; simplify_eq. by rewrite Z.gtb_ltb, (proj2 (Z.ltb_lt _ _)) by lia.
Qed.

(** ** Reading the rings *)

Section laws.
Context {M : Type} `{GuestMemoryLaws M}.

Record layout_ok (q : QueueLayout) : Prop := mk_layout_ok {
  ok_size : word 16 (q_size q);
  ok_desc : word 64 (q_desc q);
  ok_avail : word 64 (q_avail q);
  ok_used : word 64 (q_used q)
}.

(** All three rings lie inside the RAM. *)
Record rings_in (q : QueueLayout) (m : M) : Prop := mk_rings_in {
  in_desc : q_desc q + q_size q * 16 ≤ len (contents m);
  in_avail : q_avail q + (6 + q_size q * 2) ≤ len (contents m);
  in_used : q_used q + (6 + q_size q * 8) ≤ len (contents m)
}.

Lemma checked_add_gtb a n ram {A} (e1 e2 : VirtioError) (k : result VirtioError A) :
  ram < 2 ^ 64 →
  (match checked_add 64 a n with
   | None => Err e1
   | Some e => if e >? ram then Err e2 else k
   end) = if a + n <=? ram then k else Err (if a + n <? 2 ^ 64 then e2 else e1).
Proof.
  intros Hram. unfold checked_add. destruct (Z.leb_spec (a + n) ram).
  - rewrite (proj2 (Z.ltb_lt _ _)) by lia. by rewrite Z.gtb_ltb, (proj2 (Z.ltb_ge _ _)) by lia.
  - destruct (a + n <? 2 ^ 64); [|done]. by rewrite Z.gtb_ltb, (proj2 (Z.ltb_lt _ _)) by lia.
Qed.

Lemma validate_iff q m :
  mem_ok m → validate q (ram_bytes m) = Ok () ↔ rings_in q m.
Proof.
  intros Hm. destruct (mem_size m Hm) as [-> Hlt]. unfold validate, ring_bytes, validate_rings.
  rewrite !checked_add_gtb by lia.
  destruct (Z.leb_spec (q_desc q + q_size q * 16) (len (contents m)));
    [|split; [done|intros []; lia]].
  destruct (Z.leb_spec (q_avail q + (6 + q_size q * 2)) (len (contents m)));
    [|split; [done|intros []; lia]].
  destruct (Z.leb_spec (q_used q + (6 + q_size q * 8)) (len (contents m)));
    [|split; [done|intros []; lia]].
  split; [by split|done].
Qed.

(** The little-endian field of [n] bytes at [a]. *)
Definition field (n a : Z) (m : M) : Z := from_le_bytes (slice (contents m) a n).

Lemma field_word n a m :
  mem_ok m → 0 ≤ a → 0 ≤ n → a + n ≤ len (contents m) → word (8 * n) (field n a m).
Proof.
  intros Hm Ha Hn Hle. unfold field.
  pose proof (from_le_bytes_word (slice (contents m) a n)) as Hw.
  rewrite len_slice in Hw by lia. apply Hw. by apply Forall_slice, mem_words.
Qed.

Lemma read_u16_in a m :
  mem_ok m → 0 ≤ a → a + 2 ≤ len (contents m) → read_u16 a m = Ok (field 2 a m).
Proof. intros. unfold read_u16. by rewrite mem_read_in by (done || lia). Qed.
Lemma read_u32_in a m :
  mem_ok m → 0 ≤ a → a + 4 ≤ len (contents m) → read_u32 a m = Ok (field 4 a m).
Proof. intros. unfold read_u32. by rewrite mem_read_in by (done || lia). Qed.
Lemma read_u64_in a m :
  mem_ok m → 0 ≤ a → a + 8 ≤ len (contents m) → read_u64 a m = Ok (field 8 a m).
Proof. intros. unfold read_u64. by rewrite mem_read_in by (done || lia). Qed.

(** ** Descriptor chains *)

Definition descriptor_at (q : QueueLayout) (i : Z) (m : M) : Descriptor :=
  let offset := q_desc q + i * 16 in
  mkDescriptor (field 8 offset m) (field 4 (offset + 8) m) (field 2 (offset + 12) m).
Definition next_at (q : QueueLayout) (i : Z) (m : M) : Z := field 2 (q_desc q + i * 16 + 14) m.

(** The chains the guest has laid out in the descriptor ring: finite, each
    index inside the ring, continued exactly by the NEXT flag. *)
Inductive chain (q : QueueLayout) (m : M) : Z → list Descriptor → Prop :=
  | chain_last i : 0 ≤ i < q_size q → has_next (descriptor_at q i m) = false →
      chain q m i [descriptor_at q i m]
  | chain_next i ds : 0 ≤ i < q_size q → has_next (descriptor_at q i m) = true →
      chain q m (next_at q i m) ds → chain q m i (descriptor_at q i m :: ds).

Lemma chain_loop_step room q i m :
  mem_ok m → layout_ok q → rings_in q m → 0 ≤ i < q_size q →
  chain_loop (S room) q i m =
    if has_next (descriptor_at q i m) then
      let? rest := chain_loop room q (next_at q i m) m in Ok (descriptor_at q i m :: rest)
    else Ok [descriptor_at q i m].
Proof.
  intros Hm [_ Hd _ _] [Hin _ _] Hi. cbn [chain_loop]. unfold word in Hd.
  rewrite Z.geb_leb, (proj2 (Z.leb_gt _ _)) by lia.
  by rewrite read_u64_in, read_u32_in, !read_u16_in by (done || lia).
Qed.

Lemma next_at_nonneg q i m :
  mem_ok m → layout_ok q → rings_in q m → 0 ≤ i < q_size q → 0 ≤ next_at q i m.
Proof.
  intros Hm [_ Hd _ _] [Hin _ _] Hi. unfold word in Hd. unfold next_at.
  eapply word_nonneg, field_word; (done || lia).
Qed.

Lemma chain_loop_iff room q i m ds :
  mem_ok m → layout_ok q → rings_in q m → 0 ≤ i →
  chain_loop room q i m = Ok ds ↔ chain q m i ds ∧ (length ds ≤ room)%nat.
Proof.
  intros Hm Hq Hin. revert i ds. induction room as [|room IH]; intros i ds Hi.
  { split; [done|]. intros [Hc Hl]. inversion Hc; subst; simpl in Hl; lia. }
  destruct (decide (i < q_size q)) as [Hlt|Hge].
  - rewrite chain_loop_step by (done || lia).
    pose proof (next_at_nonneg q i m Hm Hq Hin ltac:(lia)).
    destruct (has_next (descriptor_at q i m)) eqn:Hn.
    + rewrite rbind_ok. setoid_rewrite IH; [|done]. split.
      * intros (rest & [Hc Hl] & [= <-]). split; [by constructor|simpl; lia].
      * intros [Hc Hl]. inversion Hc as [|? rest ? ? Hc']; subst; [congruence|].
        exists rest. split; [split; [done|simpl in Hl; lia]|done].
    + split.
      * intros [= <-]. split; [by constructor|simpl; lia].
      * intros [Hc Hl]. inversion Hc; subst; [done|congruence].
  - split.
    + cbn [chain_loop]. by rewrite Z.geb_leb, (proj2 (Z.leb_le _ _)) by lia.
    + intros [Hc _]. inversion Hc; subst; lia.
Qed.

Lemma read_chain_iff q head limit m ds :
  mem_ok m → layout_ok q → rings_in q m → 0 ≤ head →
  read_chain q head limit m = Ok ds ↔ chain q m head ds ∧ (length ds ≤ limit)%nat.
Proof.
  intros Hm Hq Hin Hh. unfold read_chain.
  destruct (Z.eqb_spec (q_size q) 0) as [E|].
  { split; [done|]. intros [Hc _]. inversion Hc; subst; lia. }
  destruct (Nat.eqb_spec limit 0) as [->|]; [|by apply chain_loop_iff].
  split; [done|]. intros [Hc Hl]. inversion Hc; subst; simpl in Hl; lia.
Qed.

Definition in_ram (m : M) (d : Descriptor) : Prop :=
  d_address d + d_length d ≤ len (contents m).

Lemma check_range_iff a n m :
  mem_ok m → check_range a n m = Ok () ↔ a + n ≤ len (contents m).
Proof.
  intros Hm. destruct (mem_size m Hm) as [Hr Hlt]. unfold check_range.
  rewrite checked_add_gtb by lia. rewrite Hr.
  destruct (Z.leb_spec (a + n) (len (contents m))); split; (done || lia).
Qed.

Lemma check_chain_ranges_iff ds m :
  mem_ok m → check_chain_ranges ds m = Ok () ↔ Forall (in_ram m) ds.
Proof.
  intros Hm. induction ds as [|d ds IH]; simpl; [done|].
  rewrite rbind_ok, Forall_cons, <- IH. unfold in_ram. rewrite <- check_range_iff by done.
  split; [by intros ([] & ? & ?)|]. intros []. by exists ().
Qed.

Lemma validated_chain_iff q head limit m ds :
  mem_ok m → layout_ok q → rings_in q m → 0 ≤ head →
  validated_chain q head limit m = Ok ds ↔
    chain q m head ds ∧ (length ds ≤ limit)%nat ∧ Forall (in_ram m) ds.
Proof.
  intros Hm Hq Hv Hh. unfold validated_chain.
  rewrite rbind_ok. setoid_rewrite rbind_ok. setoid_rewrite read_chain_iff; [|done..].
  split.
  - intros (ds' & [Hc Hl] & [] & Hr & [= <-]). apply check_chain_ranges_iff in Hr; [|done]. done.
  - intros (Hc & Hl & Hr). exists ds. split; [done|]. exists (). split; [|done].
    by apply check_chain_ranges_iff.
Qed.

(** Descriptors are decoded at their widths. *)
Lemma chain_words q m i ds :
  mem_ok m → layout_ok q → rings_in q m → chain q m i ds →
  Forall (λ d, word 64 (d_address d) ∧ word 32 (d_length d)) ds.
Proof.
  intros Hm [_ Hd _ _] [Hin _ _] Hc. unfold word in Hd.
  assert (∀ i, 0 ≤ i < q_size q → word 64 (d_address (descriptor_at q i m)) ∧
    word 32 (d_length (descriptor_at q i m))) as Hw.
  { intros j Hj. split; [apply (field_word 8)|apply (field_word 4)]; (done || lia). }
  induction Hc; constructor; auto.
Qed.

(** C19: phase-one validation is exact. Over rings the device has validated,
    [validated_chain] succeeds with [ds] precisely when [ds] is the chain the
    guest laid out from [head], all its indices in the ring, no longer than the
    device's limit, and every buffer lies in guest RAM, where the accesses the
    device goes on to make to it succeed. In particular a cyclic, over-long or
    escaping chain always fails. *)
Theorem validated_chain_exact q head limit m ds :
  mem_ok m → layout_ok q → validate q (ram_bytes m) = Ok () → 0 ≤ head →
  (validated_chain q head limit m = Ok ds ↔
    chain q m head ds ∧ (length ds ≤ limit)%nat ∧ Forall (in_ram m) ds) ∧
  (validated_chain q head limit m = Ok ds →
    Forall (λ d, mem_read (d_address d) (d_length d) m
      = Ok (slice (contents m) (d_address d) (d_length d))) ds).
Proof.
  intros Hm Hq Hv%validate_iff Hh; [|done]. rewrite validated_chain_iff by done.
  split; [done|]. intros (Hc & _ & Hr). apply chain_words in Hc; [|done..].
  eapply Forall_impl; [exact (proj2 (Forall_and _ _) (conj Hc Hr))|].
  intros ds' [[Ha Hl] Hd]. apply mem_read_in; [done|by eapply word_nonneg..|done].
Qed.

(** ** Draining *)

Context {P : Type}.
Implicit Types (process : Z → st (M * P) VirtioError Z) (s : M * P).

(** The slots published between two ring positions. *)
Definition slots (last_seen pending : Z) : list Z :=
  (λ i, wrapping_add 16 last_seen i) <$> seqZ 0 pending.

(** Serve a list of slots in order, stopping at the first error. *)
Fixpoint serve_all (q : QueueLayout) process (sl : list Z) (completed last_seen : Z) s
    : result VirtioError Z * Z * (M * P) :=
  match sl with
  | [] => (Ok completed, last_seen, s)
  | slot :: sl =>
      match serve_slot q process slot s with
      | (Err e, s) => (Err e, last_seen, s)
      | (Ok _, s) => serve_all q process sl (completed + 1) (wrapping_add 16 slot 1) s
      end
  end.

Lemma wrapping_add_assoc a i j :
  wrapping_add 16 (wrapping_add 16 a i) j = wrapping_add 16 a (i + j).
Proof. unfold wrapping_add, wrap. rewrite Z.add_mod_idemp_l by done. f_equal. lia. Qed.

Lemma wrapping_add_0 a : word 16 a → wrapping_add 16 a 0 = a.
Proof. intros. unfold wrapping_add. rewrite Z.add_0_r. by apply wrap_small. Qed.

Lemma slots_cons last_seen n :
  word 16 last_seen → 0 < n →
  slots last_seen n = last_seen :: slots (wrapping_add 16 last_seen 1) (n - 1).
Proof.
  intros Hl Hn. unfold slots. rewrite seqZ_cons by done. simpl.
  rewrite wrapping_add_0 by done. f_equal.
  replace (Z.pred n) with (n - 1) by lia.
  rewrite <- (fmap_add_seqZ 1 0).
  rewrite <- list_fmap_compose. apply list_fmap_ext. intros _ i _. simpl.
  rewrite wrapping_add_assoc. f_equal.
Qed.

Lemma pending_succ avail last_seen :
  word 16 avail → word 16 last_seen → last_seen ≠ avail →
  wrapping_sub 16 avail last_seen =
    1 + wrapping_sub 16 avail (wrapping_add 16 last_seen 1).
Proof.
  intros Ha Hl Hne. unfold wrapping_sub, wrapping_add, wrap, word in *.
  rewrite Zminus_mod_idemp_r. change (2 ^ 16) with 65536 in *. dlia.
Qed.

Lemma pending_0 avail last_seen :
  word 16 avail → word 16 last_seen → wrapping_sub 16 avail last_seen = 0 → last_seen = avail.
Proof. intros. unfold wrapping_sub, wrap, word in *. change (2 ^ 16) with 65536 in *. dlia. Qed.

Lemma drain_loop_serves fuel q avail process completed last_seen s :
  word 16 avail → word 16 last_seen →
  Z.of_nat fuel = wrapping_sub 16 avail last_seen →
  drain_loop fuel q avail process completed last_seen s =
    serve_all q process (slots last_seen (Z.of_nat fuel)) completed last_seen s.
Proof.
  intros Ha. revert completed last_seen s.
  induction fuel as [|fuel IH]; intros completed last_seen s Hl Hf; [done|].
  destruct (decide (last_seen = avail)) as [->|Hne].
  { unfold wrapping_sub, wrap in Hf. rewrite Z.sub_diag in Hf. change (0 `mod` 2 ^ 16) with 0 in Hf. lia. }
  rewrite slots_cons by (done || lia). cbn [drain_loop serve_all].
  rewrite (proj2 (Z.eqb_neq _ _)) by done.
  destruct (serve_slot q process last_seen s) as [[r|e] s']; [|done].
  replace (Z.of_nat (S fuel) - 1) with (Z.of_nat fuel) by lia.
  apply IH; [by apply word_wrap|].
  rewrite (pending_succ avail last_seen) in Hf by done. lia.
Qed.

Lemma serve_all_count q process sl completed last_seen s n :
  (serve_all q process sl completed last_seen s).1.1 = Ok n →
  n = completed + len sl.
Proof.
  revert completed last_seen s. induction sl as [|slot sl IH]; intros completed last_seen s; simpl.
  - intros [= <-]. rewrite len_nil. lia.
  - destruct (serve_slot q process slot s) as [[r|e] s']; [|done].
    intros E%IH. rewrite len_cons. lia.
Qed.

Lemma serve_all_last q process n k completed last_seen s :
  word 16 last_seen → 0 ≤ n →
  (serve_all q process (slots last_seen n) completed last_seen s).1.1 = Ok k →
  (serve_all q process (slots last_seen n) completed last_seen s).1.2
    = wrapping_add 16 last_seen n.
Proof.
  intros Hl Hn. revert completed last_seen s Hl.
  pattern n. apply natlike_ind; [| |done]; clear n Hn.
  - intros completed last_seen s Hl _. simpl. by rewrite wrapping_add_0.
  - intros n Hn IH completed last_seen s Hl. rewrite slots_cons by (done || lia).
    replace (Z.succ n - 1) with n by lia. cbn [serve_all].
    destruct (serve_slot q process last_seen s) as [[r|e] s']; [|done].
    intros E. rewrite IH; [|by apply word_wrap|done]. rewrite wrapping_add_assoc. f_equal. lia.
Qed.

Lemma len_slots last_seen n : 0 ≤ n → len (slots last_seen n) = n.
Proof. intros. unfold slots, len. rewrite length_fmap, length_seqZ. lia. Qed.

Lemma avail_index_in q m :
  mem_ok m → layout_ok q → rings_in q m →
  avail_index q m = Ok (field 2 (q_avail q + 2) m) ∧ word 16 (field 2 (q_avail q + 2) m).
Proof.
  intros Hm [Hs _ Ha _] [_ Hin _]. unfold word in Ha, Hs. unfold avail_index.
  rewrite read_u16_in by (done || lia). split; [done|]. by apply field_word; (done || lia).
Qed.

(** C15: a drain serves each published entry once. Over rings inside the RAM,
    let [pending] be the 16-bit distance from the position last seen to the
    driver's index. If it exceeds the ring size the drain is refused with
    nothing touched. Otherwise the loop terminates having run the request
    processor once per published slot, in ring order, and if it succeeds it
    reports exactly [pending] completions and has caught up with the driver. *)
Theorem drain_serves_each_entry_once q last_seen process s :
  mem_ok s.1 → layout_ok q → rings_in q s.1 → word 16 last_seen →
  let avail := field 2 (q_avail q + 2) s.1 in
  let pending := wrapping_sub 16 avail last_seen in
  let '(r, last_seen', s') := drain_available q last_seen process s in
  if pending <=? q_size q then
    (r, last_seen', s') = serve_all q process (slots last_seen pending) 0 last_seen s ∧
    ∀ n, r = Ok n → n = pending ∧ last_seen' = avail
  else is_ok r = false ∧ last_seen' = last_seen ∧ s' = s.
Proof.
  intros Hm Hq Hin Hl avail pending. unfold drain_available.
  destruct (avail_index_in q s.1 Hm Hq Hin) as [-> Ha]. fold avail in Ha |- *.
  rewrite (proj2 (validate_iff q s.1 Hm)) by done. cbn [rbind].
  unfold avail_delta. fold pending. rewrite Z.gtb_ltb, Z.ltb_antisym.
  destruct (pending <=? q_size q) eqn:Hp; cbn [negb rbind is_ok]; [|done].
  assert (0 ≤ pending) as Hp0 by (by apply Z.mod_pos_bound).
  rewrite drain_loop_serves by (done || lia). rewrite Z2Nat.id by done. fold pending.
  destruct (serve_all _ _ _ _ _ _) as [[r last'] s'] eqn:E. split; [done|].
  intros n ->. pose proof (serve_all_count q process (slots last_seen pending) 0 last_seen s n) as Hc.
  pose proof (serve_all_last q process pending n 0 last_seen s Hl Hp0) as Hlast.
  rewrite E in Hc, Hlast; simpl in Hc, Hlast. rewrite Hc, len_slots by done.
  split; [done|]. rewrite Hlast by done. unfold pending, wrapping_add, wrapping_sub, wrap.
  rewrite Z.add_mod_idemp_r by done. replace (last_seen + (avail - last_seen)) with avail by lia.
  by apply Z.mod_small.
Qed.

(** ** Completions *)

Lemma supdate_write a bs (m : M) :
  mem_ok m → 0 ≤ a → Forall (word 8) bs → a + len bs ≤ len (contents m) →
  ∃ m', supdate (λ m, mem_write a bs m) m = (Ok (), m') ∧ mem_ok m' ∧
    contents m' = splice (contents m) a bs.
Proof.
  intros Hm Ha Hbs Hle. destruct (mem_write_in m a bs) as (m' & E & Hm' & Hc); try done.
  exists m'. unfold supdate. by rewrite E.
Qed.

(** a completion is visible to the driver. [write_used] over a ring in
    RAM succeeds: the slot of the given index then holds the chain's id and
    length, the ring's index reads one more (modulo 2^16), and no other byte
    of memory has changed. *)
Theorem write_used_publishes q index id length m :
  mem_ok m → layout_ok q → rings_in q m → 0 < q_size q →
  word 16 index → word 32 id → word 32 length →
  let entry := q_used q + 4 + index `mod` q_size q * 8 in
  ∃ m', write_used q index id length m = (Ok (wrapping_add 16 index 1), m') ∧
    mem_ok m' ∧
    field 4 entry m' = id ∧ field 4 (entry + 4) m' = length ∧
    used_index q m' = Ok (wrapping_add 16 index 1) ∧
    ∀ a n, 0 ≤ a → 0 ≤ n →
      a + n ≤ entry ∨ entry + 8 ≤ a → a + n ≤ q_used q + 2 ∨ q_used q + 4 ≤ a →
      slice (contents m') a n = slice (contents m) a n.
Proof.
  intros Hm [Hs _ _ Hu] [_ _ Hin] Hpos Hi Hid Hlen entry. unfold word in Hu, Hs.
  pose proof (Z.mod_pos_bound index (q_size q) Hpos).
  unfold write_used. rewrite (proj2 (Z.eqb_neq _ _)) by lia. fold entry.
  set (next := wrapping_add 16 index 1). assert (word 16 next) by (by apply word_wrap).
  unfold write_u32, write_u16, sbind, sret.
  destruct (supdate_write entry (to_le_bytes 4 id) m) as (m1 & -> & Hm1 & E1);
    [done|lia|by apply to_le_bytes_words|rewrite len_to_le_bytes; lia|].
  destruct (supdate_write (entry + 4) (to_le_bytes 4 length) m1) as (m2 & -> & Hm2 & E2);
    [done|lia|by apply to_le_bytes_words|rewrite E1, len_splice, len_to_le_bytes; lia|].
  destruct (supdate_write (q_used q + 2) (to_le_bytes 2 next) m2) as (m3 & -> & Hm3 & E3);
    [done|lia|by apply to_le_bytes_words|rewrite E2, E1, !len_splice, len_to_le_bytes; lia|].
  exists m3. split; [done|]. split; [done|].
  assert (∀ a n, 0 ≤ a → a + n ≤ q_used q + 2 ∨ q_used q + 4 ≤ a →
    slice (contents m3) a n = slice (contents m2) a n) as F3.
  { intros. rewrite E3. apply slice_splice_disjoint; autorewrite with len; rewrite ?E2, ?E1, ?len_splice; lia. }
  assert (∀ a n, 0 ≤ a → a + n ≤ entry + 4 ∨ entry + 8 ≤ a →
    slice (contents m2) a n = slice (contents m1) a n) as F2.
  { intros. rewrite E2. apply slice_splice_disjoint; autorewrite with len; rewrite ?E1, ?len_splice; lia. }
  assert (∀ a n, 0 ≤ a → a + n ≤ entry ∨ entry + 4 ≤ a →
    slice (contents m1) a n = slice (contents m) a n) as F1.
  { intros. rewrite E1. apply slice_splice_disjoint; autorewrite with len; lia. }
  assert (len (contents m3) = len (contents m)) as Hlen3 by (by rewrite E3, E2, E1, !len_splice).
  unfold field. split_and!.
  - rewrite F3, F2, E1 by lia. apply from_le_bytes_splice; (done || lia).
  - rewrite F3, E2 by lia. apply from_le_bytes_splice; rewrite ?E1, ?len_splice; (done || lia).
  - unfold used_index. rewrite read_u16_in by (done || lia). f_equal. unfold field. rewrite E3.
    apply from_le_bytes_splice; rewrite ?E2, ?E1, ?len_splice; (done || lia).
  - intros a n Ha Hn Ho1 Ho2. by rewrite F3, F2, F1 by lia.
Qed.

(** ** Buffers *)

Lemma rings_in_len q m m' : len (contents m') = len (contents m) → rings_in q m → rings_in q m'.
Proof. intros E []. split; by rewrite E. Qed.

(** A buffer with word-sized fields, inside a RAM of [n] bytes. *)
Record buffer_ok (n : Z) (ds : Descriptor) : Prop := mk_buffer_ok {
  bo_address : 0 ≤ d_address ds;
  bo_length : word 32 (d_length ds);
  bo_end : d_address ds + d_length ds ≤ n
}.

Lemma total_bytes_nonneg n data : Forall (buffer_ok n) data → 0 ≤ total_bytes data.
Proof. unfold total_bytes. induction 1 as [|ds data []]; unfold word in *; simpl; lia. Qed.

(** The buffers' bytes, in order. *)
Definition gather (ram : list Z) (data : list Descriptor) : list Z :=
  data ≫= λ ds, slice ram (d_address ds) (d_length ds).

Lemma len_gather ram data : Forall (buffer_ok (len ram)) data → len (gather ram data) = total_bytes data.
Proof.
  unfold gather, total_bytes. induction 1 as [|ds data [] _ IH]; [done|].
  unfold word in *. rewrite bind_cons, len_app, IH, len_slice by lia. done.
Qed.

(** A validated chain seen from the device. *)
Lemma chain_buffers q m head ds :
  mem_ok m → layout_ok q → rings_in q m → chain q m head ds → Forall (in_ram m) ds →
  Forall (buffer_ok (len (contents m))) ds.
Proof.
  intros Hm Hq Hin Hc Hr. apply chain_words in Hc; [|done..].
  eapply Forall_impl; [exact (proj2 (Forall_and _ _) (conj Hc Hr))|].
  intros ds' [[Ha Hl] Hd]. split; [by eapply word_nonneg|done|done].
Qed.

Lemma guest_write_in a bs m (p : P) :
  mem_ok m → 0 ≤ a → Forall (word 8) bs → a + len bs ≤ len (contents m) →
  ∃ m', guest_write a bs (m, p) = (Ok (), (m', p)) ∧ mem_ok m' ∧
    contents m' = splice (contents m) a bs.
Proof.
  intros Hm Ha Hbs Hle. destruct (supdate_write a bs m) as (m' & E & ?); try done.
  exists m'. unfold guest_write, on_mem. by rewrite E.
Qed.

Lemma guest_read_in a n m (p : P) :
  mem_ok m → 0 ≤ a → 0 ≤ n → a + n ≤ len (contents m) →
  guest_read a n (m, p) = (Ok (slice (contents m) a n), (m, p)).
Proof. intros. unfold guest_read, on_mem, sread. by rewrite mem_read_in. Qed.

(** ** Invariants of a drain *)

Section invariant.
Context (I : M * P → Prop) (q : QueueLayout) (process : Z → st (M * P) VirtioError Z).
Context (Hq : layout_ok q).
Context (I_rings : ∀ s, I s → mem_ok s.1 ∧ rings_in q s.1).
Context (I_write : ∀ m p a bs m',
  I (m, p) → mem_ok m' → contents m' = splice (contents m) a bs → I (m', p)).
Context (I_process : ∀ head s, I s → 0 ≤ head → I (process head s).2).

Lemma write_used_inv i id l m p : I (m, p) → I ((write_used q i id l m).2, p).
Proof.
  intros Hi. destruct (I_rings _ Hi) as [Hm [_ _ Hin]]. destruct Hq as [Hs _ _ Hu].
  unfold word in Hu, Hs. unfold write_used, write_u32, write_u16.
  destruct (Z.eqb_spec (q_size q) 0); [done|]. simpl in Hm, Hin.
  pose proof (Z.mod_pos_bound i (q_size q) ltac:(lia)). unfold sbind, sret.
  destruct (supdate_write (q_used q + 4 + i `mod` q_size q * 8) (to_le_bytes 4 id) m)
    as (m1 & -> & Hm1 & C1); [done|lia|by apply to_le_bytes_words|rewrite len_to_le_bytes; lia|].
  destruct (supdate_write (q_used q + 4 + i `mod` q_size q * 8 + 4) (to_le_bytes 4 l) m1)
    as (m2 & -> & Hm2 & C2);
    [done|lia|by apply to_le_bytes_words|rewrite C1, len_splice, len_to_le_bytes; lia|].
  destruct (supdate_write (q_used q + 2) (to_le_bytes 2 (wrapping_add 16 i 1)) m2)
    as (m3 & -> & Hm3 & C3);
    [done|lia|by apply to_le_bytes_words|rewrite C2, C1, !len_splice, len_to_le_bytes; lia|].
  simpl. eauto.
Qed.

Lemma avail_head_nonneg slot m head :
  mem_ok m → rings_in q m → avail_head q slot m = Ok head → 0 ≤ head.
Proof.
  intros Hm [_ Hin _]. destruct Hq as [Hs _ Ha _]. unfold word in Ha, Hs. unfold avail_head.
  destruct (Z.eqb_spec (q_size q) 0); [done|].
  pose proof (Z.mod_pos_bound slot (q_size q) ltac:(lia)).
  rewrite read_u16_in by (done || lia). intros [= <-].
  eapply word_nonneg, field_word; (done || lia).
Qed.

Lemma serve_slot_inv slot s : I s → I (serve_slot q process slot s).2.
Proof.
  intros Hi. destruct (I_rings s Hi) as [Hm Hr]. destruct s as [m p].
  unfold serve_slot, sbind, on_mem at 1, sread at 1.
  destruct (avail_head q slot m) as [head|] eqn:Eh; [|done].
  pose proof (I_process head (m, p) Hi (avail_head_nonneg slot m head Hm Hr Eh)) as Hp.
  destruct (process head (m, p)) as [[l|] [m1 p1]]; [|done]. simpl in Hp.
  unfold on_mem at 1, sread. destruct (used_index q m1) as [i|]; [|done].
  unfold on_mem. pose proof (write_used_inv i head l m1 p1 Hp) as Hu.
  by destruct (write_used q i head l m1) as [r m2].
Qed.

Lemma drain_loop_inv fuel av completed last_seen s :
  I s → word 16 last_seen →
  I (drain_loop fuel q av process completed last_seen s).2 ∧
  word 16 (drain_loop fuel q av process completed last_seen s).1.2.
Proof.
  revert completed last_seen s.
  induction fuel as [|fuel IH]; intros completed last_seen s Hi Hl; [done|].
  cbn [drain_loop]. case_match; [done|]. pose proof (serve_slot_inv last_seen s Hi) as Hs.
  destruct (serve_slot q process last_seen s) as [[r|e] s']; [|done].
  apply IH; [done|by apply word_wrap].
Qed.

Lemma drain_available_inv last_seen s :
  I s → word 16 last_seen →
  I (drain_available q last_seen process s).2 ∧
  word 16 (drain_available q last_seen process s).1.2.
Proof.
  intros Hi Hl. unfold drain_available.
  destruct (rbind _ _); [by apply drain_loop_inv|done].
Qed.

End invariant.
End laws.

(** ** A queue in 256 bytes of memory *)

(** Four descriptors at 0, the available ring at 64 and the used ring at 80;
    one published chain of a header and a writable buffer. *)
Definition demo_queue : QueueLayout := mkQueueLayout 4 0 64 80.
Definition demo_memory : SliceMemory :=
  let m := replicate 256 0 in
  let m := splice m 0 (to_le_bytes 8 200 ++ to_le_bytes 4 16 ++ to_le_bytes 2 1 ++ to_le_bytes 2 1) in
  let m := splice m 16 (to_le_bytes 8 220 ++ to_le_bytes 4 8 ++ to_le_bytes 2 2 ++ to_le_bytes 2 0) in
  splice m 64 (to_le_bytes 2 0 ++ to_le_bytes 2 1 ++ to_le_bytes 2 0).

Lemma demo_memory_ok : mem_ok demo_memory.
Proof.
  assert (Forall (word 8) (replicate 256 0)) by (by apply Forall_replicate, word_const).
  split; [|by vm_compute]. unfold demo_memory.
  repeat apply Forall_splice; repeat apply Forall_app_2; try done; by apply to_le_bytes_words.
Qed.
Lemma demo_queue_ok : layout_ok demo_queue.
Proof. split; by apply word_const. Qed.
Lemma demo_rings_in : rings_in demo_queue demo_memory.
Proof. split; by vm_compute. Qed.

Lemma validated_chain_exact_witness :
  chain demo_queue demo_memory 0 [mkDescriptor 200 16 1; mkDescriptor 220 8 2].
Proof.
  destruct (validated_chain_exact demo_queue 0 64 demo_memory
    [mkDescriptor 200 16 1; mkDescriptor 220 8 2]) as [H _].
  - apply demo_memory_ok.
  - apply demo_queue_ok.
  - vm_compute; reflexivity.
  - lia.
  - apply H. vm_compute; reflexivity.
Defined.

Lemma drain_serves_each_entry_once_witness :
  let process := (λ _, sret 8) : Z → st (SliceMemory * ()) VirtioError Z in
  (drain_available demo_queue 0 process (demo_memory, ())).1 = (Ok 1, 1) ∧
  1 = wrapping_sub 16 (field 2 (q_avail demo_queue + 2) demo_memory) 0.
Proof.
  intros process.
  assert ((drain_available demo_queue 0 process (demo_memory, ())).1 = (Ok 1, 1)) as E
    by (vm_compute; reflexivity).
  pose proof (drain_serves_each_entry_once demo_queue 0 process (demo_memory, ())
    demo_memory_ok demo_queue_ok demo_rings_in (word_const 16 0 eq_refl)) as H.
  cbv zeta in H. destruct (drain_available _ _ _ _) as [[r l] s'].
  cbn [fst] in E. injection E as -> ->.
  assert ((wrapping_sub 16 (field 2 (q_avail demo_queue + 2) demo_memory) 0
    <=? q_size demo_queue) = true) as Hp by (vm_compute; reflexivity).
  cbn [fst] in H. rewrite Hp in H. destruct H as [_ H]. destruct (H 1 eq_refl) as [Hn _].
  split; [reflexivity|exact Hn].
Defined.

Lemma write_used_publishes_witness :
  ∃ m', write_used demo_queue 5 1 9 demo_memory = (Ok 6, m') ∧ mem_ok m' ∧
    field 4 92 m' = 1 ∧ field 4 96 m' = 9 ∧ used_index demo_queue m' = Ok 6.
Proof.
  destruct (write_used_publishes demo_queue 5 1 9 demo_memory)
    as (m' & E & H1 & H2 & H3 & H4 & _).
  - apply demo_memory_ok.
  - apply demo_queue_ok.
  - apply demo_rings_in.
  - vm_compute; reflexivity.
  - by apply word_const.
  - by apply word_const.
  - by apply word_const.
  - exists m'. split; [exact E|]. split; [exact H1|]. split; [exact H2|]. split; [exact H3|exact H4].
Defined.
