(* ===== verification/VirtioBlk.v ===== *)
(** The virtio-mmio block device, [rish-softvm-core/src/virtio/block.rs], over
    the backend trait of [virtio/backend.rs].

    [BlockBackend] is a class and [BackendLaws] its contract with the device;
    [VecBlockBackend] implements it, the host-file backend is host I/O and is
    covered by the laws. Guest memory is any [GuestMemory].

    The theorems show that requests are all-or-nothing, that the chunked data
    paths move exactly the sectors asked for, that the register file keeps its
    lifecycle invariants, and that a fault stays latched and stops all data
    movement. *)
From stdpp Require Import strings.
From S2P Require Import Prelude.
From S2P Require Import VirtQueue.
Local Open Scope Z_scope.

Definition MAGIC_VALUE : Z := 0x000.
Definition VERSION : Z := 0x004.
Definition DEVICE_ID : Z := 0x008.
Definition VENDOR_ID : Z := 0x00C.
Definition DEVICE_FEATURES : Z := 0x010.
Definition DEVICE_FEATURES_SEL : Z := 0x014.
Definition DRIVER_FEATURES : Z := 0x020.
Definition DRIVER_FEATURES_SEL : Z := 0x024.
Definition QUEUE_SEL : Z := 0x030.
Definition QUEUE_NUM_MAX : Z := 0x034.
Definition QUEUE_NUM : Z := 0x038.
Definition QUEUE_READY : Z := 0x044.
Definition QUEUE_NOTIFY : Z := 0x050.
Definition INTERRUPT_STATUS : Z := 0x060.
Definition INTERRUPT_ACK : Z := 0x064.
Definition STATUS : Z := 0x070.
Definition QUEUE_DESC_LOW : Z := 0x080.
Definition QUEUE_DESC_HIGH : Z := 0x084.
Definition QUEUE_AVAIL_LOW : Z := 0x090.
Definition QUEUE_AVAIL_HIGH : Z := 0x094.
Definition QUEUE_USED_LOW : Z := 0x0A0.
Definition QUEUE_USED_HIGH : Z := 0x0A4.
Definition CONFIG_GENERATION : Z := 0x0FC.
Definition CONFIG_SPACE : Z := 0x100.
Definition VIRTIO_BLK_DEVICE_ID : Z := 2.
Definition VIRTIO_BLK_SECTOR_SIZE : Z := 512.
Definition VENDOR_ID_RISH : Z := 0x52495348.
Definition STATUS_FEATURES_OK : Z := 8.
Definition STATUS_DRIVER_OK : Z := 4.
Definition VIRTIO_F_VERSION_1 : Z := bit 32.
Definition VIRTIO_BLK_F_SEG_MAX : Z := bit 1.
Definition VIRTIO_BLK_F_BLK_SIZE : Z := bit 4.
Definition OFFERED_FEATURES : Z :=
  VIRTIO_F_VERSION_1 .| VIRTIO_BLK_F_SEG_MAX .| VIRTIO_BLK_F_BLK_SIZE.
Definition QUEUE_NUM_MAX_VALUE : Z := 128.
Definition MIN_SERVICEABLE_QUEUE_SIZE : Z := 3.
Definition SEG_MAX : Z := 62.
Definition BLK_SIZE : Z := 512.
Definition REQ_IN : Z := 0.
Definition REQ_OUT : Z := 1.
Definition REQ_FLUSH : Z := 4.
Definition REQ_GET_ID : Z := 8.
Definition REQ_DISCARD : Z := 10.
Definition REQ_WRITE_ZEROES : Z := 11.
Definition STATUS_BYTE_OK : Z := 0.
Definition STATUS_BYTE_IOERR : Z := 1.
Definition STATUS_BYTE_UNSUPP : Z := 2.
Definition INTERRUPT_USED_RING : Z := 1.
(** The ASCII bytes of RISH-VIRTIO-BLK-01. *)
Definition SERIAL : list Z :=
  [0x52; 0x49; 0x53; 0x48; 0x2D; 0x56; 0x49; 0x52; 0x54; 0x49; 0x4F; 0x2D;
   0x42; 0x4C; 0x4B; 0x2D; 0x30; 0x31].
Definition TRANSFER_CHUNK_BYTES : Z := 64 * 1024.
Definition HEADER_BYTES : Z := 16.

(** [trait BlockBackend] *)
Class BlockBackend (B : Type) := mkBlockBackend {
  backend_length : B → Z;
  read_at : Z → Z → st B VirtioError (list Z);
  write_at : Z → list Z → st B VirtioError ()
}.

(** [VecBlockBackend] *)
Definition VecBlockBackend : Type := list Z.
Definition vec_read_at (offset n : Z) : st VecBlockBackend VirtioError (list Z) := λ b,
  match checked_add 64 offset n with
  | None => (Err (Backend "read offset overflowed"), b)
  | Some e => if e >? len b then (Err (Backend "read past the end of the backend"), b)
              else (Ok (slice b offset n), b)
  end.
Definition vec_write_at (offset : Z) (input : list Z) : st VecBlockBackend VirtioError () := λ b,
  match checked_add 64 offset (len input) with
  | None => (Err (Backend "write offset overflowed"), b)
  | Some e => if e >? len b then (Err (Backend "write past the end of the backend"), b)
              else (Ok (), splice b offset input)
  end.
#[export] Instance VecBlockBackend_backend : BlockBackend VecBlockBackend :=
  mkBlockBackend _ len vec_read_at vec_write_at.

Definition merge_low (current value : Z) : Z := (current .&~ 0xFFFFFFFF) .| value.
Definition merge_high (current value : Z) : Z := (current .& 0xFFFFFFFF) .| (value ≪ 32).

Section device.
Context {B : Type} `{BlockBackend B}.

(** [driver_features] is the array [[u32; 2]]; [fault] keeps the error whose
    text the code formats into its message. *)
Record VirtioMmioBlk := mkBlk {
  backend : B;
  capacity_sectors : Z;
  status : Z;
  device_feature_sel : Z;
  driver_feature_sel : Z;
  driver_features_0 : Z;
  driver_features_1 : Z;
  negotiated_features : Z;
  queue_sel : Z;
  queue : QueueLayout;
  queue_ready : bool;
  irq_status : Z;
  last_seen_avail : Z;
  kick_pending : bool;
  fault : option VirtioError
}.
#[export] Instance VirtioMmioBlk_eta : Settable VirtioMmioBlk := λ d,
  mkBlk (backend d) (capacity_sectors d) (status d) (device_feature_sel d)
    (driver_feature_sel d) (driver_features_0 d) (driver_features_1 d) (negotiated_features d)
    (queue_sel d) (queue d) (queue_ready d) (irq_status d) (last_seen_avail d)
    (kick_pending d) (fault d).

Definition new (b : B) : result VirtioError VirtioMmioBlk :=
  let length := backend_length b in
  if length =? 0 then Err (Backend "block backend is empty")
  else if negb (length `mod` VIRTIO_BLK_SECTOR_SIZE =? 0)
  then Err (Backend "block backend size is not a multiple of the sector size")
  else Ok (mkBlk b (length / VIRTIO_BLK_SECTOR_SIZE) 0 0 0 0 0 0 0 QueueLayout_default
             false 0 0 false None).

Definition device_feature_word (d : VirtioMmioBlk) : Z :=
  if device_feature_sel d =? 0 then wrap 32 OFFERED_FEATURES
  else if device_feature_sel d =? 1 then wrap 32 (OFFERED_FEATURES ≫ 32)
  else 0.

Definition config_word (offset : Z) (d : VirtioMmioBlk) : Z :=
  let word := offset .&~ 3 in
  if word =? 0x100 then wrap 32 (capacity_sectors d)
  else if word =? 0x104 then wrap 32 (capacity_sectors d ≫ 32)
  else if word =? 0x108 then 0
  else if word =? 0x10C then SEG_MAX
  else if word =? 0x110 then 0
  else if word =? 0x114 then BLK_SIZE
  else 0.

Definition mmio_read (offset : Z) (d : VirtioMmioBlk) : Z :=
  let word := offset .&~ 3 in
  if word =? MAGIC_VALUE then 0x74726976
  else if word =? VERSION then 2
  else if word =? DEVICE_ID then VIRTIO_BLK_DEVICE_ID
  else if word =? VENDOR_ID then VENDOR_ID_RISH
  else if word =? DEVICE_FEATURES then device_feature_word d
  else if word =? QUEUE_NUM_MAX then QUEUE_NUM_MAX_VALUE
  else if word =? QUEUE_NUM then q_size (queue d)
  else if word =? QUEUE_READY then Z.b2z (queue_ready d)
  else if word =? INTERRUPT_STATUS then irq_status d
  else if word =? STATUS then status d
  else if word =? CONFIG_GENERATION then 0
  else if word >=? CONFIG_SPACE then config_word word d
  else 0.

Definition reset (d : VirtioMmioBlk) : VirtioMmioBlk :=
  d <| status := 0 |> <| driver_features_0 := 0 |> <| driver_features_1 := 0 |>
    <| driver_feature_sel := 0 |> <| negotiated_features := 0 |>
    <| queue := QueueLayout_default |> <| queue_ready := false |> <| irq_status := 0 |>
    <| last_seen_avail := 0 |> <| kick_pending := false |>.

(** The guarded arms of [mmio_write]: a write through another queue selection,
    or to a busy queue, falls through to the discarded registers. *)
Definition mmio_write (offset value : Z) (d : VirtioMmioBlk) : VirtioMmioBlk :=
  let word := offset .&~ 3 in
  if word =? DEVICE_FEATURES_SEL then d <| device_feature_sel := value |>
  else if word =? DRIVER_FEATURES_SEL then d <| driver_feature_sel := value |>
  else if word =? DRIVER_FEATURES then
    if driver_feature_sel d =? 0 then d <| driver_features_0 := value |>
    else if driver_feature_sel d =? 1 then d <| driver_features_1 := value |>
    else d
  else if word =? QUEUE_SEL then d <| queue_sel := value |>
  else if word =? QUEUE_NUM then
    if (queue_sel d =? 0) && negb (queue_ready d) then
      d <| queue ::= λ q, q <| q_size :=
        if (value >? 0) && (value <=? QUEUE_NUM_MAX_VALUE) then wrap 16 value else 0 |> |>
    else d
  else if word =? QUEUE_READY then
    if negb (queue_sel d =? 0) then d
    else if value =? 0 then d <| queue_ready := false |> <| last_seen_avail := 0 |>
    else if (value =? 1) && (q_size (queue d) >=? MIN_SERVICEABLE_QUEUE_SIZE)
    then d <| queue_ready := true |>
    else d
  else if word =? QUEUE_NOTIFY then
    if (value =? queue_sel d) && queue_ready d then d <| kick_pending := true |> else d
  else if word =? INTERRUPT_ACK then d <| irq_status ::= λ s, s .&~ value |>
  else if word =? STATUS then
    if value =? 0 then reset d
    else
      let d := d <| status := value |> in
      if has value STATUS_FEATURES_OK then
        let driver := (driver_features_1 d ≪ 32) .| driver_features_0 d in
        d <| negotiated_features := OFFERED_FEATURES .& driver |>
      else d
  else if negb (queue_sel d =? 0) then d
  else if word =? QUEUE_DESC_LOW then
    d <| queue ::= λ q, q <| q_desc ::= λ a, merge_low a value |> |>
  else if word =? QUEUE_DESC_HIGH then
    d <| queue ::= λ q, q <| q_desc ::= λ a, merge_high a value |> |>
  else if word =? QUEUE_AVAIL_LOW then
    d <| queue ::= λ q, q <| q_avail ::= λ a, merge_low a value |> |>
  else if word =? QUEUE_AVAIL_HIGH then
    d <| queue ::= λ q, q <| q_avail ::= λ a, merge_high a value |> |>
  else if word =? QUEUE_USED_LOW then
    d <| queue ::= λ q, q <| q_used ::= λ a, merge_low a value |> |>
  else if word =? QUEUE_USED_HIGH then
    d <| queue ::= λ q, q <| q_used ::= λ a, merge_high a value |> |>
  else d.

Definition checked_range (sector total : Z) (d : VirtioMmioBlk) : result VirtioError (option Z) :=
  let start := sector * VIRTIO_BLK_SECTOR_SIZE in
  match checked_add 128 start total with
  | None => Err (Backend "request byte range overflowed")
  | Some e =>
      let capacity := capacity_sectors d * VIRTIO_BLK_SECTOR_SIZE in
      if e >? capacity then Ok None else Ok (Some (wrap 64 e))
  end.

(** ** Data movement *)

Context {M : Type} `{GuestMemory M}.
Abbreviation io := (st (M * VirtioMmioBlk) VirtioError).

Definition on_backend {A} (c : st B VirtioError A) : io A := λ '(m, d),
  let '(r, b) := c (backend d) in (r, (m, d <| backend := b |>)).

Definition chunk (length done : Z) : Z := Z.min (saturating_sub length done) TRANSFER_CHUNK_BYTES.
(** One more than the chunks a segment can take. *)
Definition chunk_fuel (length : Z) : nat := S (Z.to_nat (length / TRANSFER_CHUNK_BYTES)).

(** The inner [while] loop of [copy_from_backend]; returns [offset]. *)
Fixpoint from_backend_loop (fuel : nat) (ds : Descriptor) (done offset : Z) : io Z :=
  match fuel with
  | O => sret offset
  | S fuel =>
      if done <? d_length ds then
        let step := chunk (d_length ds) done in
        let! buffer := on_backend (read_at offset step) in
        let! _ := guest_write (d_address ds + done) buffer in
        from_backend_loop fuel ds (done + step) (offset + step)
      else sret offset
  end.

Fixpoint copy_from_backend (data : list Descriptor) (offset : Z) : io Z :=
  match data with
  | [] => sret offset
  | ds :: data =>
      let! offset := from_backend_loop (chunk_fuel (d_length ds)) ds 0 offset in
      copy_from_backend data offset
  end.

Fixpoint to_backend_loop (fuel : nat) (ds : Descriptor) (done offset : Z) : io Z :=
  match fuel with
  | O => sret offset
  | S fuel =>
      if done <? d_length ds then
        let step := chunk (d_length ds) done in
        let! buffer := guest_read (d_address ds + done) step in
        let! _ := on_backend (write_at offset buffer) in
        to_backend_loop fuel ds (done + step) (offset + step)
      else sret offset
  end.

Fixpoint copy_to_backend (data : list Descriptor) (offset : Z) : io Z :=
  match data with
  | [] => sret offset
  | ds :: data =>
      let! offset := to_backend_loop (chunk_fuel (d_length ds)) ds 0 offset in
      copy_to_backend data offset
  end.

(** The buffer of one chunk of the serial. *)
Definition serial_chunk (position step : Z) : list Z :=
  let buffer := replicate (Z.to_nat step) 0x20 in
  if position <? len SERIAL then
    let remaining := len SERIAL - position in
    let overlap := Z.min remaining step in
    splice buffer 0 (slice SERIAL position overlap)
  else buffer.

Fixpoint serial_loop (fuel : nat) (ds : Descriptor) (done written : Z) : io Z :=
  match fuel with
  | O => sret written
  | S fuel =>
      if done <? d_length ds then
        let step := chunk (d_length ds) done in
        let! _ := guest_write (d_address ds + done) (serial_chunk (written + done) step) in
        serial_loop fuel ds (done + step) (written + step)
      else sret written
  end.

Fixpoint write_serial (data : list Descriptor) (written : Z) : io Z :=
  match data with
  | [] => sret written
  | ds :: data =>
      let! written := serial_loop (chunk_fuel (d_length ds)) ds 0 written in
      write_serial data written
  end.

Definition write_status (st : Descriptor) (byte : Z) : io () := guest_write (d_address st) [byte].

Definition io_device : io VirtioMmioBlk := λ s, (Ok s.2, s).

(** The direction check on the data descriptors. *)
Definition check_direction (request_type : Z) (data : list Descriptor) : result VirtioError () :=
  if (request_type =? REQ_IN) || (request_type =? REQ_GET_ID) then
    if forallb device_writable data then Ok ()
    else Err (BadQueue "read request data descriptor is not device-writable")
  else if request_type =? REQ_OUT then
    if existsb device_writable data
    then Err (BadQueue "write request data descriptor is device-writable") else Ok ()
  else Ok ().

(** [u32::try_from(n).unwrap_or(u32::MAX)] *)
Definition clamp_u32 (n : Z) : Z := if n <? 2 ^ 32 then n else 2 ^ 32 - 1.

(** What the request type asks for once the chain is validated; [total] is the
    payload length. *)
Definition execute_request (request_type sector total : Z) (data : list Descriptor)
    (status_desc : Descriptor) : io Z :=
  let! d := io_device in
  let finish :=
    let! _ := write_status status_desc STATUS_BYTE_OK in
    sret (clamp_u32 (if request_type =? REQ_OUT then 1 else saturating_add 128 total 1)) in
  let complete_with byte := let! _ := write_status status_desc byte in sret 1 in
  if request_type =? REQ_IN then
    let! range := sread (λ _, checked_range sector total d) in
    match range with
    | None => complete_with STATUS_BYTE_IOERR
    | Some _ =>
        let! _ := copy_from_backend data (sector * 512) in finish
    end
  else if request_type =? REQ_OUT then
    let! range := sread (λ _, checked_range sector total d) in
    match range with
    | None => complete_with STATUS_BYTE_IOERR
    | Some _ => λ s,
        match copy_to_backend data (sector * 512) s with
        | (Ok _, s) => finish s
        | (Err (Backend _), s) => complete_with STATUS_BYTE_IOERR s
        | (Err fatal, s) => (Err fatal, s)
        end
    end
  else if request_type =? REQ_GET_ID then
    let! _ := write_serial data 0 in finish
  else complete_with STATUS_BYTE_UNSUPP.

Definition process_request (head : Z) : io Z :=
  let! d := io_device in
  let! descriptors :=
    on_mem (sread (validated_chain (queue d) head (Z.to_nat MAX_CHAIN_DESCRIPTORS))) in
  let count := length descriptors in
  if (count <? 3)%nat
  then sfail (BadQueue "request chain has fewer than three descriptors")
  else
    let header := descriptors !!! 0%nat in
    let status_desc := descriptors !!! (count - 1)%nat in
    if (d_length header <? HEADER_BYTES) || device_writable header
    then sfail (BadQueue "request header is missing or device-writable")
    else if (d_length status_desc <? 1) || negb (device_writable status_desc)
    then sfail (BadQueue "request status descriptor is missing or not device-writable")
    else
      let! header_bytes := guest_read (d_address header) HEADER_BYTES in
      let request_type := from_le_bytes (slice header_bytes 0 4) in
      let sector := from_le_bytes (slice header_bytes 8 8) in
      let data := take (count - 2) (drop 1 descriptors) in
      let! _ := sread (λ _, check_direction request_type data) in
      let total := total_bytes data in
      if ((request_type =? REQ_IN) || (request_type =? REQ_OUT))
         && negb (total `mod` VIRTIO_BLK_SECTOR_SIZE =? 0)
      then sfail (BadQueue "request length is not a multiple of the block size")
      else execute_request request_type sector total data status_desc.

(** [poll_kick]; the closure's early return leaves [last_seen_avail] alone when
    the drain fails. *)
Definition poll_kick (m : M) (d : VirtioMmioBlk) : bool * (M * VirtioMmioBlk) :=
  if negb (kick_pending d) then (false, (m, d))
  else
    let d := d <| kick_pending := false |> in
    if bool_decide (is_Some (fault d)) || negb (queue_ready d) || (q_size (queue d) =? 0)
       || negb (has (status d) STATUS_DRIVER_OK)
    then (false, (m, d))
    else
      match drain_available (queue d) (last_seen_avail d) process_request (m, d) with
      | (Ok completed, last_seen, (m, d)) =>
          let d := d <| last_seen_avail := last_seen |> in
          if completed >? 0
          then (true, (m, d <| irq_status ::= λ s, s .| INTERRUPT_USED_RING |>))
          else (false, (m, d))
      | (Err error, _, (m, d)) => (false, (m, d <| fault := Some error |>))
      end.

(** ** Every change of memory is a store *)

Section stores.
Context (m0 : M).
Abbreviation J := (stores_from (P := VirtioMmioBlk) m0).

Lemma on_backend_stores {A} (c : st B VirtioError A) : keeps J (on_backend c).
Proof. intros [m d] Hm. unfold on_backend. by destruct (c (backend d)). Qed.
Lemma io_device_stores : keeps J io_device.
Proof. by intros s. Qed.
#[local] Hint Resolve on_backend_stores io_device_stores : keeps.

Lemma from_backend_stores data offset : keeps J (copy_from_backend data offset).
Proof.
  revert offset. induction data as [|ds data IH]; intros offset; cbn [copy_from_backend]; [auto with keeps|].
  apply keeps_bind; [|intros; apply IH]. generalize (chunk_fuel (d_length ds)), 0. revert offset.
  intros offset fuel. revert offset. induction fuel as [|fuel IHf]; intros offset done; cbn [from_backend_loop]; keep.
Qed.
Lemma to_backend_stores data offset : keeps J (copy_to_backend data offset).
Proof.
  revert offset. induction data as [|ds data IH]; intros offset; cbn [copy_to_backend]; [auto with keeps|].
  apply keeps_bind; [|intros; apply IH]. generalize (chunk_fuel (d_length ds)), 0. revert offset.
  intros offset fuel. revert offset. induction fuel as [|fuel IHf]; intros offset done; cbn [to_backend_loop]; keep.
Qed.
Lemma write_serial_stores data written : keeps J (write_serial data written).
Proof.
  revert written. induction data as [|ds data IH]; intros written; cbn [write_serial]; [auto with keeps|].
  apply keeps_bind; [|intros; apply IH]. generalize (chunk_fuel (d_length ds)), 0. revert written.
  intros written fuel. revert written. induction fuel as [|fuel IHf]; intros written done; cbn [serial_loop]; keep.
Qed.
#[local] Hint Resolve from_backend_stores to_backend_stores write_serial_stores : keeps.

Lemma execute_request_stores request_type sector total data sd :
  keeps J (execute_request request_type sector total data sd).
Proof.
  unfold execute_request, write_status. apply keeps_bind; [auto with keeps|]. intros d _ _ _.
  case_match; [keep|]. case_match; [|case_match; keep].
  apply keeps_bind; [auto with keeps|]. intros [e|] _ _ _; [|keep].
  intros s Hs. pose proof (to_backend_stores data (sector * 512) s Hs) as Hk.
  destruct (copy_to_backend data (sector * 512) s) as [[o|[| |]] s']; simpl in Hk; [|done|done|];
    revert s' Hk; match goal with |- ∀ s', _ → J (?c s').2 => change (keeps J c) end; keep.
Qed.
#[local] Hint Resolve execute_request_stores : keeps.

Lemma process_request_stores head : keeps J (process_request head).
Proof. unfold process_request. keep. Qed.

Lemma poll_kick_stores d : stores_from m0 (poll_kick m0 d).2.
Proof.
  unfold poll_kick. assert (∀ d, J (m0, d)) as H00 by (by intros; apply rtc_refl).
  case_match; [apply H00|]. case_match; [apply H00|].
  pose proof (drain_available_stores m0 (queue d)
    (last_seen_avail d) process_request (m0, d <| kick_pending := false |>)) as Hk.
  simpl in Hk. destruct (drain_available _ _ _ _) as [[[c|e] l] [m d']]; [case_match|]; apply Hk;
    auto using process_request_stores.
Qed.
End stores.

End device.

(** ** What the device relies on *)

(** A backend whose in-range accesses succeed: a byte array on the host. *)
Class ReliableBackend (B : Type) `{BlockBackend B} := {
  disk_ok : B → Prop;
  disk : B → list Z;
  disk_words b : disk_ok b → Forall (word 8) (disk b);
  disk_length b : disk_ok b → backend_length b = len (disk b) ∧ len (disk b) < 2 ^ 63;
  read_at_in b off n : disk_ok b → 0 ≤ off → 0 ≤ n → off + n ≤ len (disk b) →
    ∃ b', read_at off n b = (Ok (slice (disk b) off n), b') ∧ disk_ok b' ∧ disk b' = disk b;
  write_at_in b off bs : disk_ok b → 0 ≤ off → Forall (word 8) bs → off + len bs ≤ len (disk b) →
    ∃ b', write_at off bs b = (Ok (), b') ∧ disk_ok b' ∧ disk b' = splice (disk b) off bs
}.

#[export] Program Instance VecBlockBackend_reliable : ReliableBackend VecBlockBackend := {|
  disk_ok b := Forall (word 8) b ∧ len b < 2 ^ 63;
  disk b := b
|}.
Next Obligation. by intros b []. Qed.
Next Obligation. by intros b []. Qed.
Next Obligation.
  intros b off n [] ? ? ?; simpl. unfold vec_read_at, checked_add.
  rewrite (proj2 (Z.ltb_lt _ _)), Z.gtb_ltb, (proj2 (Z.ltb_ge _ _)) by lia. eauto.
Qed.
Next Obligation.
  intros b off bs [] ? ? ?; simpl. unfold vec_write_at, checked_add.
  rewrite (proj2 (Z.ltb_lt _ _)), Z.gtb_ltb, (proj2 (Z.ltb_ge _ _)) by lia.
  eexists. split; [done|]. rewrite len_splice. auto with words.
Qed.

(** ** Reference data movement *)

(** Store consecutive bytes of [src] into the buffers, one by one. *)
Fixpoint scatter (ram : list Z) (data : list Descriptor) (src : list Z) (offset : Z) : list Z :=
  match data with
  | [] => ram
  | ds :: data =>
      scatter (splice ram (d_address ds) (slice src offset (d_length ds))) data src
        (offset + d_length ds)
  end.

(** The serial followed by padding for a payload of [total] bytes. *)
Definition padded_serial (total : Z) : list Z := SERIAL ++ replicate (Z.to_nat total) 0x20.

(** What a request does to guest RAM and disk, and the length it reports. *)
Definition spec_execute (request_type sector total capacity : Z) (data : list Descriptor)
    (status_desc : Descriptor) (ram dsk : list Z) : Z * list Z * list Z :=
  let with_status byte ram := splice ram (d_address status_desc) [byte] in
  let in_range := sector * 512 + total <=? capacity * 512 in
  if request_type =? REQ_IN then
    if in_range
    then (clamp_u32 (total + 1), with_status STATUS_BYTE_OK (scatter ram data dsk (sector * 512)), dsk)
    else (1, with_status STATUS_BYTE_IOERR ram, dsk)
  else if request_type =? REQ_OUT then
    if in_range
    then (1, with_status STATUS_BYTE_OK ram, splice dsk (sector * 512) (gather ram data))
    else (1, with_status STATUS_BYTE_IOERR ram, dsk)
  else if request_type =? REQ_GET_ID then
    (clamp_u32 (total + 1), with_status STATUS_BYTE_OK (scatter ram data (padded_serial total) 0), dsk)
  else (1, with_status STATUS_BYTE_UNSUPP ram, dsk).

Section correctness.
Context {B : Type} `{ReliableBackend B} {M : Type} `{GuestMemoryLaws M}.
Implicit Types (m : M) (d : VirtioMmioBlk (B := B)) (b : B).

Lemma chunk_bounds length done :
  0 ≤ done < length → 0 < chunk length done ≤ length - done ∧
    (chunk length done = length - done ∨ chunk length done = TRANSFER_CHUNK_BYTES).
Proof. unfold chunk, saturating_sub, TRANSFER_CHUNK_BYTES. lia. Qed.

Lemma chunk_fuel_enough length : 0 ≤ length → length ≤ Z.of_nat (chunk_fuel length) * TRANSFER_CHUNK_BYTES.
Proof.
  intros. unfold chunk_fuel, TRANSFER_CHUNK_BYTES.
  pose proof (Z.div_pos length (64 * 1024)). rewrite Nat2Z.inj_succ, Z2Nat.id by lia. dlia.
Qed.

Lemma on_backend_read off n m d :
  disk_ok (backend d) → 0 ≤ off → 0 ≤ n → off + n ≤ len (disk (backend d)) →
  ∃ b', on_backend (read_at off n) (m, d)
      = (Ok (slice (disk (backend d)) off n), (m, d <| backend := b' |>)) ∧
    disk_ok b' ∧ disk b' = disk (backend d).
Proof.
  intros. destruct (read_at_in (backend d) off n) as (b' & E & ?); try done.
  exists b'. unfold on_backend. by rewrite E.
Qed.

Lemma on_backend_write off bs m d :
  disk_ok (backend d) → 0 ≤ off → Forall (word 8) bs → off + len bs ≤ len (disk (backend d)) →
  ∃ b', on_backend (write_at off bs) (m, d) = (Ok (), (m, d <| backend := b' |>)) ∧
    disk_ok b' ∧ disk b' = splice (disk (backend d)) off bs.
Proof.
  intros. destruct (write_at_in (backend d) off bs) as (b' & E & ?); try done.
  exists b'. unfold on_backend. by rewrite E.
Qed.

Lemma from_backend_loop_spec fuel ds done offset m d :
  mem_ok m → disk_ok (backend d) → buffer_ok (len (contents m)) ds →
  0 ≤ done ≤ d_length ds → 0 ≤ offset → offset + (d_length ds - done) ≤ len (disk (backend d)) →
  d_length ds - done ≤ Z.of_nat fuel * TRANSFER_CHUNK_BYTES →
  ∃ m' b', from_backend_loop fuel ds done offset (m, d)
      = (Ok (offset + (d_length ds - done)), (m', d <| backend := b' |>)) ∧
    mem_ok m' ∧ disk_ok b' ∧ disk b' = disk (backend d) ∧
    contents m' = splice (contents m) (d_address ds + done)
      (slice (disk (backend d)) offset (d_length ds - done)).
Proof.
  revert done offset m d. induction fuel as [|fuel IH]; intros done offset m d Hm Hb Hds Hdone Hoff Hle Hf.
  { assert (done = d_length ds) as -> by lia. exists m, (backend d). simpl.
    rewrite Z.sub_diag, Z.add_0_r. split_and!; try done. by destruct d. }
  cbn [from_backend_loop]. destruct (Z.ltb_spec done (d_length ds)) as [Hlt|].
  - destruct (chunk_bounds (d_length ds) done) as [Hc Hc']; [lia|].
    set (step := chunk (d_length ds) done) in *. unfold sbind at 1.
    destruct (on_backend_read offset step m d) as (b1 & -> & Hb1 & E1); [done|lia..|].
    destruct Hds as [Ha Hl He]. unfold sbind at 1.
    assert (Forall (word 8) (slice (disk (backend d)) offset step)) by (by apply Forall_slice, disk_words).
    destruct (guest_write_in (d_address ds + done) (slice (disk (backend d)) offset step) m
      (d <| backend := b1 |>)) as (m1 & -> & Hm1 & C1); [done|lia|done|rewrite len_slice; lia|].
    destruct (IH (done + step) (offset + step) m1 (d <| backend := b1 |>)) as (m2 & b2 & -> & Hm2 & Hb2 & E2 & C2);
      simpl; rewrite ?E1, ?C1, ?len_splice; try done; try lia.
    { unfold TRANSFER_CHUNK_BYTES in *. lia. }
    simpl in E2, C2. rewrite E1 in C2. exists m2, b2. split_and!; try done.
    + do 2 f_equal. lia.
    + congruence.
    + rewrite C2, C1. replace (d_address ds + (done + step)) with (d_address ds + done + step) by lia.
      rewrite <- (len_slice (disk (backend d)) offset step) at 2 by lia.
      rewrite splice_adjacent by (rewrite ?len_slice; lia).
      f_equal. rewrite <- slice_add by lia. f_equal. lia.
  - assert (done = d_length ds) as -> by lia. exists m, (backend d). simpl.
    rewrite Z.sub_diag, Z.add_0_r. split_and!; try done. by destruct d.
Qed.

Lemma len_scatter ram data src offset : len (scatter ram data src offset) = len ram.
Proof.
  revert ram offset. induction data as [|ds data IH]; intros ram offset; simpl; [done|].
  by rewrite IH, len_splice.
Qed.

Lemma copy_from_backend_spec data offset m d :
  mem_ok m → disk_ok (backend d) → Forall (buffer_ok (len (contents m))) data →
  0 ≤ offset → offset + total_bytes data ≤ len (disk (backend d)) →
  ∃ m' b', copy_from_backend data offset (m, d)
      = (Ok (offset + total_bytes data), (m', d <| backend := b' |>)) ∧
    mem_ok m' ∧ disk_ok b' ∧ disk b' = disk (backend d) ∧
    contents m' = scatter (contents m) data (disk (backend d)) offset.
Proof.
  revert offset m d. induction data as [|ds data IH]; intros offset m d Hm Hb Hds Hoff Hle.
  { simpl. exists m, (backend d). rewrite Z.add_0_r. split_and!; try done. by destruct d. }
  apply Forall_cons in Hds as [Hd Hds]. pose proof (total_bytes_nonneg _ _ Hds).
  assert (total_bytes (ds :: data) = d_length ds + total_bytes data) as Ht by done.
  rewrite Ht in *. cbn [copy_from_backend].
  pose proof (bo_length _ _ Hd) as Hlen. unfold word in Hlen.
  pose proof (chunk_fuel_enough (d_length ds) ltac:(lia)).
  destruct (from_backend_loop_spec (chunk_fuel (d_length ds)) ds 0 offset m d)
    as (m1 & b1 & E1 & Hm1 & Hb1 & D1 & C1); try done; [lia..|].
  rewrite Z.sub_0_r, Z.add_0_r in *. unfold sbind at 1. rewrite E1.
  destruct (IH (offset + d_length ds) m1 (d <| backend := b1 |>))
    as (m2 & b2 & -> & Hm2 & Hb2 & D2 & C2); simpl; rewrite ?D1, ?C1, ?len_splice; try done; [lia..|].
  simpl in D2, C2. rewrite D1 in C2. exists m2, b2. split_and!; try done.
  - do 2 f_equal. lia.
  - congruence.
  - by rewrite C2, C1.
Qed.

Lemma to_backend_loop_spec fuel ds done offset m d :
  mem_ok m → disk_ok (backend d) → buffer_ok (len (contents m)) ds →
  0 ≤ done ≤ d_length ds → 0 ≤ offset → offset + (d_length ds - done) ≤ len (disk (backend d)) →
  d_length ds - done ≤ Z.of_nat fuel * TRANSFER_CHUNK_BYTES →
  ∃ b', to_backend_loop fuel ds done offset (m, d)
      = (Ok (offset + (d_length ds - done)), (m, d <| backend := b' |>)) ∧
    disk_ok b' ∧
    disk b' = splice (disk (backend d)) offset
      (slice (contents m) (d_address ds + done) (d_length ds - done)).
Proof.
  revert done offset d. induction fuel as [|fuel IH]; intros done offset d Hm Hb Hds Hdone Hoff Hle Hf.
  { assert (done = d_length ds) as -> by lia. exists (backend d). simpl.
    rewrite Z.sub_diag, Z.add_0_r. split_and!; try done. by destruct d. }
  cbn [to_backend_loop]. destruct (Z.ltb_spec done (d_length ds)) as [Hlt|].
  - destruct (chunk_bounds (d_length ds) done) as [Hc Hc']; [lia|].
    set (step := chunk (d_length ds) done) in *. destruct Hds as [Ha Hl He] eqn:EHds.
    unfold sbind at 1. rewrite guest_read_in by (done || lia). unfold sbind at 1.
    set (bs := slice (contents m) (d_address ds + done) step).
    assert (len bs = step) as Hbs by (apply len_slice; lia).
    destruct (on_backend_write offset bs m d) as (b1 & -> & Hb1 & D1);
      [done|lia|by apply Forall_slice, mem_words|lia|].
    destruct (IH (done + step) (offset + step) (d <| backend := b1 |>)) as (b2 & -> & Hb2 & D2);
      simpl; rewrite ?D1, ?len_splice; try done; try lia.
    { unfold TRANSFER_CHUNK_BYTES in *. lia. }
    simpl in D2. exists b2. split_and!; try done.
    + do 2 f_equal. lia.
    + rewrite D2, D1. rewrite <- Hbs at 1.
      rewrite splice_adjacent by (rewrite ?len_slice; lia).
      f_equal. unfold bs. replace (d_address ds + (done + step)) with (d_address ds + done + step) by lia.
      rewrite <- slice_add by lia. f_equal. lia.
  - assert (done = d_length ds) as -> by lia. exists (backend d). simpl.
    rewrite Z.sub_diag, Z.add_0_r. split_and!; try done. by destruct d.
Qed.

Lemma copy_to_backend_spec data offset m d :
  mem_ok m → disk_ok (backend d) → Forall (buffer_ok (len (contents m))) data →
  0 ≤ offset → offset + total_bytes data ≤ len (disk (backend d)) →
  ∃ b', copy_to_backend data offset (m, d)
      = (Ok (offset + total_bytes data), (m, d <| backend := b' |>)) ∧
    disk_ok b' ∧ disk b' = splice (disk (backend d)) offset (gather (contents m) data).
Proof.
  revert offset d. induction data as [|ds data IH]; intros offset d Hm Hb Hds Hoff Hle.
  { simpl. exists (backend d). rewrite Z.add_0_r. split_and!; try done. by destruct d. }
  apply Forall_cons in Hds as [Hd Hds]. pose proof (total_bytes_nonneg _ _ Hds).
  assert (total_bytes (ds :: data) = d_length ds + total_bytes data) as Ht by done.
  rewrite Ht in *. cbn [copy_to_backend].
  pose proof (bo_length _ _ Hd) as Hlen. unfold word in Hlen.
  pose proof (chunk_fuel_enough (d_length ds) ltac:(lia)).
  destruct (to_backend_loop_spec (chunk_fuel (d_length ds)) ds 0 offset m d)
    as (b1 & E1 & Hb1 & D1); try done; [lia..|].
  rewrite Z.sub_0_r, Z.add_0_r in *. unfold sbind at 1. rewrite E1.
  destruct (IH (offset + d_length ds) (d <| backend := b1 |>))
    as (b2 & -> & Hb2 & D2); simpl; rewrite ?D1, ?len_splice; try done; [lia..|].
  simpl in D2. exists b2. split_and!; try done.
  - do 2 f_equal. lia.
  - rewrite D2, D1. destruct Hd as [Ha Hl He].
    pose proof (splice_adjacent (disk (backend d)) offset
      (slice (contents m) (d_address ds) (d_length ds)) (gather (contents m) data)) as E.
    rewrite len_slice, len_gather in E by (done || lia). apply E; lia.
Qed.

Lemma padded_lookup n (i : nat) :
  padded_serial n !! i =
    if decide (i < 18)%nat then SERIAL !! i
    else if decide (i < 18 + Z.to_nat n)%nat then Some 0x20 else None.
Proof.
  unfold padded_serial. repeat case_decide.
  - by apply lookup_app_l.
  - rewrite lookup_app_r by (change (length SERIAL) with 18%nat; lia).
    apply lookup_replicate_2. change (length SERIAL) with 18%nat. lia.
  - apply lookup_ge_None. rewrite length_app, length_replicate. change (length SERIAL) with 18%nat. lia.
Qed.

Lemma serial_chunk_eq n position step :
  0 ≤ position → 0 ≤ step → position + step ≤ 18 + n → 0 ≤ n →
  serial_chunk position step = slice (padded_serial n) position step.
Proof.
  intros Hp Hs Hle Hn. apply list_eq. intros i.
  assert (len (replicate (Z.to_nat step) 0x20) = step) as Hrep by (by apply len_replicate).
  destruct (decide (Z.of_nat i < step)) as [Hi|Hi].
  - rewrite lookup_slice, padded_lookup by lia. unfold serial_chunk. change (len SERIAL) with 18.
    destruct (Z.ltb_spec position 18).
    + assert (len (slice SERIAL position (Z.min (18 - position) step)) = Z.min (18 - position) step) as El
        by (apply len_slice; change (len SERIAL) with 18; lia).
      rewrite lookup_splice by (rewrite ?El, ?Hrep; lia). rewrite El. case_decide.
      * rewrite lookup_slice, decide_True by lia. f_equal. lia.
      * rewrite lookup_replicate_2 by lia. by rewrite decide_False, decide_True by lia.
    + rewrite lookup_replicate_2 by lia. by rewrite decide_False, decide_True by lia.
  - rewrite lookup_slice_ge by lia. apply lookup_ge_None. unfold serial_chunk.
    case_match; [unfold splice; rewrite length_inserts|]; rewrite length_replicate; lia.
Qed.

(** Past the serial every chunk is padding, wherever it starts. *)
Lemma serial_chunk_padding p q step : 18 ≤ p → 18 ≤ q → serial_chunk p step = serial_chunk q step.
Proof.
  intros. unfold serial_chunk. change (len SERIAL) with 18.
  by rewrite !(proj2 (Z.ltb_ge _ _)) by lia.
Qed.

Lemma padded_words n : Forall (word 8) (padded_serial n).
Proof.
  apply Forall_app_2; [|by apply Forall_replicate, word_const].
  unfold SERIAL. repeat (apply Forall_cons_2; [by apply word_const|]). by apply Forall_nil.
Qed.

Lemma serial_loop_spec n fuel ds done written m d :
  mem_ok m → buffer_ok (len (contents m)) ds → 0 ≤ n →
  0 ≤ done ≤ d_length ds → 0 ≤ written → written + (d_length ds - done) ≤ 18 + n →
  done = 0 ∨ 18 ≤ written ∨ done = d_length ds →
  d_length ds - done ≤ Z.of_nat fuel * TRANSFER_CHUNK_BYTES →
  ∃ m', serial_loop fuel ds done written (m, d)
      = (Ok (written + (d_length ds - done)), (m', d)) ∧ mem_ok m' ∧
    contents m' = splice (contents m) (d_address ds + done)
      (slice (padded_serial n) written (d_length ds - done)).
Proof.
  revert done written m.
  induction fuel as [|fuel IH]; intros done written m Hm Hds Hn Hdone Hw Hle Hpos Hf.
  { assert (done = d_length ds) as -> by lia. exists m. simpl. by rewrite Z.sub_diag, Z.add_0_r. }
  cbn [serial_loop]. destruct (Z.ltb_spec done (d_length ds)) as [Hlt|].
  - destruct (chunk_bounds (d_length ds) done) as [Hc Hc']; [lia|].
    set (step := chunk (d_length ds) done) in *. destruct Hds as [Ha Hl He] eqn:EHds.
    assert (serial_chunk (written + done) step = slice (padded_serial n) written step) as ->.
    { rewrite <- serial_chunk_eq by lia. destruct Hpos as [->|[|]]; [by rewrite Z.add_0_r| |lia].
      apply serial_chunk_padding; lia. }
    set (bs := slice (padded_serial n) written step).
    assert (len (padded_serial n) = 18 + n) as Hpl
      by (unfold padded_serial; rewrite len_app, len_replicate by done; done).
    assert (len bs = step) as Hbs by (apply len_slice; lia). unfold sbind at 1.
    destruct (guest_write_in (d_address ds + done) bs m d) as (m1 & -> & Hm1 & C1);
      [done|lia|apply Forall_slice, padded_words|lia|].
    destruct (IH (done + step) (written + step) m1) as (m2 & -> & Hm2 & C2);
      rewrite ?C1, ?len_splice; try done; try lia.
    { unfold TRANSFER_CHUNK_BYTES in *. lia. }
    { unfold TRANSFER_CHUNK_BYTES in *. lia. }
    exists m2. split_and!; try done; [do 2 f_equal; lia|].
    rewrite C2, C1. replace (d_address ds + (done + step)) with (d_address ds + done + len bs) by lia.
    assert (len (slice (padded_serial n) (written + step) (d_length ds - (done + step)))
      = d_length ds - (done + step)) by (apply len_slice; lia).
    rewrite splice_adjacent by lia. f_equal. unfold bs.
    rewrite <- slice_add by lia. f_equal. lia.
  - assert (done = d_length ds) as -> by lia. exists m. simpl. by rewrite Z.sub_diag, Z.add_0_r.
Qed.

Lemma write_serial_spec n data written m d :
  mem_ok m → Forall (buffer_ok (len (contents m))) data → 0 ≤ n →
  0 ≤ written → written + total_bytes data ≤ 18 + n →
  ∃ m', write_serial data written (m, d) = (Ok (written + total_bytes data), (m', d)) ∧
    mem_ok m' ∧ contents m' = scatter (contents m) data (padded_serial n) written.
Proof.
  revert written m. induction data as [|ds data IH]; intros written m Hm Hds Hn Hw Hle.
  { simpl. exists m. by rewrite Z.add_0_r. }
  apply Forall_cons in Hds as [Hd Hds]. pose proof (total_bytes_nonneg _ _ Hds).
  assert (total_bytes (ds :: data) = d_length ds + total_bytes data) as Ht by done.
  rewrite Ht in *. cbn [write_serial].
  pose proof (bo_length _ _ Hd) as Hlen. unfold word in Hlen.
  pose proof (chunk_fuel_enough (d_length ds) ltac:(lia)).
  destruct (serial_loop_spec n (chunk_fuel (d_length ds)) ds 0 written m d)
    as (m1 & E1 & Hm1 & C1); [done|done|done|lia|lia|lia|by left|lia|].
  rewrite Z.sub_0_r, Z.add_0_r in *. unfold sbind at 1. rewrite E1.
  destruct (IH (written + d_length ds) m1) as (m2 & -> & Hm2 & C2); rewrite ?C1, ?len_splice;
    try done; [lia..|].
  exists m2. split_and!; try done; [do 2 f_equal; lia|]. by rewrite C2, C1.
Qed.

(** ** Requests *)

Lemma write_status_spec sd byte m d :
  mem_ok m → buffer_ok (len (contents m)) sd → 1 ≤ d_length sd → word 8 byte →
  ∃ m', write_status sd byte (m, d) = (Ok (), (m', d)) ∧ mem_ok m' ∧
    contents m' = splice (contents m) (d_address sd) [byte].
Proof.
  intros Hm [Ha Hl He] Hlen Hb. apply guest_write_in; try done.
  - by apply Forall_singleton.
  - change (len [byte]) with 1. lia.
Qed.

Lemma complete_spec sd byte (n : Z) m d ram :
  mem_ok m → contents m = ram → buffer_ok (len ram) sd → 1 ≤ d_length sd → word 8 byte →
  ∃ m', (let! _ := write_status sd byte in sret n) (m, d) = (Ok n, (m', d)) ∧ mem_ok m' ∧
    contents m' = splice ram (d_address sd) [byte].
Proof.
  intros Hm <- Hsd Hlen Hb. destruct (write_status_spec sd byte m d) as (m' & E & ?); try done.
  exists m'. unfold sbind. by rewrite E.
Qed.

Lemma checked_range_spec sector total d :
  0 ≤ sector → 0 ≤ total → sector * 512 + total < 2 ^ 128 →
  checked_range sector total d =
    Ok (if sector * 512 + total <=? capacity_sectors d * 512
        then Some (wrap 64 (sector * 512 + total)) else None).
Proof.
  intros Hs Ht Hlt. unfold checked_range, checked_add, VIRTIO_BLK_SECTOR_SIZE.
  rewrite (proj2 (Z.ltb_lt _ _)) by lia. rewrite Z.gtb_ltb, Z.ltb_antisym.
  by destruct (_ <=? _).
Qed.

(** A bound on the payload that keeps every sum in range. *)
Lemma total_bound n data :
  Forall (buffer_ok n) data → total_bytes data ≤ len data * 2 ^ 32.
Proof.
  unfold total_bytes. induction 1 as [|ds data [] _ IH]; [done|].
  rewrite len_cons. unfold word in *. simpl. lia.
Qed.

Lemma execute_request_spec ty sector data sd m d :
  mem_ok m → disk_ok (backend d) → Forall (buffer_ok (len (contents m))) data →
  buffer_ok (len (contents m)) sd → 1 ≤ d_length sd → word 64 sector → len data ≤ 64 →
  capacity_sectors d * 512 = len (disk (backend d)) →
  ∃ n m' b',
    execute_request ty sector (total_bytes data) data sd (m, d) = (Ok n, (m', d <| backend := b' |>)) ∧
    mem_ok m' ∧ disk_ok b' ∧
    (n, contents m', disk b') = spec_execute ty sector (total_bytes data) (capacity_sectors d) data sd
      (contents m) (disk (backend d)).
Proof.
  intros Hm Hb Hdata Hsd Hlen Hsec Hmax Hcap. unfold word in Hsec.
  pose proof (total_bytes_nonneg _ _ Hdata) as Ht. pose proof (total_bound _ _ Hdata) as Htb.
  assert (sector * 512 + total_bytes data < 2 ^ 128) by lia.
  assert (d <| backend := backend d |> = d) as Hid by (by destruct d).
  assert (∀ byte (n : Z), word 8 byte → ∃ m',
    (let! _ := write_status sd byte in sret n) (m, d) = (Ok n, (m', d <| backend := backend d |>)) ∧
    mem_ok m' ∧ contents m' = splice (contents m) (d_address sd) [byte]) as Hplain.
  { intros byte n Hby. rewrite Hid. by apply complete_spec. }
  unfold execute_request, spec_execute. unfold sbind at 1, io_device. cbn [snd].
  unfold sread. rewrite !checked_range_spec by (done || lia).
  assert (saturating_add 128 (total_bytes data) 1 = total_bytes data + 1) as ->
    by (unfold saturating_add; lia).
  set (in_range := sector * 512 + total_bytes data <=? capacity_sectors d * 512).
  assert (in_range = true → sector * 512 + total_bytes data ≤ len (disk (backend d))) as Hin
    by (unfold in_range; rewrite Hcap; lia).
  destruct (Z.eqb_spec ty REQ_IN) as [->|]; [|destruct (Z.eqb_spec ty REQ_OUT) as [->|]].
  - change (REQ_IN =? REQ_OUT) with false. unfold sbind at 1. destruct in_range.
    + unfold sbind at 1. destruct (copy_from_backend_spec data (sector * 512) m d)
        as (m1 & b1 & -> & Hm1 & Hb1 & D1 & C1); try done; [lia|auto|].
      destruct (complete_spec sd STATUS_BYTE_OK (clamp_u32 (total_bytes data + 1)) m1
        (d <| backend := b1 |>) _ Hm1 C1) as (m2 & E & ? & C2); try done; [by rewrite len_scatter|].
      eexists _, m2, b1. rewrite E, C2, D1. done.
    + destruct (Hplain STATUS_BYTE_IOERR 1) as (m1 & E & ? & C1); [done|].
      eexists _, m1, (backend d). rewrite E, C1. done.
  - unfold sbind at 1. destruct in_range.
    + destruct (copy_to_backend_spec data (sector * 512) m d) as (b1 & -> & Hb1 & D1);
        try done; [lia|auto|].
      destruct (complete_spec sd STATUS_BYTE_OK (clamp_u32 1) m (d <| backend := b1 |>) _ Hm eq_refl)
        as (m2 & E & ? & C2); try done.
      eexists _, m2, b1. rewrite E, C2, D1. done.
    + destruct (Hplain STATUS_BYTE_IOERR 1) as (m1 & E & ? & C1); [done|].
      eexists _, m1, (backend d). rewrite E, C1. done.
  - destruct (ty =? REQ_GET_ID).
    + unfold sbind at 1. destruct (write_serial_spec (total_bytes data) data 0 m d)
        as (m1 & -> & Hm1 & C1); try done; [lia|].
      destruct (complete_spec sd STATUS_BYTE_OK (clamp_u32 (total_bytes data + 1)) m1 d _ Hm1 C1)
        as (m2 & E & ? & C2); try done; [by rewrite len_scatter|].
      eexists _, m2, (backend d). rewrite E, C2, Hid. done.
    + destruct (Hplain STATUS_BYTE_UNSUPP 1) as (m1 & E & ? & C1); [done|].
      eexists _, m1, (backend d). rewrite E, C1. done.
Qed.

(** The requests the device accepts: a chain inside ring and RAM of a readable
    header, data buffers and a writable status byte, with the direction and
    the sector granularity its type demands. *)
Record well_formed (q : QueueLayout) (head : Z) (m : M) (header : Descriptor)
    (data : list Descriptor) (sd : Descriptor) : Prop := mk_well_formed {
  wf_chain : chain q m head (header :: data ++ [sd]);
  wf_ram : Forall (in_ram m) (header :: data ++ [sd]);
  wf_length : 1 ≤ len data ≤ SEG_MAX;
  wf_header : HEADER_BYTES ≤ d_length header ∧ device_writable header = false;
  wf_status : 1 ≤ d_length sd ∧ device_writable sd = true;
  wf_read : field 4 (d_address header) m = REQ_IN ∨ field 4 (d_address header) m = REQ_GET_ID →
    Forall (λ ds, device_writable ds = true) data;
  wf_write : field 4 (d_address header) m = REQ_OUT → Forall (λ ds, device_writable ds = false) data;
  wf_aligned : field 4 (d_address header) m = REQ_IN ∨ field 4 (d_address header) m = REQ_OUT →
    total_bytes data `mod` VIRTIO_BLK_SECTOR_SIZE = 0
}.

(** The check on directions passes exactly when what the device writes is writable and
    what it reads is not. *)
Lemma check_direction_ok ty data : check_direction ty data = Ok () ↔
  (ty = REQ_IN ∨ ty = REQ_GET_ID → Forall (λ ds, device_writable ds = true) data) ∧
  (ty = REQ_OUT → Forall (λ ds, device_writable ds = false) data).
Proof.
  assert (Forall (λ ds, device_writable ds = true) data ↔ forallb device_writable data = true) as ->
    by (by rewrite forallb_forall, Forall_forall; setoid_rewrite list_elem_of_In).
  assert (Forall (λ ds, device_writable ds = false) data ↔ existsb device_writable data = false) as ->.
  { rewrite <- not_true_iff_false, existsb_exists, Forall_forall. setoid_rewrite list_elem_of_In. split.
    - intros Hd (ds & Hin & Hw). by rewrite Hd in Hw.
    - intros Hno ds Hin. destruct (device_writable ds) eqn:E; [|done]. destruct Hno. by exists ds. }
  unfold check_direction, REQ_IN, REQ_OUT, REQ_GET_ID.
  destruct (Z.eqb_spec ty 0); cbn [orb]; [subst; destruct (forallb _ _); naive_solver|].
  destruct (Z.eqb_spec ty 8); cbn [orb]; [subst; destruct (forallb _ _); naive_solver|].
  destruct (Z.eqb_spec ty 1); [subst; destruct (existsb _ _); naive_solver|naive_solver].
Qed.

Record blk_view_ok (m : M) (d : VirtioMmioBlk (B := B)) : Prop := mk_blk_view_ok {
  bv_mem : mem_ok m;
  bv_disk : disk_ok (backend d);
  bv_layout : layout_ok (queue d);
  bv_rings : rings_in (queue d) m;
  bv_capacity : capacity_sectors d * 512 = len (disk (backend d))
}.

Lemma split_ends {A} `{Inhabited A} (l : list A) :
  (3 ≤ length l)%nat →
  ∃ x k y, l = x :: k ++ [y] ∧ (1 ≤ length k)%nat ∧ l !!! 0%nat = x ∧
    l !!! (length l - 1)%nat = y ∧ take (length l - 2) (drop 1 l) = k.
Proof.
  intros Hl. destruct l as [|x l]; simpl in Hl; [lia|].
  destruct l as [|y k _] using rev_ind; simpl in Hl; [lia|].
  rewrite length_app in Hl; simpl in Hl. exists x, k, y.
  split_and!; [done|lia|done| |].
  - simpl. rewrite length_app; simpl.
    replace (length k + 1 - 0)%nat with (S (length k)) by lia.
    change ((k ++ [y]) !!! length k = y). by apply list_lookup_total_middle.
  - simpl. rewrite length_app; simpl. rewrite drop_0.
    replace (length k + 1 - 1)%nat with (length k) by lia. apply take_app_length.
Qed.

Lemma header_fields m a d :
  mem_ok m → 0 ≤ a → a + 16 ≤ len (contents m) →
  guest_read a HEADER_BYTES (m, d) = (Ok (slice (contents m) a 16), (m, d)) ∧
  from_le_bytes (slice (slice (contents m) a 16) 0 4) = field 4 a m ∧
  from_le_bytes (slice (slice (contents m) a 16) 8 8) = field 8 (a + 8) m ∧
  word 64 (field 8 (a + 8) m).
Proof.
  intros Hm Ha Hle. split; [by apply guest_read_in|].
  rewrite !slice_slice, Z.add_0_r by lia. split_and!; [done|done|].
  apply (field_word 8); (done || lia).
Qed.

(** A well-formed request reaches the executor. *)
Lemma process_well_formed head m d header data sd :
  blk_view_ok m d → 0 ≤ head → well_formed (queue d) head m header data sd →
  process_request head (m, d) =
    execute_request (field 4 (d_address header) m) (field 8 (d_address header + 8) m)
      (total_bytes data) data sd (m, d) ∧
  Forall (buffer_ok (len (contents m))) data ∧ buffer_ok (len (contents m)) sd ∧
  word 64 (field 8 (d_address header + 8) m).
Proof.
  intros [Hm Hb Hq Hin Hcap] Hh [Hc Hr [Hl1 Hl2] [Hhl Hhw] [Hsl Hsw] Hrd Hwr Hal].
  pose proof (proj2 (check_direction_ok _ _) (conj Hrd Hwr)) as Hdir.
  pose proof (chain_buffers _ _ _ _ Hm Hq Hin Hc Hr) as Hbuf. unfold SEG_MAX, len in Hl1, Hl2.
  apply Forall_cons in Hbuf as [Hhb [Hdb [Hsb _]%Forall_cons]%Forall_app].
  destruct Hhb as [Hha Hhl' Hhe]. unfold HEADER_BYTES in Hhl.
  destruct (header_fields m (d_address header) d) as (E3 & E4 & E5 & Hw); [done|lia|lia|].
  split; [|done].
  unfold process_request. unfold sbind at 1, io_device. cbn [snd].
  unfold sbind at 1, on_mem, sread.
  rewrite (proj2 (validated_chain_iff (queue d) head _ m (header :: data ++ [sd]) Hm Hq Hin Hh)).
  2: { split_and!; [done| |done]. cbn [length]. rewrite length_app. cbn [length].
       change (Z.to_nat MAX_CHAIN_DESCRIPTORS) with 64%nat. lia. }
  destruct (split_ends (header :: data ++ [sd])) as (x & k & y & E & Hk & E0 & E1 & E2);
    [cbn [length]; rewrite length_app; cbn [length]; lia|].
  injection E as <- E. apply app_inj_tail in E as [<- <-]. rewrite E0, E1, E2.
  rewrite (proj2 (Nat.ltb_ge _ _)) by (cbn [length]; rewrite length_app; cbn [length]; lia).
  rewrite Hhw, Hsw, (proj2 (Z.ltb_ge _ _)), (proj2 (Z.ltb_ge _ 1)) by (unfold HEADER_BYTES; lia). cbn [orb negb].
  unfold sbind at 1. rewrite E3, E4, E5. unfold sbind at 1. rewrite Hdir.
  match goal with |- context [if ?c then sfail _ else _] => assert (c = false) as -> end.
  { apply andb_false_iff. destruct (decide (total_bytes data `mod` VIRTIO_BLK_SECTOR_SIZE = 0)) as [->|Hne];
      [by right|left]. apply orb_false_iff. rewrite !Z.eqb_neq. naive_solver. }
  done.
Qed.

(** C9: the device executes well-formed requests exactly. Over a reliable
    backend, a well-formed request completes, and guest RAM, disk and reported
    length are those of the reference: a read scatters precisely the requested
    sectors over the data buffers, a write stores the gathered payload at the
    requested sectors and touches no other byte of the disk, an out-of-range
    request moves nothing, GET_ID yields the padded serial, anything else is
    refused as unsupported; the status byte says which. The 64 KiB chunking
    of the copies is invisible. *)
Theorem process_request_executes head m d header data sd :
  blk_view_ok m d → 0 ≤ head → well_formed (queue d) head m header data sd →
  ∃ n m' b',
    process_request head (m, d) = (Ok n, (m', d <| backend := b' |>)) ∧
    mem_ok m' ∧ disk_ok b' ∧
    (n, contents m', disk b') =
      spec_execute (field 4 (d_address header) m) (field 8 (d_address header + 8) m)
        (total_bytes data) (capacity_sectors d) data sd (contents m) (disk (backend d)).
Proof.
  intros Hv Hh Hwf. destruct (process_well_formed head m d header data sd Hv Hh Hwf)
    as (-> & Hdb & Hsb & Hw).
  destruct Hv, Hwf as [_ _ Hlen _ [Hsl _] _ _ _]. unfold SEG_MAX in Hlen.
  apply execute_request_spec; try done. lia.
Qed.

(** Any other request is an error that leaves the state alone. *)
Lemma process_request_cases head m d :
  blk_view_ok m d → 0 ≤ head →
  (∃ header data sd, well_formed (queue d) head m header data sd) ∨
  ∃ e, process_request head (m, d) = (Err e, (m, d)).
Proof.
  intros [Hm Hb Hq Hin Hcap] Hh.
  unfold process_request. unfold sbind at 1, io_device. cbn [snd].
  unfold sbind at 1, on_mem, sread.
  destruct (validated_chain _ _ _ _) as [ds|e] eqn:Hv; [|by right; eexists].
  apply validated_chain_iff in Hv as (Hc & Hl & Hr); [|done..].
  destruct (Nat.ltb_spec (length ds) 3); [by right; eexists|].
  destruct (split_ends ds) as (header & data & sd & E & Hk & E0 & E1 & E2); [lia|].
  rewrite E0, E1, E2. subst ds.
  cbn [length] in Hl. rewrite length_app in Hl. cbn [length] in Hl.
  change (Z.to_nat MAX_CHAIN_DESCRIPTORS) with 64%nat in Hl.
  pose proof (chain_buffers _ _ _ _ Hm Hq Hin Hc Hr) as Hbuf.
  apply Forall_cons in Hbuf as [[Hha Hhl' Hhe] _].
  destruct (Z.ltb_spec (d_length header) HEADER_BYTES) as [|Hhl]; [by right; eexists|].
  destruct (device_writable header) eqn:Hhw; [by right; eexists|]. cbn [orb].
  destruct (Z.ltb_spec (d_length sd) 1) as [|Hsl]; [by right; eexists|].
  destruct (device_writable sd) eqn:Hsw; [|by right; eexists]. cbn [orb negb].
  unfold HEADER_BYTES in Hhl.
  destruct (header_fields m (d_address header) d) as (E3 & E4 & E5 & Hw); [done|lia|lia|].
  unfold sbind at 1. rewrite E3, E4, E5. unfold sbind at 1.
  destruct (check_direction _ _) as [[]|e] eqn:Hdir; [|by right; eexists]. apply check_direction_ok in Hdir as [Hrd Hwr].
  match goal with |- context [if ?c then sfail _ else _] => destruct c eqn:Hal end; [by right; eexists|].
  left. exists header, data, sd. split; try done.
  - unfold SEG_MAX, len. lia.
  - intros Hty. apply andb_false_iff in Hal as [Hal|Hal].
    + apply orb_false_iff in Hal as [?%Z.eqb_neq ?%Z.eqb_neq]. tauto.
    + by apply negb_false_iff, Z.eqb_eq in Hal.
Qed.

(** C37: malformed requests fail closed. If no split of a chain from [head]
    is well formed (the chain leaves ring or RAM, cycles, is too short or too
    long, or its header, status, directions or length are wrong), the request
    returns an error and neither guest RAM nor disk nor device has changed. *)
Theorem malformed_request_fails_closed head m d :
  blk_view_ok m d → 0 ≤ head →
  (∀ header data sd, ¬ well_formed (queue d) head m header data sd) →
  ∃ e, process_request head (m, d) = (Err e, (m, d)).
Proof.
  intros Hv Hh Hno. destruct (process_request_cases head m d Hv Hh) as [(header & data & sd & Hwf)|];
    [|done]. by destruct (Hno header data sd).
Qed.


(** ** The register file and its lifecycle *)

Record blk_ok (d : VirtioMmioBlk (B := B)) : Prop := mk_blk_ok {
  bk_disk : disk_ok (backend d);
  bk_capacity : capacity_sectors d * 512 = len (disk (backend d));
  bk_layout : layout_ok (queue d);
  bk_size : q_size (queue d) ≤ QUEUE_NUM_MAX_VALUE;
  bk_ready : queue_ready d = true → MIN_SERVICEABLE_QUEUE_SIZE ≤ q_size (queue d);
  bk_features : negotiated_features d .&~ OFFERED_FEATURES = 0;
  bk_driver_0 : word 32 (driver_features_0 d);
  bk_driver_1 : word 32 (driver_features_1 d);
  bk_last_seen : word 16 (last_seen_avail d)
}.

(** What can happen around the device: the driver writes a register, the CPU's
    device tick polls for kicks, the guest changes its own memory. *)
Inductive blk_step : M * VirtioMmioBlk (B := B) → M * VirtioMmioBlk (B := B) → Prop :=
  | blk_write m d offset value : word 32 value → blk_step (m, d) (m, mmio_write offset value d)
  | blk_poll m d : blk_step (m, d) (poll_kick m d).2
  | blk_guest m m' d : mem_ok m' → blk_step (m, d) (m', d).

Lemma merge_low_word a v : word 64 a → word 32 v → word 64 (merge_low a v).
Proof. intros. unfold merge_low. auto with words. Qed.
Lemma merge_high_word a v : word 64 a → word 32 v → word 64 (merge_high a v).
Proof.
  intros Ha Hv. unfold merge_high. assert (word 64 (v ≪ 32)).
  { unfold word in *. rewrite Z.shiftl_mul_pow2 by done. lia. }
  auto with words.
Qed.

Lemma mmio_write_ok offset value d : word 32 value → blk_ok d → blk_ok (mmio_write offset value d).
Proof.
  intros Hv Hd. unfold mmio_write.
  repeat case_match; try done; destruct Hd as [? ? [? ? ? ?] ? Hr ? ? ? ?]; split; simpl; try done.
  all: try (split; simpl; auto using merge_low_word, merge_high_word).
  - by apply word_wrap.
  - apply andb_true_iff in H9 as [? ?]. unfold QUEUE_NUM_MAX_VALUE in *.
    rewrite wrap_small; [lia|unfold word; lia].
  - intros E. rewrite E, andb_false_r in H8. done.
  - intros E. rewrite E, andb_false_r in H8. done.
  - intros _. match goal with H : _ && (_ >=? _) = true |- _ =>
      apply andb_true_iff in H as [_ H%Z.geb_le]; done end.
  - apply Z.bits_inj'. intros i Hi. bits. by destruct (Z.testbit OFFERED_FEATURES i), (_ || _).
Qed.

(** The device as [process_request] may leave it. *)
Definition serving (d0 : VirtioMmioBlk (B := B)) (n : Z) (s : M * VirtioMmioBlk (B := B)) : Prop :=
  mem_ok s.1 ∧ len (contents s.1) = n ∧ rings_in (queue d0) s.1 ∧
  disk_ok (backend s.2) ∧ len (disk (backend s.2)) = len (disk (backend d0)) ∧
  s.2 = d0 <| backend := backend s.2 |>.

Lemma spec_execute_lengths ty sector total cap data sd ram dsk :
  len (spec_execute ty sector total cap data sd ram dsk).1.2 = len ram ∧
  len (spec_execute ty sector total cap data sd ram dsk).2 = len dsk.
Proof.
  unfold spec_execute. repeat case_match; simpl; by rewrite ?len_splice, ?len_scatter.
Qed.

Lemma process_request_serving d0 n head s :
  blk_ok d0 → serving d0 n s → 0 ≤ head → serving d0 n (process_request head s).2.
Proof.
  intros Hd0 (Hm & Hn & Hr & Hb & Hlen & Ed) Hh. destruct s as [m d]; simpl in *.
  assert (queue d = queue d0) as Eq by (by rewrite Ed).
  assert (blk_view_ok m d) as Hv.
  { split; try done; rewrite ?Eq; [apply Hd0|done|].
    rewrite Hlen, <- (bk_capacity _ Hd0). by rewrite Ed. }
  destruct (process_request_cases head m d Hv Hh) as [(header & data & sd & Hwf)|[e ->]]; [|done].
  destruct (process_well_formed head m d header data sd Hv Hh Hwf) as (-> & Hdb & Hsb & Hw).
  destruct Hwf as [_ _ Hl _ [Hsl _] _ _]. unfold SEG_MAX in Hl.
  destruct (execute_request_spec (field 4 (d_address header) m) (field 8 (d_address header + 8) m)
    data sd m d) as (r & m' & b' & -> & Hm' & Hb' & E); try done; [lia|apply Hv|].
  pose proof (spec_execute_lengths (field 4 (d_address header) m) (field 8 (d_address header + 8) m)
    (total_bytes data) (capacity_sectors d) data sd (contents m) (disk (backend d))) as [L1 L2].
  rewrite <- E in L1, L2. simpl in L1, L2. unfold serving; simpl.
  split_and!; try done; [lia|by eapply rings_in_len|lia|]. by rewrite Ed.
Qed.

Lemma poll_kick_ok m d :
  mem_ok m → blk_ok d →
  mem_ok (poll_kick m d).2.1 ∧ len (contents (poll_kick m d).2.1) = len (contents m) ∧
  blk_ok (poll_kick m d).2.2.
Proof.
  intros Hm Hd. unfold poll_kick. destruct (kick_pending d); simpl; [|done].
  set (d0 := d <| kick_pending := false |>).
  assert (blk_ok d0) as Hd0 by (by destruct Hd).
  case_match; [done|]. pose proof (bk_layout _ Hd0) as Hq.
  destruct (validate (queue d0) (ram_bytes m)) as [[]|e] eqn:Hval.
  - apply validate_iff in Hval; [|done].
    destruct (drain_available_inv (serving d0 (len (contents m))) (queue d0) process_request Hq)
      with (last_seen := last_seen_avail d0) (s := (m, d0)) as [Hs Hl].
    + intros s (? & ? & ? & _). done.
    + intros m1 p a bs m2 (? & E & ? & ? & ? & ?) Hm2 C2. simpl in *.
      assert (len (contents m2) = len (contents m1)) as El by (by rewrite C2, len_splice).
      unfold serving; simpl. split_and!; try done; [by rewrite El|by eapply rings_in_len].
    + intros. by apply process_request_serving.
    + unfold serving; simpl. split_and!; try done; apply Hd0.
    + apply Hd0.
    + destruct (drain_available _ _ _ _) as [[r last_seen'] [m' d']].
      destruct Hs as (Hm' & El & _ & Hb' & Hlb & Ed). simpl in *.
      assert (blk_ok d') as Hd'.
      { destruct Hd0. rewrite Ed. split; simpl; try done. by rewrite Hlb. }
      destruct r as [n|e]; [case_match|]; simpl; split_and!; try done; by destruct Hd'.
  - unfold drain_available. cbn [fst]. change (queue d0) with (queue d) in Hval. rewrite Hval. cbn [rbind snd fst]. split_and!; try done. by destruct Hd0.
Qed.

(** the device lifecycle. From a freshly created device, whatever the
    driver writes, whenever the CPU polls and however the guest changes its
    memory, the queue size never exceeds 128, a ready queue has room for the
    smallest request, the negotiated features are among those offered, and the
    disk keeps the capacity advertised in the config space. *)
Theorem reachable_blk_ok b d0 m0 m d :
  new b = Ok d0 → disk_ok b → mem_ok m0 → rtc blk_step (m0, d0) (m, d) → blk_ok d.
Proof.
  intros Hnew Hb Hm0 Hr.
  assert (blk_ok d0) as Hd0.
  { unfold new in Hnew. destruct (disk_length b Hb) as [El Hlt].
    unfold VIRTIO_BLK_SECTOR_SIZE in Hnew. rewrite El in Hnew.
    destruct (Z.eqb_spec (len (disk b)) 0); [done|].
    destruct (Z.eqb_spec (len (disk b) `mod` 512) 0); simplify_eq/=.
    split; simpl; try done. dlia. }
  assert (mem_ok (m, d).1 ∧ blk_ok (m, d).2) as [_ ?]; [|done].
  revert Hr. generalize (m, d). clear m d. intros s Hr. revert s Hr.
  apply (rtc_ind_r (λ s, mem_ok s.1 ∧ blk_ok s.2)); [done|].
  intros s1 s2 _ Hs. destruct Hs as [m d offset value Hv|m d|m m' d Hm']; simpl; intros [Hm Hd].
  - by split; [|apply mmio_write_ok].
  - destruct (poll_kick_ok m d Hm Hd) as (? & _ & ?). done.
  - done.
Qed.

(** a fault is final. Once the device has latched a fault, no sequence of
    register writes (resets included), polls and guest stores clears or
    replaces it; every later poll reports no completion, and the disk is never
    touched again. *)
Theorem fault_is_sticky m d m' d' e :
  fault d = Some e → rtc blk_step (m, d) (m', d') →
  fault d' = Some e ∧ backend d' = backend d ∧ (poll_kick m' d').1 = false ∧
  (poll_kick m' d').2.1 = m'.
Proof.
  intros Hf Hr. assert (fault (m', d').2 = Some e ∧ backend (m', d').2 = backend d) as [Hf' Hb'].
  { revert Hr. generalize (m', d'). intros s Hr. revert s Hr.
    apply (rtc_ind_r (λ s, fault s.2 = Some e ∧ backend s.2 = backend d)); [done|].
    intros s1 s2 _ Hs. destruct Hs as [m1 d1 offset value Hv|m1 d1|m1 m2 d1 _]; simpl; intros [Hf1 Hb1];
      [| |done].
    - unfold mmio_write. by repeat case_match.
    - unfold poll_kick. destruct (kick_pending d1); [|done]. simpl.
      rewrite bool_decide_true by (by eexists). done. }
  simpl in *. split_and!; try done; unfold poll_kick; (destruct (kick_pending d'); [|done]); simpl;
    rewrite bool_decide_true by (by eexists); done.
Qed.
End correctness.

(** A notification names a queue; the device compares the name with the
    currently selected queue instead. A driver that selected another queue
    after its set-up loses every kick of queue 0. *)
Lemma notify_after_probe_is_lost {B} `{BlockBackend B} (d : VirtioMmioBlk (B := B)) :
  queue_sel d ≠ 0 → mmio_write QUEUE_NOTIFY 0 d = d.
Proof.
  intros Hs. unfold mmio_write. cbn -[Z.eqb]. replace (0 =? queue_sel d) with false; [done|].
  symmetry. by apply Z.eqb_neq.
Qed.

(** ** A two-sector disk and a driver *)

(** A kibibyte of RAM with the queue of [demo_queue] and one request: read
    sector 1 into the 512 bytes at 256, status at 220. *)
Definition demo_request : SliceMemory :=
  let m := replicate 1024 0 in
  let m := splice m 0 (to_le_bytes 8 200 ++ to_le_bytes 4 16 ++ to_le_bytes 2 1 ++ to_le_bytes 2 1) in
  let m := splice m 16 (to_le_bytes 8 256 ++ to_le_bytes 4 512 ++ to_le_bytes 2 3 ++ to_le_bytes 2 2) in
  let m := splice m 32 (to_le_bytes 8 220 ++ to_le_bytes 4 1 ++ to_le_bytes 2 2 ++ to_le_bytes 2 0) in
  let m := splice m 64 (to_le_bytes 2 0 ++ to_le_bytes 2 1 ++ to_le_bytes 2 0) in
  splice m 200 (to_le_bytes 4 0 ++ to_le_bytes 4 0 ++ to_le_bytes 8 1).
Definition demo_disk : VecBlockBackend := replicate 512 7 ++ replicate 512 9.
Definition demo_blk : VirtioMmioBlk (B := VecBlockBackend) :=
  mkBlk demo_disk 2 0 0 0 0 0 0 0 demo_queue false 0 0 false None.
Definition demo_faulted : VirtioMmioBlk (B := VecBlockBackend) :=
  demo_blk <| fault := Some (BadQueue "descriptor chain index left the ring") |>.
Definition demo_header : Descriptor := mkDescriptor 200 16 1.
Definition demo_data : Descriptor := mkDescriptor 256 512 3.
Definition demo_status : Descriptor := mkDescriptor 220 1 2.

Lemma demo_request_ok : mem_ok demo_request.
Proof.
  assert (Forall (word 8) (replicate 1024 0)) by (by apply Forall_replicate, word_const).
  split; [|by vm_compute]. unfold demo_request.
  repeat apply Forall_splice; repeat apply Forall_app_2; try done; by apply to_le_bytes_words.
Qed.
Lemma demo_disk_ok : disk_ok demo_disk.
Proof. split; [|by vm_compute]. by apply Forall_app_2; apply Forall_replicate, word_const. Qed.
Lemma demo_view m : mem_ok m → rings_in demo_queue m → blk_view_ok m demo_blk.
Proof.
  intros. split; [done|apply demo_disk_ok|apply demo_queue_ok|done|by vm_compute].
Qed.
Lemma demo_request_rings : rings_in demo_queue demo_request.
Proof. split; by vm_compute. Qed.
Lemma demo_well_formed :
  well_formed demo_queue 0 demo_request demo_header [demo_data] demo_status.
Proof.
  assert (validated_chain demo_queue 0 64 demo_request
    = Ok [demo_header; demo_data; demo_status]) as (? & ? & ?)%validated_chain_iff;
    [vm_compute; reflexivity| |apply demo_request_ok|apply demo_queue_ok|apply demo_request_rings|lia..].
  split; try done; try by vm_compute. intros _. by repeat constructor.
Qed.

Lemma process_request_executes_witness :
  ∃ m' b', process_request 0 (demo_request, demo_blk) = (Ok 513, (m', demo_blk <| backend := b' |>)) ∧
    slice (contents m') 256 512 = replicate 512 9 ∧ slice (contents m') 220 1 = [STATUS_BYTE_OK] ∧
    disk b' = demo_disk.
Proof.
  destruct (process_request_executes 0 demo_request demo_blk demo_header [demo_data] demo_status)
    as (n & m' & b' & E & _ & _ & S).
  - apply demo_view; [apply demo_request_ok|apply demo_request_rings].
  - lia.
  - apply demo_well_formed.
  - exists m', b'. revert S. generalize (contents m') as ram'. intros ram' S.
    assert (spec_execute (field 4 (d_address demo_header) demo_request)
      (field 8 (d_address demo_header + 8) demo_request) (total_bytes [demo_data])
      (capacity_sectors demo_blk) [demo_data] demo_status (contents demo_request)
      (disk (backend demo_blk))
      = (513, splice (splice (contents demo_request) 256 (replicate 512 9)) 220 [0], demo_disk)) as Es
      by (vm_compute; reflexivity).
    rewrite Es in S. injection S as -> -> Eb.
    split; [exact E|]. split; [vm_compute; reflexivity|]. split; [vm_compute; reflexivity|exact Eb].
Defined.

Lemma malformed_request_fails_closed_witness :
  ∃ e, process_request 0 (demo_memory, demo_blk) = (Err e, (demo_memory, demo_blk)).
Proof.
  apply (malformed_request_fails_closed 0 demo_memory demo_blk).
  - apply demo_view; [apply demo_memory_ok|apply demo_rings_in].
  - lia.
  - intros header data sd [Hc Hr Hl _ _ _ _ _].
    assert (validated_chain demo_queue 0 64 demo_memory = Ok (header :: data ++ [sd])) as E.
    { apply validated_chain_iff; [apply demo_memory_ok|apply demo_queue_ok|apply demo_rings_in|lia|].
      split; [done|]. split; [|done]. rewrite length_cons, length_app. unfold SEG_MAX, len in *. simpl. lia. }
    assert (validated_chain demo_queue 0 64 demo_memory = Ok [mkDescriptor 200 16 1; mkDescriptor 220 8 2])
      as E' by (vm_compute; reflexivity).
    rewrite E' in E. injection E as _ E2. apply (f_equal length) in E2.
    rewrite length_app in E2. unfold len in Hl. simpl in E2. lia.
Defined.

(** The driver's set-up of the queue and its first kick. *)
Definition demo_setup (d : VirtioMmioBlk (B := VecBlockBackend)) : VirtioMmioBlk (B := VecBlockBackend) :=
  mmio_write QUEUE_NOTIFY 0 (mmio_write QUEUE_READY 1
    (mmio_write QUEUE_USED_LOW 80 (mmio_write QUEUE_AVAIL_LOW 64
      (mmio_write QUEUE_NUM 4 (mmio_write STATUS STATUS_DRIVER_OK d))))).
Definition demo_fresh : VirtioMmioBlk (B := VecBlockBackend) :=
  mkBlk demo_disk 2 0 0 0 0 0 0 0 QueueLayout_default false 0 0 false None.

Lemma demo_setup_runs m d : rtc blk_step (m, d) (m, demo_setup d).
Proof.
  unfold demo_setup. do 6 (eapply rtc_r; [|by apply blk_write, word_const]). done.
Qed.

Lemma reachable_blk_ok_witness :
  blk_ok (poll_kick demo_request (demo_setup demo_fresh)).2.2 ∧
  (poll_kick demo_request (demo_setup demo_fresh)).1 = true.
Proof.
  split; [|vm_compute; reflexivity].
  apply (reachable_blk_ok demo_disk demo_fresh demo_request
    (poll_kick demo_request (demo_setup demo_fresh)).2.1).
  - vm_compute; reflexivity.
  - apply demo_disk_ok.
  - apply demo_request_ok.
  - eapply rtc_r; [apply demo_setup_runs|]. rewrite <- surjective_pairing. apply blk_poll.
Defined.

Lemma fault_is_sticky_witness :
  fault (mmio_write STATUS 0 (demo_setup demo_faulted))
    = Some (BadQueue "descriptor chain index left the ring") ∧
  (poll_kick demo_request (mmio_write STATUS 0 (demo_setup demo_faulted))).1 = false.
Proof.
  destruct (fault_is_sticky demo_request demo_faulted demo_request
    (mmio_write STATUS 0 (demo_setup demo_faulted))
    (BadQueue "descriptor chain index left the ring")) as (H1 & _ & H3 & _).
  - reflexivity.
  - eapply rtc_r; [apply demo_setup_runs|]. by apply blk_write, word_const.
  - split; [exact H1|exact H3].
Defined.
