(* ===== verification/VirtioNet.v ===== *)
(** The virtio-mmio network device, [rish-softvm-core/src/virtio/net.rs].

    The host side is the trait [NetBackend], a class: a transmitted frame is
    handed to [enqueue], [net_poll] returns the frames for the guest.
    [Instant::now()] is an argument, in nanoseconds. The diagnostics
    ([debug_state], [backend_counters]) are not modelled; they change nothing.

    The theorems show that the transmit path hands the backend exactly the
    bytes of the chain after the 12-byte header, whatever the shape of the
    chain, that the receive path lays header and frame contiguously over the
    posted buffers and nowhere else, that frames reach the driver in order and
    once each, and the invariant of the device under any guest. *)
From stdpp Require Import strings.
From S2P Require Import Prelude VirtQueue.
Local Open Scope Z_scope.

Definition MAGIC_VALUE : Z := 0x000.
Definition VERSION : Z := 0x004.
Definition DEVICE_ID : Z := 0x008.
Definition VENDOR_ID : Z := 0x00C.
Definition DEVICE_FEATURES : Z := 0x010.
Definition DEVICE_FEATURES_SEL : Z := 0x014.
Definition DRIVER_FEATURES : Z := 0x020.
Definition DRIVER_FEATURES_SEL : Z := 0x024.
Definition QUEUE_SEL : Z := 0x030.
Definition QUEUE_NUM_MAX : Z := 0x034.
Definition QUEUE_NUM : Z := 0x038.
Definition QUEUE_READY : Z := 0x044.
Definition QUEUE_NOTIFY : Z := 0x050.
Definition INTERRUPT_STATUS : Z := 0x060.
Definition INTERRUPT_ACK : Z := 0x064.
Definition STATUS : Z := 0x070.
Definition QUEUE_DESC_LOW : Z := 0x080.
Definition QUEUE_DESC_HIGH : Z := 0x084.
Definition QUEUE_AVAIL_LOW : Z := 0x090.
Definition QUEUE_AVAIL_HIGH : Z := 0x094.
Definition QUEUE_USED_LOW : Z := 0x0A0.
Definition QUEUE_USED_HIGH : Z := 0x0A4.
Definition CONFIG_GENERATION : Z := 0x0FC.
Definition CONFIG_SPACE : Z := 0x100.

Definition VIRTIO_NET_DEVICE_ID : Z := 1.
Definition VENDOR_ID_RISH : Z := 0x52495348.
Definition STATUS_FEATURES_OK : Z := 8.
Definition VIRTIO_F_VERSION_1 : Z := bit 32.
Definition VIRTIO_NET_F_MAC : Z := bit 5.
Definition VIRTIO_NET_F_STATUS : Z := bit 16.
Definition OFFERED_FEATURES : Z := VIRTIO_F_VERSION_1 .| VIRTIO_NET_F_MAC .| VIRTIO_NET_F_STATUS.
Definition QUEUE_NUM_MAX_VALUE : Z := 128.
Definition QUEUE_RX : nat := 0.
Definition QUEUE_TX : nat := 1.
Definition QUEUE_COUNT : Z := 2.
Definition VIRTIO_NET_S_LINK_UP : Z := 1.
Definition VIRTIO_NET_HDR_BYTES : Z := 12.
Definition MAX_FRAME_BYTES : Z := 1514.
Definition RX_BACKLOG_CAP : Z := 128.
Definition RX_BATCH_PER_POLL : nat := 32.
(** One millisecond. *)
Definition BACKEND_POLL_INTERVAL : Z := 1000000.
Definition INTERRUPT_USED_RING : Z := 1.

(** [trait NetBackend]; [net_poll] returns the frames it appends. *)
Class NetBackend (B : Type) := mkNetBackend {
  net_mac : B → list Z;
  enqueue : list Z → B → B;
  net_poll : B → list (list Z) * B;
  net_reset : B → B
}.

Definition merge_low (current value : Z) : Z := (current .&~ 0xFFFFFFFF) .| value.
Definition merge_high (current value : Z) : Z := (current .& 0xFFFFFFFF) .| (value ≪ 32).

Section device.
Context {B : Type} `{NetBackend B}.

(** The arrays of one entry per queue are lists of two; [fault] keeps the error
    whose text the code formats into its message. *)
Record VirtioMmioNet := mkNet {
  backend : B;
  mac : list Z;
  status : Z;
  device_feature_sel : Z;
  driver_feature_sel : Z;
  driver_features : list Z;
  negotiated_features : Z;
  queue_sel : Z;
  queues : list QueueLayout;
  queue_ready : list bool;
  kick_pending : list bool;
  last_seen_avail : list Z;
  irq_status : Z;
  rx_backlog : list (list Z);
  rx_dropped : Z;
  tx_dropped : Z;
  notify_count : Z;
  tx_drained : Z;
  rx_drained : Z;
  last_backend_poll : Z;
  fault : option VirtioError
}.
#[export] Instance VirtioMmioNet_eta : Settable VirtioMmioNet := λ d,
  mkNet (backend d) (mac d) (status d) (device_feature_sel d) (driver_feature_sel d)
    (driver_features d) (negotiated_features d) (queue_sel d) (queues d) (queue_ready d)
    (kick_pending d) (last_seen_avail d) (irq_status d) (rx_backlog d) (rx_dropped d)
    (tx_dropped d) (notify_count d) (tx_drained d) (rx_drained d) (last_backend_poll d) (fault d).

#[export] Instance QueueLayout_inhabited : Inhabited QueueLayout := populate QueueLayout_default.

Definition new (now : Z) (b : B) : VirtioMmioNet :=
  mkNet b (net_mac b) 0 0 0 [0; 0] 0 0 [QueueLayout_default; QueueLayout_default]
    [false; false] [false; false] [0; 0] 0 [] 0 0 0 0 0 now None.

Definition device_feature_word (d : VirtioMmioNet) : Z :=
  if device_feature_sel d =? 0 then wrap 32 OFFERED_FEATURES
  else if device_feature_sel d =? 1 then wrap 32 (OFFERED_FEATURES ≫ 32)
  else 0.

Definition config_word (offset : Z) (d : VirtioMmioNet) : Z :=
  let word := offset .&~ 3 in
  if word =? 0x100 then from_le_bytes (take 4 (mac d))
  else if word =? 0x104 then
    mac d !!! 4%nat .| (mac d !!! 5%nat ≪ 8) .| (VIRTIO_NET_S_LINK_UP ≪ 16)
  else 0.

(** [self.queue_sel as usize] *)
Definition selected (d : VirtioMmioNet) : nat := Z.to_nat (queue_sel d).

Definition mmio_read (offset : Z) (d : VirtioMmioNet) : Z :=
  let word := offset .&~ 3 in
  let value :=
    if word =? MAGIC_VALUE then 0x74726976
    else if word =? VERSION then 2
    else if word =? DEVICE_ID then VIRTIO_NET_DEVICE_ID
    else if word =? VENDOR_ID then VENDOR_ID_RISH
    else if word =? DEVICE_FEATURES then device_feature_word d
    else if word =? QUEUE_NUM_MAX then QUEUE_NUM_MAX_VALUE
    else if word =? QUEUE_NUM then q_size (queues d !!! selected d)
    else if word =? QUEUE_READY then Z.b2z (queue_ready d !!! selected d)
    else if word =? INTERRUPT_STATUS then irq_status d
    else if word =? STATUS then status d
    else if word =? CONFIG_GENERATION then 0
    else if word >=? CONFIG_SPACE then config_word word d
    else 0 in
  value ≫ ((offset .& 3) * 8).

Definition reset (d : VirtioMmioNet) : VirtioMmioNet :=
  mkNet (net_reset (backend d)) (mac d) 0 (device_feature_sel d) 0 [0; 0] 0 0
    [QueueLayout_default; QueueLayout_default] [false; false] [false; false] [0; 0] 0 []
    (rx_dropped d) (tx_dropped d) (notify_count d) (tx_drained d) (rx_drained d)
    (last_backend_poll d) (fault d).

(** An update of the selected queue's layout. *)
Definition on_queue (f : QueueLayout → QueueLayout) (d : VirtioMmioNet) : VirtioMmioNet :=
  d <| queues ::= alter f (selected d) |>.

Definition mmio_write (offset value : Z) (d : VirtioMmioNet) : VirtioMmioNet :=
  let word := offset .&~ 3 in
  if word =? DEVICE_FEATURES_SEL then d <| device_feature_sel := value |>
  else if word =? DRIVER_FEATURES_SEL then d <| driver_feature_sel := value |>
  else if word =? DRIVER_FEATURES then
    if driver_feature_sel d =? 0 then d <| driver_features ::= λ fs, <[0%nat := value]> fs |>
    else if driver_feature_sel d =? 1 then d <| driver_features ::= λ fs, <[1%nat := value]> fs |>
    else d
  else if word =? QUEUE_SEL then
    if value <? QUEUE_COUNT then d <| queue_sel := value |> else d
  else if word =? QUEUE_NUM then
    if negb (queue_ready d !!! selected d) then
      on_queue (λ q, q <| q_size :=
        if (value >? 0) && (value <=? QUEUE_NUM_MAX_VALUE) then wrap 16 value else 0 |>) d
    else d
  else if word =? QUEUE_READY then
    if value =? 0 then
      d <| queue_ready ::= λ l, <[selected d := false]> l |>
        <| last_seen_avail ::= λ l, <[selected d := 0]> l |>
    else if (value =? 1) && (q_size (queues d !!! selected d) >? 0)
    then d <| queue_ready ::= λ l, <[selected d := true]> l |>
    else d
  else if word =? QUEUE_NOTIFY then
    if (value <? QUEUE_COUNT) && (queue_ready d !!! Z.to_nat value) then
      d <| kick_pending ::= λ l, <[Z.to_nat value := true]> l |>
        <| notify_count ::= λ n, saturating_add 64 n 1 |>
    else d
  else if word =? INTERRUPT_ACK then d <| irq_status ::= λ s, s .&~ value |>
  else if word =? STATUS then
    if value =? 0 then reset d
    else
      let d := d <| status := value |> in
      if has value STATUS_FEATURES_OK then
        let driver := (driver_features d !!! 1%nat ≪ 32) .| driver_features d !!! 0%nat in
        d <| negotiated_features := OFFERED_FEATURES .& driver |>
      else d
  else if word =? QUEUE_DESC_LOW then on_queue (λ q, q <| q_desc ::= λ a, merge_low a value |>) d
  else if word =? QUEUE_DESC_HIGH then on_queue (λ q, q <| q_desc ::= λ a, merge_high a value |>) d
  else if word =? QUEUE_AVAIL_LOW then on_queue (λ q, q <| q_avail ::= λ a, merge_low a value |>) d
  else if word =? QUEUE_AVAIL_HIGH then on_queue (λ q, q <| q_avail ::= λ a, merge_high a value |>) d
  else if word =? QUEUE_USED_LOW then on_queue (λ q, q <| q_used ::= λ a, merge_low a value |>) d
  else if word =? QUEUE_USED_HIGH then on_queue (λ q, q <| q_used ::= λ a, merge_high a value |>) d
  else d.

(** ** Data movement *)

Context {M : Type} `{GuestMemory M}.
Abbreviation io := (st (M * VirtioMmioNet) VirtioError).

Definition io_device : io VirtioMmioNet := λ s, (Ok s.2, s).
Definition io_modify (f : VirtioMmioNet → VirtioMmioNet) : io () := λ '(m, d), (Ok (), (m, f d)).

(** The [for] loop of [process_tx]: the frame buffer and the bytes written. *)
Fixpoint tx_gather (index : nat) (ds : list Descriptor) (frame_len : Z) (frame : list Z)
    (written : Z) : io (list Z * Z) :=
  match ds with
  | [] => sret (frame, written)
  | d :: ds =>
      let start := if (index =? 0)%nat then Z.min VIRTIO_NET_HDR_BYTES (d_length d) else 0 in
      let step := Z.min (saturating_sub (d_length d) start) (frame_len - written) in
      if step >? 0 then
        let! bytes := guest_read (d_address d + start) step in
        tx_gather (S index) ds frame_len (splice frame written bytes) (written + step)
      else tx_gather (S index) ds frame_len frame written
  end.

(** [u32::try_from(n).unwrap_or(u32::MAX)] *)
Definition clamp_u32 (n : Z) : Z := if n <? 2 ^ 32 then n else 2 ^ 32 - 1.

Definition process_tx (head : Z) : io Z :=
  let! d := io_device in
  let! descriptors :=
    on_mem (sread (validated_chain (queues d !!! QUEUE_TX) head (Z.to_nat MAX_CHAIN_DESCRIPTORS))) in
  if (length descriptors =? 0)%nat then sfail (BadQueue "transmit chain is empty")
  else
    let! _ := sread (λ _, require_all_device_readable descriptors) in
    let total := total_bytes descriptors in
    let first := descriptors !!! 0%nat in
    let split_header := (2 <=? length descriptors)%nat && (d_length first =? VIRTIO_NET_HDR_BYTES) in
    if negb (split_header || (d_length first >? VIRTIO_NET_HDR_BYTES))
    then sfail (BadQueue "transmit buffer is smaller than the virtio_net_hdr")
    else
      let frame_bytes := total - VIRTIO_NET_HDR_BYTES in
      if frame_bytes >? MAX_FRAME_BYTES then
        let! _ := io_modify (λ d, d <| tx_dropped ::= λ n, saturating_add 64 n 1 |>) in
        sret (clamp_u32 total)
      else
        let! _ := guest_read (d_address first) VIRTIO_NET_HDR_BYTES in
        let! (frame, written) :=
          tx_gather 0 descriptors frame_bytes (replicate (Z.to_nat frame_bytes) 0) 0 in
        if negb (written =? frame_bytes)
        then sfail (BadQueue "transmit chain does not cover the advertised frame length")
        else
          let! _ :=
            if frame_bytes >? 0
            then io_modify (λ d, d <| backend ::= enqueue frame |>)
            else io_modify (λ d, d <| tx_dropped ::= λ n, saturating_add 64 n 1 |>) in
          sret (wrap 32 total).

(** The [for] loop of [process_rx]; [offset] of [bytes] are written. *)
Fixpoint rx_scatter (ds : list Descriptor) (bytes : list Z) (offset : Z) : io () :=
  match ds with
  | [] => sret ()
  | d :: ds =>
      let remaining := len bytes - offset in
      if remaining =? 0 then sret ()
      else
        let step := Z.min remaining (d_length d) in
        let! _ := guest_write (d_address d) (slice bytes offset step) in
        rx_scatter ds bytes (offset + step)
  end.

Definition process_rx (head : Z) (frame : list Z) : io Z :=
  let! d := io_device in
  let! descriptors :=
    on_mem (sread (validated_chain (queues d !!! QUEUE_RX) head (Z.to_nat MAX_CHAIN_DESCRIPTORS))) in
  if (length descriptors =? 0)%nat then sfail (BadQueue "receive chain is empty")
  else
    let! _ := sread (λ _, require_all_device_writable descriptors) in
    let capacity := total_bytes descriptors in
    if capacity <? VIRTIO_NET_HDR_BYTES
    then sfail (BadQueue "receive buffer is smaller than the virtio_net_hdr")
    else
      let payload_capacity := capacity - VIRTIO_NET_HDR_BYTES in
      if (len frame >? payload_capacity) || (len frame >? MAX_FRAME_BYTES) then
        let! _ := io_modify (λ d, d <| rx_dropped ::= λ n, saturating_add 64 n 1 |>) in
        sret 0
      else
        let! _ := rx_scatter descriptors (replicate (Z.to_nat VIRTIO_NET_HDR_BYTES) 0 ++ frame) 0 in
        sret (wrap 32 (VIRTIO_NET_HDR_BYTES + len frame)).

(** ** Servicing *)

Definition drain_tx : io bool := λ '(m, d),
  match drain_available (queues d !!! QUEUE_TX) (last_seen_avail d !!! QUEUE_TX) process_tx (m, d) with
  | (Err e, _, s) => (Err e, s)
  | (Ok completed, last_seen, (m, d)) =>
      (Ok (completed >? 0),
       (m, d <| last_seen_avail ::= λ l, <[QUEUE_TX := last_seen]> l |>
             <| tx_drained ::= λ n, saturating_add 64 n completed |>))
  end.

(** The [for] loop of [drain_rx] over the remaining [batch]. *)
Fixpoint rx_loop (batch : nat) (q : QueueLayout) (completed : Z) : io Z :=
  match batch with
  | O => sret completed
  | S batch =>
      let! d := io_device in
      match rx_backlog d with
      | [] => sret completed
      | frame :: backlog =>
          let! avail := on_mem (sread (avail_index q)) in
          let seen := last_seen_avail d !!! QUEUE_RX in
          if seen =? avail then sret completed
          else
            let! _ := sread (λ _, avail_delta seen avail (q_size q)) in
            let! head := on_mem (sread (avail_head q seen)) in
            let! _ := io_modify (λ d, d <| rx_backlog := backlog |>) in
            let! length := process_rx head frame in
            let! index := on_mem (sread (used_index q)) in
            let! _ := on_mem (write_used q index head length) in
            let! _ := io_modify (λ d,
              d <| last_seen_avail ::= λ l, <[QUEUE_RX := wrapping_add 16 (l !!! QUEUE_RX) 1]> l |>
                <| rx_drained ::= λ n, saturating_add 64 n 1 |>) in
            rx_loop batch q (completed + 1)
      end
  end.

Definition drain_rx : io bool :=
  let! d := io_device in
  let q := queues d !!! QUEUE_RX in
  let! _ := on_mem (sread (λ m, validate q (ram_bytes m))) in
  let! completed := rx_loop RX_BATCH_PER_POLL q 0 in
  sret (completed >? 0).

(** One frame from the backend joins the backlog, the oldest making room. *)
Definition push_backlog (d : VirtioMmioNet) (frame : list Z) : VirtioMmioNet :=
  let d := if len (rx_backlog d) >=? RX_BACKLOG_CAP
           then d <| rx_backlog ::= tail |> <| rx_dropped ::= λ n, saturating_add 64 n 1 |>
           else d in
  d <| rx_backlog ::= λ l, l ++ [frame] |>.

Definition poll_backend (now : Z) (d : VirtioMmioNet) : VirtioMmioNet :=
  if saturating_sub now (last_backend_poll d) >=? BACKEND_POLL_INTERVAL then
    let '(frames, b) := net_poll (backend d) in
    foldl push_backlog (d <| last_backend_poll := now |> <| backend := b |>) frames
  else d.

Definition poll_inner (now : Z) : io bool :=
  let! d := io_device in
  let! sent :=
    if (kick_pending d !!! QUEUE_TX : bool) then
      let! _ := io_modify (λ d, d <| kick_pending ::= λ l, <[QUEUE_TX := false]> l |>) in
      if (queue_ready d !!! QUEUE_TX) && (q_size (queues d !!! QUEUE_TX) >? 0) then drain_tx
      else sret false
    else sret false in
  let! _ := io_modify (poll_backend now) in
  let! d := io_device in
  if (queue_ready d !!! QUEUE_RX) && (q_size (queues d !!! QUEUE_RX) >? 0) then
    let! received := drain_rx in sret (sent || received)
  else sret sent.

Definition poll (now : Z) (m : M) (d : VirtioMmioNet) : bool * (M * VirtioMmioNet) :=
  if bool_decide (is_Some (fault d)) then (false, (m, d))
  else
    match poll_inner now (m, d) with
    | (Ok true, (m, d)) => (true, (m, d <| irq_status ::= λ s, s .| INTERRUPT_USED_RING |>))
    | (Ok false, s) => (false, s)
    | (Err error, (m, d)) => (false, (m, d <| fault := Some error |>))
    end.

(** ** Every change of memory is a store *)

Section stores.
Context (m0 : M).
Abbreviation J := (stores_from (P := VirtioMmioNet) m0).

Lemma net_device_stores : keeps J io_device.
Proof. by intros s. Qed.
Lemma net_modify_stores f : keeps J (io_modify f).
Proof. by intros [m d]. Qed.
#[local] Hint Resolve net_device_stores net_modify_stores : keeps.

Lemma tx_gather_stores i ds frame_len frame written : keeps J (tx_gather i ds frame_len frame written).
Proof.
  revert i frame written. induction ds as [|d ds IH]; intros i frame written; cbn [tx_gather]; keep.
Qed.
Lemma rx_scatter_stores ds bytes offset : keeps J (rx_scatter ds bytes offset).
Proof. revert offset. induction ds as [|d ds IH]; intros offset; cbn [rx_scatter]; keep. Qed.
#[local] Hint Resolve tx_gather_stores rx_scatter_stores : keeps.

Lemma process_tx_stores head : keeps J (process_tx head).
Proof. unfold process_tx. keep. Qed.
Lemma process_rx_stores head frame : keeps J (process_rx head frame).
Proof. unfold process_rx. keep. Qed.
#[local] Hint Resolve process_rx_stores : keeps.

Lemma rx_loop_stores batch q c : keeps J (rx_loop batch q c).
Proof. revert c. induction batch as [|batch IH]; intros c; cbn [rx_loop]; keep. Qed.
#[local] Hint Resolve rx_loop_stores : keeps.

Lemma drain_rx_stores : keeps J drain_rx.
Proof. unfold drain_rx. keep. Qed.
Lemma drain_tx_stores : keeps J drain_tx.
Proof.
  intros [m d] Hm. unfold drain_tx.
  pose proof (drain_available_stores m0 (queues d !!! QUEUE_TX) (last_seen_avail d !!! QUEUE_TX)
    process_tx (m, d) process_tx_stores Hm) as Hk.
  by destruct (drain_available _ _ _ _) as [[[c|e] l] [m' d']].
Qed.
#[local] Hint Resolve drain_rx_stores drain_tx_stores : keeps.

Lemma poll_inner_stores now : keeps J (poll_inner now).
Proof. unfold poll_inner. keep. Qed.

Lemma poll_stores now d : stores_from m0 (poll now m0 d).2.
Proof.
  unfold poll. case_match; [apply rtc_refl|].
  pose proof (poll_inner_stores now (m0, d) (rtc_refl _ _)) as Hk.
  by destruct (poll_inner now (m0, d)) as [[[]|] [m d']].
Qed.
End stores.

End device.

(** ** Transmit *)

Section correctness.
Context {B : Type} `{NetBackend B} {M : Type} `{GuestMemoryLaws M}.
Implicit Types (m : M) (d : VirtioMmioNet (B := B)).

(** The chains the transmit path accepts: readable buffers in RAM with the
    header in a descriptor of its own or at the start of the first one. *)
Record tx_chain (q : QueueLayout) (head : Z) (m : M) (first : Descriptor)
    (rest : list Descriptor) : Prop := mk_tx_chain {
  tc_chain : chain q m head (first :: rest);
  tc_ram : Forall (in_ram m) (first :: rest);
  tc_length : (length (first :: rest) ≤ 64)%nat;
  tc_readable : Forall (λ ds, device_writable ds = false) (first :: rest);
  tc_header : 12 < d_length first ∨ (d_length first = 12 ∧ rest ≠ [])
}.

Lemma require_readable_iff ds :
  require_all_device_readable ds = Ok () ↔ Forall (λ ds, device_writable ds = false) ds.
Proof.
  induction ds as [|d ds IH]; simpl; [done|]. rewrite Forall_cons.
  destruct (device_writable d); naive_solver.
Qed.

Lemma require_writable_iff ds :
  require_all_device_writable ds = Ok () ↔ Forall (λ ds, device_writable ds = true) ds.
Proof.
  induction ds as [|d ds IH]; simpl; [done|]. rewrite Forall_cons.
  destruct (device_writable d); naive_solver.
Qed.

Lemma tx_gather_rest i ds frame_len frame written m d :
  mem_ok m → Forall (buffer_ok (len (contents m))) ds → len frame = frame_len →
  0 ≤ written → written + total_bytes ds = frame_len →
  tx_gather (S i) ds frame_len frame written (m, d)
    = (Ok (splice frame written (gather (contents m) ds), frame_len), (m, d)).
Proof.
  intros Hm Hds. revert i frame written.
  induction Hds as [|ds data [Ha Hl He] Hds IH]; intros i frame written Hlen Hw Ht.
  { unfold total_bytes in Ht. simpl in *. unfold sret, gather. simpl. rewrite splice_nil.
    by replace written with frame_len by lia. }
  pose proof (total_bytes_nonneg _ _ Hds). unfold word in Hl.
  assert (total_bytes (ds :: data) = d_length ds + total_bytes data) as E by done. rewrite E in Ht.
  cbn [tx_gather Nat.eqb]. unfold saturating_sub. rewrite Z.sub_0_r, Z.max_r, Z.min_l by lia.
  unfold gather. rewrite bind_cons. fold (gather (contents m) data).
  destruct (Z.gtb_spec (d_length ds) 0) as [Hpos|].
  - unfold sbind. rewrite Z.add_0_r, guest_read_in by (done || lia).
    rewrite IH by (rewrite ?len_splice; lia).
    pose proof (len_slice (contents m) (d_address ds) (d_length ds) ltac:(lia) ltac:(lia) He) as Es.
    pose proof (splice_adjacent frame written (slice (contents m) (d_address ds) (d_length ds))
      (gather (contents m) data) Hw) as Ea.
    rewrite Es, len_gather in Ea by done. rewrite Ea by lia. done.
  - replace (d_length ds) with 0 by lia. rewrite slice_0. simpl. apply IH; lia.
Qed.

Lemma drop_slice {A} (l : list A) s n k :
  0 ≤ s → 0 ≤ k ≤ n → drop (Z.to_nat k) (slice l s n) = slice l (s + k) (n - k).
Proof.
  intros. unfold slice.
  replace (Z.to_nat n) with (Z.to_nat k + Z.to_nat (n - k))%nat by lia.
  rewrite <- take_drop_commute, drop_drop. do 2 f_equal. lia.
Qed.

Lemma splice_all {A} (l k : list A) : len k = len l → splice l 0 k = k.
Proof.
  intros Hl. apply list_eq. intros i. rewrite lookup_splice by lia. case_decide.
  - f_equal. lia.
  - unfold len in *. rewrite !lookup_ge_None_2 by lia. done.
Qed.

(** The frame is the chain's bytes after the header. *)
Lemma tx_gather_all first rest m d :
  mem_ok m → Forall (buffer_ok (len (contents m))) (first :: rest) → 12 ≤ d_length first →
  let total := total_bytes (first :: rest) in
  tx_gather 0 (first :: rest) (total - 12) (replicate (Z.to_nat (total - 12)) 0) 0 (m, d)
    = (Ok (drop 12 (gather (contents m) (first :: rest)), total - 12), (m, d)).
Proof.
  intros Hm [[Ha Hl He] Hds]%Forall_cons H12 total. unfold word in Hl.
  pose proof (total_bytes_nonneg _ _ Hds).
  assert (total = d_length first + total_bytes rest) as Et by done.
  assert (drop 12 (gather (contents m) (first :: rest)) =
    slice (contents m) (d_address first + 12) (d_length first - 12) ++ gather (contents m) rest) as ->.
  { unfold gather. rewrite bind_cons. fold (gather (contents m) rest).
    rewrite drop_app_le by (pose proof (len_slice (contents m) (d_address first) (d_length first));
      unfold len in *; lia). f_equal. apply (drop_slice _ _ _ 12); lia. }
  cbn [tx_gather Nat.eqb]. unfold VIRTIO_NET_HDR_BYTES, saturating_sub.
  rewrite (Z.min_l 12), Z.max_r, Z.min_l by lia. clearbody total. subst total.
  assert (∀ n, 0 ≤ n → len (replicate (Z.to_nat n) 0) = n) as Hr
    by (intros; unfold len; rewrite length_replicate; lia).
  destruct (Z.gtb_spec (d_length first - 12) 0) as [Hpos|].
  - unfold sbind. rewrite guest_read_in by (done || lia).
    rewrite tx_gather_rest; [|done..|rewrite len_splice, Hr; lia|lia|lia].
    assert (len (slice (contents m) (d_address first + 12) (d_length first - 12))
      = d_length first - 12) as Es by (apply len_slice; lia).
    pose proof (splice_adjacent (replicate (Z.to_nat (d_length first + total_bytes rest - 12)) 0) 0
      (slice (contents m) (d_address first + 12) (d_length first - 12)) (gather (contents m) rest)) as E.
    rewrite Es, Hr, len_gather in E by (done || lia). rewrite E by lia.
    rewrite splice_all; [done|]. rewrite len_app, Es, Hr, len_gather by (done || lia). lia.
  - replace (d_length first) with 12 in * by lia. rewrite slice_0. simpl.
    rewrite tx_gather_rest; [|done..|rewrite Hr; lia|lia|lia].
    rewrite splice_all; [done|]. rewrite Hr, len_gather by (done || lia). lia.
Qed.

Lemma tx_chain_validated q head m first rest :
  mem_ok m → layout_ok q → rings_in q m → 0 ≤ head → tx_chain q head m first rest →
  validated_chain q head (Z.to_nat MAX_CHAIN_DESCRIPTORS) m = Ok (first :: rest) ∧
  Forall (buffer_ok (len (contents m))) (first :: rest).
Proof.
  intros Hm Hq Hin Hh [Hc Hr Hl _ _]. split; [by apply validated_chain_iff|].
  by eapply chain_buffers.
Qed.

(** transmission hands on the payload. For every accepted chain, whatever
    its shape, the backend receives exactly the chain's bytes after the 12-byte
    header as one frame; an empty frame or one above 1514 bytes is counted as
    dropped and the backend does not see it. Guest memory is never changed, and
    the used ring is told the chain's length. *)
Theorem tx_forwards_payload head m d first rest :
  mem_ok m → layout_ok (queues d !!! QUEUE_TX) → rings_in (queues d !!! QUEUE_TX) m →
  0 ≤ head → tx_chain (queues d !!! QUEUE_TX) head m first rest →
  let total := total_bytes (first :: rest) in
  let dropped := d <| tx_dropped ::= λ n, saturating_add 64 n 1 |> in
  let payload := drop 12 (gather (contents m) (first :: rest)) in
  process_tx head (m, d) =
    if total - 12 >? MAX_FRAME_BYTES then (Ok (clamp_u32 total), (m, dropped))
    else if total =? 12 then (Ok total, (m, dropped))
    else (Ok total, (m, d <| backend ::= enqueue payload |>)).
Proof.
  intros Hm Hq Hin Hh Htx total dropped payload.
  destruct (tx_chain_validated _ _ _ _ _ Hm Hq Hin Hh Htx) as [Ev Hb].
  destruct Htx as [_ _ _ Hrd Hhdr].
  pose proof Hb as [[Ha Hl He] Hrest]%Forall_cons. pose proof (total_bytes_nonneg _ _ Hrest).
  assert (total = d_length first + total_bytes rest) as Et by done.
  unfold process_tx. unfold sbind at 1, io_device at 1. cbn [snd].
  unfold sbind at 1, on_mem, sread at 1. rewrite Ev. cbn [length Nat.eqb].
  unfold sbind at 1, sread. rewrite (proj2 (require_readable_iff _) Hrd).
  change ((first :: rest) !!! 0%nat) with first.
  match goal with |- context [if negb ?c then _ else _] => assert (c = true) as -> end.
  { unfold VIRTIO_NET_HDR_BYTES. apply orb_true_iff. destruct Hhdr as [|[? Hne]]; [right; lia|left].
    destruct rest; [done|]. simpl. lia. }
  fold total. cbn [negb]. unfold VIRTIO_NET_HDR_BYTES at 1 2 3 4.
  destruct (Z.gtb_spec (total - 12) MAX_FRAME_BYTES) as [|Hsmall]; [done|].
  unfold sbind at 1. rewrite guest_read_in by (done || (unfold word in *; lia)).
  unfold sbind at 1. unfold total at 1 2. rewrite tx_gather_all by (done || lia). fold total payload.
  unfold VIRTIO_NET_HDR_BYTES, MAX_FRAME_BYTES in *. rewrite Z.eqb_refl. cbn [negb].
  rewrite wrap_small by (unfold word in *; lia).
  destruct (Z.eqb_spec total 12) as [E|]; destruct (Z.gtb_spec (total - 12) 0); try lia; done.
Qed.

(** ** Receive *)

Definition covers_at (i : nat) (ds : Descriptor) : Prop :=
  d_address ds ≤ Z.of_nat i < d_address ds + d_length ds.
Definition apart (ds ds' : Descriptor) : Prop :=
  d_address ds + d_length ds ≤ d_address ds' ∨ d_address ds' + d_length ds' ≤ d_address ds.
Fixpoint disjoint_buffers (ds : list Descriptor) : Prop :=
  match ds with
  | [] => True
  | d :: ds => Forall (apart d) ds ∧ disjoint_buffers ds
  end.

(** Buffers read the same in memories that agree on them. *)
Lemma slice_ext (l k : list Z) s n :
  0 ≤ s → (∀ i : nat, s ≤ Z.of_nat i < s + n → l !! i = k !! i) → slice l s n = slice k s n.
Proof.
  intros Hs E. apply list_eq. intros i. destruct (decide (Z.of_nat i < n)).
  - rewrite !lookup_slice by lia. apply E. lia.
  - unfold slice. rewrite !lookup_ge_None_2; [done|rewrite length_take; lia..].
Qed.

Lemma gather_ext n (l k : list Z) ds :
  Forall (buffer_ok n) ds →
  (∀ i : nat, Exists (covers_at i) ds → l !! i = k !! i) → gather l ds = gather k ds.
Proof.
  unfold gather. induction 1 as [|d ds [Ha _ _] _ IH]; intros E; [done|].
  rewrite !bind_cons. f_equal.
  - apply slice_ext; [done|]. intros i Hi. apply E. by left.
  - apply IH. intros i Hi. apply E. by right.
Qed.

Lemma apart_covers ds0 ds i : Forall (apart ds0) ds → covers_at i ds0 → ¬ Exists (covers_at i) ds.
Proof.
  intros Hap Hc He. apply Exists_exists in He as (d' & Hin & Hc').
  rewrite Forall_forall in Hap. destruct (Hap d' Hin); unfold covers_at in *; lia.
Qed.

(** The chain as one stream: [r] of its bytes are replaced. *)
Lemma stream_write (bytes mem rest : list Z) a n offset r :
  let step := Z.min r n in
  0 ≤ a → 0 ≤ n → a + n ≤ len mem → 0 ≤ offset → 0 ≤ r → offset + r ≤ len bytes →
  slice (splice mem a (slice bytes offset step)) a n ++
    (slice bytes (offset + step) (r - step) ++ drop (Z.to_nat (r - step)) rest)
  = slice bytes offset r ++ drop (Z.to_nat r) (slice mem a n ++ rest).
Proof.
  intros step Ha Hn Hle Ho Hr Hb. subst step.
  assert (len (slice bytes offset (Z.min r n)) = Z.min r n) as Es by (apply len_slice; lia).
  replace n with (Z.min r n + (n - Z.min r n)) at 2 by lia. rewrite slice_add by lia.
  rewrite <- Es at 2. rewrite slice_splice by lia.
  rewrite slice_splice_disjoint by lia.
  pose proof (len_slice mem a n Ha Hn Hle) as Em.
  destruct (Z.min_spec r n) as [[? ->]|[? ->]].
  - rewrite Z.sub_diag, slice_0, drop_0. cbn [app]. rewrite drop_app_le by (unfold len in *; lia).
    by rewrite drop_slice, <- app_assoc by lia.
  - rewrite Z.sub_diag, slice_0, app_nil_r, app_assoc, <- slice_add by lia.
    rewrite drop_app_ge by (unfold len in *; lia). f_equal; f_equal; unfold len in *; lia.
Qed.

Lemma rx_scatter_spec ds bytes offset m d :
  mem_ok m → Forall (buffer_ok (len (contents m))) ds → disjoint_buffers ds →
  Forall (word 8) bytes → 0 ≤ offset ≤ len bytes → len bytes - offset ≤ total_bytes ds →
  ∃ m', rx_scatter ds bytes offset (m, d) = (Ok (), (m', d)) ∧ mem_ok m' ∧
    len (contents m') = len (contents m) ∧
    gather (contents m') ds = slice bytes offset (len bytes - offset) ++
      drop (Z.to_nat (len bytes - offset)) (gather (contents m) ds) ∧
    ∀ i, ¬ Exists (covers_at i) ds → contents m' !! i = contents m !! i.
Proof.
  revert offset m. induction ds as [|ds data IH]; intros offset m Hm Hbuf Hdis Hbs Hoff Ht.
  { unfold total_bytes in Ht. simpl in Ht. exists m. replace (len bytes - offset) with 0 by lia. done. }
  cbn [rx_scatter]. destruct (Z.eqb_spec (len bytes - offset) 0) as [->|Hne]; [by exists m|].
  pose proof Hbuf as [[Ha Hl He] Hdata]%Forall_cons. destruct Hdis as [Hap Hdis]. unfold word in Hl.
  set (r := len bytes - offset) in *. set (step := Z.min r (d_length ds)).
  assert (len (slice bytes offset step) = step) as Es by (apply len_slice; lia).
  destruct (guest_write_in (d_address ds) (slice bytes offset step) m d) as (m1 & E1 & Hm1 & C1);
    [done|done|by apply Forall_slice|lia|]. unfold sbind. rewrite E1.
  assert (len (contents m1) = len (contents m)) as El by (by rewrite C1, len_splice).
  assert (total_bytes (ds :: data) = d_length ds + total_bytes data) as Et by done.
  pose proof (total_bytes_nonneg _ _ Hdata).
  destruct (IH (offset + step) m1) as (m2 & -> & Hm2 & El2 & G2 & F2); try done; [by rewrite El|lia..|].
  assert (∀ i, ¬ covers_at i ds → contents m1 !! i = contents m !! i) as F1.
  { intros i Hi. rewrite C1, lookup_splice by lia. rewrite decide_False; [done|].
    unfold covers_at in Hi. lia. }
  exists m2. split_and!; [done|done|congruence| |].
  - unfold gather at 1. rewrite bind_cons. fold (gather (contents m2) data). rewrite G2.
    rewrite (gather_ext _ (contents m1) (contents m) data Hdata); last first.
    { intros i Hi. apply F1. intros Hc. by apply (apart_covers ds data i). }
    rewrite (slice_ext _ (contents m1)); [|done|by intros i Hi; apply F2, (apart_covers ds)].
    rewrite C1. replace (len bytes - (offset + step)) with (r - step) by lia.
    unfold gather at 2. rewrite bind_cons. fold (gather (contents m) data).
    apply stream_write; lia.
  - intros i Hi. rewrite Exists_cons in Hi. rewrite F2 by tauto. apply F1. tauto.
Qed.

(** The chains the receive path accepts. *)
Record rx_chain (q : QueueLayout) (head : Z) (m : M) (ds : list Descriptor) : Prop := mk_rx_chain {
  rc_chain : chain q m head ds;
  rc_ram : Forall (in_ram m) ds;
  rc_length : (length ds ≤ 64)%nat;
  rc_writable : Forall (λ ds, device_writable ds = true) ds;
  rc_header : 12 ≤ total_bytes ds
}.

Lemma rx_chain_served head frame m d ds :
  mem_ok m → layout_ok (queues d !!! QUEUE_RX) → rings_in (queues d !!! QUEUE_RX) m →
  0 ≤ head → rx_chain (queues d !!! QUEUE_RX) head m ds →
  process_rx head frame (m, d) =
    if (12 + len frame <=? total_bytes ds) && (len frame <=? MAX_FRAME_BYTES) then
      (let! _ := rx_scatter ds (replicate 12 0 ++ frame) 0 in sret (wrap 32 (12 + len frame))) (m, d)
    else (Ok 0, (m, d <| rx_dropped ::= λ n, saturating_add 64 n 1 |>)).
Proof.
  intros Hm Hq Hin Hh [Hc Hr Hl Hw Hhdr].
  assert (Ev : validated_chain (queues d !!! QUEUE_RX) head (Z.to_nat MAX_CHAIN_DESCRIPTORS) m = Ok ds)
    by (by apply validated_chain_iff).
  unfold process_rx. unfold sbind at 1, io_device. cbn [snd].
  unfold sbind at 1, on_mem, sread at 1. rewrite Ev.
  destruct (Nat.eqb_spec (length ds) 0); [by inversion Hc; subst|].
  unfold sbind at 1, sread. rewrite (proj2 (require_writable_iff _) Hw).
  unfold VIRTIO_NET_HDR_BYTES, MAX_FRAME_BYTES. rewrite (proj2 (Z.ltb_ge _ _)) by lia.
  set (fits := (12 + len frame <=? total_bytes ds) && (len frame <=? 1514)).
  assert ((len frame >? total_bytes ds - 12) || (len frame >? 1514) = negb fits) as -> by (subst fits; lia).
  by destruct fits.
Qed.

(** C38: reception is exact. When header and frame fit in the posted (disjoint)
    buffers, the chain read as one stream is afterwards the zero header, the
    frame, and whatever followed before, no byte outside the buffers has
    changed, and the used length is that of header and frame; a frame that does
    not fit, or exceeds 1514 bytes, is dropped whole: nothing is written, the
    drop is counted and the completion has length zero. *)
Theorem rx_delivers_frame head frame m d ds :
  mem_ok m → layout_ok (queues d !!! QUEUE_RX) → rings_in (queues d !!! QUEUE_RX) m →
  0 ≤ head → rx_chain (queues d !!! QUEUE_RX) head m ds → disjoint_buffers ds →
  Forall (word 8) frame →
  if (12 + len frame <=? total_bytes ds) && (len frame <=? MAX_FRAME_BYTES) then
    ∃ m', process_rx head frame (m, d) = (Ok (12 + len frame), (m', d)) ∧ mem_ok m' ∧
      gather (contents m') ds = replicate 12 0 ++ frame ++
        drop (12 + length frame) (gather (contents m) ds) ∧
      ∀ i, ¬ Exists (covers_at i) ds → contents m' !! i = contents m !! i
  else process_rx head frame (m, d) =
    (Ok 0, (m, d <| rx_dropped ::= λ n, saturating_add 64 n 1 |>)).
Proof.
  intros Hm Hq Hin Hh [Hc Hr Hl Hw Hhdr] Hdis Hframe.
  pose proof (chain_buffers _ _ _ _ Hm Hq Hin Hc Hr) as Hbuf.
  pose proof (len_nonneg frame) as Hpos.
  rewrite (rx_chain_served head frame m d ds) by done.
  destruct (_ && _) eqn:Hfits; [|done]. unfold MAX_FRAME_BYTES in Hfits.
  destruct (rx_scatter_spec ds (replicate 12 0 ++ frame) 0 m d) as (m' & E & Hm' & _ & G & F); try done.
  - apply Forall_app_2; [|done]. by apply Forall_replicate, word_const.
  - rewrite len_app. change (len (replicate 12 0)) with 12. lia.
  - unfold sbind. rewrite E. exists m'. split_and!; try done.
    + unfold sret. rewrite wrap_small by (unfold word; lia). done.
    + rewrite G, Z.sub_0_r, slice_0_all, <- app_assoc. do 3 f_equal. unfold len.
      rewrite Nat2Z.id, length_app. done.
Qed.

(** ** Frames in order *)

Lemma process_rx_backlog head frame m d :
  ∃ n, (process_rx head frame (m, d)).2.2 = d <| rx_dropped := n |>.
Proof.
  unfold process_rx, sbind at 1, io_device. cbn [snd]. unfold sbind at 1, on_mem, sread at 1.
  assert (∃ n, d = d <| rx_dropped := n |>) as Hd by (by exists (rx_dropped d); destruct d).
  destruct (validated_chain _ _ _ _) as [ds|]; [|done]. case_match; [done|].
  unfold sbind at 1, sread. destruct (require_all_device_writable ds); [|done].
  case_match; [done|]. case_match; [by eexists|].
  unfold sbind. generalize (replicate (Z.to_nat VIRTIO_NET_HDR_BYTES) 0 ++ frame) as bytes. intros bytes.
  assert (∀ offset m, (rx_scatter ds bytes offset (m, d)).2.2 = d) as Hsc.
  { clear -ds. induction ds as [|d0 ds IH]; intros offset m; [done|]. cbn [rx_scatter].
    case_match; [done|]. unfold sbind, guest_write, on_mem.
    destruct (supdate _ m) as [[]m']; [apply IH|done]. }
  specialize (Hsc 0 m). destruct (rx_scatter ds bytes 0 (m, d)) as [[] [m' d']]; simpl in *; by subst.
Qed.

(** What [k] deliveries do to backlog and ring position. *)
Definition advanced (k : nat) (d d' : VirtioMmioNet (B := B)) : Prop :=
  (k ≤ length (rx_backlog d))%nat ∧ rx_backlog d' = drop k (rx_backlog d) ∧
  length (last_seen_avail d') = 2%nat ∧
  last_seen_avail d' !!! QUEUE_RX = wrapping_add 16 (last_seen_avail d !!! QUEUE_RX) (Z.of_nat k).

Lemma rx_loop_in_order batch q c m d c' m' d' :
  length (last_seen_avail d) = 2%nat → word 16 (last_seen_avail d !!! QUEUE_RX) →
  rx_loop batch q c (m, d) = (Ok c', (m', d')) →
  ∃ k, (k ≤ batch)%nat ∧ c' = c + Z.of_nat k ∧ advanced k d d' ∧
    (k = batch ∨ rx_backlog d' = [] ∨ avail_index q m' = Ok (last_seen_avail d' !!! QUEUE_RX)).
Proof.
  assert (∀ d, length (last_seen_avail d) = 2%nat → word 16 (last_seen_avail d !!! QUEUE_RX) →
    advanced 0 d d) as H00.
  { intros d0 ? ?. unfold advanced. rewrite drop_0. split_and!; [lia|done|done|].
    unfold wrapping_add. rewrite Z.add_0_r, wrap_small; done. }
  revert c m d. induction batch as [|batch IH]; intros c m d Hl Hw E.
  { injection E as <- <- <-. exists 0%nat. split_and!; auto with lia. }
  revert E. cbn [rx_loop]. unfold sbind at 1, io_device at 1. cbn [snd].
  destruct (rx_backlog d) as [|frame backlog] eqn:Eb.
  { intros [= <- <- <-]. exists 0%nat. split_and!; auto with lia. }
  unfold sbind at 1, on_mem at 1, sread at 1.
  destruct (avail_index q m) as [avail|] eqn:Ea; [|done].
  destruct (Z.eqb_spec (last_seen_avail d !!! QUEUE_RX) avail) as [Eq|].
  { intros [= <- <- <-]. exists 0%nat. rewrite Ea, Eq. split_and!; auto with lia. }
  unfold sbind at 1, sread at 1. destruct (avail_delta _ _ _); [|done].
  unfold sbind at 1, on_mem at 1, sread at 1. destruct (avail_head _ _ m) as [head|]; [|done].
  unfold sbind at 1, io_modify at 1. set (d1 := d <| rx_backlog := backlog |>).
  unfold sbind at 1. destruct (process_rx_backlog head frame m d1) as [nd En].
  destruct (process_rx head frame (m, d1)) as [[l|] [m2 d2]]; [|done]. simpl in En. subst d2.
  unfold sbind at 1, on_mem at 1, sread. destruct (used_index q m2) as [i|]; [|done].
  unfold sbind at 1, on_mem at 1. destruct (write_used q i head l m2) as [[u|] m3]; [|done].
  unfold sbind at 1, io_modify. match goal with |- rx_loop _ _ _ (_, ?x) = _ → _ => set (d3 := x) end.
  intros E. assert (last_seen_avail d3 !!! QUEUE_RX = wrapping_add 16 (last_seen_avail d !!! QUEUE_RX) 1) as E3.
  { simpl. rewrite list_lookup_total_insert_eq; [done|]. unfold QUEUE_RX. lia. }
  apply IH in E as (k & Hk & Hc & (Hkl & Hb & Hl' & Hs) & Hstop);
    [|simpl; by rewrite length_insert|rewrite E3; by apply word_wrap].
  exists (S k). unfold advanced. rewrite Hs in Hstop. rewrite E3 in Hstop, Hs. rewrite Eb, Hs. simpl in Hkl, Hb.
  split_and!; [lia|lia|simpl; lia|done|done| |destruct Hstop as [->|]; [by left|by right]].
  unfold wrapping_add, wrap. rewrite Z.add_mod_idemp_l by done. f_equal. lia.
Qed.

(** frames reach the driver in order. A successful receive pass delivers
    the [k] oldest frames of the backlog, one per available slot starting at the
    last one seen, and removes exactly these; [k] is at most 32, and below
    that the pass stops only when the backlog or the ring is exhausted. The
    interrupt is requested exactly when something was delivered. *)
Theorem rx_pass_in_order m d completed m' d' :
  length (last_seen_avail d) = 2%nat → word 16 (last_seen_avail d !!! QUEUE_RX) →
  drain_rx (m, d) = (Ok completed, (m', d')) →
  ∃ k, (k ≤ 32)%nat ∧ completed = (0 <? Z.of_nat k) ∧ advanced k d d' ∧
    (k = 32%nat ∨ rx_backlog d' = [] ∨
     avail_index (queues d !!! QUEUE_RX) m' = Ok (last_seen_avail d' !!! QUEUE_RX)).
Proof.
  intros Hl Hw. unfold drain_rx, sbind at 1, io_device. cbn [snd].
  unfold sbind at 1, on_mem, sread. destruct (validate _ _); [|done]. unfold sbind.
  destruct (rx_loop _ _ 0 (m, d)) as [[c'|] [m1 d1]] eqn:E; [|done]. intros [= <- <- <-].
  apply rx_loop_in_order in E as (k & Hk & -> & Ha & Hs); [|done..].
  exists k. split_and!; try done. rewrite Z.gtb_ltb. f_equal.
Qed.

(** ** The device under any guest *)

(** What is asked of a backend: its frames are made of bytes. *)
Definition byte_frames : Prop := ∀ b : B, Forall (Forall (word 8)) (net_poll b).1.

Definition queue_ok (q : QueueLayout) : Prop := layout_ok q ∧ q_size q ≤ QUEUE_NUM_MAX_VALUE.
Record net_ok (d : VirtioMmioNet (B := B)) : Prop := mk_net_ok {
  nk_sel : 0 ≤ queue_sel d < QUEUE_COUNT;
  nk_queues : length (queues d) = 2%nat ∧ Forall queue_ok (queues d);
  nk_ready : length (queue_ready d) = 2%nat ∧
    ∀ i, queue_ready d !! i = Some true → 0 < q_size (queues d !!! i);
  nk_kick : length (kick_pending d) = 2%nat;
  nk_seen : length (last_seen_avail d) = 2%nat ∧ Forall (word 16) (last_seen_avail d);
  nk_driver : length (driver_features d) = 2%nat ∧ Forall (word 32) (driver_features d);
  nk_features : negotiated_features d .&~ OFFERED_FEATURES = 0;
  nk_backlog : len (rx_backlog d) ≤ RX_BACKLOG_CAP ∧ Forall (Forall (word 8)) (rx_backlog d)
}.

Lemma queue_at d i : net_ok d → (i < 2)%nat → queue_ok (queues d !!! i).
Proof.
  intros [] Hi. destruct nk_queues0 as [Hl Hf]. rewrite Forall_lookup in Hf.
  eapply Hf, list_lookup_lookup_total_lt. lia.
Qed.

Lemma net_new_ok now b : net_ok (new now b).
Proof.
  assert (queue_ok QueueLayout_default) by (split; [split; by apply word_const|done]).
  split; simpl; repeat split; try done; repeat constructor; try done.
  by intros [|[|]].
Qed.

Lemma reset_ok d : net_ok d → net_ok (reset d).
Proof. intros _. destruct (net_new_ok 0 (backend d)). by split. Qed.

(** Layout writes keep the size. *)
Lemma on_queue_ok f d :
  net_ok d → (∀ q, queue_ok q → queue_ok (f q)) →
  (∀ q, 0 < q_size q → 0 < q_size (f q) ∨ queue_ready d !! selected d ≠ Some true) →
  net_ok (on_queue f d).
Proof.
  intros [] Hf Hs. split; simpl; try done.
  - destruct nk_queues0. rewrite length_alter. split; [done|]. apply Forall_alter; auto.
  - destruct nk_ready0 as [Hl Hr], nk_queues0 as [Hl' _]. split; [done|]. intros i Hi.
    specialize (Hr i Hi). apply lookup_lt_Some in Hi as Hlt.
    destruct (decide (i = selected d)) as [->|Hne].
    + rewrite list_lookup_total_alter_eq by lia. by destruct (Hs _ Hr).
    + by rewrite list_lookup_total_alter_ne.
Qed.

Lemma word_merge_low a v : word 64 a → word 32 v → word 64 (merge_low a v).
Proof. intros. unfold merge_low. auto with words. Qed.
Lemma word_merge_high a v : word 64 a → word 32 v → word 64 (merge_high a v).
Proof.
  intros Ha Hv. unfold merge_high. assert (word 64 (v ≪ 32)).
  { unfold word in *. rewrite Z.shiftl_mul_pow2 by done. lia. }
  auto with words.
Qed.

Lemma layout_write_ok value d f :
  net_ok d → (∀ q, q_size (f q) = q_size q) → (∀ q, layout_ok q → layout_ok (f q)) →
  word 32 value → net_ok (on_queue f d).
Proof.
  intros Hd Hs Hl Hv. apply on_queue_ok; [done| |].
  - intros q []. split; [auto|by rewrite Hs].
  - intros q. rewrite Hs. by left.
Qed.

Lemma net_write_ok offset value d : word 32 value → net_ok d → net_ok (mmio_write offset value d).
Proof.
  intros Hv Hd. pose proof Hv as [Hv0 Hv1].
  assert (∀ f, (∀ q, q_size (f q) = q_size q) → (∀ q, layout_ok q → layout_ok (f q)) →
    net_ok (on_queue f d)) as Hlay by (intros; by eapply layout_write_ok).
  unfold mmio_write.
  repeat match goal with |- net_ok (if ?c then _ else _) => destruct c eqn:? end; try done;
    try (apply Hlay; [done|intros q []; split; simpl; auto using word_merge_low, word_merge_high]).
  all: try by apply reset_ok.
  all: destruct Hd; split; simpl; try done.
  - destruct nk_driver0. rewrite length_insert. split; [done|by apply Forall_insert].
  - destruct nk_driver0. rewrite length_insert. split; [done|by apply Forall_insert].
  - unfold QUEUE_COUNT in *. lia.
  - split; [rewrite length_alter; apply nk_queues0|]. apply Forall_alter; [apply nk_queues0|].
    intros q _ [[] ?]. unfold QUEUE_NUM_MAX_VALUE in *.
    assert (word 16 (if (value >? 0) && (value <=? 128) then wrap 16 value else 0)) by auto with words.
    split; [by split|]. simpl. unfold QUEUE_NUM_MAX_VALUE. case_match; [|lia]. rewrite wrap_small; [lia|unfold word; lia].
  - destruct nk_ready0 as [Hl Hr]. split; [done|]. intros i Hi.
    destruct (decide (i = selected d)) as [->|]; [|rewrite list_lookup_total_alter_ne; auto].
    rewrite list_lookup_total_alt, Hi in Heqb4. done.
  - destruct nk_ready0 as [Hl Hr]. rewrite length_insert. split; [done|]. intros i Hi.
    apply Hr. rewrite list_lookup_insert in Hi. by repeat case_decide.
  - destruct nk_seen0. rewrite length_insert. split; [done|apply Forall_insert; [done|by apply word_const]].
  - destruct nk_ready0 as [Hl Hr]. rewrite length_insert. split; [done|]. intros i Hi.
    rewrite list_lookup_insert in Hi. case_decide as Hc; [|by apply Hr].
    destruct Hc as [<- _]. lia.
  - by rewrite length_insert.
  - apply Z.bits_inj'. intros i Hi. rewrite Z.ldiff_spec, Z.land_spec, Z.bits_0.
    destruct (Z.testbit OFFERED_FEATURES i); [apply andb_false_r|done].
Qed.

(** The state while queue [j] is served: memory of [n] bytes holding its rings. *)
Definition serving (j : nat) (q : QueueLayout) (n : Z) (s : M * VirtioMmioNet (B := B)) : Prop :=
  mem_ok s.1 ∧ len (contents s.1) = n ∧ rings_in q s.1 ∧ net_ok s.2 ∧ queues s.2 !!! j = q.

Lemma keeps_device J : keeps J (io_device (B := B) (M := M)).
Proof. by intros s. Qed.
#[local] Hint Resolve keeps_device : keeps.

Lemma serving_modify j q n f :
  (∀ d, net_ok d → net_ok (f d) ∧ queues (f d) = queues d) → keeps (serving j q n) (io_modify f).
Proof.
  intros Hf [m d] (? & ? & ? & Hd & Hq). destruct (Hf d Hd) as [? E].
  unfold serving; simpl in *. by rewrite E.
Qed.

Lemma serving_write j q n a bs :
  word 64 a → Forall (word 8) bs → keeps (serving j q n) (guest_write a bs).
Proof.
  intros Ha Hbs [m d] (Hm & El & Hr & Hd). simpl in *. unfold guest_write, on_mem, supdate.
  destruct (decide (a + len bs ≤ len (contents m))).
  - destruct (mem_write_in m a bs) as (m' & -> & Hm' & C); [done|by eapply word_nonneg|done..|].
    assert (len (contents m') = n) as El' by (by rewrite C, len_splice).
    unfold serving; simpl. split_and!; try apply Hd; try done. eapply rings_in_len; [|done]. congruence.
  - rewrite mem_write_out by (done || lia). done.
Qed.

Lemma serving_chain_words j q n head limit m d ds :
  layout_ok q → 0 ≤ head → serving j q n (m, d) → validated_chain q head limit m = Ok ds →
  Forall (λ x, word 64 (d_address x) ∧ word 32 (d_length x)) ds.
Proof.
  intros Hq Hh (Hm & _ & Hr & _) Hv. simpl in *.
  apply validated_chain_iff in Hv as (Hc & _); [|done..]. by eapply chain_words.
Qed.

Lemma tx_gather_keeps J i ds frame_len frame written :
  keeps J (tx_gather (B := B) (M := M) i ds frame_len frame written).
Proof.
  revert i frame written. induction ds as [|d ds IH]; intros i frame written; simpl; [auto with keeps|].
  case_match; [|apply IH]. apply keeps_bind; [auto with keeps|]. intros. apply IH.
Qed.

Lemma drop_counted_ok d :
  net_ok d → net_ok (d <| tx_dropped ::= λ n, saturating_add 64 n 1 |>) ∧
             net_ok (d <| rx_dropped ::= λ n, saturating_add 64 n 1 |>).
Proof. intros []. by split; split. Qed.

Lemma process_tx_serving j q n head : keeps (serving j q n) (process_tx head).
Proof.
  unfold process_tx. keep.
  all: try apply tx_gather_keeps; apply serving_modify; intros d Hd; (split; [|done]).
  all: first [apply (drop_counted_ok d Hd)|by destruct Hd].
Qed.

Lemma rx_scatter_serving j q n ds bytes offset :
  Forall (λ x, word 64 (d_address x) ∧ word 32 (d_length x)) ds → Forall (word 8) bytes →
  keeps (serving j q n) (rx_scatter ds bytes offset).
Proof.
  intros Hds Hbs. revert offset. induction Hds as [|d ds [Ha _] _ IH]; intros offset; simpl; keep.
  by apply serving_write, Forall_slice.
Qed.

Lemma process_rx_serving q n head frame :
  layout_ok q → 0 ≤ head → Forall (word 8) frame →
  keeps (serving QUEUE_RX q n) (process_rx head frame).
Proof.
  intros Hq Hh Hf. unfold process_rx. keep.
  - apply serving_modify. intros d Hd. split; [apply (drop_counted_ok d Hd)|done].
  - apply rx_scatter_serving; [|apply Forall_app_2; [by apply Forall_replicate, word_const|done]].
    match goal with H : (io_device _).1 = Ok _ |- _ => injection H as <- end.
    match goal with H : serving _ _ _ (_, ?v), H' : context [queues ?v] |- _ =>
      pose proof H as (_ & _ & _ & _ & Eq); simpl in Eq, H'; rewrite Eq in H' end.
    match goal with Hs : serving _ _ _ (?m, _), Hv : validated_chain _ _ _ ?m = _ |- _ =>
      exact (serving_chain_words _ _ _ _ _ _ _ _ Hq Hh Hs Hv) end.
Qed.

Lemma write_used_serving j q n i id l :
  layout_ok q → keeps (serving j q n) (on_mem (write_used q i id l)).
Proof.
  intros Hq [m d] Hs. unfold on_mem.
  pose proof (write_used_inv (serving j q n) q Hq) as Hw.
  destruct (write_used q i id l m) as [r m'] eqn:E.
  assert (m' = (write_used q i id l m).2) as -> by (by rewrite E). apply Hw; [| |done].
  - by intros s (? & ? & ? & _).
  - intros m1 p a bs m2 (? & El & ? & ?) Hm2 C. simpl in *.
    assert (len (contents m2) = n) as El' by (by rewrite C, len_splice).
    unfold serving; simpl. split_and!; try done; [|tauto..]. eapply rings_in_len; [|done]. congruence.
Qed.

Lemma serving_head q n slot m d head :
  layout_ok q → serving QUEUE_RX q n (m, d) → avail_head q slot m = Ok head → 0 ≤ head.
Proof. intros Hq (Hm & _ & Hr & _). by apply avail_head_nonneg. Qed.

Lemma rx_loop_serving batch q n c :
  layout_ok q → keeps (serving QUEUE_RX q n) (rx_loop batch q c).
Proof.
  intros Hq. revert c. induction batch as [|batch IH]; intros c; cbn [rx_loop]; [auto with keeps|].
  apply keeps_bind; [auto with keeps|]. intros d [m d0] Hs [= <-].
  destruct Hs as (_ & _ & _ & Hd & _). pose proof (nk_backlog _ Hd) as [Hcap Hbytes]. simpl in *.
  destruct (rx_backlog d0) as [|frame backlog]; [auto with keeps|].
  apply Forall_cons in Hbytes as [Hframe Hbytes].
  apply keeps_bind; [auto with keeps|]. intros avail _ _ _. case_match; [auto with keeps|].
  apply keeps_bind; [auto with keeps|]. intros [] _ _ _.
  apply keeps_bind; [auto with keeps|]. intros head [m1 d1] Hs1 Eh. simpl in Eh.
  apply keeps_bind.
  { apply serving_modify. intros d2 []. split; [|done]. split; try done. split; [|done]. simpl.
    rewrite len_cons in Hcap. lia. }
  intros [] _ _ _.
  apply keeps_bind; [apply process_rx_serving; [done|by eapply serving_head|done]|]. intros l _ _ _.
  apply keeps_bind; [auto with keeps|]. intros i _ _ _.
  apply keeps_bind; [by apply write_used_serving|]. intros u _ _ _.
  apply keeps_bind; [|intros [] _ _ _; apply IH].
  apply serving_modify. intros d2 []. split; [|done]. split; try done. simpl.
  rewrite length_insert. split; [tauto|]. apply Forall_insert; [tauto|by apply word_wrap].
Qed.

(** The pass keeps memory and device well formed, from any well-formed state. *)
Definition sound (n : Z) (s : M * VirtioMmioNet (B := B)) : Prop :=
  mem_ok s.1 ∧ len (contents s.1) = n ∧ net_ok s.2.

Lemma serving_sound j q n s : serving j q n s → sound n s.
Proof. by intros (? & ? & _ & ? & _). Qed.

Lemma drain_rx_sound n : keeps (sound n) drain_rx.
Proof.
  intros [m d] (Hm & El & Hd). simpl in *. destruct (queue_at d QUEUE_RX Hd) as [Hq _]; [unfold QUEUE_RX; lia|].
  unfold drain_rx, sbind at 1, io_device. cbn [snd]. unfold sbind at 1, on_mem, sread.
  destruct (validate _ _) as [[]|] eqn:Ev; [|done]. apply validate_iff in Ev; [|done].
  apply (serving_sound QUEUE_RX (queues d !!! QUEUE_RX)).
  apply keeps_bind; [by apply rx_loop_serving|intros; auto with keeps|done].
Qed.

Lemma drain_tx_sound n : keeps (sound n) drain_tx.
Proof.
  intros [m d] (Hm & El & Hd). simpl in *. pose proof (nk_seen _ Hd) as [Hsl Hsw].
  destruct (queue_at d QUEUE_TX Hd) as [Hq _]; [unfold QUEUE_TX; lia|].
  set (q := queues d !!! QUEUE_TX) in *.
  assert (word 16 (last_seen_avail d !!! QUEUE_TX)) as Hls.
  { rewrite Forall_lookup in Hsw. eapply Hsw, list_lookup_lookup_total_lt. unfold QUEUE_TX. lia. }
  unfold drain_tx. fold q. destruct (validate q (ram_bytes m)) as [[]|e] eqn:Ev.
  2: { unfold drain_available. cbn [fst]. rewrite Ev. done. }
  apply validate_iff in Ev; [|done].
  destruct (drain_available_inv (serving QUEUE_TX q n) q process_tx Hq) with
    (last_seen := last_seen_avail d !!! QUEUE_TX) (s := (m, d)) as [Hs Hl]; [| | |done|done|].
  - by intros s (? & ? & ? & _).
  - intros m1 p a bs m2 (? & El1 & ? & ?) Hm2 C. simpl in *.
    assert (len (contents m2) = n) as El' by (by rewrite C, len_splice).
    unfold serving; simpl. split_and!; try done; [|tauto..]. eapply rings_in_len; [|done]. congruence.
  - intros head s Hs _. by apply process_tx_serving.
  - destruct (drain_available _ _ _ _) as [[[c|e] last_seen] [m' d']]; simpl in *;
      apply serving_sound in Hs as (? & ? & Hd'); [|done].
    unfold sound; simpl in *. split_and!; try done. destruct Hd'. split; try done. simpl.
    rewrite length_insert. split; [tauto|]. apply Forall_insert; tauto.
Qed.

#[local] Hint Resolve drain_tx_sound drain_rx_sound : keeps.

Lemma push_backlog_ok frames d :
  Forall (Forall (word 8)) frames → net_ok d → net_ok (foldl push_backlog d frames).
Proof.
  intros Hf. revert d. induction Hf as [|frame frames Hframe _ IH]; intros d Hd; [done|].
  cbn [foldl]. apply IH. destruct Hd. destruct nk_backlog0 as [Hcap Hb].
  unfold push_backlog. destruct (Z.geb_spec (len (rx_backlog d)) RX_BACKLOG_CAP) as [Hfull|];
    split; try done; simpl.
  - destruct (rx_backlog d) as [|f l]; [by vm_compute in Hfull|]. apply Forall_cons in Hb as [_ Hb].
    rewrite len_cons in Hcap. simpl. rewrite len_app. change (len [frame]) with 1.
    split; [lia|]. apply Forall_app_2; [done|by constructor].
  - rewrite len_app. change (len [frame]) with 1. unfold RX_BACKLOG_CAP in *.
    split; [lia|]. apply Forall_app_2; [done|by constructor].
Qed.

Lemma poll_backend_ok now d : byte_frames → net_ok d → net_ok (poll_backend now d).
Proof.
  intros Hbf Hd. unfold poll_backend. case_match; [|done]. pose proof (Hbf (backend d)) as Hf.
  destruct (net_poll (backend d)) as [frames b]. apply push_backlog_ok; [done|]. by destruct Hd.
Qed.

Lemma poll_sound now n s : byte_frames → sound n s → sound n (poll now s.1 s.2).2.
Proof.
  intros Hbf Hs. assert (sound n (poll_inner now s).2) as Hp.
  { revert s Hs. change (keeps (sound n) (poll_inner now)). unfold poll_inner.
    assert (∀ f, (∀ d, net_ok d → net_ok (f d)) → keeps (sound n) (io_modify f)) as Hmod.
    { intros f Hf [m d] (? & ? & ?). unfold sound; simpl in *. auto. }
    keep; apply Hmod; intros d Hd; try by apply poll_backend_ok.
    all: destruct Hd; split; try done; simpl; by rewrite length_insert. }
  unfold poll. case_match; [done|]. rewrite <- surjective_pairing.
  destruct (poll_inner now s) as [[[]|] [m d]]; destruct Hp as (? & ? & Hd); unfold sound; simpl in *;
    split_and!; try done; by destruct Hd.
Qed.

(** What can happen around the device. *)
Inductive net_step : M * VirtioMmioNet (B := B) → M * VirtioMmioNet (B := B) → Prop :=
  | net_write m d offset value : word 32 value → net_step (m, d) (m, mmio_write offset value d)
  | net_polled m d now : net_step (m, d) (poll now m d).2
  | net_guest m m' d : mem_ok m' → net_step (m, d) (m', d).

(** the network device under any guest. Whatever the driver writes,
    whenever the device is polled and however the guest changes its memory, the
    selected queue exists, queues have at most 128 entries and are only ready
    when non-empty, the negotiated features were offered, at most 128 frames
    wait in the backlog, and guest RAM stays a memory. *)
Theorem reachable_net_ok now0 b m0 m d :
  byte_frames → mem_ok m0 → rtc net_step (m0, new now0 b) (m, d) → mem_ok m ∧ net_ok d.
Proof.
  intros Hbf Hm0 Hr. change (mem_ok (m, d).1 ∧ net_ok (m, d).2).
  revert Hr. generalize (m, d). clear m d. intros s Hr. revert s Hr.
  apply (rtc_ind_r (λ s, mem_ok s.1 ∧ net_ok s.2)); [split; [done|apply net_new_ok]|].
  intros s1 s2 _ Hs. destruct Hs as [m d offset value Hv|m d now|m m' d Hm']; intros [Hm Hd]; simpl in *.
  - by split; [|apply net_write_ok].
  - destruct (poll_sound now (len (contents m)) (m, d) Hbf) as (? & _ & ?); done.
  - done.
Qed.
End correctness.

(** ** A recording backend and two-descriptor chains *)

(** Records what it is sent and offers one three-byte frame per poll. *)
Definition Recorder : Type := list (list Z).
#[export] Instance Recorder_backend : NetBackend Recorder :=
  mkNetBackend _ (λ _, [0x52; 0x54; 0; 0x12; 0x34; 0x56]) (λ frame b, b ++ [frame])
    (λ b, ([[7; 8; 9]], b)) (λ _, []).
Lemma demo_frame_bytes : Forall (word 8) [7; 8; 9].
Proof. by repeat (apply Forall_cons_2; [by apply word_const|]). Qed.
Lemma Recorder_bytes : byte_frames (B := Recorder).
Proof. intros b. apply Forall_singleton. exact demo_frame_bytes. Qed.

(** 12 header bytes at 200 and 20 payload bytes at 300, or two buffers of 10
    and 30 bytes to receive into. *)
Definition demo_chain (len0 flags0 len1 flags1 : Z) : SliceMemory :=
  let m := replicate 512 0 in
  let m := splice m 0
    (to_le_bytes 8 200 ++ to_le_bytes 4 len0 ++ to_le_bytes 2 flags0 ++ to_le_bytes 2 1) in
  let m := splice m 16
    (to_le_bytes 8 300 ++ to_le_bytes 4 len1 ++ to_le_bytes 2 flags1 ++ to_le_bytes 2 0) in
  let m := splice m 64 (to_le_bytes 2 0 ++ to_le_bytes 2 1 ++ to_le_bytes 2 0) in
  splice m 300 (to_le_bytes 8 0x1122334455667788).
Definition demo_net : VirtioMmioNet (B := Recorder) :=
  (new 0 ([] : Recorder)) <| queues := [demo_queue; demo_queue] |> <| queue_ready := [true; true] |>.

Lemma demo_chain_ok len0 flags0 len1 flags1 : mem_ok (demo_chain len0 flags0 len1 flags1).
Proof.
  assert (Forall (word 8) (replicate 512 0)) by (by apply Forall_replicate, word_const).
  split; [|unfold demo_chain; by rewrite !len_splice]. unfold demo_chain.
  repeat apply Forall_splice; repeat apply Forall_app_2; try done; by apply to_le_bytes_words.
Qed.
Lemma demo_chain_rings len0 flags0 len1 flags1 :
  rings_in demo_queue (demo_chain len0 flags0 len1 flags1).
Proof.
  assert (len (contents (demo_chain len0 flags0 len1 flags1)) = 512) as E
    by (unfold demo_chain; simpl; by rewrite !len_splice).
  split; by rewrite E.
Qed.
Lemma demo_chain_is l0 f0 l1 f1 ds :
  validated_chain demo_queue 0 64 (demo_chain l0 f0 l1 f1) = Ok ds →
  chain demo_queue (demo_chain l0 f0 l1 f1) 0 ds ∧ (length ds ≤ 64)%nat ∧
    Forall (in_ram (demo_chain l0 f0 l1 f1)) ds.
Proof.
  apply validated_chain_iff; [apply demo_chain_ok|apply demo_queue_ok|apply demo_chain_rings|lia].
Qed.

Definition demo_tx_ds : list Descriptor := [mkDescriptor 200 12 1; mkDescriptor 300 20 0].
Definition demo_rx_ds : list Descriptor := [mkDescriptor 200 10 3; mkDescriptor 300 30 2].

Lemma tx_forwards_payload_witness :
  process_tx 0 (demo_chain 12 1 20 0, demo_net) =
    (Ok 32, (demo_chain 12 1 20 0,
       demo_net <| backend := [to_le_bytes 8 0x1122334455667788 ++ replicate 12 0] |>)).
Proof.
  pose proof (tx_forwards_payload 0 (demo_chain 12 1 20 0) demo_net (mkDescriptor 200 12 1)
    [mkDescriptor 300 20 0] (demo_chain_ok _ _ _ _) demo_queue_ok (demo_chain_rings _ _ _ _)) as H.
  rewrite H; [vm_compute; reflexivity|lia|].
  destruct (demo_chain_is 12 1 20 0 demo_tx_ds) as (Hc & Hl & Hr); [vm_compute; reflexivity|].
  apply (mk_tx_chain _ _ _ _ _ Hc Hr Hl); [by repeat constructor|by right].
Defined.

Lemma rx_delivers_frame_witness :
  ∃ m', process_rx 0 [7; 8; 9] (demo_chain 10 3 30 2, demo_net) = (Ok 15, (m', demo_net)) ∧
    gather (contents m') demo_rx_ds = replicate 12 0 ++ [7; 8; 9] ++
      drop 15 (gather (demo_chain 10 3 30 2) demo_rx_ds).
Proof.
  pose proof (rx_delivers_frame 0 [7; 8; 9] (demo_chain 10 3 30 2) demo_net demo_rx_ds
    (demo_chain_ok _ _ _ _) demo_queue_ok (demo_chain_rings _ _ _ _)) as H.
  destruct H as (m' & E & _ & G & _).
  - lia.
  - destruct (demo_chain_is 10 3 30 2 demo_rx_ds) as (Hc & Hl & Hr); [vm_compute; reflexivity|].
    apply (mk_rx_chain _ _ _ _ Hc Hr Hl); [by repeat constructor|by vm_compute].
  - split; [|by split]. apply Forall_singleton. left. vm_compute. discriminate.
  - exact demo_frame_bytes.
  - exists m'. split; [exact E|exact G].
Defined.

(** Three frames wait, the ring has one slot. *)
Definition demo_backlog : VirtioMmioNet (B := Recorder) :=
  demo_net <| rx_backlog := [[7; 8; 9]; [1; 2]; [3]] |>.

Lemma rx_pass_in_order_witness :
  rx_backlog (drain_rx (demo_chain 10 3 30 2, demo_backlog)).2.2 = [[1; 2]; [3]].
Proof.
  destruct (drain_rx (demo_chain 10 3 30 2, demo_backlog)) as [r [m' d']] eqn:E.
  assert (r = Ok true ∧ last_seen_avail d' !!! QUEUE_RX = 1) as [-> Hs].
  { split; [change r with ((r, (m', d')).1)|change d' with ((r, (m', d')).2.2)];
      rewrite <- E; vm_compute; reflexivity. }
  destruct (rx_pass_in_order (demo_chain 10 3 30 2) demo_backlog true m' d')
    as (k & Hk & _ & (_ & Hb & _ & Hn) & _).
  - reflexivity.
  - by apply word_const.
  - exact E.
  - simpl. rewrite Hb. rewrite Hs in Hn. unfold demo_backlog in Hn. simpl in Hn.
    unfold wrapping_add, wrap in Hn. rewrite Z.add_0_l, Z.mod_small in Hn by lia.
    by replace k with 1%nat by lia.
Defined.

Lemma reachable_net_ok_witness :
  net_ok (poll 2000000 demo_memory (mmio_write QUEUE_NUM 4 (new 0 ([] : Recorder)))).2.2.
Proof.
  destruct (reachable_net_ok 0 ([] : Recorder) demo_memory
    (poll 2000000 demo_memory (mmio_write QUEUE_NUM 4 (new 0 ([] : Recorder)))).2.1
    (poll 2000000 demo_memory (mmio_write QUEUE_NUM 4 (new 0 ([] : Recorder)))).2.2) as [_ H].
  - exact Recorder_bytes.
  - exact demo_memory_ok.
  - eapply rtc_r; [apply rtc_once; by apply (net_write _ _ QUEUE_NUM 4), word_const|].
    rewrite <- surjective_pairing. apply net_polled.
  - exact H.
Defined.
