(* ===== verification/Memory.v ===== *)
(** Guest physical memory, [rish-softvm-core/src/memory.rs]: RAM, the MMIO
    dispatch to the interrupt controllers and the virtio devices, and the write
    counters the decode cache relies on.

    [RefCell] is interior mutability on a single thread: device state is part
    of the memory. All device reads leave the device unchanged, so [read] is a
    function of the memory. The text of error messages carries no numbers.
    Diagnostics ([RISH_DBG_NET]) are not modelled.

    [DeviceMemory], the adapter given to devices, is shown to satisfy the laws
    the virtqueue relies on, so every theorem about the devices holds for the
    machine's memory. The theorems show that RAM is a byte array, that the
    counters record every change of a page whoever makes it, and the path of a
    level-triggered interrupt through both controllers. *)
From stdpp Require Import strings.
From S2P Require Import Prelude.
From S2P Require Import Lapic.
From S2P Require Import IoApic.
From S2P Require Import Ports.
From S2P Require Import VirtQueue.
From S2P Require Import VirtioBlk.
From S2P Require Import VirtioNet.
Local Open Scope Z_scope.

Definition PAGE_SIZE : Z := 4096.
Definition VIRTIO_MMIO_BASE : Z := 0xFEBF0000.
Definition VIRTIO_NET_MMIO_BASE : Z := VIRTIO_MMIO_BASE + 0x1000.
Definition VIRTIO_BLK2_MMIO_BASE : Z := VIRTIO_MMIO_BASE + 0x2000.
Definition VIRTIO_MMIO_REGISTER_BYTES : Z := 0x200.
Definition VIRTIO_MMIO_WINDOW_BYTES : Z := 0x400.

(** An operation that does not return a value: a reported error, or a panic of
    the host program (a slice index out of range). *)
Inductive Abort :=
  | Fail (e : CpuError)
  | Panic.
#[export] Instance Abort_eq_dec : EqDecision Abort.
Proof. solve_decision. Defined.

(** The bumped pages are [first..=last]. *)
Definition bump_page_counters (start n : Z) (code_gen : list Z) : list Z :=
  if n =? 0 then code_gen
  else
    let first := start / PAGE_SIZE in
    let last := (start + n - 1) / PAGE_SIZE in
    foldl (λ gen page, alter (λ c, wrapping_add 32 c 1) (Z.to_nat page) gen) code_gen
      (seqZ first (last - first + 1)).

(** ** The view devices have of RAM *)

Record DeviceMemory := mkDeviceMemory {
  dm_ram : list Z;
  dm_code_gen : list Z;
  dm_wrote : bool
}.

(** The parameter [address] is a [u64]. *)
Definition dm_read (address n : Z) (m : DeviceMemory) : result VirtioError (list Z) :=
  let address := wrap 64 address in
  match checked_add 64 address n with
  | None => Err (OutOfBounds address n)
  | Some e =>
      if e >? len (dm_ram m) then Err (OutOfBounds address n)
      else Ok (slice (dm_ram m) address n)
  end.

Definition dm_write (address : Z) (input : list Z) (m : DeviceMemory)
    : result VirtioError DeviceMemory :=
  let address := wrap 64 address in
  match checked_add 64 address (len input) with
  | None => Err (OutOfBounds address (len input))
  | Some e =>
      if e >? len (dm_ram m) then Err (OutOfBounds address (len input))
      else Ok (mkDeviceMemory (splice (dm_ram m) address input)
                 (bump_page_counters address (len input) (dm_code_gen m)) true)
  end.

#[export] Instance DeviceMemory_memory : GuestMemory DeviceMemory :=
  mkGuestMemory _ (λ m, len (dm_ram m)) dm_read dm_write.

Section memory.
Context {B N : Type} `{BlockBackend B} `{NetBackend N}.

Record Memory := mkMemory {
  ram : list Z;
  lapic : option LocalApic;
  ioapic : IoApic;
  virtio_blk : option (VirtioMmioBlk (B := B));
  virtio_blk2 : option (VirtioMmioBlk (B := B));
  virtio_net : option (VirtioMmioNet (B := N));
  generation : Z;
  code_gen : list Z
}.
#[export] Instance Memory_eta : Settable Memory := λ m,
  mkMemory (ram m) (lapic m) (ioapic m) (virtio_blk m) (virtio_blk2 m) (virtio_net m)
    (generation m) (code_gen m).

(** [megabytes] is a [usize]. *)
Definition new (megabytes : Z) : result Abort Memory :=
  if megabytes =? 0 then Err (Fail (InvalidConfig "guest memory must be at least 1 MiB"))
  else
    match checked_mul 64 megabytes (1024 * 1024) with
    | None => Err (Fail (InvalidConfig "guest memory size overflow"))
    | Some bytes =>
        let pages := (bytes + PAGE_SIZE - 1) / PAGE_SIZE in
        Ok (mkMemory (replicate (Z.to_nat bytes) 0) None IoApic.new None None None 0
              (replicate (Z.to_nat pages) 0))
    end.

Definition page_generation (physical : Z) (m : Memory) : Z :=
  default 0 (code_gen m !! Z.to_nat (physical / PAGE_SIZE)).

Definition bump_code_gen (start n : Z) (m : Memory) : Memory :=
  m <| code_gen ::= bump_page_counters start n |>.

(** ** Attached devices *)

Definition attach_lapic (m : Memory) : Memory := m <| lapic := Some Lapic.new |>.

Definition lapic_pop_interrupt (m : Memory) : option Z * Memory :=
  match lapic m with
  | None => (None, m)
  | Some l => let '(v, l) := Lapic.pop_interrupt l in (v, m <| lapic := Some l |>)
  end.

Definition lapic_tick (instructions : Z) (m : Memory) : Memory :=
  m <| lapic ::= fmap (Lapic.tick instructions) |>.

Definition in_window (base size address : Z) : bool := (base <=? address) && (address <? base + size).
Definition in_lapic : Z → bool := in_window LAPIC_BASE LAPIC_SIZE.
Definition in_ioapic : Z → bool := in_window IOAPIC_BASE IOAPIC_SIZE.
Definition in_virtio : Z → bool := in_window VIRTIO_MMIO_BASE VIRTIO_MMIO_WINDOW_BYTES.
Definition in_virtio_blk2 : Z → bool := in_window VIRTIO_BLK2_MMIO_BASE VIRTIO_MMIO_WINDOW_BYTES.
Definition in_virtio_net : Z → bool := in_window VIRTIO_NET_MMIO_BASE VIRTIO_MMIO_WINDOW_BYTES.

Definition attach_virtio_blk (d : VirtioMmioBlk (B := B)) (m : Memory) : result Abort Memory :=
  match virtio_blk m with
  | Some _ => Err (Fail (InvalidConfig "a virtio block device is already attached"))
  | None => Ok (m <| virtio_blk := Some d |>)
  end.
Definition attach_virtio_blk2 (d : VirtioMmioBlk (B := B)) (m : Memory) : result Abort Memory :=
  match virtio_blk2 m with
  | Some _ => Err (Fail (InvalidConfig "a second virtio block device is already attached"))
  | None => Ok (m <| virtio_blk2 := Some d |>)
  end.
Definition attach_virtio_net (d : VirtioMmioNet (B := N)) (m : Memory) : result Abort Memory :=
  match virtio_net m with
  | Some _ => Err (Fail (InvalidConfig "a virtio network device is already attached"))
  | None => Ok (m <| virtio_net := Some d |>)
  end.

Definition virtio_blk_fault (m : Memory) : option VirtioError := virtio_blk m ≫= VirtioBlk.fault.
Definition virtio_blk2_fault (m : Memory) : option VirtioError := virtio_blk2 m ≫= VirtioBlk.fault.
Definition virtio_net_fault (m : Memory) : option VirtioError := virtio_net m ≫= VirtioNet.fault.

(** ** Device service *)

Definition device_view (m : Memory) : DeviceMemory := mkDeviceMemory (ram m) (code_gen m) false.
(** RAM and counters as the device left them. *)
Definition after_device (g : DeviceMemory) (m : Memory) : Memory :=
  let m := m <| ram := dm_ram g |> <| code_gen := dm_code_gen g |> in
  if dm_wrote g then m <| generation ::= λ n, wrapping_add 64 n 1 |> else m.

Definition poll_virtio_irq (m : Memory) : bool * Memory :=
  match virtio_blk m with
  | None => (false, m)
  | Some d =>
      let '(completed, (g, d)) := VirtioBlk.poll_kick (device_view m) d in
      (completed, after_device g (m <| virtio_blk := Some d |>))
  end.
Definition poll_virtio_blk2_irq (m : Memory) : bool * Memory :=
  match virtio_blk2 m with
  | None => (false, m)
  | Some d =>
      let '(completed, (g, d)) := VirtioBlk.poll_kick (device_view m) d in
      (completed, after_device g (m <| virtio_blk2 := Some d |>))
  end.
(** [now] is the [Instant] the device reads. *)
Definition poll_virtio_net (now : Z) (m : Memory) : bool * Memory :=
  match virtio_net m with
  | None => (false, m)
  | Some d =>
      let '(completed, (g, d)) := VirtioNet.poll now (device_view m) d in
      (completed, after_device g (m <| virtio_net := Some d |>))
  end.

Definition forward_to_lapic (vectors : list Z) (m : Memory) : Memory :=
  m <| lapic ::= fmap (λ l, foldl (λ l v, Lapic.request v l) l vectors) |>.

Definition ioapic_set_lines (lines : Z) (m : Memory) : Memory :=
  let '(fired, a) := IoApic.set_lines lines (ioapic m) in
  forward_to_lapic fired (m <| ioapic := a |>).

Definition ioapic_pulse (pin levels : Z) (m : Memory) : Memory :=
  let b := bit pin in
  let '(fired, a) := IoApic.set_lines (levels .| b) (ioapic m) in
  let '(_, a) := IoApic.set_lines (levels .&~ b) a in
  forward_to_lapic fired (m <| ioapic := a |>).

(** ** Access *)

(** A register file read through an [n]-byte buffer: at most two registers, and
    the slice [bytes2[..rest]] of a third is out of range. *)
Definition read_registers (register : Z → Z → Z) (offset n : Z) : result Abort (list Z) :=
  let first := take (Z.to_nat n) (to_le_bytes 4 (register offset n)) in
  if n >? 4 then
    let rest := n - 4 in
    if rest >? 4 then Err Panic
    else Ok (first ++ take (Z.to_nat rest) (to_le_bytes 4 (register (offset + 4) rest)))
  else Ok first.

Definition zeros (n : Z) : list Z := replicate (Z.to_nat n) 0.

(** The three virtio windows share their code. *)
Definition read_virtio (offset n : Z) (register : option (Z → Z)) : result Abort (list Z) :=
  if offset >=? VIRTIO_MMIO_REGISTER_BYTES then Ok (zeros n)
  else
    match register with
    | Some register => read_registers (λ offset _, register offset) offset n
    | None => Ok (zeros n)
    end.

Definition read_ram (address n : Z) (m : Memory) : result Abort (list Z) :=
  match checked_add 64 address n with
  | None => Err (Fail (GuestFault "memory read address overflow"))
  | Some e =>
      if e >? len (ram m) then Err (Fail (GuestFault "memory read exceeds RAM"))
      else Ok (slice (ram m) address n)
  end.

Definition read (address n : Z) (m : Memory) : result Abort (list Z) :=
  if in_virtio_blk2 address then
    read_virtio (address - VIRTIO_BLK2_MMIO_BASE) n
      ((λ d offset, VirtioBlk.mmio_read offset d) <$> virtio_blk2 m)
  else if in_virtio_net address then
    read_virtio (address - VIRTIO_NET_MMIO_BASE) n
      ((λ d offset, VirtioNet.mmio_read offset d) <$> virtio_net m)
  else if in_virtio address then
    read_virtio (address - VIRTIO_MMIO_BASE) n
      ((λ d offset, VirtioBlk.mmio_read offset d) <$> virtio_blk m)
  else if in_ioapic address then
    let bytes := to_le_bytes 4 (IoApic.read (address - IOAPIC_BASE) (ioapic m)) in
    Ok (take (Z.to_nat n) bytes ++ zeros (n - 4))
  else
    match (if in_lapic address then lapic m else None) with
    | Some l => read_registers (λ offset size, Lapic.read offset (wrap 8 size) l)
                  (address - LAPIC_BASE) n
    | None => read_ram address n m
    end.

(** [u32::from_le_bytes(buffer)] with the first bytes of [input] in [buffer]. *)
Definition register_value (input : list Z) : Z :=
  from_le_bytes (splice [0; 0; 0; 0] 0 (take 4 input)).

Definition write_ram (address : Z) (input : list Z) (m : Memory) : result Abort Memory :=
  match checked_add 64 address (len input) with
  | None => Err (Fail (GuestFault "memory write address overflow"))
  | Some e =>
      if e >? len (ram m) then Err (Fail (GuestFault "memory write exceeds RAM"))
      else
        let m := m <| ram ::= λ r, splice r address input |>
                   <| generation ::= λ n, wrapping_add 64 n 1 |> in
        Ok (bump_code_gen address (len input) m)
  end.

Definition write_lapic (offset : Z) (input : list Z) (l : LocalApic) (m : Memory) : Memory :=
  let '(retired, l) := Lapic.write offset (wrap 8 (len input)) (register_value input) l in
  let m := m <| lapic := Some l |> in
  match retired with
  | Some vector =>
      let '(refired, a) := IoApic.end_of_interrupt vector (ioapic m) in
      forward_to_lapic refired (m <| ioapic := a |>)
  | None => m
  end.

Definition write (address : Z) (input : list Z) (m : Memory) : result Abort Memory :=
  let value := register_value input in
  if in_virtio_blk2 address then
    let offset := address - VIRTIO_BLK2_MMIO_BASE in
    Ok (if offset <? VIRTIO_MMIO_REGISTER_BYTES
        then m <| virtio_blk2 ::= fmap (VirtioBlk.mmio_write offset value) |> else m)
  else if in_virtio_net address then
    let offset := address - VIRTIO_NET_MMIO_BASE in
    Ok (if offset <? VIRTIO_MMIO_REGISTER_BYTES
        then m <| virtio_net ::= fmap (VirtioNet.mmio_write offset value) |> else m)
  else if in_virtio address then
    let offset := address - VIRTIO_MMIO_BASE in
    Ok (if offset <? VIRTIO_MMIO_REGISTER_BYTES
        then m <| virtio_blk ::= fmap (VirtioBlk.mmio_write offset value) |> else m)
  else if in_ioapic address then
    Ok (m <| ioapic ::= IoApic.write (address - IOAPIC_BASE) value |>)
  else
    match (if in_lapic address then lapic m else None) with
    | Some l => Ok (write_lapic (address - LAPIC_BASE) input l m)
    | None => write_ram address input m
    end.

(** [read_u64_at]: the buffer is eight bytes, zero beyond [size]. *)
Definition read_u64_at (address size : Z) (m : Memory) : result Abort Z :=
  let? bytes := read address size m in
  Ok (from_le_bytes (splice (zeros 8) 0 bytes)).
Definition read_u8 (address : Z) (m : Memory) : result Abort Z :=
  let? v := read_u64_at address 1 m in Ok (wrap 8 v).
Definition read_u16 (address : Z) (m : Memory) : result Abort Z :=
  let? v := read_u64_at address 2 m in Ok (wrap 16 v).
Definition read_u32 (address : Z) (m : Memory) : result Abort Z :=
  let? v := read_u64_at address 4 m in Ok (wrap 32 v).
Definition read_u64 (address : Z) (m : Memory) : result Abort Z := read_u64_at address 8 m.

Definition write_u8 (address value : Z) : Memory → result Abort Memory :=
  write address (to_le_bytes 1 value).
Definition write_u16 (address value : Z) : Memory → result Abort Memory :=
  write address (to_le_bytes 2 value).
Definition write_u32 (address value : Z) : Memory → result Abort Memory :=
  write address (to_le_bytes 4 value).
Definition write_u64 (address value : Z) : Memory → result Abort Memory :=
  write address (to_le_bytes 8 value).

End memory.

(** ** The device view is a guest memory *)

#[export] Program Instance DeviceMemory_laws : GuestMemoryLaws DeviceMemory := {|
  mem_ok m := Forall (word 8) (dm_ram m) ∧ len (dm_ram m) < 2 ^ 63;
  contents m := dm_ram m
|}.
Next Obligation. by intros m []. Qed.
Next Obligation. by intros m []. Qed.
Next Obligation.
  intros m a n [] ? ? ?; simpl. pose proof (len_nonneg (dm_ram m)). unfold dm_read, checked_add.
  rewrite wrap_small by (unfold word; lia). rewrite (proj2 (Z.ltb_lt _ _)) by lia. by rewrite Z.gtb_ltb, (proj2 (Z.ltb_ge _ _)) by lia.
Qed.
Next Obligation.
  intros m a n [] Ha ? ?; simpl. unfold dm_read, checked_add.
  rewrite wrap_small by done. case_match; [|done].
  case_match; simplify_eq. by rewrite Z.gtb_ltb, (proj2 (Z.ltb_lt _ _)) by lia.
Qed.
Next Obligation.
  intros m a bs [] ? ? ?; simpl. pose proof (len_nonneg bs). unfold dm_write, checked_add.
  rewrite wrap_small by (unfold word; lia). rewrite (proj2 (Z.ltb_lt _ _)) by lia. rewrite Z.gtb_ltb, (proj2 (Z.ltb_ge _ _)) by lia.
  eexists. split; [done|]. simpl. rewrite len_splice. auto with words.
Qed.
Next Obligation.
  intros m a bs [] Ha ?; simpl. unfold dm_write, checked_add.
  rewrite wrap_small by done. case_match; [|done].
  case_match; simplify_eq. by rewrite Z.gtb_ltb, (proj2 (Z.ltb_lt _ _)) by lia.
Qed.

(** ** Write counters *)

Definition touches (start n : Z) (p : nat) : Prop :=
  0 < n ∧ start / PAGE_SIZE ≤ Z.of_nat p ≤ (start + n - 1) / PAGE_SIZE.
#[export] Instance touches_dec start n p : Decision (touches start n p).
Proof. unfold touches. apply _. Defined.

Lemma foldl_alter_lookup (f : Z → Z) (l : list Z) (g : list Z) (p : nat) :
  NoDup l → Forall (λ x, 0 ≤ x) l → (p < length g)%nat →
  foldl (λ g x, alter f (Z.to_nat x) g) g l !!! p
    = (if decide (Z.of_nat p ∈ l) then f (g !!! p) else g !!! p) ∧
  length (foldl (λ g x, alter f (Z.to_nat x) g) g l) = length g.
Proof.
  intros Hnd Hpos. revert g. induction l as [|x l IH]; intros g Hp.
  { done. }
  apply NoDup_cons in Hnd as [Hx Hnd]. apply Forall_cons in Hpos as [Hx0 Hpos]. cbn [foldl].
  destruct (IH Hnd Hpos (alter f (Z.to_nat x) g)) as [-> ->]; [by rewrite length_alter|].
  rewrite length_alter. split; [|done].
  destruct (decide (Z.of_nat p = x)) as [<-|Hne].
  - rewrite decide_False by done. rewrite decide_True by set_solver.
    rewrite Nat2Z.id. by apply list_lookup_total_alter_eq.
  - rewrite list_lookup_total_alter_ne by lia.
    destruct (decide (Z.of_nat p ∈ l)); [rewrite decide_True by set_solver|rewrite decide_False by set_solver];
      done.
Qed.

Lemma bump_lookup start n g p :
  0 ≤ start → 0 ≤ n → (p < length g)%nat →
  bump_page_counters start n g !!! p
    = (if decide (touches start n p) then wrapping_add 32 (g !!! p) 1 else g !!! p).
Proof.
  intros Hs Hn Hp. unfold bump_page_counters. destruct (Z.eqb_spec n 0) as [->|Hne].
  { rewrite decide_False; [done|]. unfold touches. lia. }
  pose proof (Z.div_pos start PAGE_SIZE Hs ltac:(done)) as Hd.
  assert (∀ n, Forall (λ x, 0 ≤ x) (seqZ (start / PAGE_SIZE) n)) as Hpos
    by (intros; apply Forall_seqZ; lia).
  rewrite (proj1 (foldl_alter_lookup _ _ _ _ (NoDup_seqZ _ _) (Hpos _) Hp)).
  apply decide_ext. unfold touches. rewrite elem_of_seqZ. lia.
Qed.

Lemma length_bump start n g : length (bump_page_counters start n g) = length g.
Proof.
  unfold bump_page_counters. case_match; [done|]. generalize (seqZ (start / PAGE_SIZE)).
  intros l. generalize (l ((start + n - 1) / PAGE_SIZE - start / PAGE_SIZE + 1)). clear.
  intros l. revert g. induction l as [|x l IH]; intros g; [done|]. cbn [foldl].
  by rewrite IH, length_alter.
Qed.

Lemma bump_words start n g : Forall (word 32) g → Forall (word 32) (bump_page_counters start n g).
Proof.
  unfold bump_page_counters. case_match; [done|]. generalize (seqZ (start / PAGE_SIZE)).
  intros l. generalize (l ((start + n - 1) / PAGE_SIZE - start / PAGE_SIZE + 1)). clear.
  intros l. revert g. induction l as [|x l IH]; intros g Hg; [done|]. cbn [foldl].
  apply IH, Forall_alter; [done|]. intros. by apply word_wrap.
Qed.

(** The bytes of page [p]. *)
Definition page (r : list Z) (p : nat) : list Z := slice r (Z.of_nat p * PAGE_SIZE) PAGE_SIZE.

(** A store, an address and its bytes, on RAM and counters. *)
Definition store_at (s : list Z * list Z) (w : Z * list Z) : list Z * list Z :=
  (splice s.1 w.1 w.2, bump_page_counters w.1 (len w.2) s.2).
Definition fits (n : Z) (w : Z * list Z) : Prop := 0 ≤ w.1 ∧ w.1 + len w.2 ≤ n.
(** How many of the stores touch page [p]. *)
Definition stores_on (p : nat) (ws : list (Z * list Z)) : Z :=
  len (filter (λ w, touches w.1 (len w.2) p) ws).

(** RAM and counters before and after a sequence of stores. *)
Definition tracked (s s' : list Z * list Z) : Prop :=
  ∃ ws, Forall (fits (len s.1)) ws ∧ s' = foldl store_at s ws.

Lemma tracked_refl s : tracked s s.
Proof. by exists []. Qed.

Lemma stores_len s ws : len (foldl store_at s ws).1 = len s.1.
Proof. revert s. induction ws as [|w ws IH]; intros s; [done|]. cbn [foldl]. rewrite IH. apply len_splice. Qed.

Lemma stores_ram s ws : (foldl store_at s ws).1 = foldl (λ r w, splice r w.1 w.2) s.1 ws.
Proof. revert s. induction ws as [|w ws IH]; intros s; [done|]. cbn [foldl]. by rewrite IH. Qed.
Lemma tracked_trans s1 s2 s3 : tracked s1 s2 → tracked s2 s3 → tracked s1 s3.
Proof.
  intros (ws1 & H1 & ->) (ws2 & H2 & ->). rewrite stores_len in H2. exists (ws1 ++ ws2).
  split; [by apply Forall_app|]. by rewrite foldl_app.
Qed.

Lemma store_tracked r g a bs :
  0 ≤ a → a + len bs ≤ len r → tracked (r, g) (splice r a bs, bump_page_counters a (len bs) g).
Proof. intros. exists [(a, bs)]. split; [by apply Forall_singleton|done]. Qed.

Lemma stores_gen s ws : length (foldl store_at s ws).2 = length s.2.
Proof. revert s. induction ws as [|w ws IH]; intros s; [done|]. cbn [foldl]. rewrite IH. apply length_bump. Qed.
Lemma stores_words s ws : Forall (word 32) s.2 → Forall (word 32) (foldl store_at s ws).2.
Proof.
  revert s. induction ws as [|w ws IH]; intros s Hs; [done|]. cbn [foldl]. by apply IH, bump_words.
Qed.

Lemma store_page r a bs p :
  0 ≤ a → a + len bs ≤ len r → ¬ touches a (len bs) p → page (splice r a bs) p = page r p.
Proof.
  intros Ha Hle Ht. pose proof (len_nonneg bs). unfold page. destruct (decide (len bs = 0)) as [E|].
  { unfold len in E. assert (bs = []) as -> by (apply nil_length_inv; lia). by rewrite splice_nil. }
  apply slice_splice_disjoint; [done|unfold PAGE_SIZE; lia|done|].
  unfold touches, PAGE_SIZE in *. dlia.
Qed.

(** The counter of a page has advanced by the number of stores to it, and a
    page with no store to it is unchanged. *)
Lemma stores_counted s ws p :
  Forall (word 32) s.2 → Forall (fits (len s.1)) ws → (p < length s.2)%nat →
  (foldl store_at s ws).2 !!! p = wrap 32 (s.2 !!! p + stores_on p ws) ∧
  (stores_on p ws = 0 → page (foldl store_at s ws).1 p = page s.1 p).
Proof.
  revert s. induction ws as [|[a bs] ws IH]; intros s Hw Hf Hp.
  { split; [|done]. cbn. rewrite Z.add_0_r, wrap_small; [done|]. rewrite Forall_lookup in Hw.
    eapply Hw, list_lookup_lookup_total_lt. done. }
  apply Forall_cons in Hf as [[Ha Hle] Hf]. pose proof (len_nonneg bs) as Hn. simpl in Ha, Hle.
  cbn [foldl]. destruct (IH (store_at s (a, bs))) as [E U].
  { by apply bump_words. } { cbn. by rewrite len_splice. } { cbn. by rewrite length_bump. }
  rewrite E. unfold stores_on in *. rewrite filter_cons. cbn [store_at fst snd] in *.
  rewrite bump_lookup by done. case_decide as Ht.
  - rewrite len_cons. split; [|pose proof (len_nonneg (filter (λ w, touches w.1 (len w.2) p) ws)); lia].
    unfold wrapping_add, wrap. rewrite Z.add_mod_idemp_l by done. f_equal. lia.
  - split; [done|]. intros H0. rewrite U by done. by apply store_page.
Qed.

(** ** The machine's memory as a whole *)

Section correctness.
Context {B N : Type} `{ReliableBackend B} `{NetBackend N}.
Abbreviation Memory := (@Memory B N).
Implicit Types m : Memory.

Definition opt {A} (P : A → Prop) (o : option A) : Prop := ∀ x, o = Some x → P x.

(** RAM below the device windows, a counter per page, and every attached device
    within its own invariant. *)
Record memory_ok (m : Memory) : Prop := mk_memory_ok {
  mo_bytes : Forall (word 8) (ram m);
  mo_size : len (ram m) ≤ VIRTIO_MMIO_BASE;
  mo_pages : len (ram m) ≤ len (code_gen m) * PAGE_SIZE;
  mo_counters : Forall (word 32) (code_gen m);
  mo_lapic : opt lapic_ok (lapic m);
  mo_ioapic : ioapic_ok (ioapic m);
  mo_blk : opt blk_ok (virtio_blk m);
  mo_blk2 : opt blk_ok (virtio_blk2 m);
  mo_net : opt net_ok (virtio_net m)
}.

(** RAM and counters. *)
Definition state_of (m : Memory) : list Z * list Z := (ram m, code_gen m).

(** The stores that take the view of a device from one state to another, in order. *)
Inductive device_writes : DeviceMemory → list (Z * list Z) → DeviceMemory → Prop :=
  | dw_nil g : device_writes g [] g
  | dw_snoc g ws g1 a bs g2 :
      device_writes g ws g1 → word 64 a → dm_write a bs g1 = Ok g2 → device_writes g (ws ++ [(a, bs)]) g2.

(** The store of a CPU that goes to RAM; one above it goes to a device. *)
Definition cpu_stores (a : Z) (bs : list Z) m : list (Z * list Z) :=
  if decide (a + len bs ≤ len (ram m)) then [(a, bs)] else [].

(** Everything that changes the memory, with the stores to RAM it makes: stores of the
    CPU, the batched device tick with its polls and interrupt lines, and taking an
    interrupt. *)
Inductive mem_step : Memory → list (Z * list Z) → Memory → Prop :=
  | ms_write m a bs m' :
      word 64 a → Forall (word 8) bs → write a bs m = Ok m' → mem_step m (cpu_stores a bs m) m'
  | ms_tick m n : word 32 n → mem_step m [] (lapic_tick n m)
  | ms_pop m : mem_step m [] (lapic_pop_interrupt m).2
  | ms_lines m lines : mem_step m [] (ioapic_set_lines lines m)
  | ms_pulse m pin levels : mem_step m [] (ioapic_pulse pin levels m)
  | ms_blk m ws g :
      device_writes (device_view m) ws g →
      state_of (poll_virtio_irq m).2 = (dm_ram g, dm_code_gen g) → mem_step m ws (poll_virtio_irq m).2
  | ms_blk2 m ws g :
      device_writes (device_view m) ws g →
      state_of (poll_virtio_blk2_irq m).2 = (dm_ram g, dm_code_gen g) → mem_step m ws (poll_virtio_blk2_irq m).2
  | ms_net m now ws g :
      device_writes (device_view m) ws g →
      state_of (poll_virtio_net now m).2 = (dm_ram g, dm_code_gen g) → mem_step m ws (poll_virtio_net now m).2.
(** A run, with the log of all its stores to RAM. *)
Inductive mem_run (m : Memory) : list (Z * list Z) → Memory → Prop :=
  | mr_refl : mem_run m [] m
  | mr_step ws m1 ws' m2 : mem_run m ws m1 → mem_step m1 ws' m2 → mem_run m (ws ++ ws') m2.

Lemma opt_fmap {A} (P : A → Prop) f o : opt P o → (∀ x, P x → P (f x)) → opt P (f <$> o).
Proof. intros Ho Hf x E. apply fmap_Some in E as (y & -> & ->). auto. Qed.
Lemma opt_some {A} (P : A → Prop) x : P x → opt P (Some x).
Proof. by intros ? ? [= <-]. Qed.

Lemma requests_ok vectors l :
  Forall (λ v, 0 ≤ v < 256) vectors → lapic_ok l → lapic_ok (foldl (λ l v, Lapic.request v l) l vectors).
Proof.
  intros Hv. revert l. induction Hv as [|v vectors [Hv _] _ IH]; intros l Hl; [done|]. cbn [foldl].
  by apply IH, lapic_request_ok.
Qed.

Lemma forward_ok vectors m :
  Forall (λ v, 0 ≤ v < 256) vectors → memory_ok m → memory_ok (forward_to_lapic vectors m).
Proof.
  intros Hv []. split; try done. apply opt_fmap; [done|]. intros l Hl. by apply requests_ok.
Qed.

Lemma set_ioapic_ok a m : ioapic_ok a → memory_ok m → memory_ok (m <| ioapic := a |>).
Proof. intros Ha []. by split. Qed.

Lemma set_lapic_ok l m : lapic_ok l → memory_ok m → memory_ok (m <| lapic := Some l |>).
Proof. intros Hl []. split; try done. by apply opt_some. Qed.

Lemma ioapic_set_lines_ok lines m : memory_ok m → memory_ok (ioapic_set_lines lines m).
Proof.
  intros Hm. unfold ioapic_set_lines. pose proof (set_lines_ok lines _ (mo_ioapic _ Hm)).
  pose proof (set_lines_vectors lines _ (mo_ioapic _ Hm)).
  destruct (IoApic.set_lines lines (ioapic m)) as [fired a]. by apply forward_ok, set_ioapic_ok.
Qed.

Lemma ioapic_pulse_ok pin levels m : memory_ok m → memory_ok (ioapic_pulse pin levels m).
Proof.
  intros Hm. unfold ioapic_pulse. set (l1 := levels .| bit pin). set (l2 := levels .&~ bit pin).
  pose proof (set_lines_ok l1 _ (mo_ioapic _ Hm)) as Ha.
  pose proof (set_lines_vectors l1 _ (mo_ioapic _ Hm)).
  destruct (IoApic.set_lines l1 (ioapic m)) as [fired a]. pose proof (set_lines_ok l2 a Ha).
  destruct (IoApic.set_lines l2 a) as [? a']. by apply forward_ok, set_ioapic_ok.
Qed.

Lemma register_value_word input : Forall (word 8) input → word 32 (register_value input).
Proof.
  intros Hi. unfold register_value.
  assert (Forall (word 8) (splice [0; 0; 0; 0] 0 (take 4 input))) as Hf.
  { apply Forall_splice; [by repeat (apply Forall_cons_2; [by apply word_const|])|by apply Forall_take]. }
  pose proof (from_le_bytes_word _ Hf) as Hw. by rewrite len_splice in Hw.
Qed.

Lemma forward_state vectors m : state_of (forward_to_lapic vectors m) = state_of m.
Proof. done. Qed.
Lemma pulse_state pin levels m : state_of (ioapic_pulse pin levels m) = state_of m.
Proof.
  unfold ioapic_pulse. destruct (IoApic.set_lines _ _) as [? a]. by destruct (IoApic.set_lines _ a).
Qed.
Lemma lines_state lines m : state_of (ioapic_set_lines lines m) = state_of m.
Proof. unfold ioapic_set_lines. by destruct (IoApic.set_lines _ _). Qed.
Lemma write_lapic_state offset bs l m : state_of (write_lapic offset bs l m) = state_of m.
Proof.
  unfold write_lapic. destruct (Lapic.write _ _ _ l) as [[v|] l']; [|done].
  by destruct (IoApic.end_of_interrupt v _).
Qed.

Lemma write_lapic_ok offset bs l m :
  lapic_ok l → Forall (word 8) bs → memory_ok m → memory_ok (write_lapic offset bs l m).
Proof.
  intros Hl Hbs Hm. unfold write_lapic. pose proof (register_value_word bs Hbs) as Hv.
  set (size := wrap 8 (len bs)). set (value := register_value bs) in *.
  pose proof (lapic_run_ok (Write offset size value) l Hl Hv) as Hl'. cbn [run] in Hl'.
  assert (∀ v, (Lapic.write offset size value l).1 = Some v → 0 ≤ v < 256) as Hret.
  { intros v. destruct (is_eoi (Write offset size value)) eqn:Heoi.
    - pose proof (lapic_run_eoi _ l Heoi) as E. cbn [run] in E. rewrite E. by apply retired_range.
    - by rewrite (proj1 (lapic_write_settles offset size value l Hl Hv Heoi)). }
  destruct (Lapic.write offset size value l) as [[v|] l1]; cbn [fst snd] in *.
  2: { by apply set_lapic_ok. }
  pose proof (set_lapic_ok l1 m Hl' Hm) as Hm1.
  pose proof (ioapic_eoi_ok v _ (mo_ioapic _ Hm1)) as Ha.
  pose proof (eoi_vectors v _ (mo_ioapic _ Hm1)) as Hvs.
  change (ioapic (m <| lapic := Some l1 |>)) with (ioapic m) in *.
  destruct (IoApic.end_of_interrupt v (ioapic m)) as [refired a]; cbn [fst snd] in *.
  apply forward_ok; [|by apply set_ioapic_ok]. eapply Forall_impl; [done|]. intros ? ->. auto.
Qed.

(** The device windows are above RAM. *)
Lemma ram_window a base size : a < base → in_window base size a = false.
Proof. unfold in_window. lia. Qed.

Lemma ram_not_mmio a m :
  memory_ok m → a < len (ram m) →
  in_virtio_blk2 a = false ∧ in_virtio_net a = false ∧ in_virtio a = false ∧
  in_ioapic a = false ∧ in_lapic a = false.
Proof.
  intros [] Ha. unfold VIRTIO_MMIO_BASE in *.
  split_and!; apply ram_window; unfold VIRTIO_BLK2_MMIO_BASE, VIRTIO_NET_MMIO_BASE, VIRTIO_MMIO_BASE,
    IOAPIC_BASE, LAPIC_BASE; lia.
Qed.
(** A store hits RAM or it hits a device. *)
Lemma write_cases a bs m m' :
  0 ≤ a → write a bs m = Ok m' →
  state_of m' = state_of m ∨
  a + len bs ≤ len (ram m) ∧
  m' = bump_code_gen a (len bs)
    (m <| ram ::= λ r, splice r a bs |> <| generation ::= λ n, wrapping_add 64 n 1 |>).
Proof.
  intros Ha. unfold write.
  destruct (in_virtio_blk2 a); [intros [= <-]; left; by case_match|].
  destruct (in_virtio_net a); [intros [= <-]; left; by case_match|].
  destruct (in_virtio a); [intros [= <-]; left; by case_match|].
  destruct (in_ioapic a); [intros [= <-]; by left|].
  destruct (if in_lapic a then lapic m else None) as [l|].
  { intros [= <-]. left. apply write_lapic_state. }
  unfold write_ram, checked_add. destruct (_ <? _); [|done].
  destruct (Z.gtb_spec (a + len bs) (len (ram m))); [done|].
  intros [= <-]. right. split; [lia|done].
Qed.
(** The counters are bumped exactly by the stores to RAM. *)
Lemma write_stores a bs m m' :
  memory_ok m → 0 ≤ a → write a bs m = Ok m' → state_of m' = foldl store_at (state_of m) (cpu_stores a bs m).
Proof.
  intros Hm Ha E. unfold cpu_stores. destruct (write_cases a bs m m' Ha E) as [Es|[Hle ->]]; [|by rewrite decide_True].
  case_decide as Hle; [|done]. rewrite Es. destruct (decide (bs = [])) as [->|Hne].
  { unfold state_of, store_at. cbn. by rewrite splice_nil. }
  destruct bs as [|b bs]; [done|]. rewrite len_cons in Hle. pose proof (len_nonneg bs).
  destruct (ram_not_mmio a m Hm ltac:(lia)) as (E1 & E2 & E3 & E4 & E5).
  unfold write, write_ram, checked_add in E. rewrite E1, E2, E3, E4, E5 in E. destruct (_ <? _); [|done].
  destruct (_ >? _); [done|]. injection E as <-. done.
Qed.

Lemma write_ok a bs m m' :
  0 ≤ a → Forall (word 8) bs → memory_ok m → write a bs m = Ok m' → memory_ok m'.
Proof.
  intros Ha Hbs Hm. pose proof (register_value_word bs Hbs) as Hv. unfold write.
  destruct (in_virtio_blk2 a). { intros [= <-]. destruct Hm. case_match; split; try done.
    apply opt_fmap; [done|]. intros d. by apply mmio_write_ok. }
  destruct (in_virtio_net a). { intros [= <-]. destruct Hm. case_match; split; try done.
    apply opt_fmap; [done|]. intros d. by apply net_write_ok. }
  destruct (in_virtio a). { intros [= <-]. destruct Hm. case_match; split; try done.
    apply opt_fmap; [done|]. intros d. by apply mmio_write_ok. }
  destruct (in_ioapic a).
  { intros [= <-]. apply set_ioapic_ok; [|done]. apply ioapic_write_ok; [done|]. apply Hm. }
  assert (write_ram a bs m = Ok m' → memory_ok m') as Hram.
  { unfold write_ram. repeat case_match; intros [= <-]. destruct Hm. split; simpl; try done.
    - by apply Forall_splice.
    - by rewrite len_splice.
    - rewrite len_splice. unfold len in *. by rewrite length_bump.
    - by apply bump_words. }
  destruct (in_lapic a); [|done]. destruct (lapic m) as [l|] eqn:El; [|done]. intros [= <-].
  apply write_lapic_ok; [by apply (mo_lapic _ Hm)|done..].
Qed.

(** What a device has stored can be told in order. *)
Lemma stores_told {P} (g : DeviceMemory) (s : DeviceMemory * P) : stores_from g s → ∃ ws, device_writes g ws s.1.
Proof.
  unfold stores_from. generalize s.1. clear s. apply (rtc_ind_r (λ g', ∃ ws, device_writes g ws g')); [by exists []; constructor|].
  intros g1 g2 _ (a & bs & E) [ws Hws]. exists (ws ++ [(wrap 64 a, bs)]). eapply dw_snoc; [done|by apply word_wrap|].
  rewrite <- E. simpl. unfold dm_write. by rewrite (wrap_small 64 (wrap 64 a)) by (by apply word_wrap).
Qed.
Lemma writes_stores g ws g' : device_writes g ws g' →
  (dm_ram g', dm_code_gen g') = foldl store_at (dm_ram g, dm_code_gen g) ws ∧ Forall (fits (len (dm_ram g))) ws.
Proof.
  induction 1 as [|g ws g1 a bs g2 _ [IH Hf] Ha E]; [done|]. revert E. unfold dm_write, checked_add. rewrite wrap_small by done.
  destruct (_ <? _); [|done]. destruct (Z.gtb_spec (a + len bs) (len (dm_ram g1))); [done|]. intros [= <-].
  rewrite foldl_app, <- IH. split; [done|]. apply Forall_app. split; [done|]. apply Forall_singleton.
  pose proof (stores_len (dm_ram g, dm_code_gen g) ws) as El. rewrite <- IH in El. cbn in El. destruct Ha. split; cbn; lia.
Qed.
Lemma stores_tracked {P} (m : Memory) (s : DeviceMemory * P) :
  stores_from (device_view m) s → tracked (state_of m) (dm_ram s.1, dm_code_gen s.1).
Proof. intros [ws [E Hf]%writes_stores]%stores_told. by exists ws. Qed.

(** What a device leaves behind is a memory again. *)
Lemma after_device_ok (g : DeviceMemory) m :
  memory_ok m → mem_ok g → tracked (state_of m) (dm_ram g, dm_code_gen g) →
  memory_ok (after_device g m) ∧ tracked (state_of m) (state_of (after_device g m)).
Proof.
  intros [] [Hb _] Ht. pose proof Ht as (ws & _ & E).
  pose proof (stores_len (state_of m) ws) as R. pose proof (stores_gen (state_of m) ws) as G.
  pose proof (stores_words (state_of m) ws ltac:(done)) as W. rewrite <- E in R, G, W.
  simpl in R, G, W. clear E.
  unfold after_device. destruct (dm_wrote g); (split; [|done]); split; simpl; try done.
  all: try (by rewrite R); unfold len in *; rewrite ?R, ?G; lia.
Qed.

Section polls.
Context (Hbytes : byte_frames (B := N)).

Lemma view_ok m : memory_ok m → mem_ok (device_view m).
Proof. intros []. split; [done|]. unfold device_view, VIRTIO_MMIO_BASE in *. simpl. lia. Qed.

Lemma poll_blk_ok m d :
  memory_ok m → blk_ok d →
  let '(_, (g, d')) := VirtioBlk.poll_kick (device_view m) d in
  blk_ok d' ∧ mem_ok g ∧ tracked (state_of m) (dm_ram g, dm_code_gen g).
Proof.
  intros Hm Hd. destruct (poll_kick_ok (device_view m) d (view_ok m Hm) Hd) as (Hg & _ & Hd').
  pose proof (poll_kick_stores (device_view m) d) as Hs.
  apply stores_tracked in Hs.
  by destruct (VirtioBlk.poll_kick (device_view m) d) as [c [g d']].
Qed.

Lemma poll_net_ok now m d :
  memory_ok m → net_ok d →
  let '(_, (g, d')) := VirtioNet.poll now (device_view m) d in
  net_ok d' ∧ mem_ok g ∧ tracked (state_of m) (dm_ram g, dm_code_gen g).
Proof.
  intros Hm Hd. destruct (poll_sound now (len (ram m)) (device_view m, d) Hbytes) as (Hg & _ & Hd').
  { split; [by apply view_ok|done]. }
  pose proof (poll_stores (device_view m) now d) as Hs.
  apply stores_tracked in Hs. simpl in Hg, Hd'.
  by destruct (VirtioNet.poll now (device_view m) d) as [c [g d']].
Qed.

(** Every poll has stores that explain it. *)
Lemma poll_explained {P} m m' (s : DeviceMemory * P) : stores_from (device_view m) s →
  ∃ ws g, device_writes (device_view m) ws g ∧ state_of (after_device s.1 m') = (dm_ram g, dm_code_gen g).
Proof.
  intros [ws Hws]%stores_told. exists ws, s.1. split; [done|]. unfold after_device. by destruct (dm_wrote s.1).
Qed.
Lemma poll_blk_logged m : ∃ ws, mem_step m ws (poll_virtio_irq m).2.
Proof.
  assert (∃ ws g, device_writes (device_view m) ws g ∧ state_of (poll_virtio_irq m).2 = (dm_ram g, dm_code_gen g)) as (ws & g & ? & ?);
    [|exists ws; by eapply ms_blk].
  unfold poll_virtio_irq. destruct (virtio_blk m) as [d|]; [|exists [], (device_view m); by repeat constructor].
  pose proof (poll_kick_stores (device_view m) d) as Hs. destruct (VirtioBlk.poll_kick _ d) as [c [g d']].
  exact (poll_explained m _ (g, d') Hs).
Qed.
Lemma poll_blk2_logged m : ∃ ws, mem_step m ws (poll_virtio_blk2_irq m).2.
Proof.
  assert (∃ ws g, device_writes (device_view m) ws g ∧ state_of (poll_virtio_blk2_irq m).2 = (dm_ram g, dm_code_gen g)) as (ws & g & ? & ?);
    [|exists ws; by eapply ms_blk2].
  unfold poll_virtio_blk2_irq. destruct (virtio_blk2 m) as [d|]; [|exists [], (device_view m); by repeat constructor].
  pose proof (poll_kick_stores (device_view m) d) as Hs. destruct (VirtioBlk.poll_kick _ d) as [c [g d']].
  exact (poll_explained m _ (g, d') Hs).
Qed.
Lemma poll_net_logged now m : ∃ ws, mem_step m ws (poll_virtio_net now m).2.
Proof.
  assert (∃ ws g, device_writes (device_view m) ws g ∧ state_of (poll_virtio_net now m).2 = (dm_ram g, dm_code_gen g)) as (ws & g & ? & ?);
    [|exists ws; by eapply ms_net].
  unfold poll_virtio_net. destruct (virtio_net m) as [d|]; [|exists [], (device_view m); by repeat constructor].
  pose proof (poll_stores (device_view m) now d) as Hs. destruct (VirtioNet.poll now _ d) as [c [g d']].
  exact (poll_explained m _ (g, d') Hs).
Qed.

(** The stores of a step, and of a run, account for RAM and counters. *)
Lemma mem_step_stores m ws m' : memory_ok m → mem_step m ws m' →
  state_of m' = foldl store_at (state_of m) ws ∧ Forall (fits (len (ram m))) ws.
Proof.
  intros Hm Hs. destruct Hs as [m a bs m' [Ha _] Hbs E|m n Hn|m|m lines|m pin levels|m ws g Hw E|m ws g Hw E|m now ws g Hw E].
  - split; [by apply write_stores|]. unfold cpu_stores. case_decide; [|done]. by apply Forall_singleton.
  - done.
  - split; [|done]. unfold lapic_pop_interrupt. destruct (lapic m) as [l|]; [|done]. by destruct (Lapic.pop_interrupt l).
  - split; [apply lines_state|done].
  - split; [apply pulse_state|done].
  - apply writes_stores in Hw as [Hw Hf]. by rewrite E, Hw.
  - apply writes_stores in Hw as [Hw Hf]. by rewrite E, Hw.
  - apply writes_stores in Hw as [Hw Hf]. by rewrite E, Hw.
Qed.

(** One step: the invariant holds on. *)
Lemma mem_step_ok m ws m' : mem_step m ws m' → memory_ok m → memory_ok m'.
Proof.
  intros Hs Hm.
  destruct Hs as [m a bs m' [Ha _] Hbs E|m n Hn|m|m lines|m pin levels|m ws g Hw E|m ws g Hw E|m now ws g Hw E].
  - by eapply write_ok.
  - destruct Hm. split; try done. apply opt_fmap; [done|]. intros l Hl. by apply (lapic_run_ok (Tick n)).
  - unfold lapic_pop_interrupt. destruct (lapic m) as [l|] eqn:El; [|done].
    pose proof (lapic_run_ok Pop l (mo_lapic _ Hm l El) I) as Hl. cbn [run snd] in Hl.
    destruct (Lapic.pop_interrupt l) as [v l']. by apply set_lapic_ok.
  - by apply ioapic_set_lines_ok.
  - by apply ioapic_pulse_ok.
  - unfold poll_virtio_irq. destruct (virtio_blk m) as [d|] eqn:Ed; [|done].
    pose proof (poll_blk_ok m d Hm (mo_blk _ Hm d Ed)) as Hp.
    destruct (VirtioBlk.poll_kick _ d) as [c [g' d']]. destruct Hp as (? & ? & Ht).
    apply after_device_ok; [|done..]. destruct Hm. split; try done. by apply opt_some.
  - unfold poll_virtio_blk2_irq. destruct (virtio_blk2 m) as [d|] eqn:Ed; [|done].
    pose proof (poll_blk_ok m d Hm (mo_blk2 _ Hm d Ed)) as Hp.
    destruct (VirtioBlk.poll_kick _ d) as [c [g' d']]. destruct Hp as (? & ? & Ht).
    apply after_device_ok; [|done..]. destruct Hm. split; try done. by apply opt_some.
  - unfold poll_virtio_net. destruct (virtio_net m) as [d|] eqn:Ed; [|done].
    pose proof (poll_net_ok now m d Hm (mo_net _ Hm d Ed)) as Hp.
    destruct (VirtioNet.poll now _ d) as [c [g' d']]. destruct Hp as (? & ? & Ht).
    apply after_device_ok; [|done..]. destruct Hm. split; try done. by apply opt_some.
Qed.

Lemma run_stores m ws m' : memory_ok m → mem_run m ws m' →
  memory_ok m' ∧ state_of m' = foldl store_at (state_of m) ws ∧ Forall (fits (len (ram m))) ws.
Proof.
  intros Hm. induction 1 as [|ws m1 ws' m2 _ (Hm1 & E & Hf) Hs]; [done|].
  destruct (mem_step_stores m1 ws' m2 Hm1 Hs) as [E' Hf']. split; [by eapply mem_step_ok|].
  pose proof (stores_len (state_of m) ws) as El. rewrite <- E in El. cbn in El. rewrite El in Hf'.
  rewrite foldl_app, <- E. split; [done|by apply Forall_app].
Qed.

(** The counter of a RAM address exists. *)
Lemma counted_pages m physical :
  memory_ok m → 0 ≤ physical < len (ram m) →
  (Z.to_nat (physical / PAGE_SIZE) < length (code_gen m))%nat.
Proof. intros Hm Hp. pose proof (mo_pages _ Hm). unfold len, PAGE_SIZE in *. dlia. Qed.
Lemma page_generation_lookup m physical :
  (Z.to_nat (physical / PAGE_SIZE) < length (code_gen m))%nat →
  page_generation physical m = code_gen m !!! Z.to_nat (physical / PAGE_SIZE).
Proof.
  intros Hlt. unfold page_generation. rewrite list_lookup_total_alt.
  by destruct (lookup_lt_is_Some_2 (code_gen m) _ Hlt) as [x ->].
Qed.

(** The counter of a page, and the page itself, after a run. *)
Lemma run_counted m ws m' physical : memory_ok m → mem_run m ws m' → 0 ≤ physical < len (ram m) →
  let p := Z.to_nat (physical / PAGE_SIZE) in
  page_generation physical m' = wrap 32 (page_generation physical m + stores_on p ws) ∧
  (stores_on p ws = 0 → page (ram m') p = page (ram m) p).
Proof.
  intros Hm Hr Hp p. destruct (run_stores m ws m' Hm Hr) as (Hm' & E & Hf).
  pose proof (counted_pages m physical Hm Hp) as Hlt. fold p in Hlt.
  destruct (stores_counted (state_of m) ws p (mo_counters _ Hm) Hf Hlt) as [Eg U].
  rewrite !page_generation_lookup by (done || (pose proof (stores_gen (state_of m) ws) as G;
    rewrite <- E in G; simpl in G; lia)).
  rewrite <- E in Eg, U. done.
Qed.

(** C39: the write counters account for every store. For every run of CPU stores, device
    polls and interrupt traffic with the log of its stores to RAM, a CPU store below the end
    of RAM being in it with its address and bytes and a poll with the writes of the device, the counter
    of a page has advanced (modulo 2^32) by the number of logged stores that touch the page,
    RAM is the result of those stores in order, and a page without one holds the same bytes.
    The memory and all its devices stay within their invariants. Every poll can be logged. *)
Theorem counters_account_for_stores m ws m' physical :
  memory_ok m → mem_run m ws m' → 0 ≤ physical < len (ram m) →
  let p := Z.to_nat (physical / PAGE_SIZE) in
  memory_ok m' ∧
  page_generation physical m' = wrap 32 (page_generation physical m + stores_on p ws) ∧
  ram m' = foldl (λ r w, splice r w.1 w.2) (ram m) ws ∧
  (stores_on p ws = 0 → page (ram m') p = page (ram m) p) ∧
  (∃ ws, mem_step m' ws (poll_virtio_irq m').2) ∧ (∃ ws, mem_step m' ws (poll_virtio_blk2_irq m').2) ∧
  ∀ now, ∃ ws, mem_step m' ws (poll_virtio_net now m').2.
Proof.
  intros Hm Hr Hp p. destruct (run_stores m ws m' Hm Hr) as (Hm' & E & Hf).
  destruct (run_counted m ws m' physical Hm Hr Hp) as [Eg U].
  split_and!; [done|done| |done|apply poll_blk_logged|apply poll_blk2_logged|intros now; apply poll_net_logged].
  change (ram m') with (state_of m').1. rewrite E. apply stores_ram.
Qed.

End polls.

(** ** RAM as a byte array *)

Lemma read_in_ram a n m :
  memory_ok m → 0 ≤ a < len (ram m) → 0 ≤ n → a + n ≤ len (ram m) →
  read a n m = Ok (slice (ram m) a n).
Proof.
  intros Hm Ha Hn Hle. destruct (ram_not_mmio a m Hm) as (E1 & E2 & E3 & E4 & E5); [lia|].
  unfold read. rewrite E1, E2, E3, E4, E5. unfold read_ram, checked_add.
  pose proof (mo_size _ Hm) as Hs. unfold VIRTIO_MMIO_BASE in Hs.
  rewrite (proj2 (Z.ltb_lt _ _)), Z.gtb_ltb, (proj2 (Z.ltb_ge _ _)) by lia. done.
Qed.

Lemma write_in_ram a bs m :
  memory_ok m → 0 ≤ a < len (ram m) → a + len bs ≤ len (ram m) →
  write a bs m = Ok (bump_code_gen a (len bs)
    (m <| ram ::= λ r, splice r a bs |> <| generation ::= λ n, wrapping_add 64 n 1 |>)).
Proof.
  intros Hm Ha Hle. destruct (ram_not_mmio a m Hm) as (E1 & E2 & E3 & E4 & E5); [lia|].
  unfold write. rewrite E1, E2, E3, E4, E5. unfold write_ram, checked_add.
  pose proof (mo_size _ Hm) as Hs. unfold VIRTIO_MMIO_BASE in Hs.
  rewrite (proj2 (Z.ltb_lt _ _)), Z.gtb_ltb, (proj2 (Z.ltb_ge _ _)) by lia. done.
Qed.

(** RAM reads back. A store inside RAM succeeds, a load of the same range
    returns the bytes stored, and any load of a disjoint RAM range returns what
    it returned before. *)
Theorem ram_reads_back a bs m :
  memory_ok m → 0 ≤ a < len (ram m) → a + len bs ≤ len (ram m) → Forall (word 8) bs →
  ∃ m', write a bs m = Ok m' ∧ memory_ok m' ∧ read a (len bs) m' = Ok bs ∧
    ∀ b n, 0 ≤ b < len (ram m) → 0 ≤ n → b + n ≤ len (ram m) → b + n ≤ a ∨ a + len bs ≤ b →
      read b n m' = read b n m.
Proof.
  intros Hm Ha Hle Hbs. pose proof (write_in_ram a bs m Hm Ha Hle) as E.
  match type of E with _ = Ok ?x => set (m' := x) in E end.
  assert (memory_ok m') as Hm' by (eapply (write_ok a bs m); (done || lia)).
  assert (ram m' = splice (ram m) a bs) as Er by done. clearbody m'.
  exists m'. split; [done|]. split; [done|]. pose proof (len_nonneg bs). split.
  - rewrite read_in_ram, Er, slice_splice; rewrite ?Er, ?len_splice; try done; lia.
  - intros b n Hb Hn Hbn Hdis. rewrite !read_in_ram, Er by (rewrite ?Er, ?len_splice; (done || lia)).
    by rewrite slice_splice_disjoint by lia.
Qed.

(** ** Interrupts end to end *)

Lemma requests_vec vectors l v :
  lapic_ok l → Forall (λ v, 0 ≤ v < 256) vectors → 0 ≤ v < 256 →
  vec (irr (foldl (λ l v, Lapic.request v l) l vectors)) v
    = vec (irr l) v || bool_decide (v ∈ vectors).
Proof.
  intros Hl Hvs Hv. revert l Hl. induction Hvs as [|u vectors Hu _ IH]; intros l Hl.
  { rewrite bool_decide_false by set_solver. by rewrite orb_false_r. }
  cbn [foldl]. rewrite IH by (apply lapic_request_ok; (done || lia)).
  unfold Lapic.request. simpl. rewrite vec_set by (done || apply Hl).
  rewrite <- orb_assoc. f_equal. rewrite (bool_decide_ext (v ∈ u :: vectors) (v = u ∨ v ∈ vectors))
    by set_solver. by rewrite bool_decide_or.
Qed.

(** the EOI of a level-triggered interrupt crosses both controllers. When
    the guest's EOI store retires the vector [v] in service and an I/O APIC pin
    waits on [v], the store reaches the pin: if its line is still asserted, the
    vector is requested at the local APIC again and the pin waits on; if the
    line has been lowered, the pin is released and can fire at its next edge. *)
Theorem eoi_crosses_controllers m l v pin :
  memory_ok m → lapic m = Some l → (Lapic.end_of_interrupt l).1 = Some v → (pin < 24)%nat →
  retires v (entry (ioapic m) pin) = true →
  ∃ m' l', write_u32 (LAPIC_BASE + LAPIC_EOI) 0 m = Ok m' ∧ lapic m' = Some l' ∧ ram m' = ram m ∧
    let e := entry (ioapic m) pin in
    if asserted (lines (ioapic m)) pin e
    then vec (irr l') v = true ∧ remote_irr (entry (ioapic m') pin) = true
    else remote_irr (entry (ioapic m') pin) = false.
Proof.
  intros Hm El Ev Hpin Hret. pose proof (mo_lapic _ Hm l El) as Hl.
  pose proof (retired_range l v Hl Ev) as Hv. pose proof (lapic_eoi_ok l Hl) as Hl1.
  destruct (end_of_interrupt_spec v (ioapic m)) as (_ & Hvs & He); [apply Hm|].
  pose proof (eoi_vectors v _ (mo_ioapic _ Hm)) as Hall.
  assert (write_u32 (LAPIC_BASE + LAPIC_EOI) 0 m
    = Ok (write_lapic LAPIC_EOI (to_le_bytes 4 0) l m)) as ->.
  { unfold write_u32, write. change (LAPIC_BASE + LAPIC_EOI - LAPIC_BASE) with LAPIC_EOI.
    set (eoi := LAPIC_BASE + LAPIC_EOI).
    change (in_virtio_blk2 eoi) with false. change (in_virtio_net eoi) with false.
    change (in_virtio eoi) with false. change (in_ioapic eoi) with false.
    change (in_lapic eoi) with true. cbn iota. by rewrite El. }
  unfold write_lapic.
  change (wrap 8 (len (to_le_bytes 4 0))) with 4.
  change (Lapic.write LAPIC_EOI 4 (register_value (to_le_bytes 4 0)) l) with (Lapic.end_of_interrupt l).
  destruct (Lapic.end_of_interrupt l) as [[u|] l1]; [|done]. injection Ev as ->. cbn [snd] in Hl1.
  change (ioapic (m <| lapic := Some l1 |>)) with (ioapic m). specialize (He pin Hpin).
  destruct (IoApic.end_of_interrupt v (ioapic m)) as [vs a]. cbn [fst snd] in Hvs, He, Hall.
  eexists _, _. split; [reflexivity|]. split; [reflexivity|]. split; [done|].
  cbn zeta. simpl. rewrite He, retired_remote by done.
  destruct (asserted (lines (ioapic m)) pin (entry (ioapic m) pin)) eqn:Ha; [|done].
  split; [|done]. rewrite requests_vec; [|done| |done].
  2: { eapply Forall_impl; [done|]. by intros ? ->. }
  rewrite bool_decide_true, orb_true_r; [done|]. rewrite Hvs. apply list_elem_of_bind.
  exists pin. rewrite Hret, Ha. split; [by apply list_elem_of_singleton|]. apply elem_of_seq. lia.
Qed.

(** ** Panics *)

(** Addresses answered by a register file that reads at most two registers. *)
Definition register_file (a : Z) (m : Memory) : bool :=
  let virtio (base : Z) (present : bool) :=
    in_window base VIRTIO_MMIO_REGISTER_BYTES a && present in
  virtio VIRTIO_BLK2_MMIO_BASE (bool_decide (is_Some (virtio_blk2 m)))
  || virtio VIRTIO_NET_MMIO_BASE (bool_decide (is_Some (virtio_net m)))
  || virtio VIRTIO_MMIO_BASE (bool_decide (is_Some (virtio_blk m)))
  || (in_lapic a && bool_decide (is_Some (lapic m))).

Lemma read_registers_panics register offset n : read_registers register offset n = Err Panic ↔ 8 < n.
Proof.
  unfold read_registers. destruct (Z.gtb_spec n 4); [|split; [done|lia]].
  destruct (Z.gtb_spec (n - 4) 4); split; (done || lia).
Qed.

Lemma read_virtio_panics offset n register :
  read_virtio offset n register = Err Panic ↔
  8 < n ∧ offset < VIRTIO_MMIO_REGISTER_BYTES ∧ is_Some register.
Proof.
  unfold read_virtio. destruct (Z.geb_spec offset VIRTIO_MMIO_REGISTER_BYTES).
  - split; [done|]. intros (_ & ? & _). lia.
  - destruct register as [r|]; [rewrite read_registers_panics; naive_solver|].
    split; [done|]. by intros (_ & _ & [? ?]).
Qed.

(** a load panics the host exactly when it asks one of the register files
    (virtio or local APIC) for more than eight bytes. Operand accesses, at most
    eight bytes wide, never do; a fifteen-byte instruction fetch may. *)
Theorem load_panics_iff a n m :
  read a n m = Err Panic ↔ 8 < n ∧ register_file a m = true.
Proof.
  assert (∀ base, in_window base VIRTIO_MMIO_REGISTER_BYTES a = true ↔
    base ≤ a ∧ a - base < VIRTIO_MMIO_REGISTER_BYTES) as Hw by (intros; unfold in_window; lia).
  unfold read, register_file. rewrite !orb_true_iff, !andb_true_iff, !bool_decide_eq_true, !Hw.
  unfold in_virtio_blk2, in_virtio_net, in_virtio, in_ioapic, in_lapic, in_window,
    VIRTIO_BLK2_MMIO_BASE, VIRTIO_NET_MMIO_BASE, VIRTIO_MMIO_BASE, VIRTIO_MMIO_WINDOW_BYTES,
    VIRTIO_MMIO_REGISTER_BYTES, IOAPIC_BASE, IOAPIC_SIZE, LAPIC_BASE, LAPIC_SIZE in *.
  repeat match goal with |- context [if ?c then _ else _] => destruct c eqn:? end.
  1-3: rewrite read_virtio_panics, fmap_is_Some; unfold VIRTIO_MMIO_REGISTER_BYTES; intuition lia.
  - split; [done|]. intuition lia.
  - destruct (lapic m) as [l|]; [rewrite read_registers_panics; split; [split; [done|]|by intros []]|].
    + right. split; [lia|by eexists].
    + split; [|intros (_ & Hf); intuition (try lia); by destruct H4].
      unfold read_ram. by repeat case_match.
  - split; [unfold read_ram; by repeat case_match|]. intuition lia.
Qed.
End correctness.

(** ** A small machine *)

(** Two pages of RAM, vector 0x39 in service, and pin 9 level-triggered on that
    vector with its line asserted. *)
Definition demo_lapic : LocalApic :=
  Lapic.dispatch_ready (Lapic.request 0x39 (Lapic.new <| Lapic.svr := 0x1FF |>)).
Definition demo_machine : Memory (B := VecBlockBackend) (N := Recorder) :=
  mkMemory (zeros 8192) (Some demo_lapic) (IoApic.set_lines 0x200 wired).2
    (Some demo_blk) None (Some demo_net) 0 [0; 0].

Lemma demo_lapic_ok : lapic_ok demo_lapic.
Proof.
  apply dispatch_ok, lapic_request_ok; [done|]. by destruct lapic_new_ok as [[] _].
Qed.
Lemma demo_blk_ok : blk_ok demo_blk.
Proof. split; try done. apply demo_disk_ok. Qed.
Lemma demo_net_ok : net_ok demo_net.
Proof.
  assert (queue_ok demo_queue) by (split; [apply demo_queue_ok|done]).
  destruct (net_new_ok 0 ([] : Recorder)). split; simpl; try done.
  - split; [done|]. by repeat constructor.
  - split; [done|]. by intros [|[|]].
Qed.
Lemma demo_machine_ok : memory_ok demo_machine.
Proof.
  assert (Forall (word 8) (zeros 8192)) by (by apply Forall_replicate, word_const).
  assert (Forall (word 32) [0; 0]) by (by repeat (apply Forall_cons_2; [by apply word_const|])).
  assert (len (zeros 8192) = 8192) as El by (unfold len, zeros; rewrite length_replicate; lia).
  apply mk_memory_ok; cbn [demo_machine ram code_gen lapic ioapic virtio_blk virtio_blk2 virtio_net];
    rewrite ?El.
  - done.
  - by vm_compute.
  - by vm_compute.
  - done.
  - apply opt_some, demo_lapic_ok.
  - apply set_lines_ok, wired_ok.
  - apply opt_some, demo_blk_ok.
  - done.
  - apply opt_some, demo_net_ok.
Qed.
Lemma demo_size : len (ram demo_machine) = 8192.
Proof. unfold len. cbn [demo_machine ram]. unfold zeros. rewrite length_replicate. lia. Qed.

Definition poked : Memory := match write 4096 [0x90] demo_machine with Ok m => m | Err _ => demo_machine end.
Lemma poked_result : write 4096 [0x90] demo_machine = Ok poked.
Proof. vm_compute. reflexivity. Qed.
Lemma poked_run : mem_run demo_machine [(4096, [0x90])] poked.
Proof.
  pose proof (ms_write demo_machine 4096 [0x90] poked) as Hs. unfold cpu_stores in Hs.
  rewrite decide_True in Hs by (rewrite demo_size; by vm_compute).
  apply (mr_step demo_machine [] demo_machine); [constructor|]. apply Hs; [by apply word_const| |apply poked_result].
  apply Forall_singleton. by apply word_const.
Qed.
(** The store is counted for its own page, and the other page is as it was. *)
Lemma counters_account_for_stores_witness :
  memory_ok poked ∧ page_generation 4100 poked = wrap 32 (page_generation 4100 demo_machine + 1) ∧
  page (ram poked) 0 = page (ram demo_machine) 0.
Proof.
  destruct (counters_account_for_stores Recorder_bytes demo_machine [(4096, [0x90])] poked 4100) as (H1 & H2 & _);
    [exact demo_machine_ok|exact poked_run|rewrite demo_size; lia|].
  destruct (counters_account_for_stores Recorder_bytes demo_machine [(4096, [0x90])] poked 0) as (_ & _ & _ & H3 & _);
    [exact demo_machine_ok|exact poked_run|rewrite demo_size; lia|].
  split; [exact H1|]. split; [exact H2|]. apply H3. vm_compute. reflexivity.
Defined.

Lemma ram_reads_back_witness :
  ∃ m', write 100 [1; 2; 3] demo_machine = Ok m' ∧ read 100 3 m' = Ok [1; 2; 3] ∧
    read 0 8 m' = read 0 8 demo_machine.
Proof.
  destruct (ram_reads_back 100 [1; 2; 3] demo_machine) as (m' & E & _ & H1 & H2).
  - exact demo_machine_ok.
  - rewrite demo_size. lia.
  - rewrite demo_size. by vm_compute.
  - by repeat (apply Forall_cons_2; [by apply word_const|]).
  - exists m'. split; [exact E|]. split; [exact H1|]. apply H2; rewrite ?demo_size; try lia; left; lia.
Defined.

Lemma eoi_crosses_controllers_witness :
  ∃ m' l', write_u32 (LAPIC_BASE + LAPIC_EOI) 0 demo_machine = Ok m' ∧ lapic m' = Some l' ∧
    vec (irr l') 0x39 = true.
Proof.
  destruct (eoi_crosses_controllers demo_machine demo_lapic 0x39 9)
    as (m' & l' & E & El & _ & H).
  - exact demo_machine_ok.
  - reflexivity.
  - vm_compute; reflexivity.
  - lia.
  - vm_compute; reflexivity.
  - exists m', l'. split; [exact E|]. split; [exact El|].
    assert (asserted (lines (ioapic demo_machine)) 9 (entry (ioapic demo_machine) 9) = true) as Ha
      by (vm_compute; reflexivity).
    cbv zeta in H. rewrite Ha in H. exact (proj1 H).
Defined.
