(* ===== verification/Registers.v ===== *)
(** Architectural registers and segment descriptors,
    [rish-softvm-core/src/arch/registers.rs] and [arch/segments.rs].

    A [bitflags] set is its [u64] value and [set.contains(FLAG)], for a flag of
    one bit, is [has set FLAG]. A [SegmentSelector] is its [u16]. Of
    [iced_x86::Register] the code below only tells the segment registers apart,
    and of [iced_x86::CodeSize] the 16- and 32-bit sizes; the last constructor
    stands for every other value.

    The theorem shows that decoding a descriptor loses nothing of the eight
    bytes but the bit left to software. *)
From S2P Require Import Prelude.
Local Open Scope Z_scope.

Definition GP_REGISTERS : Z := 16.

(** [mod index] *)
Definition RAX : nat := 0.
Definition RCX : nat := 1.
Definition RDX : nat := 2.
Definition RBX : nat := 3.
Definition RSP : nat := 4.
Definition RBP : nat := 5.
Definition RSI : nat := 6.
Definition RDI : nat := 7.

Module RFlags.
Definition CF : Z := bit 0.
Definition PF : Z := bit 2.
Definition AF : Z := bit 4.
Definition ZF : Z := bit 6.
Definition SF : Z := bit 7.
Definition TF : Z := bit 8.
Definition IF : Z := bit 9.
Definition DF : Z := bit 10.
Definition OF : Z := bit 11.
Definition NT : Z := bit 14.
Definition RF : Z := bit 16.
Definition AC : Z := bit 18.
(** IOPL, VM, VIF and VIP. *)
Definition PROTECTED : Z := bit 12 .| bit 13 .| bit 17 .| bit 19 .| bit 20.
(** [RFlags::from_bits_truncate]: the flags the set defines. *)
Definition ALL : Z :=
  CF .| PF .| AF .| ZF .| SF .| TF .| IF .| DF .| OF .| NT .| RF .| AC .| PROTECTED .| bit 21.
Definition from_bits_truncate (bits : Z) : Z := bits .& ALL.
End RFlags.

Module Cr0.
Definition PE : Z := bit 0.
Definition ET : Z := bit 4.
Definition NE : Z := bit 5.
Definition WP : Z := bit 16.
Definition PG : Z := bit 31.
End Cr0.

Module Cr4.
Definition PSE : Z := bit 4.
Definition PAE : Z := bit 5.
Definition LA57 : Z := bit 12.
Definition SMEP : Z := bit 20.
Definition SMAP : Z := bit 21.
End Cr4.

Module Efer.
Definition LME : Z := bit 8.
Definition LMA : Z := bit 10.
Definition NXE : Z := bit 11.
End Efer.

(** ** Segments *)

Definition selector_index (selector : Z) : Z := selector ≫ 3.
Definition selector_table (selector : Z) : Z := if has selector 4 then 1 else 0.
Definition selector_rpl (selector : Z) : Z := selector .& 3.

Record SegmentAttributes := mkAttributes {
  present : bool;
  dpl : Z;
  system : bool;
  descriptor_type : Z;
  accessed : bool
}.

Record SegmentRegister := mkSegment {
  selector : Z;
  base : Z;
  limit : Z;
  attributes : SegmentAttributes;
  granularity : bool;
  default_32 : bool;
  long_mode : bool;
  expand_down : bool;
  writable_or_readable : bool;
  code : bool;
  conforming : bool
}.
#[export] Instance SegmentRegister_eta : Settable SegmentRegister := λ s,
  mkSegment (selector s) (base s) (limit s) (attributes s) (granularity s) (default_32 s)
    (long_mode s) (expand_down s) (writable_or_readable s) (code s) (conforming s).

Definition SegmentRegister_default : SegmentRegister :=
  mkSegment 0 0 (2 ^ 32 - 1) (mkAttributes true 0 false 0 false)
    true false false false true false false.

Definition real_mode (sel : Z) : SegmentRegister :=
  SegmentRegister_default <| selector := sel |> <| base := sel ≪ 4 |>.

Definition is_32_bit_code (s : SegmentRegister) : bool := code s && default_32 s.

Definition effective_limit (s : SegmentRegister) : Z :=
  if granularity s then (limit s ≪ 12) .| 0xFFF else limit s.

(** A decoded descriptor has the fields of the segment it loads, all but the
    selector; [load] adds it. *)
Record Descriptor := mkDescriptor {
  d_base : Z;
  d_limit : Z;
  d_granularity : bool;
  d_default_32 : bool;
  d_long_mode : bool;
  d_present : bool;
  d_dpl : Z;
  d_system : bool;
  d_descriptor_type : Z;
  d_code : bool;
  d_conforming : bool;
  d_expand_down : bool;
  d_writable_or_readable : bool;
  d_accessed : bool
}.

Definition decode (entry : Z) : Descriptor := {|
  d_base := ((entry .& 0xFF00000000000000) ≫ 32)
         .| ((entry .& 0x000000FF00000000) ≫ 16)
         .| ((entry ≫ 16) .& 0xFFFF);
  d_limit := ((entry ≫ 48) .& 0xF) * 0x10000 .| (entry .& 0xFFFF);
  d_granularity := has entry (bit 55);
  d_default_32 := has entry (bit 54);
  d_long_mode := has entry (bit 53);
  d_present := has entry (bit 47);
  d_dpl := (entry ≫ 45) .& 3;
  d_system := negb (has entry (bit 44));
  d_descriptor_type := (entry ≫ 40) .& 0xF;
  d_code := has entry (bit 43);
  d_conforming := has entry (bit 42);
  d_expand_down := has entry (bit 42);
  d_writable_or_readable := has entry (bit 41);
  d_accessed := has entry (bit 40)
|}.

Definition load (d : Descriptor) (selector : Z) : SegmentRegister :=
  mkSegment selector (d_base d) (d_limit d)
    (mkAttributes (d_present d) (d_dpl d) (d_system d) (d_descriptor_type d) (d_accessed d))
    (d_granularity d) (d_default_32 d) (d_long_mode d) (d_expand_down d)
    (d_writable_or_readable d) (d_code d) (d_conforming d).

(** ** Registers *)

Inductive CpuMode := Real | Protected16 | Protected32 | Long.
#[export] Instance CpuMode_eq_dec : EqDecision CpuMode.
Proof. solve_decision. Defined.

(** [xmm] lanes are [u128]. *)
Record Registers := mkRegisters {
  gpr : list Z;
  rip : Z;
  rflags : Z;
  xmm : list Z;
  cr0 : Z;
  cr2 : Z;
  cr3 : Z;
  cr4 : Z;
  cr8 : Z;
  efer : Z;
  cs : SegmentRegister;
  ds : SegmentRegister;
  es : SegmentRegister;
  fs : SegmentRegister;
  gs : SegmentRegister;
  ss : SegmentRegister;
  gdt_base : Z;
  gdt_limit : Z;
  idt_base : Z;
  idt_limit : Z;
  ldtr : SegmentRegister;
  tr : SegmentRegister;
  tr_base : Z;
  instructions_retired : Z
}.
#[export] Instance Registers_eta : Settable Registers := λ r,
  mkRegisters (gpr r) (rip r) (rflags r) (xmm r) (cr0 r) (cr2 r) (cr3 r) (cr4 r) (cr8 r)
    (efer r) (cs r) (ds r) (es r) (fs r) (gs r) (ss r) (gdt_base r) (gdt_limit r)
    (idt_base r) (idt_limit r) (ldtr r) (tr r) (tr_base r) (instructions_retired r).

Definition Registers_default : Registers :=
  mkRegisters (replicate 16 0) 0 0 (replicate 16 0) (Cr0.ET .| Cr0.NE) 0 0 0 0 0
    (real_mode 0xF000) (real_mode 0) (real_mode 0) (real_mode 0) (real_mode 0) (real_mode 0)
    0 0 0 0 SegmentRegister_default SegmentRegister_default 0 0.

(** [self.gpr[index]] for the constant indices of [mod index]. *)
Definition rsp (r : Registers) : Z := gpr r !!! RSP.
Definition set_rsp (value : Z) (r : Registers) : Registers :=
  r <| gpr ::= <[RSP := value]> |>.

Definition mode (r : Registers) : CpuMode :=
  if has (efer r) Efer.LMA then Long
  else if has (cr0 r) Cr0.PE then
    if is_32_bit_code (cs r) then Protected32 else Protected16
  else Real.

Definition cpl (r : Registers) : Z :=
  match mode r with
  | Real => 0
  | _ => selector_rpl (selector (cs r))
  end.

Definition code_base (r : Registers) : Z :=
  match mode r with
  | Long => 0
  | _ => base (cs r)
  end.

Definition stack_base (r : Registers) : Z :=
  match mode r with
  | Long => 0
  | _ => base (ss r)
  end.

Inductive Segment := ES | CS | SS | DS | FS | GS | NotSegment.

Definition segment_selector (s : Segment) (r : Registers) : Z :=
  match s with
  | ES => selector (es r)
  | CS => selector (cs r)
  | SS => selector (ss r)
  | DS => selector (ds r)
  | FS => selector (fs r)
  | GS => selector (gs r)
  | NotSegment => 0
  end.

Definition data_base (s : Segment) (r : Registers) : Z :=
  match mode r with
  | Long => match s with FS => base (fs r) | GS => base (gs r) | _ => 0 end
  | _ => match s with
         | ES => base (es r)
         | FS => base (fs r)
         | GS => base (gs r)
         | _ => base (ds r)
         end
  end.

Inductive CodeSize := Code16 | Code32 | OtherSize.

Definition address_size (size : CodeSize) (r : Registers) : Z :=
  match mode r, size with
  | Long, Code32 => 4
  | Long, _ => 8
  | _, Code16 => 2
  | _, _ => 4
  end.

(** ** Descriptors *)

(** The architectural layout of a code or data descriptor, bit 52 clear. *)
Definition encode (d : Descriptor) : Z :=
     (d_limit d .& 0xFFFF)
  .| ((d_base d .& 0xFFFFFF) ≪ 16)
  .| (d_descriptor_type d ≪ 40)
  .| (Z.b2z (negb (d_system d)) ≪ 44)
  .| (d_dpl d ≪ 45)
  .| (Z.b2z (d_present d) ≪ 47)
  .| ((d_limit d ≫ 16) ≪ 48)
  .| (Z.b2z (d_long_mode d) ≪ 53)
  .| (Z.b2z (d_default_32 d) ≪ 54)
  .| (Z.b2z (d_granularity d) ≪ 55)
  .| ((d_base d ≫ 24) ≪ 56).

Lemma b2z_testbit b i : Z.testbit (Z.b2z b) i = b && (i =? 0).
Proof.
  destruct (Z.eqb_spec i 0) as [->|]; [by destruct b|].
  destruct b; cbn [Z.b2z andb]; [|apply Z.bits_0].
  destruct (decide (i < 0)); [by apply Z.testbit_neg_r|].
  by apply (word_testbit 1); [apply word_const|lia].
Qed.

Lemma decode_words entry :
  word 64 entry →
  word 32 (d_base (decode entry)) ∧ word 20 (d_limit (decode entry)) ∧
  word 2 (d_dpl (decode entry)) ∧ word 4 (d_descriptor_type (decode entry)).
Proof.
  intros He. split_and!; cbn [decode d_base d_limit d_dpl d_descriptor_type].
  - assert (∀ m k, 0 ≤ m < 2 ^ 64 → m < 2 ^ (32 + k) → 0 ≤ k → word 32 ((entry .& m) ≫ k)) as Hs.
    { intros m k ? ? ?. assert (word (32 + k) (entry .& m)) as [? Hlt].
      { apply word_land_r; [lia|by eapply word_nonneg|split; lia]. }
      split; [by apply Z.shiftr_nonneg|]. rewrite Z.shiftr_div_pow2 by lia.
      apply Z.div_lt_upper_bound; [lia|]. rewrite Z.pow_add_r in Hlt by lia. lia. }
    apply word_lor; [lia|apply word_lor; [lia|apply Hs; lia|apply Hs; lia]|].
    solve_word.
  - apply word_lor; [lia| |solve_word].
    assert (word 4 ((entry ≫ 48) .& 15)) as [? ?] by solve_word. split; lia.
  - solve_word.
  - solve_word.
Qed.

Lemma word_shiftl w v x k : 0 ≤ w → 0 ≤ k → w + k ≤ v → word w x → word v (x ≪ k).
Proof.
  intros Hw Hk Hv [? ?]. rewrite Z.shiftl_mul_pow2 by lia.
  apply (word_mono (w + k)); [lia|lia|]. split; [lia|]. rewrite Z.pow_add_r by lia. nia.
Qed.
Lemma word_b2z b : word 1 (Z.b2z b).
Proof. destruct b; by apply word_const. Qed.

Lemma encode_word entry : word 64 entry → word 64 (encode (decode entry)).
Proof.
  intros He. destruct (decode_words entry He) as (Hb & Hl & Hd & Ht).
  unfold encode. generalize dependent (decode entry). intros d Hb Hl Hd Ht.
  assert (∀ x k n, 0 ≤ k → 0 ≤ n → word n x → n - k ≤ 8 → word 8 (x ≫ k)) as Hshr.
  { intros x k n ? ? [? ?] ?. split; [by apply Z.shiftr_nonneg|].
    rewrite Z.shiftr_div_pow2 by lia. apply Z.div_lt_upper_bound; [lia|].
    rewrite <- Z.pow_add_r by lia. apply Z.lt_le_trans with (2 ^ n); [done|].
    apply Z.pow_le_mono_r; lia. }
  repeat (apply word_lor; [lia| |]);
    first [ solve_word
          | apply (word_shiftl 24); [lia..|solve_word]
          | apply (word_shiftl 1); [lia..|apply word_b2z]
          | apply (word_shiftl 4); [lia..|done]
          | apply (word_shiftl 2); [lia..|done]
          | apply (word_shiftl 8); [lia..|eapply Hshr; [lia| |done|lia]; lia] ].
Qed.

(** Shifts at any index, negative ones included. *)
Lemma testbit_shiftl x k j : 0 ≤ k → Z.testbit (x ≪ k) j = (0 <=? j) && Z.testbit x (j - k).
Proof.
  intros. destruct (Z.leb_spec 0 j); [by apply Z.shiftl_spec|by apply Z.testbit_neg_r].
Qed.
Lemma testbit_shiftr x k j : 0 ≤ k → Z.testbit (x ≫ k) j = (0 <=? j) && Z.testbit x (j + k).
Proof.
  intros. destruct (Z.leb_spec 0 j); [by apply Z.shiftr_spec|by apply Z.testbit_neg_r].
Qed.

(** A boolean identity in the bits [f n] of an entry. *)
Ltac bool_cases f :=
  vm_compute;
  repeat match goal with |- context [if f ?n then _ else _] => destruct (f n) end;
  reflexivity.

(** Decoding a descriptor keeps every bit of the eight bytes except bit 52,
    which is left to software: the architectural layout of the decoded fields
    is the entry again, and the code, conforming, expand-down, writable and
    accessed flags are the bits of the decoded type. *)
Theorem decode_lossless entry :
  word 64 entry →
  encode (decode entry) = entry .&~ bit 52 ∧
  d_code (decode entry) = Z.testbit (d_descriptor_type (decode entry)) 3 ∧
  d_conforming (decode entry) = Z.testbit (d_descriptor_type (decode entry)) 2 ∧
  d_expand_down (decode entry) = Z.testbit (d_descriptor_type (decode entry)) 2 ∧
  d_writable_or_readable (decode entry) = Z.testbit (d_descriptor_type (decode entry)) 1 ∧
  d_accessed (decode entry) = Z.testbit (d_descriptor_type (decode entry)) 0.
Proof.
  intros He. split.
  - apply (word_ext 64); [lia|by apply encode_word|solve_word|].
    intros i Hi. unfold encode. cbn [decode d_base d_limit d_granularity d_default_32 d_long_mode
      d_present d_dpl d_system d_descriptor_type].
    replace (((entry ≫ 48) .& 0xF) * 0x10000) with (((entry ≫ 48) .& 0xF) ≪ 16)
      by (by rewrite Z.shiftl_mul_pow2).
    rewrite !has_testbit, !negb_involutive by lia.
    rewrite ?Z.lor_spec, ?Z.ldiff_spec, ?testbit_shiftl, ?Z.land_spec, ?testbit_shiftr, ?Z.lor_spec,
      ?testbit_shiftl, ?Z.land_spec, ?testbit_shiftr, ?Z.land_spec, ?b2z_testbit
      by lia.
    generalize (Z.testbit entry). intros f.
    assert (i ∈ seqZ 0 64) as Hin by (apply elem_of_seqZ; lia). clear Hi. revert i Hin.
    apply Forall_forall. repeat (apply Forall_cons_2; [bool_cases f|]). apply Forall_nil_2.
  - cbn [decode d_code d_conforming d_expand_down d_writable_or_readable d_accessed
      d_descriptor_type]. bits. rewrite !andb_true_r. done.
Qed.

(** The flat 64-bit code descriptor of a Linux guest, present at ring 0. *)
Lemma decode_lossless_witness :
  encode (decode 0x00AF9A000000FFFF) = 0x00AF9A000000FFFF ∧
  d_long_mode (decode 0x00AF9A000000FFFF) = true.
Proof.
  split; [|reflexivity].
  refine (eq_trans (proj1 (decode_lossless 0x00AF9A000000FFFF _)) _); [|reflexivity].
  by apply word_const.
Defined.
