(* ===== verification/Paging.v ===== *)
(** Linear-to-physical translation, [rish-softvm-core/src/arch/paging.rs]: the
    32-bit, PAE, 4-level and 5-level page walks and the access check.

    The loads of table entries go through the machine's memory, so an entry may
    come from a device register. An error of such a load becomes a fault with
    error code 0. (A load panics only when it asks a register file for more
    than eight bytes, as [Memory.v] shows, and entries are four or eight.)

    The walks of the source are unrolled; [radix] is one recursion over a list
    of levels, and every walk is an instance of it. The theorems then show
    alignment and uniformity of the mapped page and the access rules. *)
From Stdlib Require Import Btauto.
From S2P Require Import Prelude.
From S2P Require Import Ports.
From S2P Require Import VirtQueue.
From S2P Require Import VirtioBlk.
From S2P Require Import VirtioNet.
From S2P Require Import Memory.
From S2P Require Import Registers.
Local Open Scope Z_scope.

Definition PAGE_PRESENT : Z := bit 0.
Definition PAGE_WRITABLE : Z := bit 1.
Definition PAGE_USER : Z := bit 2.
Definition PAGE_LARGE : Z := bit 7.
Definition PAGE_NX : Z := bit 63.
Definition TABLE_MASK : Z := 0x000FFFFFFFFFF000.

Inductive AccessKind := Read | Write | Execute.
#[export] Instance AccessKind_eq_dec : EqDecision AccessKind.
Proof. solve_decision. Defined.

Record PageFault := mkPageFault {
  pf_linear : Z;
  pf_error_code : Z
}.

Definition FAULT_PRESENT : Z := bit 0.
Definition FAULT_WRITE : Z := bit 1.
Definition FAULT_USER : Z := bit 2.
Definition FAULT_RESERVED : Z := bit 3.
Definition FAULT_FETCH : Z := bit 4.

Record Translation := mkTranslation {
  frame : Z;
  page_size : Z;
  writable : bool;
  user : bool;
  no_execute : bool
}.
#[export] Instance Translation_eta : Settable Translation := λ t,
  mkTranslation (frame t) (page_size t) (writable t) (user t) (no_execute t).
#[export] Instance Translation_eq_dec : EqDecision Translation.
Proof. solve_decision. Defined.

Definition physical (linear : Z) (t : Translation) : Z :=
  frame t .| (linear .& (page_size t - 1)).

Definition reserved_mask (efer : Z) : Z := 0.

Definition accumulate (entry : Z) (state : Translation) : Translation :=
  state <| writable ::= λ b, b && has entry PAGE_WRITABLE |>
        <| user ::= λ b, b && has entry PAGE_USER |>
        <| no_execute ::= λ b, b || has entry PAGE_NX |>.

Definition permissive (page_size : Z) : Translation := mkTranslation 0 page_size true true false.

Definition reserved_fault (linear : Z) : PageFault :=
  mkPageFault linear (FAULT_PRESENT .| FAULT_RESERVED).

Definition validate_entry (entry linear reserved : Z) : result PageFault Z :=
  if entry .& PAGE_PRESENT =? 0 then Err (mkPageFault linear 0)
  else if has entry reserved then Err (reserved_fault linear)
  else Ok entry.

Definition large_page (state : Translation) (entry shift : Z) : result PageFault Translation :=
  let mask := bit shift - 1 in
  Ok (state <| page_size := mask + 1 |> <| frame := entry .&~ mask .& TABLE_MASK |>).

Definition with_access_bits (fault : PageFault) (kind : AccessKind) (cpl : Z) : PageFault :=
  let code := pf_error_code fault in
  let code := match kind with Write => code .| FAULT_WRITE | _ => code end in
  let code := match kind with Execute => code .| FAULT_FETCH | _ => code end in
  let code := if cpl =? 3 then code .| FAULT_USER else code in
  mkPageFault (pf_linear fault) code.

Definition check_access (walked : Translation) (linear : Z) (kind : AccessKind)
    (cpl cr0 cr4 efer : Z) (alignment_check : bool) : result PageFault () :=
  let is_user := cpl =? 3 in
  let error_code := FAULT_PRESENT in
  let error_code := if is_user then error_code .| FAULT_USER else error_code in
  let error_code := match kind with Write => error_code .| FAULT_WRITE | _ => error_code end in
  let error_code := match kind with Execute => error_code .| FAULT_FETCH | _ => error_code end in
  let deny := Err (mkPageFault linear error_code) in
  if is_user && negb (user walked) then deny
  else
    let smap :=
      if negb is_user && negb (bool_decide (kind = Execute)) && has cr4 Cr4.SMAP
         && user walked && negb alignment_check
      then deny else Ok () in
    match kind with
    | Write =>
        let enforced := is_user || has cr0 Cr0.WP in
        if enforced && negb (writable walked) then deny else smap
    | Execute =>
        if has efer Efer.NXE && no_execute walked then deny
        else if negb is_user && has cr4 Cr4.SMEP && user walked then deny
        else smap
    | Read => smap
    end.

Section walks.
Context {B N : Type} `{BlockBackend B} `{NetBackend N}.
Implicit Types m : Memory (B := B) (N := N).

Definition read_entry m (address linear reserved : Z) : result PageFault Z :=
  let? entry := map_err (λ _, mkPageFault linear 0) (read_u64 address m) in
  validate_entry entry linear reserved.

Definition read_entry32 m (address linear reserved : Z) : result PageFault Z :=
  let? entry := map_err (λ _, mkPageFault linear 0) (read_u32 address m) in
  validate_entry entry linear reserved.

Definition walk_generic m (cr3 reserved linear : Z) (five_level : bool)
    : result PageFault Translation :=
  let state := permissive 0x1000 in
  let? entry :=
    if five_level then
      let index := (linear ≫ 48) .& 0x1FF in
      read_entry m ((cr3 .& TABLE_MASK) + index * 8) linear reserved
    else
      let index := (linear ≫ 39) .& 0x1FF in
      read_entry m ((cr3 .& TABLE_MASK) + index * 8) linear reserved in
  let state := accumulate entry state in
  if has entry PAGE_LARGE then Err (reserved_fault linear)
  else
    let? (entry, state) :=
      if five_level then
        let pml4_index := (linear ≫ 39) .& 0x1FF in
        let? entry := read_entry m ((entry .& TABLE_MASK) + pml4_index * 8) linear reserved in
        let state := accumulate entry state in
        if has entry PAGE_LARGE then Err (reserved_fault linear) else Ok (entry, state)
      else Ok (entry, state) in
    let pdpt_index := (linear ≫ 30) .& 0x1FF in
    let? entry := read_entry m ((entry .& TABLE_MASK) + pdpt_index * 8) linear reserved in
    let state := accumulate entry state in
    if has entry PAGE_LARGE then large_page state entry 30
    else
      let pd_index := (linear ≫ 21) .& 0x1FF in
      let? entry := read_entry m ((entry .& TABLE_MASK) + pd_index * 8) linear reserved in
      let state := accumulate entry state in
      if has entry PAGE_LARGE then large_page state entry 21
      else
        let pt_index := (linear ≫ 12) .& 0x1FF in
        let? entry := read_entry m ((entry .& TABLE_MASK) + pt_index * 8) linear reserved in
        let state := accumulate entry state in
        Ok (state <| frame := entry .& TABLE_MASK .&~ 0xFFF |>).

Definition walk_pae32 m (cr3 reserved linear : Z) : result PageFault Translation :=
  let state := permissive 0x1000 in
  let pdpt_index := (linear ≫ 30) .& 3 in
  let? entry := read_entry m ((cr3 .& 0xFFFFFFE0) + pdpt_index * 8) linear reserved in
  if has entry PAGE_LARGE then Err (reserved_fault linear)
  else
    let pd_index := (linear ≫ 21) .& 0x1FF in
    let? entry := read_entry m ((entry .& TABLE_MASK) + pd_index * 8) linear reserved in
    let state := accumulate entry state in
    if has entry PAGE_LARGE then large_page state entry 21
    else
      let pt_index := (linear ≫ 12) .& 0x1FF in
      let? entry := read_entry m ((entry .& TABLE_MASK) + pt_index * 8) linear reserved in
      let state := accumulate entry state in
      Ok (state <| frame := entry .& TABLE_MASK .&~ 0xFFF |>).

Definition walk_2_level m (cr3 cr4 reserved linear : Z) : result PageFault Translation :=
  let state := permissive 0x1000 in
  let pd_index := (linear ≫ 22) .& 0x3FF in
  let? entry := read_entry32 m ((cr3 .& 0xFFFFF000) + pd_index * 4) linear reserved in
  let state := accumulate entry state in
  if has entry PAGE_LARGE then
    if negb (has cr4 Cr4.PSE) then Err (reserved_fault linear)
    else Ok (state <| page_size := 0x400000 |> <| frame := entry .& 0xFFC00000 |>)
  else
    let pt_index := (linear ≫ 12) .& 0x3FF in
    let? entry := read_entry32 m ((entry .& 0xFFFFF000) + pt_index * 4) linear reserved in
    let state := accumulate entry state in
    Ok (state <| frame := entry .& 0xFFFFF000 |>).

Definition walk m (cr3 cr4 efer linear : Z) : result PageFault Translation :=
  let reserved := reserved_mask efer in
  if has efer Efer.LMA then walk_generic m cr3 reserved linear (has cr4 Cr4.LA57)
  else if has cr4 Cr4.PAE then walk_pae32 m cr3 reserved linear
  else walk_2_level m cr3 cr4 reserved linear.

Definition translate m (cr3 cr0 cr4 efer linear : Z) (kind : AccessKind) : result PageFault Z :=
  if negb (has cr0 Cr0.PG) then Ok linear
  else
    let? walked := walk m cr3 cr4 efer linear in
    let? _ := check_access walked linear kind 0 cr0 cr4 efer false in
    Ok (physical linear walked).

End walks.

(** ** Reference walk *)

(** What an entry with the page-size bit set does at a level: a fault, a page
    of [2 ^ shift] bytes at the frame under [mask], or nothing (the bit has
    another meaning in the last level). *)
Inductive at_large :=
  | Invalid
  | Page (shift mask : Z)
  | NotSize.

(** One level of tables: the linear bits that index it, the width of its
    entries, whether its entries carry permissions, the mask of the pointer
    they hold. *)
Record level := mkLevel {
  index_shift : Z;
  index_bits : Z;
  entry_bytes : Z;
  narrows : bool;
  large : at_large;
  pointer_mask : Z
}.

Definition long_level (shift : Z) (l : at_large) : level := mkLevel shift 9 8 true l TABLE_MASK.

(** The levels of the four paging modes, root first, and the mask that takes
    the root table out of CR3. *)
Definition levels (cr4 efer : Z) : list level :=
  if has efer Efer.LMA then
    (if has cr4 Cr4.LA57 then [long_level 48 Invalid] else []) ++
    [long_level 39 Invalid;
     long_level 30 (Page 30 0x000FFFFFC0000000);
     long_level 21 (Page 21 0x000FFFFFFFE00000);
     long_level 12 NotSize]
  else if has cr4 Cr4.PAE then
    [mkLevel 30 2 8 false Invalid TABLE_MASK;
     long_level 21 (Page 21 0x000FFFFFFFE00000);
     long_level 12 NotSize]
  else
    [mkLevel 22 10 4 true (if has cr4 Cr4.PSE then Page 22 0xFFC00000 else Invalid) 0xFFFFF000;
     mkLevel 12 10 4 true NotSize 0xFFFFF000].
Definition root_mask (cr4 efer : Z) : Z :=
  if has efer Efer.LMA then TABLE_MASK
  else if has cr4 Cr4.PAE then 0xFFFFFFE0 else 0xFFFFF000.

(** The translation made of a page and the entries passed on the way. *)
Definition grant (entries : list Z) (shift base : Z) : Translation :=
  mkTranslation base (2 ^ shift)
    (forallb (λ e, has e PAGE_WRITABLE) entries)
    (forallb (λ e, has e PAGE_USER) entries)
    (existsb (λ e, has e PAGE_NX) entries).

Section reference.
Context {B N : Type} `{BlockBackend B} `{NetBackend N}.
Implicit Types m : Memory (B := B) (N := N).

Definition index_of (l : level) (linear : Z) : Z := (linear / 2 ^ index_shift l) `mod` 2 ^ index_bits l.

(** The present entry of a table, if it can be loaded. *)
Definition entry_at m (l : level) (table linear : Z) : option Z :=
  let load := if entry_bytes l =? 8 then read_u64 else read_u32 in
  match load (table + index_of l linear * entry_bytes l) m with
  | Ok e => if Z.testbit e 0 then Some e else None
  | Err _ => None
  end.

Fixpoint radix m (ls : list level) (table linear : Z) (entries : list Z)
    : result PageFault Translation :=
  match ls with
  | [] => Ok (grant entries 12 table)
  | l :: ls =>
      match entry_at m l table linear with
      | None => Err (mkPageFault linear 0)
      | Some e =>
          let entries := if narrows l then entries ++ [e] else entries in
          let next := radix m ls (e .& pointer_mask l) linear entries in
          if Z.testbit e 7 then
            match large l with
            | Invalid => Err (mkPageFault linear (FAULT_PRESENT .| FAULT_RESERVED))
            | Page shift mask => Ok (grant entries shift (e .& mask))
            | NotSize => next
            end
          else next
      end
  end.

Lemma grant_permissive : permissive 0x1000 = grant [] 12 0.
Proof. done. Qed.
Lemma grant_accumulate es e : accumulate e (grant es 12 0) = grant (es ++ [e]) 12 0.
Proof.
  unfold grant. rewrite !forallb_app, existsb_app. simpl.
  by rewrite !andb_true_r, orb_false_r.
Qed.
Lemma grant_large es e shift :
  0 ≤ shift →
  large_page (grant es 12 0) e shift = Ok (grant es shift (e .& (TABLE_MASK .&~ (2 ^ shift - 1)))).
Proof.
  intros. unfold large_page. rewrite bit_pow2 by done. f_equal.
  unfold grant, set_field. cbn [frame page_size writable user no_execute].
  f_equal; [|lia]. apply Z.bits_inj'. intros i Hi.
  rewrite !Z.land_spec, !Z.ldiff_spec. btauto.
Qed.
Lemma grant_leaf es e :
  (grant es 12 0) <| frame := e .& TABLE_MASK .&~ 0xFFF |> = grant es 12 (e .& TABLE_MASK).
Proof.
  unfold grant, set_field. cbn [frame page_size writable user no_execute]. f_equal.
  apply Z.bits_inj'. intros i Hi. change TABLE_MASK with (TABLE_MASK .&~ 0xFFF) at 2.
  rewrite Z.ldiff_spec, !Z.land_spec, Z.ldiff_spec. btauto.
Qed.

Lemma index_land linear shift bits :
  0 ≤ shift → 0 ≤ bits → (linear ≫ shift) .& Z.ones bits = (linear / 2 ^ shift) `mod` 2 ^ bits.
Proof. intros. by rewrite Z.land_ones, Z.shiftr_div_pow2. Qed.

Lemma read_entry_at m l table linear index :
  entry_bytes l = 8 → index = index_of l linear →
  read_entry m (table + index * 8) linear 0 =
    match entry_at m l table linear with Some e => Ok e | None => Err (mkPageFault linear 0) end.
Proof.
  intros Hb ->. unfold read_entry, entry_at, validate_entry. rewrite Hb. cbn [Z.eqb Pos.eqb].
  destruct (read_u64 _ m) as [e|]; [|done]. cbn [map_err rbind].
  rewrite <- (has_testbit e 0) by lia. unfold has. rewrite Z.land_0_r. by destruct (_ =? 0).
Qed.
Lemma read_entry32_at m l table linear index :
  entry_bytes l = 4 → index = index_of l linear →
  read_entry32 m (table + index * 4) linear 0 =
    match entry_at m l table linear with Some e => Ok e | None => Err (mkPageFault linear 0) end.
Proof.
  intros Hb ->. unfold read_entry32, entry_at, validate_entry. rewrite Hb. cbn [Z.eqb Pos.eqb].
  destruct (read_u32 _ m) as [e|]; [|done]. cbn [map_err rbind].
  rewrite <- (has_testbit e 0) by lia. unfold has. rewrite Z.land_0_r. by destruct (_ =? 0).
Qed.

Lemma has_large e : has e PAGE_LARGE = Z.testbit e 7.
Proof. by apply has_testbit. Qed.

Ltac solve_index :=
  unfold index_of; cbn [index_shift index_bits long_level];
  rewrite <- index_land by lia; reflexivity.

(** One step of an unrolled walk, with the reserved mask of the source. *)
Ltac walk_step l :=
  first [ rewrite (read_entry_at _ l) by (reflexivity || solve_index)
        | rewrite (read_entry32_at _ l) by (reflexivity || solve_index) ];
  let e := fresh "e" in
  destruct (entry_at _ l _ _) as [e|]; cbn [rbind]; [|reflexivity];
  rewrite ?grant_accumulate, ?has_large; cbn [narrows large pointer_mask long_level];
  destruct (Z.testbit e 7); rewrite ?grant_large, ?grant_leaf by lia; try reflexivity.

Lemma walk_generic_radix m cr3 cr4 efer linear :
  has efer Efer.LMA = true →
  walk_generic m cr3 0 linear (has cr4 Cr4.LA57) =
    radix m (levels cr4 efer) (cr3 .& root_mask cr4 efer) linear [].
Proof.
  intros Hlma. unfold walk_generic, levels, root_mask. rewrite Hlma, grant_permissive.
  destruct (has cr4 Cr4.LA57); cbn [app radix].
  - walk_step (long_level 48 Invalid). walk_step (long_level 39 Invalid). 
    cbn [rbind]. walk_step (long_level 30 (Page 30 0x000FFFFFC0000000)).
    walk_step (long_level 21 (Page 21 0x000FFFFFFFE00000)). walk_step (long_level 12 NotSize).
  - walk_step (long_level 39 Invalid).
    cbn [rbind]. walk_step (long_level 30 (Page 30 0x000FFFFFC0000000)).
    walk_step (long_level 21 (Page 21 0x000FFFFFFFE00000)). walk_step (long_level 12 NotSize).
Qed.

Lemma walk_pae32_radix m cr3 cr4 efer linear :
  has efer Efer.LMA = false → has cr4 Cr4.PAE = true →
  walk_pae32 m cr3 0 linear = radix m (levels cr4 efer) (cr3 .& root_mask cr4 efer) linear [].
Proof.
  intros Hlma Hpae. unfold walk_pae32, levels, root_mask.
  rewrite Hlma, Hpae, grant_permissive. cbn [radix].
  walk_step (mkLevel 30 2 8 false Invalid TABLE_MASK).
  walk_step (long_level 21 (Page 21 0x000FFFFFFFE00000)). walk_step (long_level 12 NotSize).
Qed.

Lemma walk_2_level_radix m cr3 cr4 efer linear :
  has efer Efer.LMA = false → has cr4 Cr4.PAE = false →
  walk_2_level m cr3 cr4 0 linear = radix m (levels cr4 efer) (cr3 .& root_mask cr4 efer) linear [].
Proof.
  intros Hlma Hpae. unfold walk_2_level, levels, root_mask.
  rewrite Hlma, Hpae, grant_permissive. cbn [radix].
  destruct (has cr4 Cr4.PSE); cbn [negb].
  - walk_step (mkLevel 22 10 4 true (Page 22 0xFFC00000) 0xFFFFF000).
    walk_step (mkLevel 12 10 4 true NotSize 0xFFFFF000).
  - walk_step (mkLevel 22 10 4 true Invalid 0xFFFFF000).
    walk_step (mkLevel 12 10 4 true NotSize 0xFFFFF000).
Qed.

Lemma walk_radix m cr3 cr4 efer linear :
  walk m cr3 cr4 efer linear = radix m (levels cr4 efer) (cr3 .& root_mask cr4 efer) linear [].
Proof.
  unfold walk, reserved_mask. destruct (has efer Efer.LMA) eqn:Hlma.
  { by apply walk_generic_radix. }
  destruct (has cr4 Cr4.PAE) eqn:Hpae; [by apply walk_pae32_radix|by apply walk_2_level_radix].
Qed.

(** C10: In every paging mode the unrolled walk is the one recursion over the
    mode's levels: each table is indexed by its own bits of the address, the
    walk stops at the first entry that is absent or maps a page, a page-size
    bit where no page size exists faults, and the page is writable and
    user-accessible when every entry that carries permissions says so and
    no-execute when one says so. *)
Theorem walk_is_radix m cr3 cr4 efer linear :
  walk m cr3 cr4 efer linear = radix m (levels cr4 efer) (cr3 .& root_mask cr4 efer) linear [].
Proof. apply walk_radix. Qed.

(** ** The mapped page *)

Lemma word_land_mask w x mask : 0 ≤ w → word w mask → word w (x .& mask).
Proof.
  intros Hw Hm. apply word_bits; [done|apply Z.land_nonneg; right; by eapply word_nonneg|].
  intros i Hi. by rewrite Z.land_spec, (word_testbit w mask), andb_false_r.
Qed.

(** Masking below [s] keeps alignment. *)
Lemma divide_land x mask s : 0 ≤ s → (2 ^ s | mask) → (2 ^ s | x .& mask).
Proof.
  intros Hs Hd. apply Z.mod_divide; [lia|]. apply Z.mod_divide in Hd; [|lia].
  rewrite <- Z.land_ones in * by done. by rewrite <- Z.land_assoc, Hd, Z.land_0_r.
Qed.

Definition aligned_mask (s mask : Z) : Prop := (2 ^ s | mask) ∧ word 52 mask.

(** Shifts decrease from the root, and the masks fit them. *)
Fixpoint well_formed (ls : list level) : Prop :=
  match ls with
  | [] => True
  | l :: ls =>
      12 ≤ index_shift l ∧ 0 ≤ index_bits l ∧ aligned_mask 12 (pointer_mask l) ∧
      Forall (λ k, index_shift k ≤ index_shift l) ls ∧
      (∀ s mask, large l = Page s mask → s = index_shift l ∧ aligned_mask s mask) ∧
      well_formed ls
  end.

Lemma levels_well_formed cr4 efer : well_formed (levels cr4 efer).
Proof.
  assert (∀ s mask, mask `mod` 2 ^ s = 0 → 0 ≤ s → word 52 mask → aligned_mask s mask) as Ha.
  { intros s mask Hm Hs Hw. split; [apply Z.mod_divide; [lia|done]|done]. }
  unfold levels. repeat case_match; cbn [app well_formed long_level index_shift index_bits
    pointer_mask large]; split_and!; try lia; try done;
    first [ apply Ha; [done|lia|by apply word_const]
          | by repeat (apply Forall_cons_2; [cbn; lia|])
          | intros ? ? [= <- <-]; split; [done|apply Ha; [done|lia|by apply word_const]]
          | done ].
Qed.

Lemma index_same l s linear linear' :
  0 ≤ s ≤ index_shift l → linear / 2 ^ s = linear' / 2 ^ s → index_of l linear = index_of l linear'.
Proof.
  intros Hs Heq. unfold index_of. f_equal.
  replace (2 ^ index_shift l) with (2 ^ s * 2 ^ (index_shift l - s)).
  - rewrite <- !Z.div_div by lia. by rewrite Heq.
  - rewrite <- Z.pow_add_r by lia. f_equal. lia.
Qed.

Lemma entry_same m l s table linear linear' :
  0 ≤ s ≤ index_shift l → linear / 2 ^ s = linear' / 2 ^ s →
  entry_at m l table linear = entry_at m l table linear'.
Proof. intros. unfold entry_at. by erewrite index_same. Qed.

(** A page of [2 ^ s] bytes at an aligned frame. *)
Record page_of (s : Z) (t : Translation) : Prop := mk_page_of {
  po_size : page_size t = 2 ^ s;
  po_aligned : (2 ^ s | frame t);
  po_frame : word 52 (frame t)
}.

(** The sizes the levels can map. *)
Definition sizes (ls : list level) (s : Z) : Prop :=
  s = 12 ∨ Exists (λ l, ∃ mask, large l = Page s mask) ls.

(** A walk that ends at a page of [2 ^ s] bytes never indexed a table by a bit
    below [s], so it ends there for every address of the page. *)
Lemma radix_page m ls :
  well_formed ls → ∀ table linear entries t,
  (ls = [] → aligned_mask 12 table) →
  radix m ls table linear entries = Ok t →
  ∃ s, 12 ≤ s ∧ sizes ls s ∧ Forall (λ l, s ≤ index_shift l) (take 1 ls) ∧ page_of s t ∧
    ∀ linear', linear' / 2 ^ s = linear / 2 ^ s → radix m ls table linear' entries = Ok t.
Proof.
  induction ls as [|l ls IH]; intros Hwf table linear entries t Htable Hok.
  { destruct (Htable eq_refl) as [Hd Hw]. injection Hok as <-.
    exists 12. split_and!; [lia|by left|constructor|by split|done]. }
  destruct Hwf as (H12 & _ & [Hdiv Hword] & Hdesc & Hlarge & Hwf). cbn [radix] in Hok.
  destruct (entry_at m l table linear) as [e|] eqn:Ee; [|done].
  set (entries' := if narrows l then _ else _) in Hok.
  assert (∀ s linear', 0 ≤ s ≤ index_shift l → linear' / 2 ^ s = linear / 2 ^ s →
    entry_at m l table linear' = Some e) as Hsame.
  { intros s linear' Hs Hl. rewrite <- Ee. by apply (entry_same m l s). }
  assert (radix m ls (e .& pointer_mask l) linear entries' = Ok t →
    Z.testbit e 7 = false ∨ large l = NotSize → ∃ s, 12 ≤ s ∧ sizes (l :: ls) s ∧
      Forall (λ l, s ≤ index_shift l) (take 1 (l :: ls)) ∧ page_of s t ∧
      ∀ linear', linear' / 2 ^ s = linear / 2 ^ s →
        radix m (l :: ls) table linear' entries = Ok t) as Hnext.
  { intros Hnext Hbit. apply IH in Hnext as (s & Hs & Hsz & Hhd & Hp & Hall); [|done|].
    2:{ intros _. split; [by apply divide_land|by apply word_land_mask]. }
    assert (s ≤ index_shift l) as Hle.
    { destruct ls as [|l' ls]; [destruct Hsz as [->|Hex]; [done|by inversion Hex]|].
      apply Forall_inv in Hhd, Hdesc. lia. }
    exists s. split_and!; [done| |by repeat constructor|done|].
    - destruct Hsz as [->|Hex]; [by left|right; by apply Exists_cons_tl].
    - intros linear' Hl. cbn [radix]. rewrite (Hsame s) by (done || lia).
      destruct Hbit as [->|Hns]; [by apply Hall|]. rewrite Hns.
      destruct (Z.testbit e 7); by apply Hall. }
  destruct (Z.testbit e 7) eqn:E7; [|apply Hnext; auto].
  destruct (large l) as [|s mask|] eqn:El; [done| |apply Hnext; auto].
  injection Hok as <-. destruct (Hlarge s mask eq_refl) as (-> & Hd & Hw).
  exists (index_shift l). split_and!; [done| | | |].
  - right. apply Exists_cons_hd. by exists mask.
  - by repeat constructor.
  - split; [done|apply divide_land; [lia|done]|by apply word_land_mask].
  - intros linear' Hl. cbn [radix].
    rewrite (Hsame (index_shift l)), E7, El by (done || lia). done.
Qed.

Lemma page_physical s t linear :
  12 ≤ s ≤ 52 → page_of s t →
  physical linear t = frame t + linear `mod` 2 ^ s ∧ word 52 (physical linear t).
Proof.
  intros Hs [Hsize [q Hq] Hf]. unfold physical. rewrite Hsize.
  replace (2 ^ s - 1) with (Z.ones s) by (rewrite Z.ones_equiv; lia).
  rewrite Z.land_ones, Z.lor_comm by lia.
  assert (word s (linear `mod` 2 ^ s)) as Hlo by (apply Z.mod_pos_bound; lia).
  rewrite Hq in *. rewrite <- Z.shiftl_mul_pow2 by lia.
  rewrite lor_shiftl, Z.shiftl_mul_pow2 by (done || lia).
  split; [lia|]. destruct Hf as [Hf0 Hf1], Hlo as [Hl0 Hl1]. split; [nia|].
  assert (2 ^ 52 = 2 ^ (52 - s) * 2 ^ s) as E by (rewrite <- Z.pow_add_r by lia; f_equal; lia).
  rewrite E in *. assert (q < 2 ^ (52 - s)) by nia. nia.
Qed.

Lemma level_sizes cr4 efer s : sizes (levels cr4 efer) s → s ∈ [12; 21; 22; 30].
Proof.
  intros [->|Hex]; [by left|]. revert Hex. unfold levels. repeat case_match; cbn [app];
    rewrite ?Exists_cons, ?Exists_nil; cbn [large long_level]; set_solver.
Qed.

Lemma walk_page m cr3 cr4 efer linear t :
  walk m cr3 cr4 efer linear = Ok t →
  ∃ s, s ∈ [12; 21; 22; 30] ∧ 12 ≤ s ≤ 52 ∧ page_of s t ∧
    ∀ linear', linear' / 2 ^ s = linear / 2 ^ s → walk m cr3 cr4 efer linear' = Ok t.
Proof.
  intros Hok. rewrite walk_radix in Hok.
  apply radix_page in Hok as (s & Hs & Hsz & _ & Hp & Hall); [|apply levels_well_formed|].
  2:{ unfold levels. by repeat case_match. }
  apply level_sizes in Hsz. exists s. split_and!; [done|done| |done|].
  - assert (Forall (λ s, s ≤ 52) [12; 21; 22; 30]) as Hb by (repeat constructor; lia).
    rewrite Forall_forall in Hb. by apply Hb.
  - intros linear' Hl. rewrite walk_radix. by apply Hall.
Qed.

(** A successful walk maps a whole page: its size is 4 KiB, 2 MiB, 4 MiB or
    1 GiB, its frame is aligned to the size, every linear address of the page
    walks to the same translation, and the physical address is the frame plus
    the offset in the page, inside 52 bits. *)
Theorem walk_maps_page m cr3 cr4 efer linear t :
  walk m cr3 cr4 efer linear = Ok t →
  page_size t ∈ [4096; 2097152; 4194304; 1073741824] ∧
  (page_size t | frame t) ∧
  ∀ linear', linear' / page_size t = linear / page_size t →
    walk m cr3 cr4 efer linear' = Ok t ∧
    physical linear' t = frame t + linear' `mod` page_size t ∧
    word 52 (physical linear' t).
Proof.
  intros Hok. apply walk_page in Hok as (s & Hin & Hs & Hp & Hall).
  pose proof Hp as [-> Hd _]. split_and!; [|done|].
  - rewrite !elem_of_cons in *. destruct Hin as [->|[->|[->|[->|Hn]]]]; [..|by inversion Hn]; auto.
  - intros linear' Hl. split; [by apply Hall|]. by apply page_physical.
Qed.

End reference.

(** ** The access rules *)

(** The rules of the architecture. *)
Record permitted (t : Translation) (kind : AccessKind) (cpl cr0 cr4 efer : Z) (ac : bool) : Prop := {
  user_page : cpl = 3 → user t = true;
  write_page : kind = Write → cpl = 3 ∨ has cr0 Cr0.WP = true → writable t = true;
  fetch_page : kind = Execute → has efer Efer.NXE = true → no_execute t = false;
  smep_page : kind = Execute → cpl ≠ 3 → has cr4 Cr4.SMEP = true → user t = false;
  smap_page : kind ≠ Execute → cpl ≠ 3 → has cr4 Cr4.SMAP = true → user t = true → ac = true
}.

(** The bits of an error code that describe the access. *)
Definition access_bits (kind : AccessKind) (cpl : Z) : Z :=
     (if bool_decide (kind = Write) then FAULT_WRITE else 0)
  .| (if cpl =? 3 then FAULT_USER else 0)
  .| (if bool_decide (kind = Execute) then FAULT_FETCH else 0).

Lemma check_access_spec t linear kind cpl cr0 cr4 efer ac :
  (check_access t linear kind cpl cr0 cr4 efer ac = Ok () ∧ permitted t kind cpl cr0 cr4 efer ac) ∨
  (check_access t linear kind cpl cr0 cr4 efer ac =
     Err (mkPageFault linear (FAULT_PRESENT .| access_bits kind cpl)) ∧
   ¬ permitted t kind cpl cr0 cr4 efer ac).
Proof.
  unfold check_access, access_bits.
  destruct (Z.eqb_spec cpl 3), (user t) eqn:?, kind; cbn [andb negb orb];
  repeat match goal with
  | |- context [has ?x ?y] => destruct (has x y) eqn:?
  | |- context [writable t] => destruct (writable t) eqn:?
  | |- context [no_execute t] => destruct (no_execute t) eqn:?
  | |- context [negb ac] => destruct ac
  end; cbn;
  first [ left; split; [reflexivity|constructor; (done || congruence || intuition congruence)]
        | right; split; [reflexivity|intros []; intuition congruence] ].
Qed.

(** ** An instance *)

(** A machine in long mode: a PML4 at 0, a page-directory-pointer table at 0x1000
    whose first entry maps 1 GiB from 0, and 8 KiB of RAM. *)
Definition paged_tables : list Z :=
  splice (splice (zeros 8192) 0 (to_le_bytes 8 0x1003)) 0x1000 (to_le_bytes 8 0x83).
Definition paged_memory : Memory (B := VecBlockBackend) (N := Recorder) :=
  demo_machine <| ram := paged_tables |>.
Lemma paged_memory_ok : memory_ok paged_memory.
Proof.
  pose proof demo_machine_ok as [_ Hs Hp Hc ? ? ? ? ?].
  assert (len (ram paged_memory) = len (ram demo_machine)) as El.
  { change (ram paged_memory) with paged_tables. unfold paged_tables. rewrite !len_splice, demo_size.
    unfold zeros. by rewrite len_replicate. }
  split; [|by rewrite El|by rewrite El|done..].
  apply Forall_splice; [apply Forall_splice|]; [|by apply to_le_bytes_words..].
  apply Forall_replicate. by apply word_const.
Qed.
Lemma paged_memory_size : len (ram paged_memory) = 8192.
Proof. reflexivity. Qed.

Lemma walk_maps_page_witness :
  ∃ t, walk paged_memory 0 0 Efer.LMA 0x1234 = Ok t ∧ page_size t = 1073741824 ∧
    physical 0x5678 t = 0x5678.
Proof.
  destruct (walk paged_memory 0 0 Efer.LMA 0x1234) as [t|] eqn:E.
  2:{ vm_compute in E. discriminate E. }
  destruct (walk_maps_page paged_memory 0 0 Efer.LMA 0x1234 t E) as (_ & _ & Hall).
  exists t. split; [reflexivity|].
  assert (page_size t = 1073741824 ∧ frame t = 0) as [Hs Hf].
  { vm_compute in E. by injection E as <-. }
  split; [exact Hs|]. destruct (Hall 0x5678) as (_ & Hp & _); [by rewrite Hs|].
  rewrite Hp, Hs, Hf. reflexivity.
Defined.
