(* ===== verification/Tlb.v ===== *)
(** Translation lookaside buffer, [rish-softvm-core/src/cpu/tlb.rs].

    The buffer is direct mapped: a page has one slot, found by a multiplicative
    hash, and a slot holds the last page inserted there. [cached] is the partial
    map the buffer stands for; each operation is characterised on it. *)
From S2P Require Import Prelude.
From S2P Require Import Paging.
Local Open Scope Z_scope.

Definition ENTRIES : Z := bit 14.
Definition INVALID : Z := 2 ^ 64 - 1.

Record Entry := mkEntry {
  tag : Z;
  translation : Translation
}.
#[export] Instance Entry_inhabited : Inhabited Entry :=
  populate (mkEntry INVALID (mkTranslation 0 0x1000 false false true)).

Record Tlb := mkTlb {
  entries : list Entry;
  hits : Z;
  misses : Z;
  epoch : Z
}.
#[export] Instance Tlb_eta : Settable Tlb := λ t, mkTlb (entries t) (hits t) (misses t) (epoch t).

Definition new : Tlb :=
  mkTlb (replicate (Z.to_nat ENTRIES) (mkEntry INVALID (mkTranslation 0 0x1000 false false true)))
    0 0 0.

Definition slot (page : Z) : nat :=
  let mixed := wrapping_mul 64 page 0x9E3779B97F4A7C15 in
  Z.to_nat ((mixed ≫ 32) .& (ENTRIES - 1)).

Definition lookup (linear : Z) (t : Tlb) : option Translation * Tlb :=
  let page := linear ≫ 12 in
  let entry := entries t !!! slot page in
  if tag entry =? page then
    (Some (translation entry), t <| hits ::= λ n, wrapping_add 64 n 1 |>)
  else (None, t <| misses ::= λ n, wrapping_add 64 n 1 |>).

Definition insert (linear : Z) (walked : Translation) (t : Tlb) : Tlb :=
  let page := linear ≫ 12 in
  t <| entries ::= <[slot page := mkEntry page walked]> |>.

Definition flush (t : Tlb) : Tlb :=
  t <| epoch ::= λ n, wrapping_add 64 n 1 |>
    <| entries ::= fmap (λ e, mkEntry INVALID (translation e)) |>.

Definition invalidate (linear : Z) (t : Tlb) : Tlb :=
  let t := t <| epoch ::= λ n, wrapping_add 64 n 1 |> in
  let page := linear ≫ 12 in
  let slot := slot page in
  if tag (entries t !!! slot) =? page then
    t <| entries ::= alter (λ e, mkEntry INVALID (translation e)) slot |>
  else t.

Definition counters (t : Tlb) : Z * Z := (hits t, misses t).

(** ** The map the buffer stands for *)

(** The translation kept for a page number. *)
Definition cached (t : Tlb) (page : Z) : option Translation :=
  let e := entries t !!! slot page in
  if tag e =? page then Some (translation e) else None.

(** A buffer has one entry per slot. *)
Definition tlb_ok (t : Tlb) : Prop := length (entries t) = Z.to_nat ENTRIES.

Lemma tlb_slot_lt page : (slot page < Z.to_nat ENTRIES)%nat.
Proof.
  unfold slot. change (ENTRIES - 1) with (Z.ones 14). rewrite Z.land_ones by lia.
  change ENTRIES with (2 ^ 14). pose proof (Z.mod_pos_bound
    ((wrapping_mul 64 page 11400714819323198485) ≫ 32) (2 ^ 14)). lia.
Qed.

Lemma tlb_new_ok : tlb_ok new.
Proof. apply length_replicate. Qed.

Lemma tlb_new_cached page : word 52 page → cached new page = None.
Proof.
  intros [? ?]. unfold cached, new. cbn [entries].
  rewrite lookup_total_replicate_2 by apply tlb_slot_lt. cbn [tag].
  destruct (Z.eqb_spec INVALID page); [|done]. unfold INVALID in *. lia.
Qed.

Lemma lookup_cached linear t : (lookup linear t).1 = cached t (linear ≫ 12).
Proof. unfold lookup, cached. by destruct (_ =? _). Qed.
Lemma lookup_entries linear t : entries (lookup linear t).2 = entries t.
Proof. unfold lookup. by destruct (_ =? _). Qed.
Lemma lookup_epoch linear t : epoch (lookup linear t).2 = epoch t.
Proof. unfold lookup. by destruct (_ =? _). Qed.

Lemma cached_entries t t' page : entries t = entries t' → cached t page = cached t' page.
Proof. unfold cached. by intros ->. Qed.

Lemma insert_cached linear walked t page :
  tlb_ok t →
  cached (insert linear walked t) page =
    if decide (page = linear ≫ 12) then Some walked
    else if decide (slot page = slot (linear ≫ 12)) then None
    else cached t page.
Proof.
  intros Hok. unfold cached, insert. cbn [entries set_field].
  change (entries (t <| entries ::= ?f |>)) with (f (entries t)). cbn beta.
  pose proof (tlb_slot_lt page). case_decide as E; [subst|].
  - rewrite list_lookup_total_insert_eq by (rewrite Hok; apply tlb_slot_lt). cbn [tag translation].
    by rewrite Z.eqb_refl.
  - case_decide as Es.
    + rewrite Es, list_lookup_total_insert_eq by (rewrite Hok; apply tlb_slot_lt). cbn [tag].
      by destruct (Z.eqb_spec (linear ≫ 12) page).
    + by rewrite list_lookup_total_insert_ne.
Qed.

Lemma flush_cached t page : tlb_ok t → word 52 page → cached (flush t) page = None.
Proof.
  intros Hok [? ?]. unfold cached.
  change (entries (flush t)) with ((λ e, mkEntry INVALID (translation e)) <$> entries t).
  rewrite (list_lookup_total_fmap _ (Inhabited0 := Entry_inhabited)) by (rewrite Hok; apply tlb_slot_lt).
  cbn [tag].
  destruct (Z.eqb_spec INVALID page); [|done]. unfold INVALID in *. lia.
Qed.

Lemma invalidate_entries linear t :
  entries (invalidate linear t) =
    if tag (entries t !!! slot (linear ≫ 12)) =? linear ≫ 12
    then alter (λ e, mkEntry INVALID (translation e)) (slot (linear ≫ 12)) (entries t)
    else entries t.
Proof.
  unfold invalidate. change (entries (t <| epoch ::= ?f |>)) with (entries t).
  by destruct (_ =? _).
Qed.

Lemma invalidate_cached linear t page :
  tlb_ok t → word 52 page →
  cached (invalidate linear t) page =
    if decide (page = linear ≫ 12) then None else cached t page.
Proof.
  intros Hok [? ?]. unfold cached. rewrite invalidate_entries.
  destruct (Z.eqb_spec (tag (entries t !!! slot (linear ≫ 12))) (linear ≫ 12)) as [E|E].
  - destruct (decide (slot page = slot (linear ≫ 12))) as [Es|Es].
    + rewrite Es, list_lookup_total_alter_eq by (rewrite Hok; apply tlb_slot_lt). cbn [tag].
      rewrite E. destruct (Z.eqb_spec INVALID page) as [?|_]; [unfold INVALID in *; lia|].
      case_decide; [done|]. by destruct (Z.eqb_spec (linear ≫ 12) page).
    + rewrite list_lookup_total_alter_ne by done. rewrite decide_False by congruence. done.
  - case_decide as Ep; [|done]. subst. by destruct (Z.eqb_spec (tag (entries t !!! slot (linear ≫ 12))) (linear ≫ 12)).
Qed.

Lemma tlb_lookup_ok linear t : tlb_ok t → tlb_ok (lookup linear t).2.
Proof. unfold tlb_ok. by rewrite lookup_entries. Qed.
Lemma tlb_insert_ok linear walked t : tlb_ok t → tlb_ok (insert linear walked t).
Proof.
  intros. unfold tlb_ok. change (entries (insert linear walked t))
    with (<[slot (linear ≫ 12) := mkEntry (linear ≫ 12) walked]> (entries t)).
  by rewrite length_insert.
Qed.
Lemma tlb_flush_ok t : tlb_ok t → tlb_ok (flush t).
Proof.
  intros. unfold tlb_ok.
  change (entries (flush t)) with ((λ e, mkEntry INVALID (translation e)) <$> entries t).
  by rewrite length_fmap.
Qed.
Lemma tlb_invalidate_ok linear t : tlb_ok t → tlb_ok (invalidate linear t).
Proof. unfold tlb_ok. rewrite invalidate_entries. destruct (_ =? _); [|done]. by rewrite length_alter. Qed.
#[export] Hint Resolve tlb_new_ok tlb_lookup_ok tlb_insert_ok tlb_flush_ok tlb_invalidate_ok : words.
