(* ===== verification/Decode.v ===== *)
(** The decoded-instruction cache, [rish-softvm-core/src/cpu/decode.rs].

    [iced_x86] is a parameter: a type of instructions and the operations the
    source calls on them. The theorem composes the cache with the write counters
    of the memory: whatever sequence of stores, device polls, lookups and
    insertions has run, a cached instruction that is served is the decode of the
    bytes the guest has there now. *)
From stdpp Require Import strings.
From S2P Require Import Prelude.
From S2P Require Import VirtQueue.
From S2P Require Import VirtioBlk.
From S2P Require Import VirtioNet.
From S2P Require Import Memory.
Local Open Scope Z_scope.

Definition MAX_INSTRUCTION_BYTES : Z := 15.
Definition ENTRIES : Z := bit 15.
Definition INVALID : Z := 2 ^ 64 - 1.

(** What the source uses of [iced_x86]: decoding one instruction of a byte
    window at an instruction pointer, its length and whether it is invalid. *)
Class Iced (I : Type) := mkIced {
  decode_window : Z → list Z → Z → I;
  instruction_len : I → Z;
  is_invalid : I → bool;
  instruction_default : I
}.

Section cache.
Context {I : Type} `{Iced I}.
Context {B N : Type} `{BlockBackend B} `{NetBackend N}.
Abbreviation Memory := (@Memory B N).

Record Entry := mkEntry {
  tag : Z;
  e_linear : Z;
  e_physical : Z;
  e_generation : Z;
  e_translation_epoch : Z;
  e_execution_context : Z;
  instruction : I
}.

Record DecodeMapping := mkMapping {
  ip : Z;
  linear : Z;
  physical : Z;
  page_generation : Z;
  translation_epoch : Z;
  execution_context : Z
}.

Record DecodeCache := mkCache {
  entries : list Entry;
  hits : Z;
  misses : Z
}.
#[export] Instance DecodeCache_eta : Settable DecodeCache := λ c,
  mkCache (entries c) (hits c) (misses c).

Definition empty : Entry := mkEntry INVALID 0 0 0 0 0 instruction_default.
#[export] Instance Entry_inhabited : Inhabited Entry := populate empty.

Definition new : DecodeCache := mkCache (replicate (Z.to_nat ENTRIES) empty) 0 0.

Definition slot (ip : Z) : nat :=
  let mixed := wrapping_mul 64 ip 0x9E3779B97F4A7C15 in
  Z.to_nat ((mixed ≫ 33) .& (ENTRIES - 1)).

Definition lookup_mapped (m : Memory) (ip linear epoch context : Z) (c : DecodeCache)
    : option I * DecodeCache :=
  let entry := entries c !!! slot ip in
  if negb (tag entry =? ip)
     || negb (e_linear entry =? linear)
     || negb (e_translation_epoch entry =? epoch)
     || negb (e_execution_context entry =? context)
     || negb (Memory.page_generation (e_physical entry) m =? e_generation entry)
  then (None, c)
  else (Some (instruction entry), c <| hits ::= λ n, wrapping_add 64 n 1 |>).

Definition lookup (mapping : DecodeMapping) (c : DecodeCache) : option I * DecodeCache :=
  let entry := entries c !!! slot (ip mapping) in
  if negb (tag entry =? ip mapping)
     || negb (e_linear entry =? linear mapping)
     || negb (e_physical entry =? physical mapping)
     || negb (e_generation entry =? page_generation mapping)
     || negb (e_execution_context entry =? execution_context mapping)
  then (None, c <| misses ::= λ n, wrapping_add 64 n 1 |>)
  else
    let entry := mkEntry (tag entry) (e_linear entry) (e_physical entry) (e_generation entry)
                   (translation_epoch mapping) (execution_context mapping) (instruction entry) in
    (Some (instruction entry),
     c <| entries ::= <[slot (ip mapping) := entry]> |>
       <| hits ::= λ n, wrapping_add 64 n 1 |>).

Definition insert (mapping : DecodeMapping) (i : I) (c : DecodeCache) : DecodeCache :=
  if instruction_len i >? MAX_INSTRUCTION_BYTES then c
  else
    c <| entries ::= <[slot (ip mapping) :=
      mkEntry (ip mapping) (linear mapping) (physical mapping) (page_generation mapping)
        (translation_epoch mapping) (execution_context mapping) i]> |>.

Definition counters (c : DecodeCache) : Z * Z := (hits c, misses c).

End cache.
Arguments Entry : clear implicits.
Arguments DecodeCache : clear implicits.
Arguments DecodeCache_eta {I}.

(** ** Cached instructions are current *)

Section correctness.
Context {I : Type} `{Iced I}.
Context {B N : Type} `{ReliableBackend B} `{NetBackend N}.
Abbreviation Memory := (@Memory B N).
Implicit Types (m : Memory) (c : DecodeCache I) (e : Entry I).

(** The decoder's window at a physical address, inside one page of RAM. *)
Definition in_page (physical : Z) m : Prop :=
  0 ≤ physical ∧ physical `mod` PAGE_SIZE + MAX_INSTRUCTION_BYTES ≤ PAGE_SIZE ∧
  physical + MAX_INSTRUCTION_BYTES ≤ len (ram m).
(** The bitness is the low byte of an execution context. *)
Definition bitness_of (context : Z) : Z := context `mod` 256.
Definition decode_at m (physical context ip : Z) : I :=
  decode_window (bitness_of context) (slice (ram m) physical MAX_INSTRUCTION_BYTES) ip.

(** The cache and the memory it runs against, with what has happened: the log of the
    stores to RAM, the position in the log at which each slot was filled, and the
    mappings the cache was asked about. *)
Record Traced := mkTraced {
  cached : DecodeCache I;
  against : Memory;
  log : list (Z * list Z);
  filled : nat → nat;
  asked : list DecodeMapping
}.
(** An instruction longer than the window is not inserted. *)
Definition fill (mapping : DecodeMapping) (i : I) (now : nat) (f : nat → nat) : nat → nat :=
  if instruction_len i >? MAX_INSTRUCTION_BYTES then f else λ k, if decide (k = slot (ip mapping)) then now else f k.
(** An insertion is the one an instruction fetch makes: the instruction decoded from the
    bytes in memory, the counter of their page at that moment. *)
Inductive cache_step : Traced → Traced → Prop :=
  | cs_memory c m l f a ws m' : mem_step m ws m' → cache_step (mkTraced c m l f a) (mkTraced c m' (l ++ ws) f a)
  | cs_probe c m l f a ip linear epoch context :
      cache_step (mkTraced c m l f a) (mkTraced (lookup_mapped m ip linear epoch context c).2 m l f a)
  | cs_lookup c m l f a mapping :
      cache_step (mkTraced c m l f a) (mkTraced (lookup mapping c).2 m l f (mapping :: a))
  | cs_insert c m l f a mapping :
      in_page (physical mapping) m →
      page_generation mapping = Memory.page_generation (physical mapping) m →
      cache_step (mkTraced c m l f a)
        (mkTraced (insert mapping (decode_at m (physical mapping) (execution_context mapping) (ip mapping)) c) m l
           (fill mapping (decode_at m (physical mapping) (execution_context mapping) (ip mapping)) (length l) f)
           (mapping :: a)).
Definition started m : Traced := mkTraced new m [] (λ _, O) [].

(** An entry made from an earlier state [m0] of the memory. *)
Definition made_at m0 e : Prop :=
  memory_ok m0 ∧ in_page (e_physical e) m0 ∧
  e_generation e = Memory.page_generation (e_physical e) m0 ∧
  instruction e = decode_at m0 (e_physical e) (e_execution_context e) (tag e).
(** The mapping an entry answers was asked for. *)
Definition asked_for (a : list DecodeMapping) e : Prop :=
  ∃ mapping, mapping ∈ a ∧ ip mapping = tag e ∧ linear mapping = e_linear e ∧ physical mapping = e_physical e ∧
    translation_epoch mapping = e_translation_epoch e ∧ execution_context mapping = e_execution_context e.
(** Every entry is the empty one or was made when its slot was filled. *)
Definition entry_ok (t : Traced) (k : nat) e : Prop :=
  (tag e = INVALID ∧ e_linear e = 0) ∨
  asked_for (asked t) e ∧ (filled t k ≤ length (log t))%nat ∧
  ∃ m0, made_at m0 e ∧ mem_run m0 (drop (filled t k) (log t)) (against t).
Definition cache_ok (t : Traced) : Prop :=
  memory_ok (against t) ∧ length (entries (cached t)) = Z.to_nat ENTRIES ∧
  ∀ k, (k < Z.to_nat ENTRIES)%nat → entry_ok t k (entries (cached t) !!! k).

Lemma slot_lt ip : (slot ip < Z.to_nat ENTRIES)%nat.
Proof.
  unfold slot. change (ENTRIES - 1) with (Z.ones 15). rewrite Z.land_ones by lia.
  change ENTRIES with (2 ^ 15). pose proof (Z.mod_pos_bound
    ((wrapping_mul 64 ip 11400714819323198485) ≫ 33) (2 ^ 15)). lia.
Qed.

Context (Hbytes : byte_frames (B := N)).

Lemma entry_at_slot t ip : cache_ok t → entry_ok t (slot ip) (entries (cached t) !!! slot ip).
Proof. intros (_ & _ & He). apply He, slot_lt. Qed.

(** A change of one slot to an entry that is as good, with all else kept, keeps the cache. *)
Lemma put_entry_ok t t' ip e :
  cache_ok t → against t' = against t → log t' = log t → (∀ mapping, mapping ∈ asked t → mapping ∈ asked t') →
  (∀ k, k ≠ slot ip → filled t' k = filled t k) →
  entry_ok t' (slot ip) e → entries (cached t') = <[slot ip := e]> (entries (cached t)) → cache_ok t'.
Proof.
  intros (Hm & Hl & He) Em El Ea Ef Hnew E. split; [by rewrite Em|]. rewrite E. split; [by rewrite length_insert|].
  intros k Hk. destruct (decide (k = slot ip)) as [->|Hne].
  - rewrite list_lookup_total_insert_eq by (rewrite Hl; apply slot_lt). done.
  - rewrite list_lookup_total_insert_ne by done. unfold entry_ok. rewrite Ef, El, Em by done.
    destruct (He k Hk) as [?|((mapping & Hin & ?) & ? & ?)]; [by left|right]. split; [|done]. exists mapping. split; [by apply Ea|done].
Qed.

(** Entries that stay, as more is asked. *)
Lemma same_entries_ok t t' :
  cache_ok t → against t' = against t → log t' = log t → (∀ mapping, mapping ∈ asked t → mapping ∈ asked t') →
  filled t' = filled t → entries (cached t') = entries (cached t) → cache_ok t'.
Proof.
  intros (Hm & Hl & He) Em El Ea Ef E. split; [by rewrite Em|]. rewrite E. split; [done|]. intros k Hk.
  unfold entry_ok. rewrite Ef, El, Em.
  destruct (He k Hk) as [?|((mapping & Hin & ?) & ? & ?)]; [by left|right]. split; [|done]. exists mapping. split; [by apply Ea|done].
Qed.

Lemma insert_ok c m l f a mapping :
  cache_ok (mkTraced c m l f a) → in_page (physical mapping) m →
  page_generation mapping = Memory.page_generation (physical mapping) m →
  let i := decode_at m (physical mapping) (execution_context mapping) (ip mapping) in
  cache_ok (mkTraced (insert mapping i c) m l (fill mapping i (length l) f) (mapping :: a)).
Proof.
  intros Hc Hp Hg i. unfold insert, fill. destruct (_ >? _).
  { eapply same_entries_ok; [exact Hc|done|done|intros; by right|done|done]. }
  eapply (put_entry_ok _ _ (ip mapping)); [exact Hc|done|done|intros; by right| | |reflexivity].
  { intros k Hk. cbn. by rewrite decide_False. }
  right. cbn. rewrite decide_True by done. split; [exists mapping; split; [by left|done]|]. split; [done|].
  exists m. split; [by split; [apply Hc|]|]. rewrite drop_all. constructor.
Qed.

Lemma lookup_ok c m l f a mapping :
  cache_ok (mkTraced c m l f a) → cache_ok (mkTraced (lookup mapping c).2 m l f (mapping :: a)).
Proof.
  intros Hc. unfold lookup. pose proof (entry_at_slot _ (ip mapping) Hc) as He. cbn [cached] in He.
  set (e := entries c !!! slot (ip mapping)) in *.
  destruct (negb (tag e =? _) || _ || _ || _ || _) eqn:E.
  { eapply same_entries_ok; [exact Hc|done|done|intros; by right|done|done]. }
  eapply (put_entry_ok _ _ (ip mapping)); [exact Hc|done|done|intros; by right|done| |reflexivity].
  repeat (apply orb_false_elim in E as [E ?E]);
    repeat match goal with H : negb (_ =? _) = false |- _ => apply negb_false_iff, Z.eqb_eq in H end.
  destruct He as [He|(_ & Hle & m0 & Hmade & Hrun)]; [by left|right]. cbn in *.
  split; [exists mapping; split; [by left|done]|]. split; [done|]. exists m0. split; [|done].
  unfold made_at in *. cbn in *. by rewrite E0 in Hmade.
Qed.

Lemma cache_step_ok t t' : cache_step t t' → cache_ok t → cache_ok t'.
Proof.
  intros Hs Hc. destruct Hs as [c m l f a ws m' Hm|c m l f a ip linear epoch context|c m l f a mapping|c m l f a mapping Hp Hg].
  - destruct Hc as (Hok & Hl & He). cbn in *. split; [by apply (mem_step_ok Hbytes m ws m')|]. split; [done|].
    intros k Hk. destruct (He k Hk) as [?|(Ha & Hle & m0 & Hmade & Hrun)]; [by left|right]. cbn in *.
    rewrite length_app. split; [done|]. split; [lia|]. exists m0. split; [done|]. rewrite drop_app_le by lia. by eapply mr_step.
  - eapply same_entries_ok; [exact Hc|done|done|done|done|]. cbn. unfold lookup_mapped. by destruct (_ || _).
  - by apply lookup_ok.
  - by apply insert_ok.
Qed.

Lemma reachable_cache m0 t : memory_ok m0 → rtc cache_step (started m0) t → cache_ok t.
Proof.
  intros Hm Hr. revert t Hr. apply rtc_ind_r.
  - split; [done|]. split; [apply length_replicate|]. intros k Hk. left. cbn. by rewrite lookup_total_replicate_2.
  - intros t t' _ Hs IH. by eapply cache_step_ok.
Qed.

(** [i] is the instruction in memory at [physical], or 2^32 stores or more have gone to its
    page since the slot of [ptr] was filled: its counter has gone round. *)
Definition current (t : Traced) (physical context ptr : Z) (i : I) : Prop :=
  in_page physical (against t) ∧
  (i = decode_at (against t) physical context ptr ∨
   2 ^ 32 ≤ stores_on (Z.to_nat (physical / PAGE_SIZE)) (drop (filled t (slot ptr)) (log t))).

Lemma window_in_page m physical :
  in_page physical m →
  slice (ram m) physical MAX_INSTRUCTION_BYTES =
    slice (page (ram m) (Z.to_nat (physical / PAGE_SIZE))) (physical `mod` PAGE_SIZE)
      MAX_INSTRUCTION_BYTES.
Proof.
  intros (Hp0 & Hp1 & _). unfold page. rewrite Z2Nat.id by (apply Z.div_pos; done).
  pose proof (Z.div_mod physical PAGE_SIZE ltac:(done)).
  pose proof (Z.mod_pos_bound physical PAGE_SIZE ltac:(done)).
  pose proof (Z.div_pos physical PAGE_SIZE Hp0 ltac:(done)).
  rewrite slice_slice; [f_equal|..]; unfold PAGE_SIZE, MAX_INSTRUCTION_BYTES in *; lia.
Qed.

Lemma no_wrap w g n : word w g → wrap w (g + n) = g → 0 ≤ n < 2 ^ w → n = 0.
Proof.
  intros [? ?] E ?. unfold wrap in E. destruct (decide (g + n < 2 ^ w)).
  - rewrite Z.mod_small in E by lia. lia.
  - rewrite (Z.mod_eq _ (2 ^ w)) in E by lia.
    assert ((g + n) / 2 ^ w = 1) as Hq; [|rewrite Hq in E; lia].
    symmetry. apply Z.div_unique with (g + n - 2 ^ w); lia.
Qed.

(** The heart: an entry whose page counter has not moved is current. *)
Lemma unmoved_counter_current t e :
  entry_ok t (slot (tag e)) e → (tag e, e_linear e) ≠ (INVALID, 0) →
  Memory.page_generation (e_physical e) (against t) = e_generation e →
  asked_for (asked t) e ∧ current t (e_physical e) (e_execution_context e) (tag e) (instruction e).
Proof.
  intros [[-> ->]|(Ha & _ & m0 & (Hok & Hp & Hg & Hi) & Hrun)] Hne Hgen; [done|]. split; [done|].
  set (ws := drop _ _) in *. destruct (run_stores Hbytes m0 ws (against t) Hok Hrun) as (Hok' & E & _).
  pose proof (stores_len (state_of m0) ws) as Hlen. rewrite <- E in Hlen. cbn [state_of fst] in Hlen.
  assert (in_page (e_physical e) (against t)) as Hp'.
  { destruct Hp as (? & ? & ?). split; [done|]. split; [done|]. by rewrite Hlen. }
  split; [done|].
  destruct Hp as (Hp0 & Hp1 & Hp2). unfold MAX_INSTRUCTION_BYTES in Hp2.
  destruct (run_counted Hbytes m0 ws (against t) (e_physical e) Hok Hrun ltac:(lia)) as [Eg U].
  set (n := stores_on _ ws) in *. destruct (decide (2 ^ 32 ≤ n)) as [Hbig|Hsmall]; [by right|left].
  rewrite Hi. unfold decode_at. rewrite !window_in_page by done. rewrite U; [done|].
  pose proof (counted_pages m0 (e_physical e) Hok ltac:(lia)) as Hlt.
  pose proof (mo_counters _ Hok) as Hw. rewrite Forall_lookup in Hw.
  pose proof (Hw _ _ (list_lookup_lookup_total_lt _ _ Hlt)) as Hx.
  rewrite <- page_generation_lookup in Hx by done. rewrite Hgen, Hg in Eg. symmetry in Eg.
  eapply no_wrap; [exact Hx|exact Eg|]. split; [apply len_nonneg|lia].
Qed.

(** C4: a cached decode is the decode of the bytes in memory. Starting from an empty cache,
    after any run of CPU stores, device polls, cache lookups and insertions of instructions
    decoded from memory, whatever [lookup_mapped] serves for an instruction pointer, linear
    address, translation epoch and context is the decode of the bytes that are in RAM now,
    at the physical address of a mapping the cache was asked about for exactly these; and
    whatever [lookup] serves is that at the address it is given. The 15-byte window lies in
    one page. The exception is an entry with 2^32 or more stores to that page in the log
    since it was made. *)
Theorem cached_decode_is_current m0 t ptr lin :
  memory_ok m0 → rtc cache_step (started m0) t → (ptr, lin) ≠ (INVALID, 0) →
  (∀ epoch context i, (lookup_mapped (against t) ptr lin epoch context (cached t)).1 = Some i →
     ∃ mapping, mapping ∈ asked t ∧ ip mapping = ptr ∧ linear mapping = lin ∧ translation_epoch mapping = epoch ∧
       execution_context mapping = context ∧ current t (physical mapping) context ptr i) ∧
  (∀ phys epoch context i,
     (lookup (mkMapping ptr lin phys (Memory.page_generation phys (against t)) epoch context) (cached t)).1 = Some i →
     current t phys context ptr i).
Proof.
  intros Hm Hr Hne. pose proof (reachable_cache m0 t Hm Hr) as Hc.
  pose proof (entry_at_slot t ptr Hc) as He.
  split; [intros epoch context i|intros phys epoch context i]; unfold lookup_mapped, lookup;
    cbn [ip linear physical page_generation execution_context];
    set (e := entries (cached t) !!! slot ptr) in *; clearbody e; destruct (_ || _) eqn:E; [done| |done|];
    intros [= <-]; repeat (apply orb_false_elim in E as [E ?E]);
    repeat match goal with H : negb (_ =? _) = false |- _ => apply negb_false_iff, Z.eqb_eq in H end;
    subst.
  - destruct (unmoved_counter_current t e) as [(mapping & ? & ? & ? & Hph & ? & ?) Hcur]; [done..|].
    exists mapping. rewrite Hph. by split_and!.
  - by apply unmoved_counter_current.
Qed.

End correctness.

(** ** An instance *)

(** A decoder that keeps what it is given. *)
Definition Raw : Type := Z * list Z * Z.
#[export] Instance Raw_iced : Iced Raw :=
  mkIced _ (λ bitness window ip, (bitness, window, ip)) (λ _, 1) (λ _, false) (0, [], 0).

Definition demo_mapping : DecodeMapping := mkMapping 0x1000 0x1000 64 0 0 64.
Definition demo_cache : DecodeCache Raw :=
  insert demo_mapping (decode_at demo_machine 64 64 0x1000) new.

Lemma cached_decode_is_current_witness :
  let t := mkTraced demo_cache demo_machine [] (fill demo_mapping (decode_at demo_machine 64 64 0x1000) 0 (λ _, O)) [demo_mapping] in
  (lookup_mapped demo_machine 0x1000 0x1000 0 64 demo_cache).1 = Some (decode_at demo_machine 64 64 0x1000) ∧
  ∃ mapping, mapping ∈ [demo_mapping] ∧ current t (physical mapping) 64 0x1000 (decode_at demo_machine 64 64 0x1000).
Proof.
  intros t. assert ((lookup_mapped demo_machine 0x1000 0x1000 0 64 demo_cache).1
    = Some (decode_at demo_machine 64 64 0x1000)) as Hhit by (vm_compute; reflexivity).
  split; [exact Hhit|].
  destruct (cached_decode_is_current Recorder_bytes demo_machine t 0x1000 0x1000 demo_machine_ok) as [Hp _].
  - apply rtc_once, (cs_insert new demo_machine [] (λ _, O) [] demo_mapping).
    + unfold in_page. rewrite demo_size. split_and!; vm_compute; congruence.
    + vm_compute. reflexivity.
  - intros [=].
  - destruct (Hp 0 64 _ Hhit) as (mapping & Hin & _ & _ & _ & _ & Hc). exists mapping. split; [exact Hin|exact Hc].
Defined.
