(* ===== verification/Cpu.v ===== *)
(** The interpreter core, [rish-softvm-core/src/cpu/mod.rs]: the CPU's state,
    address translation through the TLB, linear and stack accesses, descriptor
    loads, the batched device tick and port I/O.

    A method is a computation on the [Cpu]; an error keeps the state reached.
    The TLB is mutated behind a shared reference, so [translate] is a
    computation too. The x87 stack and the instruction trace are left out of the
    state: no operation below reads them. [RISH_NO_TLB] is read once per
    process: it is the class [Environment].

    The theorems show that translation through the TLB is the page walk as long
    as the TLB is coherent with the tables, that a fault drops the entry that
    caused it, that linear reads gather the bytes of every page, and that the
    stack returns what was pushed. *)
From stdpp Require Import strings.
From S2P Require Import Prelude.
From S2P Require Import Pic8259.
From S2P Require Import Pit8254.
From S2P Require Import Uart16550.
From S2P Require Import Cmos.
From S2P Require Import Ports.
From S2P Require Import VirtQueue.
From S2P Require Import VirtioBlk.
From S2P Require Import VirtioNet.
From S2P Require Import Memory.
From S2P Require Import Registers.
From S2P Require Import Paging.
From S2P Require Import Tlb.
From S2P Require Import Decode.
Local Open Scope Z_scope.

Definition NANOSECONDS_PER_INSTRUCTION : Z := 10.
Definition DEVICE_TICK_INTERVAL : Z := 64.
Definition VIRTIO_IRQ : Z := 10.
Definition VIRTIO_NET_IRQ : Z := 11.
Definition VIRTIO_BLK2_IRQ : Z := 12.

(** [tlb_disabled()] *)
Class Environment := mkEnvironment { tlb_disabled : bool }.

Record IoEvent := mkIoEvent {
  io_retired : Z;
  io_write_event : bool;
  io_port : Z;
  io_size : Z;
  io_value : Z
}.

Record FaultEvent := mkFaultEvent {
  fe_retired : Z;
  fe_vector : Z;
  fe_error_code : Z;
  fe_rip : Z;
  fe_cr2 : Z;
  fe_is_exception : bool
}.

Record Deliverable := mkDeliverable {
  vector : Z;
  error_code : Z;
  has_error_code : bool
}.

Section cpu.
Context {I : Type} `{Iced I}.
Context {B N : Type} `{BlockBackend B} `{NetBackend N}.
Context `{Environment}.

Record Cpu := mkCpu {
  regs : Registers;
  memory : Memory (B := B) (N := N);
  ports : PortBus;
  pic : Pic8259.Pic8259;
  pit : Pit8254.Pit8254;
  cmos : Cmos.Cmos;
  acpi_pm : AcpiPm;
  uart_console : Uart16550.Uart16550;
  uart_control : Uart16550.Uart16550;
  lines : Z;
  tsc : Z;
  halted : bool;
  boot_ok_seen : bool;
  kernel_gs_base : Z;
  xcr0 : Z;
  msr_star : Z;
  msr_lstar : Z;
  msr_cstar : Z;
  msr_fmask : Z;
  msr_tsc_aux : Z;
  fpu_control_word : Z;
  fpu_status_word : Z;
  fpu_top : Z;
  mxcsr : Z;
  io_log : list IoEvent;
  io_log_capacity : Z;
  interrupts_delivered : Z;
  exceptions_raised : Z;
  fault_log : list FaultEvent;
  pending_interrupts : list Deliverable;
  in_exception : bool;
  in_double_fault : bool;
  tlb : Tlb;
  decoded : DecodeCache I;
  device_countdown : Z;
  waiting_for_interrupt : bool;
  interrupt_shadow : bool;
  instruction_start : Z
}.
#[export] Instance Cpu_eta : Settable Cpu := λ c,
  mkCpu (regs c) (memory c) (ports c) (pic c) (pit c) (cmos c) (acpi_pm c) (uart_console c)
    (uart_control c) (lines c) (tsc c) (halted c) (boot_ok_seen c) (kernel_gs_base c) (xcr0 c)
    (msr_star c) (msr_lstar c) (msr_cstar c) (msr_fmask c) (msr_tsc_aux c) (fpu_control_word c)
    (fpu_status_word c) (fpu_top c) (mxcsr c) (io_log c) (io_log_capacity c)
    (interrupts_delivered c) (exceptions_raised c) (fault_log c) (pending_interrupts c)
    (in_exception c) (in_double_fault c) (tlb c) (decoded c) (device_countdown c)
    (waiting_for_interrupt c) (interrupt_shadow c) (instruction_start c).

(** [boot_epoch_seconds] is the host's clock at start. *)
Definition new (memory_mib boot_epoch_seconds : Z) : result Abort Cpu :=
  let? m := Memory.new memory_mib in
  Ok (mkCpu Registers_default (attach_lapic m) PortBus_default Pic8259.new Pit8254.new
    (Cmos.new boot_epoch_seconds) pm_new (Uart16550.new 0x3F8 4096 65536)
    (Uart16550.new 0x2F8 65536 65536) 0 0 false false 0 3 0 0 0 0 0 0x037F 0 0 0x1F80 [] 0 0 0
    [] [] false false Tlb.new Decode.new DEVICE_TICK_INTERVAL false false 0).

Abbreviation M A := (st Cpu Abort A).

(** The current state, and a new one. *)
Definition get : M Cpu := sread Ok.
Definition put (c : Cpu) : M () := λ _, (Ok (), c).
Definition modify (f : Cpu → Cpu) : M () := λ c, (Ok (), f c).
(** A load from, and a store to, physical memory. *)
Definition load_mem {A} (f : Memory → result Abort A) : M A := sread (λ c, f (memory c)).
Definition store_mem (f : Memory → result Abort Memory) : M () :=
  supdate (λ c, let? m := f (memory c) in Ok (c <| memory := m |>)).

(** ** Address translation *)

Definition page_fault (fault : Paging.PageFault) : Abort :=
  Fail (Ports.PageFault (pf_linear fault) (pf_error_code fault)).

Definition tlb_lookup (linear : Z) : M (option Translation) := λ c,
  let '(found, t) := Tlb.lookup linear (tlb c) in (Ok found, c <| tlb := t |>).
Definition tlb_invalidate (linear : Z) : M () := modify (λ c, c <| tlb ::= Tlb.invalidate linear |>).
Definition tlb_insert (linear : Z) (walked : Translation) : M () :=
  modify (λ c, c <| tlb ::= Tlb.insert linear walked |>).
Definition flush_tlb (c : Cpu) : Cpu := c <| tlb ::= Tlb.flush |>.
Definition invalidate_page (linear : Z) (c : Cpu) : Cpu := c <| tlb ::= Tlb.invalidate linear |>.

Definition translate_as (linear : Z) (kind : AccessKind) (cpl : Z) : M Z :=
  let! c := get in
  let r := regs c in
  if negb (has (cr0 r) Cr0.PG) then sret linear
  else
    let! cached := if tlb_disabled then sret None else tlb_lookup linear in
    let! walked :=
      match cached with
      | Some translation => sret translation
      | None =>
          match walk (memory c) (cr3 r) (cr4 r) (efer r) linear with
          | Err fault => sfail (page_fault (with_access_bits fault kind cpl))
          | Ok walked => let! _ := tlb_insert linear walked in sret walked
          end
      end in
    match check_access walked linear kind cpl (cr0 r) (cr4 r) (efer r) (has (rflags r) RFlags.AC) with
    | Err fault => let! _ := tlb_invalidate linear in sfail (page_fault fault)
    | Ok _ => sret (Paging.physical linear walked)
    end.

Definition translate (linear : Z) (kind : AccessKind) : M Z :=
  let! c := get in translate_as linear kind (cpl (regs c)).
Definition translate_privileged (linear : Z) (kind : AccessKind) : M Z :=
  translate_as linear kind 0.

(** ** Linear accesses *)

(** The loop of [read_linear_bytes] with [read] of [total] bytes done. Each round
    reads at least one byte, so [total] rounds are enough. *)
Fixpoint read_linear_loop (fuel : nat) (linear read total : Z) : M (list Z) :=
  match fuel with
  | O => sret []
  | S fuel =>
      if read <? total then
        let! physical := translate (wrapping_add 64 linear read) Read in
        let in_page := Z.min (4096 - (physical .& 0xFFF)) (total - read) in
        let! bytes := load_mem (Memory.read physical in_page) in
        let! rest := read_linear_loop fuel linear (read + in_page) total in
        sret (bytes ++ rest)
      else sret []
  end.
Definition read_linear_bytes (linear total : Z) : M (list Z) :=
  read_linear_loop (Z.to_nat total) linear 0 total.

Fixpoint write_linear_loop (fuel : nat) (linear written : Z) (bytes : list Z) : M () :=
  match fuel with
  | O => sret ()
  | S fuel =>
      if written <? len bytes then
        let! physical := translate (wrapping_add 64 linear written) Write in
        let in_page := Z.min (4096 - (physical .& 0xFFF)) (len bytes - written) in
        let! _ := store_mem (Memory.write physical (slice bytes written in_page)) in
        write_linear_loop fuel linear (written + in_page) bytes
      else sret ()
  end.
Definition write_linear_bytes (linear : Z) (bytes : list Z) : M () :=
  write_linear_loop (length bytes) linear 0 bytes.

(** ** Descriptor tables *)

Definition descriptor_address (sel : Z) (c : Cpu) : Z :=
  let table_base := if selector_table sel =? 0 then gdt_base (regs c) else base (ldtr (regs c)) in
  wrapping_add 64 table_base (selector_index sel * 8).

Definition descriptor_entry (sel : Z) : M Z :=
  let! c := get in
  let! physical := translate_privileged (descriptor_address sel c) Read in
  load_mem (read_u64 physical).

Definition load_segment_from_table (sel : Z) : M SegmentRegister :=
  if (selector_index sel =? 0) && (selector_table sel =? 0) then
    sret (SegmentRegister_default <| selector := sel |> <| base := 0 |> <| limit := 0 |>)
  else
    let! entry := descriptor_entry sel in
    sret (Registers.load (decode entry) sel).

Definition load_system_descriptor (sel : Z) : M SegmentRegister :=
  let! low := descriptor_entry sel in
  let loaded := Registers.load (decode low) sel in
  let! c := get in
  if bool_decide (mode (regs c) = Long) then
    let address := wrapping_add 64 (descriptor_address sel c) 8 in
    let! physical := translate_privileged address Read in
    let! high := load_mem (read_u64 physical) in
    sret (loaded <| base ::= λ b, b .| ((high .& 0xFFFFFFFF) ≪ 32) |>)
  else sret loaded.

Definition drop_segment (new_cpl : Z) (s : SegmentRegister) : SegmentRegister :=
  if negb (selector s =? 0) && negb (conforming s) && (dpl (attributes s) <? new_cpl)
  then SegmentRegister_default <| base := base s |> <| limit := 0 |>
  else s.
Definition drop_inaccessible_data_segments (new_cpl : Z) (c : Cpu) : Cpu :=
  c <| regs ::= λ r, r <| ds ::= drop_segment new_cpl |> <| es ::= drop_segment new_cpl |>
                       <| fs ::= drop_segment new_cpl |> <| gs ::= drop_segment new_cpl |> |>.

(** ** Stack *)

Definition stack_linear (c : Cpu) : Z := wrapping_add 64 (stack_base (regs c)) (rsp (regs c)).
Definition move_rsp (f : Z → Z) : M () :=
  modify (λ c, c <| regs ::= λ r, set_rsp (f (rsp r)) r |>).

Definition push16 (value : Z) : M () :=
  let! _ := move_rsp (λ s, wrapping_sub 64 s 2) in
  let! c := get in
  let! physical := translate (stack_linear c) Write in
  store_mem (write_u16 physical value).
Definition push32 (value : Z) : M () :=
  let! _ := move_rsp (λ s, wrapping_sub 64 s 4) in
  let! c := get in
  let! physical := translate (stack_linear c) Write in
  store_mem (write_u32 physical value).
Definition push64 (value : Z) : M () :=
  let! _ := move_rsp (λ s, wrapping_sub 64 s 8) in
  let! c := get in
  let! physical := translate (rsp (regs c)) Write in
  store_mem (write_u64 physical value).

Definition pop16 : M Z :=
  let! c := get in
  let! physical := translate (stack_linear c) Read in
  let! value := load_mem (read_u16 physical) in
  let! _ := move_rsp (λ s, wrapping_add 64 s 2) in
  sret value.
Definition pop32 : M Z :=
  let! c := get in
  let! physical := translate (stack_linear c) Read in
  let! value := load_mem (read_u32 physical) in
  let! _ := move_rsp (λ s, wrapping_add 64 s 4) in
  sret value.
Definition pop64 : M Z :=
  let! c := get in
  let! physical := translate (rsp (regs c)) Read in
  let! value := load_mem (read_u64 physical) in
  let! _ := move_rsp (λ s, wrapping_add 64 s 8) in
  sret value.

Definition pop_native : M Z :=
  let! c := get in
  match mode (regs c) with
  | Long => pop64
  | Protected32 => pop32
  | _ => pop16
  end.
Definition push_native (value : Z) : M () :=
  let! c := get in
  match mode (regs c) with
  | Long => push64 value
  | Protected32 => push32 (wrap 32 value)
  | _ => push16 (wrap 16 value)
  end.

(** ** Devices *)

(** One edge on a line of both interrupt controllers. *)
Definition pulse_line (line : Z) (c : Cpu) : Cpu :=
  c <| pic ::= Pic8259.pulse line |> <| memory ::= ioapic_pulse line (lines c) |>.

Definition service_serial_edges (c : Cpu) : Cpu :=
  let c := if poll_interrupt_edge (uart_console c)
           then pulse_line (irq_line (uart_console c)) c else c in
  if poll_interrupt_edge (uart_control c)
  then pulse_line (irq_line (uart_control c)) c else c.

(** [now] is the [Instant] the network device reads. *)
Definition service_devices (now instructions : Z) (c : Cpu) : Cpu :=
  let c := c <| memory ::= lapic_tick instructions |> in
  let '(timer_fired, p) := Pit8254.advance (NANOSECONDS_PER_INSTRUCTION * instructions) (pit c) in
  let c := c <| pit := p |> in
  let console_edge := poll_interrupt_edge (uart_console c) in
  let control_edge := poll_interrupt_edge (uart_control c) in
  let c := if timer_fired then pulse_line 0 c else c in
  let c := if console_edge then pulse_line (irq_line (uart_console c)) c else c in
  let c := if control_edge then pulse_line (irq_line (uart_control c)) c else c in
  let '(completed, m) := poll_virtio_irq (memory c) in
  let c := c <| memory := m |> in
  let c := if completed then pulse_line VIRTIO_IRQ c else c in
  let '(completed, m) := poll_virtio_blk2_irq (memory c) in
  let c := c <| memory := m |> in
  let c := if completed then pulse_line VIRTIO_BLK2_IRQ c else c in
  let '(completed, m) := poll_virtio_net now (memory c) in
  let c := c <| memory := m |> in
  let c := if completed then pulse_line VIRTIO_NET_IRQ c else c in
  c <| pic ::= set_input (lines c) |> <| memory ::= ioapic_set_lines (lines c) |>.

(** ** Port I/O *)

Definition record_io (write : bool) (port size value : Z) (c : Cpu) : Cpu :=
  if io_log_capacity c =? 0 then c
  else
    let log := if len (io_log c) >=? io_log_capacity c then tail (io_log c) else io_log c in
    c <| io_log := log ++ [mkIoEvent (instructions_retired (regs c)) write port size value] |>.

Definition in_range (lo hi port : Z) : bool := (lo <=? port) && (port <=? hi).
Definition is_pic_port (port : Z) : bool :=
  (port =? 0x20) || (port =? 0x21) || (port =? 0xA0) || (port =? 0xA1).
Definition is_pit_port (port : Z) : bool :=
  in_range 0x40 0x43 port || (port =? PORT_SYSTEM_CONTROL_B).
Definition is_cmos_port (port : Z) : bool := (port =? 0x70) || (port =? 0x71).

(** [PortDevice::read] and [write] of a device of the CPU. *)
Definition on_device {D A} (get_device : Cpu → D) (set_device : D → Cpu → Cpu)
    (op : D → result CpuError A * D) : M A := λ c,
  let '(r, d) := op (get_device c) in (map_err Fail r, set_device d c).

Definition dispatch_io_read (port size : Z) : M Z :=
  if in_range 0x3F8 0x3FF port then
    let! value := on_device uart_console (λ d c, c <| uart_console := d |>) (device_read port 1) in
    let! _ := modify service_serial_edges in
    sret (wrap 8 value)
  else if in_range 0x2F8 0x2FF port then
    let! value := on_device uart_control (λ d c, c <| uart_control := d |>) (device_read port 1) in
    let! _ := modify service_serial_edges in
    sret (wrap 8 value)
  else if is_pic_port port then
    on_device pic (λ d c, c <| pic := d |>) (device_read port size)
  else if is_pit_port port then
    on_device pit (λ d c, c <| pit := d |>) (device_read port size)
  else if is_cmos_port port then
    on_device cmos (λ d c, c <| cmos := d |>) (device_read port size)
  else if pm_handles port then
    sread (λ c, Ok (pm_read port (tsc c) (acpi_pm c)))
  else on_device ports (λ d c, c <| ports := d |>) (Ports.read port size).

Definition io_read (port size : Z) : M Z :=
  let! value := dispatch_io_read port size in
  let! _ := modify (record_io false port size value) in
  sret value.

Definition dispatch_io_write (port size value : Z) : M () :=
  if in_range 0x3F8 0x3FF port then
    let! _ := on_device uart_console (λ d c, c <| uart_console := d |>)
                (device_write port 1 (value .& 0xFF)) in
    modify service_serial_edges
  else if in_range 0x2F8 0x2FF port then
    let! _ := on_device uart_control (λ d c, c <| uart_control := d |>)
                (device_write port 1 (value .& 0xFF)) in
    modify service_serial_edges
  else if is_pic_port port then
    on_device pic (λ d c, c <| pic := d |>) (device_write port size value)
  else if is_pit_port port then
    on_device pit (λ d c, c <| pit := d |>) (device_write port size value)
  else if is_cmos_port port then
    on_device cmos (λ d c, c <| cmos := d |>) (device_write port size value)
  else if pm_handles port then
    modify (λ c, c <| acpi_pm ::= pm_write port value |>)
  else on_device ports (λ d c, c <| ports := d |>) (Ports.write port size value).

Definition io_write (port size value : Z) : M () :=
  let! _ := modify (record_io true port size value) in
  dispatch_io_write port size value.

End cpu.
Arguments Cpu : clear implicits.

(** ** Translation *)

Section translation.
Context {I : Type} `{Iced I}.
Context {B N : Type} `{BlockBackend B} `{NetBackend N}.
Context `{Environment}.
Abbreviation Cpu := (Cpu I B N).
Implicit Types c : Cpu.

(** The page walk from the CPU's control registers. *)
Definition walk_of c (linear : Z) : result Paging.PageFault Translation :=
  walk (memory c) (cr3 (regs c)) (cr4 (regs c)) (efer (regs c)) linear.
Definition check_of c (walked : Translation) (linear : Z) (kind : AccessKind) (cpl : Z) :=
  check_access walked linear kind cpl (cr0 (regs c)) (cr4 (regs c)) (efer (regs c))
    (has (rflags (regs c)) RFlags.AC).

(** Translation without a TLB. *)
Definition translate_ref c (linear : Z) (kind : AccessKind) (cpl : Z) : result Abort Z :=
  if negb (has (cr0 (regs c)) Cr0.PG) then Ok linear
  else
    let? walked := map_err (λ f, page_fault (with_access_bits f kind cpl)) (walk_of c linear) in
    let? _ := map_err page_fault (check_of c walked linear kind cpl) in
    Ok (Paging.physical linear walked).

(** Every translation the TLB holds is the one the tables give. *)
Definition coherent c : Prop :=
  ∀ page t, word 52 page → Tlb.cached (tlb c) page = Some t → walk_of c (page * 4096) = Ok t.

Lemma walk_same_page c linear linear' t :
  linear' / 4096 = linear / 4096 → walk_of c linear = Ok t → walk_of c linear' = Ok t.
Proof.
  intros Hpage Hok. unfold walk_of in *. apply walk_page in Hok as (s & _ & Hs & _ & Hall).
  apply Hall. replace (2 ^ s) with (4096 * 2 ^ (s - 12)).
  - rewrite <- !Z.div_div by lia. by rewrite Hpage.
  - change 4096 with (2 ^ 12). rewrite <- Z.pow_add_r by lia. f_equal. lia.
Qed.

Lemma page_word linear : word 64 linear → word 52 (linear ≫ 12).
Proof.
  intros [? ?]. split; [by apply Z.shiftr_nonneg|]. rewrite Z.shiftr_div_pow2 by lia.
  apply Z.div_lt_upper_bound; lia.
Qed.
Lemma page_base linear : linear ≫ 12 * 4096 / 4096 = linear / 4096.
Proof. rewrite Z.shiftr_div_pow2 by lia. apply Z.div_mul. lia. Qed.

Lemma coherent_hit c linear t :
  coherent c → word 64 linear → Tlb.cached (tlb c) (linear ≫ 12) = Some t → walk_of c linear = Ok t.
Proof.
  intros Hc Hl Ht. eapply walk_same_page; [|apply Hc; [by apply page_word|exact Ht]].
  by rewrite page_base.
Qed.

(** [c] with another TLB. *)
Definition with_tlb (t : Tlb) c : Cpu := c <| tlb := t |>.

Lemma coherent_insert c linear t :
  coherent c → tlb_ok (tlb c) → word 64 linear → walk_of c linear = Ok t →
  coherent (with_tlb (Tlb.insert linear t (tlb c)) c).
Proof.
  intros Hc Hok Hl Hw page t' Hp Ht.
  change (walk_of (with_tlb (Tlb.insert linear t (tlb c)) c)) with (walk_of c).
  change (tlb (with_tlb ?x c)) with x in Ht. rewrite insert_cached in Ht by done.
  case_decide as E.
  { injection Ht as <-. subst. eapply walk_same_page; [|exact Hw]. apply page_base. }
  case_decide; [done|]. by apply Hc.
Qed.

Lemma coherent_entries c t :
  coherent c → (∀ page t', word 52 page → Tlb.cached t page = Some t' → Tlb.cached (tlb c) page = Some t') →
  coherent (with_tlb t c).
Proof. intros Hc Hsub page t' Hp Ht. apply Hc; [done|]. by apply Hsub. Qed.

Lemma coherent_invalidate c linear :
  coherent c → tlb_ok (tlb c) → coherent (with_tlb (Tlb.invalidate linear (tlb c)) c).
Proof.
  intros Hc Hok. apply coherent_entries; [done|]. intros page t Hp.
  rewrite invalidate_cached by done. by case_decide.
Qed.

Lemma coherent_lookup c linear :
  coherent c → coherent (with_tlb (Tlb.lookup linear (tlb c)).2 c).
Proof.
  intros Hc. apply coherent_entries; [done|]. intros page t Hp.
  by rewrite (cached_entries _ (tlb c)) by apply lookup_entries.
Qed.

Lemma with_tlb_same c : with_tlb (tlb c) c = c.
Proof. by destruct c. Qed.

(** Lookup and walk: the translation found, the fault if there is none, and the
    TLB afterwards. *)
Definition find c (linear : Z) : result Paging.PageFault Translation * Tlb :=
  let '(found, t) := if tlb_disabled then (None, tlb c) else Tlb.lookup linear (tlb c) in
  match found with
  | Some walked => (Ok walked, t)
  | None =>
      match walk_of c linear with
      | Ok walked => (Ok walked, Tlb.insert linear walked t)
      | Err f => (Err f, t)
      end
  end.

Lemma translate_as_find linear kind cpl c :
  translate_as linear kind cpl c =
    if negb (has (cr0 (regs c)) Cr0.PG) then (Ok linear, c)
    else
      let '(found, t) := find c linear in
      match found with
      | Err f => (Err (page_fault (with_access_bits f kind cpl)), with_tlb t c)
      | Ok walked =>
          match check_of c walked linear kind cpl with
          | Err f => (Err (page_fault f), with_tlb (Tlb.invalidate linear t) c)
          | Ok _ => (Ok (Paging.physical linear walked), with_tlb t c)
          end
      end.
Proof.
  unfold translate_as, find, sbind, get, sread. cbn match. destruct (has _ Cr0.PG); [|done].
  cbn [negb]. unfold tlb_lookup. destruct tlb_disabled.
  - cbn. change (walk (memory c) (cr3 (regs c)) (cr4 (regs c)) (efer (regs c)) linear)
      with (walk_of c linear).
    destruct (walk_of c linear) as [w|f]; cbn; [|by rewrite with_tlb_same].
    unfold check_of. by destruct (check_access _ _ _ _ _ _ _ _).
  - destruct (Tlb.lookup linear (tlb c)) as [[w|] t]; cbn.
    + unfold check_of. by destruct (check_access _ _ _ _ _ _ _ _).
    + change (walk (memory c) (cr3 (regs c)) (cr4 (regs c)) (efer (regs c)) linear)
        with (walk_of c linear).
      destruct (walk_of c linear) as [w|f]; cbn; [|done].
      unfold check_of. by destruct (check_access _ _ _ _ _ _ _ _).
Qed.

(** On a coherent TLB the search gives what the tables give, and the TLB stays
    coherent. *)
Lemma find_coherent c linear :
  coherent c → tlb_ok (tlb c) → word 64 linear →
  (find c linear).1 = walk_of c linear ∧ tlb_ok (find c linear).2 ∧
  coherent (with_tlb (find c linear).2 c).
Proof.
  intros Hc Hok Hl. unfold find.
  assert (∀ t, coherent (with_tlb t c) → tlb_ok t →
    let s := match walk_of c linear with
             | Ok walked => (Ok walked, Tlb.insert linear walked t)
             | Err f => (Err f, t)
             end in
    s.1 = walk_of c linear ∧ tlb_ok s.2 ∧ coherent (with_tlb s.2 c)) as Hwalk.
  { intros t Ht Htok. destruct (walk_of c linear) as [w|f] eqn:Ew; cbn; [|done].
    split_and!; [done|by apply tlb_insert_ok|]. by apply (coherent_insert (with_tlb t c)). }
  destruct tlb_disabled; [apply Hwalk; [by rewrite with_tlb_same|done]|].
  pose proof (coherent_lookup c linear Hc) as Hc'. pose proof (tlb_lookup_ok linear _ Hok) as Hok'.
  pose proof (lookup_cached linear (tlb c)) as El.
  destruct (Tlb.lookup linear (tlb c)) as [[w|] t]; cbn [fst snd] in *; [|by apply Hwalk].
  split_and!; [|done..]. symmetry. by apply coherent_hit.
Qed.

Lemma translate_as_coherent linear kind cpl c :
  coherent c → tlb_ok (tlb c) → word 64 linear →
  ∃ t, translate_as linear kind cpl c = (translate_ref c linear kind cpl, with_tlb t c) ∧
    tlb_ok t ∧ coherent (with_tlb t c).
Proof.
  intros Hc Hok Hl. rewrite translate_as_find. unfold translate_ref.
  destruct (negb _); [exists (tlb c); by rewrite with_tlb_same|].
  destruct (find_coherent c linear Hc Hok Hl) as (<- & Htok & Htc).
  destruct (find c linear) as [[w|f] t]; cbn in *; [|by exists t].
  destruct (check_of c w linear kind cpl) as [[]|f]; cbn; [by exists t|].
  exists (Tlb.invalidate linear t). split; [done|]. split; [by apply tlb_invalidate_ok|].
  by apply (coherent_invalidate (with_tlb t c)).
Qed.

(** C2: translation through the TLB is the page walk. On a coherent TLB,
    [translate_as] returns exactly what the uncached walk and access check
    return, faults and their error codes included, for every privilege level;
    it changes nothing but the TLB and leaves it coherent. *)
Theorem translation_is_walk linear kind cpl c :
  coherent c → tlb_ok (tlb c) → word 64 linear →
  ∃ t, translate_as linear kind cpl c = (translate_ref c linear kind cpl, c <| tlb := t |>) ∧
    tlb_ok t ∧ coherent (c <| tlb := t |>).
Proof. apply translate_as_coherent. Qed.

(** A fault leaves no translation of its page in the TLB. *)
Lemma fault_uncached linear kind cpl c e c' :
  tlb_ok (tlb c) → word 64 linear → tlb_disabled = false →
  translate_as linear kind cpl c = (Err e, c') →
  tlb_ok (tlb c') ∧ Tlb.cached (tlb c') (linear ≫ 12) = None.
Proof.
  intros Hok Hl Henv. rewrite translate_as_find. unfold find. rewrite Henv.
  destruct (negb _); [done|]. pose proof (lookup_cached linear (tlb c)) as El.
  pose proof (tlb_lookup_ok linear _ Hok) as Hok'.
  assert (∀ w t, tlb_ok t → match check_of c w linear kind cpl with
      | Ok _ => (Ok (Paging.physical linear w), with_tlb t c)
      | Err f => (Err (page_fault f), with_tlb (Tlb.invalidate linear t) c)
      end = (Err e, c') →
      tlb_ok (tlb c') ∧ Tlb.cached (tlb c') (linear ≫ 12) = None) as Hcheck.
  { intros w t Ht. destruct (check_of c w linear kind cpl) as [[]|f]; [done|]. intros [= <- <-].
    change (tlb (with_tlb ?x c)) with x. split; [by apply tlb_invalidate_ok|].
    rewrite invalidate_cached by (done || by apply page_word). by rewrite decide_True. }
  destruct (Tlb.lookup linear (tlb c)) as [[w|] t] eqn:Et; cbn [fst snd] in *; [by apply Hcheck|].
  destruct (walk_of c linear) as [w|f]; [by apply Hcheck, tlb_insert_ok|].
  intros [= <- <-]. change (tlb (with_tlb ?x c)) with x. split; [done|].
  rewrite (cached_entries t (tlb c)); [by rewrite El|].
  by rewrite <- (lookup_entries linear (tlb c)), Et.
Qed.

(** a fault does not repeat from a stale entry. Whatever the TLB holds,
    coherent or not, after an access faults the next access to the page walks
    the tables: if the guest has changed tables, registers or memory in the
    meantime, the retry sees the new state. *)
Theorem fault_forces_walk linear kind cpl c e c' c2 kind2 cpl2 :
  tlb_ok (tlb c) → word 64 linear →
  translate_as linear kind cpl c = (Err e, c') → tlb c2 = tlb c' →
  (translate_as linear kind2 cpl2 c2).1 = translate_ref c2 linear kind2 cpl2.
Proof.
  intros Hok Hl Herr Heq.
  assert ((if tlb_disabled then (None, tlb c2) else Tlb.lookup linear (tlb c2)).1 = None) as Hnone.
  { destruct tlb_disabled eqn:Henv; [done|]. rewrite lookup_cached, Heq.
    by apply (fault_uncached linear kind cpl c e c'). }
  rewrite translate_as_find. unfold translate_ref, find.
  destruct (negb _); [done|]. destruct (if tlb_disabled then _ else _) as [found t].
  cbn in Hnone. subst found. destruct (walk_of c2 linear) as [w|f]; cbn; [|done].
  by destruct (check_of c2 w linear kind2 cpl2) as [[]|f].
Qed.

End translation.

(** ** Linear reads *)

Section linear.
Context {I : Type} `{Iced I}.
Context {B N : Type} `{ReliableBackend B} `{NetBackend N}.
Context `{Environment}.
Abbreviation Cpu := (Cpu I B N).
Implicit Types c : Cpu.

(** The physical address of byte [i] of a linear range, for a read at the
    current privilege level. *)
Definition phys_at c (linear i : Z) : result Abort Z :=
  translate_ref c (wrapping_add 64 linear i) Read (cpl (regs c)).

Lemma wrapping_add_word x y : word 64 (wrapping_add 64 x y).
Proof. apply word_wrap. lia. Qed.

Lemma page_residue q s linear : 12 ≤ s → (q * 2 ^ s + linear `mod` 2 ^ s) `mod` 2 ^ 12 = linear `mod` 2 ^ 12.
Proof.
  intros Hs. assert (2 ^ s = 2 ^ (s - 12) * 2 ^ 12) as E by (rewrite <- Z.pow_add_r by lia; f_equal; lia).
  rewrite E at 1. rewrite Z.mul_assoc, Z.add_comm, Z.mod_add by lia.
  apply Z.mod_mod_divide. exists (2 ^ (s - 12)). lia.
Qed.

Lemma page_advance s linear k :
  12 ≤ s → 0 ≤ k → linear `mod` 2 ^ 12 + k < 2 ^ 12 →
  (linear + k) `mod` 2 ^ s = linear `mod` 2 ^ s + k.
Proof.
  intros Hs Hk Hlt. assert (2 ^ s = 2 ^ (s - 12) * 2 ^ 12) as E by (rewrite <- Z.pow_add_r by lia; f_equal; lia).
  apply mod_carry; [done|lia|].
  pose proof (Z.mod_pos_bound linear (2 ^ s) ltac:(lia)) as Hb.
  pose proof (page_residue 0 s linear Hs) as Hr. rewrite Z.mul_0_l, Z.add_0_l in Hr.
  set (x := linear `mod` 2 ^ s) in *. rewrite <- Hr in Hlt.
  assert (x / 2 ^ 12 < 2 ^ (s - 12)) by (apply Z.div_lt_upper_bound; lia).
  pose proof (Z.div_mod x (2 ^ 12) ltac:(lia)). nia.
Qed.

Lemma check_any_address c t linear linear' kind cpl :
  check_of c t linear kind cpl = Ok () → check_of c t linear' kind cpl = Ok ().
Proof.
  unfold check_of. intros Hok.
  destruct (check_access_spec t linear kind cpl (cr0 (regs c)) (cr4 (regs c)) (efer (regs c))
    (has (rflags (regs c)) RFlags.AC)) as [[_ Hp]|[E _]]; [|congruence].
  destruct (check_access_spec t linear' kind cpl (cr0 (regs c)) (cr4 (regs c)) (efer (regs c))
    (has (rflags (regs c)) RFlags.AC)) as [[? _]|[_ Hn]]; done.
Qed.

(** Inside a page physical addresses follow linear ones. *)
Lemma translate_ref_offset c linear kind cpl p k :
  word 64 linear → translate_ref c linear kind cpl = Ok p →
  0 ≤ k < 4096 - (p .& 0xFFF) →
  wrapping_add 64 linear k = linear + k ∧ translate_ref c (linear + k) kind cpl = Ok (p + k).
Proof.
  intros Hl Hok Hk. change 0xFFF with (Z.ones 12) in Hk. rewrite Z.land_ones in Hk by lia.
  assert (p `mod` 2 ^ 12 = linear `mod` 2 ^ 12 ∧
    (linear `mod` 2 ^ 12 + k < 2 ^ 12 → translate_ref c (linear + k) kind cpl = Ok (p + k))) as [Hm Hkk].
  { unfold translate_ref in *. destruct (negb _); [injection Hok as <-; split; [done|by intros]|].
    destruct (walk_of c linear) as [t|f] eqn:Ew; cbn [map_err rbind] in Hok; [|done].
    pose proof Ew as Ew'. unfold walk_of in Ew'. apply walk_page in Ew' as (s & _ & Hs & Hp & _).
    destruct (check_of c t linear kind cpl) as [[]|f] eqn:Ec; cbn [map_err rbind] in Hok; [|done].
    injection Hok as <-. pose proof Hp as [_ [q Hq] _].
    rewrite (proj1 (page_physical s t linear Hs Hp)), Hq. split; [apply page_residue; lia|].
    intros Hsmall. rewrite (walk_same_page c linear (linear + k) t); [|dlia|done].
    cbn [map_err rbind]. rewrite (check_any_address c t linear) by done. cbn [map_err rbind].
    rewrite (proj1 (page_physical s t _ Hs Hp)), Hq, page_advance by lia. f_equal. lia. }
  split; [|apply Hkk; lia]. destruct Hl as [Hl0 Hl1]. apply wrap_small. split; [lia|].
  pose proof (Z.div_mod linear (2 ^ 12) ltac:(lia)).
  assert (linear / 2 ^ 12 < 2 ^ 52) by (apply Z.div_lt_upper_bound; lia). lia.
Qed.

(** Addresses of a linear range that follows [i] in the same page. *)
Lemma phys_at_offset c linear i p k :
  phys_at c linear i = Ok p → 0 ≤ k < 4096 - (p .& 0xFFF) → phys_at c linear (i + k) = Ok (p + k).
Proof.
  unfold phys_at. intros Hok Hk.
  destruct (translate_ref_offset c _ _ _ p k (wrapping_add_word linear i) Hok Hk) as [Ew Et].
  replace (wrapping_add 64 linear (i + k)) with (wrapping_add 64 (wrapping_add 64 linear i) k).
  { by rewrite Ew. }
  unfold wrapping_add, wrap. rewrite Z.add_mod_idemp_l by lia. f_equal. lia.
Qed.

Lemma page_rest p : 1 ≤ 4096 - (p .& 0xFFF) ≤ 4096.
Proof.
  change 0xFFF with (Z.ones 12). rewrite Z.land_ones by lia.
  pose proof (Z.mod_pos_bound p (2 ^ 12)). lia.
Qed.

(** Every byte of the range from [from] on is in RAM. *)
Definition mapped c (linear from total : Z) : Prop :=
  ∀ i, from ≤ i < total → ∃ p, phys_at c linear i = Ok p ∧ 0 ≤ p < len (ram (memory c)).
(** [bytes] are the bytes of the range from [from] on. *)
Definition gathered c (linear from total : Z) (bytes : list Z) : Prop :=
  len bytes = total - from ∧
  ∀ i p, from ≤ i < total → phys_at c linear i = Ok p →
    bytes !! Z.to_nat (i - from) = ram (memory c) !! Z.to_nat p.

(** One round reads the part of the range in the page of its first byte. *)
Lemma chunk_gathered c linear from total p :
  memory_ok (memory c) → mapped c linear from total → from < total →
  phys_at c linear from = Ok p →
  let n := Z.min (4096 - (p .& 0xFFF)) (total - from) in
  0 < n ≤ total - from ∧
  Memory.read p n (memory c) = Ok (slice (ram (memory c)) p n) ∧
  gathered c linear from (from + n) (slice (ram (memory c)) p n).
Proof.
  intros Hm Hmap Hlt Hp n. pose proof (page_rest p) as Hrest.
  assert (0 < n ≤ total - from ∧ n ≤ 4096 - (p .& 0xFFF)) as [Hn Hn'] by (unfold n; lia).
  assert (∀ k, 0 ≤ k < n → phys_at c linear (from + k) = Ok (p + k)) as Hk.
  { intros k Hk. apply phys_at_offset; [done|lia]. }
  destruct (Hmap (from + (n - 1))) as (p' & Ep' & Hp'); [lia|].
  rewrite Hk in Ep' by lia. injection Ep' as <-.
  destruct (Hmap from) as (p' & Ep & Hpr); [lia|]. rewrite Hp in Ep. injection Ep as <-.
  split; [done|]. split; [apply read_in_ram; (done || lia)|]. split.
  { rewrite len_slice by lia. lia. }
  intros i q Hi Hq. replace i with (from + (i - from)) in Hq by lia. rewrite Hk in Hq by lia.
  injection Hq as <-. rewrite lookup_slice by lia. f_equal. lia.
Qed.

Lemma gathered_app c linear from mid total bytes rest :
  from ≤ mid ≤ total → gathered c linear from mid bytes → gathered c linear mid total rest →
  gathered c linear from total (bytes ++ rest).
Proof.
  intros Hmid [L1 G1] [L2 G2]. split; [rewrite len_app; lia|]. intros i p Hi Hp.
  destruct (decide (i < mid)).
  - rewrite lookup_app_l by (unfold len in *; lia). apply G1; [lia|done].
  - rewrite lookup_app_r by (unfold len in *; lia). rewrite <- (G2 i p) by (done || lia).
    f_equal. unfold len in *. lia.
Qed.

Lemma read_loop_gathers fuel linear from total c :
  memory_ok (memory c) → 0 ≤ from ≤ total → (Z.to_nat (total - from) ≤ fuel)%nat →
  mapped c linear from total → tlb_ok (tlb c) → coherent c →
  ∃ bytes t, read_linear_loop fuel linear from total c = (Ok bytes, with_tlb t c) ∧
    tlb_ok t ∧ coherent (with_tlb t c) ∧ gathered c linear from total bytes.
Proof.
  intros Hm. revert from c Hm. induction fuel as [|fuel IH]; intros from c Hm Hfrom Hfuel Hmap Htlb Hc.
  { exists [], (tlb c). rewrite with_tlb_same. split_and!; [done..|]. split; [rewrite len_nil; lia|intros; lia]. }
  cbn [read_linear_loop]. destruct (Z.ltb_spec from total) as [Hlt|Hge].
  2:{ exists [], (tlb c). rewrite with_tlb_same. split_and!; [done..|]. split; [rewrite len_nil; lia|intros; lia]. }
  destruct (Hmap from) as (p & Hp & _); [lia|].
  destruct (chunk_gathered c linear from total p Hm Hmap Hlt Hp) as (Hn & Hread & Hg).
  set (n := Z.min _ _) in *.
  destruct (translate_as_coherent (wrapping_add 64 linear from) Read (cpl (regs c)) c Hc Htlb
    (wrapping_add_word _ _)) as (t & Et & Htok & Htc).
  fold (phys_at c linear from) in Et. rewrite Hp in Et.
  rewrite (sbind_ok (translate _ Read) _ c p (with_tlb t c) Et). fold n.
  erewrite sbind_ok by (unfold load_mem, sread; change (memory (with_tlb t c)) with (memory c);
    by rewrite Hread).
  destruct (IH (from + n) (with_tlb t c)) as (rest & t' & Er & Htok' & Htc' & Hg');
    [done|lia|lia| |done|done|].
  { intros i Hi. apply Hmap. lia. }
  exists (slice (ram (memory c)) p n ++ rest), t'. rewrite (sbind_ok _ _ _ _ _ Er). split; [done|].
  split; [done|]. split; [done|]. eapply (gathered_app c linear from (from + n)); [lia|done|done].
Qed.

(** a linear read gathers the bytes of every page it spans. When each byte
    of the range is mapped to RAM, [read_linear_bytes] returns one byte per
    address, each the RAM byte at that address's own translation, however the
    pages lie in physical memory and across the end of the address space; only
    the TLB changes. *)
Theorem linear_read_gathers linear total c :
  memory_ok (memory c) → tlb_ok (tlb c) → coherent c → 0 ≤ total →
  (∀ i, 0 ≤ i < total → ∃ p,
     translate_ref c (wrapping_add 64 linear i) Read (cpl (regs c)) = Ok p ∧
     0 ≤ p < len (ram (memory c))) →
  ∃ bytes t, read_linear_bytes linear total c = (Ok bytes, c <| tlb := t |>) ∧
    len bytes = total ∧
    ∀ i p, 0 ≤ i < total →
      translate_ref c (wrapping_add 64 linear i) Read (cpl (regs c)) = Ok p →
      bytes !! Z.to_nat i = ram (memory c) !! Z.to_nat p.
Proof.
  intros Hm Htlb Hc Htot Hmap.
  destruct (read_loop_gathers (Z.to_nat total) linear 0 total c) as (bytes & t & E & _ & _ & Hl & Hg);
    [done|lia|lia|done|done|done|].
  exists bytes, t. split; [done|]. split; [lia|]. intros i p Hi Hp.
  rewrite <- (Hg i p Hi Hp). f_equal. lia.
Qed.

End linear.

(** ** The stack *)

Section stack.
Context {I : Type} `{Iced I}.
Context {B N : Type} `{ReliableBackend B} `{NetBackend N}.
Context `{Environment}.
Abbreviation Cpu := (Cpu I B N).
Implicit Types c : Cpu.

(** What a successful translation leaves in the TLB. *)
Lemma translated_cached linear kind cpl c p c' :
  tlb_ok (tlb c) → has (cr0 (regs c)) Cr0.PG = true → tlb_disabled = false →
  translate_as linear kind cpl c = (Ok p, c') →
  ∃ w, Tlb.cached (tlb c') (linear ≫ 12) = Some w ∧ p = Paging.physical linear w ∧
    check_of c w linear kind cpl = Ok ().
Proof.
  intros Hok Hpg Henv. rewrite translate_as_find. unfold find. rewrite Hpg, Henv. cbn [negb].
  pose proof (lookup_cached linear (tlb c)) as El. pose proof (tlb_lookup_ok linear _ Hok) as Hok'.
  pose proof (lookup_entries linear (tlb c)) as Ee.
  destruct (Tlb.lookup linear (tlb c)) as [[w|] t]; cbn [fst snd] in *.
  - destruct (check_of c w linear kind cpl) as [[]|f] eqn:Ec; [|done]. intros [= <- <-].
    exists w. change (tlb (with_tlb t c)) with t. by rewrite (cached_entries t (tlb c)).
  - destruct (walk_of c linear) as [w|f]; [|done].
    destruct (check_of c w linear kind cpl) as [[]|f] eqn:Ec; [|done]. intros [= <- <-].
    exists w. change (tlb (with_tlb ?x c)) with x. rewrite insert_cached by done.
    by rewrite decide_True.
Qed.

Lemma translate_keeps linear kind cpl c r c' :
  translate_as linear kind cpl c = (r, c') → c' = with_tlb (tlb c') c.
Proof.
  rewrite translate_as_find. destruct (negb _); [intros [= <- <-]; by rewrite with_tlb_same|].
  destruct (find c linear) as [[w|f] t]; [destruct (check_of _ _ _ _ _)|]; by intros [= <- <-].
Qed.

Lemma translate_tlb_ok linear kind cpl c :
  tlb_ok (tlb c) → tlb_ok (tlb (translate_as linear kind cpl c).2).
Proof.
  intros Hok. rewrite translate_as_find. destruct (negb _); [done|].
  assert (tlb_ok (find c linear).2) as Hf.
  { unfold find. pose proof (tlb_lookup_ok linear _ Hok).
    destruct tlb_disabled; [|destruct (Tlb.lookup linear (tlb c)) as [[w|] t]; [done|]];
      destruct (walk_of c linear); cbn in *; auto using tlb_insert_ok. }
  destruct (find c linear) as [[w|f] t]; [destruct (check_of _ _ _ _ _)|]; cbn in *;
    auto using tlb_invalidate_ok.
Qed.

Lemma write_permits_read c w linear cpl :
  check_of c w linear Write cpl = Ok () → check_of c w linear Read cpl = Ok ().
Proof.
  unfold check_of. intros Hw.
  destruct (check_access_spec w linear Write cpl (cr0 (regs c)) (cr4 (regs c)) (efer (regs c))
    (has (rflags (regs c)) RFlags.AC)) as [[_ [Hu _ _ _ Hs]]|[E _]]; [|congruence].
  destruct (check_access_spec w linear Read cpl (cr0 (regs c)) (cr4 (regs c)) (efer (regs c))
    (has (rflags (regs c)) RFlags.AC)) as [[? _]|[_ Hn]]; [done|].
  destruct Hn. split; [done|done|done|done|]. intros _. by apply Hs.
Qed.

(** A read follows a write to the same address, whatever the store did to the
    page tables. *)
Lemma reread linear cpl c p c' c2 :
  tlb_ok (tlb c) → tlb_disabled = false →
  translate_as linear Write cpl c = (Ok p, c') →
  regs c2 = regs c → tlb c2 = tlb c' →
  ∃ t, translate_as linear Read cpl c2 = (Ok p, with_tlb t c2).
Proof.
  intros Hok Henv Hw Hr Ht. destruct (has (cr0 (regs c)) Cr0.PG) eqn:Hpg.
  - destruct (translated_cached linear Write cpl c p c' Hok Hpg Henv Hw) as (w & Hc & -> & Hk).
    rewrite translate_as_find. unfold find. rewrite Hr, Hpg, Henv, Ht. cbn [negb].
    rewrite <- lookup_cached in Hc. destruct (Tlb.lookup linear (tlb c')) as [found t].
    cbn in Hc. subst found. exists t.
    assert (check_of c2 w linear Read cpl = Ok ()) as ->; [|done].
    unfold check_of. rewrite Hr. by apply write_permits_read.
  - rewrite translate_as_find in *. rewrite Hr. rewrite Hpg in *. cbn [negb] in *.
    injection Hw as <- <-. exists (tlb c2). by rewrite with_tlb_same.
Qed.

(** Little-endian values through an eight-byte buffer. *)
Lemma from_le_bytes_pad bs n : from_le_bytes (bs ++ replicate n 0) = from_le_bytes bs.
Proof.
  unfold from_le_bytes. induction bs as [|b bs IH]; cbn.
  - induction n as [|n IH]; [done|]. cbn. rewrite IH. done.
  - by rewrite IH.
Qed.

Lemma splice_zeros bs : len bs ≤ 8 → splice (zeros 8) 0 bs = bs ++ replicate (8 - length bs) 0.
Proof.
  intros Hl. unfold len in Hl. apply list_eq. intros i.
  rewrite lookup_splice by (unfold zeros; rewrite ?len_replicate; unfold len; lia). case_decide as Hi.
  - rewrite lookup_app_l by (unfold len in Hi; lia). f_equal. lia.
  - rewrite lookup_app_r by (unfold len in Hi; lia). unfold zeros.
    destruct (decide (i < 8)%nat).
    + rewrite !lookup_replicate_2 by (unfold len in Hi; lia). done.
    + rewrite !lookup_ge_None_2 by (rewrite length_replicate; lia). done.
Qed.

Lemma read_value p w v (m : Memory (B := B) (N := N)) :
  0 ≤ w ≤ 8 → Memory.read p w m = Ok (to_le_bytes w v) → read_u64_at p w m = Ok (wrap (8 * w) v).
Proof.
  intros Hw Hr. unfold read_u64_at. rewrite Hr. cbn [rbind]. f_equal.
  rewrite splice_zeros by (rewrite len_to_le_bytes; lia).
  rewrite from_le_bytes_pad. apply from_to_le_bytes. lia.
Qed.

(** The width of a native push, and the linear address of the top of stack. *)
Definition native_width (r : Registers) : Z :=
  match mode r with Long => 8 | Protected32 => 4 | _ => 2 end.
Definition native_top c : Z :=
  match mode (regs c) with Long => rsp (regs c) | _ => stack_linear c end.
(** RSP moved down by [w]. *)
Definition below (w : Z) c : Cpu := c <| regs ::= λ r, set_rsp (wrapping_sub 64 (rsp r) w) r |>.

Lemma rsp_set v r : length (gpr r) = 16%nat → rsp (set_rsp v r) = v.
Proof. intros Hl. unfold rsp, set_rsp. apply list_lookup_total_insert_eq. rewrite Hl. unfold RSP. lia. Qed.
Lemma set_rsp_set u v r : set_rsp u (set_rsp v r) = set_rsp u r.
Proof. destruct r. unfold set_rsp, set_field. cbn. f_equal. apply list_insert_insert_eq. Qed.
Lemma set_rsp_same r : length (gpr r) = 16%nat → set_rsp (rsp r) r = r.
Proof.
  intros Hl. destruct r as [g]. unfold set_rsp, rsp, set_field in *. cbn in *. f_equal.
  apply list_insert_id, list_lookup_lookup_total_lt. rewrite Hl. unfold RSP. lia.
Qed.

Lemma down_up x w : word 64 x → wrapping_add 64 (wrapping_sub 64 x w) w = x.
Proof.
  intros Hx. unfold wrapping_add, wrapping_sub, wrap. rewrite Z.add_mod_idemp_l by lia.
  replace (x - w + w) with x by lia. by apply Z.mod_small.
Qed.

(** What a successful translation and store at [p] leave, and what a load there
    finds. *)
Lemma stack_slot w linear v c p c0 :
  0 ≤ w ≤ 8 → memory_ok (memory c) → tlb_ok (tlb c) → tlb_disabled = false →
  translate_as linear Write (cpl (regs c)) c = (Ok p, c0) →
  0 ≤ p < len (ram (memory c)) → p + w ≤ len (ram (memory c)) →
  ∃ m t, Memory.write p (to_le_bytes w v) (memory c0) = Ok m ∧
    ram m = splice (ram (memory c)) p (to_le_bytes w v) ∧
    let c1 := c0 <| memory := m |> in
    regs c1 = regs c ∧
    translate_as linear Read (cpl (regs c1)) c1 = (Ok p, with_tlb t c1) ∧
    read_u64_at p w m = Ok (wrap (8 * w) v).
Proof.
  intros Hw Hm Htlb Henv Et Hp Hle. pose proof (translate_keeps _ _ _ _ _ _ Et) as E0.
  assert (memory c0 = memory c ∧ regs c0 = regs c) as [Em Er] by (rewrite E0; split; reflexivity).
  rewrite Em. rewrite write_in_ram by (rewrite ?len_to_le_bytes; (done || lia)).
  set (m := bump_code_gen _ _ _). assert (memory_ok m) as Hm'.
  { eapply (write_ok p (to_le_bytes w v) (memory c)); [lia|apply to_le_bytes_words; lia|done|].
    apply write_in_ram; rewrite ?len_to_le_bytes; (done || lia). }
  set (c1 := c0 <| memory := m |>).
  destruct (reread linear (cpl (regs c)) c p c0 c1 Htlb Henv Et Er eq_refl) as [t Et'].
  exists m, t. split; [done|]. split; [done|]. split; [done|]. split.
  { change (translate_as linear Read (cpl (regs c0)) c1 = (Ok p, with_tlb t c1)). by rewrite Er. }
  apply read_value; [done|]. rewrite read_in_ram; [|done|..].
  - f_equal. change (ram m) with (splice (ram (memory c)) p (to_le_bytes w v)).
    rewrite <- (len_to_le_bytes w v) at 2 by lia. apply slice_splice; rewrite ?len_to_le_bytes; lia.
  - change (ram m) with (splice (ram (memory c)) p (to_le_bytes w v)). rewrite len_splice. lia.
  - lia.
  - change (ram m) with (splice (ram (memory c)) p (to_le_bytes w v)). rewrite len_splice. lia.
Qed.

Lemma to_le_bytes_wrap n v : 0 ≤ n → to_le_bytes n (wrap (8 * n) v) = to_le_bytes n v.
Proof.
  intros. rewrite <- (from_to_le_bytes n v) by done.
  rewrite <- (len_to_le_bytes n v) at 1 by done. apply to_from_le_bytes.
  by apply to_le_bytes_words.
Qed.

Lemma push_native_run v c p c0 m :
  let w := native_width (regs c) in
  translate (native_top (below w c)) Write (below w c) = (Ok p, c0) →
  Memory.write p (to_le_bytes w v) (memory c0) = Ok m →
  push_native v c = (Ok (), c0 <| memory := m |>).
Proof.
  unfold native_width, native_top, push_native. change (mode (regs (below ?w c))) with (mode (regs c)).
  intros Et Hwr. rewrite (sbind_ok get _ c c c eq_refl).
  destruct (mode (regs c)); unfold push16, push32, push64;
    rewrite (sbind_ok (move_rsp _) _ c () (below _ c) eq_refl), (sbind_ok get _ _ _ _ eq_refl),
      (sbind_ok (translate _ _) _ _ _ _ Et);
    unfold store_mem, supdate, write_u16, write_u32, write_u64;
    rewrite ?(to_le_bytes_wrap 2), ?(to_le_bytes_wrap 4), Hwr by lia; reflexivity.
Qed.

Lemma pop_native_run v c p c1 :
  let w := native_width (regs c) in
  translate (native_top c) Read c = (Ok p, c1) →
  read_u64_at p w (memory c1) = Ok (wrap (8 * w) v) →
  pop_native c = (Ok (wrap (8 * w) v),
    c1 <| regs ::= λ r, set_rsp (wrapping_add 64 (rsp r) w) r |>).
Proof.
  unfold native_width, native_top, pop_native. intros Et Hrd.
  rewrite (sbind_ok get _ c c c eq_refl).
  destruct (mode (regs c)); unfold pop16, pop32, pop64;
    rewrite (sbind_ok get _ _ _ _ eq_refl), (sbind_ok (translate _ _) _ _ _ _ Et);
    (erewrite sbind_ok by (unfold load_mem, sread, read_u16, read_u32, read_u64; rewrite Hrd;
       cbn [rbind]; rewrite ?wrap_small by (apply word_wrap; lia); reflexivity)); done.
Qed.

(** [c] at another instruction pointer; translation does not depend on it. *)
Definition at_rip (x : Z) c : Cpu := c <| regs ::= λ r, r <| rip := x |> |>.

Lemma translate_at_rip x linear kind cpl c :
  translate_as linear kind cpl (at_rip x c) =
    let '(r, c') := translate_as linear kind cpl c in (r, at_rip x c').
Proof.
  rewrite !translate_as_find. change (cr0 (regs (at_rip x c))) with (cr0 (regs c)).
  change (find (at_rip x c) linear) with (find c linear).
  destruct (negb _); [done|]. destruct (find c linear) as [[w|f] t]; [|done].
  change (check_of (at_rip x c)) with (check_of c). by destruct (check_of c w linear kind cpl).
Qed.

(** The stack returns what was pushed, wherever execution has gone meanwhile. In
    every mode, when the new top of stack translates to RAM, [push_native] stores
    the value there and [pop_native] gives it back, truncated to the native
    width, with every register but the instruction pointer as before the push;
    this holds even when the store overwrites the page tables that map the
    stack. *)
Lemma push_pop_native v c p c0 x :
  let w := native_width (regs c) in
  memory_ok (memory c) → tlb_ok (tlb c) → tlb_disabled = false →
  length (gpr (regs c)) = 16%nat → word 64 (rsp (regs c)) →
  translate (native_top (below w c)) Write (below w c) = (Ok p, c0) →
  0 ≤ p < len (ram (memory c)) → p + w ≤ len (ram (memory c)) →
  ∃ c1 c2, push_native v c = (Ok (), c1) ∧ regs c1 = regs (below w c) ∧
    pop_native (at_rip x c1) = (Ok (wrap (8 * w) v), c2) ∧
    regs c2 = (regs c) <| rip := x |> ∧ memory c2 = memory c1 ∧
    ram (memory c1) = splice (ram (memory c)) p (to_le_bytes w v).
Proof.
  intros w Hm Htlb Henv Hg Hrsp Et Hp Hle.
  assert (0 ≤ w ≤ 8) as Hw by (unfold w, native_width; destruct (mode (regs c)); lia).
  destruct (stack_slot w (native_top (below w c)) v (below w c) p c0) as (m & t & Hwr & Hram & Hreg & Hrd & Hval);
    [done..|].
  set (c1 := c0 <| memory := m |>) in *. assert (native_width (regs c1) = w) as Ew by (by rewrite Hreg).
  assert (native_top c1 = native_top (below w c)) as Etop.
  { unfold native_top, stack_linear. by rewrite Hreg. }
  rewrite <- Etop in Hrd.
  assert (translate (native_top (at_rip x c1)) Read (at_rip x c1) = (Ok p, at_rip x (with_tlb t c1))) as Hrd'.
  { change (translate_as (native_top c1) Read (cpl (regs c1)) (at_rip x c1) = (Ok p, at_rip x (with_tlb t c1))).
    by rewrite translate_at_rip, Hrd. }
  pose proof (pop_native_run v (at_rip x c1) p _ Hrd') as Hpop.
  change (native_width (regs (at_rip x c1))) with (native_width (regs c1)) in Hpop.
  rewrite Ew in Hpop. specialize (Hpop Hval).
  eexists c1, _. split; [by apply (push_native_run v c p c0 m)|]. split; [done|]. split; [exact Hpop|].
  split; [|split; [done|exact Hram]].
  change ((set_rsp (wrapping_add 64 (rsp (regs c1)) w) (regs c1)) <| rip := x |> = (regs c) <| rip := x |>).
  rewrite Hreg. change (regs (below w c)) with (set_rsp (wrapping_sub 64 (rsp (regs c)) w) (regs c)).
  rewrite rsp_set, set_rsp_set, down_up, set_rsp_same by done. done.
Qed.

End stack.

(** ** An instance *)

Definition demo_registers : Registers :=
  Registers_default <| gpr := <[RSP := 0x1800]> (replicate 16 0) |> <| rip := 0x1400 |>
    <| rflags := RFlags.IF .| RFlags.ZF |> <| cr0 := Cr0.PG .| Cr0.PE |> <| efer := Efer.LMA |>
    <| cs := SegmentRegister_default |> <| ss := SegmentRegister_default |>.
Definition demo_cpu : Cpu Raw VecBlockBackend Recorder :=
  mkCpu demo_registers paged_memory PortBus_default Pic8259.new Pit8254.new (Cmos.new 0) pm_new
    (Uart16550.new 0x3F8 4096 65536) (Uart16550.new 0x2F8 65536 65536) 0 0 false false 0 3 0 0 0 0 0
    0x037F 0 0 0x1F80 [] 0 0 0 [] [] false false Tlb.new Decode.new DEVICE_TICK_INTERVAL false false 0.
#[export] Instance tlb_enabled : Environment := mkEnvironment false.

(** An empty TLB agrees with any tables. *)
Lemma empty_coherent {I B N} `{BlockBackend B} `{NetBackend N} (c : Cpu I B N) :
  tlb c = Tlb.new → coherent c.
Proof. intros E page t Hp Ht. by rewrite E, tlb_new_cached in Ht. Qed.

Lemma translation_is_walk_witness :
  translate_ref demo_cpu 0x1234 Write 0 = Ok 0x1234 ∧
  (translate_as 0x1234 Write 0 demo_cpu).1 = Ok 0x1234.
Proof.
  assert (translate_ref demo_cpu 0x1234 Write 0 = Ok 0x1234) as Er by (vm_compute; reflexivity).
  split; [exact Er|].
  destruct (translation_is_walk 0x1234 Write 0 demo_cpu) as (t & E & _).
  - apply empty_coherent. reflexivity.
  - apply tlb_new_ok.
  - by apply word_const.
  - rewrite E. exact Er.
Defined.

(** The second PML4 entry is absent; the guest maps it and retries. *)
Definition unmapped_linear : Z := 0x8000001234.
Definition demo_fixed : Memory (B := VecBlockBackend) (N := Recorder) :=
  paged_memory <| ram ::= λ r, splice r 8 (to_le_bytes 8 0x1003) |>.

Lemma fault_forces_walk_witness :
  ∃ e c', translate_as unmapped_linear Read 0 demo_cpu = (Err e, c') ∧
    (translate_as unmapped_linear Read 0 (c' <| memory := demo_fixed |>)).1 = Ok 0x1234.
Proof.
  destruct (translate_as unmapped_linear Read 0 demo_cpu) as [[p|e] c'] eqn:E.
  { exfalso. apply (f_equal fst) in E. vm_compute in E. discriminate E. }
  exists e, c'. split; [reflexivity|].
  rewrite (fault_forces_walk unmapped_linear Read 0 demo_cpu e c' (c' <| memory := demo_fixed |>) Read 0).
  - apply translate_keeps in E. rewrite E. vm_compute. reflexivity.
  - apply tlb_new_ok.
  - by apply word_const.
  - exact E.
  - reflexivity.
Defined.

(** A read across the boundary of two pages. *)
Lemma linear_read_gathers_witness :
  ∃ bytes t, read_linear_bytes 0xFFC 8 demo_cpu = (Ok bytes, demo_cpu <| tlb := t |>) ∧
    len bytes = 8 ∧ bytes !! 4%nat = Some 0x83.
Proof.
  destruct (linear_read_gathers 0xFFC 8 demo_cpu) as (bytes & t & E & El & Hb).
  - exact paged_memory_ok.
  - apply tlb_new_ok.
  - apply empty_coherent. reflexivity.
  - lia.
  - intros i Hi. exists (0xFFC + i). change (ram (memory demo_cpu)) with (ram paged_memory).
    rewrite paged_memory_size. split; [|lia].
    assert (i ∈ seqZ 0 8) as Hin by (apply elem_of_seqZ; lia). clear Hi. revert i Hin. apply Forall_forall.
    repeat (apply Forall_cons_2; [vm_compute; reflexivity|]). apply Forall_nil_2.
  - exists bytes, t. split; [exact E|]. split; [exact El|].
    change 4%nat with (Z.to_nat 4). rewrite (Hb 4 0x1000); [vm_compute; reflexivity|lia|vm_compute; reflexivity].
Defined.
