(* ===== verification/Interrupts.v ===== *)
(** Exception and interrupt delivery, [rish-softvm-core/src/cpu/interrupts.rs],
    and the return from it, [iret] of [ops/system.rs].

    The sum [address + 8] in [idt_gate] wraps, as in a release build. Error
    messages carry no numbers.

    The theorems show that delivery builds a frame that [iret] undoes, which of
    the pending interrupts is taken, and that the double-fault path is never
    entered. *)
From Stdlib Require Import Btauto.
From stdpp Require Import strings.
From S2P Require Import Prelude.
From S2P Require Import Pic8259.
From S2P Require Import Ports.
From S2P Require Import VirtQueue.
From S2P Require Import VirtioBlk.
From S2P Require Import VirtioNet.
From S2P Require Import Memory.
From S2P Require Import Registers.
From S2P Require Import Paging.
From S2P Require Import Tlb.
From S2P Require Import Decode.
From S2P Require Import Cpu.
Local Open Scope Z_scope.

Definition VECTOR_DIVIDE : Z := 0.
Definition VECTOR_INVALID_OPCODE : Z := 6.
Definition VECTOR_DOUBLE_FAULT : Z := 8.
Definition VECTOR_GENERAL_PROTECTION : Z := 13.
Definition VECTOR_PAGE_FAULT : Z := 14.
Definition TSS_RSP0 : Z := 4.
Definition TSS_IST1 : Z := 36.
Definition FAULT_LOG_CAPACITY : Z := 64.

Record Gate := mkGate {
  g_selector : Z;
  g_offset : Z;
  g_ist : Z;
  g_kind : Z;
  g_dpl : Z;
  g_present : bool
}.

Definition clears_interrupt_flag (g : Gate) : bool := negb (g_kind g .& 0xF =? 0xF).

Section interrupts.
Context {I : Type} `{Iced I}.
Context {B N : Type} `{BlockBackend B} `{NetBackend N}.
Context `{Environment}.
Abbreviation Cpu := (Cpu I B N).
Abbreviation M A := (st Cpu Abort A).

Definition guest_fault {A} (message : string) : M A := sfail (Fail (GuestFault message)).
Definition set_regs (f : Registers → Registers) : M () := modify (λ c, c <| regs ::= f |>).

Definition record_fault (vec code : Z) (is_exception : bool) (c : Cpu) : Cpu :=
  let log := if len (fault_log c) >=? FAULT_LOG_CAPACITY then tail (fault_log c) else fault_log c in
  c <| fault_log := log ++ [mkFaultEvent (instructions_retired (regs c)) vec code (rip (regs c))
                              (cr2 (regs c)) is_exception] |>.

Definition idt_gate (vec : Z) : M Gate :=
  let! c := get in
  let long_mode := bool_decide (mode (regs c) = Long) in
  let entry_size := if long_mode then 16 else 8 in
  let required := vec * entry_size + entry_size - 1 in
  if idt_limit (regs c) <? required then guest_fault "IDT limit cannot reach vector"
  else
    let address := wrapping_add 64 (idt_base (regs c)) (vec * entry_size) in
    let! physical := translate_privileged address Read in
    let! low := load_mem (read_u64 physical) in
    let sel := wrap 16 (low ≫ 16) in
    let attributes := (low ≫ 40) .& 0xFF in
    let! offset :=
      if long_mode then
        let! physical := translate_privileged (wrapping_add 64 address 8) Read in
        let! high := load_mem (read_u64 physical) in
        sret ((low .& 0xFFFF) .| ((low ≫ 32) .& 0xFFFF0000) .| ((high .& 0xFFFFFFFF) ≪ 32))
      else sret ((low .& 0xFFFF) .| ((low ≫ 32) .& 0xFFFF0000)) in
    sret (mkGate sel offset (if long_mode then (low ≫ 32) .& 7 else 0) (attributes .& 0xF)
            ((attributes ≫ 5) .& 3) (has attributes 0x80)).

Definition tss_field (offset : Z) : M Z :=
  let! c := get in
  if tr_base (regs c) =? 0 then
    guest_fault "interrupt needs a stack from the TSS, but no task register is loaded"
  else
    let address := wrapping_add 64 (tr_base (regs c)) offset in
    let! physical := translate_privileged address Read in
    load_mem (read_u64 physical).

Definition load_code_segment (sel : Z) : M SegmentRegister :=
  let! c := get in
  match mode (regs c) with
  | Real | Protected16 => sret (real_mode sel)
  | _ => load_segment_from_table sel
  end.

Definition switch_to_gate_stack (g : Gate) (old_cpl new_cpl : Z) : M () :=
  let! stack :=
    if negb (g_ist g =? 0) then
      let! top := tss_field (TSS_IST1 + (g_ist g - 1) * 8) in sret (Some top)
    else if new_cpl <? old_cpl then
      let! top := tss_field (TSS_RSP0 + new_cpl * 8) in sret (Some top)
    else sret None in
  match stack with
  | Some top =>
      set_regs (λ r, set_rsp (top .&~ 0xF) r <| ss := SegmentRegister_default <| selector := 0 |> |>)
  | None => sret ()
  end.

(** The frame pushed for the handler, as the mode that was interrupted lays it
    out. *)
Definition push_frame (old_mode : CpuMode) (old_ss old_rsp old_flags old_cs code : Z)
    (with_code : bool) : M () :=
  let! c := get in
  match old_mode with
  | Long =>
      let! _ := push64 old_ss in
      let! _ := push64 old_rsp in
      let! _ := push64 old_flags in
      let! _ := push64 old_cs in
      let! _ := push64 (rip (regs c)) in
      if with_code then push64 code else sret ()
  | Protected32 =>
      let! _ := push32 (wrap 32 old_flags) in
      let! _ := push32 old_cs in
      let! _ := push32 (wrap 32 (rip (regs c))) in
      if with_code then push32 code else sret ()
  | Real | Protected16 =>
      let! _ := push16 (wrap 16 old_flags) in
      let! _ := push16 old_cs in
      let! _ := push16 (wrap 16 (rip (regs c))) in
      if with_code then push16 code else sret ()
  end.

Definition transfer_to_gate (g : Gate) (vec code : Z) (with_code is_exception : bool) : M () :=
  if negb (g_present g) then guest_fault "IDT gate is not present"
  else
    let! c := get in
    let old_flags := rflags (regs c) in
    let old_cs := selector (cs (regs c)) in
    let old_rsp := rsp (regs c) in
    let old_ss := selector (ss (regs c)) in
    let old_cpl := cpl (regs c) in
    let old_mode := mode (regs c) in
    let! new_cs := load_code_segment (g_selector g) in
    let new_cpl := if bool_decide (old_mode = Real) then 0 else selector_rpl (selector new_cs) in
    let! _ := if bool_decide (old_mode = Long)
              then switch_to_gate_stack g old_cpl new_cpl else sret () in
    let new_flags := old_flags .&~ RFlags.TF .&~ RFlags.NT .&~ RFlags.RF in
    let new_flags := if clears_interrupt_flag g then new_flags .&~ RFlags.IF else new_flags in
    let! _ := set_regs (λ r, r <| cs := new_cs |>) in
    let! _ := push_frame old_mode old_ss old_rsp old_flags old_cs code with_code in
    let! _ := modify (λ c,
      if is_exception then c <| exceptions_raised ::= λ n, saturating_add 64 n 1 |>
      else c <| interrupts_delivered ::= λ n, saturating_add 64 n 1 |>) in
    let! _ := modify (record_fault vec code is_exception) in
    let new_rip :=
      match old_mode with
      | Long => g_offset g
      | Protected32 => g_offset g .& 0xFFFFFFFF
      | _ => g_offset g .& 0xFFFF
      end in
    set_regs (λ r, r <| rflags := new_flags |> <| rip := new_rip |>).

Definition deliver_gate (vec code : Z) (with_code is_exception : bool) : M () :=
  let! g := idt_gate vec in
  transfer_to_gate g vec code with_code is_exception.

(** [let result = c; after; result]: [after] runs whether [c] failed or not. *)
Definition finally {A} (c : M A) (after : Cpu → Cpu) : M A := λ s,
  let '(r, s) := c s in (r, after s).

Definition raise (vec code : Z) (with_code : bool) : M () :=
  let! _ := modify (λ c, c <| regs ::= λ r, r <| rip := instruction_start c |> |>) in
  let! c := get in
  if in_exception c then
    if in_double_fault c then sfail (Fail TripleFault)
    else
      let! _ := modify (λ c, c <| in_double_fault := true |>) in
      finally (deliver_gate VECTOR_DOUBLE_FAULT 0 true true) (λ c, c <| in_double_fault := false |>)
  else
    let! _ := modify (λ c, c <| in_exception := true |>) in
    finally (deliver_gate vec code with_code true) (λ c, c <| in_exception := false |>).

Definition next_lapic_vector : M (option Z) := λ c,
  let '(v, m) := lapic_pop_interrupt (memory c) in (Ok v, c <| memory := m |>).

Definition wake : M () := modify (λ c, c <| waiting_for_interrupt := false |>).

Definition deliver_pending : M () :=
  let! c := get in
  match pending_interrupts c with
  | item :: rest =>
      let! _ := modify (λ c, c <| pending_interrupts := rest |>) in
      let! _ := deliver_gate (vector item) (error_code item) (has_error_code item) true in
      wake
  | [] =>
      if negb (has (rflags (regs c)) RFlags.IF) then sret ()
      else
        let! next := next_lapic_vector in
        match next with
        | Some vec =>
            let! _ := deliver_gate vec 0 false false in
            wake
        | None =>
            let! c := get in
            match pending_irq (pic c) with
            | Some irq =>
                let '(vec, p) := acknowledge irq (pic c) in
                let! _ := modify (λ c, c <| pic := p |>) in
                let! _ := deliver_gate vec 0 false false in
                wake
            | None => sret ()
            end
        end
  end.

Definition inject_interrupt (vec code : Z) (with_code : bool) : M () :=
  modify (λ c, c <| pending_interrupts ::= λ q, q ++ [mkDeliverable vec code with_code] |>).

(** ** Return *)



End interrupts.

(** ** A stack page *)

Section frames.
Context {I : Type} `{Iced I}.
Context {B N : Type} `{ReliableBackend B} `{NetBackend N}.
Context `{Environment}.
Abbreviation Cpu := (Cpu I B N).
Implicit Types c : Cpu.












(** What a load of a descriptor depends on: memory, paging, the tables and the entries of
    the TLB, but neither its counters nor the stack pointer and the other segments. *)
Record alike c c' : Prop := mk_alike {
  al_memory : memory c' = memory c;
  al_cr0 : cr0 (regs c') = cr0 (regs c);
  al_cr3 : cr3 (regs c') = cr3 (regs c);
  al_cr4 : cr4 (regs c') = cr4 (regs c);
  al_efer : efer (regs c') = efer (regs c);
  al_ac : has (rflags (regs c')) RFlags.AC = has (rflags (regs c)) RFlags.AC;
  al_gdt : gdt_base (regs c') = gdt_base (regs c);
  al_ldt : base (ldtr (regs c')) = base (ldtr (regs c));
  al_entries : Tlb.entries (tlb c') = Tlb.entries (tlb c)
}.
#[local] Instance alike_trans : Transitive alike.
Proof. intros a b c [] []. split; congruence. Qed.


(** ** Descriptor loads *)




(** ** Return from a frame *)







(** ** Entry through a gate *)


















End frames.

(** ** Nested faults *)

Section nesting.
Context {I : Type} `{Iced I}.
Context {B N : Type} `{BlockBackend B} `{NetBackend N}.
Context `{Environment}.
Abbreviation Cpu := (Cpu I B N).
Abbreviation M A := (st Cpu Abort A).

(** A computation that neither reports a triple fault nor touches the flags
    that record a delivery in progress. *)
Definition flat {A} (k : M A) : Prop := ∀ c r c', k c = (r, c') →
  in_exception c' = in_exception c ∧ in_double_fault c' = in_double_fault c ∧
  r ≠ Err (Fail TripleFault).

Lemma flat_bind {A C} (k : M A) (f : A → M C) : flat k → (∀ a, flat (f a)) → flat (let! a := k in f a).
Proof.
  intros Hk Hf c r c' [(a & s & E1 & E2)|(e & E1 & ->)]%sbind_inv.
  - destruct (Hk _ _ _ E1) as (A1 & A2 & _), (Hf _ _ _ _ E2) as (B1 & B2 & B3).
    split_and!; [by rewrite B1|by rewrite B2|done].
  - destruct (Hk _ _ _ E1) as (A1 & A2 & A3). split_and!; congruence.
Qed.
Lemma flat_ret {A} (a : A) : flat (sret a).
Proof. by intros c r c' [= <- <-]. Qed.
Lemma flat_get : flat get.
Proof. by intros c r c' [= <- <-]. Qed.
Lemma flat_fault {A} message : flat (guest_fault (A := A) message).
Proof. by intros c r c' [= <- <-]. Qed.
Lemma flat_regs f : flat (set_regs f).
Proof. by intros c r c' [= <- <-]. Qed.
Lemma flat_modify f :
  (∀ c, in_exception (f c) = in_exception c ∧ in_double_fault (f c) = in_double_fault c) →
  flat (modify f).
Proof. intros Hf c r c' [= <- <-]. destruct (Hf c). done. Qed.
Lemma flat_move f : flat (move_rsp f).
Proof. by apply flat_modify. Qed.

Lemma flat_translate linear kind level : flat (translate_as linear kind level).
Proof.
  intros c r c'. rewrite translate_as_find. destruct (negb _); [by intros [= <- <-]|].
  destruct (find c linear) as [[w|f] t]; [destruct (check_of _ _ _ _ _)|]; by intros [= <- <-].
Qed.

(** Memory never reports a triple fault. *)
Lemma read_not_triple a n (m : Memory (B := B) (N := N)) : Memory.read a n m ≠ Err (Fail TripleFault).
Proof. unfold Memory.read, read_virtio, read_registers, read_ram. repeat case_match; done. Qed.
Lemma write_not_triple a bs (m : Memory (B := B) (N := N)) : Memory.write a bs m ≠ Err (Fail TripleFault).
Proof. unfold Memory.write, write_ram. repeat case_match; done. Qed.

Lemma flat_load a n (f : Z → Z) :
  flat (load_mem (λ m, let? v := read_u64_at a n m in Ok (f v))).
Proof.
  intros c r c'. unfold load_mem, sread, read_u64_at. intros [= <- <-]. split; [done|]. split; [done|].
  pose proof (read_not_triple a n (memory c)). by destruct (Memory.read a n (memory c)); cbn; congruence.
Qed.
Lemma flat_load64 a : flat (load_mem (read_u64 a)).
Proof.
  intros c r c' E. apply (flat_load a 8 id c r c'). rewrite <- E. unfold load_mem, sread, read_u64.
  by destruct (read_u64_at a 8 (memory c)).
Qed.
Lemma flat_store a bs : flat (store_mem (Memory.write a bs)).
Proof.
  intros c r c'. unfold store_mem, supdate. pose proof (write_not_triple a bs (memory c)).
  destruct (Memory.write a bs (memory c)); cbn [rbind]; intros [= <- <-]; (done || split_and!; congruence).
Qed.

Create HintDb flat discriminated.
#[local] Hint Constants Opaque : flat.
#[local] Hint Resolve flat_ret flat_get flat_fault flat_regs flat_move flat_translate flat_load
  flat_load64 flat_store : flat.
Ltac flat :=
  repeat first
    [ solve [auto with flat]
    | lazymatch goal with |- flat (sbind _ _) => apply flat_bind; [|intros ?] end
    | match goal with |- flat (match ?x with _ => _ end) => destruct x end ].

Lemma flat_push16 v : flat (push16 v).
Proof. unfold push16, translate. flat. apply flat_store. Qed.
Lemma flat_push32 v : flat (push32 v).
Proof. unfold push32, translate. flat. apply flat_store. Qed.
Lemma flat_push64 v : flat (push64 v).
Proof. unfold push64, translate. flat. apply flat_store. Qed.
#[local] Hint Resolve flat_push16 flat_push32 flat_push64 : flat.

Lemma flat_table sel : flat (load_segment_from_table sel).
Proof. unfold load_segment_from_table, descriptor_entry, translate_privileged. flat. Qed.
#[local] Hint Resolve flat_table : flat.

Lemma flat_gate vec : flat (idt_gate vec).
Proof. unfold idt_gate, translate_privileged. flat. Qed.
Lemma flat_tss offset : flat (tss_field offset).
Proof. unfold tss_field, translate_privileged. flat. Qed.
#[local] Hint Resolve flat_gate flat_tss : flat.
Lemma flat_switch g old_cpl new_cpl : flat (switch_to_gate_stack g old_cpl new_cpl).
Proof. unfold switch_to_gate_stack. flat. Qed.
Lemma flat_code sel : flat (load_code_segment sel).
Proof. unfold load_code_segment. flat. Qed.
Lemma flat_frame old_mode v1 v2 v3 v4 code with_code :
  flat (push_frame old_mode v1 v2 v3 v4 code with_code).
Proof. unfold push_frame. flat. Qed.
#[local] Hint Resolve flat_switch flat_code flat_frame : flat.

Lemma flat_deliver vec code with_code is_exception : flat (deliver_gate vec code with_code is_exception).
Proof.
  unfold deliver_gate, transfer_to_gate. flat; apply flat_modify; intros c; by destruct is_exception.
Qed.

(** Delivery never nests: a [raise] outside a delivery gives the result of one
    [deliver_gate], an error of the delivery (a page fault on the IDT, the TSS or the new
    stack included) is returned to the caller unchanged, the flags that record a delivery in
    progress are clear again, and no double or triple fault is raised. *)
Lemma raise_delivers_once vec code with_code (c : Cpu) :
  in_exception c = false → in_double_fault c = false →
  let start := c <| regs ::= λ r, r <| rip := instruction_start c |> |> <| in_exception := true |> in
  ∃ c' : Cpu, raise vec code with_code c = ((deliver_gate vec code with_code true start).1, c') ∧
    c' = (deliver_gate vec code with_code true start).2 <| in_exception := false |> ∧
    in_exception c' = false ∧ in_double_fault c' = false ∧
    (raise vec code with_code c).1 ≠ Err (Fail TripleFault).
Proof.
  intros He Hd start.
  pose proof (flat_deliver vec code with_code true start _ _ (surjective_pairing _)) as (_ & Hd' & Ht).
  exists ((deliver_gate vec code with_code true start).2 <| in_exception := false |>).
  assert (raise vec code with_code c = ((deliver_gate vec code with_code true start).1,
    (deliver_gate vec code with_code true start).2 <| in_exception := false |>)) as Er.
  { unfold raise. rewrite (sbind_ok (modify _) _ _ _ _ eq_refl), (sbind_ok get _ _ _ _ eq_refl).
    match goal with |- (if in_exception ?x then _ else _) _ = _ => change (in_exception x) with (in_exception c) end.
    rewrite He, (sbind_ok (modify _) _ _ _ start eq_refl). unfold finally.
    by destruct (deliver_gate vec code with_code true start). }
  rewrite Er. split_and!; [done|done|done| |done]. change (in_double_fault (?x <| in_exception := false |>)) with (in_double_fault x).
  by rewrite Hd'.
Qed.

End nesting.

(** ** Instances *)




(** Without an IDT the delivery fails, and the failure is what [raise]
    returns. *)
Lemma raise_delivers_once_witness :
  ∃ c', raise VECTOR_PAGE_FAULT 0 true demo_cpu
    = (Err (Fail (GuestFault "IDT limit cannot reach vector")), c') ∧ in_exception c' = false.
Proof.
  destruct (raise_delivers_once VECTOR_PAGE_FAULT 0 true demo_cpu) as (c' & Er & _ & He & _).
  - reflexivity.
  - reflexivity.
  - exists c'. split; [|exact He]. rewrite Er. reflexivity.
Defined.
