(* ===== verification/Operands.v ===== *)
(** Instruction operands: the general-purpose file at its sub-register widths,
    effective addresses, memory operands and the flag helpers,
    [rish-softvm-core/src/ops/mod.rs], the operand section of [cpu/mod.rs] and the
    register tables of [cpu/dispatch.rs].

    The decoded instruction is a type of [iced_x86]. The class
    [IcedInstruction] lists the accessors the source uses; its enumerations are
    those of [iced_x86], cut down to the constructors the source names, with one
    constructor for the rest.

    The theorems show that the operand accessors move exactly the bytes of
    their operand, and that the flag helpers compute the unsigned and the signed
    carry of the mathematical sum and difference. *)
From Stdlib Require Import Btauto.
From stdpp Require Import strings.
From S2P Require Import Prelude.
From S2P Require Import Ports.
From S2P Require Import VirtQueue.
From S2P Require Import VirtioBlk.
From S2P Require Import VirtioNet.
From S2P Require Import Memory.
From S2P Require Import Registers.
From S2P Require Import Paging.
From S2P Require Import Tlb.
From S2P Require Import Decode.
From S2P Require Import Cpu.
From S2P Require Import Interrupts.
Local Open Scope Z_scope.

(** ** The decoded instruction *)

(** [iced_x86::Register]: no register, the general-purpose registers of each
    width, the segment registers, the numbered XMM, control and debug registers,
    and all others. *)
Module Reg.
Inductive t :=
  | None
  | AL | CL | DL | BL | AH | CH | DH | BH | SPL | BPL | SIL | DIL | R8L | R9L | R10L | R11L
  | R12L | R13L | R14L | R15L
  | AX | CX | DX | BX | SP | BP | SI | DI | R8W | R9W | R10W | R11W | R12W | R13W | R14W | R15W
  | EAX | ECX | EDX | EBX | ESP | EBP | ESI | EDI | R8D | R9D | R10D | R11D | R12D | R13D
  | R14D | R15D
  | RAX | RCX | RDX | RBX | RSP | RBP | RSI | RDI | R8 | R9 | R10 | R11 | R12 | R13 | R14 | R15
  | ES | CS | SS | DS | FS | GS
  | XMM (n : Z) | CR (n : Z) | DR (n : Z) | Other (n : Z).
#[global] Instance eq_dec : EqDecision t.
Proof. solve_decision. Defined.

(** [register as usize], the layout of iced 1.21 that [REGISTER_INDEX] relies on:
    the general-purpose registers come first, packed by width. Every other
    register lies above them. *)
Definition discriminant (r : t) : option Z :=
  match r with
  | None => Some 0
  | AL => Some 1 | CL => Some 2 | DL => Some 3 | BL => Some 4 | AH => Some 5 | CH => Some 6
  | DH => Some 7 | BH => Some 8 | SPL => Some 9 | BPL => Some 10 | SIL => Some 11
  | DIL => Some 12 | R8L => Some 13 | R9L => Some 14 | R10L => Some 15 | R11L => Some 16
  | R12L => Some 17 | R13L => Some 18 | R14L => Some 19 | R15L => Some 20
  | AX => Some 21 | CX => Some 22 | DX => Some 23 | BX => Some 24 | SP => Some 25
  | BP => Some 26 | SI => Some 27 | DI => Some 28 | R8W => Some 29 | R9W => Some 30
  | R10W => Some 31 | R11W => Some 32 | R12W => Some 33 | R13W => Some 34 | R14W => Some 35
  | R15W => Some 36
  | EAX => Some 37 | ECX => Some 38 | EDX => Some 39 | EBX => Some 40 | ESP => Some 41
  | EBP => Some 42 | ESI => Some 43 | EDI => Some 44 | R8D => Some 45 | R9D => Some 46
  | R10D => Some 47 | R11D => Some 48 | R12D => Some 49 | R13D => Some 50 | R14D => Some 51
  | R15D => Some 52
  | RAX => Some 53 | RCX => Some 54 | RDX => Some 55 | RBX => Some 56 | RSP => Some 57
  | RBP => Some 58 | RSI => Some 59 | RDI => Some 60 | R8 => Some 61 | R9 => Some 62
  | R10 => Some 63 | R11 => Some 64 | R12 => Some 65 | R13 => Some 66 | R14 => Some 67
  | R15 => Some 68
  | _ => Datatypes.None
  end.
End Reg.
Abbreviation Register := Reg.t.

(** [iced_x86::OpKind] *)
Module OpKind.
Inductive t :=
  | Register
  | NearBranch16 | NearBranch32 | NearBranch64 | FarBranch16 | FarBranch32
  | Immediate8 | Immediate8_2nd | Immediate16 | Immediate32 | Immediate64
  | Immediate8to16 | Immediate8to32 | Immediate8to64 | Immediate32to64
  | MemorySegSI | MemorySegESI | MemorySegRSI | MemorySegDI | MemorySegEDI | MemorySegRDI
  | MemoryESDI | MemoryESEDI | MemoryESRDI | Memory.
End OpKind.

(** [iced_x86::MemorySize] *)
Module MemorySize.
Inductive t :=
  | UInt8 | UInt16 | UInt32 | UInt64 | UInt128 | UInt256 | UInt512
  | Int8 | Int16 | Int32 | Int64 | Int128 | Int256 | Int512 | Other.
End MemorySize.

(** [iced_x86::Code], the forms with an absolute address. *)
Module Code.
Inductive t :=
  | Mov_moffs8_AL | Mov_moffs16_AX | Mov_moffs32_EAX | Mov_moffs64_RAX
  | Mov_AL_moffs8 | Mov_AX_moffs16 | Mov_EAX_moffs32 | Mov_RAX_moffs64
  | Other.
End Code.

(** [iced_x86::Mnemonic] *)
Module Mnemonic.
Inductive t :=
  | Nop | Pause
  | Mov | Lea | Movzx | Movsx | Movsxd | Xchg | Xadd | Cmpxchg | Cmpxchg8b | Cmpxchg16b | Xlatb
  | Add | Sub | Cmp | Adc | Sbb | Inc | Dec | Neg | Mul | Imul | Div | Idiv
  | Cbw | Cwde | Cdqe | Cwd | Cdq | Cqo
  | And | Or | Xor | Test | Not | Shl | Shr | Sar | Rol | Ror | Rcl | Rcr
  | Bsf | Bsr | Tzcnt | Lzcnt | Bt | Bts | Btr | Btc
  | Push | Pop | Pushf | Pushfq | Pushfd | Popf | Popfq | Popfd | Enter | Leave
  | Jmp | Call | Ret | Retf | Loop | Loope | Loopne | Jcxz | Jecxz | Jrcxz
  | Jo | Jno | Jb | Jae | Je | Jne | Jbe | Ja | Js | Jns | Jp | Jnp | Jl | Jge | Jle | Jg
  | Seto | Setno | Setb | Setae | Sete | Setne | Setbe | Seta | Sets | Setns | Setp | Setnp
  | Setl | Setge | Setle | Setg
  | Cmovo | Cmovno | Cmovb | Cmovae | Cmove | Cmovne | Cmovbe | Cmova | Cmovs | Cmovns | Cmovp
  | Cmovnp | Cmovl | Cmovge | Cmovle | Cmovg
  | Stc | Clc | Cmc | Cld | Std | Cli | Sti | Sahf | Lahf
  | Movsb | Movsw | Movsd | Movsq | Stosb | Stosw | Stosd | Stosq | Lodsb | Lodsw | Lodsd
  | Lodsq
  | Scasb | Scasw | Scasd | Scasq | Cmpsb | Cmpsw | Cmpsd | Cmpsq
  | Lsl | Pusha | Pushad | Popa | Popad | Iret | Iretd | Iretq | Int | Int3 | Int1 | Into | Bound
  | Xsave | Xsave64 | Xsavec | Xsavec64 | Xsaves | Xsaves64 | Xrstor | Xrstor64 | Xrstors
  | Xrstors64 | Fxsave | Fxsave64 | Fxrstor | Fxrstor64
  | Other (name : string).
End Mnemonic.

(** What the source uses of [iced_x86::Instruction]. [op0_kind], [op1_register]
    and the like are [op_kind] and [op_register] at the operand's number. *)
Class IcedInstruction (I : Type) := mkInstruction {
  mnemonic : I → Mnemonic.t;
  code : I → Code.t;
  op_count : I → Z;
  op_kind : I → Z → OpKind.t;
  op_register : I → Z → Register;
  immediate : I → Z → Z;
  immediate8 : I → Z;
  immediate16 : I → Z;
  immediate32 : I → Z;
  immediate8to16 : I → Z;
  immediate8to32 : I → Z;
  instruction_memory_size : I → MemorySize.t;
  segment_prefix : I → Register;
  is_ip_rel_memory_operand : I → bool;
  ip_rel_memory_address : I → Z;
  memory_base : I → Register;
  memory_index : I → Register;
  memory_index_scale : I → Z;
  memory_displacement64 : I → Z;
  near_branch_target : I → Z;
  far_branch32 : I → Z;
  far_branch_selector : I → Z;
  has_rep_prefix : I → bool;
  has_repe_prefix : I → bool;
  has_repne_prefix : I → bool
}.

(** ** The general-purpose file *)

(** The [const] table of [cpu/dispatch.rs], entry by entry. *)
Definition register_entry (value : Z) : Z :=
  if value =? 0 then 0
  else if value <=? 8 then (value - 1) `mod` 4
  else if value <=? 20 then value - 5
  else if value <=? 36 then value - 21
  else if value <=? 52 then value - 37
  else value - 53.
Definition REGISTER_INDEX : list Z := register_entry <$> seqZ 0 69.

Definition register_index (register : Register) : nat :=
  match Reg.discriminant register with
  | Some value =>
      match REGISTER_INDEX !! Z.to_nat value with
      | Some index => Z.to_nat index
      | None => RAX
      end
  | None => RAX
  end.

(** AH, CH, DH and BH. *)
Definition is_high_byte (register : Register) : bool :=
  match register with
  | Reg.AH | Reg.CH | Reg.DH | Reg.BH => true
  | _ => false
  end.

Definition read_register (r : Registers) (register : Register) (size : Z) : Z :=
  let value := gpr r !!! register_index register in
  if is_high_byte register then (value ≫ 8) .& 0xFF
  else
    match size with
    | 1 => value .& 0xFF
    | 2 => value .& 0xFFFF
    | 4 => value .& 0xFFFFFFFF
    | _ => value
    end.

Definition write_register (register : Register) (size value : Z) (r : Registers) : Registers :=
  let index := register_index register in
  let old := gpr r !!! index in
  let new :=
    if is_high_byte register then (old .&~ 0xFF00) .| ((value .& 0xFF) ≪ 8)
    else
      match size with
      | 1 => (old .&~ 0xFF) .| (value .& 0xFF)
      | 2 => (old .&~ 0xFFFF) .| (value .& 0xFFFF)
      | 4 => value .& 0xFFFFFFFF
      | _ => value
      end in
  r <| gpr ::= <[index := new]> |>.

Definition register_size (register : Register) : Z :=
  match register with
  | Reg.AL | Reg.CL | Reg.DL | Reg.BL | Reg.AH | Reg.CH | Reg.DH | Reg.BH | Reg.SPL | Reg.BPL
  | Reg.SIL | Reg.DIL | Reg.R8L | Reg.R9L | Reg.R10L | Reg.R11L | Reg.R12L | Reg.R13L
  | Reg.R14L | Reg.R15L => 1
  | Reg.AX | Reg.CX | Reg.DX | Reg.BX | Reg.SP | Reg.BP | Reg.SI | Reg.DI | Reg.R8W | Reg.R9W
  | Reg.R10W | Reg.R11W | Reg.R12W | Reg.R13W | Reg.R14W | Reg.R15W => 2
  | Reg.EAX | Reg.ECX | Reg.EDX | Reg.EBX | Reg.ESP | Reg.EBP | Reg.ESI | Reg.EDI | Reg.R8D
  | Reg.R9D | Reg.R10D | Reg.R11D | Reg.R12D | Reg.R13D | Reg.R14D | Reg.R15D => 4
  | _ => 8
  end.

(** ** Flags *)

Record AddResult := mkAddResult {
  computed : Z;
  carry_out : bool;
  overflow : bool;
  adjust : bool
}.

Definition bits_mask (bits : Z) : Z := if 64 <=? bits then 2 ^ 64 - 1 else bit bits - 1.
Definition sign_bit (bits : Z) : Z := bit (bits - 1).

Definition add_with_flags (left right : Z) (carry : bool) (bits : Z) : AddResult :=
  let carry_in := Z.b2z carry in
  let result := wrapping_add 64 (wrapping_add 64 left right) carry_in in
  let mask := bits_mask bits in
  let truncated := result .& mask in
  let left_t := left .& mask in
  let right_t := right .& mask in
  let wide := left_t + right_t + carry_in in
  {| computed := result;
     carry_out := mask <? wide;
     overflow := negb (((left_t .^ truncated) .& sign_bit bits) .&~ (left_t .^ right_t) =? 0);
     adjust := has (left_t .^ right_t .^ truncated) 0x10 |}.

Definition sub_with_flags (left right : Z) (carry : bool) (bits : Z) : AddResult :=
  let borrow := Z.b2z carry in
  let result := wrapping_sub 64 (wrapping_sub 64 left right) borrow in
  let mask := bits_mask bits in
  let truncated := result .& mask in
  let left_t := left .& mask in
  let right_t := right .& mask in
  {| computed := result;
     carry_out := (left_t <? right_t) || (carry && (left_t =? right_t));
     overflow := has ((left_t .^ right_t) .& (left_t .^ truncated)) (sign_bit bits);
     adjust := has (left_t .^ right_t .^ truncated) 0x10 |}.

(** [RFlags::set] *)
Definition set_flag (flag : Z) (value : bool) (r : Registers) : Registers :=
  r <| rflags ::= λ f, if value then f .| flag else f .&~ flag |>.

(** [(x as u8).count_ones()] *)
Definition count_ones8 (x : Z) : Z := foldr Z.add 0 ((λ i, Z.b2z (Z.testbit x i)) <$> seqZ 0 8).

Definition set_szp (result bits : Z) (r : Registers) : Registers :=
  let truncated := result .& bits_mask bits in
  set_flag RFlags.PF (count_ones8 truncated `mod` 2 =? 0)
    (set_flag RFlags.ZF (truncated =? 0)
      (set_flag RFlags.SF (has truncated (sign_bit bits)) r)).
Definition set_carry : bool → Registers → Registers := set_flag RFlags.CF.
Definition set_overflow : bool → Registers → Registers := set_flag RFlags.OF.
Definition set_adjust : bool → Registers → Registers := set_flag RFlags.AF.
Definition carry (r : Registers) : bool := has (rflags r) RFlags.CF.

(** The flag updates that follow an addition or a subtraction. *)
Definition set_arithmetic (a : AddResult) (bits : Z) (r : Registers) : Registers :=
  set_adjust (adjust a) (set_overflow (overflow a) (set_carry (carry_out a) (set_szp (computed a) bits r))).

(** ** Operands *)

Section operands.
Context {I : Type} `{Iced I} `{IcedInstruction I}.
Context {B N : Type} `{BlockBackend B} `{NetBackend N}.
Context `{Environment}.
Abbreviation Cpu := (Cpu I B N).
Abbreviation M A := (st Cpu Abort A).

Definition memory_size (i : I) : Z :=
  match instruction_memory_size i with
  | MemorySize.UInt8 | MemorySize.Int8 => 1
  | MemorySize.UInt16 | MemorySize.Int16 => 2
  | MemorySize.UInt32 | MemorySize.Int32 => 4
  | MemorySize.UInt64 | MemorySize.Int64 => 8
  | MemorySize.UInt128 | MemorySize.Int128 => 16
  | MemorySize.UInt256 | MemorySize.Int256 => 32
  | MemorySize.UInt512 | MemorySize.Int512 => 64
  | MemorySize.Other => 8
  end.

Definition operand_size (i : I) (operand : Z) : Z :=
  match op_kind i operand with
  | OpKind.Register => register_size (op_register i operand)
  | OpKind.Memory => memory_size i
  | _ => 8
  end.

Definition address_size_of (i : I) : Z :=
  let register := if decide (memory_base i = Reg.None) then memory_index i else memory_base i in
  if decide (register = Reg.None) then 8
  else
    match register with
    | Reg.RAX | Reg.RCX | Reg.RDX | Reg.RBX | Reg.RSP | Reg.RBP | Reg.RSI | Reg.RDI | Reg.R8
    | Reg.R9 | Reg.R10 | Reg.R11 | Reg.R12 | Reg.R13 | Reg.R14 | Reg.R15 => 8
    | Reg.EAX | Reg.ECX | Reg.EDX | Reg.EBX | Reg.ESP | Reg.EBP | Reg.ESI | Reg.EDI | Reg.R8D
    | Reg.R9D | Reg.R10D | Reg.R11D | Reg.R12D | Reg.R13D | Reg.R14D | Reg.R15D => 4
    | _ => 2
    end.

(** The segment an override names, for [Registers::data_base]. *)
Definition segment_of (register : Register) : Segment :=
  match register with
  | Reg.ES => ES | Reg.CS => CS | Reg.SS => SS | Reg.DS => DS | Reg.FS => FS | Reg.GS => GS
  | _ => NotSegment
  end.

Definition effective_address (i : I) (c : Cpu) : Z :=
  let segment_base := data_base (segment_of (segment_prefix i)) (regs c) in
  if is_ip_rel_memory_operand i then wrapping_add 64 segment_base (ip_rel_memory_address i)
  else
    let address := memory_displacement64 i in
    let address :=
      if decide (memory_base i = Reg.None) then address
      else wrapping_add 64 address (gpr (regs c) !!! register_index (memory_base i)) in
    let address :=
      if decide (memory_index i = Reg.None) then address
      else wrapping_add 64 address
             (wrapping_mul 64 (gpr (regs c) !!! register_index (memory_index i))
                (memory_index_scale i)) in
    let address :=
      match address_size_of i with
      | 2 => address .& 0xFFFF
      | 4 => address .& 0xFFFFFFFF
      | _ => address
      end in
    wrapping_add 64 segment_base address.

Definition unsupported_size {A} : M A := guest_fault "unsupported operand size".

Definition read_operand (i : I) (size : Z) : M Z :=
  let! c := get in
  let linear := effective_address i c in
  if (linear .& 0xFFF) + size <=? 0x1000 then
    let! physical := translate linear Read in
    match size with
    | 1 => load_mem (read_u8 physical)
    | 2 => load_mem (read_u16 physical)
    | 4 => load_mem (read_u32 physical)
    | 8 => load_mem (read_u64 physical)
    | _ => unsupported_size
    end
  else if negb (bool_decide (size ∈ [1; 2; 4; 8])) then unsupported_size
  else
    let! bytes := read_linear_bytes linear size in
    sret (from_le_bytes (splice (replicate 8 0) 0 bytes)).

Definition write_operand (i : I) (size value : Z) : M () :=
  let! c := get in
  let linear := effective_address i c in
  if (linear .& 0xFFF) + size <=? 0x1000 then
    let! physical := translate linear Write in
    match size with
    | 1 => store_mem (write_u8 physical (wrap 8 value))
    | 2 => store_mem (write_u16 physical (wrap 16 value))
    | 4 => store_mem (write_u32 physical (wrap 32 value))
    | 8 => store_mem (write_u64 physical value)
    | _ => unsupported_size
    end
  else if negb (bool_decide (size ∈ [1; 2; 4; 8])) then unsupported_size
  else write_linear_bytes linear (take (Z.to_nat size) (to_le_bytes 8 value)).

Definition is_memory (kind : OpKind.t) : bool :=
  match kind with OpKind.Memory => true | _ => false end.

Definition read_operand0 (i : I) : M Z :=
  if is_memory (op_kind i 0) then read_operand i (memory_size i)
  else sread (λ c, Ok (read_register (regs c) (op_register i 0) (operand_size i 0))).

Definition read_operand1 (i : I) : M Z :=
  match op_kind i 1 with
  | OpKind.Memory => read_operand i (memory_size i)
  | OpKind.Register => sread (λ c, Ok (read_register (regs c) (op_register i 1) (operand_size i 1)))
  | _ => sret (immediate i 1)
  end.

Definition write_operand0 (i : I) (value : Z) : M () :=
  if is_memory (op_kind i 0) then write_operand i (memory_size i) value
  else set_regs (write_register (op_register i 0) (operand_size i 0) value).

End operands.

(** ** Carries *)

(** The operand widths of integer instructions, in bits. *)
Definition is_width (n : Z) : Prop := n ∈ [8; 16; 32; 64].

(** The values an [n]-bit signed integer can hold. *)
Definition fits_signed (n x : Z) : Prop := - 2 ^ (n - 1) ≤ x < 2 ^ (n - 1).

Lemma width_range n : is_width n → 8 ≤ n ≤ 64.
Proof. unfold is_width. rewrite !elem_of_cons, elem_of_nil. lia. Qed.

Lemma width_half n : is_width n → 2 ^ n = 2 * 2 ^ (n - 1) ∧ 0 < 2 ^ (n - 1).
Proof.
  intros Hn%width_range. split; [|lia]. rewrite <- Z.pow_succ_r by lia. f_equal. lia.
Qed.

Lemma bits_mask_ones n : is_width n → bits_mask n = Z.ones n.
Proof.
  intros Hn%width_range. unfold bits_mask. rewrite Z.ones_equiv.
  destruct (Z.leb_spec 64 n); [|rewrite bit_pow2; lia]. replace n with 64 by lia. lia.
Qed.

Lemma mask_wrap n x : is_width n → x .& bits_mask n = wrap n x.
Proof.
  intros Hn. rewrite bits_mask_ones by done. apply width_range in Hn. rewrite wrap_land_ones; lia.
Qed.

Lemma wrap_wrap n x : is_width n → wrap n (wrap 64 x) = wrap n x.
Proof.
  intros Hn%width_range. unfold wrap. apply Z.bits_inj'. intros i Hi.
  destruct (Z.ltb_spec i n).
  - rewrite !Z.mod_pow2_bits_low by lia. done.
  - rewrite !Z.mod_pow2_bits_high by lia. done.
Qed.

(** The sign bit of a word. *)
Lemma sign_testbit n x : is_width n → word n x → Z.testbit x (n - 1) = (2 ^ (n - 1) <=? x).
Proof.
  intros Hn [Hx0 Hx]. destruct (width_half n Hn) as [E Hp]. pose proof (width_range n Hn).
  rewrite Z.testbit_odd, Z.shiftr_div_pow2 by lia.
  destruct (Z.leb_spec (2 ^ (n - 1)) x).
  - replace (x / 2 ^ (n - 1)) with 1; [done|]. apply Z.div_unique with (x - 2 ^ (n - 1)); lia.
  - rewrite Z.div_small by lia. done.
Qed.

(** The carry into bit 4. *)
Lemma half_carry l r d : 
  Z.testbit (l .^ r .^ (l + r + d)) 4 = Z.odd ((l `mod` 16 + r `mod` 16 + d) / 16).
Proof.
  rewrite !Z.lxor_spec, !Z.testbit_odd, !Z.shiftr_div_pow2 by lia. change (2 ^ 4) with 16.
  replace ((l + r + d) / 16) with (l / 16 + r / 16 + (l `mod` 16 + r `mod` 16 + d) / 16) by dlia.
  rewrite !Z.odd_add. btauto.
Qed.
Lemma half_borrow l r d :
  Z.testbit (l .^ r .^ (l - r - d)) 4 = Z.odd ((l `mod` 16 - r `mod` 16 - d) / 16).
Proof.
  rewrite !Z.lxor_spec, !Z.testbit_odd, !Z.shiftr_div_pow2 by lia. change (2 ^ 4) with 16.
  replace ((l - r - d) / 16) with (l / 16 - r / 16 + (l `mod` 16 - r `mod` 16 - d) / 16) by dlia.
  rewrite Z.odd_add, Z.odd_sub. btauto.
Qed.

(** What an addition or subtraction of [n]-bit words reports, against the
    mathematical [total] of the unsigned values, the [net] of the signed ones
    and whether the low [nibble] carries. *)
Record exact (n total net : Z) (nibble : bool) (a : AddResult) : Prop := mk_exact {
  ex_result : wrap n (computed a) = total `mod` 2 ^ n;
  ex_carry : carry_out a = negb (bool_decide (word n total));
  ex_overflow : overflow a = negb (bool_decide (fits_signed n net));
  ex_adjust : adjust a = nibble
}.

Lemma has_sign n x : is_width n → has x (sign_bit n) = Z.testbit x (n - 1).
Proof. intros Hn%width_range. apply has_testbit. lia. Qed.

Lemma land_bit_zero x i : 0 ≤ i → (x .& bit i =? 0) = negb (Z.testbit x i).
Proof. intros Hi. rewrite <- has_testbit by done. unfold has. by rewrite negb_involutive. Qed.

Lemma sign_total n s : is_width n → word n (wrap n s) ∧
  Z.testbit (wrap n s) (n - 1) = (2 ^ (n - 1) <=? s `mod` 2 ^ n).
Proof.
  intros Hn. assert (word n (wrap n s)) as Hw by (apply word_wrap; apply width_range in Hn; lia).
  split; [done|]. by rewrite sign_testbit.
Qed.

Lemma low_bit n x : is_width n → Z.testbit (wrap n x) 4 = Z.testbit x 4.
Proof. intros Hn%width_range. rewrite wrap_testbit by lia. by rewrite bool_decide_true by lia. Qed.

Lemma wrap_add_64 n a b : is_width n → wrap n (wrap 64 a + b) = wrap n (a + b).
Proof.
  intros Hn. pose proof (width_range n Hn). unfold wrap at 1 3.
  rewrite <- (Z.add_mod_idemp_l (wrap 64 a)), <- (Z.add_mod_idemp_l a) by lia.
  fold (wrap n (wrap 64 a)) (wrap n a). by rewrite wrap_wrap.
Qed.

(** The value computed at 64 bits is the sum of the truncated operands. *)
Lemma sum_wraps n left right d : is_width n →
  wrap n (wrap 64 (wrap 64 (left + right) + d)) = wrap n (wrap n left + wrap n right + d).
Proof.
  intros Hn. pose proof (width_range n Hn). rewrite wrap_wrap, wrap_add_64 by done. unfold wrap.
  rewrite <- (Z.add_mod_idemp_l (_ + _)) by lia. rewrite <- (Z.add_mod_idemp_l (_ `mod` _ + _)) by lia.
  by rewrite <- Z.add_mod by lia.
Qed.
Lemma difference_wraps n left right d : is_width n →
  wrap n (wrap 64 (wrap 64 (left - right) - d)) = wrap n (wrap n left - wrap n right - d).
Proof.
  intros Hn. pose proof (width_range n Hn). rewrite wrap_wrap by done. rewrite <- !Z.add_opp_r, wrap_add_64 by done. unfold wrap.
  rewrite <- (Z.add_mod_idemp_l (_ + _)) by lia. rewrite <- (Z.add_mod_idemp_l (_ `mod` _ + _)) by lia.
  by rewrite !Z.add_opp_r, <- Zminus_mod.
Qed.

(** Decide every comparison of a goal and finish with linear arithmetic. *)
Ltac by_cases :=
  repeat match goal with
  | |- context [if ?a <? ?b then _ else _] => destruct (Z.ltb_spec a b)
  | |- context [?a <? ?b] => destruct (Z.ltb_spec a b)
  | |- context [?a <=? ?b] => destruct (Z.leb_spec a b)
  | |- context [?a =? ?b] => destruct (Z.eqb_spec a b)
  | |- context [bool_decide ?P] => destruct (bool_decide_reflect P)
  end; cbn [xorb negb andb orb]; try reflexivity; exfalso; lia.

(** The sum and the difference of two words, reduced. *)
Lemma sum_mod P s : 0 ≤ s < 2 * P → s `mod` P = if s <? P then s else s - P.
Proof.
  intros Hs. destruct (Z.ltb_spec s P); [apply Z.mod_small; lia|].
  symmetry. apply Z.mod_unique with 1; lia.
Qed.
Lemma difference_mod P s : - P ≤ s < P → s `mod` P = if s <? 0 then s + P else s.
Proof.
  intros Hs. destruct (Z.ltb_spec s 0); [|apply Z.mod_small; lia].
  symmetry. apply Z.mod_unique with (-1); lia.
Qed.

Lemma sum_overflow H l r d : 0 < H → 0 ≤ l < 2 * H → 0 ≤ r < 2 * H → 0 ≤ d ≤ 1 →
  xorb (H <=? l) (H <=? (l + r + d) `mod` (2 * H)) && negb (xorb (H <=? l) (H <=? r)) =
  negb (bool_decide (- H ≤ (if l <? H then l else l - 2 * H) + (if r <? H then r else r - 2 * H) + d < H)).
Proof. intros. rewrite sum_mod by lia. by_cases. Qed.
Lemma difference_overflow H l r d : 0 < H → 0 ≤ l < 2 * H → 0 ≤ r < 2 * H → 0 ≤ d ≤ 1 →
  xorb (H <=? l) (H <=? r) && xorb (H <=? l) (H <=? (l - r - d) `mod` (2 * H)) =
  negb (bool_decide (- H ≤ (if l <? H then l else l - 2 * H) - (if r <? H then r else r - 2 * H) - d < H)).
Proof. intros. rewrite difference_mod by lia. by_cases. Qed.

Lemma b2z_range c : 0 ≤ Z.b2z c ≤ 1.
Proof. destruct c; cbn; lia. Qed.

Lemma add_exact left right c n : is_width n →
  let l := wrap n left in let r := wrap n right in
  exact n (l + r + Z.b2z c) (signed n l + signed n r + Z.b2z c)
    (16 <=? l `mod` 16 + r `mod` 16 + Z.b2z c) (add_with_flags left right c n).
Proof.
  intros Hn l r. destruct (width_half n Hn) as [E Hp].
  pose proof (sum_wraps n left right (Z.b2z c) Hn) as Er. pose proof (b2z_range c) as Hc.
  assert (word n l) as Hl by (apply word_wrap; apply width_range in Hn; lia).
  assert (word n r) as Hr by (apply word_wrap; apply width_range in Hn; lia).
  split; unfold add_with_flags, wrapping_add; cbn [computed carry_out overflow adjust];
    rewrite ?mask_wrap by done; fold l r; fold l r in Er; rewrite ?Er; clearbody l r; clear Er.
  - done.
  - rewrite bits_mask_ones, Z.ones_equiv, <- Z.sub_1_r by done. unfold word in *. by_cases.
  - destruct (sign_total n (l + r + Z.b2z c) Hn) as [Ht Hs]. pose proof (width_range n Hn).
    rewrite Z.ldiff_land, <- Z.land_assoc, (Z.land_comm (sign_bit n)), Z.land_assoc.
    unfold sign_bit. rewrite land_bit_zero, negb_involutive, Z.land_spec, Z.lnot_spec, !Z.lxor_spec by lia.
    rewrite Hs, !sign_testbit by done. unfold signed, fits_signed, word in *. rewrite E in *.
    by apply sum_overflow.
  - change (has ?x 0x10) with (has x (bit 4)). rewrite has_testbit by lia. rewrite Z.lxor_spec, low_bit, <- Z.lxor_spec by done.
    rewrite half_carry. pose proof (Z.mod_pos_bound l 16). pose proof (Z.mod_pos_bound r 16).
    destruct (Z.leb_spec 16 (l `mod` 16 + r `mod` 16 + Z.b2z c)).
    + replace ((l `mod` 16 + r `mod` 16 + Z.b2z c) / 16) with 1; [done|].
      apply Z.div_unique with (l `mod` 16 + r `mod` 16 + Z.b2z c - 16); lia.
    + rewrite Z.div_small; [done|lia].
Qed.

Lemma sub_exact left right c n : is_width n →
  let l := wrap n left in let r := wrap n right in
  exact n (l - r - Z.b2z c) (signed n l - signed n r - Z.b2z c)
    (l `mod` 16 <? r `mod` 16 + Z.b2z c) (sub_with_flags left right c n).
Proof.
  intros Hn l r. destruct (width_half n Hn) as [E Hp].
  pose proof (difference_wraps n left right (Z.b2z c) Hn) as Er. pose proof (b2z_range c) as Hc.
  assert (word n l) as Hl by (apply word_wrap; apply width_range in Hn; lia).
  assert (word n r) as Hr by (apply word_wrap; apply width_range in Hn; lia).
  split; unfold sub_with_flags, wrapping_sub; cbn [computed carry_out overflow adjust];
    rewrite ?mask_wrap by done; fold l r; fold l r in Er; rewrite ?Er; clearbody l r; clear Er.
  - done.
  - unfold word in *. destruct c; cbn [Z.b2z andb orb] in *; rewrite ?orb_false_r; by_cases.
  - destruct (sign_total n (l - r - Z.b2z c) Hn) as [Ht Hs]. pose proof (width_range n Hn).
    rewrite has_sign by done. rewrite Z.land_spec, !Z.lxor_spec, Hs, !sign_testbit by done.
    unfold signed, fits_signed, word in *. rewrite E in *. by apply difference_overflow.
  - change (has ?x 0x10) with (has x (bit 4)). rewrite has_testbit by lia. rewrite Z.lxor_spec, low_bit, <- Z.lxor_spec by done.
    rewrite half_borrow. pose proof (Z.mod_pos_bound l 16). pose proof (Z.mod_pos_bound r 16).
    destruct (Z.ltb_spec (l `mod` 16) (r `mod` 16 + Z.b2z c)).
    + replace ((l `mod` 16 - r `mod` 16 - Z.b2z c) / 16) with (-1); [done|].
      apply Z.div_unique with (l `mod` 16 - r `mod` 16 - Z.b2z c + 16); lia.
    + rewrite Z.div_small; [done|lia].
Qed.

(** ** Sub-registers *)

Definition is_gpr (register : Register) : bool :=
  match Reg.discriminant register with Some v => 1 <=? v | None => false end.

(** A general-purpose file of the right shape. *)
Record file_ok (r : Registers) : Prop := mk_file_ok {
  fo_length : length (gpr r) = 16%nat;
  fo_words : Forall (word 64) (gpr r)
}.

Lemma register_index_lt register : (register_index register < 16)%nat.
Proof. destruct register; vm_compute; lia. Qed.

Lemma gpr_word r k : file_ok r → word 64 (gpr r !!! k).
Proof.
  intros [_ Hw]. destruct (gpr r !! k) as [v|] eqn:E.
  - rewrite (list_lookup_total_correct _ _ _ E). rewrite Forall_lookup in Hw. by eapply Hw.
  - rewrite list_lookup_total_alt, E. by apply word_const.
Qed.

Lemma set_gpr_ok r k v : file_ok r → word 64 v → file_ok (r <| gpr ::= <[k := v]> |>).
Proof.
  intros [Hl Hw] Hv. split.
  - change (length (<[k := v]> (gpr r)) = 16%nat). by rewrite length_insert.
  - change (Forall (word 64) (<[k := v]> (gpr r))). by apply Forall_insert.
Qed.

(** Masks of whole bytes keep and replace the low bits of a word. *)
Lemma keep_low n v : 0 ≤ n → v .& Z.ones n = wrap n v.
Proof. intros. by rewrite wrap_land_ones. Qed.
Lemma replace_low n old v : 0 ≤ n → wrap n ((old .&~ Z.ones n) .| wrap n v) = wrap n v.
Proof.
  intros Hn. apply Z.bits_inj'. intros i Hi. bits. rewrite Z.testbit_ones by lia.
  case_bool_decide; cbn [andb]; [|done]. replace (0 <=? i) with true by lia. replace (i <? n) with true by lia.
  btauto.
Qed.
Lemma replace_high old v :
  ((old .&~ 0xFF00) .| (wrap 8 v ≪ 8)) ≫ 8 .& 0xFF = wrap 8 v.
Proof.
  apply Z.bits_inj'. intros i Hi. change 0xFF with (Z.ones 8). change 0xFF00 with (Z.ones 8 ≪ 8).
  bits. rewrite !Z.testbit_ones by lia. replace (i + 8 - 8) with i by lia.
  case_bool_decide; cbn [andb].
  - replace (0 <=? i) with true by lia. replace (i <? 8) with true by lia. btauto.
  - replace (i <? 8) with false by lia. btauto.
Qed.

Lemma register_sizes register : register_size register ∈ [1; 2; 4; 8].
Proof. destruct register; vm_compute; set_solver. Qed.
Lemma high_byte_size register : is_high_byte register = true → register_size register = 1.
Proof. by destruct register. Qed.

Lemma lookup_written r register size v :
  file_ok r → gpr (write_register register size v r) !!! register_index register =
    let old := gpr r !!! register_index register in
    if is_high_byte register then (old .&~ 0xFF00) .| ((v .& 0xFF) ≪ 8)
    else
      match size with
      | 1 => (old .&~ 0xFF) .| (v .& 0xFF)
      | 2 => (old .&~ 0xFFFF) .| (v .& 0xFFFF)
      | 4 => v .& 0xFFFFFFFF
      | _ => v
      end.
Proof.
  intros [Hl _]. unfold write_register, set_field. cbn [gpr].
  by rewrite list_lookup_total_insert_eq by (rewrite Hl; apply register_index_lt).
Qed.

(** A sub-register reads back what was written to it. *)
Lemma read_written register v r : file_ok r → word 64 v →
  read_register (write_register register (register_size register) v r) register (register_size register)
  = wrap (register_size register * 8) v.
Proof.
  intros Hr Hv. unfold read_register. rewrite lookup_written by done. cbv zeta.
  destruct (is_high_byte register) eqn:Eh.
  { rewrite (high_byte_size _ Eh). change (v .& 0xFF) with (v .& Z.ones 8).
    rewrite keep_low by lia. apply replace_high. }
  pose proof (register_sizes register) as Hs. revert Hs.
  rewrite !elem_of_cons, elem_of_nil. intros [->|[->|[->|[->|[]]]]]; cbv iota.
  - change 0xFF with (Z.ones 8). rewrite !keep_low by lia. by apply replace_low.
  - change 0xFFFF with (Z.ones 16). rewrite !keep_low by lia. by apply replace_low.
  - change 0xFFFFFFFF with (Z.ones 32). rewrite !keep_low by lia. apply wrap_small, word_wrap. lia.
  - symmetry. by apply wrap_small.
Qed.

(** Writing one register leaves the others alone. *)
Lemma lookup_written_ne r register size v (k : nat) :
  k ≠ register_index register → gpr (write_register register size v r) !!! k = gpr r !!! k.
Proof.
  intros Hk. unfold write_register, set_field. cbn [gpr]. by apply list_lookup_total_insert_ne.
Qed.
Lemma read_written_ne register register' size size' v r :
  register_index register' ≠ register_index register →
  read_register (write_register register size v r) register' size' = read_register r register' size'.
Proof. intros Hk. unfold read_register. by rewrite lookup_written_ne. Qed.

Lemma read_register_word register r : file_ok r →
  word (register_size register * 8) (read_register r register (register_size register)).
Proof.
  intros Hr. unfold read_register. destruct (is_high_byte register) eqn:Eh.
  { rewrite (high_byte_size _ Eh). change 0xFF with (Z.ones 8). rewrite keep_low by lia. by apply word_wrap. }
  pose proof (register_sizes register) as Hs. revert Hs.
  rewrite !elem_of_cons, elem_of_nil. intros [->|[->|[->|[->|[]]]]]; cbv iota.
  - change 0xFF with (Z.ones 8). rewrite keep_low by lia. by apply word_wrap.
  - change 0xFFFF with (Z.ones 16). rewrite keep_low by lia. by apply word_wrap.
  - change 0xFFFFFFFF with (Z.ones 32). rewrite keep_low by lia. by apply word_wrap.
  - by apply gpr_word.
Qed.

Lemma file_ok_written register size v r : file_ok r → word 64 v → file_ok (write_register register size v r).
Proof.
  intros Hr Hv. apply set_gpr_ok; [done|]. pose proof (gpr_word r (register_index register) Hr) as Ho.
  assert (word 64 (v .& 0xFF) ∧ word 64 (v .& 0xFFFF) ∧ word 64 (v .& 0xFFFFFFFF)) as (H8 & H16 & H32).
  { split_and!; apply word_land; done. }
  assert (word 64 ((v .& 0xFF) ≪ 8)) as Hs.
  { change 0xFF with (Z.ones 8). rewrite keep_low by lia. rewrite Z.shiftl_mul_pow2 by lia.
    pose proof (word_wrap 8 v). unfold word in *. lia. }
  destruct (is_high_byte register); [apply word_lor; [done|by apply word_ldiff|done]|].
  repeat split_match; first [done | apply word_lor; [done|by apply word_ldiff|done]].
Qed.

(** ** Reading flags back *)

Lemma flag_same i v r : 0 ≤ i → has (rflags (set_flag (bit i) v r)) (bit i) = v.
Proof.
  intros Hi. unfold set_flag, set_field. cbn [rflags]. rewrite !has_testbit by done.
  destruct v; bits; rewrite bool_decide_true by done; btauto.
Qed.
Lemma flag_other i j v r : 0 ≤ i → 0 ≤ j → i ≠ j →
  has (rflags (set_flag (bit i) v r)) (bit j) = has (rflags r) (bit j).
Proof.
  intros Hi Hj Hij. unfold set_flag, set_field. cbn [rflags]. rewrite !has_testbit by done.
  destruct v; bits; rewrite bool_decide_false by done; btauto.
Qed.
Lemma flag_gpr f v r : gpr (set_flag f v r) = gpr r.
Proof. done. Qed.
Lemma flag_file_ok f v r : file_ok r → file_ok (set_flag f v r).
Proof. intros [? ?]. by split. Qed.

(** Read a flag back through a sequence of updates. *)
Ltac flags :=
  unfold set_arithmetic, carry, set_carry, set_overflow, set_adjust, set_szp,
    RFlags.CF, RFlags.PF, RFlags.AF, RFlags.ZF, RFlags.SF, RFlags.OF;
  repeat first [rewrite flag_same by lia | rewrite flag_other by lia].

(** ** An instance *)

(** The shapes of the few encodings the examples use: the mnemonic and its
    register operands; [0x90], a NOP, stands for all others. *)
Definition shape_of (bytes : list Z) : Mnemonic.t * list Register :=
  match bytes with
  | 0x48 :: 0xF7 :: 0xE3 :: _ => (Mnemonic.Mul, [Reg.RBX])
  | 0x48 :: 0xF7 :: 0xEB :: _ => (Mnemonic.Imul, [Reg.RBX])
  | 0x48 :: 0xF7 :: 0xFB :: _ => (Mnemonic.Idiv, [Reg.RBX])
  | 0x48 :: 0x39 :: 0xD8 :: _ => (Mnemonic.Cmp, [Reg.RAX; Reg.RBX])
  | 0x48 :: 0xD3 :: 0xD0 :: _ => (Mnemonic.Rcl, [Reg.RAX; Reg.CL])
  | 0x48 :: 0xD3 :: 0xF8 :: _ => (Mnemonic.Sar, [Reg.RAX; Reg.CL])
  | 0x7C :: _ => (Mnemonic.Jl, [])
  | 0xE8 :: _ => (Mnemonic.Call, [])
  | 0xC3 :: _ => (Mnemonic.Ret, [])
  | 0x50 :: _ => (Mnemonic.Push, [Reg.RAX])
  | 0xA4 :: _ => (Mnemonic.Movsb, [])
  | _ => (Mnemonic.Nop, [])
  end.
Definition raw_shape (i : Raw) : Mnemonic.t * list Register := shape_of i.1.2.
#[export] Instance Raw_instruction : IcedInstruction Raw := {|
  mnemonic i := (raw_shape i).1;
  code _ := Code.Other;
  op_count i := match (raw_shape i).1 with Mnemonic.Movsb => 2 | _ => len (raw_shape i).2 end;
  op_kind i k := match (raw_shape i).1 with
                 | Mnemonic.Call | Mnemonic.Jl => OpKind.NearBranch64
                 | Mnemonic.Movsb => if k =? 0 then OpKind.MemoryESRDI else OpKind.MemorySegRSI
                 | _ => OpKind.Register
                 end;
  op_register i k := nth (Z.to_nat k) (raw_shape i).2 Reg.None;
  immediate _ _ := 0; immediate8 _ := 0; immediate16 _ := 0; immediate32 _ := 0;
  immediate8to16 _ := 0; immediate8to32 _ := 0;
  instruction_memory_size _ := MemorySize.UInt8;
  segment_prefix _ := Reg.None;
  is_ip_rel_memory_operand _ := false; ip_rel_memory_address _ := 0;
  memory_base _ := Reg.None; memory_index _ := Reg.None; memory_index_scale _ := 1;
  memory_displacement64 _ := 0;
  near_branch_target i := i.2 + 2;
  far_branch32 _ := 0; far_branch_selector _ := 0;
  has_rep_prefix _ := true; has_repe_prefix _ := true; has_repne_prefix _ := false
|}.

(** The demonstration machine with RAX, RDX and RBX set, and an instruction of
    three bytes for it. *)
Definition with_registers (rax rdx rbx : Z) : Cpu Raw VecBlockBackend Recorder :=
  demo_cpu <| regs ::= λ r, r <| gpr ::= λ g, <[RBX := rbx]> (<[RDX := rdx]> (<[RAX := rax]> g)) |> |>.
Definition three (a b c : Z) : Raw := (64, [a; b; c], 0x1400).
Lemma with_registers_ok rax rdx rbx :
  word 64 rax → word 64 rdx → word 64 rbx → file_ok (regs (with_registers rax rdx rbx)).
Proof.
  intros. split; [done|].
  change (Forall (word 64) (<[RBX := rbx]> (<[RDX := rdx]> (<[RAX := rax]> (gpr demo_registers))))).
  do 3 (apply Forall_insert; [|done]).
  repeat (apply Forall_cons_2; [by apply word_const|]). apply Forall_nil_2.
Qed.
