(* ===== verification/Arithmetic.v ===== *)
(** Integer arithmetic, [rish-softvm-core/src/ops/arithmetic.rs].

    Rust's [i128] division panics when the quotient overflows; [div] has that
    panic. The other conversions between widths are written out with [wrap] and
    [signed].

    The theorems show that multiplication and division are exact: product,
    quotient and remainder against the integers, the flags against the ranges,
    and which operands raise the divide error or panic. *)
From Stdlib Require Import Btauto.
From S2P Require Import Prelude.
From S2P Require Import Ports.
From S2P Require Import VirtQueue.
From S2P Require Import VirtioBlk.
From S2P Require Import VirtioNet.
From S2P Require Import Memory.
From S2P Require Import Registers.
From S2P Require Import Paging.
From S2P Require Import Tlb.
From S2P Require Import Decode.
From S2P Require Import Cpu.
From S2P Require Import Interrupts.
From S2P Require Import Operands.
Local Open Scope Z_scope.

(** [((value << (64 - bits)) as i64) >> (64 - bits)] *)
Definition sign_extend (value size : Z) : Z :=
  let bits := size * 8 in
  signed 64 (wrap 64 (value ≪ (64 - bits))) ≫ (64 - bits).
Definition sign_extend128 (value bits : Z) : Z :=
  signed 128 (wrap 128 (value ≪ (128 - bits))) ≫ (128 - bits).

Definition mask_for (bits : Z) : Z := if 64 <=? bits then 2 ^ 64 - 1 else bit bits - 1.

(** The registers [mul] and [div] use at each operand size. *)
Definition read_accumulator (r : Registers) (size : Z) : Z :=
  match size with
  | 1 => read_register r Reg.AL 1
  | 2 => read_register r Reg.AX 2
  | 4 => read_register r Reg.EAX 4
  | _ => read_register r Reg.RAX 8
  end.

Section arithmetic.
Context {I : Type} `{Iced I} `{IcedInstruction I}.
Context {B N : Type} `{BlockBackend B} `{NetBackend N}.
Context `{Environment}.
Abbreviation Cpu := (Cpu I B N).
Abbreviation M A := (st Cpu Abort A).

Definition binary (i : I) (is_sub with_carry : bool) : M () :=
  let size := operand_size i 0 in
  let! lhs := read_operand0 i in
  let! rhs := read_operand1 i in
  let! c := get in
  let carry_in := with_carry && carry (regs c) in
  let bits := size * 8 in
  let flags := if is_sub then sub_with_flags lhs rhs carry_in bits
               else add_with_flags lhs rhs carry_in bits in
  let! _ := set_regs (set_arithmetic flags bits) in
  write_operand0 i (computed flags).

Definition add (i : I) : M () := binary i false false.
Definition sub (i : I) : M () := binary i true false.

Definition cmp (i : I) : M () :=
  let size := operand_size i 0 in
  let! lhs := read_operand0 i in
  let! rhs := read_operand1 i in
  let bits := size * 8 in
  set_regs (set_arithmetic (sub_with_flags lhs rhs false bits) bits).

Definition adc_sbb (i : I) : M () :=
  binary i (match mnemonic i with Mnemonic.Sbb => true | _ => false end) true.

Definition inc_dec (i : I) : M () :=
  let increment := match mnemonic i with Mnemonic.Inc => true | _ => false end in
  let size := operand_size i 0 in
  let! lhs := read_operand0 i in
  let bits := size * 8 in
  let flags := if increment then add_with_flags lhs 1 false bits
               else sub_with_flags lhs 1 false bits in
  let! _ := set_regs (λ r, set_adjust (adjust flags)
              (set_overflow (overflow flags) (set_szp (computed flags) bits r))) in
  write_operand0 i (computed flags).

Definition neg (i : I) : M () :=
  let size := operand_size i 0 in
  let! value := read_operand0 i in
  let bits := size * 8 in
  let result := wrapping_sub 64 0 value in
  let! _ := set_regs (λ r, set_overflow (result .& bits_mask bits =? sign_bit bits)
              (set_carry (negb (value =? 0)) (set_szp result bits r))) in
  write_operand0 i result.

Definition mul (i : I) (is_signed : bool) : M () :=
  let size := operand_size i 0 in
  let! multiplicand := read_operand0 i in
  let! c := get in
  let accumulator := read_accumulator (regs c) size in
  let product :=
    if is_signed then wrap 128 (sign_extend accumulator size * sign_extend multiplicand size)
    else wrapping_mul 128 accumulator multiplicand in
  let bits := size * 8 in
  let full_mask := (2 ^ 128 - 1) ≫ (128 - bits * 2) in
  let product := product .& full_mask in
  let high := wrap 64 (product ≫ bits) in
  let low := wrap 64 product in
  let overflow :=
    if is_signed then
      let sign_extension := wrap 64 (signed 64 low ≫ (bits - 1)) .& mask_for bits in
      negb (high .& mask_for bits =? sign_extension)
    else negb (high =? 0) in
  set_regs (λ r,
    let r := set_flag RFlags.OF overflow (set_flag RFlags.CF overflow r) in
    match size with
    | 1 => write_register Reg.AX 2 (wrap 64 product) r
    | 2 => write_register Reg.DX 2 high (write_register Reg.AX 2 low r)
    | 4 => write_register Reg.EDX 4 high (write_register Reg.EAX 4 low r)
    | _ => write_register Reg.RDX 8 high (write_register Reg.RAX 8 low r)
    end).

Definition imul_two_three (i : I) : M () :=
  let size := operand_size i 0 in
  let repeats_dest :=
    (3 <=? op_count i) && match op_kind i 1 with OpKind.Register => true | _ => false end
    && bool_decide (op_register i 1 = op_register i 0) in
  let! operands :=
    if op_count i =? 2 then
      let! lhs := read_operand0 i in
      let! rhs := read_operand1 i in
      sret (lhs, rhs)
    else if repeats_dest then let! lhs := read_operand0 i in sret (lhs, immediate i 2)
    else let! lhs := read_operand1 i in sret (lhs, immediate i 2) in
  let '(lhs, rhs) := operands in
  let bits := size * 8 in
  let mask := bits_mask bits in
  let product := sign_extend lhs size * sign_extend rhs size in
  let truncated := wrap 64 product .& mask in
  let signed_truncated := sign_extend truncated size in
  let! _ := set_regs (λ r, set_overflow (negb (signed_truncated =? product))
              (set_carry (negb (signed_truncated =? product)) r)) in
  write_operand0 i truncated.

Definition dividend_of (size : Z) (r : Registers) : Z :=
  match size with
  | 1 => read_register r Reg.AX 2
  | 2 => (read_register r Reg.DX 2 ≪ 16) .| read_register r Reg.AX 2
  | 4 => (read_register r Reg.EDX 4 ≪ 32) .| read_register r Reg.EAX 4
  | _ => (read_register r Reg.RDX 8 ≪ 64) .| read_register r Reg.RAX 8
  end.

Definition write_quotient (size quotient remainder : Z) (r : Registers) : Registers :=
  match size with
  | 1 => write_register Reg.AH 1 remainder (write_register Reg.AL 1 quotient r)
  | 2 => write_register Reg.DX 2 remainder (write_register Reg.AX 2 quotient r)
  | 4 => write_register Reg.EDX 4 remainder (write_register Reg.EAX 4 quotient r)
  | _ => write_register Reg.RDX 8 remainder (write_register Reg.RAX 8 quotient r)
  end.

Definition div (i : I) (is_signed : bool) : M () :=
  let size := operand_size i 0 in
  let! divisor := read_operand0 i in
  let! c := get in
  let dividend_size := match size with 1 => 1 | 2 => 2 | 4 => 4 | _ => 8 end in
  let dividend_full := dividend_of size (regs c) in
  if divisor =? 0 then raise 0 0 false
  else if is_signed then
    let dividend := sign_extend128 dividend_full (dividend_size * 16) in
    let divisor := sign_extend divisor size in
    if (dividend =? - 2 ^ 127) && (divisor =? -1) then sfail Panic
    else
      let quotient := Z.quot dividend divisor in
      let remainder := Z.rem dividend divisor in
      let max := bit (size * 8 - 1) - 1 in
      let min := - bit (size * 8 - 1) in
      if (max <? quotient) || (quotient <? min) then raise 0 0 false
      else set_regs (write_quotient size (wrap 64 quotient) (wrap 64 remainder))
  else
    let quotient := dividend_full / divisor in
    let remainder := dividend_full `mod` divisor in
    if bits_mask (size * 8) <? quotient then raise 0 0 false
    else set_regs (write_quotient size (wrap 64 quotient) (wrap 64 remainder)).

Definition mul_div (i : I) : M () :=
  match mnemonic i with
  | Mnemonic.Mul => mul i false
  | Mnemonic.Imul => if op_count i =? 1 then mul i true else imul_two_three i
  | Mnemonic.Div => div i false
  | Mnemonic.Idiv => div i true
  | _ => sret ()
  end.

(** [x as iN as u64] for an [n]-bit [x]. *)
Definition extend (n x : Z) : Z := wrap 64 (signed n x).

Definition convert (i : I) : M () :=
  set_regs (λ r,
    match mnemonic i with
    | Mnemonic.Cbw => write_register Reg.AX 2 (extend 8 (read_register r Reg.AL 1)) r
    | Mnemonic.Cwde => write_register Reg.EAX 4 (extend 16 (read_register r Reg.AX 2)) r
    | Mnemonic.Cdqe => write_register Reg.RAX 8 (extend 32 (read_register r Reg.EAX 4)) r
    | Mnemonic.Cwd =>
        write_register Reg.DX 2 (wrap 16 (signed 16 (read_register r Reg.AX 2) ≫ 15)) r
    | Mnemonic.Cdq =>
        write_register Reg.EDX 4 (wrap 32 (signed 32 (read_register r Reg.EAX 4) ≫ 31)) r
    | Mnemonic.Cqo =>
        write_register Reg.RDX 8 (wrap 64 (signed 64 (read_register r Reg.RAX 8) ≫ 63)) r
    | _ => r
    end).

End arithmetic.

(** ** Two's complement *)

Lemma extend_signed W b v : 0 < b ≤ W → word b v →
  signed W (wrap W (v ≪ (W - b))) ≫ (W - b) = signed b v.
Proof.
  intros Hb [Hv0 Hv]. set (k := W - b). assert (0 ≤ k) as Hk by lia.
  assert (2 ^ W = 2 ^ b * 2 ^ k) as EW by (rewrite <- Z.pow_add_r by lia; f_equal; lia).
  assert (2 ^ (W - 1) = 2 ^ (b - 1) * 2 ^ k) as EW1 by (rewrite <- Z.pow_add_r by lia; f_equal; lia).
  assert (0 < 2 ^ k) as Hp by lia.
  rewrite Z.shiftl_mul_pow2, wrap_small by (unfold word; rewrite ?EW; nia).
  unfold signed. rewrite EW, EW1, Z.shiftr_div_pow2 by lia.
  destruct (Z.ltb_spec v (2 ^ (b - 1))), (Z.ltb_spec (v * 2 ^ k) (2 ^ (b - 1) * 2 ^ k)); try nia.
  - rewrite Z.div_mul; lia.
  - rewrite <- Z.mul_sub_distr_r, Z.div_mul; lia.
Qed.

Lemma sign_extend_signed size v : is_width (size * 8) → word (size * 8) v →
  sign_extend v size = signed (size * 8) v.
Proof. intros Hn%width_range Hv. unfold sign_extend. rewrite extend_signed by (done || lia). done. Qed.

Lemma sign_extend128_signed bits v : 0 < bits ≤ 128 → word bits v →
  sign_extend128 v bits = signed bits v.
Proof. intros Hn Hv. unfold sign_extend128. by rewrite extend_signed. Qed.

Lemma pow_half n : 0 < n → 2 ^ n = 2 * 2 ^ (n - 1) ∧ 0 < 2 ^ (n - 1).
Proof. intros. split; [|lia]. rewrite <- Z.pow_succ_r by lia. f_equal. lia. Qed.

Lemma signed_fits n x : 0 < n → word n x → fits_signed n (signed n x).
Proof.
  intros Hn Hx. destruct (pow_half n Hn). unfold fits_signed, signed, word in *.
  destruct (Z.ltb_spec x (2 ^ (n - 1))); lia.
Qed.

(** Truncation loses nothing exactly when the value fits. *)
Lemma signed_wrap n p : 0 < n → signed n (wrap n p) = p ↔ fits_signed n p.
Proof.
  intros Hn. split.
  { intros <-. apply signed_fits; [done|]. apply word_wrap. lia. }
  destruct (pow_half n Hn) as [E Hp]. unfold fits_signed, signed, wrap. rewrite E. intros Hf.
  rewrite difference_mod by lia. destruct (Z.ltb_spec p 0).
  - destruct (Z.ltb_spec (p + 2 * 2 ^ (n - 1)) (2 ^ (n - 1))); lia.
  - destruct (Z.ltb_spec p (2 ^ (n - 1))); lia.
Qed.

(** ** Multiplication *)

(** The operand sizes, as the code matches on them. *)
Lemma size_cases size : is_width (size * 8) → size = 1 ∨ size = 2 ∨ size = 4 ∨ size = 8.
Proof. unfold is_width. rewrite !elem_of_cons, elem_of_nil. lia. Qed.

Lemma join_halves w P : 0 ≤ w → 0 ≤ P →
  ((P / 2 ^ w) ≪ w) .| wrap w P = P.
Proof.
  intros Hw HP. rewrite Z.lor_comm, lor_shiftl by (done || by apply word_wrap).
  unfold wrap. pose proof (Z.div_mod P (2 ^ w)). lia.
Qed.

Lemma half_word w P : 0 ≤ w → word (2 * w) P → word w (P / 2 ^ w).
Proof.
  intros Hw [HP0 HP]. replace (2 * w) with (w + w) in HP by lia. rewrite Z.pow_add_r in HP by lia.
  split; [apply Z.div_pos; lia|]. apply Z.div_lt_upper_bound; lia.
Qed.

(** The double-width accumulator holds both halves of a product. *)
Lemma double_written size P r : is_width (size * 8) → file_ok r → word (2 * (size * 8)) P →
  let high := wrap 64 (P ≫ (size * 8)) in
  let low := wrap 64 P in
  dividend_of size
    match size with
    | 1 => write_register Reg.AX 2 low r
    | 2 => write_register Reg.DX 2 high (write_register Reg.AX 2 low r)
    | 4 => write_register Reg.EDX 4 high (write_register Reg.EAX 4 low r)
    | _ => write_register Reg.RDX 8 high (write_register Reg.RAX 8 low r)
    end = P.
Proof.
  intros Hn Hr HP high low.
  assert (word 64 high ∧ word 64 low) as [Hh Hl] by (split; by apply word_wrap).
  assert (wrap (size * 8) high = P / 2 ^ (size * 8)) as Eh.
  { unfold high. rewrite wrap_wrap, Z.shiftr_div_pow2 by (done || apply width_range in Hn; lia).
    apply wrap_small, half_word; [apply width_range in Hn; lia|done]. }
  assert (wrap (size * 8) low = wrap (size * 8) P) as El by (unfold low; by rewrite wrap_wrap).
  assert (0 ≤ P) as HP0 by apply HP.
  assert (∀ lo hi s, s = size → register_size lo = s → register_size hi = s →
    register_index lo ≠ register_index hi → is_high_byte lo = false →
    let r' := write_register hi s high (write_register lo s low r) in
    (read_register r' hi s ≪ (s * 8)) .| read_register r' lo s = P) as Hpair.
  { intros lo hi s -> Slo Shi Hne Hb r'. unfold r'.
    pose proof (read_written hi high (write_register lo size low r)) as Ehi.
    pose proof (read_written lo low r) as Elo. rewrite Shi in Ehi. rewrite Slo in Elo.
    rewrite Ehi, read_written_ne, Elo, Eh, El by (done || by apply file_ok_written).
    apply join_halves; [apply width_range in Hn; lia|done]. }
  destruct (size_cases size Hn) as [->|[->|[->| ->]]]; cbn [dividend_of].
  - rewrite (read_written Reg.AX) by done. cbn [register_size]. unfold low.
    rewrite wrap_wrap by (unfold is_width; set_solver). by apply wrap_small.
  - by apply (Hpair Reg.AX Reg.DX 2).
  - by apply (Hpair Reg.EAX Reg.EDX 4).
  - by apply (Hpair Reg.RAX Reg.RDX 8).
Qed.

(** The upper half of a product is the sign extension of the lower half exactly
    when the product lies within half a period of zero. *)
Lemma upper_is_shifted H P : 0 < H → 0 ≤ P < 2 * H * (2 * H) →
  P / (2 * H) = (P / H) `mod` (2 * H) ↔ P < H ∨ 2 * H * (2 * H) - H ≤ P.
Proof.
  intros HH HP. rewrite (Z.mul_comm 2 H), <- Z.div_div, (Z.mul_comm H 2) by lia.
  pose proof (Z.div_mod P H ltac:(lia)) as E. pose proof (Z.mod_pos_bound P H ltac:(lia)).
  set (q := P / H) in *. assert (0 ≤ q < 2 * (2 * H)) as Hq by nia.
  rewrite sum_mod by lia. destruct (Z.ltb_spec q (2 * H)).
  - assert (q / 2 = q ↔ q = 0) as -> by dlia. nia.
  - assert (q / 2 = q - 2 * H ↔ q = 4 * H - 1) as -> by dlia. nia.
Qed.
Lemma upper_is_sign H P : 0 < H → 0 ≤ P < 2 * H * (2 * H) →
  P / (2 * H) = (if H <=? P `mod` (2 * H) then 2 * H - 1 else 0) ↔ P < H ∨ 2 * H * (2 * H) - H ≤ P.
Proof.
  intros HH HP. pose proof (Z.div_mod P (2 * H) ltac:(lia)) as E.
  pose proof (Z.mod_pos_bound P (2 * H) ltac:(lia)). set (a := P / (2 * H)) in *. set (b := P `mod` (2 * H)) in *.
  assert (0 ≤ a < 2 * H) by nia. destruct (Z.leb_spec H b); split; intros; nia.
Qed.
Lemma near_zero H p : 0 < H → - (H * H) ≤ p ≤ H * H →
  let P := p `mod` (2 * H * (2 * H)) in (P < H ∨ 2 * H * (2 * H) - H ≤ P) ↔ - H ≤ p < H.
Proof.
  intros HH Hp P. unfold P. rewrite difference_mod by nia. destruct (Z.ltb_spec p 0); nia.
Qed.

(** [n]-bit truncation of a signed shift of the low 64 bits. *)
Lemma low_sign n P : is_width n → word (2 * n) P →
  wrap n (signed 64 (wrap 64 P) ≫ (n - 1)) =
    if n =? 64 then (if 2 ^ 63 <=? P `mod` 2 ^ 64 then 2 ^ 64 - 1 else 0)
    else (P / 2 ^ (n - 1)) `mod` 2 ^ n.
Proof.
  intros Hn [HP0 HP]. pose proof (width_range n Hn). rewrite Z.shiftr_div_pow2 by lia.
  destruct (Z.eqb_spec n 64) as [->|Hne].
  - unfold signed, wrap. change (64 - 1) with 63. pose proof (Z.mod_pos_bound P (2 ^ 64) ltac:(lia)).
    destruct (Z.leb_spec (2 ^ 63) (P `mod` 2 ^ 64)), (Z.ltb_spec (P `mod` 2 ^ 64) (2 ^ 63)); try lia.
    + replace ((P `mod` 2 ^ 64 - 2 ^ 64) / 2 ^ 63) with (-1); [done|].
      apply Z.div_unique with (P `mod` 2 ^ 64 - 2 ^ 63); lia.
    + by rewrite Z.div_small by lia.
  - assert (n ≤ 32) as Hn32. { revert Hn. unfold is_width. rewrite !elem_of_cons, elem_of_nil. lia. }
    assert (2 ^ (2 * n) ≤ 2 ^ 64) by (apply Z.pow_le_mono_r; lia).
    rewrite (wrap_small 64 P) by (split; lia). unfold signed.
    destruct (P <? 2 ^ (64 - 1)); [done|].
    replace (2 ^ 64) with (2 ^ (65 - 2 * n) * 2 ^ n * 2 ^ (n - 1)).
    2:{ rewrite <- !Z.pow_add_r by lia. f_equal. lia. }
    unfold wrap. rewrite <- Z.add_opp_r, <- !Z.mul_opp_l, Z.div_add by lia. by rewrite Z.mod_add by lia.
Qed.

Lemma imul_flag n p : is_width n → - (2 ^ (n - 1) * 2 ^ (n - 1)) ≤ p ≤ 2 ^ (n - 1) * 2 ^ (n - 1) →
  let P := wrap (2 * n) p in
  (wrap 64 (P ≫ n) .& mask_for n =? wrap 64 (signed 64 (wrap 64 P) ≫ (n - 1)) .& mask_for n) =
  bool_decide (fits_signed n p).
Proof.
  intros Hn Hp P. destruct (width_half n Hn) as [E HH]. pose proof (width_range n Hn).
  assert (word (2 * n) P) as HP by (apply word_wrap; lia).
  change (mask_for n) with (bits_mask n). rewrite !mask_wrap, !wrap_wrap by done.
  rewrite low_sign by done. rewrite Z.shiftr_div_pow2, (wrap_small n) by (lia || by apply half_word; [lia|]).
  assert (2 ^ (2 * n) = 2 * 2 ^ (n - 1) * (2 * 2 ^ (n - 1))) as E2.
  { rewrite <- E, <- Z.pow_add_r by lia. f_equal. lia. }
  assert (P = p `mod` (2 * 2 ^ (n - 1) * (2 * 2 ^ (n - 1)))) as EP by (unfold P, wrap; by rewrite E2).
  pose proof (near_zero (2 ^ (n - 1)) p HH Hp) as Hz. cbv zeta in Hz. rewrite <- EP in Hz.
  destruct HP as [HP0 HP]. rewrite E2 in HP. unfold fits_signed.
  apply eq_true_iff_eq. rewrite Z.eqb_eq, bool_decide_eq_true, <- Hz. destruct (Z.eqb_spec n 64) as [->|Hne].
  - by apply (upper_is_sign (2 ^ 63) P).
  - rewrite E. by apply upper_is_shifted.
Qed.

Lemma accumulator_word size r : is_width (size * 8) → file_ok r →
  word (size * 8) (read_accumulator r size).
Proof.
  intros Hn Hr. destruct (size_cases size Hn) as [->|[->|[->| ->]]]; cbn [read_accumulator].
  - by apply (read_register_word Reg.AL).
  - by apply (read_register_word Reg.AX).
  - by apply (read_register_word Reg.EAX).
  - by apply (read_register_word Reg.RAX).
Qed.

(** The range of a product of two [n]-bit integers. *)
Lemma signed_product n a b : fits_signed n a → fits_signed n b →
  - (2 ^ (n - 1) * 2 ^ (n - 1)) ≤ a * b ≤ 2 ^ (n - 1) * 2 ^ (n - 1).
Proof. unfold fits_signed. generalize (2 ^ (n - 1)). intros H [? ?] [? ?]. split; nia. Qed.
Lemma unsigned_product n a b : 0 ≤ n → word n a → word n b → word (2 * n) (a * b).
Proof.
  intros Hn [? ?] [? ?]. unfold word. replace (2 * n) with (n + n) by lia.
  rewrite Z.pow_add_r by lia. nia.
Qed.

Lemma full_mask_wrap n p : is_width n → wrap 128 p .& ((2 ^ 128 - 1) ≫ (128 - n * 2)) = wrap (2 * n) p.
Proof.
  intros Hn. pose proof (width_range n Hn).
  replace ((2 ^ 128 - 1) ≫ (128 - n * 2)) with (Z.ones (2 * n)).
  2:{ revert Hn. unfold is_width. rewrite !elem_of_cons, elem_of_nil. by intros [->|[->|[->|[->|[]]]]]. }
  rewrite keep_low by lia. unfold wrap. apply Z.bits_inj'. intros j Hj.
  destruct (Z.ltb_spec j (2 * n)); [by rewrite !Z.mod_pow2_bits_low by lia|by rewrite !Z.mod_pow2_bits_high by lia].
Qed.

(** ** Division *)

(** Where the remainder goes. *)
Definition remainder_of (size : Z) (r : Registers) : Z :=
  match size with
  | 1 => read_register r Reg.AH 1
  | 2 => read_register r Reg.DX 2
  | 4 => read_register r Reg.EDX 4
  | _ => read_register r Reg.RDX 8
  end.

Lemma low_byte_kept r v : file_ok r →
  read_register (write_register Reg.AH 1 v r) Reg.AL 1 = read_register r Reg.AL 1.
Proof.
  intros Hr. unfold read_register. change (register_index Reg.AL) with (register_index Reg.AH).
  rewrite lookup_written by done. cbn [is_high_byte]. generalize (gpr r !!! register_index Reg.AH). intros old.
  apply Z.bits_inj'. intros j Hj. change 0xFF with (Z.ones 8). change 0xFF00 with (Z.ones 8 ≪ 8).
  rewrite !Z.land_spec, Z.lor_spec, Z.ldiff_spec, !Z.shiftl_spec, !Z.testbit_ones by lia.
  destruct (Z.ltb_spec j 8); [|btauto]. rewrite (Z.testbit_neg_r _ (j - 8)) by lia.
  replace (0 <=? j - 8) with false by lia. btauto.
Qed.

Lemma quotient_written size q m r : is_width (size * 8) → file_ok r → word 64 q → word 64 m →
  read_accumulator (write_quotient size q m r) size = wrap (size * 8) q ∧
  remainder_of size (write_quotient size q m r) = wrap (size * 8) m.
Proof.
  intros Hn Hr Hq Hm. assert (∀ reg, file_ok (write_register reg (register_size reg) q r)) as Hw
    by (intros; by apply file_ok_written).
  destruct (size_cases size Hn) as [->|[->|[->| ->]]]; cbn [read_accumulator remainder_of write_quotient].
  - rewrite low_byte_kept by apply (Hw Reg.AL). split; [by apply (read_written Reg.AL)|].
    by apply (read_written Reg.AH); [apply (Hw Reg.AL)|].
  - rewrite (read_written_ne Reg.DX) by done. split; [by apply (read_written Reg.AX)|].
    by apply (read_written Reg.DX); [apply (Hw Reg.AX)|].
  - rewrite (read_written_ne Reg.EDX) by done. split; [by apply (read_written Reg.EAX)|].
    by apply (read_written Reg.EDX); [apply (Hw Reg.EAX)|].
  - rewrite (read_written_ne Reg.RDX) by done. split; [by apply (read_written Reg.RAX)|].
    by apply (read_written Reg.RDX); [apply (Hw Reg.RAX)|].
Qed.

Lemma word_join w lo hi : 0 ≤ w → word w lo → word w hi → word (2 * w) ((hi ≪ w) .| lo).
Proof.
  intros Hw Hlo Hhi. rewrite Z.lor_comm, lor_shiftl by done. unfold word in *.
  replace (2 * w) with (w + w) by lia. rewrite Z.pow_add_r by lia. nia.
Qed.
Lemma dividend_word size r : is_width (size * 8) → file_ok r → word (2 * (size * 8)) (dividend_of size r).
Proof.
  intros Hn Hr. destruct (size_cases size Hn) as [->|[->|[->| ->]]]; cbn [dividend_of].
  - by apply (read_register_word Reg.AX).
  - by apply (word_join 16); [|apply (read_register_word Reg.AX)|apply (read_register_word Reg.DX)].
  - by apply (word_join 32); [|apply (read_register_word Reg.EAX)|apply (read_register_word Reg.EDX)].
  - by apply (word_join 64); [|apply (read_register_word Reg.RAX)|apply (read_register_word Reg.RDX)].
Qed.

Section exactness.
Context {I : Type} `{Iced I} `{IcedInstruction I}.
Context {B N : Type} `{BlockBackend B} `{NetBackend N}.
Context `{Environment}.
Abbreviation Cpu := (Cpu I B N).

(** one-operand multiplication is exact. Whatever the operand, register or
    memory, and the width, MUL and IMUL leave in the double-width accumulator
    the product of the unsigned or the two's complement values, set carry and
    overflow exactly when the product does not fit the operand width, and
    change no other register. *)
Theorem mul_exact (i : I) (is_signed : bool) (c : Cpu) d c1 :
  let size := operand_size i 0 in let n := size * 8 in
  is_width n → read_operand0 i c = (Ok d, c1) → word n d → file_ok (regs c1) →
  let a := read_accumulator (regs c1) size in
  let p := if is_signed then signed n a * signed n d else a * d in
  let fits := if is_signed then bool_decide (fits_signed n p) else bool_decide (word n p) in
  ∃ r', mul i is_signed c = (Ok (), c1 <| regs := r' |>) ∧
    dividend_of size r' = p `mod` 2 ^ (2 * n) ∧
    carry r' = negb fits ∧ has (rflags r') RFlags.OF = negb fits ∧
    ∀ k, k ≠ RAX → k ≠ RDX → gpr r' !!! k = gpr (regs c1) !!! k.
Proof.
  intros size n Hn Hd Hw Hf a p fits. assert (word n a) as Ha by by apply accumulator_word.
  unfold mul. rewrite (sbind_ok _ _ _ _ _ Hd), (sbind_ok get _ _ _ _ eq_refl). fold size. fold a.
  unfold wrapping_mul. rewrite !sign_extend_signed by done. fold n.
  assert ((if is_signed then wrap 128 (signed n a * signed n d) else wrap 128 (a * d)) = wrap 128 p) as ->
    by (by destruct is_signed).
  rewrite full_mask_wrap by done. set (P := wrap (2 * n) p).
  assert (word (2 * n) P) as HP by (apply word_wrap; apply width_range in Hn; lia).
  match goal with |- context [set_flag RFlags.CF ?x] => set (o := x) end.
  assert (o = negb fits) as ->.
  { unfold o, fits. pose proof (width_range n Hn). destruct is_signed; f_equal.
    - apply imul_flag; [done|]. apply signed_product; apply signed_fits; (done || lia).
    - unfold P, p. rewrite (wrap_small (2 * n)) by (apply unsigned_product; done || lia).
      pose proof (unsigned_product n a d ltac:(lia) Ha Hw) as Hp. rewrite Z.shiftr_div_pow2 by lia.
      pose proof (half_word n (a * d) ltac:(lia) Hp) as Hq.
      rewrite (wrap_small 64) by (eapply word_mono; [| |exact Hq]; lia). destruct Hp as [Hp0 _].
      pose proof (Z.div_small_iff (a * d) (2 ^ n)). unfold word. by_cases. }
  eexists. split; [reflexivity|]. set (r0 := set_flag RFlags.OF _ _).
  assert (file_ok r0) as Hr0 by (by apply flag_file_ok, flag_file_ok).
  split; [by rewrite double_written|].
  assert (carry r0 = negb fits ∧ has (rflags r0) RFlags.OF = negb fits) as [Ec Eo].
  { unfold r0. flags. done. }
  destruct (size_cases size Hn) as [->|[->|[->| ->]]]; (split; [exact Ec|]; split; [exact Eo|]);
    intros k Hk1 Hk2; rewrite ?lookup_written_ne by (exact Hk1 || exact Hk2); unfold r0; done.
Qed.

(** C34: division is exact, and its failures are known. With the dividend in the
    double-width accumulator, DIV and IDIV return the truncated quotient and the
    remainder of the unsigned or two's complement values; the divide error is
    raised exactly when the divisor is zero or the quotient does not fit; and
    the one remaining case, a 64-bit IDIV of the most negative dividend by -1,
    panics the host. *)
Theorem div_exact (i : I) (is_signed : bool) (c : Cpu) d c1 :
  let size := operand_size i 0 in let n := size * 8 in
  is_width n → read_operand0 i c = (Ok d, c1) → word n d → file_ok (regs c1) →
  let full := dividend_of size (regs c1) in
  let x := if is_signed then signed (2 * n) full else full in
  let y := if is_signed then signed n d else d in
  let fits := if is_signed then bool_decide (fits_signed n (Z.quot x y)) else bool_decide (word n (Z.quot x y)) in
  if d =? 0 then div i is_signed c = raise 0 0 false c1
  else if is_signed && (x =? - 2 ^ 127) && (y =? -1) then div i is_signed c = (Err Panic, c1)
  else if negb fits then div i is_signed c = raise 0 0 false c1
  else ∃ r', div i is_signed c = (Ok (), c1 <| regs := r' |>) ∧
    read_accumulator r' size = wrap n (Z.quot x y) ∧ remainder_of size r' = wrap n (Z.rem x y) ∧
    rflags r' = rflags (regs c1) ∧ ∀ k, k ≠ RAX → k ≠ RDX → gpr r' !!! k = gpr (regs c1) !!! k.
Proof.
  intros size n Hn Hd Hw Hf full x y fits. pose proof (width_range n Hn).
  assert (word (2 * n) full) as Hfull by (by apply dividend_word).
  unfold div. rewrite (sbind_ok _ _ _ _ _ Hd), (sbind_ok get _ _ _ _ eq_refl). fold size full n.
  assert (match size with 1 => 1 | 2 => 2 | 4 => 4 | _ => 8 end * 16 = 2 * n) as ->.
  { unfold n. by destruct (size_cases size Hn) as [->|[->|[->| ->]]]. }
  destruct (Z.eqb_spec d 0) as [_|Hd0]; [done|].
  assert (∀ q m, let r' := write_quotient size (wrap 64 q) (wrap 64 m) (regs c1) in
    read_accumulator r' size = wrap n q ∧ remainder_of size r' = wrap n m ∧
    rflags r' = rflags (regs c1) ∧ ∀ k, k ≠ RAX → k ≠ RDX → gpr r' !!! k = gpr (regs c1) !!! k) as Hres.
  { intros q m r'. destruct (quotient_written size (wrap 64 q) (wrap 64 m) (regs c1)) as [Eq Em];
      [done|done|by apply word_wrap|by apply word_wrap|]. fold n in Eq, Em.
    rewrite wrap_wrap in Eq, Em by done. split; [done|]. split; [done|]. unfold r'.
    destruct (size_cases size Hn) as [->|[->|[->| ->]]]; (split; [done|]); intros k Hk1 Hk2;
      cbn [write_quotient]; by rewrite !lookup_written_ne by (exact Hk1 || exact Hk2). }
  destruct is_signed; cbn [andb].
  - rewrite sign_extend128_signed, sign_extend_signed by (done || lia). fold n x y.
    destruct ((x =? - 2 ^ 127) && (y =? -1)); [done|].
    replace ((bit (n - 1) - 1 <? Z.quot x y) || (Z.quot x y <? - bit (n - 1))) with (negb fits).
    2:{ unfold fits. rewrite bit_pow2 by lia. unfold fits_signed. by_cases. }
    destruct (negb fits); [done|]. eexists. split; [reflexivity|]. apply Hres.
  - assert (0 ≤ x ∧ 0 < y) as [Hx Hy] by (unfold x, y; destruct Hfull, Hw; lia).
    rewrite <- Z.quot_div_nonneg, <- Z.rem_mod_nonneg by lia. fold x y.
    replace (bits_mask n <? Z.quot x y) with (negb fits).
    2:{ unfold fits. rewrite bits_mask_ones, Z.ones_equiv, <- Z.sub_1_r by done. unfold word.
        pose proof (Z.quot_pos x y). by_cases. }
    destruct (negb fits); [done|]. eexists. split; [reflexivity|]. apply Hres.
Qed.
End exactness.

(** ** Instances *)

(** [mul rbx] of two values whose product needs both registers. *)
Lemma mul_exact_witness :
  ∃ r', mul (three 0x48 0xF7 0xE3) false (with_registers (2 ^ 63) 7 6)
    = (Ok (), (with_registers (2 ^ 63) 7 6) <| regs := r' |>) ∧
    dividend_of 8 r' = 3 * 2 ^ 64 ∧ carry r' = true.
Proof.
  destruct (mul_exact (three 0x48 0xF7 0xE3) false (with_registers (2 ^ 63) 7 6) 6 (with_registers (2 ^ 63) 7 6))
    as (r' & Em & Ed & Ec & _).
  - unfold is_width. set_solver.
  - reflexivity.
  - by apply word_const.
  - apply with_registers_ok; by apply word_const.
  - exists r'. split; [exact Em|]. split; [exact Ed|exact Ec].
Defined.

(** [idiv rbx] of the most negative dividend by -1 panics. *)
Lemma div_exact_witness :
  div (three 0x48 0xF7 0xFB) true (with_registers 0 (2 ^ 63) (2 ^ 64 - 1))
    = (Err Panic, with_registers 0 (2 ^ 63) (2 ^ 64 - 1)).
Proof.
  refine (div_exact (three 0x48 0xF7 0xFB) true (with_registers 0 (2 ^ 63) (2 ^ 64 - 1)) (2 ^ 64 - 1)
    (with_registers 0 (2 ^ 63) (2 ^ 64 - 1)) _ _ _ _).
  - unfold is_width. set_solver.
  - reflexivity.
  - by apply word_const.
  - apply with_registers_ok; by apply word_const.
Defined.
