(* ===== verification/Branch.v ===== *)
(** Control flow and the stack instructions, [rish-softvm-core/src/ops/branch.rs]
    and [ops/stack.rs].

    [expect] on an unknown condition code is a panic, as in the source. Error
    values carry the mnemonic and the address as there, the instruction bytes
    being filled in by the caller.

    The theorems show that a compare followed by a conditional branch decides
    the relation of its mnemonic, and that [call] and [ret] are inverse. *)
From Stdlib Require Import Btauto.
From stdpp Require Import strings.
From S2P Require Import Prelude.
From S2P Require Import Ports.
From S2P Require Import VirtQueue.
From S2P Require Import VirtioBlk.
From S2P Require Import VirtioNet.
From S2P Require Import Memory.
From S2P Require Import Registers.
From S2P Require Import Paging.
From S2P Require Import Tlb.
From S2P Require Import Decode.
From S2P Require Import Cpu.
From S2P Require Import Interrupts.
From S2P Require Import Operands.
From S2P Require Import Arithmetic.
Local Open Scope Z_scope.

Module Condition.
Inductive t := O | No | B | Ae | E | Ne | Be | A | S | Ns | P | Np | L | Ge | Le | G.
End Condition.

Definition condition_of (m : Mnemonic.t) : option Condition.t :=
  match m with
  | Mnemonic.Jo | Mnemonic.Seto | Mnemonic.Cmovo => Some Condition.O
  | Mnemonic.Jno | Mnemonic.Setno | Mnemonic.Cmovno => Some Condition.No
  | Mnemonic.Jb | Mnemonic.Setb | Mnemonic.Cmovb => Some Condition.B
  | Mnemonic.Jae | Mnemonic.Setae | Mnemonic.Cmovae => Some Condition.Ae
  | Mnemonic.Je | Mnemonic.Sete | Mnemonic.Cmove => Some Condition.E
  | Mnemonic.Jne | Mnemonic.Setne | Mnemonic.Cmovne => Some Condition.Ne
  | Mnemonic.Jbe | Mnemonic.Setbe | Mnemonic.Cmovbe => Some Condition.Be
  | Mnemonic.Ja | Mnemonic.Seta | Mnemonic.Cmova => Some Condition.A
  | Mnemonic.Js | Mnemonic.Sets | Mnemonic.Cmovs => Some Condition.S
  | Mnemonic.Jns | Mnemonic.Setns | Mnemonic.Cmovns => Some Condition.Ns
  | Mnemonic.Jp | Mnemonic.Setp | Mnemonic.Cmovp => Some Condition.P
  | Mnemonic.Jnp | Mnemonic.Setnp | Mnemonic.Cmovnp => Some Condition.Np
  | Mnemonic.Jl | Mnemonic.Setl | Mnemonic.Cmovl => Some Condition.L
  | Mnemonic.Jge | Mnemonic.Setge | Mnemonic.Cmovge => Some Condition.Ge
  | Mnemonic.Jle | Mnemonic.Setle | Mnemonic.Cmovle => Some Condition.Le
  | Mnemonic.Jg | Mnemonic.Setg | Mnemonic.Cmovg => Some Condition.G
  | _ => None
  end.

Definition condition_holds (condition : Condition.t) (flags : Z) : bool :=
  let cf := has flags RFlags.CF in
  let zf := has flags RFlags.ZF in
  let sf := has flags RFlags.SF in
  let vf := has flags RFlags.OF in
  let pf := has flags RFlags.PF in
  match condition with
  | Condition.O => vf
  | Condition.No => negb vf
  | Condition.B => cf
  | Condition.Ae => negb cf
  | Condition.E => zf
  | Condition.Ne => negb zf
  | Condition.Be => cf || zf
  | Condition.A => negb cf && negb zf
  | Condition.S => sf
  | Condition.Ns => negb sf
  | Condition.P => pf
  | Condition.Np => negb pf
  | Condition.L => xorb sf vf
  | Condition.Ge => negb (xorb sf vf)
  | Condition.Le => zf || xorb sf vf
  | Condition.G => negb zf && negb (xorb sf vf)
  end.

Section branch.
Context {I : Type} `{Iced I} `{IcedInstruction I}.
Context {B N : Type} `{BlockBackend B} `{NetBackend N}.
Context `{Environment}.
Abbreviation Cpu := (Cpu I B N).
Abbreviation M A := (st Cpu Abort A).

Definition relative_target (i : I) : Z := near_branch_target i.

Definition set_rip (target : Z) : M () :=
  set_regs (λ r, r <| rip :=
    match mode r with
    | Long => target
    | Protected32 => target .& 0xFFFFFFFF
    | _ => target .& 0xFFFF
    end |>).

Definition unimplemented {A} (name : string) : M A :=
  let! c := get in sfail (Fail (UnimplementedInstruction name (rip (regs c)) [])).

(** The code segment a far transfer loads: [Cpu::load_code_segment], which the
    source repeats at each place. *)
Definition load_cs (sel : Z) : M () :=
  let! segment := load_code_segment sel in
  set_regs (λ r, r <| cs := segment |>).

Definition counter_register (r : Registers) : Register :=
  match mode r with
  | Real | Protected16 => Reg.CX
  | Protected32 => Reg.ECX
  | Long => Reg.RCX
  end.

Definition jump (i : I) : M () :=
  match mnemonic i with
  | Mnemonic.Jmp =>
      match op_kind i 0 with
      | OpKind.FarBranch16 | OpKind.FarBranch32 =>
          let! _ := load_cs (far_branch_selector i) in
          set_rip (far_branch32 i)
      | OpKind.NearBranch16 | OpKind.NearBranch32 | OpKind.NearBranch64 =>
          set_rip (relative_target i)
      | OpKind.Memory =>
          let! target := read_operand i (memory_size i) in
          set_rip target
      | OpKind.Register =>
          let! c := get in
          set_rip (read_register (regs c) (op_register i 0) (operand_size i 0))
      | _ => unimplemented "jmp"
      end
  | m =>
      let! c := get in
      let branch (taken : bool) : M () := if taken then set_rip (relative_target i) else sret () in
      let loop (also : bool) : M () :=
        let register := counter_register (regs c) in
        let value := wrapping_sub 64 (read_register (regs c) register 8) 1 in
        let! _ := set_regs (write_register register 8 value) in
        let! c := get in
        branch (negb (read_register (regs c) register 8 =? 0) && also) in
      match m with
      | Mnemonic.Jcxz => branch (read_register (regs c) Reg.CX 2 =? 0)
      | Mnemonic.Jecxz => branch (read_register (regs c) Reg.ECX 4 =? 0)
      | Mnemonic.Jrcxz => branch (read_register (regs c) Reg.RCX 8 =? 0)
      | Mnemonic.Loop => loop true
      | Mnemonic.Loope => loop (has (rflags (regs c)) RFlags.ZF)
      | Mnemonic.Loopne => loop (negb (has (rflags (regs c)) RFlags.ZF))
      | _ => sret ()
      end
  end.

(** [condition_of(..).expect(..)] *)
Definition expect_condition (i : I) : M Condition.t :=
  match condition_of (mnemonic i) with
  | Some condition => sret condition
  | None => sfail Panic
  end.

Definition cmovcc (i : I) : M () :=
  let! condition := expect_condition i in
  let! value :=
    match op_kind i 1 with
    | OpKind.Memory => read_operand i (memory_size i)
    | _ => sread (λ c, Ok (read_register (regs c) (op_register i 1) (operand_size i 1)))
    end in
  let size := operand_size i 0 in
  let! c := get in
  if condition_holds condition (rflags (regs c)) then
    set_regs (write_register (op_register i 0) size value)
  else if (size =? 4) && has (efer (regs c)) Efer.LMA then
    set_regs (write_register (op_register i 0) 4 (read_register (regs c) (op_register i 0) 4))
  else sret ().

Definition jcc (i : I) : M () :=
  let! condition := expect_condition i in
  let! c := get in
  if condition_holds condition (rflags (regs c)) then set_rip (relative_target i) else sret ().

Definition setcc (i : I) : M () :=
  let! condition := expect_condition i in
  let! c := get in
  let value := Z.b2z (condition_holds condition (rflags (regs c))) in
  match op_kind i 0 with
  | OpKind.Memory => write_operand i 1 value
  | _ => set_regs (write_register (op_register i 0) 1 value)
  end.

Definition call (i : I) : M () :=
  match op_kind i 0 with
  | OpKind.FarBranch16 | OpKind.FarBranch32 =>
      let! c := get in
      let! _ := push_native (selector (cs (regs c))) in
      let! c := get in
      let! _ := push_native (rip (regs c)) in
      let! _ := load_cs (far_branch_selector i) in
      set_rip (far_branch32 i)
  | OpKind.NearBranch16 | OpKind.NearBranch32 | OpKind.NearBranch64 =>
      let! c := get in
      let! _ := push_native (rip (regs c)) in
      set_rip (relative_target i)
  | OpKind.Memory =>
      let! target := read_operand i (memory_size i) in
      let! c := get in
      let! _ := push_native (rip (regs c)) in
      set_rip target
  | OpKind.Register =>
      let! c := get in
      let target := read_register (regs c) (op_register i 0) (operand_size i 0) in
      let! _ := push_native (rip (regs c)) in
      set_rip target
  | _ => unimplemented "call"
  end.

Definition is_far_return (i : I) : bool :=
  match op_kind i 0 with OpKind.FarBranch16 | OpKind.FarBranch32 => true | _ => false end
  || match mnemonic i with Mnemonic.Retf => true | _ => false end.

(** The bytes of arguments a return drops. *)
Definition return_extra (i : I) : Z :=
  match op_kind i 0 with
  | OpKind.Immediate16 | OpKind.Immediate8to16 => immediate16 i
  | _ => 0
  end.

Definition ret (i : I) : M () :=
  let! target := pop_native in
  let! _ :=
    if is_far_return i then
      let! c := get in
      let! sel := if bool_decide (mode (regs c) = Long) then pop64 else pop_native in
      load_cs (wrap 16 sel)
    else sret () in
  let! _ := move_rsp (λ s, wrapping_add 64 s (return_extra i)) in
  set_rip target.

(** The flags SAHF and LAHF move. *)
Definition STATUS_BYTE : Z := RFlags.SF .| RFlags.ZF .| RFlags.AF .| RFlags.PF .| RFlags.CF.

Definition flag_ops (i : I) : M () :=
  let flags (f : Z → Z) : M () := set_regs (λ r, r <| rflags ::= f |>) in
  match mnemonic i with
  | Mnemonic.Stc => flags (λ f, f .| RFlags.CF)
  | Mnemonic.Clc => flags (λ f, f .&~ RFlags.CF)
  | Mnemonic.Cmc => flags (λ f, f .^ RFlags.CF)
  | Mnemonic.Cld => flags (λ f, f .&~ RFlags.DF)
  | Mnemonic.Std => flags (λ f, f .| RFlags.DF)
  | Mnemonic.Cli => flags (λ f, f .&~ RFlags.IF)
  | Mnemonic.Sti =>
      let! c := get in
      let! _ := if negb (has (rflags (regs c)) RFlags.IF)
                then modify (λ c, c <| interrupt_shadow := true |>) else sret () in
      flags (λ f, f .| RFlags.IF)
  | Mnemonic.Sahf =>
      let! c := get in
      let ah := read_register (regs c) Reg.AH 1 in
      flags (λ f, (f .&~ STATUS_BYTE) .| RFlags.from_bits_truncate ah)
  | Mnemonic.Lahf =>
      let! c := get in
      let value := wrap 8 (rflags (regs c) .& STATUS_BYTE) in
      set_regs (write_register Reg.AH 1 value)
  | _ => sret ()
  end.

(** ** [ops/stack.rs] *)

(** [x as i8 as i64 as u64] for an [n]-bit [x]. *)
Definition widen (n x : Z) : Z := wrap 64 (signed n x).

(** Store a loaded segment register. *)
Definition set_segment (s : Segment) (loaded : SegmentRegister) (r : Registers) : Registers :=
  match s with
  | ES => r <| es := loaded |>
  | CS => r <| cs := loaded |>
  | SS => r <| ss := loaded |>
  | DS => r <| ds := loaded |>
  | FS => r <| fs := loaded |>
  | GS => r <| gs := loaded |>
  | NotSegment => r
  end.
Definition is_segment (register : Register) : bool :=
  match segment_of register with NotSegment => false | _ => true end.

(** The levels of [enter] still to copy. *)
Fixpoint enter_levels (count : nat) (level frame : Z) : M () :=
  match count with
  | O => sret ()
  | S count =>
      let! c := get in
      let width := match mode (regs c) with Long => 8 | Protected32 => 4 | _ => 2 end in
      let! physical := translate (wrapping_sub 64 frame (level * width)) Read in
      let! value := load_mem (read_u64 physical) in
      let! _ := push_native value in
      enter_levels count (level + 1) frame
  end.

Definition enter (i : I) : M () :=
  let frame_size := wrap 16 (immediate i 0) in
  let nesting := wrap 8 (immediate i 1) .& 0x1F in
  let! c := get in
  let frame := gpr (regs c) !!! RBP in
  let! _ := push_native frame in
  let! c := get in
  let frame_pointer := rsp (regs c) in
  let! _ :=
    if negb (nesting =? 0) then
      let! _ := enter_levels (Z.to_nat (nesting - 1)) 1 frame in
      push_native frame_pointer
    else sret () in
  let! _ := set_regs (λ r, r <| gpr ::= <[RBP := frame_pointer]> |>) in
  move_rsp (λ s, wrapping_sub 64 s frame_size).

Definition push_pop (i : I) : M () :=
  match mnemonic i with
  | Mnemonic.Pushf | Mnemonic.Pushfq | Mnemonic.Pushfd =>
      let! c := get in
      let value := rflags (regs c) in
      match mode (regs c) with
      | Long => push64 value
      | Protected32 => push32 (wrap 32 value)
      | _ => push16 (wrap 16 value)
      end
  | Mnemonic.Popf | Mnemonic.Popfq | Mnemonic.Popfd =>
      let! value := pop_native in
      set_regs (λ r,
        let bits :=
          match mode r with
          | Long => value
          | Protected32 => value .& 0xFFFFFFFF
          | _ => value .& 0xFFFF
          end in
        r <| rflags ::= λ f, RFlags.from_bits_truncate bits .| (f .& RFlags.TF) |>)
  | Mnemonic.Enter => enter i
  | Mnemonic.Leave =>
      let! c := get in
      let! _ := move_rsp (λ _, gpr (regs c) !!! RBP) in
      let! value := pop_native in
      set_regs (λ r, r <| gpr ::= <[RBP := value]> |>)
  | Mnemonic.Pop =>
      if is_segment (op_register i 0) then
        let! sel := pop_native in
        let! loaded := load_code_segment (wrap 16 sel) in
        set_regs (set_segment (segment_of (op_register i 0)) loaded)
      else
        let! value := pop_native in
        match op_kind i 0 with
        | OpKind.Memory => write_operand i (memory_size i) value
        | _ => set_regs (write_register (op_register i 0) (operand_size i 0) value)
        end
  | Mnemonic.Push =>
      if is_segment (op_register i 0) then
        let! c := get in
        push_native (segment_selector (segment_of (op_register i 0)) (regs c))
      else
        let! value :=
          match op_kind i 0 with
          | OpKind.Immediate8 | OpKind.Immediate8to64 => sret (widen 8 (immediate8 i))
          | OpKind.Immediate8to16 => sret (wrap 64 (immediate8to16 i))
          | OpKind.Immediate8to32 => sret (wrap 64 (immediate8to32 i))
          | OpKind.Immediate16 => sret (immediate16 i)
          | OpKind.Immediate32 | OpKind.Immediate32to64 => sret (widen 32 (immediate32 i))
          | OpKind.Memory => read_operand i (memory_size i)
          | _ => sread (λ c, Ok (read_register (regs c) (op_register i 0) (operand_size i 0)))
          end in
        push_native value
  | _ => sret ()
  end.

End branch.

(** ** Comparisons *)

(** What each condition means after a comparison of two [n]-bit words. *)
Definition compare (condition : Condition.t) (n l r : Z) : bool :=
  let difference := signed n l - signed n r in
  let negative := 2 ^ (n - 1) <=? (l - r) `mod` 2 ^ n in
  let even := count_ones8 ((l - r) `mod` 2 ^ n) `mod` 2 =? 0 in
  match condition with
  | Condition.O => negb (bool_decide (fits_signed n difference))
  | Condition.No => bool_decide (fits_signed n difference)
  | Condition.B => l <? r
  | Condition.Ae => r <=? l
  | Condition.E => l =? r
  | Condition.Ne => negb (l =? r)
  | Condition.Be => l <=? r
  | Condition.A => r <? l
  | Condition.S => negative
  | Condition.Ns => negb negative
  | Condition.P => even
  | Condition.Np => negb even
  | Condition.L => signed n l <? signed n r
  | Condition.Ge => signed n r <=? signed n l
  | Condition.Le => signed n l <=? signed n r
  | Condition.G => signed n r <? signed n l
  end.

Lemma condition_compares condition n l r regs : is_width n → word n l → word n r →
  condition_holds condition (rflags (set_arithmetic (sub_with_flags l r false n) n regs))
  = compare condition n l r.
Proof.
  intros Hn Hl Hr. destruct (sub_exact l r false n Hn) as [Er Ec Eo _].
  rewrite (wrap_small n l Hl), (wrap_small n r Hr) in Er, Ec, Eo. cbn [Z.b2z] in *. rewrite !Z.sub_0_r in *.
  destruct (width_half n Hn) as [E HH]. unfold condition_holds, compare. flags.
  rewrite mask_wrap, Er, Ec, Eo by done. rewrite has_sign by done.
  destruct (sign_total n (l - r) Hn) as [_ Hs]. unfold wrap in Hs. rewrite Hs.
  assert (((l - r) `mod` 2 ^ n =? 0) = (l =? r)) as ->.
  { destruct Hl, Hr. rewrite difference_mod by lia. by_cases. }
  generalize (count_ones8 ((l - r) `mod` 2 ^ n) `mod` 2 =? 0). intros even.
  unfold fits_signed, signed, word in *. rewrite E in *. rewrite difference_mod by lia.
  destruct condition; rewrite ?negb_involutive; by_cases.
Qed.

Section control.
Context {I : Type} `{Iced I} `{IcedInstruction I}.
Context {B N : Type} `{BlockBackend B} `{NetBackend N}.
Context `{Environment}.
Abbreviation Cpu := (Cpu I B N).

(** The instruction pointer a branch to [target] sets. *)
Definition branch_target (r : Registers) (target : Z) : Z :=
  match mode r with
  | Long => target
  | Protected32 => target .& 0xFFFFFFFF
  | _ => target .& 0xFFFF
  end.

(** C33: a compare and a conditional branch decide the relation the mnemonic
    names. For operands [l] and [r] of any width, after [cmp] the branch is taken
    exactly when the unsigned (below, above), signed (less, greater), equality,
    sign, parity or overflow relation holds between them; the compare changes
    nothing but the flags. *)
Theorem compare_and_branch (i j : I) (c c1 c2 : Cpu) l r condition :
  let n := operand_size i 0 * 8 in
  is_width n → read_operand0 i c = (Ok l, c1) → read_operand1 i c1 = (Ok r, c2) →
  word n l → word n r → condition_of (mnemonic j) = Some condition →
  ∃ f, (let! _ := cmp i in jcc j) c =
    (Ok (), c2 <| regs ::= λ s, s <| rflags := f |> <| rip :=
       if compare condition n l r then branch_target s (near_branch_target j) else rip s |> |>).
Proof.
  intros n Hn Hl Hr Wl Wr Hj. set (f := set_arithmetic (sub_with_flags l r false n) n).
  pose proof (λ s, condition_compares condition n l r s Hn Wl Wr) as Hc. fold f in Hc.
  assert (∀ s, f s = s <| rflags := rflags (f s) |>) as Hf by (intros []; reflexivity).
  assert (cmp i c = set_regs f c2) as Ec.
  { unfold cmp. rewrite (sbind_ok _ _ _ _ _ Hl), (sbind_ok _ _ _ _ _ Hr). reflexivity. }
  clearbody f. exists (rflags (f (regs c2))). rewrite (sbind_ok _ _ _ _ _ Ec).
  unfold jcc, expect_condition. rewrite Hj.
  rewrite (sbind_ok (sret _) _ _ _ _ eq_refl), (sbind_ok get _ _ _ _ eq_refl).
  change (regs (c2 <| regs ::= f |>)) with (f (regs c2)). rewrite Hc.
  assert (c2 <| regs ::= f |> = c2 <| regs := (regs c2) <| rflags := rflags (f (regs c2)) |> |>) as ->
    by (unfold set_field at 1 2; by rewrite Hf).
  destruct (compare condition n l r); [reflexivity|].
  unfold sret, set_field. cbn [regs]. by destruct (regs c2).
Qed.
(** A branch to an address of the mode's width goes there. *)
Lemma branch_target_word r x : word (8 * native_width r) x → branch_target r x = x.
Proof.
  unfold native_width, branch_target. intros Hx. destruct (mode r); [| | |done].
  - change 0xFFFF with (Z.ones 16). rewrite keep_low by lia. by apply wrap_small.
  - change 0xFFFF with (Z.ones 16). rewrite keep_low by lia. by apply wrap_small.
  - change 0xFFFFFFFF with (Z.ones 32). rewrite keep_low by lia. by apply wrap_small.
Qed.

Definition is_near (kind : OpKind.t) : bool :=
  match kind with
  | OpKind.NearBranch16 | OpKind.NearBranch32 | OpKind.NearBranch64 => true
  | _ => false
  end.
Lemma call_near (i : I) (c : Cpu) : is_near (op_kind i 0) = true →
  call i c = (let! _ := push_native (rip (regs c)) in set_rip (near_branch_target i)) c.
Proof. intros Hi. unfold call. destruct (op_kind i 0); done. Qed.

End control.

Section returns.
Context {I : Type} `{Iced I} `{IcedInstruction I}.
Context {B N : Type} `{ReliableBackend B} `{NetBackend N}.
Context `{Environment}.
Abbreviation Cpu := (Cpu I B N).

(** a near call can be returned from. In every mode, when the stack slot
    below RSP translates to RAM, [call] enters its target and the matching [ret]
    resumes after the call with every register as before, RSP raised by the
    bytes the [ret] drops, even when the return address overwrites the page
    tables that map the stack. *)
Theorem call_returns (i j : I) (c : Cpu) p c0 :
  let w := native_width (regs c) in
  is_near (op_kind i 0) = true → is_far_return j = false →
  memory_ok (memory c) → tlb_ok (tlb c) → tlb_disabled = false →
  length (gpr (regs c)) = 16%nat → word 64 (rsp (regs c)) → word (8 * w) (rip (regs c)) →
  translate (native_top (below w c)) Write (below w c) = (Ok p, c0) →
  0 ≤ p < len (ram (memory c)) → p + w ≤ len (ram (memory c)) →
  ∃ c1 c2, call i c = (Ok (), c1) ∧ rip (regs c1) = branch_target (regs c) (near_branch_target i) ∧
    ret j c1 = (Ok (), c2) ∧ memory c2 = memory c1 ∧
    regs c2 = set_rsp (wrapping_add 64 (rsp (regs c)) (return_extra j)) (regs c).
Proof.
  intros w Hi Hj Hm Htlb Henv Hg Hrsp Hrip Et Hp Hle.
  destruct (push_pop_native (rip (regs c)) c p c0 (branch_target (regs c) (near_branch_target i)))
    as (c1 & c2 & Epush & Er1 & Epop & Er2 & Em & _); [done..|].
  set (target := branch_target (regs c) (near_branch_target i)) in *.
  assert (call i c = (Ok (), at_rip target c1)) as Ecall.
  { rewrite call_near, (sbind_ok _ _ _ _ _ Epush) by done. unfold set_rip, set_regs, modify, at_rip, set_field.
    cbn [regs]. by rewrite Er1. }
  exists (at_rip target c1).
  eexists. split; [exact Ecall|]. split; [done|]. split.
  { unfold ret. rewrite (sbind_ok _ _ _ _ _ Epop), Hj, (sbind_ok (sret _) _ _ _ _ eq_refl). reflexivity. }
  split; [done|]. rewrite (wrap_small _ (rip (regs c))) by done.
  set (raised := λ s, set_rsp (wrapping_add 64 (rsp s) (return_extra j)) s).
  change ((raised (regs c2)) <| rip := branch_target (raised (regs c2)) (rip (regs c)) |> = raised (regs c)).
  rewrite Er2. change (branch_target (raised _)) with (branch_target (regs c)).
  rewrite branch_target_word by done. by destruct (regs c).
Qed.
End returns.

(** ** Instances *)

(** -1 is below 5 as a signed integer. *)
Lemma compare_and_branch_witness :
  ∃ f, (let! _ := cmp (three 0x48 0x39 0xD8) in jcc (three 0x7C 0 0)) (with_registers (2 ^ 64 - 1) 0 5)
    = (Ok (), (with_registers (2 ^ 64 - 1) 0 5) <| regs ::= λ s, s <| rflags := f |> <| rip := 0x1402 |> |>).
Proof.
  destruct (compare_and_branch (three 0x48 0x39 0xD8) (three 0x7C 0 0) (with_registers (2 ^ 64 - 1) 0 5)
    (with_registers (2 ^ 64 - 1) 0 5) (with_registers (2 ^ 64 - 1) 0 5) (2 ^ 64 - 1) 5 Condition.L) as [f E].
  - unfold is_width. set_solver.
  - reflexivity.
  - reflexivity.
  - by apply word_const.
  - by apply word_const.
  - reflexivity.
  - exists f. exact E.
Defined.

Lemma call_returns_witness :
  ∃ c1 c2, call (three 0xE8 0 0) demo_cpu = (Ok (), c1) ∧ rip (regs c1) = 0x1402 ∧
    ret (three 0xC3 0 0) c1 = (Ok (), c2) ∧ regs c2 = demo_registers.
Proof.
  destruct (call_returns (three 0xE8 0 0) (three 0xC3 0 0) demo_cpu 0x17F8
    (translate (native_top (below 8 demo_cpu)) Write (below 8 demo_cpu)).2) as (c1 & c2 & E1 & E2 & E3 & _ & E4).
  - reflexivity.
  - reflexivity.
  - exact paged_memory_ok.
  - apply tlb_new_ok.
  - reflexivity.
  - reflexivity.
  - by apply word_const.
  - by apply word_const.
  - rewrite (surjective_pairing (translate _ _ _)). f_equal.
  - change (ram (memory demo_cpu)) with (ram paged_memory). rewrite paged_memory_size. lia.
  - change (ram (memory demo_cpu)) with (ram paged_memory). rewrite paged_memory_size. vm_compute. congruence.
  - exists c1, c2. split; [exact E1|]. split; [exact E2|]. split; [exact E3|]. exact E4.
Defined.
