(* ===== verification/Logic.v ===== *)
(** Bitwise logic, shifts, rotates and bit tests,
    [rish-softvm-core/src/ops/logic.rs].

    The theorems show that shifts are multiplication and division by powers of
    two with the last bit out in the carry, and that each rotate, the ones
    through the carry included, is a rotation of bit positions. *)
From Stdlib Require Import Btauto.
From S2P Require Import Prelude.
From S2P Require Import Ports.
From S2P Require Import VirtQueue.
From S2P Require Import VirtioBlk.
From S2P Require Import VirtioNet.
From S2P Require Import Memory.
From S2P Require Import Registers.
From S2P Require Import Paging.
From S2P Require Import Tlb.
From S2P Require Import Decode.
From S2P Require Import Cpu.
From S2P Require Import Interrupts.
From S2P Require Import Operands.
From S2P Require Import Arithmetic.
Local Open Scope Z_scope.

Record ShiftOutcome := mkOutcome {
  shifted : Z;
  shift_carry : bool;
  shift_overflow : bool;
  affects_sign_zero_parity : bool
}.

Definition is_rol (m : Mnemonic.t) : bool := match m with Mnemonic.Rol => true | _ => false end.
Definition is_rcl (m : Mnemonic.t) : bool := match m with Mnemonic.Rcl => true | _ => false end.

Definition rotate (value count bits mask : Z) (m : Mnemonic.t) : option ShiftOutcome :=
  if count =? 0 then None
  else
    let steps := count `mod` bits in
    let result :=
      if steps =? 0 then value
      else if is_rol m then (wrap 64 (value ≪ steps) .| (value ≫ (bits - steps))) .& mask
      else ((value ≫ steps) .| wrap 64 (value ≪ (bits - steps))) .& mask in
    let top := has (result ≫ (bits - 1)) 1 in
    let carry := if is_rol m then has result 1 else top in
    let overflow :=
      if count =? 1 then
        if is_rol m then xorb top carry else xorb top (has (result ≫ (bits - 2)) 1)
      else false in
    Some (mkOutcome result carry overflow false).

(** One step of a rotate through the carry. *)
Definition rotate_step (bits mask : Z) (m : Mnemonic.t) (s : Z * bool) : Z * bool :=
  let '(result, carry) := s in
  if is_rcl m then
    ((wrap 64 (result ≪ 1) .& mask) .| Z.b2z carry, has (result ≫ (bits - 1)) 1)
  else ((result ≫ 1) .| (Z.b2z carry ≪ (bits - 1)), has result 1).

Definition rotate_through_carry (value count bits mask : Z) (carry_in : bool) (m : Mnemonic.t)
    : option ShiftOutcome :=
  let width := bits + 1 in
  let steps := count `mod` width in
  if steps =? 0 then None
  else
    let '(result, carry) := Nat.iter (Z.to_nat steps) (rotate_step bits mask m) (value, carry_in) in
    let top := has (result ≫ (bits - 1)) 1 in
    let overflow :=
      if count =? 1 then
        if is_rcl m then xorb top carry else xorb top (has (result ≫ (bits - 2)) 1)
      else false in
    Some (mkOutcome (result .& mask) carry overflow false).

Definition shift (value count bits mask : Z) (m : Mnemonic.t) : option ShiftOutcome :=
  if count =? 0 then None
  else
    let steps := count in
    let '(result, carry) :=
      match m with
      | Mnemonic.Shl =>
          if bits <=? steps then (0, (steps =? bits) && has value 1)
          else (wrap 64 (value ≪ steps) .& mask, has value (bit (bits - steps)))
      | Mnemonic.Sar =>
          let negative := has value (bit (bits - 1)) in
          let filled :=
            if bits <=? steps then (if negative then mask else 0)
            else if negative then (wrap 64 ((2 ^ 64 - 1) ≪ (bits - steps)) .| (value ≫ steps)) .& mask
            else value ≫ steps in
          let last_out := if bits <=? steps then negative else has value (bit (steps - 1)) in
          (filled, last_out)
      | _ =>
          if bits <=? steps then (0, (steps =? bits) && has value (bit (bits - 1)))
          else (value ≫ steps, has value (bit (steps - 1)))
      end in
    let overflow :=
      if count =? 1 then
        match m with
        | Mnemonic.Shl => xorb (has (result ≫ (bits - 1)) 1) carry
        | Mnemonic.Sar => false
        | _ => has value (bit (bits - 1))
        end
      else false in
    Some (mkOutcome result carry overflow true).

Section logic.
Context {I : Type} `{Iced I} `{IcedInstruction I}.
Context {B N : Type} `{BlockBackend B} `{NetBackend N}.
Context `{Environment}.
Abbreviation Cpu := (Cpu I B N).
Abbreviation M A := (st Cpu Abort A).

(** The flags of a logical result. *)
Definition set_logical (value bits : Z) (r : Registers) : Registers :=
  set_adjust false (set_overflow false (set_carry false (set_szp value bits r))).

Definition and_or_xor (i : I) : M () :=
  let size := operand_size i 0 in
  let! lhs := read_operand0 i in
  let! rhs := read_operand1 i in
  let result :=
    match mnemonic i with
    | Mnemonic.Or => lhs .| rhs
    | Mnemonic.Xor => lhs .^ rhs
    | _ => lhs .& rhs
    end in
  let! _ := set_regs (set_logical result (size * 8)) in
  write_operand0 i result.

Definition test (i : I) : M () :=
  let size := operand_size i 0 in
  let! lhs := read_operand0 i in
  let! rhs := read_operand1 i in
  set_regs (set_logical (lhs .& rhs) (size * 8)).

(** The count operand: an immediate, CL, or an implied one. *)
Definition raw_count (i : I) (r : Registers) : Z :=
  match op_kind i 1 with
  | OpKind.Immediate8 => immediate i 1
  | OpKind.Register => read_register r Reg.CL 1
  | _ => 1
  end.
Definition count_mask (size : Z) : Z := if size =? 8 then 0x3F else 0x1F.

Definition shift_rotate (i : I) : M () :=
  match mnemonic i with
  | Mnemonic.Not =>
      let! value := read_operand0 i in
      write_operand0 i ((2 ^ 64 - 1) .^ value)
  | m =>
      let size := operand_size i 0 in
      let! value := read_operand0 i in
      let! c := get in
      let count := raw_count i (regs c) .& count_mask size in
      let bits := size * 8 in
      let mask := bits_mask bits in
      let truncated := value .& mask in
      let outcome :=
        match m with
        | Mnemonic.Rol | Mnemonic.Ror => rotate truncated count bits mask m
        | Mnemonic.Rcl | Mnemonic.Rcr =>
            rotate_through_carry truncated count bits mask (carry (regs c)) m
        | _ => shift truncated count bits mask m
        end in
      match outcome with
      | None => sret ()
      | Some o =>
          let! _ := set_regs (λ r,
            let r := set_overflow (shift_overflow o) (set_carry (shift_carry o) r) in
            if affects_sign_zero_parity o then set_szp (shifted o) bits r else r) in
          write_operand0 i (shifted o)
      end
  end.

(** The updated unit of a bit test, for the forms that write. *)
Definition update_bit (m : Mnemonic.t) (value mask : Z) : Z :=
  match m with
  | Mnemonic.Bts => value .| mask
  | Mnemonic.Btr => value .&~ mask
  | _ => value .^ mask
  end.

Definition bit_test (i : I) : M () :=
  let m := mnemonic i in
  let size := operand_size i 0 in
  let width_bits := size * 8 in
  let writes := match m with Mnemonic.Bt => false | _ => true end in
  if is_memory (op_kind i 0) then
    let! c := get in
    let base := effective_address i c in
    let '(address, bit_in_unit) :=
      match op_kind i 1 with
      | OpKind.Register =>
          let offset := sign_extend (read_register (regs c) (op_register i 1) size) size in
          let unit := offset / width_bits in
          (wrapping_add 64 base (wrap 64 (unit * size)), offset `mod` width_bits)
      | _ => (base, immediate i 1 `mod` width_bits)
      end in
    let! physical := translate address (if writes then Write else Read) in
    let! value :=
      match size with
      | 1 => load_mem (read_u8 physical)
      | 2 => load_mem (read_u16 physical)
      | 4 => load_mem (read_u32 physical)
      | _ => load_mem (read_u64 physical)
      end in
    let mask := bit bit_in_unit in
    let! _ := set_regs (set_carry (has value mask)) in
    if writes then
      let updated := update_bit m value mask in
      match size with
      | 1 => store_mem (write_u8 physical (wrap 8 updated))
      | 2 => store_mem (write_u16 physical (wrap 16 updated))
      | 4 => store_mem (write_u32 physical (wrap 32 updated))
      | _ => store_mem (write_u64 physical updated)
      end
    else sret ()
  else
    let! c := get in
    let offset :=
      match op_kind i 1 with
      | OpKind.Immediate8 => immediate i 1
      | OpKind.Register => read_register (regs c) (op_register i 1) size
      | _ => 0
      end `mod` width_bits in
    let value := read_register (regs c) (op_register i 0) size in
    let mask := bit offset in
    let! _ := set_regs (set_carry (has value mask)) in
    if writes then set_regs (write_register (op_register i 0) size (update_bit m value mask))
    else sret ().

(** BSF and BSR: the destination is written only for a non-zero source. *)
Definition scan (i : I) (size source index : Z) : M () :=
  if source =? 0 then set_regs (λ r, r <| rflags ::= λ f, f .| RFlags.ZF |>)
  else
    set_regs (λ r, write_register (op_register i 0) size index
                     (r <| rflags ::= λ f, f .&~ RFlags.ZF |>)).

(** TZCNT and LZCNT *)
Definition count_zeros (i : I) (size source index : Z) : M () :=
  set_regs (λ r, write_register (op_register i 0) size index
                   (set_flag RFlags.ZF (index =? 0) (set_flag RFlags.CF (source =? 0) r))).

Definition bit_scan_test (i : I) : M () :=
  let size := operand_size i 0 in
  let bits := size * 8 in
  match mnemonic i with
  | Mnemonic.Bsf =>
      let! source := read_operand1 i in scan i size source (trailing_zeros 64 source)
  | Mnemonic.Bsr =>
      let! source := read_operand1 i in scan i size source (63 - leading_zeros 64 source)
  | Mnemonic.Tzcnt =>
      let! source := read_operand1 i in
      let masked := source .& bits_mask bits in
      count_zeros i size source (if masked =? 0 then bits else trailing_zeros 64 masked)
  | Mnemonic.Lzcnt =>
      let! source := read_operand1 i in
      let masked := source .& bits_mask bits in
      count_zeros i size source (if masked =? 0 then bits else leading_zeros 64 masked - (64 - bits))
  | _ => bit_test i
  end.

End logic.

(** ** Shifts *)

(** The bits of a two's complement value repeat the sign. *)
Lemma signed_testbit n v j : is_width n → word n v → 0 ≤ j →
  Z.testbit (signed n v) j = Z.testbit v (Z.min j (n - 1)).
Proof.
  intros Hn Hv Hj. pose proof (width_range n Hn). pose proof (sign_testbit n v Hn Hv) as Hs.
  unfold signed. destruct (Z.ltb_spec v (2 ^ (n - 1))).
  - destruct (Z.le_gt_cases j (n - 1)); [by rewrite Z.min_l by lia|]. rewrite Z.min_r, Hs by lia.
    rewrite (word_testbit n) by (done || lia). symmetry. apply Z.leb_gt. lia.
  - replace (v - 2 ^ n) with (v .| ((-1) ≪ n)) by (rewrite lor_shiftl by (done || lia); lia).
    rewrite Z.lor_spec. destruct (Z.le_gt_cases j (n - 1)).
    + rewrite Z.min_l, Z.shiftl_spec_low by lia. btauto.
    + rewrite Z.min_r, Hs, Z.shiftl_spec, Z.bits_m1 by lia. rewrite orb_true_r. symmetry. apply Z.leb_le. lia.
Qed.

(** What a shift by [k] computes, and the last bit it moves out. *)
Definition shift_ref (m : Mnemonic.t) (n v k : Z) : Z * bool :=
  match m with
  | Mnemonic.Shl => ((v * 2 ^ k) `mod` 2 ^ n, Z.testbit (v * 2 ^ k) n)
  | Mnemonic.Sar => ((signed n v / 2 ^ k) `mod` 2 ^ n, Z.testbit (signed n v) (k - 1))
  | _ => (v / 2 ^ k, Z.testbit v (k - 1))
  end.

Lemma shl_exact n v k : is_width n → word n v → 0 < k < 64 →
  (if n <=? k then (0, (k =? n) && has v 1)
   else (wrap 64 (v ≪ k) .& bits_mask n, has v (bit (n - k))))
  = ((v * 2 ^ k) `mod` 2 ^ n, Z.testbit (v * 2 ^ k) n).
Proof.
  intros Hn Hv Hk. pose proof (width_range n Hn). rewrite <- Z.shiftl_mul_pow2 by lia.
  destruct (Z.leb_spec n k).
  - f_equal.
    + symmetry. rewrite Z.shiftl_mul_pow2 by lia. replace k with (k - n + n) by lia.
      rewrite Z.pow_add_r, Z.mul_assoc by lia. apply Z.mod_mul. lia.
    + rewrite Z.shiftl_spec by lia. change 1 with (bit 0). rewrite has_testbit by lia.
      destruct (Z.eqb_spec k n) as [->|]; [by rewrite Z.sub_diag|].
      symmetry. apply Z.testbit_neg_r. lia.
  - rewrite mask_wrap, wrap_wrap, has_testbit by (done || lia). by rewrite Z.shiftl_spec by lia.
Qed.

Lemma shr_exact n v k : is_width n → word n v → 0 < k →
  (if n <=? k then (0, (k =? n) && has v (bit (n - 1))) else (v ≫ k, has v (bit (k - 1))))
  = (v / 2 ^ k, Z.testbit v (k - 1)).
Proof.
  intros Hn Hv Hk. pose proof (width_range n Hn). rewrite <- Z.shiftr_div_pow2 by lia.
  rewrite !has_testbit by lia. destruct (Z.leb_spec n k); [|done]. f_equal.
  - symmetry. apply Z.bits_inj'. intros j Hj. rewrite Z.bits_0, Z.shiftr_spec by lia.
    apply (word_testbit n); [done|lia].
  - destruct (Z.eqb_spec k n) as [->|]; [done|]. symmetry. apply (word_testbit n); [done|lia].
Qed.

Lemma sar_exact n v k : is_width n → word n v → 0 < k < 64 →
  ((if n <=? k then (if has v (bit (n - 1)) then bits_mask n else 0)
    else if has v (bit (n - 1)) then (wrap 64 ((2 ^ 64 - 1) ≪ (n - k)) .| (v ≫ k)) .& bits_mask n
    else v ≫ k),
   (if n <=? k then has v (bit (n - 1)) else has v (bit (k - 1))))
  = ((signed n v / 2 ^ k) `mod` 2 ^ n, Z.testbit (signed n v) (k - 1)).
Proof.
  intros Hn Hv Hk. pose proof (width_range n Hn). rewrite <- Z.shiftr_div_pow2 by lia.
  rewrite !has_testbit by lia. f_equal.
  2:{ rewrite signed_testbit by (done || lia).
      destruct (Z.leb_spec n k); [rewrite Z.min_r by lia|rewrite Z.min_l by lia]; done. }
  change (?x `mod` 2 ^ n) with (wrap n x).
  apply Z.bits_inj'. intros j Hj. rewrite wrap_testbit, Z.shiftr_spec, signed_testbit by (done || lia).
  rewrite !bits_mask_ones by done. change (2 ^ 64 - 1) with (Z.ones 64).
  destruct (Z.leb_spec n k).
  - rewrite Z.min_r by lia. destruct (Z.testbit v (n - 1)) eqn:Es; rewrite ?Z.bits_0, ?Z.testbit_ones by lia;
      case_bool_decide; [apply andb_true_iff; lia|lia|done|done].
  - destruct (Z.testbit v (n - 1)) eqn:Es.
    + rewrite Z.land_spec, Z.lor_spec, wrap_testbit, Z.shiftl_spec, Z.shiftr_spec, !Z.testbit_ones by lia.
      destruct (bool_decide_reflect (j < n)) as [Hjn|Hjn]; [|replace (j <? n) with false by lia; btauto].
      replace (0 <=? j) with true by lia. replace (j <? n) with true by lia.
      rewrite (bool_decide_true (j < 64)) by lia. cbn [andb].
      destruct (Z.le_gt_cases (j + k) (n - 1)).
      * rewrite Z.min_l by lia. replace (0 <=? j - (n - k)) with false by lia. btauto.
      * rewrite Z.min_r, Es by lia. replace (0 <=? j - (n - k)) with true by lia.
        replace (j - (n - k) <? 64) with true by lia. btauto.
    + rewrite Z.shiftr_spec by lia. case_bool_decide.
      * destruct (Z.le_gt_cases (j + k) (n - 1)); [by rewrite Z.min_l by lia|].
        rewrite Z.min_r, Es by lia. apply (word_testbit n); [done|lia].
      * apply (word_testbit n); [done|lia].
Qed.

Lemma has_shift x k : 0 ≤ k → has (x ≫ k) 1 = Z.testbit x k.
Proof. intros. change 1 with (bit 0). by rewrite has_testbit, Z.shiftr_spec, Z.add_0_l by lia. Qed.

(** The overflow flag of a one-bit shift. *)
Definition shift_overflows (m : Mnemonic.t) (n v : Z) : bool :=
  match m with
  | Mnemonic.Shl => negb (bool_decide (fits_signed n (signed n v * 2)))
  | Mnemonic.Sar => false
  | _ => 2 ^ (n - 1) <=? v
  end.

Lemma shift_spec m n v k : is_width n → word n v → 0 < k < 64 →
  ∃ o, shift v k n (bits_mask n) m = Some o ∧ affects_sign_zero_parity o = true ∧
    (shifted o, shift_carry o) = shift_ref m n v k ∧
    (k = 1 → shift_overflow o = shift_overflows m n v).
Proof.
  intros Hn Hv Hk. unfold shift. replace (k =? 0) with false by lia.
  match goal with |- context [let '(result, carry) := ?x in _] => assert (x = shift_ref m n v k) as -> end.
  { destruct m; first [apply shl_exact; done | apply sar_exact; done | apply shr_exact; (done || lia)]. }
  destruct (shift_ref m n v k) as [result carry] eqn:E. eexists. split; [reflexivity|].
  split; [done|]. split; [done|]. cbn [shift_overflow]. intros ->. change (1 =? 1) with true. cbv iota.
  destruct (width_half n Hn) as [Ew HH]. pose proof (width_range n Hn).
  destruct m; cbn [shift_overflows]; try (rewrite has_testbit by lia; by apply sign_testbit); [|done].
  injection E as <- <-. rewrite has_shift by lia.
  destruct (sign_total n (v * 2 ^ 1) Hn) as [_ Hs]. unfold wrap in Hs. rewrite Hs.
  rewrite <- Z.shiftl_mul_pow2, Z.shiftl_spec, sign_testbit, Z.shiftl_mul_pow2 by (done || lia).
  change (2 ^ 1) with 2. unfold signed, fits_signed, word in *. rewrite Ew in *. rewrite sum_mod by lia. by_cases.
Qed.

(** ** Rotates *)

(** The bits of a word and, above them, the carry. *)
Definition carry_bit (n : Z) (s : Z * bool) (j : Z) : bool := if j <? n then Z.testbit s.1 j else s.2.

Lemma b2z_bits c j : 0 ≤ j → Z.testbit (Z.b2z c) j = (j =? 0) && c.
Proof.
  intros Hj. destruct (Z.eqb_spec j 0) as [->|Hne]; [by destruct c|]. cbn [andb].
  destruct c; [|by rewrite Z.bits_0]. apply (word_testbit 1); [by apply word_const|lia].
Qed.

(** One step moves every bit, the carry included, by one position. *)
Lemma rotate_step_spec n m s : is_width n → word n s.1 →
  let s' := rotate_step n (bits_mask n) m s in
  word n s'.1 ∧ ∀ j, 0 ≤ j ≤ n →
    carry_bit n s' j = carry_bit n s ((j - (if is_rcl m then 1 else -1)) `mod` (n + 1)).
Proof.
  intros Hn Hw s'. pose proof (width_range n Hn). destruct s as [v c]. cbn [fst] in Hw.
  unfold s', rotate_step. destruct (is_rcl m).
  - rewrite mask_wrap, wrap_wrap by done. split.
    { apply word_lor; [lia|apply word_wrap; lia|]. eapply (word_mono 1); [lia|lia|]. by destruct c; apply word_const. }
    intros j Hj. unfold carry_bit. cbn [fst snd]. rewrite has_shift by lia. rewrite difference_mod by lia.
    destruct (Z.ltb_spec (j - 1) 0).
    + replace j with 0 by lia. replace (0 <? n) with true by lia. replace (0 - 1 + (n + 1) <? n) with false by lia.
      rewrite Z.lor_spec, wrap_testbit, Z.shiftl_spec_low, b2z_bits by lia. by rewrite andb_false_r.
    + replace (j - 1 <? n) with true by lia. destruct (Z.ltb_spec j n); [|f_equal; lia].
      rewrite Z.lor_spec, wrap_testbit, Z.shiftl_spec, b2z_bits by lia.
      replace (j =? 0) with false by lia. rewrite bool_decide_true by lia. btauto.
  - assert (word n (Z.b2z c ≪ (n - 1))) as Hc.
    { rewrite Z.shiftl_mul_pow2 by lia. destruct (width_half n Hn). unfold word. destruct c; cbn [Z.b2z]; lia. }
    split; [apply word_lor; [lia|by apply word_shiftr|done]|].
    intros j Hj. unfold carry_bit. cbn [fst snd]. change (has ?x 1) with (has x (bit 0)). rewrite has_testbit by lia.
    destruct (Z.ltb_spec j n) as [Hjn|Hjn].
    + rewrite Z.mod_small by lia. replace (j - -1) with (j + 1) by lia.
      rewrite Z.lor_spec, Z.shiftr_spec, Z.shiftl_spec by lia.
      destruct (Z.ltb_spec (j + 1) n).
      * rewrite (Z.testbit_neg_r _ (j - (n - 1))) by lia. btauto.
      * rewrite (word_testbit n v) by (done || lia). rewrite b2z_bits by lia.
        by replace (j - (n - 1) =? 0) with true by lia.
    + replace (j - -1) with (1 * (n + 1)) by lia. rewrite Z.mod_mul by lia. by replace (0 <? n) with true by lia.
Qed.

Lemma rotate_steps_spec n m v c k : is_width n → word n v →
  let s := Nat.iter k (rotate_step n (bits_mask n) m) (v, c) in
  word n s.1 ∧ ∀ j, 0 ≤ j ≤ n →
    carry_bit n s j = carry_bit n (v, c) ((j - (if is_rcl m then Z.of_nat k else - Z.of_nat k)) `mod` (n + 1)).
Proof.
  intros Hn Hv. pose proof (width_range n Hn). induction k as [|k [IHw IH]]; cbn [Nat.iter].
  { split; [done|]. intros j Hj. f_equal. rewrite Z.mod_small; destruct (is_rcl m); lia. }
  destruct (rotate_step_spec n m _ Hn IHw) as [Hw Hs]. split; [done|]. intros j Hj. rewrite Hs by done.
  rewrite IH. 2:{ pose proof (Z.mod_pos_bound (j - (if is_rcl m then 1 else -1)) (n + 1)). lia. }
  f_equal. rewrite Zminus_mod_idemp_l. f_equal. destruct (is_rcl m); lia.
Qed.

(** A plain rotate, bit by bit. *)
Lemma rotate_bits n v k : is_width n → word n v → 0 < k < n →
  let r := (wrap 64 (v ≪ k) .| (v ≫ (n - k))) .& bits_mask n in
  word n r ∧ ∀ j, 0 ≤ j < n → Z.testbit r j = Z.testbit v ((j - k) `mod` n).
Proof.
  intros Hn Hv Hk r. pose proof (width_range n Hn). unfold r. rewrite mask_wrap by done.
  split; [apply word_wrap; lia|]. intros j Hj. rewrite difference_mod by lia.
  rewrite wrap_testbit, bool_decide_true, Z.lor_spec, wrap_testbit, bool_decide_true by lia.
  rewrite Z.shiftl_spec, Z.shiftr_spec by lia. cbn [andb]. destruct (Z.ltb_spec (j - k) 0).
  - rewrite Z.testbit_neg_r by lia. cbn [orb]. f_equal. lia.
  - rewrite (word_testbit n v (j + (n - k))) by (done || lia). btauto.
Qed.

Lemma rotate_spec n v k m : is_width n → word n v → 0 < k →
  ∃ o, rotate v k n (bits_mask n) m = Some o ∧ affects_sign_zero_parity o = false ∧ word n (shifted o) ∧
    (∀ j, 0 ≤ j < n → Z.testbit (shifted o) j = Z.testbit v ((j - (if is_rol m then k else - k)) `mod` n)) ∧
    shift_carry o = Z.testbit (shifted o) (if is_rol m then 0 else n - 1).
Proof.
  intros Hn Hv Hk. pose proof (width_range n Hn). unfold rotate. replace (k =? 0) with false by lia.
  eexists. split; [reflexivity|]. split; [done|]. cbn [shifted shift_carry].
  pose proof (Z.mod_pos_bound k n ltac:(lia)) as Hs. set (steps := k `mod` n) in *.
  match goal with |- context [word n ?x] => set (r := x) end.
  assert (word n r ∧ ∀ j, 0 ≤ j < n →
    Z.testbit r j = Z.testbit v ((j - (if is_rol m then k else - k)) `mod` n)) as [Hw Hb].
  { assert (∀ j, (j - (if is_rol m then k else - k)) `mod` n =
      (j - (if is_rol m then steps else - steps)) `mod` n) as Ek.
    { intros j. unfold steps. destruct (is_rol m); [by rewrite Zminus_mod_idemp_r|].
      rewrite !Z.sub_opp_r. by rewrite Z.add_mod_idemp_r by lia. }
    unfold r. destruct (Z.eqb_spec steps 0) as [E0|E0].
    - split; [done|]. intros j Hj. rewrite Ek, E0. rewrite Z.mod_small; destruct (is_rol m); (done || lia || (f_equal; lia)).
    - destruct (is_rol m) eqn:Er.
      + destruct (rotate_bits n v steps Hn Hv ltac:(lia)) as [Hw Hb]. split; [done|]. intros j Hj. by rewrite Ek, Hb.
      + rewrite Z.lor_comm. destruct (rotate_bits n v (n - steps) Hn Hv ltac:(lia)) as [Hw Hb].
        replace (n - (n - steps)) with steps in * by lia. split; [done|]. intros j Hj. rewrite Ek, Hb by done.
        f_equal. replace (j - (n - steps)) with (j - - steps + (-1) * n) by lia. by rewrite Z.mod_add by lia. }
  split; [done|]. split; [done|]. destruct (is_rol m); [|by rewrite has_shift by lia].
  change 1 with (bit 0). by rewrite has_testbit by lia.
Qed.

Lemma rotate_through_spec n v k cf m : is_width n → word n v →
  if k `mod` (n + 1) =? 0 then rotate_through_carry v k n (bits_mask n) cf m = None
  else ∃ o, rotate_through_carry v k n (bits_mask n) cf m = Some o ∧
    affects_sign_zero_parity o = false ∧ word n (shifted o) ∧
    ∀ j, 0 ≤ j ≤ n → carry_bit n (shifted o, shift_carry o) j =
      carry_bit n (v, cf) ((j - (if is_rcl m then k else - k)) `mod` (n + 1)).
Proof.
  intros Hn Hv. pose proof (width_range n Hn). unfold rotate_through_carry.
  pose proof (Z.mod_pos_bound k (n + 1) ltac:(lia)) as Hs. set (steps := k `mod` (n + 1)) in *.
  destruct (Z.eqb_spec steps 0) as [E0|E0]; [done|].
  pose proof (rotate_steps_spec n m v cf (Z.to_nat steps) Hn Hv) as Hr.
  destruct (Nat.iter _ _ _) as [r c']. cbn [fst] in Hr. destruct Hr as [Hw Hb].
  eexists. split; [reflexivity|]. split; [done|]. cbn [shifted shift_carry].
  rewrite mask_wrap, wrap_small by done. split; [done|]. intros j Hj. rewrite Hb by done. f_equal.
  rewrite Z2Nat.id by lia. unfold steps. destruct (is_rcl m); [by rewrite Zminus_mod_idemp_r|].
  rewrite !Z.sub_opp_r. by rewrite Z.add_mod_idemp_r by lia.
Qed.

Section shifting.
Context {I : Type} `{Iced I} `{IcedInstruction I}.
Context {B N : Type} `{BlockBackend B} `{NetBackend N}.
Context `{Environment}.
Abbreviation Cpu := (Cpu I B N).

(** [c] with other flags. *)
Definition with_flags (f : Z) (c : Cpu) : Cpu := c <| regs ::= λ r, r <| rflags := f |> |>.

Lemma count_range (i : I) size r : 0 ≤ raw_count i r .& count_mask size < 64.
Proof.
  unfold count_mask. destruct (size =? 8).
  - change 0x3F with (Z.ones 6). rewrite keep_low by lia. apply (word_wrap 6). lia.
  - change 0x1F with (Z.ones 5). rewrite keep_low by lia. pose proof (word_wrap 5 (raw_count i r)). unfold word in *. lia.
Qed.

(** What follows the computation of the outcome. *)
Definition finish (i : I) (bits : Z) (outcome : option ShiftOutcome) : st Cpu Abort () :=
  match outcome with
  | None => sret ()
  | Some o =>
      let! _ := set_regs (λ r,
        let r := set_overflow (shift_overflow o) (set_carry (shift_carry o) r) in
        if affects_sign_zero_parity o then set_szp (shifted o) bits r else r) in
      write_operand0 i (shifted o)
  end.

Definition is_shift (m : Mnemonic.t) : bool :=
  match m with Mnemonic.Shl | Mnemonic.Shr | Mnemonic.Sar => true | _ => false end.
Definition is_rotate (m : Mnemonic.t) : bool := match m with Mnemonic.Rol | Mnemonic.Ror => true | _ => false end.
Definition is_through (m : Mnemonic.t) : bool := match m with Mnemonic.Rcl | Mnemonic.Rcr => true | _ => false end.

Lemma shift_rotate_run (i : I) (c : Cpu) v c1 :
  let m := mnemonic i in let size := operand_size i 0 in let n := size * 8 in
  let k := raw_count i (regs c1) .& count_mask size in
  is_width n → read_operand0 i c = (Ok v, c1) → word n v →
  (is_shift m = true → shift_rotate i c = finish i n (shift v k n (bits_mask n) m) c1) ∧
  (is_rotate m = true → shift_rotate i c = finish i n (rotate v k n (bits_mask n) m) c1) ∧
  (is_through m = true →
     shift_rotate i c = finish i n (rotate_through_carry v k n (bits_mask n) (carry (regs c1)) m) c1).
Proof.
  intros m size n k Hn Hv Hw. unfold shift_rotate. fold m size n.
  assert (v .& bits_mask n = v) as Ev by (rewrite mask_wrap by done; by apply wrap_small).
  destruct m; (split_and!; intros Hm; try discriminate Hm);
    rewrite (sbind_ok _ _ _ _ _ Hv), (sbind_ok get _ _ _ _ eq_refl), Ev; reflexivity.
Qed.

Lemma finish_some (i : I) n o (c1 : Cpu) : is_width n → word n (shifted o) →
  ∃ f, finish i n (Some o) c1 = write_operand0 i (shifted o) (with_flags f c1) ∧
    has f RFlags.CF = shift_carry o ∧ has f RFlags.OF = shift_overflow o ∧
    if affects_sign_zero_parity o
    then has f RFlags.ZF = (shifted o =? 0) ∧ has f RFlags.SF = (2 ^ (n - 1) <=? shifted o)
    else ∀ j, 0 ≤ j → j ≠ 0 → j ≠ 11 → has f (bit j) = has (rflags (regs c1)) (bit j).
Proof.
  intros Hn Hw. set (g := λ r, let r := set_overflow (shift_overflow o) (set_carry (shift_carry o) r) in
    if affects_sign_zero_parity o then set_szp (shifted o) n r else r).
  assert (∀ r, g r = r <| rflags := rflags (g r) |>) as Hg.
  { intros []. unfold g. by destruct (affects_sign_zero_parity o). }
  exists (rflags (g (regs c1))). split.
  { unfold finish. fold g. unfold set_regs, modify, sbind. cbn match. unfold with_flags.
    assert (c1 <| regs ::= g |> = c1 <| regs ::= λ r, r <| rflags := rflags (g (regs c1)) |> |>) as ->; [|done].
    unfold set_field at 1 2. by rewrite Hg at 1. }
  unfold g. destruct (affects_sign_zero_parity o); flags.
  - rewrite mask_wrap, wrap_small, has_sign, sign_testbit by done. done.
  - split; [done|]. split; [done|]. intros j Hj Hj0 Hj11. by rewrite !flag_other by lia.
Qed.

(** C40: shifts are exact. SHL, SHR and SAR of an [n]-bit operand by the count
    taken modulo 32, or 64 for a 64-bit operand, write the product or the floor
    quotient of the unsigned or two's complement value with a power of two,
    truncated to the width; carry is the last bit moved out, zero and sign
    describe the result, overflow of a one-bit shift is a change of sign; a zero
    count changes nothing, flags included. *)
Theorem shift_exact (i : I) (c : Cpu) v c1 :
  let m := mnemonic i in let size := operand_size i 0 in let n := size * 8 in
  let k := raw_count i (regs c1) .& count_mask size in
  is_shift m = true → is_width n → read_operand0 i c = (Ok v, c1) → word n v →
  if k =? 0 then shift_rotate i c = (Ok (), c1)
  else let '(result, out) := shift_ref m n v k in
    ∃ f, shift_rotate i c = write_operand0 i result (with_flags f c1) ∧
      has f RFlags.CF = out ∧ has f RFlags.ZF = (result =? 0) ∧
      has f RFlags.SF = (2 ^ (n - 1) <=? result) ∧
      (k = 1 → has f RFlags.OF = shift_overflows m n v).
Proof.
  intros m size n k Hm Hn Hv Hw. destruct (shift_rotate_run i c v c1 Hn Hv Hw) as (Hrun & _ & _).
  rewrite (Hrun Hm). clear Hrun. fold m size n k. pose proof (count_range i size (regs c1)) as Hk. fold k in Hk.
  destruct (Z.eqb_spec k 0) as [->|Hk0]; [done|].
  destruct (shift_spec m n v k Hn Hw ltac:(lia)) as (o & -> & Ha & Er & Ho).
  destruct (shift_ref m n v k) as [result out] eqn:E. injection Er as Eo Ec.
  assert (word n (shifted o)) as Hres.
  { rewrite Eo. pose proof (width_range n Hn). unfold shift_ref in E.
    destruct m; try discriminate Hm; injection E as <- <-; try (apply word_wrap; lia).
    rewrite <- Z.shiftr_div_pow2 by lia. apply word_shiftr; [lia|done]. }
  destruct (finish_some i n o c1 Hn Hres) as (f & -> & Hcf & Hof & Hf). rewrite Ha in Hf.
  destruct Hf as [Hzf Hsf]. exists f. rewrite <- Eo, <- Ec. split_and!; [done..|].
  intros Hk1. by rewrite Hof, Ho.
Qed.

(** rotates permute bits. ROL and ROR move bit [j] of the operand by the count
    modulo the width; RCL and RCR do the same on the ring of the operand's bits
    and the carry flag; carry ends with the bit that crossed the end, and no flag
    other than carry and overflow changes. *)
Theorem rotate_exact (i : I) (c : Cpu) v c1 :
  let m := mnemonic i in let size := operand_size i 0 in let n := size * 8 in
  let k := raw_count i (regs c1) .& count_mask size in
  let preserves (f : Z) := ∀ j, 0 ≤ j → j ≠ 0 → j ≠ 11 → has f (bit j) = has (rflags (regs c1)) (bit j) in
  is_width n → read_operand0 i c = (Ok v, c1) → word n v →
  (is_rotate m = true → if k =? 0 then shift_rotate i c = (Ok (), c1) else
    ∃ result f, shift_rotate i c = write_operand0 i result (with_flags f c1) ∧ word n result ∧
      (∀ j, 0 ≤ j < n → Z.testbit result j = Z.testbit v ((j - (if is_rol m then k else - k)) `mod` n)) ∧
      has f RFlags.CF = Z.testbit result (if is_rol m then 0 else n - 1) ∧ preserves f) ∧
  (is_through m = true → if k `mod` (n + 1) =? 0 then shift_rotate i c = (Ok (), c1) else
    ∃ result f, shift_rotate i c = write_operand0 i result (with_flags f c1) ∧ word n result ∧
      (∀ j, 0 ≤ j ≤ n → carry_bit n (result, has f RFlags.CF) j =
         carry_bit n (v, carry (regs c1)) ((j - (if is_rcl m then k else - k)) `mod` (n + 1))) ∧
      preserves f).
Proof.
  intros m size n k preserves Hn Hv Hw. destruct (shift_rotate_run i c v c1 Hn Hv Hw) as (_ & Hrot & Hthrough).
  fold m size n k in Hrot, Hthrough. pose proof (count_range i size (regs c1)) as Hk. fold k in Hk.
  split; intros Hm.
  - rewrite (Hrot Hm). destruct (Z.eqb_spec k 0) as [->|Hk0]; [done|].
    destruct (rotate_spec n v k m Hn Hw ltac:(lia)) as (o & -> & Ha & Hres & Hb & Hc).
    destruct (finish_some i n o c1 Hn Hres) as (f & -> & Hcf & _ & Hf). rewrite Ha in Hf.
    exists (shifted o), f. split_and!; [done..| |done]. by rewrite Hcf.
  - rewrite (Hthrough Hm). pose proof (rotate_through_spec n v k (carry (regs c1)) m Hn Hw) as Hr.
    destruct (k `mod` (n + 1) =? 0); [by rewrite Hr|]. destruct Hr as (o & -> & Ha & Hres & Hb).
    destruct (finish_some i n o c1 Hn Hres) as (f & -> & Hcf & _ & Hf). rewrite Ha in Hf.
    exists (shifted o), f. rewrite Hcf. by split_and!.
Qed.
End shifting.

(** ** Instances *)

Definition shift_demo (rax rcx : Z) : Cpu Raw VecBlockBackend Recorder :=
  (with_registers rax 0 0) <| regs ::= λ r, r <| gpr ::= <[RCX := rcx]> |> |>.

(** [sar rax, cl] of -15 by 3 rounds down to -2 and moves out a zero. *)
Lemma shift_exact_witness :
  ∃ f, shift_rotate (three 0x48 0xD3 0xF8) (shift_demo (2 ^ 64 - 15) 3)
    = write_operand0 (three 0x48 0xD3 0xF8) (2 ^ 64 - 2) (with_flags f (shift_demo (2 ^ 64 - 15) 3)) ∧
    has f RFlags.CF = false ∧ has f RFlags.SF = true.
Proof.
  destruct (shift_exact (three 0x48 0xD3 0xF8) (shift_demo (2 ^ 64 - 15) 3) (2 ^ 64 - 15)
    (shift_demo (2 ^ 64 - 15) 3)) as (f & E & Ec & _ & Es & _).
  - reflexivity.
  - unfold is_width. set_solver.
  - reflexivity.
  - by apply word_const.
  - exists f. split; [exact E|]. split; [exact Ec|exact Es].
Defined.

(** [rcl rax, cl] by one moves the top bit to the carry. *)
Lemma rotate_exact_witness :
  ∃ result f, shift_rotate (three 0x48 0xD3 0xD0) (shift_demo (2 ^ 63) 1)
    = write_operand0 (three 0x48 0xD3 0xD0) result (with_flags f (shift_demo (2 ^ 63) 1)) ∧
    has f RFlags.CF = true ∧ Z.testbit result 0 = false.
Proof.
  destruct (rotate_exact (three 0x48 0xD3 0xD0) (shift_demo (2 ^ 63) 1) (2 ^ 63) (shift_demo (2 ^ 63) 1))
    as [_ Hthrough].
  - unfold is_width. set_solver.
  - reflexivity.
  - by apply word_const.
  - destruct (Hthrough eq_refl) as (result & f & E & _ & Hb & _). exists result, f. split; [exact E|]. split.
    + exact (Hb 64 ltac:(split; vm_compute; congruence)).
    + exact (Hb 0 ltac:(split; vm_compute; congruence)).
Defined.
