(* ===== verification/DataMove.v ===== *)
(** Data movement and string instructions, [rish-softvm-core/src/ops/data.rs] and
    [ops/string.rs].

    [physical + 8] in [cmpxchg8b] cannot overflow, because a physical address is
    below [2 ^ 52] or, without paging, any 64-bit value whose load fails first; it
    is written without a wrap.

    The theorems on repeated string instructions are in [Strings]; [Restart] covers
    the faults of all of them. *)
From stdpp Require Import strings.
From S2P Require Import Prelude.
From S2P Require Import Ports.
From S2P Require Import VirtQueue.
From S2P Require Import VirtioBlk.
From S2P Require Import VirtioNet.
From S2P Require Import Memory.
From S2P Require Import Registers.
From S2P Require Import Paging.
From S2P Require Import Tlb.
From S2P Require Import Decode.
From S2P Require Import Cpu.
From S2P Require Import Interrupts.
From S2P Require Import Operands.
From S2P Require Import Arithmetic.
From S2P Require Import Branch.
Local Open Scope Z_scope.

Definition write_accumulator (size value : Z) (r : Registers) : Registers :=
  match size with
  | 1 => write_register Reg.AL 1 value r
  | 2 => write_register Reg.AX 2 value r
  | 4 => write_register Reg.EAX 4 value r
  | _ => write_register Reg.RAX 8 value r
  end.

Section data.
Context {I : Type} `{Iced I} `{IcedInstruction I}.
Context {B N : Type} `{BlockBackend B} `{NetBackend N}.
Context `{Environment}.
Abbreviation Cpu := (Cpu I B N).
Abbreviation M A := (st Cpu Abort A).

(** A load or a store of [size] bytes, 8 for sizes not listed. *)
Definition load_sized (physical size : Z) : M Z :=
  match size with
  | 1 => load_mem (read_u8 physical)
  | 2 => load_mem (read_u16 physical)
  | 4 => load_mem (read_u32 physical)
  | 8 => load_mem (read_u64 physical)
  | _ => sfail Panic
  end.
Definition store_sized (physical size value : Z) : M () :=
  match size with
  | 1 => store_mem (write_u8 physical (wrap 8 value))
  | 2 => store_mem (write_u16 physical (wrap 16 value))
  | 4 => store_mem (write_u32 physical (wrap 32 value))
  | 8 => store_mem (write_u64 physical value)
  | _ => sfail Panic
  end.

Definition mov (i : I) : M () :=
  if is_segment (op_register i 1) then
    let! c := get in
    write_operand0 i (segment_selector (segment_of (op_register i 1)) (regs c))
  else if is_segment (op_register i 0) then
    let! value := read_operand1 i in
    let! loaded := load_segment_from_table (wrap 16 value) in
    match segment_of (op_register i 0) with
    | CS => raise 13 0 true
    | segment => set_regs (set_segment segment loaded)
    end
  else
    match code i with
    | Code.Mov_moffs8_AL | Code.Mov_moffs16_AX | Code.Mov_moffs32_EAX | Code.Mov_moffs64_RAX =>
        let size := memory_size i in
        let! c := get in
        let value := read_accumulator (regs c) size in
        let! physical := translate (memory_displacement64 i) Write in
        store_sized physical size value
    | Code.Mov_AL_moffs8 | Code.Mov_AX_moffs16 | Code.Mov_EAX_moffs32 | Code.Mov_RAX_moffs64 =>
        let size := memory_size i in
        let! physical := translate (memory_displacement64 i) Read in
        let! value := load_sized physical size in
        set_regs (write_accumulator size value)
    | Code.Other =>
        let! value := read_operand1 i in
        write_operand0 i value
    end.

Definition lea (i : I) : M () :=
  let! c := get in
  set_regs (write_register (op_register i 0) (operand_size i 0) (effective_address i c)).

Definition movx (i : I) : M () :=
  let source_size :=
    match mnemonic i with
    | Mnemonic.Movzx | Mnemonic.Movsx =>
        match op_kind i 1 with
        | OpKind.Register => register_size (op_register i 1)
        | _ =>
            match instruction_memory_size i with
            | MemorySize.UInt8 | MemorySize.Int8 => 1
            | MemorySize.UInt16 | MemorySize.Int16 => 2
            | _ => 4
            end
        end
    | _ => 4
    end in
  let! value :=
    if is_memory (op_kind i 1) then read_operand i source_size
    else sread (λ c, Ok (read_register (regs c) (op_register i 1) source_size)) in
  let value :=
    match mnemonic i with
    | Mnemonic.Movsx | Mnemonic.Movsxd => wrap 64 (sign_extend value source_size)
    | _ => value
    end in
  set_regs (write_register (op_register i 0) (operand_size i 0) value).

(** The second operand of an exchange. *)
Definition write_operand1 (i : I) (size value : Z) : M () :=
  if is_memory (op_kind i 1) then write_operand i (memory_size i) value
  else set_regs (write_register (op_register i 1) size value).

Definition xchg (i : I) : M () :=
  let size := operand_size i 0 in
  let! lhs := read_operand0 i in
  let! rhs := read_operand1 i in
  let! _ := write_operand0 i rhs in
  write_operand1 i size lhs.

Definition xadd (i : I) : M () :=
  let size := operand_size i 0 in
  let! lhs := read_operand0 i in
  let! rhs := read_operand1 i in
  let sum := add_with_flags lhs rhs false (size * 8) in
  let! _ := set_regs (set_arithmetic sum (size * 8)) in
  let! _ := write_operand0 i (computed sum) in
  write_operand1 i size lhs.

Definition cmpxchg (i : I) : M () :=
  let size := operand_size i 0 in
  let! c := get in
  let accumulator := read_accumulator (regs c) size in
  let! destination := read_operand0 i in
  let! source := read_operand1 i in
  let flags := sub_with_flags accumulator destination false (size * 8) in
  let! _ := set_regs (set_arithmetic flags (size * 8)) in
  if accumulator =? destination then write_operand0 i source
  else set_regs (write_accumulator size destination).

Definition cmpxchg8b (i : I) : M () :=
  let wide := memory_size i =? 16 in
  let! c := get in
  let pick (wide_register narrow_register : Register) : Z :=
    if wide then read_register (regs c) wide_register 8 else read_register (regs c) narrow_register 4 in
  let low := pick Reg.RAX Reg.EAX in
  let high := pick Reg.RDX Reg.EDX in
  let linear := effective_address i c in
  let! physical := translate linear Read in
  let! memory_low := if wide then load_mem (read_u64 physical) else load_mem (read_u32 physical) in
  let! memory_high := if wide then load_mem (read_u64 (physical + 8)) else load_mem (read_u32 (physical + 4)) in
  let equal := (memory_low =? low) && (memory_high =? high) in
  let! _ := set_regs (set_flag RFlags.ZF equal) in
  if equal then
    let new_low := pick Reg.RBX Reg.EBX in
    let new_high := pick Reg.RCX Reg.ECX in
    let! physical := translate linear Write in
    if wide then
      let! _ := store_mem (write_u64 physical new_low) in
      store_mem (write_u64 (physical + 8) new_high)
    else
      let! _ := store_mem (write_u32 physical (wrap 32 new_low)) in
      store_mem (write_u32 (physical + 4) (wrap 32 new_high))
  else
    set_regs (λ r,
      write_register (if wide then Reg.RDX else Reg.EDX) (if wide then 8 else 4) memory_high
        (write_accumulator (if wide then 8 else 4) memory_low r)).

Definition xlatb (i : I) : M () :=
  let! c := get in
  let al := read_register (regs c) Reg.AL 1 in
  let base := read_register (regs c) Reg.RBX 8 in
  let! physical := translate (wrapping_add 64 base al) Read in
  let! value := load_mem (read_u8 physical) in
  set_regs (write_register Reg.AL 1 value).

(** ** [ops/string.rs] *)

Definition read_string_value (address size : Z) : M Z :=
  let! bytes := read_linear_bytes address size in
  sret (from_le_bytes (splice (replicate 8 0) 0 bytes)).

Definition advance_rsi (direction : Z) (r : Registers) : Registers :=
  r <| gpr ::= λ g, <[RSI := wrapping_add 64 (g !!! RSI) (wrap 64 direction)]> g |>.
Definition advance_rdi (direction : Z) (r : Registers) : Registers :=
  r <| gpr ::= λ g, <[RDI := wrapping_add 64 (g !!! RDI) (wrap 64 direction)]> g |>.
Definition advance_both (direction : Z) (r : Registers) : Registers :=
  advance_rdi direction (advance_rsi direction r).
Definition decrement_counter (repeated : bool) (r : Registers) : Registers :=
  if repeated then r <| gpr ::= λ g, <[RCX := wrapping_sub 64 (g !!! RCX) 1]> g |> else r.

(** The kinds of string instruction, by what one element does. *)
Inductive string_kind := Movs | Stos | Lods | Scas | Cmps.
Definition string_kind_of (m : Mnemonic.t) : option string_kind :=
  match m with
  | Mnemonic.Movsb | Mnemonic.Movsw | Mnemonic.Movsd | Mnemonic.Movsq => Some Movs
  | Mnemonic.Stosb | Mnemonic.Stosw | Mnemonic.Stosd | Mnemonic.Stosq => Some Stos
  | Mnemonic.Lodsb | Mnemonic.Lodsw | Mnemonic.Lodsd | Mnemonic.Lodsq => Some Lods
  | Mnemonic.Scasb | Mnemonic.Scasw | Mnemonic.Scasd | Mnemonic.Scasq => Some Scas
  | Mnemonic.Cmpsb | Mnemonic.Cmpsw | Mnemonic.Cmpsd | Mnemonic.Cmpsq => Some Cmps
  | _ => None
  end.

(** One round of the loop: an element, the pointers and the counter. The
    accumulator of STOS and SCAS is read before the loop. *)
Definition string_element (kind : string_kind) (size direction accumulator : Z) (repeated : bool) : M () :=
  let! c := get in
  let source := gpr (regs c) !!! RSI in
  let destination := gpr (regs c) !!! RDI in
  let step (f : Registers → Registers) : M () := set_regs (λ r, decrement_counter repeated (f r)) in
  match kind with
  | Movs =>
      let! bytes := read_linear_bytes source size in
      let! _ := write_linear_bytes destination bytes in
      step (advance_both direction)
  | Stos =>
      let! _ := write_linear_bytes destination (take (Z.to_nat size) (to_le_bytes 8 accumulator)) in
      step (advance_rdi direction)
  | Lods =>
      let! value := read_string_value source size in
      let! _ := set_regs (write_accumulator size value) in
      step (advance_rsi direction)
  | Scas =>
      let! value := read_string_value destination size in
      let flags := sub_with_flags accumulator value false (size * 8) in
      let! _ := set_regs (set_arithmetic flags (size * 8)) in
      step (advance_rdi direction)
  | Cmps =>
      let! lhs := read_string_value source size in
      let! rhs := read_string_value destination size in
      let flags := sub_with_flags lhs rhs false (size * 8) in
      let! _ := set_regs (set_arithmetic flags (size * 8)) in
      step (advance_both direction)
  end.

(** Whether a comparison ends the loop. *)
Definition string_break (kind : string_kind) (repe repne : bool) (r : Registers) : bool :=
  match kind with
  | Scas | Cmps => (repe && negb (has (rflags r) RFlags.ZF)) || (repne && has (rflags r) RFlags.ZF)
  | _ => false
  end.

Fixpoint string_loop (count : nat) (kind : string_kind) (size direction accumulator : Z)
    (repeated repe repne : bool) : M () :=
  match count with
  | O => sret ()
  | S count =>
      let! _ := string_element kind size direction accumulator repeated in
      let! c := get in
      if string_break kind repe repne (regs c) then sret ()
      else string_loop count kind size direction accumulator repeated repe repne
  end.

(** The count register of the mode. *)
Definition string_count (r : Registers) : Z :=
  let counter := read_register r Reg.RCX 8 in
  match mode r with
  | Real | Protected16 => counter .& 0xFFFF
  | Protected32 => counter .& 0xFFFFFFFF
  | Long => counter
  end.

Definition string_op (i : I) : M () :=
  let! c := get in
  let size := memory_size i in
  let direction := if has (rflags (regs c)) RFlags.DF then - size else size in
  let rep := has_rep_prefix i in
  let repe := has_repe_prefix i in
  let repne := has_repne_prefix i in
  let repeated := rep || repe || repne in
  let count := if repeated then string_count (regs c) else 1 in
  match string_kind_of (mnemonic i) with
  | Some kind =>
      string_loop (Z.to_nat count) kind size direction (read_accumulator (regs c) size)
        repeated repe repne
  | None => sret ()
  end.

End data.
