(* ===== verification/Execute.v ===== *)
(** The interpreter loop, [rish-softvm-core/src/cpu/mod.rs]: fetch through the
    decode cache, dispatch, restart after a page fault, and the step that
    interleaves instructions with interrupts and devices.

    [dispatch] routes the instruction families that are modelled; the others
    (SSE, x87 and system instructions) are a parameter. The instruction trace is
    off, as it is by default. The loop of [execute_one] has no bound in the
    source, because a fault handler may fault again on its own fetch; it takes
    fuel here and answers [None] when the fuel runs out. *)
From stdpp Require Import strings.
From S2P Require Import Prelude.
From S2P Require Import Pic8259.
From S2P Require Import Pit8254.
From S2P Require Import Ports.
From S2P Require Import VirtQueue.
From S2P Require Import VirtioBlk.
From S2P Require Import VirtioNet.
From S2P Require Import Memory.
From S2P Require Import Registers.
From S2P Require Import Paging.
From S2P Require Import Tlb.
From S2P Require Import Decode.
From S2P Require Import Cpu.
From S2P Require Import Interrupts.
From S2P Require Import Operands.
From S2P Require Import Arithmetic.
From S2P Require Import Branch.
From S2P Require Import Logic.
From S2P Require Import DataMove.
Local Open Scope Z_scope.

Section execute.
Context {I : Type} `{Iced I} `{IcedInstruction I}.
Context {B N : Type} `{BlockBackend B} `{NetBackend N}.
Context `{Environment}.
Abbreviation Cpu := (Cpu I B N).
Abbreviation M A := (st Cpu Abort A).
(** The families of [dispatch] that are not modelled. *)
Context (other_op : I → M ()).

Definition decode_environment (r : Registers) : Z * Z :=
  match mode r with
  | Real | Protected16 => (16, rip r .& 0xFFFF)
  | Protected32 => (32, rip r .& 0xFFFFFFFF)
  | Long => (64, rip r)
  end.

Definition decode_execution_context (bitness : Z) (r : Registers) : Z :=
  let context := bitness .| (cpl r ≪ 8) in
  let context := if has (cr0 r) Cr0.PG then context .| bit 10 else context in
  let context := if has (cr4 r) Cr4.SMEP then context .| bit 11 else context in
  if has (efer r) Efer.NXE then context .| bit 12 else context.

(** The rest of a fetch window that crosses a page; each round reads at least one
    byte, so fifteen rounds are enough. *)
Fixpoint fetch_rest (fuel : nat) (linear fetched : Z) : M (list Z) :=
  match fuel with
  | O => sret []
  | S fuel =>
      if fetched <? MAX_INSTRUCTION_BYTES then
        let! physical := translate (wrapping_add 64 linear fetched) Execute in
        let count := Z.min (MAX_INSTRUCTION_BYTES - fetched) (4096 - (physical .& 0xFFF)) in
        let! bytes := load_mem (Memory.read physical count) in
        let! rest := fetch_rest fuel linear (fetched + count) in
        sret (bytes ++ rest)
      else sret []
  end.

(** The fifteen bytes at [linear], whose first byte is at [first]. *)
Definition read_window (linear first : Z) : M (list Z) :=
  let in_page := 4096 - (first .& 0xFFF) in
  if MAX_INSTRUCTION_BYTES <=? in_page then load_mem (Memory.read first MAX_INSTRUCTION_BYTES)
  else
    let! head := load_mem (Memory.read first in_page) in
    let! rest := fetch_rest 15 linear in_page in
    sret (head ++ rest).

Definition decode_cache {A} (f : DecodeCache I → A * DecodeCache I) : M A := λ c,
  let '(a, d) := f (decoded c) in (Ok a, c <| decoded := d |>).

Definition fetch : M I :=
  let! c := get in
  let '(bitness, ip) := decode_environment (regs c) in
  let linear := wrapping_add 64 (code_base (regs c)) ip in
  let translation_epoch := Tlb.epoch (tlb c) in
  let execution_context := decode_execution_context bitness (regs c) in
  let! cached :=
    if tlb_disabled then sret None
    else decode_cache (Decode.lookup_mapped (memory c) ip linear translation_epoch execution_context) in
  match cached with
  | Some i => sret i
  | None =>
      let! first := translate linear Execute in
      let single_page := MAX_INSTRUCTION_BYTES <=? 4096 - (first .& 0xFFF) in
      let cacheable :=
        single_page && (first <=? saturating_sub (len (ram (memory c))) MAX_INSTRUCTION_BYTES) in
      let mapping := mkMapping ip linear first (Memory.page_generation first (memory c))
                       translation_epoch execution_context in
      let! found := if cacheable then decode_cache (Decode.lookup mapping) else sret None in
      match found with
      | Some i => sret i
      | None =>
          let! window := read_window linear first in
          let i := decode_window bitness window ip in
          if is_invalid i then sfail (Fail (UnimplementedInstruction "invalid" (rip (regs c)) window))
          else
            let! _ :=
              if cacheable then modify (λ c, c <| decoded ::= Decode.insert mapping i |>)
              else sret () in
            sret i
      end
  end.

Definition read_fetch_window (instruction_pointer : Z) : M (list Z) :=
  let! c := get in
  let ip :=
    match (decode_environment (regs c)).1 with
    | 16 => instruction_pointer .& 0xFFFF
    | 32 => instruction_pointer .& 0xFFFFFFFF
    | _ => instruction_pointer
    end in
  let linear := wrapping_add 64 (code_base (regs c)) ip in
  let! first := translate linear Execute in
  read_window linear first.

Definition memory_kind (kind : OpKind.t) : bool :=
  match kind with
  | OpKind.Memory | OpKind.MemorySegSI | OpKind.MemorySegESI | OpKind.MemorySegRSI
  | OpKind.MemoryESDI | OpKind.MemoryESEDI | OpKind.MemoryESRDI => true
  | _ => false
  end.

Definition may_fault (i : I) : bool :=
  existsb (λ k, memory_kind (op_kind i k)) (seqZ 0 (op_count i))
  || match mnemonic i with
     | Mnemonic.Push | Mnemonic.Lsl | Mnemonic.Pop | Mnemonic.Call | Mnemonic.Ret | Mnemonic.Retf
     | Mnemonic.Leave | Mnemonic.Enter | Mnemonic.Pushf | Mnemonic.Pushfd | Mnemonic.Pushfq
     | Mnemonic.Popf | Mnemonic.Popfd | Mnemonic.Popfq | Mnemonic.Pusha | Mnemonic.Pushad
     | Mnemonic.Popa | Mnemonic.Popad | Mnemonic.Iret | Mnemonic.Iretd | Mnemonic.Iretq
     | Mnemonic.Int | Mnemonic.Int3 | Mnemonic.Int1 | Mnemonic.Into | Mnemonic.Bound
     | Mnemonic.Xsave | Mnemonic.Xsave64 | Mnemonic.Xsavec | Mnemonic.Xsavec64
     | Mnemonic.Xsaves | Mnemonic.Xsaves64 | Mnemonic.Xrstor | Mnemonic.Xrstor64
     | Mnemonic.Xrstors | Mnemonic.Xrstors64 | Mnemonic.Fxsave | Mnemonic.Fxsave64
     | Mnemonic.Fxrstor | Mnemonic.Fxrstor64 => true
     | _ => false
     end.

Definition is_xmm_register (register : Register) : bool :=
  match register with Reg.XMM n => n <? 16 | _ => false end.
Definition is_control_register (register : Register) : bool :=
  match register with Reg.CR n => bool_decide (n ∈ [0; 2; 3; 4; 8]) | _ => false end.
Definition is_debug_register (register : Register) : bool :=
  match register with Reg.DR n => bool_decide (n ∈ [0; 1; 2; 3; 6; 7]) | _ => false end.

Definition dispatch (i : I) : M () :=
  match mnemonic i with
  | Mnemonic.Nop | Mnemonic.Pause => sret ()
  | Mnemonic.Mov =>
      if is_control_register (op_register i 0) || is_control_register (op_register i 1)
         || is_debug_register (op_register i 0) || is_debug_register (op_register i 1)
      then other_op i else mov i
  | Mnemonic.Lea => lea i
  | Mnemonic.Movzx | Mnemonic.Movsx | Mnemonic.Movsxd => movx i
  | Mnemonic.Xchg => xchg i
  | Mnemonic.Xadd => xadd i
  | Mnemonic.Cmpxchg => cmpxchg i
  | Mnemonic.Cmpxchg8b | Mnemonic.Cmpxchg16b => cmpxchg8b i
  | Mnemonic.Xlatb => xlatb i
  | Mnemonic.Add => add i
  | Mnemonic.Sub => sub i
  | Mnemonic.Cmp => cmp i
  | Mnemonic.Adc | Mnemonic.Sbb => adc_sbb i
  | Mnemonic.Inc | Mnemonic.Dec => inc_dec i
  | Mnemonic.Neg => neg i
  | Mnemonic.Mul | Mnemonic.Imul | Mnemonic.Div | Mnemonic.Idiv => mul_div i
  | Mnemonic.Cbw | Mnemonic.Cwde | Mnemonic.Cdqe | Mnemonic.Cwd | Mnemonic.Cdq | Mnemonic.Cqo => convert i
  | Mnemonic.And | Mnemonic.Or | Mnemonic.Xor => and_or_xor i
  | Mnemonic.Test => test i
  | Mnemonic.Not | Mnemonic.Shl | Mnemonic.Shr | Mnemonic.Sar | Mnemonic.Rol | Mnemonic.Ror
  | Mnemonic.Rcl | Mnemonic.Rcr => shift_rotate i
  | Mnemonic.Bsf | Mnemonic.Bsr | Mnemonic.Tzcnt | Mnemonic.Lzcnt | Mnemonic.Bt | Mnemonic.Bts
  | Mnemonic.Btr | Mnemonic.Btc => bit_scan_test i
  | Mnemonic.Push | Mnemonic.Pop | Mnemonic.Pushf | Mnemonic.Pushfq | Mnemonic.Pushfd
  | Mnemonic.Popf | Mnemonic.Popfq | Mnemonic.Popfd | Mnemonic.Enter | Mnemonic.Leave => push_pop i
  | Mnemonic.Jmp | Mnemonic.Loop | Mnemonic.Loope | Mnemonic.Loopne | Mnemonic.Jcxz
  | Mnemonic.Jecxz | Mnemonic.Jrcxz => jump i
  | Mnemonic.Call => call i
  | Mnemonic.Ret | Mnemonic.Retf => ret i
  | Mnemonic.Jo | Mnemonic.Jno | Mnemonic.Jb | Mnemonic.Jae | Mnemonic.Je | Mnemonic.Jne
  | Mnemonic.Jbe | Mnemonic.Ja | Mnemonic.Js | Mnemonic.Jns | Mnemonic.Jp | Mnemonic.Jnp
  | Mnemonic.Jl | Mnemonic.Jge | Mnemonic.Jle | Mnemonic.Jg => jcc i
  | Mnemonic.Seto | Mnemonic.Setno | Mnemonic.Setb | Mnemonic.Setae | Mnemonic.Sete
  | Mnemonic.Setne | Mnemonic.Setbe | Mnemonic.Seta | Mnemonic.Sets | Mnemonic.Setns
  | Mnemonic.Setp | Mnemonic.Setnp | Mnemonic.Setl | Mnemonic.Setge | Mnemonic.Setle
  | Mnemonic.Setg => setcc i
  | Mnemonic.Cmovo | Mnemonic.Cmovno | Mnemonic.Cmovb | Mnemonic.Cmovae | Mnemonic.Cmove
  | Mnemonic.Cmovne | Mnemonic.Cmovbe | Mnemonic.Cmova | Mnemonic.Cmovs | Mnemonic.Cmovns
  | Mnemonic.Cmovp | Mnemonic.Cmovnp | Mnemonic.Cmovl | Mnemonic.Cmovge | Mnemonic.Cmovle
  | Mnemonic.Cmovg => cmovcc i
  | Mnemonic.Stc | Mnemonic.Clc | Mnemonic.Cmc | Mnemonic.Cld | Mnemonic.Std | Mnemonic.Cli
  | Mnemonic.Sti | Mnemonic.Sahf | Mnemonic.Lahf => flag_ops i
  | Mnemonic.Movsd | Mnemonic.Cmpsd =>
      if is_xmm_register (op_register i 0) || is_xmm_register (op_register i 1)
      then other_op i else string_op i
  | Mnemonic.Movsb | Mnemonic.Movsw | Mnemonic.Movsq
  | Mnemonic.Stosb | Mnemonic.Stosw | Mnemonic.Stosd | Mnemonic.Stosq
  | Mnemonic.Lodsb | Mnemonic.Lodsw | Mnemonic.Lodsd | Mnemonic.Lodsq
  | Mnemonic.Scasb | Mnemonic.Scasw | Mnemonic.Scasd | Mnemonic.Scasq
  | Mnemonic.Cmpsb | Mnemonic.Cmpsw | Mnemonic.Cmpsq => string_op i
  | _ => other_op i
  end.

(** ** The loop *)

(** The result of a computation as a value, for [match]. *)
Definition catch {A} (k : M A) : M (result Abort A) := λ c, let '(r, c) := k c in (Ok r, c).

Definition set_cr2 (linear : Z) : M () := set_regs (λ r, r <| cr2 := linear |>).

(** One round of the loop of [execute_one]: [true] to go round again. *)
Definition attempt : M bool :=
  let! _ := modify (λ c, c <| instruction_start := rip (regs c) |>) in
  let! fetched := catch fetch in
  match fetched with
  | Err (Fail (Ports.PageFault linear code)) =>
      let! _ := set_cr2 linear in
      let! _ := raise VECTOR_PAGE_FAULT code true in
      sret true
  | Err e => sfail e
  | Ok i =>
      let length := instruction_len i in
      let! c := get in
      let snapshot := if may_fault i then Some (gpr (regs c), rflags (regs c)) else None in
      let! _ := set_regs (λ r, r <| rip ::= λ x, wrapping_add 64 x length |>) in
      let! done := catch (dispatch i) in
      match done with
      | Err (Fail (Ports.PageFault linear code)) =>
          let! _ := set_regs (λ r,
            match snapshot with
            | Some (g, f) => r <| gpr := g |> <| rflags := f |>
            | None => r
            end) in
          let! _ := set_regs (λ r, r <| rip ::= λ x, wrapping_sub 64 x length |>) in
          let! _ := set_cr2 linear in
          let! _ := raise VECTOR_PAGE_FAULT code true in
          sret true
      | Err (Fail (UnimplementedInstruction name address _)) =>
          let! c := get in
          let! window := catch (read_fetch_window (instruction_start c)) in
          let bytes := match window with Ok bytes => bytes | Err _ => replicate 15 0 end in
          sfail (Fail (UnimplementedInstruction name address bytes))
      | Err e => sfail e
      | Ok _ => sret false
      end
  end.

Fixpoint execute_one (fuel : nat) (c : Cpu) : option (result Abort () * Cpu) :=
  match fuel with
  | O => None
  | S fuel =>
      match attempt c with
      | (Ok true, c) => execute_one fuel c
      | (Ok false, c) => Some (Ok (), c)
      | (Err e, c) => Some (Err e, c)
      end
  end.

(** What follows an executed instruction. *)
Definition retire (now : Z) (c : Cpu) : Cpu :=
  let c := c <| regs ::= λ r, r <| instructions_retired ::= λ n, saturating_add 64 n 1 |> |>
             <| tsc ::= λ t, saturating_add 64 t 1 |>
             <| device_countdown ::= λ n, n - 1 |> in
  if device_countdown c =? 0
  then service_devices now DEVICE_TICK_INTERVAL (c <| device_countdown := DEVICE_TICK_INTERVAL |>)
  else c.

(** One tick of a sleeping CPU. *)
Definition idle (now : Z) (c : Cpu) : Cpu :=
  service_devices now DEVICE_TICK_INTERVAL (c <| tsc ::= λ t, saturating_add 64 t DEVICE_TICK_INTERVAL |>).

Definition step (fuel : nat) (now : Z) (c : Cpu) : option (result Abort () * Cpu) :=
  if halted c then Some (Err (Fail Halted), c)
  else
    match (if interrupt_shadow c then (Ok (), c <| interrupt_shadow := false |>) else deliver_pending c) with
    | (Err e, c) => Some (Err e, c)
    | (Ok _, c) =>
        if waiting_for_interrupt c then Some (Ok (), idle now c)
        else
          match execute_one fuel c with
          | Some (Ok _, c) => Some (Ok (), retire now c)
          | other => other
          end
    end.

(** [executed] of [limit] steps done; [clock] gives the host time of each step. *)
Fixpoint run_loop (count : nat) (executed : Z) (fuel : nat) (clock : Z → Z) (c : Cpu)
    : option (result Abort Z * Cpu) :=
  match count with
  | O => Some (Ok executed, c)
  | S count =>
      if halted c then Some (Ok executed, c)
      else
        match step fuel (clock executed) c with
        | Some (Ok _, c) => run_loop count (executed + 1) fuel clock c
        | Some (Err e, c) => Some (Err e, c)
        | None => None
        end
  end.
Definition run_instructions (limit : Z) (fuel : nat) (clock : Z → Z) (c : Cpu)
    : option (result Abort Z * Cpu) := run_loop (Z.to_nat limit) 0 fuel clock c.

End execute.
