(* ===== verification/Restart.v ===== *)
(** Restartable faults: an instruction that takes a page fault leaves no trace in
    the registers, [execute_one] of [rish-softvm-core/src/cpu/mod.rs].

    The handlers are classified by what they may have changed when they return:
    [quiet] ones nothing of the register state, [soft] ones at most the
    general-purpose file and the flags; [calm] ones never return a page fault.
    The snapshot taken by [execute_one] then restores the registers of every
    handler that faults. *)
From stdpp Require Import strings.
From S2P Require Import Prelude.
From S2P Require Import Ports.
From S2P Require Import VirtQueue.
From S2P Require Import VirtioBlk.
From S2P Require Import VirtioNet.
From S2P Require Import Memory.
From S2P Require Import Registers.
From S2P Require Import Paging.
From S2P Require Import Tlb.
From S2P Require Import Decode.
From S2P Require Import Cpu.
From S2P Require Import Interrupts.
From S2P Require Import Operands.
From S2P Require Import Arithmetic.
From S2P Require Import Branch.
From S2P Require Import Logic.
From S2P Require Import DataMove.
From S2P Require Import Execute.
Local Open Scope Z_scope.

Section effects.
Context {I : Type} `{Iced I} `{IcedInstruction I}.
Context {B N : Type} `{BlockBackend B} `{NetBackend N}.
Context `{Environment}.
Abbreviation Cpu := (Cpu I B N).
Abbreviation M A := (st Cpu Abort A).
Implicit Types c : Cpu.

(** The state a restart depends on beside the registers. *)
Record same_frame c c' : Prop := mk_same_frame {
  sf_start : instruction_start c' = instruction_start c;
  sf_exception : in_exception c' = in_exception c;
  sf_double : in_double_fault c' = in_double_fault c
}.
(** Registers that differ at most in the file and the flags. *)
Definition kept (r r' : Registers) : Prop := r' = r <| gpr := gpr r' |> <| rflags := rflags r' |>.
Definition same c c' : Prop := regs c' = regs c ∧ same_frame c c'.
Definition softens c c' : Prop :=
  kept (regs c) (regs c') ∧ same_frame c c'.

Definition quiet {A} (k : M A) : Prop := ∀ c, same c (k c).2.
Definition soft {A} (k : M A) : Prop := ∀ c, softens c (k c).2.
Definition is_page_fault {A} (r : result Abort A) : bool :=
  match r with Err (Fail (Ports.PageFault _ _)) => true | _ => false end.
Definition calm {A} (k : M A) : Prop := ∀ c, is_page_fault (k c).1 = false.
(** What a handler owes to [execute_one] when it returns a page fault, with and
    without a snapshot. *)
Definition restartable {A} (k : M A) : Prop := ∀ c, is_page_fault (k c).1 = true → softens c (k c).2.
Definition frozen {A} (k : M A) : Prop := ∀ c, is_page_fault (k c).1 = true → same c (k c).2.

#[local] Instance same_frame_refl : Reflexive same_frame.
Proof. by intros c. Qed.
#[local] Instance same_frame_trans : Transitive same_frame.
Proof. intros c1 c2 c3 [] []. split; congruence. Qed.
#[local] Instance same_refl : Reflexive same.
Proof. by intros c. Qed.
#[local] Instance same_trans : Transitive same.
Proof. intros c1 c2 c3 [E1 F1] [E2 F2]. split; [congruence|by etrans]. Qed.
Lemma kept_refl r : kept r r.
Proof. by destruct r. Qed.
Lemma kept_trans r1 r2 r3 : kept r1 r2 → kept r2 r3 → kept r1 r3.
Proof. unfold kept. intros E2 E3. rewrite E3, E2. by destruct r1. Qed.
Lemma kept_restore r r' : kept r r' → r' <| gpr := gpr r |> <| rflags := rflags r |> = r.
Proof. intros ->. by destruct r. Qed.
Lemma kept_gpr r r' g : kept r r' → kept r (r' <| gpr := g |>).
Proof. intros E. eapply kept_trans; [exact E|]. by destruct r'. Qed.
Lemma kept_file r r' f : kept r r' → kept r (r' <| gpr ::= f |>).
Proof. apply kept_gpr. Qed.
Lemma kept_flag r r' mask v : kept r r' → kept r (set_flag mask v r').
Proof. intros E. eapply kept_trans; [exact E|]. unfold set_flag. destruct r', v; reflexivity. Qed.
Lemma kept_register r r' register size v : kept r r' → kept r (write_register register size v r').
Proof.
  intros E. eapply kept_trans; [exact E|]. unfold write_register. repeat case_match; by destruct r'.
Qed.
Lemma same_softens c c' : same c c' → softens c c'.
Proof. intros [E F]. split; [|done]. rewrite E. apply kept_refl. Qed.
#[local] Instance softens_refl : Reflexive softens.
Proof. intros c. by apply same_softens. Qed.
#[local] Instance softens_trans : Transitive softens.
Proof.
  intros c1 c2 c3 [E1 F1] [E2 F2]. split; [|by etrans]. by eapply kept_trans.
Qed.

(** Sequencing. *)
Lemma bind_rel {A C} (R : Cpu → Cpu → Prop) `{!Transitive R} (k : M A) (f : A → M C) :
  (∀ c, R c (k c).2) → (∀ a c, R c (f a c).2) → ∀ c, R c ((let! a := k in f a) c).2.
Proof.
  intros Hk Hf c. unfold sbind. specialize (Hk c). destruct (k c) as [[a|e] c1]; [|done].
  etrans; [exact Hk|apply Hf].
Qed.
Lemma bind_fault {A C} (R : Cpu → Cpu → Prop) `{!Transitive R} (k : M A) (f : A → M C) :
  (∀ c, R c (k c).2) → (∀ a c, is_page_fault (f a c).1 = true → R c (f a c).2) →
  ∀ c, is_page_fault ((let! a := k in f a) c).1 = true → R c ((let! a := k in f a) c).2.
Proof.
  intros Hk Hf c. unfold sbind. specialize (Hk c). destruct (k c) as [[a|e] c1]; [|done].
  intros Hp. etrans; [exact Hk|by apply Hf].
Qed.
Lemma bind_last {A C} (R : Cpu → Cpu → Prop) (k : M A) (f : A → M C) :
  (∀ c, is_page_fault (k c).1 = true → R c (k c).2) → (∀ a, calm (f a)) →
  ∀ c, is_page_fault ((let! a := k in f a) c).1 = true → R c ((let! a := k in f a) c).2.
Proof.
  intros Hk Hf c. unfold sbind. specialize (Hk c). destruct (k c) as [[a|e] c1].
  - by rewrite (Hf a c1).
  - intros Hp. apply Hk. by destruct e as [[]|].
Qed.

Lemma quiet_bind {A C} (k : M A) (f : A → M C) : quiet k → (∀ a, quiet (f a)) → quiet (let! a := k in f a).
Proof. intros Hk Hf. exact (bind_rel same k f Hk Hf). Qed.
Lemma soft_bind {A C} (k : M A) (f : A → M C) : soft k → (∀ a, soft (f a)) → soft (let! a := k in f a).
Proof. intros Hk Hf. exact (bind_rel softens k f Hk Hf). Qed.
Lemma calm_bind {A C} (k : M A) (f : A → M C) : calm k → (∀ a, calm (f a)) → calm (let! a := k in f a).
Proof.
  intros Hk Hf c. unfold sbind. specialize (Hk c). destruct (k c) as [[a|e] c1]; [apply Hf|].
  by destruct e as [[]|].
Qed.
Lemma restartable_bind {A C} (k : M A) (f : A → M C) :
  soft k → (∀ a, restartable (f a)) → restartable (let! a := k in f a).
Proof. intros Hk Hf. exact (bind_fault softens k f Hk Hf). Qed.
Lemma restartable_last {A C} (k : M A) (f : A → M C) :
  restartable k → (∀ a, calm (f a)) → restartable (let! a := k in f a).
Proof. intros Hk Hf. exact (bind_last softens k f Hk Hf). Qed.
Lemma frozen_bind {A C} (k : M A) (f : A → M C) :
  quiet k → (∀ a, frozen (f a)) → frozen (let! a := k in f a).
Proof. intros Hk Hf. exact (bind_fault same k f Hk Hf). Qed.
Lemma frozen_last {A C} (k : M A) (f : A → M C) :
  frozen k → (∀ a, calm (f a)) → frozen (let! a := k in f a).
Proof. intros Hk Hf. exact (bind_last same k f Hk Hf). Qed.

Lemma quiet_soft {A} (k : M A) : quiet k → soft k.
Proof. intros Hk c. apply same_softens, Hk. Qed.
Lemma soft_restartable {A} (k : M A) : soft k → restartable k.
Proof. intros Hk c _. apply Hk. Qed.
Lemma calm_restartable {A} (k : M A) : calm k → restartable k.
Proof. intros Hk c Hp. by rewrite Hk in Hp. Qed.
Lemma quiet_frozen {A} (k : M A) : quiet k → frozen k.
Proof. intros Hk c _. apply Hk. Qed.
Lemma calm_frozen {A} (k : M A) : calm k → frozen k.
Proof. intros Hk c Hp. by rewrite Hk in Hp. Qed.

(** The primitive computations. *)
Lemma quiet_ret {A} (a : A) : quiet (sret a).
Proof. by intros c. Qed.
Lemma quiet_fail {A} e : quiet (sfail (A := A) e).
Proof. by intros c. Qed.
Lemma quiet_get : quiet get.
Proof. by intros c. Qed.
Lemma quiet_read {A} (f : Cpu → result Abort A) : quiet (sread f).
Proof. by intros c. Qed.
Lemma quiet_load {A} f : quiet (load_mem (A := A) f).
Proof. by intros c. Qed.
Lemma quiet_store f : quiet (store_mem f).
Proof. intros c. unfold store_mem, supdate. by destruct (f (memory c)). Qed.
Lemma quiet_translate linear kind : quiet (translate linear kind).
Proof.
  intros c. unfold translate. rewrite (sbind_ok get _ _ _ _ eq_refl).
  by rewrite (translate_keeps _ _ _ _ _ _ (surjective_pairing _)).
Qed.
Lemma quiet_privileged linear kind : quiet (translate_privileged linear kind).
Proof. intros c. unfold translate_privileged. by rewrite (translate_keeps _ _ _ _ _ _ (surjective_pairing _)). Qed.

Lemma soft_regs f : (∀ r, kept r (f r)) → soft (set_regs f).
Proof. intros Hf c. split; [|done]. apply Hf. Qed.
Lemma soft_move f : soft (move_rsp f).
Proof. intros c. split; [|done]. apply kept_gpr, kept_refl. Qed.

Lemma calm_ret {A} (a : A) : calm (sret a).
Proof. by intros c. Qed.
Lemma calm_get : calm get.
Proof. by intros c. Qed.
Lemma calm_read {A} (f : Cpu → A) : calm (sread (λ c, Ok (f c))).
Proof. by intros c. Qed.
Lemma calm_regs f : calm (set_regs f).
Proof. by intros c. Qed.
Lemma calm_modify f : calm (modify f).
Proof. by intros c. Qed.
Lemma calm_move f : calm (move_rsp f).
Proof. by intros c. Qed.
Lemma calm_panic {A} : calm (sfail (A := A) Panic).
Proof. by intros c. Qed.
Lemma calm_guest {A} message : calm (guest_fault (A := A) message).
Proof. by intros c. Qed.
Lemma calm_unimplemented {A} name : calm (unimplemented (A := A) name).
Proof. by intros c. Qed.
Lemma write_no_fault a bs (m : Memory (B := B) (N := N)) : is_page_fault (Memory.write a bs m) = false.
Proof. unfold Memory.write, write_ram. repeat case_match; done. Qed.
Lemma calm_store a bs : calm (store_mem (Memory.write a bs)).
Proof.
  intros c. unfold store_mem, supdate. pose proof (write_no_fault a bs (memory c)).
  by destruct (Memory.write a bs (memory c)) as [|[[]|]].
Qed.

Create HintDb kept discriminated.
Create HintDb quiet discriminated.
Create HintDb soft discriminated.
Create HintDb calm discriminated.
#[local] Hint Constants Opaque : kept quiet soft calm.
#[local] Hint Resolve kept_refl kept_flag kept_register kept_gpr kept_file : kept.
#[local] Hint Resolve quiet_ret quiet_fail quiet_get quiet_read quiet_load quiet_store quiet_translate
  quiet_privileged : quiet.
#[local] Hint Resolve soft_move : soft.
#[local] Hint Resolve calm_ret calm_get calm_read calm_regs calm_modify calm_move calm_panic calm_guest
  calm_unimplemented : calm.

Ltac quiet :=
  repeat lazymatch goal with
  | |- quiet (sbind _ _) => apply quiet_bind; [|intros ?]
  | |- quiet (match ?x with _ => _ end) => destruct x
  | |- quiet _ => solve [auto with quiet]
  end.
(** Handlers that write only registers of the file and flags. *)
Ltac soft_regs :=
  apply soft_regs; intros r; first [solve [auto with kept] | repeat case_match; solve [auto with kept]].
Ltac soft :=
  repeat lazymatch goal with
  | |- soft (sbind _ _) => apply soft_bind; [|intros ?]
  | |- soft (match ?x with _ => _ end) => destruct x
  | |- soft _ => first [solve [auto with soft] | solve [apply quiet_soft; auto with quiet] | soft_regs]
  end.
Ltac calm :=
  repeat lazymatch goal with
  | |- calm (sbind _ _) => apply calm_bind; [|intros ?]
  | |- calm (match ?x with _ => _ end) => destruct x
  | |- calm _ => solve [auto with calm]
  end.
Ltac restartable :=
  repeat lazymatch goal with
  | |- restartable (sbind _ _) =>
      first [apply restartable_bind; [solve [soft]|intros ?]
            | apply restartable_last; [|intros ?; solve [calm]]]
  | |- restartable (match ?x with _ => _ end) => destruct x
  | |- restartable _ => first [solve [apply calm_restartable; auto with calm]
                              | apply soft_restartable; solve [soft]]
  end.
Ltac frozen :=
  repeat lazymatch goal with
  | |- frozen (sbind _ _) =>
      first [apply frozen_bind; [solve [quiet]|intros ?]
            | apply frozen_last; [|intros ?; solve [calm]]]
  | |- frozen (match ?x with _ => _ end) => destruct x
  | |- frozen _ => first [solve [apply calm_frozen; auto with calm]
                         | apply quiet_frozen; solve [quiet]]
  end.

(** Memory accesses through operands and the stack. *)
Lemma calm_store8 physical value : calm (store_mem (write_u8 physical value)).
Proof. apply calm_store. Qed.
Lemma calm_store16 physical value : calm (store_mem (write_u16 physical value)).
Proof. apply calm_store. Qed.
Lemma calm_store32 physical value : calm (store_mem (write_u32 physical value)).
Proof. apply calm_store. Qed.
Lemma calm_store64 physical value : calm (store_mem (write_u64 physical value)).
Proof. apply calm_store. Qed.
#[local] Hint Resolve calm_store8 calm_store16 calm_store32 calm_store64 : calm.

Lemma quiet_read_loop fuel linear done total : quiet (read_linear_loop fuel linear done total).
Proof. revert done. induction fuel; intros; cbn [read_linear_loop]; quiet. Qed.
Lemma quiet_write_loop fuel linear done bytes : quiet (write_linear_loop fuel linear done bytes).
Proof. revert done. induction fuel; intros; cbn [write_linear_loop]; quiet. Qed.
#[local] Hint Resolve quiet_read_loop quiet_write_loop : quiet.
Lemma quiet_read_bytes linear total : quiet (read_linear_bytes linear total).
Proof. unfold read_linear_bytes. quiet. Qed.
Lemma quiet_write_bytes linear bytes : quiet (write_linear_bytes linear bytes).
Proof. unfold write_linear_bytes. quiet. Qed.
#[local] Hint Resolve quiet_read_bytes quiet_write_bytes : quiet.
Lemma quiet_read_operand i size : quiet (read_operand i size).
Proof. unfold read_operand, unsupported_size, guest_fault. quiet. Qed.
Lemma quiet_write_operand i size value : quiet (write_operand i size value).
Proof. unfold write_operand, unsupported_size, guest_fault. quiet. Qed.
#[local] Hint Resolve quiet_read_operand quiet_write_operand : quiet.
Lemma quiet_read0 i : quiet (read_operand0 i).
Proof. unfold read_operand0. quiet. Qed.
Lemma quiet_read1 i : quiet (read_operand1 i).
Proof. unfold read_operand1. quiet. Qed.
Lemma quiet_table sel : quiet (load_segment_from_table sel).
Proof. unfold load_segment_from_table, descriptor_entry. quiet. Qed.
#[local] Hint Resolve quiet_read0 quiet_read1 quiet_table : quiet.
Lemma quiet_code sel : quiet (load_code_segment sel).
Proof. unfold load_code_segment. quiet. Qed.
#[local] Hint Resolve quiet_code : quiet.

Lemma soft_write_register register size value : soft (set_regs (write_register register size value)).
Proof. soft_regs. Qed.
#[local] Hint Resolve soft_write_register : soft.
Lemma soft_write0 i value : soft (write_operand0 i value).
Proof. unfold write_operand0. soft. Qed.
Lemma soft_write1 i size value : soft (write_operand1 i size value).
Proof. unfold write_operand1. soft. Qed.
#[local] Hint Resolve soft_write0 soft_write1 : soft.
Lemma calm_write0 i value : is_memory (op_kind i 0) = false → calm (write_operand0 i value).
Proof. intros E. unfold write_operand0. rewrite E. calm. Qed.
Lemma calm_write1 i size value : is_memory (op_kind i 1) = false → calm (write_operand1 i size value).
Proof. intros E. unfold write_operand1. rewrite E. calm. Qed.
#[local] Hint Resolve calm_write0 calm_write1 : calm.
Lemma calm_rip target : calm (set_rip target).
Proof. unfold set_rip. calm. Qed.
#[local] Hint Resolve calm_rip : calm.

Lemma soft_push value : soft (push_native value).
Proof. unfold push_native, push64, push32, push16. soft. Qed.
Lemma soft_pops : soft pop_native ∧ soft pop64.
Proof. unfold pop_native, pop64, pop32, pop16. split; soft. Qed.
#[local] Hint Extern 1 (soft pop_native) => apply soft_pops : soft.
#[local] Hint Extern 1 (soft pop64) => apply soft_pops : soft.
#[local] Hint Resolve soft_push : soft.

(** ** The handlers *)

Lemma kept_szp r r' v bits : kept r r' → kept r (set_szp v bits r').
Proof. unfold set_szp. auto with kept. Qed.
Lemma kept_status r r' v :
  kept r r' → kept r (set_carry v r') ∧ kept r (set_overflow v r') ∧ kept r (set_adjust v r').
Proof. unfold set_carry, set_overflow, set_adjust. auto with kept. Qed.
#[local] Hint Resolve kept_szp : kept.
#[local] Hint Extern 1 (kept _ (set_carry _ _)) => apply kept_status : kept.
#[local] Hint Extern 1 (kept _ (set_overflow _ _)) => apply kept_status : kept.
#[local] Hint Extern 1 (kept _ (set_adjust _ _)) => apply kept_status : kept.
Lemma soft_arithmetic flags bits : soft (set_regs (set_arithmetic flags bits)).
Proof. unfold set_arithmetic. soft_regs. Qed.
Lemma soft_logical result bits : soft (set_regs (set_logical result bits)).
Proof. unfold set_logical. soft_regs. Qed.
Lemma soft_accumulator size value : soft (set_regs (write_accumulator size value)).
Proof. unfold write_accumulator. soft_regs. Qed.
#[local] Hint Resolve soft_arithmetic soft_logical soft_accumulator : soft.

Lemma restart_binary i is_sub with_carry : restartable (binary i is_sub with_carry).
Proof. unfold binary. restartable. Qed.
Lemma restart_arithmetic i is_signed :
  restartable (cmp i) ∧ restartable (inc_dec i) ∧ restartable (neg i) ∧ restartable (mul i is_signed) ∧
  restartable (imul_two_three i) ∧ restartable (convert i).
Proof. unfold cmp, inc_dec, neg, mul, imul_two_three, convert. split_and!; restartable. Qed.
Lemma frozen_binary i is_sub with_carry :
  is_memory (op_kind i 0) = false → frozen (binary i is_sub with_carry).
Proof. intros E. unfold binary. frozen. Qed.
Lemma frozen_arithmetic i is_signed : is_memory (op_kind i 0) = false →
  frozen (cmp i) ∧ frozen (inc_dec i) ∧ frozen (neg i) ∧ frozen (mul i is_signed) ∧
  frozen (imul_two_three i) ∧ frozen (convert i).
Proof. intros E. unfold cmp, inc_dec, neg, mul, imul_two_three, convert. split_and!; frozen. Qed.

Lemma restart_logic i :
  restartable (and_or_xor i) ∧ restartable (test i) ∧ restartable (shift_rotate i) ∧ restartable (bit_test i).
Proof. unfold and_or_xor, test, shift_rotate, bit_test. split_and!; restartable. Qed.
Lemma frozen_logic i : is_memory (op_kind i 0) = false →
  frozen (and_or_xor i) ∧ frozen (test i) ∧ frozen (shift_rotate i) ∧ frozen (bit_test i).
Proof. intros E. unfold and_or_xor, test, shift_rotate, bit_test. split_and!; frozen. Qed.
Lemma calm_scan i size source index : calm (scan i size source index) ∧ calm (count_zeros i size source index).
Proof. unfold scan, count_zeros. split; calm. Qed.
#[local] Hint Extern 1 (calm (scan _ _ _ _)) => apply calm_scan : calm.
#[local] Hint Extern 1 (calm (count_zeros _ _ _ _)) => apply calm_scan : calm.
Lemma restart_scan i : restartable (bit_scan_test i).
Proof. pose proof (restart_logic i) as (_ & _ & _ & E). unfold bit_scan_test. destruct (mnemonic i); try exact E; restartable. Qed.
Lemma frozen_scan_test i : is_memory (op_kind i 0) = false → frozen (bit_scan_test i).
Proof. intros (_ & _ & _ & E)%frozen_logic. unfold bit_scan_test. destruct (mnemonic i); try exact E; frozen. Qed.

(** A far transfer changes CS only after its last access. *)
Lemma restart_branch i :
  restartable (jump i) ∧ restartable (call i) ∧ restartable (ret i) ∧ restartable (jcc i) ∧ restartable (setcc i) ∧
  restartable (cmovcc i) ∧ restartable (flag_ops i).
Proof.
  unfold jump, call, ret, jcc, setcc, cmovcc, flag_ops, load_cs, expect_condition. split_and!; restartable.
Qed.
Lemma frozen_branch i :
  frozen (jump i) ∧ frozen (jcc i) ∧ frozen (setcc i) ∧ frozen (cmovcc i) ∧ frozen (flag_ops i).
Proof. unfold jump, jcc, setcc, cmovcc, flag_ops, load_cs, expect_condition. split_and!; frozen. Qed.

Lemma soft_levels count level frame : soft (enter_levels count level frame).
Proof. revert level. induction count; intros; cbn [enter_levels]; soft. Qed.
#[local] Hint Resolve soft_levels : soft.
Lemma restart_stack i : restartable (push_pop i).
Proof. unfold push_pop, enter, push64, push32, push16. restartable. Qed.

Lemma restart_data i :
  restartable (lea i) ∧ restartable (movx i) ∧ restartable (xchg i) ∧ restartable (xadd i) ∧
  restartable (cmpxchg i) ∧ restartable (cmpxchg8b i) ∧ restartable (xlatb i).
Proof. unfold lea, movx, xchg, xadd, cmpxchg, cmpxchg8b, xlatb. split_and!; restartable. Qed.
Lemma frozen_data i : is_memory (op_kind i 0) = false → is_memory (op_kind i 1) = false →
  frozen (lea i) ∧ frozen (movx i) ∧ frozen (xchg i) ∧ frozen (xadd i) ∧ frozen (cmpxchg i) ∧ frozen (xlatb i).
Proof. intros E0 E1. unfold lea, movx, xchg, xadd, cmpxchg, xlatb. split_and!; frozen. Qed.
Lemma sized_accesses physical size value :
  quiet (load_sized physical size) ∧ quiet (store_sized physical size value).
Proof. unfold load_sized, store_sized. split; quiet. Qed.
#[local] Hint Extern 1 (quiet (load_sized _ _)) => apply sized_accesses; exact 0 : quiet.
#[local] Hint Extern 1 (quiet (store_sized _ _ _)) => apply sized_accesses : quiet.
(** MOV to CS raises a general protection fault. *)
Lemma restart_mov i : segment_of (op_register i 0) ≠ CS → restartable (mov i) ∧
  (is_memory (op_kind i 0) = false → frozen (mov i)).
Proof.
  intros Hs. unfold mov, is_segment. split; [|intros E].
  - destruct (segment_of (op_register i 0)) eqn:Es; try done; restartable.
  - destruct (segment_of (op_register i 0)) eqn:Es; try done; frozen.
Qed.

Lemma quiet_string_value address size : quiet (read_string_value address size).
Proof. unfold read_string_value. quiet. Qed.
#[local] Hint Resolve quiet_string_value : quiet.
Lemma soft_element kind size direction accumulator repeated :
  soft (string_element kind size direction accumulator repeated).
Proof.
  unfold string_element. soft; unfold decrement_counter, advance_both, advance_rsi, advance_rdi;
  apply soft_regs; intros r; destruct repeated; auto with kept.
Qed.
#[local] Hint Resolve soft_element : soft.
Lemma soft_string_loop count kind size direction accumulator repeated repe repne :
  soft (string_loop count kind size direction accumulator repeated repe repne).
Proof. induction count; cbn [string_loop]; soft. Qed.
#[local] Hint Resolve soft_string_loop : soft.
Lemma soft_string i : soft (string_op i).
Proof. unfold string_op. soft. Qed.

(** ** Dispatch *)

(** The instructions the theorem covers: those of the modelled families that do
    not raise an exception of their own. *)
Definition restarts (i : I) : bool :=
  match mnemonic i with
  | Mnemonic.Mov =>
      negb (is_control_register (op_register i 0) || is_control_register (op_register i 1)
            || is_debug_register (op_register i 0) || is_debug_register (op_register i 1))
      && match segment_of (op_register i 0) with CS => false | _ => true end
  | Mnemonic.Movsd | Mnemonic.Cmpsd =>
      negb (is_xmm_register (op_register i 0) || is_xmm_register (op_register i 1))
  | Mnemonic.Div | Mnemonic.Idiv
  | Mnemonic.Lsl | Mnemonic.Pusha | Mnemonic.Pushad | Mnemonic.Popa | Mnemonic.Popad
  | Mnemonic.Iret | Mnemonic.Iretd | Mnemonic.Iretq | Mnemonic.Int | Mnemonic.Int3
  | Mnemonic.Int1 | Mnemonic.Into | Mnemonic.Bound | Mnemonic.Xsave | Mnemonic.Xsave64
  | Mnemonic.Xsavec | Mnemonic.Xsavec64 | Mnemonic.Xsaves | Mnemonic.Xsaves64 | Mnemonic.Xrstor
  | Mnemonic.Xrstor64 | Mnemonic.Xrstors | Mnemonic.Xrstors64 | Mnemonic.Fxsave
  | Mnemonic.Fxsave64 | Mnemonic.Fxrstor | Mnemonic.Fxrstor64 | Mnemonic.Other _ => false
  | _ => true
  end.

(** What the decoder says of the operands: a memory operand is one of the first
    [op_count], and the instructions with an implied memory operand report it. *)
Record declared (i : I) : Prop := mk_declared {
  declared_count : ∀ k, 0 ≤ k → is_memory (op_kind i k) = true → k < op_count i;
  declared_implied :
    string_kind_of (mnemonic i) ≠ None ∨ mnemonic i = Mnemonic.Cmpxchg8b ∨ mnemonic i = Mnemonic.Cmpxchg16b →
    ∃ k, 0 ≤ k < op_count i ∧ memory_kind (op_kind i k) = true
}.

Lemma unfaulting_operand i k : declared i → may_fault i = false → 0 ≤ k < op_count i →
  memory_kind (op_kind i k) = false.
Proof.
  unfold may_fault. intros Hd [Hf _]%orb_false_iff Hk. apply not_true_iff_false. intros Hm.
  assert (existsb (λ k, memory_kind (op_kind i k)) (seqZ 0 (op_count i)) = true) as E; [|by rewrite E in Hf].
  apply existsb_exists. exists k. split; [|done]. apply list_elem_of_In, elem_of_seqZ. lia.
Qed.
Lemma unfaulting_plain i k : declared i → may_fault i = false → 0 ≤ k → is_memory (op_kind i k) = false.
Proof.
  intros Hd Hf Hk. apply not_true_iff_false. intros Hm.
  pose proof (unfaulting_operand i k Hd Hf (conj Hk (declared_count i Hd k Hk Hm))) as E.
  by destruct (op_kind i k).
Qed.

Context (other_op : I → M ()).

(** The handler of the goal, among the lemmas collected in the context. *)
Ltac handler :=
  lazymatch goal with
  | |- ?P (binary _ _ _) => first [apply restart_binary | by apply frozen_binary]
  | |- ?P => match goal with H : ?Q |- _ => constr_eq P Q; exact H end
  end.

(** The families of [dispatch], each by its own lemma. *)
Ltac families i :=
  destruct_and?; unfold restarts, dispatch, mul_div, adc_sbb, add, sub;
  destruct (mnemonic i); intros Hr; try discriminate Hr; try handler;
  first [apply andb_prop in Hr as [Hr Hcs] | idtac]; first [apply negb_true_iff in Hr; rewrite Hr | idtac];
  first [handler | case_match; handler | idtac].

Lemma dispatch_restartable i : restarts i = true → restartable (dispatch other_op i).
Proof.
  pose proof (restart_arithmetic i true). pose proof (restart_arithmetic i false).
  pose proof (restart_logic i). pose proof (restart_branch i). pose proof (restart_scan i).
  pose proof (restart_stack i). pose proof (restart_data i). pose proof (soft_restartable _ (soft_string i)).
  pose proof (calm_restartable (A := ()) _ (calm_ret ())). pose proof (restart_mov i) as Hm.
  families i. apply Hm. intros Es. by rewrite Es in Hcs.
Qed.

(** Without a snapshot nothing was changed. *)
Lemma dispatch_frozen i : declared i → restarts i = true → may_fault i = false → frozen (dispatch other_op i).
Proof.
  intros Hd Hr Hf. revert Hr.
  pose proof (unfaulting_plain i 0 Hd Hf (Z.le_refl 0)) as E0.
  pose proof (unfaulting_plain i 1 Hd Hf Z.le_0_1) as E1.
  assert (∀ k, ¬ (0 ≤ k < op_count i ∧ memory_kind (op_kind i k) = true)) as Hk.
  { intros k [Hk E]. by rewrite (unfaulting_operand i k Hd Hf Hk) in E. }
  pose proof (declared_implied i Hd) as Hi. apply orb_false_iff in Hf as [_ Hf]. clear Hd.
  pose proof (frozen_arithmetic i true E0). pose proof (frozen_arithmetic i false E0).
  pose proof (frozen_logic i E0). pose proof (frozen_branch i). pose proof (frozen_scan_test i E0).
  pose proof (frozen_data i E0 E1). pose proof (calm_frozen (A := ()) _ (calm_ret ())).
  pose proof (restart_mov i) as Hm.
  families i; try discriminate Hf;
    try solve [destruct Hi as [k []%Hk]; first [by left | by right; left | by right; right]].
  apply Hm; [|done]. intros Es. by rewrite Es in Hcs.
Qed.

(** ** Fetch *)

Lemma quiet_cache {A} (f : DecodeCache I → A * DecodeCache I) : quiet (decode_cache f).
Proof. intros c. unfold decode_cache. by destruct (f (decoded c)). Qed.
Lemma quiet_insert mapping i : quiet (modify (λ c, c <| decoded ::= Decode.insert mapping i |>)).
Proof. by intros c. Qed.
Lemma quiet_rest fuel linear fetched : quiet (fetch_rest fuel linear fetched).
Proof. revert fetched. induction fuel; intros; cbn [fetch_rest]; quiet. Qed.
#[local] Hint Resolve quiet_cache quiet_insert quiet_rest : quiet.
Lemma quiet_window linear first : quiet (read_window linear first).
Proof. unfold read_window. quiet. Qed.
#[local] Hint Resolve quiet_window : quiet.
Lemma quiet_fetch : quiet fetch.
Proof. unfold fetch. quiet. Qed.

(** ** The restart *)

(** The state in which the first instruction of a round executes. *)
Definition started c : Cpu := c <| instruction_start := rip (regs c) |>.
Definition advanced (i : I) c : Cpu :=
  c <| regs ::= λ r, r <| rip ::= λ x, wrapping_add 64 x (instruction_len i) |> |>.

Lemma step_back x l : word 64 x → wrapping_sub 64 (wrapping_add 64 x l) l = x.
Proof.
  intros Hx. unfold wrapping_sub, wrapping_add, wrap. rewrite Zminus_mod_idemp_l, Z.add_simpl_r.
  by apply Z.mod_small.
Qed.
Lemma restored i c c2 : word 64 (rip (regs c)) → softens (advanced i c) c2 →
  (regs c2) <| gpr := gpr (regs c) |> <| rflags := rflags (regs c) |>
    <| rip ::= λ x, wrapping_sub 64 x (instruction_len i) |> = regs c.
Proof.
  intros Hr [E%kept_restore _]. change (gpr (regs c)) with (gpr (regs (advanced i c))).
  change (rflags (regs c)) with (rflags (regs (advanced i c))). rewrite E.
  set (l := instruction_len i).
  change ((regs c) <| rip := wrapping_sub 64 (wrapping_add 64 (rip (regs c)) l) l |> = regs c).
  rewrite step_back by done. by destruct c as [[]].
Qed.

(** The registers after the rollback, and the state it leaves alone. *)
Definition rolled_back (i : I) (snapshot : option (list Z * Z)) (r : Registers) : Registers :=
  let r := match snapshot with Some (g, f) => r <| gpr := g |> <| rflags := f |> | None => r end in
  r <| rip ::= λ x, wrapping_sub 64 x (instruction_len i) |>.
Lemma dispatch_rolls_back i c c2 : word 64 (rip (regs c)) → restarts i = true → declared i →
  is_page_fault (dispatch other_op i (advanced i c)).1 = true →
  c2 = (dispatch other_op i (advanced i c)).2 →
  rolled_back i (if may_fault i then Some (gpr (regs c), rflags (regs c)) else None) (regs c2) = regs c ∧
  same_frame c c2.
Proof.
  intros Hw Hr Hd Hp ->. destruct (may_fault i) eqn:Ef.
  - pose proof (dispatch_restartable i Hr _ Hp) as Hs. split; [exact (restored i c _ Hw Hs)|].
    destruct Hs as [_ [F1 F2 F3]]. by split.
  - pose proof (dispatch_frozen i Hd Hr Ef _ Hp) as [E [F1 F2 F3]]. split; [|by split].
    etrans; [|exact (restored i c (advanced i c) Hw (softens_refl _))].
    unfold rolled_back. rewrite E. by destruct c as [[]].
Qed.

(** The round of [execute_one] in which an instruction takes a page fault: the handler is
    entered from the registers of its start, on the memory it has reached. *)
Lemma attempt_rolled_back c i c1 linear code c2 : word 64 (rip (regs c)) → fetch (started c) = (Ok i, c1) →
  restarts i = true → declared i → dispatch other_op i (advanced i c1) = (Err (Fail (Ports.PageFault linear code)), c2) →
  ∃ c3, attempt other_op c = (let! _ := raise VECTOR_PAGE_FAULT code true in sret true) c3 ∧
    regs c3 = (regs c) <| cr2 := linear |> ∧ memory c3 = memory c2 ∧ same_frame (started c) c3.
Proof.
  intros Hr Ef Hi Hd Ed. pose proof (quiet_fetch (started c)) as [Q1 [Q2 Q3 Q4]]. rewrite Ef in *. cbn [snd] in *.
  unfold attempt, catch, sbind at 1 2. cbn [modify]. fold (started c). rewrite Ef.
  unfold sbind at 1 2 3. cbn [get sread set_regs modify]. fold (advanced i c1). rewrite Ed.
  destruct (dispatch_rolls_back i c1 c2) as [E [F1 F2 F3]]; [by rewrite Q1|done|done|by rewrite Ed..|].
  set (snapshot := if may_fault i then _ else _) in E |- *.
  exists (c2 <| regs ::= λ r, (rolled_back i snapshot r) <| cr2 := linear |> |>).
  split; [reflexivity|]. split; [by change ((rolled_back i snapshot (regs c2)) <| cr2 := linear |> =
    (regs c) <| cr2 := linear |>); rewrite E, Q1|]. split; [done|].
  split; [by etrans; [exact F1|exact Q2]|by etrans; [exact F2|exact Q3]|by etrans; [exact F3|exact Q4]].
Qed.

(** C1: a page fault restarts the instruction. For the fetch of any instruction, and for
    the execution of one that [restarts] accepts and whose memory operands the decoder
    declares, the handler is entered with the registers the instruction started with, CR2
    excepted, and returns to its first byte. [restarts] accepts the integer, move, stack,
    branch, flag and string instructions but DIV and IDIV, and a MOV to CS; it leaves out
    PUSHA, POPA, BOUND, LSL, INT and IRET, accesses to control and debug registers, and
    the SSE, x87 and system instructions. *)
Theorem fault_restarts c : word 64 (rip (regs c)) →
  let deliver code := (let! _ := raise VECTOR_PAGE_FAULT code true in sret true) in
  let restarts_at (linear code : Z) := ∃ c3,
    attempt other_op c = deliver code c3 ∧ regs c3 = (regs c) <| cr2 := linear |> ∧
    instruction_start c3 = rip (regs c) ∧ in_exception c3 = in_exception c ∧
    in_double_fault c3 = in_double_fault c in
  (∀ linear code c1, fetch (started c) = (Err (Fail (Ports.PageFault linear code)), c1) →
     restarts_at linear code) ∧
  (∀ i c1 linear code c2, fetch (started c) = (Ok i, c1) → restarts i = true → declared i →
     dispatch other_op i (advanced i c1) = (Err (Fail (Ports.PageFault linear code)), c2) →
     restarts_at linear code).
Proof.
  intros Hr deliver restarts_at. split.
  - intros linear code c1 Ef. pose proof (quiet_fetch (started c)) as [Q1 [Q2 Q3 Q4]]. rewrite Ef in *.
    exists (c1 <| regs ::= λ r, r <| cr2 := linear |> |>). cbn [snd] in *.
    split_and!; [|cbn; by rewrite Q1|done..].
    unfold attempt, catch, sbind at 1 2. cbn [modify]. fold (started c). rewrite Ef. reflexivity.
  - intros i c1 linear code c2 Ef Hi Hd Ed.
    destruct (attempt_rolled_back c i c1 linear code c2) as (c3 & Ea & Er & _ & [F1 F2 F3]); [done..|]. by exists c3.
Qed.
End effects.

(** ** A push to an unmapped stack *)

Definition push_demo : Cpu Raw VecBlockBackend Recorder :=
  demo_cpu <| regs ::= set_rsp unmapped_linear |>
           <| memory ::= λ m, m <| ram ::= λ r, splice r 0x1400 [0x50] |> |>.
Definition skip_other (i : Raw) : st (Cpu Raw VecBlockBackend Recorder) Abort () := sret ().

Lemma fault_restarts_witness : ∃ c3,
  attempt skip_other push_demo = (let! _ := raise VECTOR_PAGE_FAULT 2 true in sret true) c3 ∧
  regs c3 = (regs push_demo) <| cr2 := unmapped_linear - 8 |> ∧ instruction_start c3 = 0x1400.
Proof.
  assert (∃ i, (fetch (started push_demo)).1 = Ok i ∧ restarts i = true ∧ mnemonic i = Mnemonic.Push ∧
    op_kind i = (λ _, OpKind.Register) ∧
    (dispatch skip_other i (advanced i (fetch (started push_demo)).2)).1 =
      Err (Fail (Ports.PageFault (unmapped_linear - 8) 2))) as (i & Ef & Hr & Hm & Hk & Ed).
  { destruct (fetch (started push_demo)).1 as [i|] eqn:E; vm_compute in E; [|discriminate E].
    exists i. injection E as <-. split_and!; vm_compute; reflexivity. }
  destruct (fault_restarts skip_other push_demo) as [_ H]; [by apply word_const|].
  destruct (H i (fetch (started push_demo)).2 (unmapped_linear - 8) 2
              (dispatch skip_other i (advanced i (fetch (started push_demo)).2)).2) as (c3 & E1 & E2 & E3 & _).
  - rewrite <- Ef. apply surjective_pairing.
  - exact Hr.
  - split; [by rewrite Hk|]. rewrite Hm. intros [Hx|[Hx|Hx]]; [|discriminate Hx..]. destruct (Hx eq_refl).
  - rewrite <- Ed. apply surjective_pairing.
  - exists c3. split_and!; [exact E1|exact E2|exact E3].
Defined.
