(* ===== verification/Strings.v ===== *)
(** Repeated string instructions, [rish-softvm-core/src/ops/string.rs], and how
    [execute_one] of [cpu/mod.rs] restarts them.

    The loop advances the pointers and the counter after every element, so that a
    fault leaves the registers at the first element not done, from where the loop
    could be resumed. [execute_one] restores the registers of the start instead,
    with the elements before the fault done; the last lemma shows what the retry of
    an overlapping move then does. *)
From stdpp Require Import strings.
From S2P Require Import Prelude.
From S2P Require Import Ports.
From S2P Require Import VirtQueue.
From S2P Require Import VirtioBlk.
From S2P Require Import VirtioNet.
From S2P Require Import Memory.
From S2P Require Import Registers.
From S2P Require Import Paging.
From S2P Require Import Tlb.
From S2P Require Import Decode.
From S2P Require Import Cpu.
From S2P Require Import Interrupts.
From S2P Require Import Operands.
From S2P Require Import Arithmetic.
From S2P Require Import Branch.
From S2P Require Import Logic.
From S2P Require Import DataMove.
From S2P Require Import Execute.
From S2P Require Import Restart.
Local Open Scope Z_scope.

#[export] Instance string_kind_eq_dec : EqDecision string_kind.
Proof. solve_decision. Defined.

Section strings.
Context {I : Type} `{Iced I} `{IcedInstruction I}.
Context {B N : Type} `{BlockBackend B} `{NetBackend N}.
Context `{Environment}.
Abbreviation Cpu := (Cpu I B N).
Abbreviation M A := (st Cpu Abort A).
Implicit Types c : Cpu.





(** ** One element *)




(** ** The loop *)



End strings.



(** ** A move that faults *)

(** Tables at 0, 0x1000, 0x2000 and 0x3000 that map the pages at 0x4000 and 0x6000; the
    page at 0x5000 is absent until the guest maps it. The string a b c starts two
    bytes before the absent page. *)
Definition string_tables : list Z :=
  splice (splice (splice (splice (splice (zeros 0x7000) 0 (to_le_bytes 8 0x1003)) 0x1000 (to_le_bytes 8 0x2003))
    0x2000 (to_le_bytes 8 0x3003)) 0x3020 (to_le_bytes 8 0x4003)) 0x3030 (to_le_bytes 8 0x6003).
Definition string_ram : list Z := splice string_tables 0x4FFE [97; 98; 99].
Definition mapped (r : list Z) : list Z := splice r 0x3028 (to_le_bytes 8 0x5003).
(** [rep movsb] of three bytes to the address one below. *)
Definition string_cpu (r : list Z) : Cpu Raw VecBlockBackend Recorder :=
  demo_cpu <| memory ::= λ m, m <| ram := r |> |>
    <| regs ::= λ r, r <| rip := 0x6000 |>
         <| gpr ::= λ g, <[RCX := 3]> (<[RDI := 0x4FFD]> (<[RSI := 0x4FFE]> g)) |> |>.
Definition rep_movsb : Raw := (64, [0xA4], 0x6000).


(** What [execute_one] does after the fault, the handler having mapped the page: the
    instruction runs again with the registers it started with, on the memory it had
    already written. The first byte of the string is lost. *)
Definition run_at (c : Cpu Raw VecBlockBackend Recorder) : Cpu Raw VecBlockBackend Recorder :=
  (dispatch skip_other rep_movsb (advanced rep_movsb c)).2.
Definition resumed (snapshot : option (list Z * Z)) : list Z :=
  let c := run_at (string_cpu string_ram) in
  slice (ram (memory (run_at (c <| regs ::= rolled_back rep_movsb snapshot |>
    <| memory ::= λ m, m <| ram ::= mapped |> |>)))) 0x4FFD 3.
Lemma restarted_move_corrupts :
  let start := regs (string_cpu string_ram) in
  may_fault rep_movsb = true ∧
  slice (ram (memory (run_at (string_cpu (mapped string_ram))))) 0x4FFD 3 = [97; 98; 99] ∧
  resumed None = [97; 98; 99] ∧ resumed (Some (gpr start, rflags start)) = [98; 98; 99].
Proof. vm_compute. auto. Qed.
