(* ===== verification/NetWire.v ===== *)
(** Wire formats of the user-mode network backend: [rish-softvm-core/src/net/]
    [ether.rs], [ipv4.rs] and [tcp_segment.rs].

    Frames, packets and segments are lists of bytes, addresses lists of octets.
    The theorems show that the checksum is the ones' complement sum of RFC 1071,
    that a packet built by the backend verifies and parses back to the fields it
    was built from, and what an echo request is answered with. *)
From S2P Require Import Prelude.
Local Open Scope Z_scope.

(** [v.to_be_bytes()] of an [n]-byte integer and [from_be_bytes]. *)
Definition to_be_bytes (n v : Z) : list Z := reverse (to_le_bytes n v).
Definition from_be_bytes (bs : list Z) : Z := from_le_bytes (reverse bs).
(** [u16::from_be_bytes([data[i], data[i + 1]])] *)
Definition be16 (data : list Z) (i : nat) : Z := from_be_bytes [data !!! i; data !!! S i].
(** [u32::from_be_bytes(data[i..i + 4].try_into().unwrap())] *)
Definition be32 (data : list Z) (i : nat) : Z := from_be_bytes (slice data (Z.of_nat i) 4).

(** ** [ether.rs] *)
Module Ether.

Definition BROADCAST_MAC : list Z := replicate 6 0xFF.

Definition parse (frame : list Z) : option (list Z * Z * list Z) :=
  if len frame <? 14 then None
  else Some (slice frame 0 6, be16 frame 12, drop 14 frame).

Definition for_us (dst mac gateway_mac : list Z) : bool :=
  bool_decide (dst = mac) || bool_decide (dst = gateway_mac) || bool_decide (dst = BROADCAST_MAC).

Definition frame (dst src : list Z) (ethertype : Z) (payload : list Z) : list Z :=
  dst ++ src ++ to_be_bytes 2 ethertype ++ payload.

Definition parse_arp_request (payload : list Z) : option (list Z * list Z * list Z) :=
  if len payload <? 28 then None
  else if negb (be16 payload 0 =? 1) then None
  else if negb (be16 payload 2 =? 0x0800) then None
  else if negb (payload !!! 4%nat =? 6) || negb (payload !!! 5%nat =? 4) then None
  else if negb (be16 payload 6 =? 1) then None
  else Some (slice payload 8 6, slice payload 14 4, slice payload 24 4).

Definition build_arp_reply (mac gateway_ip sender_mac sender_ip : list Z) : option (list Z) :=
  let arp := [0x00; 0x01] ++ [0x08; 0x00] ++ [6] ++ [4] ++ [0x00; 0x02]
             ++ mac ++ gateway_ip ++ sender_mac ++ sender_ip in
  Some (frame sender_mac mac 0x0806 arp).

End Ether.

(** ** [ipv4.rs] *)

Definition PROTOCOL_ICMP : Z := 1.
Definition PROTOCOL_TCP : Z := 6.
Definition PROTOCOL_UDP : Z := 17.
Definition DEFAULT_TTL : Z := 64.

Record Ipv4Packet := mkPacket {
  header : list Z;
  src : list Z;
  dst : list Z;
  protocol : Z;
  more_fragments : bool;
  fragment_offset : Z;
  payload : list Z
}.

Definition parse (data : list Z) : option Ipv4Packet :=
  if (len data <? 20) || negb ((data !!! 0%nat) ≫ 4 =? 4) then None
  else
    let ihl := ((data !!! 0%nat) .& 0x0F) * 4 in
    if (ihl <? 20) || (len data <? ihl) then None
    else
      let total := be16 data 2 in
      if (total <? ihl) || (len data <? total) then None
      else
        let flags_fragment := be16 data 6 in
        Some (mkPacket (slice data 0 ihl) (slice data 12 4) (slice data 16 4) (data !!! 9%nat)
                (has flags_fragment 0x2000) (flags_fragment .& 0x1FFF)
                (slice data ihl (total - ihl))).

(** The words of [data.chunks(2)]. *)
Fixpoint words (data : list Z) : list Z :=
  match data with
  | a :: b :: rest => from_be_bytes [a; b] :: words rest
  | [a] => [a ≪ 8]
  | [] => []
  end.
(** One round of the summing loop, on a [u32]. *)
Definition add_word (sum word : Z) : Z :=
  let sum := wrapping_add 32 sum word in (sum .& 0xFFFF) + (sum ≫ 16).

Definition checksum (data : list Z) : Z :=
  0xFFFF .^ wrap 16 (foldl add_word 0 (words data)).

Definition header_checksum_ok (header : list Z) : bool := checksum header =? 0.

Definition build_header (total_length protocol : Z) (src dst : list Z) (identification : Z) : list Z :=
  let header := replicate 20 0 in
  let header := <[0%nat := 0x45]> header in
  let header := splice header 2 (to_be_bytes 2 (wrap 16 total_length)) in
  let header := splice header 4 (to_be_bytes 2 identification) in
  let header := <[8%nat := DEFAULT_TTL]> header in
  let header := <[9%nat := protocol]> header in
  let header := splice header 12 src in
  let header := splice header 16 dst in
  splice header 10 (to_be_bytes 2 (checksum header)).

Definition transport_checksum (src dst : list Z) (protocol : Z) (segment : list Z) : Z :=
  let sum := foldl (wrapping_add 32) 0 (words src) in
  let sum := foldl (wrapping_add 32) sum (words dst) in
  let sum := wrapping_add 32 sum protocol in
  let sum := wrapping_add 32 sum (wrap 32 (len segment)) in
  let sum := foldl add_word sum (words segment) in
  let folded := (sum .& 0xFFFF) + (sum ≫ 16) in
  0xFFFF .^ wrap 16 folded.

Definition wrap_udp (src dst : list Z) (src_port dst_port : Z) (payload : list Z) (identification : Z)
    : list Z :=
  let udp := to_be_bytes 2 src_port ++ to_be_bytes 2 dst_port
             ++ to_be_bytes 2 (wrap 16 (8 + len payload)) ++ [0; 0] ++ payload in
  let sum := transport_checksum src dst PROTOCOL_UDP udp in
  let udp := splice udp 6 (to_be_bytes 2 sum) in
  build_header (20 + len udp) PROTOCOL_UDP src dst identification ++ udp.

Definition wrap_tcp (src dst segment : list Z) (identification : Z) : list Z :=
  let sum := transport_checksum src dst PROTOCOL_TCP segment in
  let tcp := splice segment 16 (to_be_bytes 2 sum) in
  build_header (20 + len tcp) PROTOCOL_TCP src dst identification ++ tcp.

(** The identifier to use and the next one. *)
Definition next_identification (identification : Z) : Z * Z :=
  (identification, wrapping_add 16 identification 1).

Definition icmp_echo_reply (packet : Ipv4Packet) (identification : Z) : option (list Z) * Z :=
  let payload := payload packet in
  if (len payload <? 8) || negb (payload !!! 0%nat =? 8) || negb (payload !!! 1%nat =? 0)
  then (None, identification)
  else if negb (checksum payload =? 0) then (None, identification)
  else
    let icmp := [0] ++ [0] ++ [0; 0] ++ drop 4 payload in
    let icmp := splice icmp 2 (to_be_bytes 2 (checksum icmp)) in
    let '(id, identification) := next_identification identification in
    let header := build_header (20 + len icmp) PROTOCOL_ICMP (dst packet) (src packet) id in
    (Some (header ++ icmp), identification).

(** ** [tcp_segment.rs] *)

Definition FLAG_FIN : Z := 0x01.
Definition FLAG_SYN : Z := 0x02.
Definition FLAG_RST : Z := 0x04.
Definition FLAG_ACK : Z := 0x10.
Definition OUR_MSS : Z := 1460.

Record Segment := mkSegment {
  sport : Z;
  dport : Z;
  seq : Z;
  ack : Z;
  flags : Z;
  window : Z;
  options : list Z;
  seg_payload : list Z
}.

Definition parse_segment (data : list Z) : option Segment :=
  if len data <? 20 then None
  else
    let data_offset := ((data !!! 12%nat) ≫ 4) * 4 in
    if (data_offset <? 20) || (len data <? data_offset) then None
    else Some (mkSegment (be16 data 0) (be16 data 2) (be32 data 4) (be32 data 8) (data !!! 13%nat)
                 (be16 data 14) (slice data 20 (data_offset - 20)) (drop (Z.to_nat data_offset) data)).

Definition segment_checksum_ok (packet : Ipv4Packet) (data : list Z) : bool :=
  let zeroed := splice data 16 [0; 0] in
  transport_checksum (src packet) (dst packet) PROTOCOL_TCP zeroed =? be16 data 16.

Definition build_segment (sport dport seq ack flags window : Z) (options payload : list Z) : list Z :=
  let data_offset := wrap 8 (5 + len options / 4) in
  to_be_bytes 2 sport ++ to_be_bytes 2 dport ++ to_be_bytes 4 seq ++ to_be_bytes 4 ack
  ++ [wrap 8 (data_offset ≪ 4)] ++ [flags] ++ to_be_bytes 2 window ++ [0; 0] ++ [0; 0]
  ++ options ++ payload.

(** The loop of [parse_mss] at [index]; every round advances, so the length of
    the options is enough fuel. *)
Fixpoint parse_mss_loop (fuel : nat) (options : list Z) (index : Z) : option Z :=
  match fuel with
  | O => None
  | S fuel =>
      if index <? len options then
        match options !!! Z.to_nat index with
        | 0 => None
        | 1 => parse_mss_loop fuel options (index + 1)
        | 2 =>
            if (index + 4 <=? len options) && (options !!! Z.to_nat (index + 1) =? 4)
            then Some (be16 options (Z.to_nat (index + 2))) else None
        | _ =>
            let length := default 0 (options !! Z.to_nat (index + 1)) in
            if (length <? 2) || (len options <? index + length) then None
            else parse_mss_loop fuel options (index + length)
        end
      else None
  end.
Definition parse_mss (options : list Z) : option Z := parse_mss_loop (length options) options 0.

(** ** Big-endian fields *)

Lemma be_bytes2 v : to_be_bytes 2 v = [wrap 8 (v ≫ 8); wrap 8 v].
Proof.
  rewrite !wrap_land_ones by lia. unfold to_be_bytes, to_le_bytes. reflexivity.
Qed.
Lemma be_pair a b : word 8 b → from_be_bytes [a; b] = a * 256 + b.
Proof.
  intros Hb. unfold from_be_bytes, from_le_bytes. change (reverse [a; b]) with [b; a].
  cbn [little_endian_to_Z]. rewrite Z.shiftl_0_l, Z.lor_0_r, lor_shiftl by (done || lia). lia.
Qed.
Lemma be_bytes2_value v : word 16 v → from_be_bytes (to_be_bytes 2 v) = v.
Proof.
  intros Hv. unfold from_be_bytes, to_be_bytes. rewrite reverse_involutive, from_to_le_bytes by lia.
  by apply wrap_small.
Qed.
Lemma be_bytes4_value v : word 32 v → from_be_bytes (to_be_bytes 4 v) = v.
Proof.
  intros Hv. unfold from_be_bytes, to_be_bytes. rewrite reverse_involutive, from_to_le_bytes by lia.
  by apply wrap_small.
Qed.
Lemma to_be_bytes_words n v : 0 ≤ n → Forall (word 8) (to_be_bytes n v).
Proof. intros. unfold to_be_bytes. apply Forall_reverse. by apply to_le_bytes_words. Qed.
Lemma len_to_be_bytes n v : 0 ≤ n → len (to_be_bytes n v) = n.
Proof. intros. unfold to_be_bytes, len. rewrite length_reverse. by apply len_to_le_bytes. Qed.
#[local] Hint Rewrite len_to_be_bytes using lia : len.
Lemma from_be_word w bs : 8 * len bs ≤ w → Forall (word 8) bs → word w (from_be_bytes bs).
Proof.
  intros Hl Hw. apply (word_mono (8 * len bs)); [done|unfold len; lia|].
  unfold from_be_bytes. replace (len bs) with (len (reverse bs)) by (unfold len; by rewrite length_reverse).
  apply from_le_bytes_word. by apply Forall_reverse.
Qed.
Lemma be16_word data i : Forall (word 8) data → word 16 (be16 data i).
Proof.
  intros Hd. assert (∀ j, word 8 (data !!! j)) as Hj.
  { intros j. destruct (data !! j) eqn:E; [|by rewrite list_lookup_total_alt, E; apply word_const].
    rewrite (list_lookup_total_correct _ _ _ E). by eapply Forall_lookup_1. }
  apply from_be_word; [done|]. constructor; [done|]. constructor; [done|]. constructor.
Qed.
Lemma be32_word data i : Forall (word 8) data → word 32 (be32 data i).
Proof.
  intros Hd. apply from_be_word; [|by apply Forall_take, Forall_drop]. unfold slice, len. rewrite length_take. lia.
Qed.

(** ** The ones' complement sum *)

(** The representative in 1..65535 of a positive sum, modulo 65535. *)
Definition norm (s : Z) : Z := if s =? 0 then 0 else (s - 1) `mod` 65535 + 1.
Definition sum_words (data : list Z) : Z := foldr Z.add 0 (words data).

Lemma norm_range s : 0 ≤ s → 0 ≤ norm s ≤ 65535.
Proof. unfold norm. destruct (Z.eqb_spec s 0); dlia. Qed.
Lemma norm_small s : 0 ≤ s ≤ 65535 → norm s = s.
Proof. unfold norm. destruct (Z.eqb_spec s 0); dlia. Qed.
Lemma norm_add s t : 0 ≤ s → 0 ≤ t → norm (norm s + t) = norm (s + t).
Proof.
  intros. unfold norm. destruct (Z.eqb_spec s 0) as [->|]; [done|].
  destruct (Z.eqb_spec ((s - 1) `mod` 65535 + 1 + t) 0), (Z.eqb_spec (s + t) 0); dlia.
Qed.
Lemma halves t : t .& 0xFFFF = t `mod` 65536 ∧ t ≫ 16 = t / 65536.
Proof. split; [apply (Z.land_ones t 16); lia|by apply Z.shiftr_div_pow2]. Qed.
(** A fold of the high half into the low one keeps the sum. *)
Lemma fold_norm t : 0 ≤ t → norm ((t .& 0xFFFF) + (t ≫ 16)) = norm t.
Proof.
  intros. destruct (halves t) as [-> ->]. unfold norm.
  destruct (Z.eqb_spec t 0) as [->|]; [done|]. destruct (Z.eqb_spec (t `mod` 65536 + t / 65536) 0); [dlia|].
  f_equal. rewrite <- (Z.mod_add _ (t / 65536)) by lia. f_equal. pose proof (Z.div_mod t 65536). lia.
Qed.
Lemma fold_range t : 0 ≤ t < 2 ^ 32 → 0 ≤ (t .& 0xFFFF) + (t ≫ 16) ≤ 65535 + t / 65536.
Proof.
  intros. destruct (halves t) as [-> ->]. pose proof (Z.mod_pos_bound t 65536). pose proof (Z.div_pos t 65536). lia.
Qed.

Lemma words_range data : Forall (word 8) data → Forall (λ w, 0 ≤ w ≤ 65535) (words data).
Proof.
  revert data. fix IH 1. intros [|a [|b data]] Hd; cbn [words]; constructor.
  - apply Forall_inv in Hd as [? Ha]. rewrite Z.shiftl_mul_pow2 by lia. change (2 ^ 8) with 256 in *. lia.
  - constructor.
  - inversion_clear Hd as [|?? Ha Hd']. inversion_clear Hd' as [|?? Hb _].
    rewrite be_pair by done. destruct Ha, Hb. change (2 ^ 8) with 256 in *. lia.
  - apply IH. by do 2 apply Forall_inv_tail in Hd.
Qed.
Lemma sum_words_nonneg data : Forall (word 8) data → 0 ≤ sum_words data.
Proof. intros Hd%words_range. unfold sum_words. induction Hd; cbn [foldr]; lia. Qed.

(** The loop keeps the sum modulo 65535, and one round brings it below 2^17. *)
Lemma add_words_norm ws s : Forall (λ w, 0 ≤ w ≤ 65535) ws → 0 ≤ s < 2 ^ 31 →
  norm (foldl add_word s ws) = norm (s + foldr Z.add 0 ws) ∧
  0 ≤ foldl add_word s ws ≤ (if s <=? 65535 then 65535 else if decide (ws = []) then s else 98303).
Proof.
  intros Hws. revert s. induction Hws as [|w ws Hw Hws IH]; intros s Hs; cbn [foldl foldr].
  { rewrite Z.add_0_r. split; [done|]. rewrite decide_True by done. destruct (Z.leb_spec s 65535); lia. }
  pose proof (fold_range (s + w) ltac:(lia)) as Hf.
  set (t := ((s + w) .& 0xFFFF) + ((s + w) ≫ 16)) in *.
  assert (add_word s w = t) as ->.
  { unfold add_word, wrapping_add. rewrite wrap_small; [done|split; lia]. }
  assert (t ≤ 98303) as Ht by dlia. destruct (IH t ltac:(lia)) as [En Er].
  rewrite (decide_False (P := w :: ws = [])) by done. split.
  - assert (0 ≤ foldr Z.add 0 ws) as Hn by (clear -Hws; induction Hws; cbn [foldr]; lia).
    rewrite En, <- norm_add by lia. unfold t. rewrite fold_norm, norm_add by lia. f_equal. lia.
  - split; [lia|]. etrans; [apply Er|].
    destruct (Z.leb_spec s 65535), (Z.leb_spec t 65535); try case_decide; try lia.
    all: exfalso; destruct (halves (s + w)) as [E1 E2]; unfold t in *; rewrite E1, E2 in *; dlia.
Qed.

Lemma complement x : 0 ≤ x ≤ 65535 → 0xFFFF .^ x = 65535 - x.
Proof.
  intros Hx. change 0xFFFF with (Z.ones 16).
  assert (word 16 x) as Hw by (split; lia).
  assert (Z.ldiff x (Z.ones 16) = 0) as Hl.
  { rewrite Z.ldiff_ones_r by lia. rewrite Z.shiftr_div_pow2, Z.div_small by (done || lia). done. }
  change 65535 with (Z.ones 16). rewrite Z.sub_nocarry_ldiff by done.
  apply (word_ext 16); [lia| | |].
  - apply word_lxor; [lia| |done]. by apply word_const.
  - apply word_ldiff; [lia|]. by apply word_const.
  - intros i Hi. rewrite Z.lxor_spec, Z.ldiff_spec, Z.ones_spec_low by lia. by destruct (Z.testbit x i).
Qed.

Lemma checksum_spec data : Forall (word 8) data → checksum data = 65535 - norm (sum_words data).
Proof.
  intros Hd. unfold checksum.
  destruct (add_words_norm (words data) 0 (words_range data Hd) ltac:(lia)) as [En Er].
  change (0 <=? 65535) with true in Er. cbn iota in Er. rewrite Z.add_0_l in En. fold (sum_words data) in En.
  rewrite wrap_small by (split; lia). rewrite complement by lia. by rewrite <- En, norm_small by lia.
Qed.
Lemma checksum_word data : Forall (word 8) data → word 16 (checksum data).
Proof.
  intros Hd. rewrite checksum_spec by done. pose proof (norm_range _ (sum_words_nonneg _ Hd)). split; lia.
Qed.

(** A two-byte field at an even offset adds its value to the sum. *)
Lemma sum_words_field data (k : nat) v : word 16 v → 2 * Z.of_nat k + 2 ≤ len data →
  data !! (2 * k)%nat = Some 0 → data !! S (2 * k) = Some 0 →
  sum_words (splice data (2 * Z.of_nat k) (to_be_bytes 2 v)) = sum_words data + v.
Proof.
  intros Hv. revert data. induction k as [|k IH]; intros data Hl H0 H1.
  - destruct data as [|a [|b data]]; [done|done|]. injection H0 as ->. injection H1 as ->.
    change (splice (0 :: 0 :: data) (2 * Z.of_nat 0) (to_be_bytes 2 v)) with (to_be_bytes 2 v ++ data).
    pose proof (be_bytes2_value v Hv) as Eb. rewrite be_bytes2 in *. unfold sum_words. cbn [app words foldr].
    rewrite Eb. change (from_be_bytes [0; 0]) with 0. lia.
  - destruct data as [|a [|b data]]; [done|done|].
    replace (2 * S k)%nat with (S (S (2 * k))) in * by lia.
    autorewrite with len in Hl. specialize (IH data ltac:(lia) H0 H1). revert IH. unfold splice.
    replace (Z.to_nat (2 * Z.of_nat (S k))) with (S (S (Z.to_nat (2 * Z.of_nat k)))) by lia.
    rewrite be_bytes2. cbn [list_inserts]. unfold sum_words. intros IH.
    cbn [words foldr insert list_insert]. rewrite <- Z.add_assoc, <- IH. done.
Qed.

Lemma checksum_fills data (k : nat) : Forall (word 8) data → 2 * Z.of_nat k + 2 ≤ len data →
  data !! (2 * k)%nat = Some 0 → data !! S (2 * k) = Some 0 →
  norm (sum_words (splice data (2 * Z.of_nat k) (to_be_bytes 2 (checksum data)))) = 65535.
Proof.
  intros Hd Hl H0 H1. rewrite sum_words_field by (done || by apply checksum_word).
  rewrite checksum_spec by done. pose proof (norm_range _ (sum_words_nonneg _ Hd)).
  rewrite <- norm_add by (pose proof (sum_words_nonneg _ Hd); lia).
  replace (norm (sum_words data) + (65535 - norm (sum_words data))) with 65535 by lia. done.
Qed.

(** ** The transport checksum *)

(** An IPv4 address. *)
Definition octets (ip : list Z) : Prop := ∃ a b c d, ip = [a; b; c; d] ∧ Forall (word 8) [a; b; c; d].
(** The sum of the pseudo header and the segment. *)
Definition pseudo_sum (src dst : list Z) (protocol : Z) (segment : list Z) : Z :=
  sum_words src + sum_words dst + protocol + len segment + sum_words segment.

Lemma octets_words ip : octets ip → Forall (word 8) ip.
Proof. by intros (a & b & c & d & -> & H). Qed.
Lemma octets_len ip : octets ip → len ip = 4.
Proof. by intros (a & b & c & d & -> & _). Qed.
#[local] Hint Resolve octets_words checksum_word to_be_bytes_words : words.

Lemma octets_sum ip s : octets ip → 0 ≤ s ≤ 2 ^ 30 →
  foldl (wrapping_add 32) s (words ip) = s + sum_words ip ∧ sum_words ip ≤ 131070.
Proof.
  intros (a & b & c & d & -> & Hw) Hs. pose proof (words_range _ Hw) as Hr. unfold sum_words.
  cbn [words foldl foldr] in *. inversion_clear Hr as [|?? H1 Hr']. inversion_clear Hr' as [|?? H2 _].
  unfold wrapping_add. rewrite (wrap_small 32 (s + _)) by (split; lia).
  rewrite wrap_small by (split; lia). split; lia.
Qed.

Lemma transport_checksum_spec src dst protocol segment :
  octets src → octets dst → word 8 protocol → Forall (word 8) segment → 0 < len segment < 2 ^ 16 →
  transport_checksum src dst protocol segment = 65535 - norm (pseudo_sum src dst protocol segment).
Proof.
  intros Hs Hd [Hp0 Hp] Hseg Hl. unfold transport_checksum. change (2 ^ 8) with 256 in Hp.
  destruct (octets_sum src 0 Hs ltac:(lia)) as [-> Bs].
  pose proof (sum_words_nonneg _ (octets_words _ Hs)). pose proof (sum_words_nonneg _ (octets_words _ Hd)).
  destruct (octets_sum dst (0 + sum_words src) Hd ltac:(lia)) as [-> Bd].
  unfold wrapping_add. rewrite (wrap_small 32 (0 + _ + _ + _)) by (split; lia).
  rewrite (wrap_small 32 (len segment)) by (split; lia). rewrite (wrap_small 32 (0 + _ + _ + _ + _)) by (split; lia).
  set (s := 0 + sum_words src + sum_words dst + protocol + len segment).
  destruct (add_words_norm (words segment) s (words_range _ Hseg) ltac:(lia)) as [En Er].
  set (t := foldl add_word s (words segment)) in *.
  assert (words segment ≠ []) as Hne.
  { destruct segment as [|a [|b rest]]; [autorewrite with len in Hl; lia|done..]. }
  rewrite (decide_False (P := words segment = [])) in Er by done.
  assert (0 ≤ t ≤ 98303) as Ht by (destruct (s <=? 65535); lia).
  pose proof (fold_norm t ltac:(lia)) as Ef. pose proof (norm_range t ltac:(lia)).
  assert (0 ≤ (t .& 0xFFFF) + (t ≫ 16) ≤ 65535) as Hr.
  { destruct (halves t) as [-> ->]. dlia. }
  rewrite wrap_small by (split; lia). rewrite complement by lia.
  rewrite <- (norm_small ((t .& 0xFFFF) + (t ≫ 16))), Ef, En by lia.
  unfold pseudo_sum, s. fold (sum_words segment). do 2 f_equal.
Qed.

Lemma transport_checksum_word src dst protocol segment :
  octets src → octets dst → word 8 protocol → Forall (word 8) segment → 0 < len segment < 2 ^ 16 →
  word 16 (transport_checksum src dst protocol segment).
Proof.
  intros Hs Hd Hp Hseg Hl. rewrite transport_checksum_spec by done.
  pose proof (sum_words_nonneg _ (octets_words _ Hs)). pose proof (sum_words_nonneg _ (octets_words _ Hd)).
  pose proof (sum_words_nonneg _ Hseg).
  pose proof (norm_range (pseudo_sum src dst protocol segment) ltac:(destruct Hp; unfold pseudo_sum; lia)).
  split; lia.
Qed.

(** ** Built headers *)

Definition header_bytes (total protocol : Z) (src dst : list Z) (id c : Z) : list Z :=
  [0x45; 0] ++ to_be_bytes 2 total ++ to_be_bytes 2 id ++ [0; 0; DEFAULT_TTL; protocol]
  ++ to_be_bytes 2 c ++ src ++ dst.
Lemma build_header_bytes total protocol src dst id : octets src → octets dst → word 16 total →
  let blank := header_bytes total protocol src dst id 0 in
  build_header total protocol src dst id = header_bytes total protocol src dst id (checksum blank) ∧
  build_header total protocol src dst id = splice blank 10 (to_be_bytes 2 (checksum blank)).
Proof.
  intros (a & b & c & d & -> & _) (e & f & g & h & -> & _) Ht.
  unfold build_header, header_bytes. rewrite (wrap_small 16 total) by done. rewrite !be_bytes2. split; reflexivity.
Qed.
Lemma header_bytes_words total protocol src dst id c : octets src → octets dst → word 8 protocol →
  Forall (word 8) (header_bytes total protocol src dst id c).
Proof.
  intros. unfold header_bytes. rewrite !Forall_app, !Forall_cons, !Forall_nil.
  assert (word 8 0x45 ∧ word 8 0 ∧ word 8 DEFAULT_TTL) as (? & ? & ?) by (split_and!; by apply word_const).
  split_and!; auto using octets_words, to_be_bytes_words with lia.
Qed.
Lemma len_header total protocol src dst id : octets src → octets dst → word 16 total →
  len (build_header total protocol src dst id) = 20.
Proof.
  intros Hs Hd Ht. destruct (build_header_bytes total protocol src dst id) as [-> _]; [done..|].
  unfold header_bytes. autorewrite with len. by rewrite !octets_len.
Qed.

(** A header built by the backend verifies. *)
Lemma built_header_ok total protocol src dst id : octets src → octets dst → word 16 total → word 8 protocol →
  header_checksum_ok (build_header total protocol src dst id) = true.
Proof.
  intros Hs Hd Ht Hp. destruct (build_header_bytes total protocol src dst id) as [E1 E2]; [done..|].
  unfold header_checksum_ok. apply Z.eqb_eq. rewrite checksum_spec.
  - rewrite E2. change 10 with (2 * Z.of_nat 5). rewrite checksum_fills; [lia|..].
    + by apply header_bytes_words.
    + unfold header_bytes. autorewrite with len. pose proof (len_nonneg src). pose proof (len_nonneg dst). lia.
    + unfold header_bytes. by rewrite !be_bytes2.
    + unfold header_bytes. by rewrite !be_bytes2.
  - rewrite E1. by apply header_bytes_words.
Qed.

(** ** Round trips *)

Lemma parse_built protocol src dst id body : octets src → octets dst → 20 + len body < 2 ^ 16 →
  let header := build_header (20 + len body) protocol src dst id in
  parse (header ++ body) = Some (mkPacket header src dst protocol false 0 body).
Proof.
  intros Hs Hd Hl header. pose proof (len_nonneg body).
  assert (word 16 (20 + len body)) as Ht by (split; lia).
  assert (len (header ++ body) = 20 + len body) as El by (rewrite len_app; unfold header; by rewrite len_header).
  assert (be16 (header ++ body) 2 = 20 + len body) as Et.
  { unfold header. destruct (build_header_bytes (20 + len body) protocol src dst id) as [-> _]; [done..|].
    etrans; [|exact (be_bytes2_value _ Ht)]. unfold header_bytes. by rewrite !be_bytes2. }
  assert (slice (header ++ body) 20 (len body) = body) as Eb.
  { rewrite <- (len_header (20 + len body) protocol src dst id) by done. unfold slice, len.
    rewrite !Nat2Z.id. by rewrite drop_app_length, firstn_all. }
  assert (slice (header ++ body) 0 20 = header) as Eh.
  { rewrite <- (len_header (20 + len body) protocol src dst id) by done. unfold slice, len.
    rewrite Nat2Z.id, drop_0. by rewrite take_app_length. }
  assert ((header ++ body) !!! 0%nat = 0x45 ∧ (header ++ body) !!! 9%nat = protocol ∧
    be16 (header ++ body) 6 = 0 ∧ slice (header ++ body) 12 4 = src ∧ slice (header ++ body) 16 4 = dst)
    as (F0 & F9 & F6 & Fs & Fd).
  { unfold header. destruct (build_header_bytes (20 + len body) protocol src dst id) as [-> _]; [done..|].
    destruct Hs as (s0 & s1 & s2 & s3 & -> & _), Hd as (d0 & d1 & d2 & d3 & -> & _).
    unfold header_bytes. rewrite !be_bytes2. split_and!; reflexivity. }
  unfold parse. rewrite El, F0, Et, F6, F9, Fs, Fd. change ((0x45 .& 0x0F) * 4) with 20.
  rewrite Eh. replace (20 + len body - 20) with (len body) by lia. rewrite Eb.
  rewrite !(proj2 (Z.ltb_ge _ _)) by lia. reflexivity.
Qed.

(** The transport field of a packet: [segment] with its checksum at byte [2k]. *)
Lemma transport_filled src dst protocol segment (k : nat) :
  octets src → octets dst → word 8 protocol → Forall (word 8) segment → len segment < 2 ^ 16 →
  2 * Z.of_nat k + 2 ≤ len segment → segment !! (2 * k)%nat = Some 0 → segment !! S (2 * k) = Some 0 →
  let sum := transport_checksum src dst protocol segment in
  let filled := splice segment (2 * Z.of_nat k) (to_be_bytes 2 sum) in
  norm (pseudo_sum src dst protocol filled) = 65535 ∧
  splice filled (2 * Z.of_nat k) [0; 0] = segment ∧ be16 filled (2 * k) = sum ∧ len filled = len segment ∧
  Forall (word 8) filled.
Proof.
  intros Hs Hd Hp Hseg Hl Hk H0 H1 sum filled.
  assert (word 16 sum) as Hsum by (apply transport_checksum_word; done || lia).
  pose proof (sum_words_nonneg _ (octets_words _ Hs)). pose proof (sum_words_nonneg _ (octets_words _ Hd)).
  pose proof (sum_words_nonneg _ Hseg). assert (len filled = len segment) as El by apply len_splice.
  assert (len (to_be_bytes 2 sum) = 2) as E2 by (by apply len_to_be_bytes).
  split_and!; [|..|done|].
  - unfold pseudo_sum. rewrite El. unfold filled. rewrite sum_words_field by done.
    unfold sum. rewrite transport_checksum_spec by (done || lia).
    set (s := pseudo_sum src dst protocol segment).
    assert (0 ≤ s) as Hs0 by (destruct Hp; unfold s, pseudo_sum; lia).
    pose proof (norm_range s Hs0). rewrite Z.add_assoc. fold (pseudo_sum src dst protocol segment). fold s.
    rewrite <- norm_add by lia. by replace (norm s + (65535 - norm s)) with 65535 by lia.
  - unfold filled. apply list_eq. intros i. rewrite lookup_splice by (rewrite ?len_splice; change (len [0; 0]) with 2; lia).
    change (len [0; 0]) with 2. case_decide as Hi.
    + assert (i = (2 * k)%nat ∨ i = S (2 * k)) as [->| ->] by lia;
        [replace (2 * k - _)%nat with 0%nat by lia|replace (S (2 * k) - _)%nat with 1%nat by lia]; done.
    + rewrite lookup_splice by lia. by rewrite decide_False by lia.
  - etrans; [|exact (be_bytes2_value _ Hsum)]. unfold be16. rewrite be_bytes2. f_equal.
    unfold filled. rewrite be_bytes2. f_equal; [|f_equal]; apply list_lookup_total_correct;
      (rewrite lookup_splice by (change (len [_; _]) with 2; lia));
      change (len [_; _]) with 2; rewrite decide_True by lia.
    + by replace (2 * k - _)%nat with 0%nat by lia.
    + by replace (S (2 * k) - _)%nat with 1%nat by lia.
  - unfold filled. apply Forall_splice; [done|by apply to_be_bytes_words].
Qed.

(** The fields of a segment. *)
Record segment_ok (s : Segment) : Prop := mk_segment_ok {
  so_sport : word 16 (sport s);
  so_dport : word 16 (dport s);
  so_seq : word 32 (seq s);
  so_ack : word 32 (ack s);
  so_flags : word 8 (flags s);
  so_window : word 16 (window s);
  so_options : Forall (word 8) (options s) ∧ len (options s) `mod` 4 = 0 ∧ len (options s) ≤ 40;
  so_payload : Forall (word 8) (seg_payload s) ∧ len (seg_payload s) ≤ 65000
}.
(** The fields of a segment off the wire. *)
Lemma parse_segment_words data s : Forall (word 8) data → parse_segment data = Some s →
  word 32 (seq s) ∧ word 32 (ack s) ∧ word 16 (window s) ∧ Forall (word 8) (seg_payload s).
Proof.
  intros Hd. unfold parse_segment. destruct (_ <? _); [done|]. destruct (_ || _); [done|]. intros [= <-].
  split_and!; cbn; [by apply be32_word|by apply be32_word|by apply be16_word|by apply Forall_drop].
Qed.
Lemma parse_segment_ports data s : Forall (word 8) data → parse_segment data = Some s →
  word 16 (sport s) ∧ word 16 (dport s).
Proof.
  intros Hd. unfold parse_segment. destruct (_ <? _); [done|]. destruct (_ || _); [done|]. intros [= <-].
  split; by apply be16_word.
Qed.
Definition built (s : Segment) : list Z :=
  build_segment (sport s) (dport s) (seq s) (ack s) (flags s) (window s) (options s) (seg_payload s).

Lemma len_built s : len (built s) = 20 + len (options s) + len (seg_payload s).
Proof. unfold built, build_segment. autorewrite with len. lia. Qed.
Lemma built_words s : segment_ok s → Forall (word 8) (built s).
Proof.
  intros []. unfold built, build_segment. rewrite !Forall_app, !Forall_cons, !Forall_nil.
  assert (word 8 0) by (by apply word_const).
  split_and!; auto using to_be_bytes_words with lia; try apply word_wrap; try lia; naive_solver.
Qed.

Lemma to_be_bytes4 v : ∃ a b c d, to_be_bytes 4 v = [a; b; c; d].
Proof. unfold to_be_bytes, to_le_bytes. repeat eexists. Qed.
Lemma parse_segment_built s c : segment_ok s → parse_segment (splice (built s) 16 (to_be_bytes 2 c)) = Some s.
Proof.
  intros [Hsp Hdp Hsq Hak Hfl Hw (Ho & Ho4 & Ho40) (Hp & Hpl)].
  pose proof (len_built s) as El. unfold parse_segment. rewrite len_splice, El.
  pose proof (len_nonneg (options s)). pose proof (len_nonneg (seg_payload s)).
  rewrite (proj2 (Z.ltb_ge _ _)) by lia.
  destruct (to_be_bytes4 (seq s)) as (q0 & q1 & q2 & q3 & Eq), (to_be_bytes4 (ack s)) as (a0 & a1 & a2 & a3 & Ea).
  pose proof (be_bytes4_value _ Hsq) as Vq. pose proof (be_bytes4_value _ Hak) as Va.
  pose proof (be_bytes2_value _ Hsp) as Vs. pose proof (be_bytes2_value _ Hdp) as Vd.
  pose proof (be_bytes2_value _ Hw) as Vw.
  assert (((wrap 8 (wrap 8 (5 + len (options s) / 4) ≪ 4)) ≫ 4) * 4 = 20 + len (options s)) as Eo.
  { rewrite (wrap_small 8 (5 + _)) by (split; dlia). rewrite Z.shiftl_mul_pow2 by lia.
    rewrite wrap_small by (split; dlia). rewrite Z.shiftr_div_pow2, Z.div_mul by lia. dlia. }
  unfold built, build_segment. rewrite Eq, Ea, !be_bytes2 in *.
  cbn [app].
  set (data := splice _ _ _).
  assert (data !!! 12%nat = wrap 8 (wrap 8 (5 + len (options s) / 4) ≪ 4)) as -> by reflexivity.
  rewrite Eo. rewrite !(proj2 (Z.ltb_ge _ _)) by lia. cbn [orb].
  change (be16 data 0) with (from_be_bytes [wrap 8 (sport s ≫ 8); wrap 8 (sport s)]).
  change (be16 data 2) with (from_be_bytes [wrap 8 (dport s ≫ 8); wrap 8 (dport s)]).
  change (be32 data 4) with (from_be_bytes [q0; q1; q2; q3]).
  change (be32 data 8) with (from_be_bytes [a0; a1; a2; a3]).
  change (be16 data 14) with (from_be_bytes [wrap 8 (window s ≫ 8); wrap 8 (window s)]).
  change (data !!! 13%nat) with (flags s). rewrite Vs, Vd, Vq, Va, Vw.
  replace (20 + len (options s) - 20) with (len (options s)) by lia.
  assert (slice data 20 (len (options s)) = options s) as ->.
  { change (slice data 20 (len (options s))) with (take (Z.to_nat (len (options s))) (options s ++ seg_payload s)).
    unfold len. by rewrite Nat2Z.id, take_app_length. }
  assert (drop (Z.to_nat (20 + len (options s))) data = seg_payload s) as ->.
  { replace (Z.to_nat (20 + len (options s))) with (20 + length (options s))%nat by (unfold len; lia).
    rewrite <- drop_drop. change (drop 20 data) with (options s ++ seg_payload s). by rewrite drop_app_length. }
  by destruct s.
Qed.

(** A segment in a packet of the backend. *)
Lemma tcp_packet_parses src0 dst0 id (s : Segment) :
  octets src0 → octets dst0 → segment_ok s →
  ∃ p, parse (wrap_tcp src0 dst0 (built s) id) = Some p ∧
    src p = src0 ∧ dst p = dst0 ∧ protocol p = PROTOCOL_TCP ∧ more_fragments p = false ∧
    fragment_offset p = 0 ∧ header_checksum_ok (header p) = true ∧
    parse_segment (payload p) = Some s ∧ segment_checksum_ok p (payload p) = true ∧
    norm (pseudo_sum src0 dst0 PROTOCOL_TCP (payload p)) = 65535.
Proof.
  intros Hs Hd Hok. pose proof (built_words s Hok) as Hw. pose proof (len_built s) as El.
  pose proof (so_options s Hok) as (_ & _ & Ho). pose proof (so_payload s Hok) as (_ & Hp).
  pose proof (len_nonneg (options s)). pose proof (len_nonneg (seg_payload s)).
  assert (word 8 PROTOCOL_TCP) as H8 by (by apply word_const).
  destruct (transport_filled src0 dst0 PROTOCOL_TCP (built s) 8) as (Hn & Hz & Hb & Hl & Hf);
    [done..|lia|lia| | |].
  { unfold built, build_segment. rewrite !be_bytes2.
    destruct (to_be_bytes4 (seq s)) as (? & ? & ? & ? & ->), (to_be_bytes4 (ack s)) as (? & ? & ? & ? & ->). done. }
  { unfold built, build_segment. rewrite !be_bytes2.
    destruct (to_be_bytes4 (seq s)) as (? & ? & ? & ? & ->), (to_be_bytes4 (ack s)) as (? & ? & ? & ? & ->). done. }
  unfold wrap_tcp. eexists. split; [apply parse_built; [done..|rewrite len_splice; lia]|].
  cbn [src dst protocol more_fragments fragment_offset header payload]. split_and!; try done.
  - apply built_header_ok; try done. split; rewrite len_splice; lia.
  - by apply parse_segment_built.
  - unfold segment_checksum_ok. cbn [src dst]. change 16 with (2 * Z.of_nat 8). rewrite Hz.
    change 16%nat with (2 * 8)%nat. rewrite Hb. apply Z.eqb_refl.
Qed.

Lemma octets_const a b c d :
  (0 <=? a) && (a <? 256) && (0 <=? b) && (b <? 256) && (0 <=? c) && (c <? 256) && (0 <=? d) && (d <? 256) = true →
  octets [a; b; c; d].
Proof.
  intros E. exists a, b, c, d. split; [done|]. rewrite !Forall_cons, Forall_nil. unfold word.
  change (2 ^ 8) with 256. lia.
Qed.

(** A datagram the backend builds carries its ports and payload, and verifies. *)
Lemma udp_packet_parses src0 dst0 sport dport data id :
  octets src0 → octets dst0 → word 16 sport → word 16 dport → Forall (word 8) data → len data ≤ 65000 →
  ∃ p, parse (wrap_udp src0 dst0 sport dport data id) = Some p ∧
    src p = src0 ∧ dst p = dst0 ∧ protocol p = PROTOCOL_UDP ∧ more_fragments p = false ∧
    fragment_offset p = 0 ∧ header_checksum_ok (header p) = true ∧
    be16 (payload p) 0 = sport ∧ be16 (payload p) 2 = dport ∧ be16 (payload p) 4 = len (payload p) ∧
    drop 8 (payload p) = data ∧ norm (pseudo_sum src0 dst0 PROTOCOL_UDP (payload p)) = 65535.
Proof.
  intros Hs Hd Hsp Hdp Hdata Hl. pose proof (len_nonneg data) as Hl0.
  assert (word 8 PROTOCOL_UDP) as H8 by (by apply word_const). assert (word 8 0) as H0 by (by apply word_const).
  assert (word 16 (8 + len data)) as Hlw by (split; lia). unfold wrap_udp. rewrite (wrap_small 16 (8 + len data)) by done.
  set (udp := to_be_bytes 2 sport ++ _). assert (len udp = 8 + len data) as El by (unfold udp; autorewrite with len; lia).
  destruct (transport_filled src0 dst0 PROTOCOL_UDP udp 3) as (Hn & Hz & Hb & Hlf & Hf); [done..| |lia|lia|done|done|].
  { unfold udp. rewrite !Forall_app, !Forall_cons, !Forall_nil. split_and!; auto using to_be_bytes_words with lia. }
  eexists. split; [apply parse_built; [done..|rewrite len_splice; lia]|].
  cbn [src dst protocol more_fragments fragment_offset header payload]. split_and!; try done.
  - apply built_header_ok; try done. split; rewrite len_splice; lia.
  - etrans; [|exact (be_bytes2_value _ Hsp)]. unfold udp. by rewrite !be_bytes2.
  - etrans; [|exact (be_bytes2_value _ Hdp)]. unfold udp. by rewrite !be_bytes2.
  - rewrite len_splice, El. etrans; [|exact (be_bytes2_value _ Hlw)]. unfold udp. by rewrite !be_bytes2.
Qed.

(** An echo request is answered with its own identifier, sequence number and
    data, from the address it was sent to. *)
Lemma icmp_reply_echoes (q : Ipv4Packet) id reply id' :
  octets (src q) → octets (dst q) → Forall (word 8) (payload q) → len (payload q) ≤ 65000 →
  icmp_echo_reply q id = (Some reply, id') →
  id' = wrapping_add 16 id 1 ∧ be16 (payload q) 0 = 0x0800 ∧ checksum (payload q) = 0 ∧
  ∃ p, parse reply = Some p ∧ src p = dst q ∧ dst p = src q ∧ protocol p = PROTOCOL_ICMP ∧
    header_checksum_ok (header p) = true ∧ be16 (payload p) 0 = 0 ∧ drop 4 (payload p) = drop 4 (payload q) ∧
    checksum (payload p) = 0.
Proof.
  intros Hs Hd Hw Hl. unfold icmp_echo_reply.
  destruct (_ || _) eqn:Eg; [done|]. destruct (negb (checksum _ =? 0)) eqn:Ec; [done|].
  apply negb_false_iff, Z.eqb_eq in Ec. rewrite !orb_false_iff, !negb_false_iff, Z.ltb_ge, !Z.eqb_eq in Eg.
  destruct Eg as [[Hlen E0] E1]. cbn [next_identification]. intros [= <- <-].
  cbn [app]. set (icmp := 0 :: 0 :: 0 :: 0 :: drop 4 (payload q)).
  assert (Forall (word 8) icmp) as Hi.
  { unfold icmp. assert (word 8 0) by (by apply word_const). repeat constructor; try done. by apply Forall_drop. }
  assert (len icmp = len (payload q)) as Eli.
  { unfold icmp, len in *. cbn [length]. rewrite length_drop. lia. }
  split_and!; [done|unfold be16; rewrite E0, E1; reflexivity|done|].
  eexists. split; [apply parse_built; [done..|rewrite len_splice; lia]|].
  cbn [src dst protocol header payload]. split_and!; try done.
  - apply built_header_ok; [done..| |by apply word_const]. split; rewrite len_splice; lia.
  - rewrite checksum_spec.
    + pose proof (checksum_fills icmp 1 Hi ltac:(lia) eq_refl eq_refl) as E.
      change (2 * Z.of_nat 1) with 2 in E. by rewrite E.
    + apply Forall_splice; [done|by apply to_be_bytes_words].
Qed.

(** A request for the gateway's address is answered to its sender. *)
Lemma arp_reply_answers mac gateway_ip sender_mac sender_ip :
  length mac = 6%nat → length sender_mac = 6%nat → length gateway_ip = 4%nat → length sender_ip = 4%nat →
  ∃ frame body, Ether.build_arp_reply mac gateway_ip sender_mac sender_ip = Some frame ∧
    Ether.parse frame = Some (sender_mac, 0x0806, body) ∧ slice frame 6 6 = mac ∧
    be16 body 6 = 2 ∧ slice body 8 6 = mac ∧ slice body 14 4 = gateway_ip ∧ slice body 18 6 = sender_mac ∧
    slice body 24 4 = sender_ip.
Proof.
  intros Hm Hsm Hg Hs. do 6 (destruct mac as [|? mac]; [done|]). destruct mac; [|done].
  do 6 (destruct sender_mac as [|? sender_mac]; [done|]). destruct sender_mac; [|done].
  do 4 (destruct gateway_ip as [|? gateway_ip]; [done|]). destruct gateway_ip; [|done].
  do 4 (destruct sender_ip as [|? sender_ip]; [done|]). destruct sender_ip; [|done].
  eexists _, _. split; [reflexivity|]. split; [reflexivity|]. split_and!; reflexivity.
Qed.

(** C32: packets survive the wire. A TCP or UDP packet the backend builds parses
    back to the addresses, the ports and the segment or datagram it was built
    from; the header checksum verifies, and so does the transport checksum, by
    the receiver's rule that the ones' complement sum of the pseudo header and the
    payload is all ones. *)
Theorem packets_round_trip src0 dst0 id : octets src0 → octets dst0 →
  let arrives packet proto check := ∃ p, parse packet = Some p ∧ src p = src0 ∧ dst p = dst0 ∧
    protocol p = proto ∧ more_fragments p = false ∧ fragment_offset p = 0 ∧
    header_checksum_ok (header p) = true ∧ norm (pseudo_sum src0 dst0 proto (payload p)) = 65535 ∧ check p in
  (∀ s, segment_ok s → arrives (wrap_tcp src0 dst0 (built s) id) PROTOCOL_TCP
     (λ p, parse_segment (payload p) = Some s ∧ segment_checksum_ok p (payload p) = true)) ∧
  (∀ sp dp data, word 16 sp → word 16 dp → Forall (word 8) data → len data ≤ 65000 →
     arrives (wrap_udp src0 dst0 sp dp data id) PROTOCOL_UDP
       (λ p, be16 (payload p) 0 = sp ∧ be16 (payload p) 2 = dp ∧ be16 (payload p) 4 = len (payload p) ∧
             drop 8 (payload p) = data)).
Proof.
  intros Hs Hd arrives. split.
  - intros s Hok. destruct (tcp_packet_parses src0 dst0 id s Hs Hd Hok) as (p & ?). exists p. naive_solver.
  - intros sp dp data Hsp Hdp Hw Hl.
    destruct (udp_packet_parses src0 dst0 sp dp data id Hs Hd Hsp Hdp Hw Hl) as (p & ?). exists p. naive_solver.
Qed.

Lemma packets_round_trip_witness :
  ∃ p, parse (wrap_tcp [93; 184; 215; 14] [10; 0; 2; 15]
         (built (mkSegment 80 40000 7 9 0x12 0xFFFF [2; 4; 5; 180] [104; 105])) 5) = Some p ∧
    parse_segment (payload p) = Some (mkSegment 80 40000 7 9 0x12 0xFFFF [2; 4; 5; 180] [104; 105]).
Proof.
  destruct (packets_round_trip [93; 184; 215; 14] [10; 0; 2; 15] 5) as [E _].
  - by apply octets_const.
  - by apply octets_const.
  - destruct (E (mkSegment 80 40000 7 9 0x12 0xFFFF [2; 4; 5; 180] [104; 105]))
      as (p & Ep & _ & _ & _ & _ & _ & _ & _ & Es & _).
    + split; cbn; try (by apply word_const);
        (split; [repeat (constructor; [by apply word_const|]); constructor|done]).
    + exists p. split; [exact Ep|exact Es].
Defined.
