(* ===== verification/Tcp.v ===== *)
(** TCP termination: [rish-softvm-core/src/net/tcp.rs] and [tcp_fin.rs].

    A connection proxies one guest stream to one host socket. The host thread at
    the other end of the two bounded channels is the environment: it takes chunks
    from the queue of [guest_tx] and appends events to the queue of [host_rx].
    Times are nanoseconds. The connection table is a list of the connections in
    the order [poll] visits them. *)
From stdpp Require Import strings.
From S2P Require Import Prelude.
From S2P Require Import NetWire.
Local Open Scope Z_scope.

(** ** [net/mod.rs]: configuration and counters *)

Record NetConfig := mkConfig {
  cfg_mac : list Z;
  gateway_mac : list Z;
  guest_ip : list Z;
  gateway_ip : list Z;
  mtu : Z
}.
Definition slirp_defaults : NetConfig :=
  mkConfig [0x52; 0x54; 0x00; 0x12; 0x34; 0x56] [0x52; 0x55; 0x0A; 0x00; 0x02; 0x02]
    [10; 0; 2; 15] [10; 0; 2; 2] 1500.

Record NetCounters := mkCounters {
  arp_replies : Z;
  icmp_echo_replies : Z;
  dns_queries : Z;
  dns_answers : Z;
  dns_drops : Z;
  tcp_opened : Z;
  tcp_closed : Z;
  tcp_resets : Z;
  tcp_retransmits : Z;
  dropped_unknown_ethertype : Z;
  dropped_not_for_us : Z;
  dropped_not_ipv4 : Z;
  dropped_fragmented : Z;
  dropped_bad_checksum : Z;
  dropped_other_icmp : Z;
  dropped_other_udp : Z;
  dropped_bad_packet : Z
}.
#[export] Instance NetCounters_eta : Settable NetCounters := λ c,
  mkCounters (arp_replies c) (icmp_echo_replies c) (dns_queries c) (dns_answers c) (dns_drops c)
    (tcp_opened c) (tcp_closed c) (tcp_resets c) (tcp_retransmits c) (dropped_unknown_ethertype c)
    (dropped_not_for_us c) (dropped_not_ipv4 c) (dropped_fragmented c) (dropped_bad_checksum c)
    (dropped_other_icmp c) (dropped_other_udp c) (dropped_bad_packet c).
Definition NetCounters_default : NetCounters := mkCounters 0 0 0 0 0 0 0 0 0 0 0 0 0 0 0 0 0.
(** [x = x.saturating_add(1)] *)
Definition bump (n : Z) : Z := saturating_add 64 n 1.

Definition TCP_PENDING_CAP : Z := 256 * 1024.

(** What [handle] and [poll] borrow: the identification counter, the counters and
    the packets passed to [emit]. *)
Record Wire := mkWire {
  ip_id : Z;
  counters : NetCounters;
  emitted : list (list Z)
}.
#[export] Instance Wire_eta : Settable Wire := λ w, mkWire (ip_id w) (counters w) (emitted w).

Definition emit_tcp (remote guest segment : list Z) (w : Wire) : Wire :=
  let '(id, next) := next_identification (ip_id w) in
  w <| ip_id := next |> <| emitted ::= λ l, l ++ [wrap_tcp remote guest segment id] |>.
Definition count_reset (w : Wire) : Wire := w <| counters ::= λ c, c <| tcp_resets ::= bump |> |>.

(** ** Channels to the host thread *)

Inductive HostEvent :=
  | Connected
  | ConnectFailed (message : string)
  | Data (bytes : list Z)
  | Eof.

Definition CHANNEL_BOUND : Z := 32.
(** [SyncSender<Vec<u8>>]: the chunks not yet received. *)
Record SyncSender := mkSender { queued : list (list Z); receiver_alive : bool }.
(** [Receiver<HostEvent>]: the events not yet taken. *)
Record Receiver := mkReceiver { events : list HostEvent; sender_alive : bool }.
#[export] Instance SyncSender_eta : Settable SyncSender := λ s, mkSender (queued s) (receiver_alive s).
#[export] Instance Receiver_eta : Settable Receiver := λ r, mkReceiver (events r) (sender_alive r).

Inductive TrySend := Sent (s : SyncSender) | Full | Disconnected.
Definition try_send (data : list Z) (s : SyncSender) : TrySend :=
  if negb (receiver_alive s) then Disconnected
  else if len (queued s) <? CHANNEL_BOUND then Sent (s <| queued ::= λ q, q ++ [data] |>)
  else Full.

(** ** Connections *)

Definition OUR_WINDOW : Z := 0xFFFF.
Definition RETRANSMIT_TIMEOUT : Z := 750 * 1000000.
Definition MAX_RETRANSMITS : Z := 8.
Definition LINGER_TIMEOUT : Z := 30 * 1000000000.
Definition MAX_CONNECTIONS : Z := 64.
Definition MAX_UNACKED_SEGMENTS : Z := 64.

Record ConnKey := mkKey { local_port : Z; remote_addr : list Z; remote_port : Z }.
#[export] Instance ConnKey_eq_dec : EqDecision ConnKey.
Proof. solve_decision. Defined.

Record OutSeg := mkOutSeg { out_seq : Z; out_bytes : list Z; syn : bool; last_sent : Z }.
#[export] Instance OutSeg_eta : Settable OutSeg := λ o,
  mkOutSeg (out_seq o) (out_bytes o) (syn o) (last_sent o).

Record TcpConn := mkConn {
  key : ConnKey;
  established : bool;
  guest_next : Z;
  guest_window : Z;
  guest_mss : Z;
  our_isn : Z;
  our_next : Z;
  our_una : Z;
  pending : list Z;
  unacked : list OutSeg;
  retransmit_deadline : option Z;
  retransmits : Z;
  held_guest : option (list Z);
  guest_tx : SyncSender;
  host_rx : Receiver;
  fin_sent : bool;
  fin_acked : bool;
  fin_seq : Z;
  fin_pending : bool;
  guest_fin : bool;
  guest_fin_acked : bool;
  host_eof : bool;
  linger_deadline : option Z;
  closed : bool
}.
#[export] Instance TcpConn_eta : Settable TcpConn := λ c,
  mkConn (key c) (established c) (guest_next c) (guest_window c) (guest_mss c) (our_isn c) (our_next c)
    (our_una c) (pending c) (unacked c) (retransmit_deadline c) (retransmits c) (held_guest c) (guest_tx c)
    (host_rx c) (fin_sent c) (fin_acked c) (fin_seq c) (fin_pending c) (guest_fin c) (guest_fin_acked c)
    (host_eof c) (linger_deadline c) (closed c).

Definition seq_gt (a b : Z) : bool := 0 <? signed 32 (wrapping_sub 32 a b).
Definition seq_ge (a b : Z) : bool := 0 <=? signed 32 (wrapping_sub 32 a b).
Definition seq_lt (a b : Z) : bool := signed 32 (wrapping_sub 32 a b) <? 0.
Definition seq_le (a b : Z) : bool := signed 32 (wrapping_sub 32 a b) <=? 0.

Record TcpState := mkTcp { connections : list TcpConn; next_isn : Z }.
#[export] Instance TcpState_eta : Settable TcpState := λ s, mkTcp (connections s) (next_isn s).

Section connection.
Context (config : NetConfig).

(** A segment of the connection, from the remote host to the guest. *)
Definition send_segment (conn : TcpConn) (seq flags window : Z) (options bytes : list Z) (w : Wire) : Wire :=
  emit_tcp (remote_addr (key conn)) (guest_ip config)
    (build_segment (remote_port (key conn)) (local_port (key conn)) seq (guest_next conn) flags window
       options bytes) w.
Definition send_ack (conn : TcpConn) (w : Wire) : Wire :=
  send_segment conn (our_next conn) FLAG_ACK OUR_WINDOW [] [] w.
Definition MSS_OPTION : list Z := [2; 4; wrap 8 (OUR_MSS ≫ 8); wrap 8 OUR_MSS].

(** Drop the acknowledged segments at the front of the queue. *)
Fixpoint pop_acked (ack : Z) (q : list OutSeg) : list OutSeg :=
  match q with
  | front :: rest =>
      if seq_ge ack (wrapping_add 32 (out_seq front) (wrap 32 (len (out_bytes front))))
      then pop_acked ack rest else q
  | [] => []
  end.

Definition process_ack (ack window : Z) (conn : TcpConn) : TcpConn :=
  let conn := conn <| guest_window := window |> in
  if seq_ge ack (our_una conn) && seq_le ack (our_next conn) then
    let conn :=
      if seq_gt ack (our_una conn) then
        let conn := conn <| unacked ::= pop_acked ack |> <| our_una := ack |> <| retransmits := 0 |> in
        match unacked conn with [] => conn <| retransmit_deadline := None |> | _ => conn end
      else conn in
    let conn :=
      if negb (established conn) && (ack =? wrapping_add 32 (our_isn conn) 1)
      then conn <| established := true |> else conn in
    if fin_sent conn && seq_ge ack (our_next conn) then conn <| fin_acked := true |> else conn
  else conn.

(** The payload of a segment: the new connection and whether to acknowledge, or
    [None] when the host side is gone. *)
Definition process_payload (segment : Segment) (conn : TcpConn) : option (TcpConn * bool) :=
  match seg_payload segment with
  | [] => Some (conn, false)
  | payload =>
      if (seq segment =? guest_next conn) && established conn && negb (guest_fin conn) then
        match try_send payload (guest_tx conn) with
        | Sent tx =>
            Some (conn <| guest_tx := tx |>
                       <| guest_next ::= λ n, wrapping_add 32 n (wrap 32 (len payload)) |>, true)
        | Full => Some (conn <| held_guest := Some payload |>, false)
        | Disconnected => None
        end
      else Some (conn, seq_lt (seq segment) (guest_next conn))
  end.

Definition process_fin (segment : Segment) (conn : TcpConn) (ack_needed : bool) : TcpConn * bool :=
  if has (flags segment) FLAG_FIN then
    let fin_seq := wrapping_add 32 (seq segment) (wrap 32 (len (seg_payload segment))) in
    if fin_seq =? guest_next conn then
      (conn <| guest_next ::= λ n, wrapping_add 32 n 1 |> <| guest_fin := true |>, true)
    else (conn, ack_needed || seq_lt fin_seq (guest_next conn))
  else (conn, ack_needed).

Definition process_segment (segment : Segment) (conn : TcpConn) (w : Wire) : TcpConn * Wire :=
  if has (flags segment) FLAG_RST then
    if (seq segment =? guest_next conn) || (seq segment =? wrapping_sub 32 (guest_next conn) 1)
    then (conn <| closed := true |>, count_reset w) else (conn, w)
  else
    let conn :=
      if has (flags segment) FLAG_ACK then process_ack (ack segment) (window segment) conn else conn in
    match process_payload segment conn with
    | None => (conn <| closed := true |>, count_reset w)
    | Some (conn, ack_needed) =>
        let '(conn, ack_needed) := process_fin segment conn ack_needed in
        let '(conn, w) :=
          if ack_needed then
            let conn := if guest_fin conn && negb (guest_fin_acked conn)
                        then conn <| guest_fin_acked := true |> else conn in
            (conn, send_ack conn w)
          else (conn, w) in
        (if guest_fin conn && guest_fin_acked conn && negb (fin_sent conn)
         then conn <| fin_pending := true |> else conn, w)
    end.

Definition send_syn_ack (now : Z) (conn : TcpConn) (w : Wire) : TcpConn * Wire :=
  (conn <| unacked ::= λ q, q ++ [mkOutSeg (our_isn conn) [] true now] |>
        <| retransmit_deadline := Some (now + RETRANSMIT_TIMEOUT) |>,
   send_segment conn (our_isn conn) (FLAG_SYN .| FLAG_ACK) OUR_WINDOW MSS_OPTION [] w).

Definition host_event (now : Z) (event : HostEvent) (conn : TcpConn) (w : Wire) : TcpConn * Wire :=
  match event with
  | Connected =>
      if negb (established conn) && (len (unacked conn) =? 0) then send_syn_ack now conn w else (conn, w)
  | ConnectFailed _ =>
      let seq := if established conn then our_next conn else our_isn conn in
      (conn <| closed := true |>,
       count_reset (send_segment conn seq (FLAG_RST .| FLAG_ACK) 0 [] [] w))
  | Data bytes => (conn <| pending ::= λ p, p ++ bytes |>, w)
  | Eof => (conn <| host_eof := true |> <| fin_pending := true |>, w)
  end.

(** The loop of [drain_host_events] over the queued events [es]. *)
Fixpoint drain_loop (now : Z) (es : list HostEvent) (conn : TcpConn) (w : Wire) : TcpConn * Wire :=
  if TCP_PENDING_CAP <=? len (pending conn) then (conn, w)
  else
    match es with
    | [] =>
        (if sender_alive (host_rx conn) then conn
         else conn <| host_eof := true |> <| fin_pending := true |>, w)
    | event :: es =>
        let '(conn, w) := host_event now event (conn <| host_rx ::= λ r, r <| events := es |> |>) w in
        drain_loop now es conn w
    end.
Definition drain_host_events (now : Z) (conn : TcpConn) (w : Wire) : TcpConn * Wire :=
  drain_loop now (events (host_rx conn)) conn w.

Definition retry_held (conn : TcpConn) (w : Wire) : TcpConn * Wire :=
  match held_guest conn with
  | None => (conn, w)
  | Some held =>
      let conn := conn <| held_guest := None |> in
      match try_send held (guest_tx conn) with
      | Sent tx =>
          let conn := conn <| guest_tx := tx |>
                           <| guest_next ::= λ n, wrapping_add 32 n (wrap 32 (len held)) |> in
          (conn, send_ack conn w)
      | Full => (conn <| held_guest := Some held |>, w)
      | Disconnected => (conn <| closed := true |>, w)
      end
  end.

(** The loop of [send_pending]: a round takes at least one byte, so the length of
    [pending] is enough fuel. *)
Fixpoint send_loop (fuel : nat) (now : Z) (conn : TcpConn) (w : Wire) : TcpConn * Wire :=
  match fuel with
  | O => (conn, w)
  | S fuel =>
      if negb (len (pending conn) =? 0) && (len (unacked conn) <? MAX_UNACKED_SEGMENTS) then
        let in_flight := wrapping_sub 32 (our_next conn) (our_una conn) in
        if guest_window conn <=? in_flight then (conn, w)
        else
          let amount :=
            Z.min (Z.min (len (pending conn)) (guest_mss conn)) (guest_window conn - in_flight) in
          if amount =? 0 then (conn, w)
          else
            let bytes := take (Z.to_nat amount) (pending conn) in
            let w := send_segment conn (our_next conn) FLAG_ACK OUR_WINDOW [] bytes w in
            let conn :=
              conn <| pending ::= drop (Z.to_nat amount) |>
                   <| unacked ::= λ q, q ++ [mkOutSeg (our_next conn) bytes false now] |>
                   <| our_next ::= λ n, wrapping_add 32 n (wrap 32 (len bytes)) |>
                   <| retransmit_deadline := Some (now + RETRANSMIT_TIMEOUT) |> in
            send_loop fuel now conn w
      else (conn, w)
  end.
Definition send_pending (now : Z) (conn : TcpConn) (w : Wire) : TcpConn * Wire :=
  send_loop (length (pending conn)) now conn w.

(** One segment of the queue again. *)
Definition resend (conn : TcpConn) (front : OutSeg) (w : Wire) : Wire :=
  send_segment conn (out_seq front) (if syn front then FLAG_SYN .| FLAG_ACK else FLAG_ACK) OUR_WINDOW
    (if syn front then MSS_OPTION else []) (out_bytes front) w.

Definition retransmit (now : Z) (conn : TcpConn) (w : Wire) : TcpConn * Wire :=
  match retransmit_deadline conn with
  | None => (conn, w)
  | Some deadline =>
      if now <? deadline then (conn, w)
      else
        let conn := conn <| retransmits ::= λ n, saturating_add 32 n 1 |> in
        if MAX_RETRANSMITS <? retransmits conn then
          (conn <| closed := true |>,
           count_reset (send_segment conn (our_next conn) (FLAG_RST .| FLAG_ACK) 0 [] [] w))
        else
          let again (conn : TcpConn) (w : Wire) :=
            (conn <| retransmit_deadline := Some (now + RETRANSMIT_TIMEOUT) |>,
             w <| counters ::= λ c, c <| tcp_retransmits ::= bump |> |>) in
          if negb (len (unacked conn) =? 0) then
            again (conn <| unacked ::= fmap (λ o, o <| last_sent := now |>) |>)
              (foldl (λ w front, resend conn front w) w (unacked conn))
          else if fin_sent conn && negb (fin_acked conn) then
            again conn (send_segment conn (fin_seq conn) (FLAG_FIN .| FLAG_ACK) OUR_WINDOW [] [] w)
          else (conn <| retransmit_deadline := None |>, w)
  end.

Definition maybe_send_fin (now : Z) (conn : TcpConn) (w : Wire) : TcpConn * Wire :=
  if fin_sent conn || negb (fin_pending conn) then (conn, w)
  else if negb (len (pending conn) =? 0) || negb (len (unacked conn) =? 0) then (conn, w)
  else
    (conn <| fin_seq := our_next conn |>
          <| our_next ::= λ n, wrapping_add 32 n 1 |>
          <| fin_sent := true |>
          <| retransmit_deadline := Some (now + RETRANSMIT_TIMEOUT) |>,
     send_segment conn (our_next conn) (FLAG_FIN .| FLAG_ACK) OUR_WINDOW [] [] w).

(** The part of [poll] for one connection. *)
Definition unless_closed (f : TcpConn → Wire → TcpConn * Wire) (s : TcpConn * Wire) : TcpConn * Wire :=
  if closed s.1 then s else f s.1 s.2.
Definition teardown (now : Z) (conn : TcpConn) : TcpConn :=
  if fin_sent conn && fin_acked conn && guest_fin conn && guest_fin_acked conn
  then conn <| closed := true |>
  else if fin_acked conn && negb (guest_fin conn) then
    let deadline := default (now + LINGER_TIMEOUT) (linger_deadline conn) in
    let conn := conn <| linger_deadline := Some deadline |> in
    if deadline <=? now then conn <| closed := true |> else conn
  else conn.
Definition poll_conn (now : Z) (conn : TcpConn) (w : Wire) : TcpConn * Wire :=
  let s := drain_host_events now conn w in
  let s := unless_closed retry_held s in
  let s := unless_closed (send_pending now) s in
  let s := unless_closed (retransmit now) s in
  let s := unless_closed (maybe_send_fin now) s in
  unless_closed (λ conn w, (teardown now conn, w)) s.

Fixpoint poll_all (now : Z) (conns : list TcpConn) (w : Wire) : list TcpConn * Wire :=
  match conns with
  | [] => ([], w)
  | conn :: conns =>
      let '(conn, w) := poll_conn now conn w in
      let '(conns, w) := poll_all now conns w in
      (conn :: conns, w)
  end.
(** The closed connections are removed after the loop. *)
Definition poll (now : Z) (s : TcpState) (w : Wire) : TcpState * Wire :=
  let '(conns, w) := poll_all now (connections s) w in
  let count := length (filter (λ c, closed c = true) conns) in
  (s <| connections := filter (λ c, closed c = false) conns |>,
   w <| counters ::= λ c, c <| tcp_closed ::= Nat.iter count bump |> |>).
End connection.

Definition new (isn : Z) : TcpState := mkTcp [] isn.
Definition reset (s : TcpState) : TcpState := s <| connections := [] |>.

Definition find_conn (k : ConnKey) (s : TcpState) : option TcpConn :=
  list_find (λ c, key c = k) (connections s) ≫= λ '(_, c), Some c.
Definition replace_conn (conn : TcpConn) (s : TcpState) : TcpState :=
  s <| connections ::= fmap (λ c, if decide (key c = key conn) then conn else c) |>.

(** [Ord::clamp] *)
Definition clamp (x low high : Z) : Z := Z.max low (Z.min x high).

(** The connection of a SYN. *)
Definition opened (k : ConnKey) (segment : Segment) (isn : Z) : TcpConn :=
  mkConn k false (wrapping_add 32 (seq segment) 1) (window segment)
    (clamp (default 536 (parse_mss (options segment))) 1 OUR_MSS) isn (wrapping_add 32 isn 1) isn
    [] [] None 0 None (mkSender [] true) (mkReceiver [] true) false false 0 false false false false
    None false.
Definition open (k : ConnKey) (segment : Segment) (s : TcpState) (w : Wire) : TcpState * Wire :=
  match find_conn k s with
  | Some _ => (s, w)
  | None =>
      let isn := next_isn s in
      (s <| connections ::= λ l, l ++ [opened k segment isn] |> <| next_isn := wrapping_add 32 isn 0x2F6B35C5 |>,
       w <| counters ::= λ c, c <| tcp_opened ::= bump |> |>)
  end.

(** The refusal of a segment that has no connection. *)
Definition refuse (config : NetConfig) (k : ConnKey) (segment : Segment) (w : Wire) : Wire :=
  count_reset (emit_tcp (remote_addr k) (guest_ip config)
    (build_segment (dport segment) (sport segment) (ack segment) 0 (FLAG_RST .| FLAG_ACK) 0 [] []) w).

Definition handle (config : NetConfig) (packet : Ipv4Packet) (s : TcpState) (w : Wire) : TcpState * Wire :=
  let data := payload packet in
  match parse_segment data with
  | None => (s, w <| counters ::= λ c, c <| dropped_bad_packet ::= bump |> |>)
  | Some segment =>
      if negb (segment_checksum_ok packet data)
      then (s, w <| counters ::= λ c, c <| dropped_bad_checksum ::= bump |> |>)
      else if negb (bool_decide (src packet = guest_ip config))
      then (s, w <| counters ::= λ c, c <| dropped_not_for_us ::= bump |> |>)
      else
        let k := mkKey (sport segment) (dst packet) (dport segment) in
        if has (flags segment) FLAG_SYN && negb (has (flags segment) FLAG_ACK) then
          if bool_decide (find_conn k s = None) && (MAX_CONNECTIONS <=? len (connections s))
          then (s, refuse config k segment w)
          else open k segment s w
        else
          match find_conn k s with
          | None => (s, if negb (has (flags segment) FLAG_RST) then refuse config k segment w else w)
          | Some conn =>
              let '(conn, w) := process_segment config segment conn w in
              (replace_conn conn s, w)
          end
  end.

(** A wire nothing has been sent on, for the examples. *)
Definition demo_wire : Wire := mkWire 1 NetCounters_default [].
