(* ===== verification/TcpStream.v ===== *)
(** The byte streams of a TCP connection ([rish-softvm-core/src/net/tcp.rs]).

    Sequence numbers are 32-bit words; [index_seq] places stream positions on
    them (0 is the SYN, 1 the first byte), and comparisons agree with the
    positions as long as less than 2^31 is in flight. The invariant of a session
    says where every byte of the host's stream is: acknowledged, in the
    retransmission queue, pending, or still in the channel. *)
From stdpp Require Import strings.
From S2P Require Import Prelude.
From S2P Require Import NetWire.
From S2P Require Import Tcp.
Local Open Scope Z_scope.

(** ** Sequence numbers *)

(** The sequence number of position [k] of a stream. *)
Definition index_seq (isn k : Z) : Z := wrap 32 (isn + k).

Lemma index_seq_word isn k : word 32 (index_seq isn k).
Proof. by apply word_wrap. Qed.
Lemma index_seq_add isn k n : wrapping_add 32 (index_seq isn k) n = index_seq isn (k + n).
Proof. unfold index_seq, wrapping_add, wrap. rewrite Zplus_mod_idemp_l. f_equal. lia. Qed.
Lemma wrap_add_idemp isn k n : wrapping_add 32 (index_seq isn k) (wrap 32 n) = index_seq isn (k + n).
Proof. unfold index_seq, wrapping_add, wrap. rewrite <- Zplus_mod. f_equal. lia. Qed.

(** The signed distance of two positions less than 2^31 apart. *)
Lemma seq_distance isn j k : - 2 ^ 31 < j - k < 2 ^ 31 →
  signed 32 (wrapping_sub 32 (index_seq isn j) (index_seq isn k)) = j - k.
Proof.
  intros Hd. unfold index_seq, wrapping_sub, wrap. rewrite <- Zminus_mod.
  replace (isn + j - (isn + k)) with (j - k) by lia. unfold signed. change (2 ^ (32 - 1)) with (2 ^ 31).
  destruct (Z.ltb_spec ((j - k) `mod` 2 ^ 32) (2 ^ 31)); dlia.
Qed.

Lemma seq_ge_index isn j k : - 2 ^ 31 < j - k < 2 ^ 31 → seq_ge (index_seq isn j) (index_seq isn k) = (k <=? j).
Proof.
  intros. unfold seq_ge. rewrite seq_distance by done.
  destruct (Z.leb_spec 0 (j - k)), (Z.leb_spec k j); (done || lia).
Qed.
Lemma seq_gt_index isn j k : - 2 ^ 31 < j - k < 2 ^ 31 → seq_gt (index_seq isn j) (index_seq isn k) = (k <? j).
Proof.
  intros. unfold seq_gt. rewrite seq_distance by done.
  destruct (Z.ltb_spec 0 (j - k)), (Z.ltb_spec k j); (done || lia).
Qed.

(** An acceptable acknowledgement is a position of the window. *)
Lemma acceptable_ack isn una nxt ack : 0 ≤ nxt - una < 2 ^ 31 → word 32 ack →
  seq_ge ack (index_seq isn una) && seq_le ack (index_seq isn nxt) = true →
  ∃ k, una ≤ k ≤ nxt ∧ ack = index_seq isn k.
Proof.
  intros Hw Hack [Hge Hle]%andb_prop. set (d := wrapping_sub 32 ack (index_seq isn una)).
  assert (0 ≤ d < 2 ^ 32) as Hd by (by apply word_wrap). unfold seq_ge in Hge. fold d in Hge.
  assert (ack = index_seq isn (una + d)) as E.
  { unfold d, index_seq, wrapping_sub, wrap. rewrite Zminus_mod_idemp_r.
    replace (isn + (una + (ack - (isn + una)) `mod` 2 ^ 32)) with ((isn + una) + (ack - (isn + una)) `mod` 2 ^ 32) by lia.
    rewrite Zplus_mod_idemp_r. replace (isn + una + (ack - (isn + una))) with ack by lia.
    symmetry. by apply Z.mod_small. }
  assert (d < 2 ^ 31) as Hd31.
  { unfold signed in Hge. change (2 ^ (32 - 1)) with (2 ^ 31) in Hge. destruct (Z.ltb_spec d (2 ^ 31)); lia. }
  exists (una + d). split; [|done]. unfold seq_le in Hle. rewrite E, seq_distance in Hle by lia. lia.
Qed.

(** The acknowledgement [ack] read as a position, from the last one acknowledged on. *)
Definition ack_position (isn una ack : Z) : Z := una + wrap 32 (ack - (isn + una)).
Lemma ack_position_seq isn una ack : word 32 ack → index_seq isn (ack_position isn una ack) = ack.
Proof.
  intros Hack. unfold ack_position, index_seq, wrap. rewrite Z.add_assoc, Zplus_mod_idemp_r.
  replace (isn + una + (ack - (isn + una))) with ack by lia. by apply Z.mod_small.
Qed.
(** The acknowledgements taken are those of positions of the window. *)
Lemma ack_taken isn una nxt ack : 0 ≤ nxt - una < 2 ^ 31 → word 32 ack →
  seq_ge ack (index_seq isn una) && seq_le ack (index_seq isn nxt) = (ack_position isn una ack <=? nxt).
Proof.
  intros Hw Hack. destruct (seq_ge _ _ && _) eqn:E.
  - destruct (acceptable_ack _ _ _ _ Hw Hack E) as (k & Hk & ->). symmetry. apply Z.leb_le.
    unfold ack_position, index_seq, wrap. rewrite Zminus_mod_idemp_l. replace (isn + k - (isn + una)) with (k - una) by lia.
    rewrite Z.mod_small; lia.
  - symmetry. apply Z.leb_gt. apply Z.nle_gt. intros Hle. assert (una ≤ ack_position isn una ack).
    { unfold ack_position. pose proof (word_wrap 32 (ack - (isn + una)) ltac:(lia)) as []. lia. }
    rewrite <- (ack_position_seq isn una ack Hack) in E at 1 2. unfold seq_le in E.
    rewrite seq_ge_index, seq_distance, (proj2 (Z.leb_le _ _)), (proj2 (Z.leb_le _ _)) in E by lia. done.
Qed.

(** ** Sessions *)

(** The bytes of the data events of a channel. *)
Definition event_bytes (e : HostEvent) : list Z := match e with Data bytes => bytes | _ => [] end.
Definition queued_bytes (es : list HostEvent) : list Z := concat (event_bytes <$> es).

(** A connection with the bytes the host has sent on it. *)
Record Session := mkSession {
  host_bytes : list Z;
  announced : bool;
  conn : TcpConn;
  wire : Wire
}.

(** The data segments of the queue carry the bytes of [H] from [a] on, at the
    position after the SYN and [shift] FINs. *)
Fixpoint chained (H : list Z) (isn shift a : Z) (q : list OutSeg) : Prop :=
  match q with
  | [] => True
  | o :: q =>
      syn o = false ∧ out_seq o = index_seq isn (1 + shift + a) ∧ 0 < len (out_bytes o) ≤ OUR_MSS ∧
      out_bytes o = slice H a (len (out_bytes o)) ∧ chained H isn shift (a + len (out_bytes o)) q
  end.
Definition queue_len (q : list OutSeg) : Z := len (concat (out_bytes <$> q)).

(** A packet the backend may send: from the remote host to the guest, valid, and
    with bytes of the host's stream at their own positions. *)
Definition faithful (config : NetConfig) (k : ConnKey) (H : list Z) (isn : Z) (fin : bool) (packet : list Z) : Prop :=
  ∃ p s, parse packet = Some p ∧ src p = remote_addr k ∧ dst p = guest_ip config ∧
    protocol p = PROTOCOL_TCP ∧ header_checksum_ok (header p) = true ∧
    parse_segment (payload p) = Some s ∧ segment_checksum_ok p (payload p) = true ∧
    sport s = remote_port k ∧ dport s = local_port k ∧
    (seg_payload s = [] ∨
     ∃ o, 0 ≤ o ∧ o + len (seg_payload s) ≤ len H ∧ seg_payload s = slice H o (len (seg_payload s)) ∧
       (seq s = index_seq isn (1 + o) ∨ fin = true ∧ seq s = index_seq isn (2 + o))).

(** Stream positions: [acked] bytes are off the queue, [sent] have been sent, and
    [una] is the first unacknowledged position. *)
Record positions := mkPositions { acked : Z; sent : Z; una : Z }.

Definition key_ok (k : ConnKey) : Prop :=
  word 16 (local_port k) ∧ octets (remote_addr k) ∧ word 16 (remote_port k).

(** The queue: the SYN-ACK while it is unacknowledged, then data. *)
Definition queue_ok (H : list Z) (isn shift : Z) (p : positions) (q : list OutSeg) : Prop :=
  ∃ front data, q = front ++ data ∧ chained H isn shift (acked p) data ∧
    acked p + queue_len data = sent p ∧
    (front = [] ∨ ∃ t, front = [mkOutSeg (index_seq isn 0) [] true t] ∧ una p ≤ 2).

Record session_ok (config : NetConfig) (s : Session) (p : positions) : Prop := mk_session_ok {
  ok_key : key_ok (key (conn s));
  ok_guest_next : word 32 (guest_next (conn s));
  ok_window : word 16 (guest_window (conn s));
  ok_fin_seq : word 32 (fin_seq (conn s));
  ok_mss : 1 ≤ guest_mss (conn s) ≤ OUR_MSS;
  ok_bytes : Forall (word 8) (host_bytes s);
  ok_isn : our_isn (conn s) = index_seq (our_isn (conn s)) 0;
  ok_next : our_next (conn s) = index_seq (our_isn (conn s)) (1 + sent p + Z.b2z (fin_sent (conn s)));
  ok_una : our_una (conn s) = index_seq (our_isn (conn s)) (una p);
  ok_flight : 0 ≤ una p ∧ 0 ≤ 1 + sent p + Z.b2z (fin_sent (conn s)) - una p ≤ 65535 + Z.b2z (fin_sent (conn s));
  ok_sent : 0 ≤ acked p ≤ sent p;
  ok_acked : acked p = 0 ∨ 1 + acked p ≤ una p;
  ok_front : acked p = sent p ∨ una p ≤ 1 + Z.b2z (fin_sent (conn s)) + acked p + OUR_MSS;
  ok_stream : drop (Z.to_nat (sent p)) (host_bytes s) = pending (conn s) ++ queued_bytes (events (host_rx (conn s)))
    ∧ sent p ≤ len (host_bytes s);
  ok_queue : queue_ok (host_bytes s) (our_isn (conn s)) (Z.b2z (fin_sent (conn s))) p (unacked (conn s));
  ok_connected : ∀ i, events (host_rx (conn s)) !! i = Some Connected →
    i = 0%nat ∧ announced s = true ∧ sent p = 0 ∧ pending (conn s) = [];
  ok_silent : announced s = false → host_bytes s = [];
  ok_emitted : Forall (faithful config (key (conn s)) (host_bytes s) (our_isn (conn s)) (fin_sent (conn s)))
                 (emitted (wire s))
}.

Section stream.
Context (config : NetConfig) (Hguest : octets (guest_ip config)).
Implicit Types (c : TcpConn) (w : Wire) (H : list Z) (p : positions).

(** ** Emitted packets *)

Lemma faithful_mono k H H' isn (fin fin' : bool) packet : (fin = true → fin' = true) →
  faithful config k H isn fin packet → faithful config k (H ++ H') isn fin' packet.
Proof.
  intros Hf (q & s & E1 & E2 & E3 & E4 & E5 & E6 & E7 & E8 & E9 & Hd). exists q, s. split_and!; try done.
  destruct Hd as [Hd|(o & Ho & Hl & Hs & Hq)]; [by left|right]. exists o. rewrite len_app.
  pose proof (len_nonneg H'). split_and!; [done|lia| |naive_solver].
  rewrite Hs at 1. unfold slice. rewrite drop_app_le by (unfold len in *; lia).
  rewrite take_app_le; [done|]. rewrite length_drop. unfold len in *. lia.
Qed.

(** The segment [send_segment] builds. *)
Lemma send_faithful c w H isn fin seq flags window opts bytes :
  key_ok (key c) → word 32 (guest_next c) → word 32 seq → word 8 flags → word 16 window →
  Forall (word 8) opts → len opts `mod` 4 = 0 → len opts ≤ 40 → Forall (word 8) bytes → len bytes ≤ OUR_MSS →
  (bytes = [] ∨ ∃ o, 0 ≤ o ∧ o + len bytes ≤ len H ∧ bytes = slice H o (len bytes) ∧
     (seq = index_seq isn (1 + o) ∨ fin = true ∧ seq = index_seq isn (2 + o))) →
  Forall (faithful config (key c) H isn fin) (emitted w) →
  Forall (faithful config (key c) H isn fin) (emitted (send_segment config c seq flags window opts bytes w)).
Proof.
  intros (Hlp & Hra & Hrp) Hgn Hseq Hfl Hwin Ho Ho4 Ho40 Hb Hbl Hdata Hem.
  unfold send_segment, emit_tcp. cbn. apply Forall_app. split; [done|]. apply Forall_singleton.
  set (s := mkSegment (remote_port (key c)) (local_port (key c)) seq (guest_next c) flags window opts bytes).
  change (build_segment _ _ _ _ _ _ _ _) with (built s).
  destruct (tcp_packet_parses (remote_addr (key c)) (guest_ip config) (ip_id w) s)
    as (q & E1 & E2 & E3 & E4 & _ & _ & E5 & E6 & E7 & _); [done..| |].
  { split; cbn; try done. split; [done|]. unfold OUR_MSS in Hbl. lia. }
  by exists q, s.
Qed.

(** ** Steps that leave the stream alone *)

(** The fields of a connection the invariant reads, apart from the window. *)
Definition same_stream c c' : Prop :=
  key c' = key c ∧ our_isn c' = our_isn c ∧ our_next c' = our_next c ∧ our_una c' = our_una c ∧
  pending c' = pending c ∧ unacked c' = unacked c ∧ host_rx c' = host_rx c ∧ fin_sent c' = fin_sent c ∧
  guest_mss c' = guest_mss c ∧ fin_seq c' = fin_seq c.

Lemma same_stream_ok H ann c c' w w' p : same_stream c c' → word 32 (guest_next c') → word 16 (guest_window c') →
  (Forall (faithful config (key c) H (our_isn c) (fin_sent c)) (emitted w) →
   Forall (faithful config (key c) H (our_isn c) (fin_sent c)) (emitted w')) →
  session_ok config (mkSession H ann c w) p → session_ok config (mkSession H ann c' w') p.
Proof.
  intros (E1 & E2 & E3 & E4 & E5 & E6 & E7 & E8 & E9 & E10) Hg Hw He [].
  split; cbn in *; rewrite ?E1, ?E2, ?E3, ?E4, ?E5, ?E6, ?E7, ?E8, ?E9, ?E10; auto.
Qed.

(** A segment without payload. *)
Lemma control_emitted c w H seq flags window opts :
  key_ok (key c) → word 32 (guest_next c) → word 32 seq → word 8 flags → word 16 window →
  opts = [] ∨ opts = MSS_OPTION →
  Forall (faithful config (key c) H (our_isn c) (fin_sent c)) (emitted w) →
  Forall (faithful config (key c) H (our_isn c) (fin_sent c)) (emitted (send_segment config c seq flags window opts [] w)).
Proof.
  intros Hk Hg Hs Hf Hw Ho. apply send_faithful; try done; [| | |by left].
  - destruct Ho as [->| ->]; [constructor|]. repeat (constructor; [by apply word_const|]). constructor.
  - by destruct Ho as [->| ->].
  - by destruct Ho as [->| ->].
Qed.
Lemma next_word H ann c w p : session_ok config (mkSession H ann c w) p → word 32 (our_next c).
Proof. intros []. cbn in *. rewrite ok_next0. apply index_seq_word. Qed.

Lemma ack_ok H ann c w p : session_ok config (mkSession H ann c w) p →
  session_ok config (mkSession H ann c (send_ack config c w)) p.
Proof.
  intros Hok. pose proof (next_word _ _ _ _ _ Hok). eapply same_stream_ok; [| | | |exact Hok];
    destruct Hok; try done. unfold send_ack. apply control_emitted; try done; try (by apply word_const). by left.
Qed.

(** ** Acknowledgements *)

Lemma pop_chained H isn shift q a una nxt k :
  chained H isn shift a q → 0 ≤ shift ≤ 1 → 1 + shift + a + queue_len q ≤ nxt → nxt - una ≤ 65536 →
  una ≤ k ≤ nxt → queue_len q = 0 ∨ una ≤ 1 + shift + a + OUR_MSS →
  ∃ a', a ≤ a' ∧ (a' = a ∨ 1 + shift + a' ≤ k) ∧ (a' = a + queue_len q ∨ k ≤ 1 + shift + a' + OUR_MSS) ∧ chained H isn shift a' (pop_acked (index_seq isn k) q) ∧
    a' + queue_len (pop_acked (index_seq isn k) q) = a + queue_len q.
Proof.
  revert a. induction q as [|o q IH]; intros a; cbn [chained pop_acked].
  - intros. exists a. split_and!; [lia|by left|left; change (queue_len []) with 0; lia|done|done].
  - intros (Es & Eo & Hl & Eb & Hq) Hsh Hn Hf Hk Hu.
    assert (queue_len (o :: q) = len (out_bytes o) + queue_len q) as EL.
    { unfold queue_len. cbn [fmap list_fmap concat]. by rewrite len_app. }
    pose proof (len_nonneg (concat (out_bytes <$> q))) as HL. fold (queue_len q) in HL. unfold OUR_MSS in *.
    rewrite Eo, wrap_add_idemp, seq_ge_index by lia. destruct (Z.leb_spec (1 + shift + a + len (out_bytes o)) k).
    + destruct (IH (a + len (out_bytes o))) as (a' & H1 & H2 & H3 & H4 & H5); [done|done|lia|lia|lia|right; lia|].
      exists a'. split_and!; [lia|right; destruct H2 as [->|]; lia|destruct H3; [left|right]; lia|done|lia].
    + exists a. split_and!; [lia|by left|right; lia|done|done].
Qed.

(** The queue after an acknowledgement of position [k]. *)
Lemma pop_queue H isn shift p q k : queue_ok H isn shift p q → 0 ≤ shift ≤ 1 →
  0 ≤ una p ≤ k → k ≤ 1 + sent p + shift → 1 + sent p + shift - una p ≤ 65536 → acked p ≤ sent p →
  acked p = sent p ∨ una p ≤ 1 + shift + acked p + OUR_MSS →
  ∃ a', acked p ≤ a' ≤ sent p ∧ (a' = acked p ∨ 1 + a' ≤ k) ∧
    (a' = sent p ∨ k ≤ 1 + shift + a' + OUR_MSS) ∧
    (una p < k → queue_ok H isn shift (mkPositions a' (sent p) k) (pop_acked (index_seq isn k) q)).
Proof.
  intros (front & data & -> & Hc & Hlen & Hfront) Hsh Hu Hk Hf Has Hfr.
  pose proof (len_nonneg (concat (out_bytes <$> data))) as HL. fold (queue_len data) in HL.
  destruct (pop_chained H isn shift data (acked p) (una p) (1 + sent p + shift) k) as (a' & A1 & A2 & A3 & A4 & A5);
    [done|done|lia|lia|lia|destruct Hfr; [left|right]; lia|].
  pose proof (len_nonneg (concat (out_bytes <$> pop_acked (index_seq isn k) data))) as HL'.
  fold (queue_len (pop_acked (index_seq isn k) data)) in HL'.
  exists a'. split_and!; [lia|lia|destruct A2; [by left|right; lia]|destruct A3; [left|right]; lia|].
  intros Huk. exists [], (pop_acked (index_seq isn k) data). cbn [acked sent una app]. split_and!; [|done|lia|by left].
  destruct Hfront as [->|(t & -> & Hu2)]; [done|]. cbn [app pop_acked out_seq out_bytes].
  rewrite wrap_add_idemp. change (len []) with 0. rewrite seq_ge_index by lia. by rewrite (proj2 (Z.leb_le _ _)) by lia.
Qed.

Lemma process_ack_ok H ann c w p ack window : session_ok config (mkSession H ann c w) p →
  word 32 ack → word 16 window →
  ∃ p', session_ok config (mkSession H ann (process_ack ack window c) w) p' ∧
    una p' = let k := ack_position (our_isn c) (una p) ack in
             if k <=? 1 + sent p + Z.b2z (fin_sent c) then k else una p.
Proof.
  intros Hok Hack Hwin. unfold process_ack. set (c0 := c <| guest_window := window |>).
  assert (session_ok config (mkSession H ann c0 w) p) as Hok0.
  { eapply same_stream_ok; [| | | |exact Hok]; destruct Hok; done. }
  change (our_isn c) with (our_isn c0). change (fin_sent c) with (fin_sent c0). clear Hok. clearbody c0.
  assert (seq_ge ack (our_una c0) && seq_le ack (our_next c0) =
    (ack_position (our_isn c0) (una p) ack <=? 1 + sent p + Z.b2z (fin_sent c0))) as Et.
  { pose proof (ok_flight _ _ _ Hok0) as [Hf1 Hf2]. pose proof (ok_una _ _ _ Hok0) as Eu.
    pose proof (ok_next _ _ _ Hok0) as En. cbn in Hf1, Hf2, Eu, En. rewrite Eu, En. apply ack_taken; [|done].
    destruct (fin_sent c0); cbn in *; lia. }
  cbn zeta. rewrite <- Et. destruct (_ && seq_le _ _) eqn:Ea; [|by exists p]. clear Et.
  set (c1 := if seq_gt ack (our_una c0) then _ else c0).
  assert (∃ p', session_ok config (mkSession H ann c1 w) p' ∧ una p' = ack_position (our_isn c0) (una p) ack) as (p' & Hok1 & Ep).
  { pose proof (ok_flight _ _ _ Hok0) as [Hf1 Hf2]. pose proof (ok_una _ _ _ Hok0) as Eu.
    pose proof (ok_next _ _ _ Hok0) as En. cbn in Hf1, Hf2, Eu, En. rewrite Eu, En in Ea.
    assert (0 ≤ Z.b2z (fin_sent c0) ≤ 1) as Hb by (destruct (fin_sent c0); cbn; lia).
    destruct (acceptable_ack _ (una p) (1 + sent p + Z.b2z (fin_sent c0)) _ ltac:(lia) Hack Ea) as (k & Hk & ->).
    assert (ack_position (our_isn c0) (una p) (index_seq (our_isn c0) k) = k) as ->.
    { unfold ack_position, index_seq, wrap. rewrite Zminus_mod_idemp_l.
      replace (our_isn c0 + k - (our_isn c0 + una p)) with (k - una p) by lia. rewrite Z.mod_small; lia. }
    unfold c1. rewrite Eu, seq_gt_index by lia. destruct (Z.ltb_spec (una p) k) as [Hlt|]; [|exists p; split; [done|lia]].
    pose proof (ok_sent _ _ _ Hok0). pose proof (ok_front _ _ _ Hok0) as Hfr. cbn in Hfr.
    destruct (pop_queue H (our_isn c0) (Z.b2z (fin_sent c0)) p (unacked c0) k) as (a' & A1 & A2 & A3 & A4);
      [exact (ok_queue _ _ _ Hok0)|done|lia|lia|lia|lia|done|]. specialize (A4 Hlt).
    exists (mkPositions a' (sent p) k). pose proof (ok_acked _ _ _ Hok0).
    set (c2 := c0 <| unacked ::= _ |> <| our_una := _ |> <| retransmits := 0 |>).
    assert (session_ok config (mkSession H ann c2 w) (mkPositions a' (sent p) k)) as Hok2.
    { destruct Hok0. split; cbn in *; try done; try lia. }
    split; [|done]. destruct (unacked c2) eqn:E; [|done]. eapply same_stream_ok; [| | | |exact Hok2]; destruct Hok2; done. }
  rewrite <- Ep. clearbody c1. clear Hok0 Ea Ep c0. set (c2 := if negb (established c1) && _ then _ else c1).
  assert (session_ok config (mkSession H ann c2 w) p') as Hok2.
  { unfold c2. destruct (_ && _); [|done]. eapply same_stream_ok; [| | | |exact Hok1]; destruct Hok1; done. }
  clearbody c2. exists p'. split; [|done]. destruct (_ && _); [|done]. eapply same_stream_ok; [| | | |exact Hok2]; destruct Hok2; done.
Qed.

(** ** Segments from the guest *)

(** The positions sent on a connection: the SYN, the bytes that have left the pending
    buffer, and the FIN. *)
Definition released (s : Session) : Z :=
  1 + (len (host_bytes s) - len (pending (conn s)) - len (queued_bytes (events (host_rx (conn s))))) + Z.b2z (fin_sent (conn s)).
(** The position the guest has acknowledged, after one more segment of it: an
    acknowledgement counts if it is of something that has been sent. *)
Definition heard (s : Session) (acknowledged : Z) (segment : Segment) : Z :=
  if has (flags segment) FLAG_RST || negb (has (flags segment) FLAG_ACK) then acknowledged
  else let k := ack_position (our_isn (conn s)) acknowledged (ack segment) in if k <=? released s then k else acknowledged.
Lemma released_ok s p : session_ok config s p → released s = 1 + sent p + Z.b2z (fin_sent (conn s)).
Proof.
  intros []. destruct ok_stream0 as [E Hle]. apply (f_equal len) in E. rewrite len_app in E. unfold released.
  unfold len in *. rewrite length_drop in E. lia.
Qed.

Lemma payload_same segment c c' b : process_payload segment c = Some (c', b) → word 32 (guest_next c) →
  same_stream c c' ∧ guest_window c' = guest_window c ∧ word 32 (guest_next c').
Proof.
  unfold process_payload. intros E Hg.
  destruct (seg_payload segment) as [|x l]; [by injection E as <- <-|].
  destruct (_ && _); [|by injection E as <- <-].
  destruct (try_send _ _); [injection E as <- <-|injection E as <- <-|done]; split; try done.
  split; [done|]. by apply word_wrap.
Qed.
Lemma fin_same segment c b c' b' : process_fin segment c b = (c', b') → word 32 (guest_next c) →
  same_stream c c' ∧ guest_window c' = guest_window c ∧ word 32 (guest_next c').
Proof.
  unfold process_fin. intros E Hg. destruct (has _ _); [|by injection E as <- <-].
  destruct (_ =? _); injection E as <- <-; [|done]. split; [done|]. split; [done|]. by apply word_wrap.
Qed.

Lemma process_segment_ok H ann c w p segment : session_ok config (mkSession H ann c w) p →
  word 32 (ack segment) → word 16 (window segment) →
  ∃ p', session_ok config (mkSession H ann (process_segment config segment c w).1
                             (process_segment config segment c w).2) p' ∧
    una p' = heard (mkSession H ann c w) (una p) segment.
Proof.
  intros Hok Hack Hwin. unfold heard. rewrite (released_ok _ _ Hok). cbn [conn]. unfold process_segment.
  destruct (has _ FLAG_RST).
  { exists p. split; [|done]. destruct (_ || _); [|done]. eapply same_stream_ok; [| | | |exact Hok]; destruct Hok; done. }
  set (c1 := if has (flags segment) FLAG_ACK then _ else c).
  cbn [orb]. match goal with |- ∃ p', _ ∧ una p' = ?u => assert (∃ p', session_ok config (mkSession H ann c1 w) p' ∧ una p' = u) as (p' & Hok1 & Eu) end.
  { unfold c1. destruct (has _ _); [|by exists p]. by apply process_ack_ok. }
  exists p'. split; [|done]. clear Eu. clearbody c1. clear Hok. pose proof (ok_guest_next _ _ _ Hok1) as Hg. cbn in Hg.
  pose proof (ok_window _ _ _ Hok1) as Hw. cbn in Hw.
  destruct (process_payload segment c1) as [[c2 b]|] eqn:E2.
  2: { eapply same_stream_ok; [| | | |exact Hok1]; done. }
  destruct (payload_same _ _ _ _ E2 Hg) as (S2 & W2 & G2).
  destruct (process_fin segment c2 b) as [c3 b3] eqn:E3. destruct (fin_same _ _ _ _ _ E3 G2) as (S3 & W3 & G3).
  assert (session_ok config (mkSession H ann c3 w) p') as Hok3.
  { eapply same_stream_ok; [exact S3|done|by rewrite W3, W2|done|].
    eapply same_stream_ok; [exact S2|done|by rewrite W2|done|exact Hok1]. }
  clear - Hok3 Hguest. set (r := if b3 then _ else (c3, w)).
  assert (session_ok config (mkSession H ann r.1 r.2) p') as Hok4.
  { unfold r. destruct b3; [|done]. cbn [fst snd]. apply ack_ok. destruct (_ && _); [|done].
    eapply same_stream_ok; [| | | |exact Hok3]; destruct Hok3; done. }
  clearbody r. destruct r as [c4 w4]. cbn [fst snd] in *. destruct (_ && _); [|done].
  eapply same_stream_ok; [| | | |exact Hok4]; destruct Hok4; done.
Qed.

(** ** Events of the host *)

Lemma len_0_nil {A} (l : list A) : len l = 0 → l = [].
Proof. unfold len. intros. apply length_zero_iff_nil. lia. Qed.
Lemma drop_app_take {A} (l : list A) (n k : nat) x y : drop n l = x ++ y → length x = k → drop (n + k) l = y.
Proof. intros E <-. rewrite <- drop_drop, E. by rewrite drop_app_length. Qed.

Lemma host_event_ok H ann now e es c w p :
  session_ok config (mkSession H ann c w) p → events (host_rx c) = e :: es →
  let c1 := c <| host_rx ::= λ r, r <| events := es |> |> in
  let s := host_event config now e c1 w in
  session_ok config (mkSession H ann s.1 s.2) p ∧ events (host_rx s.1) = es.
Proof.
  intros Hok Ee c1 s. unfold s, host_event.
  assert (∀ i, es !! i = Some Connected → False) as Hno.
  { intros i Hi. destruct (ok_connected _ _ _ Hok (S i)) as [E _]; [|done]. cbn. by rewrite Ee. }
  assert (event_bytes e = [] → session_ok config (mkSession H ann c1 w) p) as Hc1.
  { intros E0. destruct Hok. split; cbn in *; try done.
    - rewrite Ee in ok_stream0. unfold queued_bytes in *. cbn [fmap list_fmap concat] in ok_stream0.
      by rewrite E0 in ok_stream0.
    - intros i Hi. by destruct (Hno i). }
  destruct e as [|message|bytes|]; cbn [event_bytes] in Hc1.
  - specialize (Hc1 eq_refl). destruct (ok_connected _ _ _ Hok 0) as (_ & Han & Hs0 & Hp0); [by cbn; rewrite Ee|].
    cbn in Han, Hp0. destruct (_ && _) eqn:Eu; [|done]. split; [|done]. apply andb_prop in Eu as [_ Eu].
    apply Z.eqb_eq in Eu. assert (unacked c1 = []) as E0 by (by apply len_0_nil).
    pose proof Hc1 as Hc2. destruct Hc2. cbn in *.
    pose proof (ok_queue0) as (front & data & Eq & Hc & Hl & Hf). rewrite E0 in Eq.
    symmetry in Eq. apply app_eq_nil in Eq as [-> ->]. change (queue_len []) with 0 in Hl.
    assert (∀ b, 0 ≤ Z.b2z b ≤ 1) as Hb by (by intros []). pose proof (Hb (fin_sent c)).
    split; cbn; try done.
    + exists [mkOutSeg (our_isn c) [] true now], []. rewrite E0. split_and!; [done|done|by change (queue_len []) with 0; lia|].
      right. exists now. split; [by rewrite <- ok_isn0|lia].
    + apply control_emitted; try done; try (by apply word_const); [|by right]. rewrite ok_isn0. apply index_seq_word.
  - specialize (Hc1 eq_refl). split; [|done]. cbn [fst snd]. pose proof (next_word _ _ _ _ _ Hc1) as Hn.
    eapply (same_stream_ok _ _ c1); [done|by destruct Hc1|by destruct Hc1| |exact Hc1].
    intros He. unfold count_reset. cbn [emitted]. change (emitted (?x <| counters ::= _ |>)) with (emitted x).
    apply control_emitted; try done; try (by destruct Hc1); try (by apply word_const); [|by left].
    destruct (established c1); [done|]. destruct Hc1. cbn in *. rewrite ok_isn0. apply index_seq_word.
  - split; [|done]. destruct Hok. split; cbn in *; try done.
    + rewrite Ee in ok_stream0. unfold queued_bytes in *. cbn [fmap list_fmap concat event_bytes] in ok_stream0.
      by rewrite <- app_assoc.
    + intros i Hi. by destruct (Hno i).
  - specialize (Hc1 eq_refl). split; [|done]. eapply (same_stream_ok _ _ c1); [| | | |exact Hc1]; destruct Hc1; done.
Qed.

Definition preserves (f : TcpConn → Wire → TcpConn * Wire) : Prop := ∀ H ann c w p,
  session_ok config (mkSession H ann c w) p → ∃ p', session_ok config (mkSession H ann (f c w).1 (f c w).2) p' ∧ una p' = una p.

Lemma drain_ok now : preserves (drain_host_events config now).
Proof.
  intros H ann c w p Hok. unfold drain_host_events. exists p. split; [|done].
  assert (∀ es c w, events (host_rx c) = es → session_ok config (mkSession H ann c w) p →
    session_ok config (mkSession H ann (drain_loop config now es c w).1 (drain_loop config now es c w).2) p)
    as Hl; [|by apply Hl].
  clear -Hguest. intros es. induction es as [|e es IH]; intros c w Ee Hok; cbn [drain_loop];
    (destruct (_ <=? _); [done|]).
  - cbn [fst snd]. destruct (sender_alive _); [done|]. eapply same_stream_ok; [| | | |exact Hok]; destruct Hok; done.
  - destruct (host_event_ok H ann now e es c w p Hok Ee) as [Hok' Ee'].
    destruct (host_event config now e _ w) as [c' w']. cbn [fst snd] in *. by apply IH.
Qed.

Lemma retry_held_ok : preserves (retry_held config).
Proof.
  intros H ann c w p Hok. exists p. split; [|done]. unfold retry_held. destruct (held_guest c) as [held|]; [|done].
  destruct (try_send held _); cbn [fst snd].
  - apply ack_ok. eapply (same_stream_ok _ _ c); [done|by apply word_wrap|by destruct Hok|done|exact Hok].
  - eapply same_stream_ok; [| | | |exact Hok]; destruct Hok; done.
  - eapply same_stream_ok; [| | | |exact Hok]; destruct Hok; done.
Qed.

(** ** Sending *)

Lemma queue_len_app q r : queue_len (q ++ r) = queue_len q + queue_len r.
Proof. unfold queue_len. by rewrite fmap_app, concat_app, len_app. Qed.
Lemma chained_app H isn shift a q r :
  chained H isn shift a (q ++ r) ↔ chained H isn shift a q ∧ chained H isn shift (a + queue_len q) r.
Proof.
  revert a. induction q as [|o q IH]; intros a; cbn [app chained].
  - change (queue_len []) with 0. rewrite Z.add_0_r. naive_solver.
  - rewrite IH. assert (queue_len (o :: q) = len (out_bytes o) + queue_len q) as ->.
    { unfold queue_len. cbn [fmap list_fmap concat]. by rewrite len_app. }
    rewrite Z.add_assoc. naive_solver.
Qed.

(** One more segment of the pending bytes. *)
Lemma send_one_ok H ann now c w p n :
  session_ok config (mkSession H ann c w) p → 1 ≤ n ≤ len (pending c) → n ≤ guest_mss c →
  n ≤ 65535 - (1 + sent p + Z.b2z (fin_sent c) - una p) →
  let bytes := take (Z.to_nat n) (pending c) in
  let c' := c <| pending ::= drop (Z.to_nat n) |>
              <| unacked ::= λ q, q ++ [mkOutSeg (our_next c) bytes false now] |>
              <| our_next ::= λ x, wrapping_add 32 x (wrap 32 (len bytes)) |>
              <| retransmit_deadline := Some (now + RETRANSMIT_TIMEOUT) |> in
  session_ok config (mkSession H ann c' (send_segment config c (our_next c) FLAG_ACK OUR_WINDOW [] bytes w))
    (mkPositions (acked p) (sent p + n) (una p)).
Proof.
  intros Hok Hn Hm Hfl bytes c'. pose proof Hok as [].
  assert (len bytes = n) as El by (unfold bytes, len in *; rewrite length_take; lia).
  destruct ok_stream0 as [Est Hst]. cbn in *.
  assert (bytes = slice H (sent p) n) as Eb.
  { unfold slice. rewrite Est. rewrite take_app_le by (unfold len in *; lia). done. }
  assert (sent p + n ≤ len H) as Hle.
  { apply (f_equal len) in Est. unfold len in *. rewrite length_drop, length_app in Est. lia. }
  assert (0 ≤ Z.b2z (fin_sent c) ≤ 1) as Hb by (destruct (fin_sent c); cbn; lia).
  split; cbn; try done.
  - rewrite ok_next0, El, wrap_add_idemp. f_equal. lia.
  - lia.
  - lia.
  - destruct ok_front0; [|by right]. right. unfold OUR_MSS. lia.
  - split; [|done]. replace (Z.to_nat (sent p + n)) with (Z.to_nat (sent p) + Z.to_nat n)%nat by lia.
    rewrite <- drop_drop, Est. rewrite drop_app_le by (unfold len in *; lia). done.
  - destruct ok_queue0 as (front & data & E & Hc & Hl & Hf). exists front, (data ++ [mkOutSeg (our_next c) bytes false now]).
    cbn [acked sent una]. rewrite E, app_assoc. split_and!; [done| | |done].
    + apply chained_app. split; [done|]. cbn [chained syn out_seq out_bytes]. rewrite Hl, El.
      split_and!; [done| |lia|lia|done|done]. rewrite ok_next0. f_equal. lia.
    + rewrite queue_len_app. unfold queue_len at 2. cbn. rewrite app_nil_r. lia.
  - intros i Hi. destruct (ok_connected0 i Hi) as (_ & _ & _ & E). rewrite E in Hn. change (len []) with 0 in Hn. lia.
  - apply send_faithful; [done|done|by eapply next_word|by apply word_const..|by constructor|done|done| |lia| |done].
    + rewrite Eb. by apply Forall_slice.
    + right. exists (sent p). rewrite El. split_and!; [lia|done|done|]. rewrite ok_next0.
      destruct (fin_sent c); [right|left]; [split; [done|]|]; f_equal; cbn; lia.
Qed.

Lemma send_loop_ok fuel now : preserves (send_loop config fuel now).
Proof.
  induction fuel as [|fuel IH]; intros H ann c w p Hok; cbn [send_loop]; [by exists p|].
  destruct (negb _ && _) eqn:Eg; [|by exists p]. destruct (Z.leb_spec (guest_window c) (wrapping_sub 32 (our_next c) (our_una c))) as [|Hw]; [by exists p|].
  set (n := Z.min _ _). destruct (Z.eqb_spec n 0) as [|Hn0]; [by exists p|].
  apply andb_prop in Eg as [Ep _]. apply negb_true_iff, Z.eqb_neq in Ep.
  assert (wrapping_sub 32 (our_next c) (our_una c) = 1 + sent p + Z.b2z (fin_sent c) - una p) as Ef.
  { destruct Hok. cbn in *. rewrite ok_next0, ok_una0. unfold index_seq, wrapping_sub, wrap.
    rewrite <- Zminus_mod. rewrite Z.mod_small; destruct (fin_sent c); cbn in *; lia. }
  pose proof (len_nonneg (pending c)). pose proof (ok_window _ _ _ Hok) as [_ Hw16]. pose proof (ok_mss _ _ _ Hok) as Hm.
  cbn in Hw16, Hm. rewrite Ef in *. assert (1 ≤ n) by (unfold n in *; lia).
  destruct (IH _ _ _ _ _ (send_one_ok H ann now c w p n Hok ltac:(unfold n; lia) ltac:(unfold n; lia) ltac:(unfold n; lia)))
    as (p' & Hp' & Eu). by exists p'.
Qed.
Lemma send_pending_ok now : preserves (send_pending config now).
Proof. intros H ann c w p Hok. by eapply send_loop_ok. Qed.

(** ** Retransmission *)

Lemma chained_in H isn shift a q o : chained H isn shift a q → o ∈ q → 0 ≤ a →
  syn o = false ∧ ∃ k, a ≤ k ∧ k + len (out_bytes o) ≤ a + queue_len q ∧ len (out_bytes o) ≤ OUR_MSS ∧
    out_bytes o = slice H k (len (out_bytes o)) ∧ out_seq o = index_seq isn (1 + shift + k).
Proof.
  revert a. induction q as [|o' q IH]; intros a; [by intros _ []%not_elem_of_nil|].
  cbn [chained]. intros (Es & Eo & Hl & Eb & Hq) Hin Ha.
  assert (queue_len (o' :: q) = len (out_bytes o') + queue_len q) as EL.
  { unfold queue_len. cbn [fmap list_fmap concat]. by rewrite len_app. }
  pose proof (len_nonneg (concat (out_bytes <$> q))) as HL. fold (queue_len q) in HL.
  apply elem_of_cons in Hin as [->|Hin].
  - split; [done|]. exists a. split_and!; [lia|lia|lia|done|done].
  - destruct (IH _ Hq Hin ltac:(lia)) as (H1 & k & H2 & H3 & H4). split; [done|]. exists k. split_and!; [lia|lia|naive_solver..].
Qed.

Lemma resend_ok H ann c w p o : session_ok config (mkSession H ann c w) p → o ∈ unacked c →
  session_ok config (mkSession H ann c (resend config c o w)) p.
Proof.
  intros Hok Hin. eapply (same_stream_ok _ _ c c w); [done|by destruct Hok|by destruct Hok| |exact Hok]. intros He.
  pose proof Hok as []. cbn in *. unfold resend.
  assert (word 8 (FLAG_SYN .| FLAG_ACK) ∧ word 8 FLAG_ACK ∧ word 16 OUR_WINDOW) as (W1 & W2 & W3)
    by (split_and!; by apply word_const).
  destruct ok_queue0 as (front & data & Eq & Hc & Hl & Hf). rewrite Eq in Hin. apply elem_of_app in Hin as [Hin|Hin].
  - destruct Hf as [->|(t & -> & _)]; [by apply not_elem_of_nil in Hin|]. apply list_elem_of_singleton in Hin as ->.
    apply control_emitted; try done; [apply index_seq_word|by right].
  - destruct (chained_in _ _ _ _ _ _ Hc Hin ltac:(lia)) as (-> & k & K1 & K2 & K3 & K4 & K5).
    destruct ok_stream0 as [_ Hst].
    apply send_faithful; [done|done|rewrite K5; apply index_seq_word|done|done|by constructor|done|done| |done| |done].
    + rewrite K4. by apply Forall_slice.
    + right. exists k. split_and!; [lia|lia|done|]. rewrite K5.
      destruct (fin_sent c); [right; split; [done|]|left]; f_equal; cbn; lia.
Qed.

Lemma restamp_ok H isn shift p q now : queue_ok H isn shift p q →
  queue_ok H isn shift p ((λ o : OutSeg, o <| last_sent := now |>) <$> q).
Proof.
  intros (front & data & -> & Hc & Hl & Hf).
  exists ((λ o : OutSeg, o <| last_sent := now |>) <$> front), ((λ o : OutSeg, o <| last_sent := now |>) <$> data).
  rewrite fmap_app. split_and!; [done| | |].
  - clear -Hc. revert Hc. generalize (acked p). induction data as [|o data IH]; intros a Hc; [done|].
    cbn in *. naive_solver.
  - rewrite <- Hl. unfold queue_len. by rewrite <- list_fmap_compose.
  - destruct Hf as [->|(t & -> & Hu)]; [by left|right]. by exists now.
Qed.

Lemma retransmit_ok now : preserves (retransmit config now).
Proof.
  intros H ann c w p Hok. unfold retransmit. exists p. split; [|done]. destruct (retransmit_deadline c) as [deadline|]; [|done].
  destruct (now <? deadline); [done|]. set (c1 := c <| retransmits ::= _ |>).
  assert (session_ok config (mkSession H ann c1 w) p) as Hok1.
  { eapply same_stream_ok; [| | | |exact Hok]; destruct Hok; done. }
  clearbody c1. clear c Hok. pose proof (next_word _ _ _ _ _ Hok1) as Hn.
  assert (∀ c' w', same_stream c1 c' → guest_next c' = guest_next c1 → guest_window c' = guest_window c1 →
    session_ok config (mkSession H ann c1 w') p → ∀ w'', emitted w'' = emitted w' →
    session_ok config (mkSession H ann c' w'') p) as Hsame.
  { intros c' w' S G W Hok' w'' E. eapply (same_stream_ok _ _ c1 c' w' w''); [exact S|rewrite G|rewrite W|by rewrite E|exact Hok'];
    by destruct Hok'. }
  destruct (MAX_RETRANSMITS <? _).
  { eapply Hsame; [done|done|done| |done]. eapply (same_stream_ok _ _ c1 c1 w); [done|by destruct Hok1|by destruct Hok1| |exact Hok1].
    apply control_emitted; try done; try (by destruct Hok1); try (by apply word_const). by left. }
  destruct (negb _).
  { set (w1 := foldl _ w (unacked c1)).
    assert (session_ok config (mkSession H ann c1 w1) p) as Hokw.
    { unfold w1. clear w1. assert (∀ o, o ∈ unacked c1 → o ∈ unacked c1) as Hin by done. revert Hin.
      generalize (unacked c1) at 1 3. intros q. revert w Hok1. induction q as [|o q IH]; intros w Hok1 Hin; [done|].
      cbn [foldl]. apply IH; [|intros; apply Hin; by apply elem_of_cons; right]. apply resend_ok; [done|].
      apply Hin. by apply elem_of_cons; left. }
    cbn [fst snd]. pose proof Hokw as []. split; cbn in *; try done. by apply restamp_ok. }
  destruct (_ && _); cbn [fst snd].
  - eapply Hsame; [done|done|done| |done]. eapply (same_stream_ok _ _ c1 c1 w); [done|by destruct Hok1|by destruct Hok1| |exact Hok1].
    apply control_emitted; try done; try (by destruct Hok1); try (by apply word_const). by left.
  - by eapply Hsame.
Qed.

Lemma maybe_send_fin_ok now : preserves (maybe_send_fin config now).
Proof.
  intros H ann c w p Hok. unfold maybe_send_fin. destruct (_ || _) eqn:Ef; [by exists p|].
  apply orb_false_iff in Ef as [Ef _]. destruct (_ || _) eqn:Ee; [by exists p|].
  apply orb_false_iff in Ee as [Ep Eu]. apply negb_false_iff, Z.eqb_eq, len_0_nil in Ep, Eu.
  exists p. split; [|done]. cbn [fst snd]. pose proof (next_word _ _ _ _ _ Hok) as Hn. pose proof Hok as []. cbn in *. rewrite Ef in *. cbn in *.
  destruct ok_queue0 as (front & data & Eq & Hc & Hl & Hf). rewrite Eu in Eq. symmetry in Eq.
  apply app_eq_nil in Eq as [-> ->]. change (queue_len []) with 0 in Hl.
  split; cbn; try done; try lia.
  - rewrite ok_next0, index_seq_add. f_equal. lia.
  - exists [], []. split_and!; [done|done|by change (queue_len []) with 0; lia|by left].
  - assert (Forall (faithful config (key c) H (our_isn c) (fin_sent c))
      (emitted (send_segment config c (our_next c) (FLAG_FIN .| FLAG_ACK) OUR_WINDOW [] [] w))) as He.
    { apply control_emitted; try done; try (by apply word_const); [by left|by rewrite Ef]. }
    eapply Forall_impl; [exact He|]. intros packet Hp. rewrite <- (app_nil_r H). by eapply faithful_mono; [|exact Hp].
Qed.

(** ** Polls *)

Lemma unless_closed_ok f H ann s p : preserves f → session_ok config (mkSession H ann s.1 s.2) p →
  ∃ p', session_ok config (mkSession H ann (unless_closed f s).1 (unless_closed f s).2) p' ∧ una p' = una p.
Proof. intros Hf Hok. unfold unless_closed. destruct (closed s.1); [by exists p|by eapply Hf]. Qed.

Lemma teardown_ok now : preserves (λ c w, (teardown now c, w)).
Proof.
  intros H ann c w p Hok. exists p. split; [|done]. cbn [fst snd]. unfold teardown.
  repeat case_match; try done; (eapply same_stream_ok; [| | | |exact Hok]; destruct Hok; done).
Qed.

Lemma poll_conn_ok now : preserves (poll_conn config now).
Proof.
  intros H ann c w p Hok. unfold poll_conn.
  destruct (drain_ok now H ann c w p Hok) as (p1 & H1 & E1).
  destruct (unless_closed_ok _ _ _ _ _ retry_held_ok H1) as (p2 & H2 & E2).
  destruct (unless_closed_ok _ _ _ _ _ (send_pending_ok now) H2) as (p3 & H3 & E3).
  destruct (unless_closed_ok _ _ _ _ _ (retransmit_ok now) H3) as (p4 & H4 & E4).
  destruct (unless_closed_ok _ _ _ _ _ (maybe_send_fin_ok now) H4) as (p5 & H5 & E5).
  destruct (unless_closed_ok _ _ _ _ _ (teardown_ok now) H5) as (p6 & H6 & E6). exists p6. split; [done|congruence].
Qed.

(** ** Runs *)

(** What can happen to a connection: a segment of the guest, a poll, and the host
    thread announcing the connection, sending, stopping, or taking a chunk. The label
    is the segment of the guest. *)
Inductive session_step : option Segment → Session → Session → Prop :=
  | guest_sends H ann c w data segment : Forall (word 8) data → parse_segment data = Some segment →
      session_step (Some segment) (mkSession H ann c w)
        (mkSession H ann (process_segment config segment c w).1 (process_segment config segment c w).2)
  | polled H ann c w now :
      session_step None (mkSession H ann c w) (mkSession H ann (poll_conn config now c w).1 (poll_conn config now c w).2)
  | host_connects c w : events (host_rx c) = [] →
      session_step None (mkSession [] false c w)
        (mkSession [] true (c <| host_rx ::= λ r, r <| events ::= λ es, es ++ [Connected] |> |>) w)
  | host_sends H c w bytes : Forall (word 8) bytes →
      session_step None (mkSession H true c w)
        (mkSession (H ++ bytes) true (c <| host_rx ::= λ r, r <| events ::= λ es, es ++ [Data bytes] |> |>) w)
  | host_ends H ann c w e : e = Eof ∨ (∃ message, e = ConnectFailed message) →
      session_step None (mkSession H ann c w)
        (mkSession H ann (c <| host_rx ::= λ r, r <| events ::= λ es, es ++ [e] |> |>) w)
  | host_exits H ann c w :
      session_step None (mkSession H ann c w)
        (mkSession H ann (c <| host_rx ::= λ r, r <| sender_alive := false |> |>
                            <| guest_tx ::= λ t, t <| receiver_alive := false |> |>) w)
  | host_takes H ann c w chunk rest : queued (guest_tx c) = chunk :: rest →
      session_step None (mkSession H ann c w) (mkSession H ann (c <| guest_tx ::= λ t, t <| queued := rest |> |>) w).

(** A step, with the position the guest has acknowledged. *)
Definition traced_step (x y : Session * Z) : Prop := ∃ segment, session_step segment x.1 y.1 ∧
  y.2 = match segment with Some segment => heard x.1 x.2 segment | None => x.2 end.

Lemma slice_mono (H H' : list Z) a n : 0 ≤ a → 0 ≤ n → a + n ≤ len H → slice (H ++ H') a n = slice H a n.
Proof.
  intros. unfold slice. rewrite drop_app_le by (unfold len in *; lia).
  rewrite take_app_le; [done|]. rewrite length_drop. unfold len in *. lia.
Qed.
Lemma chained_mono H H' isn shift q a : chained H isn shift a q → 0 ≤ a → a + queue_len q ≤ len H →
  chained (H ++ H') isn shift a q.
Proof.
  revert a. induction q as [|o q IH]; intros a; [done|]. intros (Es & Eo & Hl & Eb & Hq) Ha Hle. cbn [chained].
  pose proof (len_nonneg (concat (out_bytes <$> q))) as HL. fold (queue_len q) in HL.
  assert (queue_len (o :: q) = len (out_bytes o) + queue_len q) as EL.
  { unfold queue_len. cbn [fmap list_fmap concat]. by rewrite len_app. }
  split_and!; try done; try lia; [|apply IH; [done|lia..]]. rewrite slice_mono; [done|lia..].
Qed.
Lemma queued_bytes_app es e : queued_bytes (es ++ [e]) = queued_bytes es ++ event_bytes e.
Proof. unfold queued_bytes. rewrite fmap_app, concat_app. cbn. by rewrite app_nil_r. Qed.

Lemma step_ok l s s' p : session_step l s s' → session_ok config s p → ∃ p', session_ok config s' p' ∧
  una p' = match l with Some segment => heard s (una p) segment | None => una p end.
Proof.
  intros Hstep Hok. destruct Hstep as [H ann c w data segment Hd Hs|H ann c w now|c w He|H c w bytes Hb|H ann c w e He|
    H ann c w|H ann c w chunk rest Hq].
  - destruct (parse_segment_words _ _ Hd Hs) as (_ & Ha & Hw & _). by eapply process_segment_ok.
  - by eapply poll_conn_ok.
  - exists p. split; [|done]. destruct Hok. split; cbn in *; try done.
    + rewrite He in *. cbn in *. destruct ok_stream0 as [-> ?]. done.
    + rewrite He. intros [|i] Hi; [|done]. destruct ok_stream0 as [E Hle]. change (len []) with 0 in Hle.
      split_and!; [done|done|lia|]. rewrite drop_nil in E. symmetry in E. by apply app_eq_nil in E as [-> _].
  - exists p. split; [|done]. destruct Hok. split; cbn in *; try done.
    + by apply Forall_app.
    + destruct ok_stream0 as [E Hle]. rewrite len_app. pose proof (len_nonneg bytes). split; [|lia].
      rewrite drop_app_le by (unfold len in *; lia). rewrite E, <- app_assoc. f_equal.
      symmetry. apply queued_bytes_app.
    + destruct ok_queue0 as (front & data & -> & Hc & Hl & Hf). exists front, data. split_and!; try done.
      apply chained_mono; [done|lia|]. destruct ok_stream0. lia.
    + intros i Hi. apply lookup_app_Some in Hi as [Hi|[Hi1 Hi2]]; [by apply ok_connected0 in Hi|].
      by apply list_lookup_singleton_Some in Hi2 as [_ ?].
    + eapply Forall_impl; [exact ok_emitted0|]. intros. by eapply faithful_mono.
  - exists p. split; [|done]. assert (event_bytes e = []) as E0 by (by destruct He as [->|[m ->]]). destruct Hok.
    split; cbn in *; try done.
    + destruct ok_stream0 as [-> ?]. split; [|done]. f_equal. etrans; [|symmetry; apply queued_bytes_app].
      by rewrite E0, app_nil_r.
    + intros i Hi. apply lookup_app_Some in Hi as [Hi|[Hi1 Hi2]]; [by apply ok_connected0 in Hi|].
      apply list_lookup_singleton_Some in Hi2 as [_ ->]. by destruct He as [|[m ?]].
  - exists p. split; [|done]. by destruct Hok; split.
  - exists p. split; [|done]. eapply same_stream_ok; [| | | |exact Hok]; destruct Hok; done.
Qed.

(** A step keeps the key and the initial sequence number. *)
Definition identity c : ConnKey * Z := (key c, our_isn c).
Definition keeps_identity (f : TcpConn → Wire → TcpConn * Wire) : Prop := ∀ c w, identity (f c w).1 = identity c.

Lemma process_ack_identity ack window c : identity (process_ack ack window c) = identity c.
Proof. unfold process_ack. repeat case_match; done. Qed.
Lemma process_segment_identity segment : keeps_identity (process_segment config segment).
Proof.
  intros c w. unfold process_segment. destruct (has _ FLAG_RST); [by case_match|].
  set (c1 := if has (flags segment) FLAG_ACK then _ else c).
  assert (identity c1 = identity c) as <- by (unfold c1; case_match; [apply process_ack_identity|done]).
  clearbody c1. destruct (process_payload segment c1) as [[c2 b]|] eqn:E2; [|done].
  assert (identity c2 = identity c1) as <- by (unfold process_payload in E2; repeat case_match; by simplify_eq).
  destruct (process_fin segment c2 b) as [c3 b3] eqn:E3.
  assert (identity c3 = identity c2) as <- by (unfold process_fin in E3; repeat case_match; by simplify_eq).
  destruct b3; repeat case_match; done.
Qed.
Lemma drain_identity now : keeps_identity (drain_host_events config now).
Proof.
  intros c w. unfold drain_host_events. generalize (events (host_rx c)) as es. intros es. revert c w.
  induction es as [|e es IH]; intros c w; cbn [drain_loop].
  - destruct (_ <=? _); [done|]. by destruct (sender_alive _).
  - destruct (_ <=? _); [done|]. destruct (host_event _ _ _ _ _) as [c1 w1] eqn:E. rewrite IH.
    unfold host_event, send_syn_ack in E. repeat case_match; by simplify_eq.
Qed.
Lemma send_pending_identity now : keeps_identity (send_pending config now).
Proof.
  intros c w. unfold send_pending. generalize (length (pending c)) as fuel. intros fuel. revert c w.
  induction fuel as [|fuel IH]; intros c w; [done|]. cbn [send_loop].
  destruct (_ && _); [|done]. destruct (_ <=? _); [done|]. destruct (_ =? 0); [done|]. by rewrite IH.
Qed.
Lemma poll_identity now : keeps_identity (poll_conn config now).
Proof.
  assert (∀ f s, keeps_identity f → identity (unless_closed f s).1 = identity s.1) as Hu.
  { intros f s Hf. unfold unless_closed. destruct (closed s.1); [done|apply Hf]. }
  intros c w. unfold poll_conn. rewrite !Hu; [apply drain_identity|..].
  - intros c1 w1. unfold retry_held. repeat case_match; done.
  - apply send_pending_identity.
  - intros c1 w1. unfold retransmit. repeat case_match; done.
  - intros c1 w1. unfold maybe_send_fin. repeat case_match; done.
  - intros c1 w1. unfold teardown. repeat case_match; done.
Qed.
Lemma step_identity l s s' : session_step l s s' → identity (conn s') = identity (conn s).
Proof. intros []; try done; [apply process_segment_identity|apply poll_identity]. Qed.

Lemma opened_ok k segment isn w : key_ok k → word 16 (window segment) → word 32 isn → emitted w = [] →
  session_ok config (mkSession [] false (opened k segment isn) w) (mkPositions 0 0 0).
Proof.
  intros Hk Hs Hisn He. assert (isn = index_seq isn 0) as Ei.
  { unfold index_seq. rewrite Z.add_0_r. symmetry. by apply wrap_small. }
  split; cbn; try done; try lia.
  - by apply word_wrap.
  - unfold clamp, OUR_MSS. lia.
  - by exists [], []; split_and!; [..|left].
  - by rewrite He.
Qed.
End stream.

Lemma reachable_ok config k segment isn w s acknowledged :
  octets (guest_ip config) → key_ok k → word 16 (window segment) → word 32 isn → emitted w = [] →
  rtc (traced_step config) (mkSession [] false (opened k segment isn) w, 0) (s, acknowledged) →
  identity (conn s) = (k, isn) ∧ ∃ p, session_ok config s p ∧ una p = acknowledged.
Proof.
  intros Hg Hk Hs Hi He Hr. pose proof (opened_ok config k segment isn w Hk Hs Hi He) as H0.
  assert (∀ x y, rtc (traced_step config) x y → identity (conn x.1) = (k, isn) → (∃ p, session_ok config x.1 p ∧ una p = x.2) →
    identity (conn y.1) = (k, isn) ∧ ∃ p, session_ok config y.1 p ∧ una p = y.2) as Hrun.
  { clear - Hg. induction 1 as [x|x y z (l & Hstep & E) _ IH]; [done|]. intros Ei (p & Hp & Eu). apply IH.
    - by rewrite (step_identity _ _ _ _ Hstep).
    - destruct (step_ok _ Hg _ _ _ _ Hstep Hp) as (p' & ? & Ep). exists p'. split; [done|]. by rewrite Ep, E, Eu. }
  apply (Hrun _ _ Hr); [done|]. by eexists.
Qed.

(** The bytes of the queue are those of the stream. *)
Lemma chained_concat H isn shift q a : chained H isn shift a q → 0 ≤ a → a + queue_len q ≤ len H →
  drop (Z.to_nat a) H = concat (out_bytes <$> q) ++ drop (Z.to_nat (a + queue_len q)) H.
Proof.
  revert a. induction q as [|o q IH]; intros a.
  { change (queue_len []) with 0. rewrite Z.add_0_r. done. }
  intros (Es & Eo & Hl & Eb & Hq) Ha Hle. cbn [fmap list_fmap concat].
  assert (queue_len (o :: q) = len (out_bytes o) + queue_len q) as EL.
  { unfold queue_len. cbn [fmap list_fmap concat]. by rewrite len_app. }
  pose proof (len_nonneg (concat (out_bytes <$> q))) as HL. fold (queue_len q) in HL.
  rewrite EL, Z.add_assoc, <- app_assoc, <- IH by (done || lia).
  rewrite Z2Nat.inj_add, <- drop_drop by lia. rewrite Eb at 1. unfold slice. by rewrite take_drop.
Qed.

(** C3: Whatever the guest and the host do on a connection, the bytes the host sent
    are a prefix the guest has acknowledged followed by exactly the bytes of the
    retransmission queue, of the pending buffer and of the channel, in order, where
    what the guest has acknowledged is read off its own segments; no more than a
    segment of acknowledged bytes stays in the queue; and every packet ever sent on
    the connection is a valid segment from the remote address to the guest that
    carries bytes of the host's stream at their own sequence numbers (one later once
    a FIN has been sent). *)
Theorem stream_preserved (config : NetConfig) (k : ConnKey) (syn : Segment) (isn : Z) (w : Wire) (s : Session) (acknowledged : Z) :
  octets (guest_ip config) → key_ok k → word 16 (window syn) → word 32 isn → emitted w = [] →
  rtc (traced_step config) (mkSession [] false (opened k syn isn) w, 0) (s, acknowledged) →
  0 ≤ acknowledged ≤ released s ∧ our_una (conn s) = index_seq isn acknowledged ∧
  ∃ n, 0 ≤ n ≤ len (host_bytes s) ∧
    drop (Z.to_nat n) (host_bytes s) =
      concat (out_bytes <$> unacked (conn s)) ++ pending (conn s) ++ queued_bytes (events (host_rx (conn s))) ∧
    (n = 0 ∨ 1 + n ≤ acknowledged) ∧
    (concat (out_bytes <$> unacked (conn s)) = [] ∨ acknowledged ≤ 1 + Z.b2z (fin_sent (conn s)) + n + OUR_MSS) ∧
    Forall (faithful config k (host_bytes s) isn (fin_sent (conn s))) (emitted (wire s)).
Proof.
  intros Hg Hk Hs Hi He Hr. destruct (reachable_ok _ _ _ _ _ _ _ Hg Hk Hs Hi He Hr) as [Eid (p & Hok & <-)].
  pose proof (released_ok _ _ _ Hok) as ->. destruct Hok. injection Eid as Ek Ei. rewrite Ek, Ei in *.
  destruct ok_stream0 as [Hd Hle]. destruct ok_queue0 as (front & data & Eq & Hc & Hl & Hf). rewrite Eq.
  assert (concat (out_bytes <$> front ++ data) = concat (out_bytes <$> data)) as ->.
  { rewrite fmap_app, concat_app. by destruct Hf as [->|(t & -> & _)]. }
  split; [lia|]. split; [done|]. exists (acked p). split_and!; [lia|lia| |done| |done].
  - rewrite <- Hd, <- Hl. apply (chained_concat _ isn (Z.b2z (fin_sent (conn s)))); [done|lia|lia].
  - destruct ok_front0 as [E|?]; [left|by right]. apply len_0_nil. fold (queue_len data). lia.
Qed.

(** A guest at port 40000 fetching from 93.184.216.34:80. *)
Definition demo_key : ConnKey := mkKey 40000 [93; 184; 216; 34] 80.
Definition demo_syn : Segment := mkSegment 40000 80 1000 0 FLAG_SYN 64240 [2; 4; 5; 180] [].
Definition demo_ack (seq ack : Z) (payload : list Z) : Segment := mkSegment 40000 80 seq ack FLAG_ACK 64240 [] payload.
Definition demo_start : Session := mkSession [] false (opened demo_key demo_syn 77) (mkWire 1 NetCounters_default []).

Lemma bytes_const bs : forallb (λ b, (0 <=? b) && (b <? 256)) bs = true → Forall (word 8) bs.
Proof.
  intros E. apply Forall_forall. intros b Hb. rewrite forallb_forall in E. apply list_elem_of_In, E in Hb.
  apply word_const. exact Hb.
Qed.
(** The host connects, the guest completes the handshake, the host sends five bytes
    and then three more, and the guest acknowledges the first five. *)
Lemma traced_l config l s s' a z : session_step config l s s' →
  rtc (traced_step config) (s', match l with Some segment => heard s a segment | None => a end) z → rtc (traced_step config) (s, a) z.
Proof. intros Hs Hr. eapply rtc_l; [|exact Hr]. by exists l. Qed.
Lemma demo_reached : ∃ s acknowledged, rtc (traced_step slirp_defaults) (demo_start, 0) (s, acknowledged) ∧
  host_bytes s = [104; 101; 108; 108; 111; 1; 2; 3] ∧ acknowledged = 6 ∧ len (emitted (wire s)) = 3.
Proof.
  eexists _, _. split.
  - eapply traced_l; [by apply host_connects|]. eapply traced_l; [apply (polled _ _ _ _ _ 0)|].
    eapply traced_l; [by apply (guest_sends _ _ _ _ _ (built (demo_ack 1001 78 []))); [apply bytes_const|]|].
    eapply traced_l; [apply (host_sends _ _ _ _ [104; 101; 108; 108; 111]); by apply bytes_const|].
    eapply traced_l; [apply (polled _ _ _ _ _ 1)|].
    eapply traced_l; [apply (host_sends _ _ _ _ [1; 2; 3]); by apply bytes_const|].
    eapply traced_l; [apply (polled _ _ _ _ _ 2)|].
    eapply traced_l; [by apply (guest_sends _ _ _ _ _ (built (demo_ack 1001 83 []))); [apply bytes_const|]|].
    apply rtc_refl.
  - by vm_compute.
Qed.
Lemma stream_preserved_witness : ∃ s acknowledged,
  host_bytes s = [104; 101; 108; 108; 111; 1; 2; 3] ∧ acknowledged = 6 ∧ len (emitted (wire s)) = 3 ∧
  0 ≤ acknowledged ≤ released s ∧ our_una (conn s) = index_seq 77 acknowledged ∧
  ∃ n, 0 ≤ n ≤ len (host_bytes s) ∧
    drop (Z.to_nat n) (host_bytes s) =
      concat (out_bytes <$> unacked (conn s)) ++ pending (conn s) ++ queued_bytes (events (host_rx (conn s))) ∧
    (n = 0 ∨ 1 + n ≤ acknowledged) ∧
    (concat (out_bytes <$> unacked (conn s)) = [] ∨ acknowledged ≤ 1 + Z.b2z (fin_sent (conn s)) + n + OUR_MSS) ∧
    Forall (faithful slirp_defaults demo_key (host_bytes s) 77 (fin_sent (conn s))) (emitted (wire s)).
Proof.
  destruct demo_reached as (s & a & Hr & E1 & E2 & E3). exists s, a. split; [done|]. split; [done|]. split; [done|].
  apply (stream_preserved slirp_defaults demo_key demo_syn 77 (mkWire 1 NetCounters_default []) s a);
    [by apply octets_const| |by apply word_const|by apply word_const|done|exact Hr].
  split_and!; [by apply word_const|by apply octets_const|by apply word_const].
Defined.

(** ** Giving up on a silent guest *)


Section silence.
Context (config : NetConfig).
Implicit Types (c : TcpConn) (w : Wire).





End silence.



(** ** Two departures from the stated behaviour *)

(** An established connection whose channel to the host holds 32 chunks. *)
Definition demo_full : TcpConn :=
  (opened demo_key demo_syn 77) <| established := true |> <| our_una := 78 |>
    <| guest_tx := mkSender (replicate 32 [0]) true |>.
Definition demo_host_takes (n : nat) (c : TcpConn) : TcpConn := c <| guest_tx ::= λ t, t <| queued ::= drop n |> |>.

(** The guest sends a byte while the channel is full; the host thread catches up,
    the guest retransmits before the next poll, and the host is handed the byte
    twice, with the acknowledgement one past the byte the guest has sent. *)
Lemma held_segment_delivered_twice :
  let c := (process_segment slirp_defaults (demo_ack 1001 78 [42]) demo_full demo_wire).1 in
  let c := (process_segment slirp_defaults (demo_ack 1001 78 [42]) (demo_host_takes 32 c) demo_wire).1 in
  let c := (poll_conn slirp_defaults 0 c demo_wire).1 in
  queued (guest_tx c) = [[42]; [42]] ∧ guest_next c = 1003.
Proof. by vm_compute. Qed.

(** The guest half-closes; the next poll sends the backend's FIN, and the bytes the
    host sends after that go out beyond the FIN. *)
Lemma half_close_ends_both_directions :
  let c := demo_full <| guest_tx := mkSender [] true |> in
  let fin := mkSegment 40000 80 1001 78 (FLAG_FIN .| FLAG_ACK) 64240 [] [] in
  let c := (poll_conn slirp_defaults 0 (process_segment slirp_defaults fin c demo_wire).1 demo_wire).1 in
  let c' := (poll_conn slirp_defaults 1 (c <| host_rx := mkReceiver [Data [42]] true |>) demo_wire).1 in
  host_eof c = false ∧ fin_sent c = true ∧ fin_seq c = 78 ∧ out_seq <$> unacked c' = [79].
Proof. by vm_compute. Qed.

(** The refusal of a SYN acknowledges 0 instead of the SYN: a guest waiting for its
    SYN to be acknowledged drops such a reset. *)
Lemma refusal_does_not_acknowledge_syn :
  ∃ packet p s, emitted (refuse slirp_defaults demo_key demo_syn demo_wire) = [packet] ∧ parse packet = Some p ∧
    parse_segment (payload p) = Some s ∧ flags s = FLAG_RST .| FLAG_ACK ∧ ack s = 0 ∧ seq demo_syn = 1000.
Proof. do 3 eexists. split; [reflexivity|]. split; [vm_compute; reflexivity|]. split; [vm_compute; reflexivity|]. by vm_compute. Qed.
