(* ===== verification/SystemDns.v ===== *)
(** The system resolver: [rish-softvm-core/src/net/system_dns.rs].

    Queries are parsed into one question, handed to the workers, and answered from
    the addresses the workers return. The queue to the workers and their replies
    are the environment: [submit] takes whether the queue accepts the job, and the
    replies not yet read are the list [receive]. The pending table is an
    association list in the order [poll] visits it. *)
From S2P Require Import Prelude.
From S2P Require Import NetWire.
Local Open Scope Z_scope.

Definition CAPACITY : Z := 64.
Definition TIMEOUT : Z := 30 * 1000000000.

Inductive IpAddr := V4 (octets : list Z) | V6 (octets : list Z).
#[export] Instance IpAddr_eq_dec : EqDecision IpAddr.
Proof. solve_decision. Defined.

(** [addresses] is [None] for [Err(())]. *)
Record Resolved := mkResolved { resolved_id : Z; addresses : option (list IpAddr) }.

Record Question := mkQuestion { q_wire : list Z; name : list Z; kind : Z }.

(** [byte.is_ascii_alphanumeric() || matches!(byte, b'-' | b'_')] *)
Definition label_byte (b : Z) : bool :=
  (48 <=? b) && (b <=? 57) || (65 <=? b) && (b <=? 90) || (97 <=? b) && (b <=? 122) || (b =? 45) || (b =? 95).

(** The loop of [Question::parse] at [offset]: the labels and the offset after the
    name. A round takes at least one byte, so the length of the packet is enough
    fuel. *)
Fixpoint parse_labels (fuel : nat) (packet : list Z) (offset : Z) (labels : list (list Z))
    : option (list (list Z) * Z) :=
  match fuel with
  | O => None
  | S fuel =>
      length ← packet !! Z.to_nat offset;
      let offset := offset + 1 in
      if length =? 0 then Some (labels, offset)
      else if 63 <? length then None
      else if len packet <? offset + length then None
      else
        let label := slice packet offset length in
        if negb (forallb label_byte label) then None
        else
          let labels := labels ++ [label] in
          let offset := offset + length in
          if 267 <? offset then None else parse_labels fuel packet offset labels
  end.

(** [labels.join(".")] *)
Fixpoint join (labels : list (list Z)) : list Z :=
  match labels with
  | [] => []
  | [label] => label
  | label :: labels => label ++ [46] ++ join labels
  end.

Definition Question_parse (packet : list Z) : option Question :=
  if (len packet <? 12) || (4096 <? len packet) || negb (packet !!! 2%nat .& 0xfe =? 0)
     || negb (bool_decide (slice packet 4 2 = [0; 1])) || negb (bool_decide (slice packet 6 4 = [0; 0; 0; 0]))
  then None
  else
    '(labels, offset) ← parse_labels (length packet) packet 12 [];
    if len packet <? offset + 4 then None
    else
      let trailer := slice packet offset 4 in
      if negb (bool_decide (drop 2 trailer = [0; 1])) then None
      else
        let name := join labels in
        if (len name =? 0) || (253 <? len name) then None
        else Some (mkQuestion (take (Z.to_nat (offset + 4)) packet) name (be16 trailer 0)).

(** The octets of an address of the requested family. *)
Definition family (kind : Z) (address : IpAddr) : option (list Z) :=
  match address with
  | V4 ip => if kind =? 1 then Some ip else None
  | V6 ip => if kind =? 28 then Some ip else None
  end.
(** A resource record: the name of the question, IN, TTL 0. *)
Definition record (kind : Z) (bytes : list Z) : list Z :=
  [0xc0; 0x0c] ++ to_be_bytes 2 kind ++ [0; 1; 0; 0; 0; 0] ++ to_be_bytes 2 (wrap 16 (len bytes)) ++ bytes.

(** The loop of [answer] over the addresses. *)
Fixpoint answer_loop (kind : Z) (l : list IpAddr) (answer : list Z) (count : Z) (seen : list IpAddr)
    : list Z * Z :=
  match l with
  | [] => (answer, count)
  | address :: l =>
      if bool_decide (address ∈ seen) then answer_loop kind l answer count seen
      else
        match family kind address with
        | None => answer_loop kind l answer count seen
        | Some bytes =>
            if 512 <? len answer + 12 + len bytes
            then (<[2%nat := (answer !!! 2%nat) .| 2]> answer, count)
            else answer_loop kind l (answer ++ record kind bytes) (count + 1) (seen ++ [address])
        end
  end.

Definition unsupported (q : Question) : bool := negb ((kind q =? 1) || (kind q =? 28)).
Definition answer (q : Question) (addresses : option (list IpAddr)) : list Z :=
  let rcode := if unsupported q then 4 else if bool_decide (addresses = None) then 2 else 0 in
  let a := <[2%nat := 0x80 .| (q_wire q !!! 2%nat .& 1)]> (q_wire q) in
  let a := <[3%nat := 0x80 .| rcode]> a in
  let a := splice a 6 [0; 0; 0; 0; 0; 0] in
  let '(a, count) :=
    if unsupported q then (a, 0) else answer_loop (kind q) (default [] addresses) a 0 [] in
  splice a 6 (to_be_bytes 2 count).

Record Pending := mkPending { port : Z; question : Question; deadline : Z }.
Record SystemDns := mkSystemDns {
  receive : list Resolved;
  dns_pending : list (Z * Pending);
  next_id : Z
}.
#[export] Instance SystemDns_eta : Settable SystemDns := λ s,
  mkSystemDns (receive s) (dns_pending s) (next_id s).

Definition SystemDns_new : SystemDns := mkSystemDns [] [] 0.

(** The reply channel takes [CAPACITY] replies. *)
Definition reply (r : Resolved) (s : SystemDns) : option SystemDns :=
  if len (receive s) <? CAPACITY then Some (s <| receive ::= λ l, l ++ [r] |>) else None.

(** [queue_ok] says whether the workers exist and their queue takes the job; the
    result says whether the query was accepted. *)
Definition submit (packet : list Z) (port now : Z) (queue_ok : bool) (s : SystemDns) : bool * SystemDns :=
  match Question_parse packet with
  | None => (false, s)
  | Some question =>
      if CAPACITY <=? len (dns_pending s) then (false, s)
      else
        let id := next_id s in
        if 2 ^ 64 <=? id + 1 then (false, s)
        else
          let s := s <| next_id := id + 1 |> in
          let deadline := now + TIMEOUT in
          let sent :=
            if negb (unsupported question) then (if queue_ok then Some s else None)
            else reply (mkResolved id None) s in
          match sent with
          | None => (false, s)
          | Some s => (true, s <| dns_pending ::= λ l, l ++ [(id, mkPending port question deadline)] |>)
          end
  end.

Definition dns_lookup (id : Z) (l : list (Z * Pending)) : option Pending :=
  list_find (λ e, e.1 = id) l ≫= λ '(_, e), Some e.2.
Definition dns_remove (id : Z) (l : list (Z * Pending)) : list (Z * Pending) := filter (λ e, e.1 ≠ id) l.

(** The loop of [poll] over the replies. *)
Fixpoint answer_replies (now : Z) (replies : list Resolved) (l : list (Z * Pending))
    : list (Z * list Z) * list (Z * Pending) :=
  match replies with
  | [] => ([], l)
  | r :: replies =>
      match dns_lookup (resolved_id r) l with
      | None => answer_replies now replies l
      | Some p =>
          let addresses := if now <? deadline p then addresses r else None in
          let '(answers, l) := answer_replies now replies (dns_remove (resolved_id r) l) in
          ((port p, answer (question p) addresses) :: answers, l)
      end
  end.
Definition SystemDns_poll (now : Z) (s : SystemDns) : list (Z * list Z) * SystemDns :=
  let '(answers, l) := answer_replies now (receive s) (dns_pending s) in
  let expired := filter (λ e, deadline e.2 ≤ now) l in
  (answers ++ ((λ e, (port e.2, answer (question e.2) None)) <$> expired),
   s <| receive := [] |> <| dns_pending := filter (λ e, now < deadline e.2) l |>).

Definition SystemDns_reset (s : SystemDns) : SystemDns := s <| dns_pending := [] |> <| receive := [] |>.

(** ** Questions *)

(** The wire form of a name. *)
Definition encode (labels : list (list Z)) : list Z := concat ((λ l, len l :: l) <$> labels).
Definition label_ok (l : list Z) : Prop := 1 ≤ len l ≤ 63 ∧ forallb label_byte l = true.

Lemma to_nat_len {A} (l : list A) : Z.to_nat (len l) = length l.
Proof. apply Nat2Z.id. Qed.
Lemma encode_cons l labels : encode (l :: labels) = len l :: l ++ encode labels.
Proof. done. Qed.

Lemma slice_app_mid {A} (pre l rest : list A) : slice (pre ++ l ++ rest) (len pre) (len l) = l.
Proof.
  unfold slice, len. rewrite !Nat2Z.id, drop_app_length. by rewrite take_app_length.
Qed.

Lemma parse_labels_encode labels fuel pre rest acc :
  Forall label_ok labels → (length labels < fuel)%nat → len pre + len (encode labels) ≤ 267 →
  parse_labels fuel (pre ++ encode labels ++ [0] ++ rest) (len pre) acc =
    Some (acc ++ labels, len pre + len (encode labels) + 1).
Proof.
  revert fuel pre acc. induction labels as [|l labels IH]; intros [|fuel] pre acc Hl Hf Hlen; cbn [length] in Hf; try lia.
  - cbn [parse_labels]. rewrite to_nat_len, lookup_app_r, Nat.sub_diag by lia.
    change (len (encode [])) with 0. cbn. by rewrite app_nil_r, Z.add_0_r.
  - apply Forall_cons in Hl as [[Hl Hb] Hls]. rewrite encode_cons in *. rewrite len_cons, len_app in Hlen.
    pose proof (len_nonneg (encode labels)).
    cbn [parse_labels]. rewrite to_nat_len, lookup_app_r, Nat.sub_diag by lia.
    cbn [app lookup list_lookup mbind option_bind].
    rewrite (proj2 (Z.eqb_neq _ _)), (proj2 (Z.ltb_ge 63 _)) by lia.
    replace (pre ++ len l :: (l ++ encode labels) ++ 0 :: rest)
      with ((pre ++ [len l]) ++ l ++ encode labels ++ [0] ++ rest) by (by rewrite <- !app_assoc; cbn; rewrite <- ?app_assoc).
    replace (len pre + 1) with (len (pre ++ [len l])) by (by rewrite len_app).
    rewrite slice_app_mid, Hb. cbn [negb].
    pose proof (len_nonneg rest). rewrite (proj2 (Z.ltb_ge (len _) _)) by (rewrite !len_app; change (len [0]) with 1; lia).
    rewrite (proj2 (Z.ltb_ge 267 _)) by (rewrite len_app; change (len [len l]) with 1; lia).
    rewrite <- len_app. replace ((pre ++ [len l]) ++ l ++ encode labels ++ [0] ++ rest)
      with (((pre ++ [len l]) ++ l) ++ encode labels ++ [0] ++ rest) by (by rewrite <- !app_assoc).
    rewrite IH; [|done|lia|rewrite !len_app; change (len [len l]) with 1; lia].
    rewrite <- app_assoc. do 2 f_equal. rewrite len_cons, !len_app. change (len [len l]) with 1. lia.
Qed.

Lemma encode_length labels : Forall label_ok labels → len labels ≤ len (encode labels).
Proof.
  induction 1 as [|l labels [Hl _] _ IH]; [done|]. rewrite encode_cons, !len_cons, len_app. lia.
Qed.
Lemma encode_join labels : labels ≠ [] → len (encode labels) = len (join labels) + 1.
Proof.
  induction labels as [|l labels IH]; [done|intros _]. rewrite encode_cons, len_cons, len_app.
  destruct labels as [|l' labels]; [change (len (encode [])) with 0; cbn [join]; lia|].
  rewrite IH by done. change (join (l :: l' :: labels)) with (l ++ [46] ++ join (l' :: labels)).
  rewrite !len_app. change (len [46]) with 1. lia.
Qed.

(** A query on the wire: id, flags, one question, and [extra] after it. *)
Definition question_bytes (header : list Z) (labels : list (list Z)) (kind : Z) : list Z :=
  header ++ encode labels ++ [0] ++ to_be_bytes 2 kind ++ [0; 1].
Definition header_ok (header : list Z) : Prop :=
  ∃ a b rd c n1 n2, header = [a; b; rd; c; 0; 1; 0; 0; 0; 0; n1; n2] ∧ (rd = 0 ∨ rd = 1).

Lemma question_parses header labels kind extra :
  header_ok header → Forall label_ok labels → labels ≠ [] → len (join labels) ≤ 253 → word 16 kind →
  len extra ≤ 3000 →
  Question_parse (question_bytes header labels kind ++ extra) =
    Some (mkQuestion (question_bytes header labels kind) (join labels) kind).
Proof.
  intros Hh. pose proof Hh as (a & b & rd & c & n1 & n2 & Eh & Hrd). intros Hl Hne Hj Hk Hx. pose proof (encode_join labels Hne) as Ee.
  assert (0 < len (join labels)) as Hj0.
  { destruct labels as [|l labels]; [done|]. apply Forall_cons in Hl as [[Hl _] _].
    rewrite encode_cons, len_cons, len_app in Ee. pose proof (len_nonneg (encode labels)). lia. }
  assert (len header = 12) as Lh by (by subst).
  set (rest := to_be_bytes 2 kind ++ [0; 1] ++ extra).
  assert (question_bytes header labels kind ++ extra = header ++ encode labels ++ [0] ++ rest) as ->.
  { unfold question_bytes, rest. by rewrite <- !app_assoc. }
  set (packet := header ++ encode labels ++ [0] ++ rest).
  assert (len packet = 12 + len (encode labels) + 5 + len extra) as Lp.
  { unfold packet, rest. rewrite !len_app, len_to_be_bytes by lia. change (len [0]) with 1. change (len [0; 1]) with 2. lia. }
  unfold Question_parse. pose proof (len_nonneg extra).
  rewrite (proj2 (Z.ltb_ge (len packet) _)), (proj2 (Z.ltb_ge 4096 _)) by lia.
  replace (packet !!! 2%nat .& 0xfe =? 0) with true by (unfold packet; rewrite Eh; by destruct Hrd as [->| ->]).
  rewrite (bool_decide_true (slice packet 4 2 = _)) by (unfold packet; by rewrite Eh).
  rewrite (bool_decide_true (slice packet 6 4 = _)) by (unfold packet; by rewrite Eh). cbn [negb orb].
  pose proof (parse_labels_encode labels (length packet) header rest [] Hl) as Ep. rewrite Lh in Ep.
  fold packet in Ep. rewrite Ep; [|unfold len in Lp; pose proof (encode_length labels Hl); unfold len in *; lia|lia].
  cbn [mbind option_bind app].
  rewrite (proj2 (Z.ltb_ge (len packet) _)) by lia.
  set (offset := 12 + len (encode labels) + 1).
  assert (slice packet offset 4 = to_be_bytes 2 kind ++ [0; 1]) as ->.
  { unfold packet, rest. rewrite (app_assoc header), (app_assoc _ [0]), (app_assoc (to_be_bytes 2 kind)).
    replace offset with (len ((header ++ encode labels) ++ [0])) by (rewrite !len_app; unfold offset; change (len [0]) with 1; lia).
    replace 4 with (len (to_be_bytes 2 kind ++ [0; 1])) at 1 by (by rewrite len_app, len_to_be_bytes).
    apply slice_app_mid. }
  rewrite (bool_decide_true (drop 2 _ = _)) by (by rewrite be_bytes2). cbn [negb].
  rewrite (proj2 (Z.eqb_neq (len (join labels)) 0)), (proj2 (Z.ltb_ge 253 _)) by lia. cbn [orb]. f_equal. f_equal.
  - replace (Z.to_nat (offset + 4)) with (length (question_bytes header labels kind)).
    2: { apply Nat2Z.inj. change (Z.of_nat (length ?l)) with (len l). unfold question_bytes.
         rewrite !len_app, len_to_be_bytes by lia. change (len [0]) with 1. change (len [0; 1]) with 2. unfold offset. lia. }
    replace packet with (question_bytes header labels kind ++ extra) by (unfold question_bytes, packet, rest; by rewrite <- !app_assoc).
    apply take_app_length.
  - rewrite be_bytes2. rewrite <- (be_bytes2_value kind Hk) at 3. by rewrite be_bytes2.
Qed.

(** ** Answers *)

(** The first occurrences of a list, apart from [seen]. *)
Fixpoint dedup (seen l : list (list Z)) : list (list Z) :=
  match l with
  | [] => []
  | x :: l => if bool_decide (x ∈ seen) then dedup seen l else x :: dedup (seen ++ [x]) l
  end.

Lemma family_inj kind x y o : family kind x = Some o → family kind y = Some o → x = y.
Proof.
  destruct x, y; cbn; intros; repeat case_match; simplify_eq; try done;
    repeat match goal with H : (_ =? _) = true |- _ => apply Z.eqb_eq in H end; lia.
Qed.
Lemma family_seen kind x o (seen : list IpAddr) : family kind x = Some o → (x ∈ seen ↔ o ∈ omap (family kind) seen).
Proof.
  intros Hx. rewrite list_elem_of_omap. split; [by exists x|]. intros (y & Hy & E). by rewrite (family_inj kind x y o).
Qed.
Lemma len_record kind bytes : len (record kind bytes) = 12 + len bytes.
Proof. unfold record. rewrite !len_app, !len_to_be_bytes by lia. change (len [_; _]) with 2. change (len [_; _; _; _; _; _]) with 6. lia. Qed.

Lemma answer_loop_spec kind l a count seen : len a ≤ 512 →
  ∃ served rest, dedup (omap (family kind) seen) (omap (family kind) l) = served ++ rest ∧
    let b := a ++ concat (record kind <$> served) in
    len b ≤ 512 ∧
    answer_loop kind l a count seen =
      (match rest with [] => b | _ => <[2%nat := (b !!! 2%nat) .| 2]> b end, count + len served).
Proof.
  revert a count seen. induction l as [|x l IH]; intros a count seen Ha.
  { exists [], []. cbn. rewrite app_nil_r. split_and!; [done|done|]. change (len []) with 0. by rewrite Z.add_0_r. }
  cbn [answer_loop]. destruct (family kind x) as [o|] eqn:Ex.
  2: { destruct (IH a count seen Ha) as (served & rest & E & Hrest). exists served, rest. cbn [omap list_omap]. rewrite Ex.
       split; [done|]. by case_bool_decide. }
  cbn [omap list_omap]. rewrite Ex. cbn [dedup].
  destruct (decide (x ∈ seen)) as [Hin|Hin].
  { rewrite (bool_decide_true (x ∈ seen)) by done. rewrite bool_decide_true by (by eapply family_seen). by apply IH. }
  rewrite (bool_decide_false (x ∈ seen)) by done.
  rewrite bool_decide_false by (intros Ho; apply Hin; by eapply family_seen).
  destruct (Z.ltb_spec 512 (len a + 12 + len o)).
  - exists [], (o :: dedup (omap (family kind) seen ++ [o]) (omap (family kind) l)). cbn. rewrite app_nil_r.
    split_and!; [done|done|]. change (len []) with 0. by rewrite Z.add_0_r.
  - destruct (IH (a ++ record kind o) (count + 1) (seen ++ [x])) as (served & rest & E & Hb & Er).
    { rewrite len_app, len_record. lia. }
    exists (o :: served), rest. rewrite omap_app in E. cbn [omap list_omap] in E. rewrite Ex in E.
    split; [by rewrite E|]. cbn [fmap list_fmap concat]. rewrite app_assoc. split; [done|].
    rewrite Er, len_cons. f_equal. lia.
Qed.

Lemma parse_labels_bounds fuel packet offset labels labels' offset' : Forall (word 8) packet →
  parse_labels fuel packet offset labels = Some (labels', offset') → 12 ≤ offset ≤ 267 → offset < offset' ≤ 268.
Proof.
  intros Hw. revert offset labels. induction fuel as [|fuel IH]; intros offset labels E Ho; [done|].
  cbn [parse_labels] in E. destruct (packet !! _) as [n|] eqn:En; [|done]. cbn [mbind option_bind] in E.
  pose proof (Forall_lookup_1 _ _ _ _ Hw En) as [Hn _].
  destruct (n =? 0); [injection E as <- <-; lia|]. destruct (63 <? n); [done|].
  destruct (_ <? _); [done|]. destruct (negb _); [done|]. destruct (Z.ltb_spec 267 (offset + 1 + n)); [done|].
  apply IH in E; lia.
Qed.

(** The wire form of a parsed question: a header with one question, then a name,
    type and class. *)
Lemma parsed_wire packet q : Forall (word 8) packet → Question_parse packet = Some q →
  ∃ a b rd c n1 n2 rest, q_wire q = [a; b; rd; c; 0; 1; 0; 0; 0; 0; n1; n2] ++ rest ∧ take 2 packet = [a; b] ∧
    len (q_wire q) ≤ 272.
Proof.
  intros Hw. unfold Question_parse. destruct (_ || negb (bool_decide (slice packet 6 4 = _))) eqn:E0; [done|].
  rewrite !orb_false_iff in E0. destruct E0 as [[[[E1 _] _] E2] E3].
  apply negb_false_iff, bool_decide_eq_true in E2, E3. apply Z.ltb_ge in E1.
  destruct (parse_labels _ _ _ _) as [[labels offset]|] eqn:Ep; [|done]. cbn [mbind option_bind].
  apply parse_labels_bounds in Ep; [|done|lia]. destruct (Z.ltb_spec (len packet) (offset + 4)); [done|].
  destruct (negb _); [done|]. destruct (_ || _); [done|]. intros [= <-]. cbn [q_wire].
  assert (12 ≤ length packet)%nat by (unfold len in *; lia).
  do 12 (destruct packet as [|? packet]; [cbn in *; lia|]).
  injection E2 as -> ->. injection E3 as -> -> -> ->.
  replace (Z.to_nat (offset + 4)) with (12 + Z.to_nat (offset - 8))%nat by lia.
  do 7 eexists. split; [reflexivity|]. split; [done|]. unfold len. rewrite length_take. lia.
Qed.

(** The answer to a query is a well-formed DNS message of at most 512 bytes: it
    carries the query's id, its question unchanged, and one record for each
    distinct address of the requested family in the resolver's order, with the
    count in the header and the truncation bit set exactly when some did not fit;
    a resolver failure answers SERVFAIL and an unknown type NOTIMP. *)
Theorem dns_answer_wellformed (packet : list Z) (q : Question) (found : option (list IpAddr)) :
  Forall (word 8) packet → Question_parse packet = Some q →
  ∃ served rest,
    (if unsupported q then [] else dedup [] (omap (family (kind q)) (default [] found))) = served ++ rest ∧
    answer q found =
      take 2 packet ++
      [0x80 .| (q_wire q !!! 2%nat .& 1) .| (if bool_decide (rest = []) then 0 else 2);
       0x80 .| (if unsupported q then 4 else if bool_decide (found = None) then 2 else 0)] ++
      [0; 1] ++ to_be_bytes 2 (len served) ++ [0; 0; 0; 0] ++
      drop 12 (q_wire q) ++ concat (record (kind q) <$> served) ∧
    len (answer q found) ≤ 512.
Proof.
  intros Hw Hp. destruct (parsed_wire packet q Hw Hp) as (a & b & rd & c & n1 & n2 & body & Eq & -> & Hl).
  set (rcode := if unsupported q then 4 else _). set (x := 0x80 .| (q_wire q !!! 2%nat .& 1)).
  assert (∀ y R n, splice ([a; b; y; 0x80 .| rcode; 0; 1; 0; 0; 0; 0; 0; 0] ++ R) 6 (to_be_bytes 2 n) =
    [a; b] ++ [y; 0x80 .| rcode] ++ [0; 1] ++ to_be_bytes 2 n ++ [0; 0; 0; 0] ++ R) as Hfill.
  { intros. by rewrite be_bytes2. }
  assert (answer q found =
    let '(r, count) := if unsupported q then ([a; b; x; 0x80 .| rcode; 0; 1; 0; 0; 0; 0; 0; 0] ++ body, 0)
      else answer_loop (kind q) (default [] found) ([a; b; x; 0x80 .| rcode; 0; 1; 0; 0; 0; 0; 0; 0] ++ body) 0 [] in
    splice r 6 (to_be_bytes 2 count)) as ->.
  { unfold answer. fold rcode x. rewrite Eq. reflexivity. }
  assert (drop 12 (q_wire q) = body) as -> by (by rewrite Eq).
  assert (12 + len body ≤ 272) as Hl' by (by rewrite Eq, len_app in Hl).
  assert (∀ y n R, len ([a; b] ++ [y; 0x80 .| rcode] ++ [0; 1] ++ to_be_bytes 2 n ++ [0; 0; 0; 0] ++ R) = 12 + len R) as HL.
  { intros. rewrite !len_app, len_to_be_bytes by lia. unfold len. cbn [length]. lia. }
  destruct (unsupported q).
  { exists [], []. split; [done|]. rewrite bool_decide_true, Z.lor_0_r, Hfill by done. cbn [fmap list_fmap concat].
    rewrite app_nil_r. split; [done|]. rewrite HL. lia. }
  destruct (answer_loop_spec (kind q) (default [] found) ([a; b; x; 0x80 .| rcode; 0; 1; 0; 0; 0; 0; 0; 0] ++ body) 0 [])
    as (served & rest & Es & Hb & ->); [by rewrite len_app; unfold len in *; cbn [length]; lia|].
  exists served, rest. split; [exact Es|]. rewrite Z.add_0_l. rewrite <- app_assoc in Hb |- *.
  assert (len (body ++ concat (record (kind q) <$> served)) ≤ 500) as Hb'.
  { rewrite len_app in Hb. unfold len in Hb at 1. cbn [length] in Hb. lia. }
  destruct rest as [|o rest].
  - rewrite bool_decide_true, Z.lor_0_r, Hfill by done. split; [done|]. rewrite HL. lia.
  - rewrite bool_decide_false by done.
    change (<[2%nat := _]> _) with ([a; b; x .| 2; 0x80 .| rcode; 0; 1; 0; 0; 0; 0; 0; 0] ++ body ++ concat (record (kind q) <$> served)).
    rewrite Hfill. split; [done|]. rewrite HL. lia.
Qed.

Definition demo_query (kind : Z) : list Z :=
  question_bytes [0xbe; 0xef; 1; 0; 0; 1; 0; 0; 0; 0; 0; 0] [[108; 111; 99; 97; 108]; [108; 97; 110]] kind.
Lemma dns_answer_wellformed_witness :
  let q := mkQuestion (demo_query 1) [108; 111; 99; 97; 108; 46; 108; 97; 110] 1 in
  let found := Some [V4 [10; 0; 0; 7]; V6 (replicate 16 0); V4 [10; 0; 0; 7]; V4 [10; 0; 0; 8]] in
  ∃ served rest,
    (if unsupported q then [] else dedup [] (omap (family (kind q)) (default [] found))) = served ++ rest ∧
    answer q found =
      take 2 (demo_query 1) ++
      [0x80 .| (q_wire q !!! 2%nat .& 1) .| (if bool_decide (rest = []) then 0 else 2);
       0x80 .| (if unsupported q then 4 else if bool_decide (found = None) then 2 else 0)] ++
      [0; 1] ++ to_be_bytes 2 (len served) ++ [0; 0; 0; 0] ++
      drop 12 (q_wire q) ++ concat (record (kind q) <$> served) ∧
    len (answer q found) ≤ 512.
Proof.
  intros q found. apply (dns_answer_wellformed (demo_query 1) q found).
  - repeat (apply Forall_cons; split; [by apply word_const|]). constructor.
  - by vm_compute.
Defined.

(** ** The table of queries *)

(** The ids of the table are [from] at least. *)
Record dns_ok (from : Z) (s : SystemDns) : Prop := mk_dns_ok {
  dns_ids : NoDup (dns_pending s).*1;
  dns_old : Forall (λ e, from ≤ e.1 < next_id s) (dns_pending s);
  dns_cap : len (dns_pending s) ≤ CAPACITY;
  dns_next : from ≤ next_id s < 2 ^ 64
}.

(** What happens to the resolver: a query, a poll, a reply of a worker to a job it
    was given (possibly of an earlier driver session), a device reset. *)
Inductive dns_step (s : SystemDns) : SystemDns → Prop :=
  | dns_submits packet port now queue_ok : dns_step s (submit packet port now queue_ok s).2
  | dns_polls now : dns_step s (SystemDns_poll now s).2
  | worker_replies r s' : 0 ≤ resolved_id r < next_id s → reply r s = Some s' → dns_step s s'
  | dns_resets : dns_step s (SystemDns_reset s).

(** The answer of a pending query. *)
Definition answers_query (reply : Z * list Z) (e : Z * Pending) : Prop :=
  ∃ found, reply = (port e.2, answer (question e.2) found).

Lemma filter_all {A} (P : A → Prop) `{∀ x, Decision (P x)} (l : list A) : Forall P l → filter P l = l.
Proof. induction 1 as [|x l Hx _ IH]; [done|]. by rewrite filter_cons_True, IH. Qed.
Lemma dns_lookup_remove id l p : dns_lookup id l = Some p → NoDup l.*1 → l ≡ₚ (id, p) :: dns_remove id l.
Proof.
  unfold dns_lookup, dns_remove. intros E Hnd. destruct (list_find _ l) as [[i e]|] eqn:Ef; [|done].
  injection E as <-. apply list_find_Some in Ef as (Hi & <- & _). destruct e as [id p]. cbn in *.
  apply take_drop_middle in Hi. rewrite <- Hi in Hnd |- *. rewrite fmap_app, fmap_cons in Hnd. cbn in Hnd.
  apply NoDup_app in Hnd as (_ & H1 & H2). apply NoDup_cons in H2 as [H2 _].
  rewrite filter_app, filter_cons_False by (cbn; auto).
  assert (∀ l : list (Z * Pending), id ∉ l.*1 → filter (λ e, e.1 ≠ id) l = l) as Hf.
  { intros k Hk. apply filter_all, Forall_forall. intros e He <-. apply Hk. by apply list_elem_of_fmap_2. }
  rewrite !Hf; [by rewrite Permutation_middle|done|]. intros Hin. apply (H1 id Hin). by left.
Qed.
Lemma dns_remove_ids id l : NoDup l.*1 → NoDup (dns_remove id l).*1.
Proof. intros H. eapply sublist_NoDup; [exact H|]. apply fmap_sublist, sublist_filter. Qed.

Lemma answer_replies_spec now replies l answers l' : answer_replies now replies l = (answers, l') → NoDup l.*1 →
  ∃ served, l ≡ₚ served ++ l' ∧ Forall2 answers_query answers served ∧ NoDup l'.*1 .
Proof.
  revert l answers l'. induction replies as [|r replies IH]; intros l answers l' E Hnd; cbn [answer_replies] in E.
  { injection E as <- <-. by exists []. }
  destruct (dns_lookup _ _) as [p|] eqn:El; [|by apply IH].
  destruct (answer_replies _ _ _) as [answers1 l1] eqn:E1. injection E as <- <-.
  destruct (IH _ _ _ E1) as (served & Hp & Hf & Hnd'); [by apply dns_remove_ids|].
  exists ((resolved_id r, p) :: served). split_and!; [|constructor; [by eexists|done]|done].
  rewrite (dns_lookup_remove _ _ _ El Hnd). by rewrite Hp.
Qed.

(** A poll answers each query it takes out of the table, to its own port. *)
Lemma poll_serves now s : NoDup (dns_pending s).*1 →
  ∃ served, dns_pending s ≡ₚ served ++ dns_pending (SystemDns_poll now s).2 ∧
    Forall2 answers_query (SystemDns_poll now s).1 served ∧
    Forall (λ e, now < deadline e.2) (dns_pending (SystemDns_poll now s).2) ∧
    NoDup (dns_pending (SystemDns_poll now s).2).*1.
Proof.
  intros Hnd. unfold SystemDns_poll. destruct (answer_replies _ _ _) as [answers l] eqn:E. cbn [fst snd].
  destruct (answer_replies_spec _ _ _ _ _ E Hnd) as (served & Hp & Hf & Hnd'). cbn.
  exists (served ++ filter (λ e, deadline e.2 ≤ now) l). split_and!.
  - rewrite Hp, <- app_assoc. f_equiv. rewrite <- (filter_app_complement (λ e, deadline e.2 ≤ now) l) at 1. f_equiv.
    apply reflexive_eq, list_filter_iff. intros. lia.
  - apply Forall2_app; [done|]. rewrite Forall2_fmap_l. apply Forall_Forall2_diag, Forall_forall. intros e _. by eexists.
  - apply Forall_forall. intros e He. by apply list_elem_of_filter in He as [? _].
  - eapply sublist_NoDup; [exact Hnd'|]. apply fmap_sublist, sublist_filter.
Qed.

Lemma dns_step_ok from s s' : dns_step s s' → dns_ok from s → dns_ok from s'.
Proof.
  intros [packet port now queue_ok|now|r s'' Hr E|] Hok; destruct Hok.
  - unfold submit. destruct (Question_parse packet) as [q|]; [|done].
    destruct (Z.leb_spec CAPACITY (len (dns_pending s))); [done|].
    destruct (Z.leb_spec (2 ^ 64) (next_id s + 1)); [done|].
    assert (dns_ok from (s <| next_id := next_id s + 1 |>)) as Hok1.
    { split; cbn; try done; [|lia]. eapply Forall_impl; [done|]. cbn. intros; lia. }
    destruct (if negb _ then _ else _) as [s1|] eqn:Es; [|done]. cbn [snd].
    assert (dns_pending s1 = dns_pending s ∧ next_id s1 = next_id s + 1) as [Ep En].
    { unfold reply in Es. repeat case_match; by simplify_eq. }
    split; cbn; rewrite ?Ep, ?En; try done.
    + rewrite fmap_app. apply NoDup_app. split_and!; [done| |by apply NoDup_singleton].
      intros x Hx Hin. apply list_elem_of_singleton in Hin as ->. apply list_elem_of_fmap in Hx as (e & E1 & He).
      rewrite Forall_forall in dns_old0. specialize (dns_old0 e He). cbn in E1. lia.
    + apply Forall_app. split; [|by apply Forall_singleton; cbn; lia]. eapply Forall_impl; [done|]. cbn. intros; lia.
    + rewrite len_app. unfold len in *. cbn. lia.
    + lia.
  - destruct (poll_serves now s dns_ids0) as (served & Hp & _ & _ & Hnd).
    assert (next_id (SystemDns_poll now s).2 = next_id s) as En.
    { unfold SystemDns_poll. by destruct (answer_replies _ _ _). }
    split; rewrite ?En; try done.
    + rewrite Hp in dns_old0. by apply Forall_app in dns_old0 as [_ ?].
    + unfold len in *. rewrite Hp, length_app in dns_cap0. lia.
  - unfold reply in E. case_match; by simplify_eq.
  - split; cbn; try done. constructor.
Qed.

(** The system resolver keeps at most 64 queries, and every accepted query is
    answered exactly once, to the port it came from: a poll moves queries out of the
    table one answer each and leaves only those whose deadline has not passed, and
    a query accepted after a device reset never takes the reply of one before. *)
Theorem queries_answered_once (s : SystemDns) (now : Z) :
  rtc dns_step SystemDns_new s →
  len (dns_pending s) ≤ CAPACITY ∧
  (∃ served, dns_pending s ≡ₚ served ++ dns_pending (SystemDns_poll now s).2 ∧
    Forall2 answers_query (SystemDns_poll now s).1 served ∧
    Forall (λ e, now < deadline e.2) (dns_pending (SystemDns_poll now s).2)) ∧
  ∀ s' e, rtc dns_step (SystemDns_reset s) s' → e ∈ dns_pending s' → next_id s ≤ e.1.
Proof.
  intros Hr.
  assert (∀ from s s', rtc dns_step s s' → dns_ok from s → dns_ok from s') as Hrun.
  { intros from s1 s2 H. induction H as [|s1 s3 s2 Hs _ IH]; [done|]. intros. by eapply IH, dns_step_ok. }
  assert (dns_ok 0 SystemDns_new) as H0 by (split; cbn; [constructor|constructor|done|lia]).
  pose proof (Hrun _ _ _ Hr H0) as []. split_and!; [done| |].
  - destruct (poll_serves now s dns_ids0) as (served & H1 & H2 & H3 & _). by exists served.
  - intros s' e Hr' He. assert (dns_ok (next_id s) (SystemDns_reset s)) as Hs by (split; cbn; [constructor|constructor|done|lia]).
    apply (Hrun _ _ _ Hr') in Hs as []. rewrite Forall_forall in dns_old1. specialize (dns_old1 e He). cbn in dns_old1. lia.
Qed.

(** Two queries, one of an unknown type, and a poll a second later. *)
Lemma queries_answered_once_witness :
  let s := (submit (demo_query 16) 41000 5 true (submit (demo_query 1) 40000 0 true SystemDns_new).2).2 in
  len (dns_pending s) = 2 ∧ len (SystemDns_poll 1000000000 s).1 = 1 ∧
  len (dns_pending s) ≤ CAPACITY ∧
  (∃ served, dns_pending s ≡ₚ served ++ dns_pending (SystemDns_poll 1000000000 s).2 ∧
    Forall2 answers_query (SystemDns_poll 1000000000 s).1 served ∧
    Forall (λ e, 1000000000 < deadline e.2) (dns_pending (SystemDns_poll 1000000000 s).2)) ∧
  ∀ s' e, rtc dns_step (SystemDns_reset s) s' → e ∈ dns_pending s' → next_id s ≤ e.1.
Proof.
  intros s. split; [by vm_compute|]. split; [by vm_compute|]. apply (queries_answered_once s 1000000000).
  eapply rtc_l; [apply dns_submits|]. eapply rtc_l; [apply dns_submits|]. apply rtc_refl.
Defined.
