(* ===== verification/Udp.v ===== *)
(** The DNS forwarder: [rish-softvm-core/src/net/udp.rs].

    The host socket is the environment: [handle] takes whether [send_to] succeeds
    and returns the datagrams it sends, and [poll] takes the datagrams that have
    arrived. Times are nanoseconds. *)
From stdpp Require Import gmap.
From S2P Require Import Prelude.
From S2P Require Import NetWire.
From S2P Require Import Tcp.
From S2P Require Import SystemDns.
Local Open Scope Z_scope.

Definition DNS_QUERY_TIMEOUT : Z := 30 * 1000000000.
Definition DNS_HEADER_BYTES : Z := 12.
Definition MAX_PENDING_QUERIES : Z := 1024.

(** [SocketAddr]: the octets of the address and the port. *)
Definition SocketAddr : Type := list Z * Z.

Record PendingQuery := mkQuery { guest_id : Z; guest_port : Z; created : Z }.
Record UdpState := mkUdp {
  upstream : option SocketAddr;
  queries : gmap Z PendingQuery;
  cursor : Z;
  system_dns : SystemDns
}.
#[export] Instance UdpState_eta : Settable UdpState := λ s,
  mkUdp (upstream s) (queries s) (cursor s) (system_dns s).

Definition UdpState_new (upstream : option SocketAddr) : UdpState := mkUdp upstream ∅ 0 SystemDns_new.
Definition UdpState_reset (s : UdpState) : UdpState :=
  s <| system_dns ::= SystemDns_reset |> <| queries := ∅ |> <| cursor := 0 |>.

(** [counters.dns_drops] for each of [n] queries. *)
Definition drop_queries (n : nat) (c : NetCounters) : NetCounters := c <| dns_drops ::= Nat.iter n bump |>.
Definition live (now : Z) (q : PendingQuery) : Prop := now - created q < DNS_QUERY_TIMEOUT.
#[export] Instance live_dec now q : Decision (live now q).
Proof. unfold live. apply _. Defined.

Definition expire_pending (now : Z) (s : UdpState) (c : NetCounters) : UdpState * NetCounters :=
  let kept := filter (λ e, live now e.2) (queries s) in
  (s <| queries := kept |>, drop_queries (size (queries s) - size kept) c).

(** The loop of [allocate_id]; it stops when the cursor is back at [start], so
    2^16 rounds are enough fuel. *)
Fixpoint allocate_loop (fuel : nat) (start next : Z) (table : gmap Z PendingQuery) : option Z * Z :=
  match fuel with
  | O => (None, next)
  | S fuel =>
      let id := next in
      let next := wrapping_add 16 next 1 in
      if bool_decide (table !! id = None) then (Some id, next)
      else if next =? start then (None, next)
      else allocate_loop fuel start next table
  end.
Definition allocate_id (s : UdpState) : option Z * UdpState :=
  let '(id, next) := allocate_loop (Z.to_nat (2 ^ 16)) (cursor s) (cursor s) (queries s) in
  (id, s <| cursor := next |>).

(** The results of the host for one call of [handle]: the time of the sweep and of
    the insertion, [send_to], and the queue of the resolver workers. *)
Record HostCall := mkHostCall { sweep_time : Z; insert_time : Z; send_ok : bool; queue_ok : bool }.

(** The query of a datagram for the forwarder, with the guest's port, or the
    counter of the reason it is dropped. *)
Definition guest_query (config : NetConfig) (packet : Ipv4Packet) : (Z * list Z) + (NetCounters → NetCounters) :=
  let payload := payload packet in
  if len payload <? 8 then inr (λ c, c <| dropped_bad_packet ::= bump |>)
  else
    let src_port := be16 payload 0 in
    let dst_port := be16 payload 2 in
    if negb (bool_decide (dst packet = gateway_ip config)) || negb (dst_port =? 53)
    then inr (λ c, c <| dropped_other_udp ::= bump |>)
    else
      let zeroed := splice payload 6 [0; 0] in
      let expected := transport_checksum (src packet) (dst packet) PROTOCOL_UDP zeroed in
      let carried := be16 payload 6 in
      if negb (carried =? 0) && negb (carried =? expected)
      then inr (λ c, c <| dropped_bad_checksum ::= bump |>)
      else if negb (be16 payload 4 =? len payload)
      then inr (λ c, c <| dropped_bad_packet ::= bump |>)
      else inl (src_port, drop 8 payload).

(** Forward a query to [up]. *)
Definition forward (host : HostCall) (up : SocketAddr) (port : Z) (query : list Z) (s : UdpState) (c : NetCounters)
    : UdpState * NetCounters * list (SocketAddr * list Z) :=
  let '(s, c) := expire_pending (sweep_time host) s c in
  if MAX_PENDING_QUERIES <=? Z.of_nat (size (queries s)) then (s, drop_queries 1 c, [])
  else
    match allocate_id s with
    | (None, s) => (s, drop_queries 1 c, [])
    | (Some id, s) =>
        let forwarded := splice query 0 (to_be_bytes 2 id) in
        if negb (send_ok host) then (s <| queries ::= delete id |>, drop_queries 1 c, [])
        else
          (s <| queries ::= <[id := mkQuery (be16 query 0) port (insert_time host)]> |>,
           c <| dns_queries ::= bump |>, [(up, forwarded)])
    end.

Definition handle (config : NetConfig) (host : HostCall) (packet : Ipv4Packet) (s : UdpState) (c : NetCounters)
    : UdpState * NetCounters * list (SocketAddr * list Z) :=
  match guest_query config packet with
  | inr count => (s, count c, [])
  | inl (src_port, query) =>
      match upstream s with
      | None =>
          let '(accepted, dns) := submit query src_port (sweep_time host) (queue_ok host) (system_dns s) in
          (s <| system_dns := dns |>, if accepted then c <| dns_queries ::= bump |> else drop_queries 1 c, [])
      | Some up =>
          if len query <? 12 then (s, c <| dropped_bad_packet ::= bump |>, [])
          else forward host up src_port query s c
      end
  end.

(** An answer to the guest. *)
Definition emit_answer (config : NetConfig) (port : Z) (answer : list Z) (w : Wire) : Wire :=
  let '(id, next) := next_identification (ip_id w) in
  w <| ip_id := next |>
    <| emitted ::= λ l, l ++ [wrap_udp (gateway_ip config) (guest_ip config) 53 port answer id] |>
    <| counters ::= λ c, c <| dns_answers ::= bump |> |>.

(** One datagram of the host socket; the buffer takes 4096 bytes. *)
Definition take_answer (config : NetConfig) (datagram : SocketAddr * list Z) (s : UdpState) (w : Wire) : UdpState * Wire :=
  let '(from, data) := datagram in
  let buffer := take 4096 data in
  if negb (bool_decide (Some from = upstream s)) then (s, w)
  else if len buffer <? DNS_HEADER_BYTES then (s, w <| counters ::= drop_queries 1 |>)
  else
    match queries s !! be16 buffer 0 with
    | None => (s, w <| counters ::= drop_queries 1 |>)
    | Some pending =>
        (s <| queries ::= delete (be16 buffer 0) |>,
         emit_answer config (guest_port pending) (splice buffer 0 (to_be_bytes 2 (guest_id pending))) w)
    end.
Definition take_answers (config : NetConfig) (datagrams : list (SocketAddr * list Z)) (s : UdpState) (w : Wire) : UdpState * Wire :=
  foldl (λ '(s, w) d, take_answer config d s w) (s, w) datagrams.

Definition poll (config : NetConfig) (now : Z) (datagrams : list (SocketAddr * list Z)) (s : UdpState) (w : Wire)
    : UdpState * Wire :=
  let '(answers, dns) := SystemDns_poll now (system_dns s) in
  let w := foldl (λ w '(port, answer), emit_answer config port answer w) w answers in
  let '(s, w) := take_answers config datagrams (s <| system_dns := dns |>) w in
  let '(s, c) := expire_pending now s (counters w) in
  (s, w <| counters := c |>).

(** ** Transaction ids *)

Definition probe (start j : Z) : Z := wrap 16 (start + j).
Lemma probe_next start j : wrapping_add 16 (probe start j) 1 = probe start (j + 1).
Proof. unfold probe, wrapping_add, wrap. rewrite Zplus_mod_idemp_l. f_equal. lia. Qed.
Lemma probe_covers start id : word 16 start → word 16 id → ∃ j, 0 ≤ j < 2 ^ 16 ∧ id = probe start j.
Proof.
  unfold probe, wrap, word. intros Hs Hi. exists ((id - start) `mod` 2 ^ 16). split; [apply Z.mod_pos_bound; lia|].
  rewrite Zplus_mod_idemp_r. replace (start + (id - start)) with id by lia. by rewrite Z.mod_small.
Qed.

Lemma allocate_loop_spec fuel start table j : word 16 start → Z.of_nat fuel = 2 ^ 16 - j → 0 ≤ j < 2 ^ 16 →
  (∀ i, 0 ≤ i < j → table !! probe start i ≠ None) →
  match allocate_loop fuel start (probe start j) table with
  | (Some id, next) => table !! id = None ∧ word 16 id ∧ word 16 next
  | (None, next) => (∀ id, word 16 id → table !! id ≠ None) ∧ word 16 next
  end.
Proof.
  intros Hs. revert j. induction fuel as [|fuel IH]; intros j Hf Hj Hocc; [lia|]. cbn [allocate_loop].
  rewrite probe_next. case_bool_decide as Hn.
  { split_and!; [done|by apply word_wrap|by apply word_wrap]. }
  assert (∀ i, 0 ≤ i < j + 1 → table !! probe start i ≠ None) as Hocc'.
  { intros i Hi. destruct (decide (i = j)) as [->|]; [done|]. apply Hocc. lia. }
  destruct (Z.eqb_spec (probe start (j + 1)) start) as [E|E].
  - rewrite E. split; [|done]. intros id Hid. destruct (probe_covers start id Hs Hid) as (i & Hi & ->). apply Hocc'.
    assert (j + 1 = 2 ^ 16) as ->; [|done]. unfold probe, wrap, word in *. dlia.
  - apply IH; [lia|split; [lia|]|done]. destruct (decide (j + 1 = 2 ^ 16)) as [Ej|]; [|lia]. destruct E.
    rewrite Ej. unfold probe, wrap, word in *. dlia.
Qed.

(** [allocate_id] finds a free id whenever there is one. *)
Lemma allocate_id_spec s : word 16 (cursor s) →
  queries (allocate_id s).2 = queries s ∧ upstream (allocate_id s).2 = upstream s ∧
  system_dns (allocate_id s).2 = system_dns s ∧ word 16 (cursor (allocate_id s).2) ∧
  match (allocate_id s).1 with
  | Some id => queries s !! id = None ∧ word 16 id
  | None => ∀ id, word 16 id → queries s !! id ≠ None
  end.
Proof.
  intros Hc. unfold allocate_id.
  pose proof (allocate_loop_spec (Z.to_nat (2 ^ 16)) (cursor s) (queries s) 0 Hc) as H.
  replace (probe (cursor s) 0) with (cursor s) in H.
  2: { unfold probe. rewrite Z.add_0_r. symmetry. by apply wrap_small. }
  specialize (H ltac:(lia) ltac:(lia) ltac:(lia)).
  destruct (allocate_loop _ _ _ _) as [[id|] next]; naive_solver.
Qed.
Lemma table_full (table : gmap Z PendingQuery) :
  (∀ id, word 16 id → table !! id ≠ None) → 2 ^ 16 ≤ Z.of_nat (size table).
Proof.
  intros H. assert (list_to_set (seqZ 0 (2 ^ 16)) ⊆ dom table) as Hsub.
  { intros id Hid. apply elem_of_list_to_set, elem_of_seqZ in Hid. apply elem_of_dom, not_eq_None_Some, H. unfold word. lia. }
  apply subseteq_size in Hsub. rewrite size_dom, size_list_to_set, length_seqZ in Hsub by apply NoDup_seqZ. lia.
Qed.

(** ** The forwarder *)

(** What reaches the forwarder. *)
Inductive UdpEvent :=
  | Handles (host : HostCall) (packet : Ipv4Packet) (c : NetCounters)
  | Polls (now : Z) (datagrams : list (SocketAddr * list Z)) (w : Wire)
  | Resets.
Definition udp_run (config : NetConfig) (e : UdpEvent) (s : UdpState) : UdpState :=
  match e with
  | Handles host packet c => (handle config host packet s c).1.1
  | Polls now datagrams w => (poll config now datagrams s w).1
  | Resets => UdpState_reset s
  end.
Definition udp_runs (config : NetConfig) (es : list UdpEvent) (s : UdpState) : UdpState :=
  foldl (λ s e, udp_run config e s) s es.
(** No answer under [id] arrives, and [limit] does not pass. *)
Definition undisturbed (id limit : Z) (e : UdpEvent) : Prop :=
  match e with
  | Handles host _ _ => sweep_time host < limit
  | Polls now datagrams _ => now < limit ∧ Forall (λ d, be16 (take 4096 d.2) 0 ≠ id) datagrams
  | Resets => False
  end.

Record udp_ok (up : SocketAddr) (s : UdpState) : Prop := mk_udp_ok {
  uo_upstream : upstream s = Some up;
  uo_cursor : word 16 (cursor s);
  uo_size : Z.of_nat (size (queries s)) ≤ MAX_PENDING_QUERIES;
  uo_system : system_dns s = SystemDns_new
}.

Section forwarder.
Context (config : NetConfig) (up : SocketAddr).

Lemma expire_ok now s c : udp_ok up s → udp_ok up (expire_pending now s c).1.
Proof.
  intros []. split; cbn; try done. pose proof (map_subseteq_size _ _ (map_filter_subseteq (λ e, live now e.2) (queries s))). lia.
Qed.
Lemma expire_keeps now s c id q : queries s !! id = Some q → live now q →
  queries (expire_pending now s c).1 !! id = Some q.
Proof. intros Hq Hl. cbn. by apply map_lookup_filter_Some. Qed.

Lemma forward_udp_ok host port query s c : udp_ok up s → udp_ok up (forward host up port query s c).1.1.
Proof.
  intros Hok. unfold forward. pose proof (expire_ok (sweep_time host) s c Hok) as Hok1.
  destruct (expire_pending _ _ _) as [s1 c1]. cbn [fst] in Hok1. clear Hok s c. destruct Hok1.
  destruct (Z.leb_spec MAX_PENDING_QUERIES (Z.of_nat (size (queries s1)))); [done|].
  destruct (allocate_id_spec s1 uo_cursor0) as (Eq & Eu & Es & Hc & Hid).
  destruct (allocate_id s1) as [[id|] s2]; cbn [fst snd] in *.
  2: { split; cbn; rewrite ?Eu, ?Eq, ?Es; try done. }
  destruct (negb _); split; cbn; rewrite ?Eu, ?Eq, ?Es; try done.
  - pose proof (map_subseteq_size _ _ (delete_subseteq (queries s1) id)). lia.
  - rewrite map_size_insert_None by naive_solver. lia.
Qed.
(** A query in the table stays through the forwarding of another. *)
Lemma forward_keeps host port query s c id q : udp_ok up s → queries s !! id = Some q → live (sweep_time host) q →
  queries (forward host up port query s c).1.1 !! id = Some q.
Proof.
  intros Hok Hq Hl. unfold forward. pose proof (expire_ok (sweep_time host) s c Hok) as Hok1.
  pose proof (expire_keeps (sweep_time host) s c id q Hq Hl) as Hq1.
  destruct (expire_pending _ _ _) as [s1 c1]. cbn [fst] in Hok1, Hq1. clear Hok Hq s c. destruct Hok1.
  destruct (_ <=? _); [done|]. destruct (allocate_id_spec s1 uo_cursor0) as (Eq & _ & _ & _ & Hid).
  destruct (allocate_id s1) as [[id'|] s2]; cbn [fst snd] in *; [|by rewrite Eq].
  assert (id' ≠ id) by (intros ->; naive_solver).
  destruct (negb _); cbn; rewrite Eq; [by rewrite lookup_delete_ne|by rewrite lookup_insert_ne].
Qed.

Lemma handle_ok host packet s c : udp_ok up s → udp_ok up (handle config host packet s c).1.1.
Proof.
  intros Hok. unfold handle. destruct (guest_query _ _) as [[port query]|]; [|done].
  rewrite (uo_upstream _ _ Hok). destruct (_ <? _); [done|by apply forward_udp_ok].
Qed.
Lemma handle_keeps host packet s c id q : udp_ok up s → queries s !! id = Some q → live (sweep_time host) q →
  queries (handle config host packet s c).1.1 !! id = Some q.
Proof.
  intros Hok Hq Hl. unfold handle. destruct (guest_query _ _) as [[port query]|]; [|done].
  rewrite (uo_upstream _ _ Hok). destruct (_ <? _); [done|by apply forward_keeps].
Qed.

Lemma take_answer_ok d s w : udp_ok up s → udp_ok up (take_answer config d s w).1.
Proof.
  intros Hok. unfold take_answer. destruct d as [from data]. destruct (negb _); [done|]. destruct (_ <? _); [done|].
  destruct (queries s !! _); [|done]. destruct Hok. split; cbn; try done.
  pose proof (map_subseteq_size _ _ (delete_subseteq (queries s) (be16 (take 4096 data) 0))). lia.
Qed.
Lemma take_answer_keeps d s w id q : queries s !! id = Some q → be16 (take 4096 d.2) 0 ≠ id →
  queries (take_answer config d s w).1 !! id = Some q.
Proof.
  intros Hq Hne. unfold take_answer. destruct d as [from data]. destruct (negb _); [done|]. destruct (_ <? _); [done|].
  destruct (queries s !! be16 _ _); [|done]. cbn in *. by rewrite lookup_delete_ne.
Qed.
Lemma take_answers_ok ds s w : udp_ok up s → udp_ok up (take_answers config ds s w).1.
Proof.
  revert s w. induction ds as [|d ds IH]; intros s w Hok; [done|]. cbn [take_answers foldl].
  pose proof (take_answer_ok d s w Hok) as H1. destruct (take_answer _ _ _ _) as [s1 w1]. by apply IH.
Qed.
Lemma take_answers_keeps ds s w id q : queries s !! id = Some q → Forall (λ d, be16 (take 4096 d.2) 0 ≠ id) ds →
  queries (take_answers config ds s w).1 !! id = Some q.
Proof.
  intros Hq Hd. revert s w Hq. induction Hd as [|d ds Hne _ IH]; intros s w Hq; [done|].
  pose proof (take_answer_keeps d s w id q Hq Hne) as H1. cbn [take_answers foldl].
  destruct (take_answer _ _ _ _) as [s1 w1]. by apply IH.
Qed.

(** A poll of a forwarder that does not use the system resolver. *)
Lemma poll_eq now ds s w : system_dns s = SystemDns_new →
  poll config now ds s w =
    let '(s, w) := take_answers config ds s w in
    let '(s, c) := expire_pending now s (counters w) in (s, w <| counters := c |>).
Proof.
  intros E. unfold poll. rewrite E. change (SystemDns_poll now SystemDns_new) with (@nil (Z * list Z), SystemDns_new).
  cbn [foldl]. replace (s <| system_dns := SystemDns_new |>) with s by (by rewrite <- E; destruct s). done.
Qed.

Lemma udp_run_ok e s : udp_ok up s → udp_ok up (udp_run config e s).
Proof.
  intros Hok. destruct e as [host packet c|now ds w|]; cbn [udp_run].
  - by apply handle_ok.
  - rewrite poll_eq by (by destruct Hok). pose proof (take_answers_ok ds s w Hok) as H1.
    destruct (take_answers _ _ _ _) as [s1 w1]. pose proof (expire_ok now s1 (counters w1) H1) as H2.
    by destruct (expire_pending _ _ _).
  - destruct Hok. split; cbn; try done; by rewrite uo_system0.
Qed.
Lemma udp_run_keeps e s id q : udp_ok up s → queries s !! id = Some q →
  undisturbed id (created q + DNS_QUERY_TIMEOUT) e → queries (udp_run config e s) !! id = Some q.
Proof.
  intros Hok Hq Hu. destruct e as [host packet c|now ds w|]; cbn [udp_run undisturbed] in *; [| |done].
  - apply handle_keeps; try done. unfold live. lia.
  - destruct Hu as [Hn Hd]. rewrite poll_eq by (by destruct Hok).
    pose proof (take_answers_keeps ds s w id q Hq Hd) as H1. destruct (take_answers _ _ _ _) as [s1 w1].
    pose proof (expire_keeps now s1 (counters w1) id q H1) as H2. destruct (expire_pending _ _ _). apply H2. unfold live. lia.
Qed.
Lemma udp_runs_keep es s id q : udp_ok up s → queries s !! id = Some q →
  Forall (undisturbed id (created q + DNS_QUERY_TIMEOUT)) es →
  udp_ok up (udp_runs config es s) ∧ queries (udp_runs config es s) !! id = Some q.
Proof.
  intros Hok Hq He. revert s Hok Hq. induction He as [|e es Hu _ IH]; intros s Hok Hq; [done|].
  cbn. apply IH; [by apply udp_run_ok|by apply udp_run_keeps].
Qed.
Lemma udp_runs_ok es : udp_ok up (udp_runs config es (UdpState_new (Some up))).
Proof.
  assert (∀ s, udp_ok up s → udp_ok up (udp_runs config es s)) as H.
  { induction es as [|e es IH]; intros s Hs; [done|]. by apply IH, udp_run_ok. }
  apply H. by split.
Qed.
End forwarder.

(** What [forward] does with a query it has room for. *)
Lemma forward_sends host up port query s c : udp_ok up s → send_ok host = true →
  Z.of_nat (size (filter (λ e, live (sweep_time host) e.2) (queries s))) < MAX_PENDING_QUERIES →
  ∃ id, word 16 id ∧ filter (λ e, live (sweep_time host) e.2) (queries s) !! id = None ∧
    (forward host up port query s c).2 = [(up, splice query 0 (to_be_bytes 2 id))] ∧
    queries (forward host up port query s c).1.1 !! id = Some (mkQuery (be16 query 0) port (insert_time host)).
Proof.
  intros Hok Hsend Hsize. pose proof (expire_ok up (sweep_time host) s c Hok) as Hok1. unfold forward.
  destruct (expire_pending _ _ _) as [s1 c1] eqn:Ee. cbn [fst] in Hok1.
  assert (queries s1 = filter (λ e, live (sweep_time host) e.2) (queries s)) as Eq1.
  { change s1 with (s1, c1).1. rewrite <- Ee. done. }
  rewrite <- Eq1 in *. rewrite (proj2 (Z.leb_gt _ _) Hsize). destruct Hok1.
  destruct (allocate_id_spec s1 uo_cursor0) as (Eq & _ & _ & _ & Hid).
  destruct (allocate_id s1) as [[id|] s2]; cbn [fst snd] in *.
  - destruct Hid as [Hfree Hw]. exists id. rewrite Hsend. cbn. split_and!; [done..|]. by rewrite lookup_insert_eq.
  - apply table_full in Hid. unfold MAX_PENDING_QUERIES in *. lia.
Qed.

(** C17: A DNS query of the guest is forwarded under a transaction id no other
    outstanding query has, and, whatever other queries and answers pass meanwhile,
    the first answer under that id within the timeout goes to the guest exactly
    once, from the gateway's port 53 to the port the query came from and under the
    guest's own id. *)
Theorem dns_query_round_trip (config : NetConfig) (up : SocketAddr) (before : list UdpEvent)
    (host : HostCall) (packet : Ipv4Packet) (port : Z) (query : list Z) (c : NetCounters) :
  let s := udp_runs config before (UdpState_new (Some up)) in
  guest_query config packet = inl (port, query) → 12 ≤ len query → send_ok host = true →
  Z.of_nat (size (filter (λ e, live (sweep_time host) e.2) (queries s))) < MAX_PENDING_QUERIES →
  ∃ id, word 16 id ∧ filter (λ e, live (sweep_time host) e.2) (queries s) !! id = None ∧
    (handle config host packet s c).2 = [(up, splice query 0 (to_be_bytes 2 id))] ∧
    ∀ meanwhile now answer w,
      let s' := udp_runs config meanwhile (handle config host packet s c).1.1 in
      Forall (undisturbed id (insert_time host + DNS_QUERY_TIMEOUT)) meanwhile →
      12 ≤ len answer ≤ 4096 → be16 answer 0 = id →
      emitted (poll config now [(up, answer)] s' w).2 =
        emitted w ++ [wrap_udp (gateway_ip config) (guest_ip config) 53 port
                        (splice answer 0 (to_be_bytes 2 (be16 query 0))) (ip_id w)] ∧
      queries (poll config now [(up, answer)] s' w).1 !! id = None.
Proof.
  intros s Hq Hl Hsend Hsize. pose proof (udp_runs_ok config up before) as Hok. fold s in Hok. clearbody s.
  pose proof (handle_ok config up host packet s c Hok) as Hok1. unfold handle in *. rewrite Hq, (uo_upstream _ _ Hok) in *.
  rewrite (proj2 (Z.ltb_ge _ _) Hl) in *. 
  destruct (forward_sends host up port query s c Hok Hsend Hsize) as (id & Hw & Hfree & Hsent & Hkept).
  exists id. split_and!; [done..|]. intros meanwhile now answer w Hm Ha Hid.
  set (s' := udp_runs config meanwhile _).
  destruct (udp_runs_keep config up meanwhile _ _ _ Hok1 Hkept Hm) as [Hok2 Hq2]. fold s' in Hok2, Hq2. clearbody s'.
  rewrite poll_eq by (by destruct Hok2). cbn [take_answers foldl take_answer].
  rewrite (take_ge answer) by (unfold len in *; lia). rewrite (uo_upstream _ _ Hok2), bool_decide_true by done.
  unfold DNS_HEADER_BYTES. rewrite (proj2 (Z.ltb_ge _ _)) by lia. cbn [negb]. rewrite Hid, Hq2. split; [done|].
  cbn. apply map_lookup_filter_None. left. by rewrite lookup_delete_eq.
Qed.

Definition demo_upstream : SocketAddr := ([192; 168; 1; 1], 53).
Definition demo_packet (port : Z) (query : list Z) : Ipv4Packet :=
  default (mkPacket [] [] [] 0 false 0 [])
    (parse (wrap_udp (guest_ip slirp_defaults) (gateway_ip slirp_defaults) port 53 query 7)).
Definition demo_host (now : Z) : HostCall := mkHostCall now now true true.
Lemma dns_query_round_trip_witness :
  let host := demo_host 5 in
  let packet := demo_packet 41000 (demo_query 1) in
  let s := udp_runs slirp_defaults [Handles (demo_host 0) (demo_packet 40000 (demo_query 28)) NetCounters_default]
             (UdpState_new (Some demo_upstream)) in
  size (queries s) = 1%nat ∧
  ∃ id, word 16 id ∧ filter (λ e, live (sweep_time host) e.2) (queries s) !! id = None ∧
    (handle slirp_defaults host packet s NetCounters_default).2 =
      [(demo_upstream, splice (demo_query 1) 0 (to_be_bytes 2 id))] ∧
    ∀ meanwhile now answer w,
      let s' := udp_runs slirp_defaults meanwhile (handle slirp_defaults host packet s NetCounters_default).1.1 in
      Forall (undisturbed id (insert_time host + DNS_QUERY_TIMEOUT)) meanwhile →
      12 ≤ len answer ≤ 4096 → be16 answer 0 = id →
      emitted (poll slirp_defaults now [(demo_upstream, answer)] s' w).2 =
        emitted w ++ [wrap_udp (gateway_ip slirp_defaults) (guest_ip slirp_defaults) 53 41000
                        (splice answer 0 (to_be_bytes 2 (be16 (demo_query 1) 0))) (ip_id w)] ∧
      queries (poll slirp_defaults now [(demo_upstream, answer)] s' w).1 !! id = None.
Proof.
  intros host packet s. split; [by vm_compute|].
  apply (dns_query_round_trip slirp_defaults demo_upstream
    [Handles (demo_host 0) (demo_packet 40000 (demo_query 28)) NetCounters_default] host packet).
  - by vm_compute.
  - by vm_compute.
  - done.
  - by vm_compute.
Defined.

(** ** Two departures from the stated behaviour *)

(** After a reset the ids start again at 0, so the answer to a query of the driver
    session before it is relayed as the answer to the first query after it. *)
Lemma answer_crosses_reset :
  let s := udp_runs slirp_defaults
    [Handles (demo_host 0) (demo_packet 40000 (demo_query 1)) NetCounters_default; Resets;
     Handles (demo_host 5) (demo_packet 41000 (demo_query 28)) NetCounters_default] (UdpState_new (Some demo_upstream)) in
  let late := splice (demo_query 1) 0 [0; 0] in
  emitted (poll slirp_defaults 6 [(demo_upstream, late)] s demo_wire).2 =
    [wrap_udp (gateway_ip slirp_defaults) (guest_ip slirp_defaults) 53 41000 (demo_query 1) 1].
Proof. by vm_compute. Qed.

(** A query whose checksum computes to zero: a conforming sender transmits 0xFFFF,
    the sum over the datagram verifies, and the forwarder drops it. *)
Definition demo_zero_sum : Ipv4Packet :=
  let q := question_bytes [13; 11; 1; 0; 0; 1; 0; 0; 0; 0; 0; 0] [[108; 111; 99; 97; 108]; [108; 97; 110]] 1 in
  let datagram := to_be_bytes 2 40000 ++ to_be_bytes 2 53 ++ to_be_bytes 2 (8 + len q) ++ [0xFF; 0xFF] ++ q in
  mkPacket [] (guest_ip slirp_defaults) (gateway_ip slirp_defaults) PROTOCOL_UDP false 0 datagram.
Lemma valid_zero_sum_dropped :
  norm (pseudo_sum (src demo_zero_sum) (dst demo_zero_sum) PROTOCOL_UDP (payload demo_zero_sum)) = 65535 ∧
  let '(s, c, sent) := handle slirp_defaults (demo_host 0) demo_zero_sum (UdpState_new (Some demo_upstream)) NetCounters_default in
  sent = [] ∧ dropped_bad_checksum c = 1.
Proof. by vm_compute. Qed.
