(* ===== verification/Slirp.v ===== *)
(** The network backend: [SlirpNetBackend] of [rish-softvm-core/src/net/mod.rs],
    as an instance of the interface of the network device.

    What the host contributes to a call is in the state: the clock, the results of
    the DNS socket and of the resolver queue, and the datagrams that have arrived.
    The frames of a run are shown well formed: every packet parses, is addressed by
    the right stations, and its checksums verify. *)
From stdpp Require Import gmap strings.
From S2P Require Import Prelude.
From S2P Require Import VirtioNet.
From S2P Require Import NetWire.
From S2P Require Import Tcp.
From S2P Require Import TcpStream.
From S2P Require Import SystemDns.
From S2P Require Import Udp.
Local Open Scope Z_scope.

(** The host: its clock, and what it does in the calls of this poll. *)
Record World := mkWorld {
  clock : Z;
  sends_ok : bool;
  workers_ok : bool;
  inbox : list (SocketAddr * list Z);
  outbox : list (SocketAddr * list Z)
}.
#[export] Instance World_eta : Settable World := λ w,
  mkWorld (clock w) (sends_ok w) (workers_ok w) (inbox w) (outbox w).

Record SlirpNetBackend := mkSlirp {
  config : NetConfig;
  net_counters : NetCounters;
  output : list (list Z);
  identification : Z;
  udp : UdpState;
  tcp : TcpState;
  world : World
}.
#[export] Instance SlirpNetBackend_eta : Settable SlirpNetBackend := λ b,
  mkSlirp (config b) (net_counters b) (output b) (identification b) (udp b) (tcp b) (world b).

Definition SlirpNetBackend_new (config : NetConfig) (nameserver : option SocketAddr) (isn : Z) (w : World)
    : SlirpNetBackend :=
  mkSlirp config NetCounters_default [] 0 (UdpState_new nameserver) (new isn) w.

Definition OUTPUT_CAP : Z := 1024.
Definition emit_frame (frame : list Z) (b : SlirpNetBackend) : SlirpNetBackend :=
  let b :=
    if OUTPUT_CAP <=? len (output b)
    then b <| output ::= drop 1 |> <| net_counters ::= λ c, c <| dropped_bad_packet ::= bump |> |>
    else b in
  b <| output ::= λ l, l ++ [frame] |>.
Definition emit (packet : list Z) (b : SlirpNetBackend) : SlirpNetBackend :=
  emit_frame (Ether.frame (cfg_mac (config b)) (gateway_mac (config b)) 0x0800 packet) b.

Definition count (f : NetCounters → NetCounters) (b : SlirpNetBackend) : SlirpNetBackend :=
  b <| net_counters ::= f |>.
Definition bad_packet : SlirpNetBackend → SlirpNetBackend := count (λ c, c <| dropped_bad_packet ::= bump |>).

Definition handle_arp (payload : list Z) (b : SlirpNetBackend) : SlirpNetBackend :=
  match Ether.parse_arp_request payload with
  | None => bad_packet b
  | Some (sender_mac, sender_ip, target_ip) =>
      if negb (bool_decide (target_ip = gateway_ip (config b))) then b
      else
        match Ether.build_arp_reply (gateway_mac (config b)) (gateway_ip (config b)) sender_mac sender_ip with
        | Some reply => count (λ c, c <| arp_replies ::= bump |>) (emit_frame reply b)
        | None => b
        end
  end.

(** The result of a call on the identification counter, the counters and [emit]. *)
Definition with_wire (w : Wire) (b : SlirpNetBackend) : SlirpNetBackend :=
  foldl (λ b packet, emit packet b) (b <| identification := ip_id w |> <| net_counters := counters w |>) (emitted w).

Definition handle_ipv4 (data : list Z) (b : SlirpNetBackend) : SlirpNetBackend :=
  match parse data with
  | None => bad_packet b
  | Some packet =>
      if more_fragments packet || negb (fragment_offset packet =? 0)
      then count (λ c, c <| dropped_fragmented ::= bump |>) b
      else if negb (header_checksum_ok (header packet))
      then count (λ c, c <| dropped_bad_checksum ::= bump |>) b
      else if protocol packet =? PROTOCOL_ICMP then
        if negb (bool_decide (dst packet = gateway_ip (config b)))
        then count (λ c, c <| dropped_other_icmp ::= bump |>) b
        else
          match icmp_echo_reply packet (identification b) with
          | (Some reply, id) =>
              count (λ c, c <| icmp_echo_replies ::= bump |>) (emit reply (b <| identification := id |>))
          | (None, id) => count (λ c, c <| dropped_other_icmp ::= bump |>) (b <| identification := id |>)
          end
      else if protocol packet =? PROTOCOL_UDP then
        let h := mkHostCall (clock (world b)) (clock (world b)) (sends_ok (world b)) (workers_ok (world b)) in
        let '(u, c, sent) := Udp.handle (config b) h packet (udp b) (net_counters b) in
        b <| udp := u |> <| net_counters := c |> <| world ::= λ w, w <| outbox ::= λ l, l ++ sent |> |>
      else if protocol packet =? PROTOCOL_TCP then
        let '(t, w) := Tcp.handle (config b) packet (tcp b) (mkWire (identification b) (net_counters b) []) in
        with_wire w (b <| tcp := t |>)
      else count (λ c, c <| dropped_not_ipv4 ::= bump |>) b
  end.

Definition slirp_enqueue (frame : list Z) (b : SlirpNetBackend) : SlirpNetBackend :=
  match Ether.parse frame with
  | None => bad_packet b
  | Some (dst, ethertype, payload) =>
      if negb (Ether.for_us dst (cfg_mac (config b)) (gateway_mac (config b)))
      then count (λ c, c <| dropped_not_for_us ::= bump |>) b
      else if ethertype =? 0x0806 then handle_arp payload b
      else if ethertype =? 0x0800 then handle_ipv4 payload b
      else count (λ c, c <| dropped_unknown_ethertype ::= bump |>) b
  end.

Definition slirp_poll (b : SlirpNetBackend) : list (list Z) * SlirpNetBackend :=
  let now := clock (world b) in
  let '(u, w) := Udp.poll (config b) now (inbox (world b)) (udp b) (mkWire (identification b) (net_counters b) []) in
  let '(t, w) := Tcp.poll (config b) now (tcp b) w in
  let b := with_wire w (b <| udp := u |> <| tcp := t |> <| world ::= λ w, w <| inbox := [] |> |>) in
  (output b, b <| output := [] |>).

Definition slirp_reset (b : SlirpNetBackend) : SlirpNetBackend :=
  b <| tcp ::= Tcp.reset |> <| udp ::= UdpState_reset |> <| output := [] |> <| identification := 0 |>.

#[export] Instance slirp_backend : NetBackend SlirpNetBackend :=
  {| net_mac b := cfg_mac (config b); enqueue := slirp_enqueue; net_poll := slirp_poll; net_reset := slirp_reset |}.

(** ** Packets of the backend *)

Lemma Forall_filtered {A} (P Q : A → Prop) `{∀ x, Decision (Q x)} (l : list A) : Forall P l → Forall P (filter Q l).
Proof.
  induction 1 as [|x l Hx _ IH]; [constructor|]. destruct (decide (Q x)).
  - rewrite filter_cons_True by done. by constructor.
  - by rewrite filter_cons_False.
Qed.

(** A packet the guest's network stack accepts: it parses, is addressed to the
    guest, and header and transport checksums verify. *)
Definition valid_packet (cfg : NetConfig) (packet : list Z) : Prop :=
  ∃ p, parse packet = Some p ∧ dst p = guest_ip cfg ∧ more_fragments p = false ∧ fragment_offset p = 0 ∧
    header_checksum_ok (header p) = true ∧ (protocol p = PROTOCOL_TCP ∨ protocol p = PROTOCOL_UDP) ∧
    norm (pseudo_sum (src p) (dst p) (protocol p) (payload p)) = 65535.

Definition event_ok (e : HostEvent) : Prop := match e with Data bytes => Forall (word 8) bytes | _ => True end.
Definition out_ok (o : OutSeg) : Prop := word 32 (out_seq o) ∧ Forall (word 8) (out_bytes o) ∧ len (out_bytes o) ≤ OUR_MSS.
(** The fields of a connection are in range. *)
Record conn_ok (c : TcpConn) : Prop := mk_conn_ok {
  co_local : word 16 (local_port (key c));
  co_addr : octets (remote_addr (key c));
  co_remote : word 16 (remote_port (key c));
  co_guest : word 32 (guest_next c);
  co_isn : word 32 (our_isn c);
  co_next : word 32 (our_next c);
  co_fin : word 32 (fin_seq c);
  co_mss : guest_mss c ≤ OUR_MSS;
  co_pending : Forall (word 8) (pending c);
  co_unacked : Forall out_ok (unacked c);
  co_events : Forall event_ok (events (host_rx c))
}.

Section packets.
Context (cfg : NetConfig) (Hguest : octets (guest_ip cfg)) (Hgateway : octets (gateway_ip cfg)).
Implicit Types (c : TcpConn) (w : Wire).

(** A connection and the packets sent so far. *)
Definition sound_state (s : TcpConn * Wire) : Prop :=
  conn_ok s.1 ∧ Forall (valid_packet cfg) (emitted s.2).
Definition sound (f : TcpConn → Wire → TcpConn * Wire) : Prop :=
  ∀ c w, sound_state (c, w) → sound_state (f c w).

Lemma emit_tcp_valid remote seg w : octets remote → segment_ok seg → Forall (valid_packet cfg) (emitted w) →
  Forall (valid_packet cfg) (emitted (emit_tcp remote (guest_ip cfg) (built seg) w)).
Proof.
  intros Hr Hs He. cbn. apply Forall_app. split; [done|]. apply Forall_singleton.
  destruct (tcp_packet_parses remote (guest_ip cfg) (ip_id w) seg) as (p & E1 & E2 & E3 & E4 & E5 & E6 & E7 & _ & _ & E8); [done..|].
  exists p. rewrite E2, E3, E4. auto 10.
Qed.
Lemma send_valid c w seq flags window opts bytes : conn_ok c → word 32 seq → word 8 flags → word 16 window →
  opts = [] ∨ opts = MSS_OPTION → Forall (word 8) bytes → len bytes ≤ OUR_MSS →
  Forall (valid_packet cfg) (emitted w) →
  Forall (valid_packet cfg) (emitted (send_segment cfg c seq flags window opts bytes w)).
Proof.
  intros [] Hs Hf Hw Ho Hb Hl He.
  apply (emit_tcp_valid (remote_addr (key c)) (mkSegment (remote_port (key c)) (local_port (key c)) seq (guest_next c) flags window opts bytes));
    [done| |done].
  split; cbn; try done; [|unfold OUR_MSS in *; split; [done|lia]].
  destruct Ho as [->| ->]; split_and!; try done. repeat (constructor; [by apply word_const|]). constructor.
Qed.
Lemma control_valid c w seq flags window opts : sound_state (c, w) → word 32 seq → word 8 flags → word 16 window →
  opts = [] ∨ opts = MSS_OPTION →
  Forall (valid_packet cfg) (emitted (send_segment cfg c seq flags window opts [] w)).
Proof. intros [Hc He] ???? . by apply send_valid. Qed.

Ltac const := first [apply word_const; reflexivity | left; reflexivity | right; reflexivity].

Lemma conn_ok_same c c' : same_stream c c' → word 32 (guest_next c') → conn_ok c → conn_ok c'.
Proof.
  intros (E1 & E2 & E3 & _ & E5 & E6 & E7 & _ & E9 & E10) Hg [].
  by split; rewrite ?E1, ?E2, ?E3, ?E5, ?E6, ?E7, ?E9, ?E10.
Qed.
Lemma process_ack_conn_ok ack window c : conn_ok c → conn_ok (process_ack ack window c).
Proof.
  intros []. assert (Forall out_ok (pop_acked ack (unacked c))) as Hpop.
  { clear -co_unacked0. induction co_unacked0 as [|o q Ho Hq IH]; [done|]. cbn. case_match; [done|by constructor]. }
  unfold process_ack. destruct (_ && seq_le _ _); [|by split].
  set (c1 := if seq_gt ack _ then _ else _). assert (conn_ok c1) as Hc1.
  { unfold c1. destruct (seq_gt _ _); [|by split].
    set (c3 := c <| guest_window := window |> <| unacked ::= _ |> <| our_una := _ |> <| retransmits := 0 |>).
    assert (conn_ok c3) as [] by (by split). destruct (unacked c3) eqn:Eu; split; cbn in *; try done; by rewrite Eu. }
  clearbody c1. set (c2 := if negb (established c1) && _ then _ else _). assert (conn_ok c2) as Hc2.
  { unfold c2. destruct (_ && _); [|done]. by destruct Hc1; split. }
  clearbody c2. destruct (_ && _); [|done]. by destruct Hc2; split.
Qed.
Lemma process_segment_sound segment : word 32 (seq segment) → sound (process_segment cfg segment).
Proof.
  intros Hq c w [Hc He]. unfold process_segment. cbn [fst snd] in *. destruct (has _ FLAG_RST).
  { case_match; [|done]. split; [|done]. by destruct Hc; split. }
  set (c1 := if has (flags segment) FLAG_ACK then _ else c).
  assert (conn_ok c1) as Hc1 by (unfold c1; case_match; [by apply process_ack_conn_ok|done]). clearbody c1. clear Hc.
  destruct (process_payload segment c1) as [[c2 b]|] eqn:E2; [|split; [|done]; by destruct Hc1; split].
  destruct (payload_same _ _ _ _ E2 (co_guest _ Hc1)) as (S2 & _ & G2). pose proof (conn_ok_same _ _ S2 G2 Hc1) as Hc2.
  destruct (process_fin segment c2 b) as [c3 b3] eqn:E3. destruct (fin_same _ _ _ _ _ E3 G2) as (S3 & _ & G3).
  pose proof (conn_ok_same _ _ S3 G3 Hc2) as Hc3. clear - Hguest Hc3 He.
  set (r := if b3 then _ else (c3, w)). assert (sound_state r) as [Hr1 Hr2].
  { unfold r. destruct b3; [|done]. set (c4 := if _ && _ then _ else c3).
    assert (conn_ok c4) by (unfold c4; case_match; [by destruct Hc3; split|done]).
    split; [assumption|]. cbn [snd]. unfold send_ack.
    apply control_valid; [split; assumption|by apply co_next|const..]. }
  clearbody r. destruct r as [c4 w4]. cbn [fst snd] in *. split; cbn [fst snd]; [|assumption].
  destruct (_ && _); [|assumption]. by destruct Hr1; split.
Qed.

Lemma host_event_sound now e c w : event_ok e → sound_state (c, w) → sound_state (host_event cfg now e c w).
Proof.
  intros He [Hc Hw]. cbn [fst snd] in *. destruct e as [|message|bytes|]; cbn [host_event].
  - destruct (_ && _); [|by split]. unfold send_syn_ack. split; cbn [fst snd].
    + destruct Hc. split; try assumption. cbn. apply Forall_app. split; [assumption|]. apply Forall_singleton.
      split; [assumption|]. split; [constructor|done].
    + apply control_valid; [by split|by apply co_isn|const..].
  - split; cbn [fst snd]; [by destruct Hc; split|]. unfold count_reset. cbn [emitted].
    apply (control_valid c w); [by split|destruct (established c); [by apply co_next|by apply co_isn]|const..].
  - split; [|done]. destruct Hc. split; try assumption. cbn. by apply Forall_app.
  - split; [|done]. by destruct Hc; split.
Qed.
Lemma drain_sound now : sound (drain_host_events cfg now).
Proof.
  intros c w Hs. unfold drain_host_events. assert (Forall event_ok (events (host_rx c))) as He by apply Hs.
  revert He. generalize (events (host_rx c)) as es. intros es He. revert c w Hs.
  induction es as [|e es IH]; intros c w Hs; cbn [drain_loop]; (destruct (_ <=? _); [done|]).
  - destruct (sender_alive _); [done|]. destruct Hs as [[] ?]. split; [by split|done].
  - apply Forall_cons in He as [He Hes]. specialize (IH Hes).
    pose proof (host_event_sound now e (c <| host_rx ::= λ r, r <| events := es |> |>) w He) as H1.
    destruct (host_event _ _ _ _ _) as [c1 w1]. apply IH, H1. destruct Hs as [[] ?]. split; [by split|done].
Qed.
Lemma retry_held_sound : sound (retry_held cfg).
Proof.
  intros c w Hs. unfold retry_held. destruct (held_guest c) as [held|]; [|done].
  destruct Hs as [Hc Hw]. cbn [fst snd] in *. destruct (try_send _ _) as [tx| |].
  - set (c1 := c <| held_guest := None |> <| guest_tx := tx |> <| guest_next ::= _ |>).
    assert (conn_ok c1) as Hc1. { destruct Hc. split; try assumption. by apply word_wrap. }
    clearbody c1. split; [assumption|]. cbn [snd]. unfold send_ack. apply control_valid; [by split|by apply co_next|const..].
  - split; [by destruct Hc; split|done].
  - split; [by destruct Hc; split|done].
Qed.
Lemma send_pending_sound now : sound (send_pending cfg now).
Proof.
  intros c w. unfold send_pending. generalize (length (pending c)) as fuel. intros fuel. revert c w.
  induction fuel as [|fuel IH]; intros c w Hs; [done|]. cbn [send_loop].
  destruct (_ && _); [|done]. destruct (_ <=? _); [done|]. set (amount := Z.min _ _). destruct (amount =? 0); [done|].
  apply IH. destruct Hs as [Hc Hw]. cbn [fst snd] in *.
  assert (Forall (word 8) (take (Z.to_nat amount) (pending c))) as Hb by (apply Forall_take; by apply co_pending).
  assert (len (take (Z.to_nat amount) (pending c)) ≤ OUR_MSS) as Hl.
  { pose proof (co_mss c Hc). unfold len. rewrite length_take. unfold amount, OUR_MSS in *. lia. }
  split; cbn [fst snd].
  - destruct Hc. split; try assumption; cbn; [by apply word_wrap|by apply Forall_drop|].
    apply Forall_app. split; [assumption|]. apply Forall_singleton. by split_and!.
  - apply send_valid; try assumption; [by apply co_next|const..].
Qed.
Lemma resend_valid c q w : conn_ok c → Forall out_ok q → Forall (valid_packet cfg) (emitted w) →
  Forall (valid_packet cfg) (emitted (foldl (λ w front, resend cfg c front w) w q)).
Proof.
  intros Hc Hq. revert w. induction Hq as [|o q (Ho & Hb & Hl) _ IH]; intros w Hw; [done|]. cbn [foldl]. apply IH.
  unfold resend. apply send_valid; try assumption; [destruct (syn o); const|const|destruct (syn o); const].
Qed.
Lemma retransmit_sound now : sound (retransmit cfg now).
Proof.
  intros c w Hs. unfold retransmit. destruct (retransmit_deadline c); [|done]. destruct (now <? _); [done|].
  destruct Hs as [Hc Hw]. cbn [fst snd] in *. set (c1 := c <| retransmits ::= _ |>).
  assert (conn_ok c1) as Hc1 by (by destruct Hc; split). clearbody c1. destruct (_ <? _).
  { split; cbn [fst snd]; [by destruct Hc1; split|]. unfold count_reset. cbn [emitted].
    apply (control_valid c1 w); [by split|by apply co_next|const..]. }
  destruct (negb _); [|destruct (_ && _)].
  - split; cbn [fst snd].
    + destruct Hc1. split; try assumption. cbn. apply Forall_fmap. eapply Forall_impl; [exact co_unacked0|]. done.
    + apply resend_valid; [done|by apply co_unacked|done].
  - split; cbn [fst snd]; [by destruct Hc1; split|]. apply control_valid; [by split|by apply co_fin|const..].
  - split; [by destruct Hc1; split|done].
Qed.
Lemma maybe_send_fin_sound now : sound (maybe_send_fin cfg now).
Proof.
  intros c w Hs. unfold maybe_send_fin. destruct (_ || _); [done|]. destruct (_ || _); [done|].
  destruct Hs as [Hc Hw]. cbn [fst snd] in *. split; cbn [fst snd].
  - destruct Hc. split; try assumption. by apply word_wrap.
  - apply control_valid; [by split|by apply co_next|const..].
Qed.
Lemma poll_conn_sound now : sound (poll_conn cfg now).
Proof.
  assert (∀ f s, sound f → sound_state s → sound_state (unless_closed f s)) as Hu.
  { intros f [c w] Hf Hs. unfold unless_closed. destruct (closed _); [done|by apply Hf]. }
  intros c w Hs. unfold poll_conn. repeat apply Hu.
  - intros c1 w1 [Hc Hw]. split; [|done]. cbn [fst] in *. unfold teardown. repeat case_match; try done; by destruct Hc; split.
  - apply maybe_send_fin_sound.
  - apply retransmit_sound.
  - apply send_pending_sound.
  - apply retry_held_sound.
  - by apply drain_sound.
Qed.

(** ** The connection table *)

Definition table_ok (t : TcpState) : Prop :=
  Forall conn_ok (connections t) ∧ word 32 (next_isn t) ∧ len (connections t) ≤ MAX_CONNECTIONS.

Lemma opened_conn_ok k segment isn : word 16 (local_port k) → octets (remote_addr k) → word 16 (remote_port k) →
  word 32 isn → conn_ok (opened k segment isn).
Proof.
  intros. split; try assumption; cbn; try (by apply word_wrap); try constructor; try done. unfold clamp, OUR_MSS. lia.
Qed.
Lemma refuse_valid k segment w : octets (remote_addr k) → word 16 (sport segment) → word 16 (dport segment) →
  word 32 (ack segment) → Forall (valid_packet cfg) (emitted w) →
  Forall (valid_packet cfg) (emitted (refuse cfg k segment w)).
Proof.
  intros Hr Hs Hd Ha Hw. unfold refuse, count_reset. cbn [emitted].
  apply (emit_tcp_valid (remote_addr k) (mkSegment (dport segment) (sport segment) (ack segment) 0 (FLAG_RST .| FLAG_ACK) 0 [] []));
    [done| |done]. split; cbn; try const; try done.
Qed.
Lemma handle_sound packet t w : octets (dst packet) → Forall (word 8) (payload packet) → table_ok t →
  Forall (valid_packet cfg) (emitted w) →
  table_ok (Tcp.handle cfg packet t w).1 ∧ Forall (valid_packet cfg) (emitted (Tcp.handle cfg packet t w).2).
Proof.
  intros Hd Hp (Ht & Hi & Hm) Hw. unfold Tcp.handle. destruct (parse_segment (payload packet)) as [segment|] eqn:Es; [|done].
  destruct (parse_segment_ports _ _ Hp Es) as [Hsp Hdp]. destruct (parse_segment_words _ _ Hp Es) as (Hq & Ha & _ & _).
  destruct (negb (segment_checksum_ok _ _)); [done|]. destruct (negb (bool_decide _)); [done|].
  set (k := mkKey _ _ _). destruct (_ && _).
  - destruct (bool_decide _ && _) eqn:Em; [split; [done|by apply refuse_valid]|]. unfold open.
    destruct (find_conn k t); [done|]. rewrite bool_decide_true in Em by done. apply Z.leb_gt in Em.
    split; [|done]. split_and!; cbn; [|by apply word_wrap|rewrite len_app; unfold len in *; cbn [length]; lia].
    apply Forall_app. split; [done|]. apply Forall_singleton. by apply opened_conn_ok.
  - destruct (find_conn k t) as [c|] eqn:Ef; [|split; [done|]; case_match; [by apply refuse_valid|done]].
    assert (conn_ok c) as Hc.
    { unfold find_conn in Ef. destruct (list_find _ _) as [[i c']|] eqn:El; [|done]. injection Ef as ->.
      apply list_find_Some in El as (El & _). by eapply Forall_lookup_1 in Ht. }
    pose proof (process_segment_sound segment Hq c w (conj Hc Hw)) as [H1 H2].
    destruct (process_segment _ _ _ _) as [c1 w1]. cbn [fst snd] in *. split; [|done].
    split; [|split; [done|by cbn; unfold len; rewrite length_fmap]]. cbn. apply Forall_fmap. eapply Forall_impl; [exact Ht|]. intros c2 Hc2. cbn. by case_decide.
Qed.
Lemma poll_all_sound now cs w : Forall conn_ok cs → Forall (valid_packet cfg) (emitted w) →
  Forall conn_ok (poll_all cfg now cs w).1 ∧ Forall (valid_packet cfg) (emitted (poll_all cfg now cs w).2).
Proof.
  intros Hcs. revert w. induction Hcs as [|c cs Hc _ IH]; intros w Hw; [done|]. cbn [poll_all].
  pose proof (poll_conn_sound now c w (conj Hc Hw)) as [H1 H2]. destruct (poll_conn _ _ _ _) as [c1 w1]. cbn [fst snd] in *.
  specialize (IH w1 H2). destruct (poll_all _ _ _ _) as [cs1 w2]. cbn [fst snd] in *. naive_solver.
Qed.
Lemma poll_all_length now cs w : length (poll_all cfg now cs w).1 = length cs.
Proof.
  revert w. induction cs as [|c cs IH]; intros w; [done|]. cbn [poll_all]. destruct (poll_conn _ _ _ _) as [c1 w1].
  specialize (IH w1). destruct (poll_all _ _ _ _). cbn in *. lia.
Qed.
Lemma tcp_poll_sound now t w : table_ok t → Forall (valid_packet cfg) (emitted w) →
  table_ok (Tcp.poll cfg now t w).1 ∧ Forall (valid_packet cfg) (emitted (Tcp.poll cfg now t w).2).
Proof.
  intros (Ht & Hi & Hm) Hw. unfold Tcp.poll. destruct (poll_all_sound now (connections t) w Ht Hw) as [H1 H2].
  pose proof (poll_all_length now (connections t) w) as Hl.
  destruct (poll_all _ _ _ _) as [cs w1]. cbn [fst snd] in *. split; [|done]. split_and!; cbn; [by apply Forall_filtered|done|].
  pose proof (length_filter (λ c, closed c = false) cs). unfold len in *. lia.
Qed.

(** ** The forwarder *)

Definition question_ok (q : Question) : Prop :=
  Forall (word 8) (q_wire q) ∧ len (q_wire q) ≤ 4096.
Definition reply_ok (r : Resolved) : Prop :=
  Forall (λ a, match a with V4 ip | V6 ip => Forall (word 8) ip end) (default [] (addresses r)).
Record udp_sound (u : UdpState) : Prop := mk_udp_sound {
  us_queries : map_Forall (λ _ q, word 16 (guest_port q)) (queries u);
  us_pending : Forall (λ e, word 16 (port e.2) ∧ question_ok (question e.2)) (dns_pending (system_dns u));
  us_receive : Forall reply_ok (receive (system_dns u))
}.

Lemma record_words kind bytes : Forall (word 8) bytes → Forall (word 8) (record kind bytes).
Proof.
  intros. unfold record. rewrite !Forall_app. split_and!; try done; try (by apply to_be_bytes_words);
    repeat (constructor; [by apply word_const|]); constructor.
Qed.
Lemma answer_loop_words kind l a n seen :
  Forall (λ a, match a with V4 ip | V6 ip => Forall (word 8) ip end) l → Forall (word 8) a →
  Forall (word 8) (answer_loop kind l a n seen).1 ∧ len (answer_loop kind l a n seen).1 ≤ Z.max (len a) 512.
Proof.
  intros Hl. revert a n seen. induction Hl as [|x l Hx _ IH]; intros a n seen Ha; [split; [done|cbn; lia]|].
  cbn [answer_loop]. case_bool_decide; [by apply IH|]. destruct (family kind x) as [bytes|] eqn:Ef; [|by apply IH].
  assert (Forall (word 8) bytes) as Hb by (destruct x; cbn in Ef; case_match; by simplify_eq).
  destruct (Z.ltb_spec 512 (len a + 12 + len bytes)).
  - cbn [fst]. split; [|unfold len; rewrite length_insert; lia]. apply Forall_insert; [done|].
    apply word_lor; [lia| |by apply word_const]. destruct (a !! 2%nat) as [x2|] eqn:E2.
    + rewrite (list_lookup_total_correct _ _ _ E2). exact (Forall_lookup_1 _ _ _ _ Ha E2).
    + rewrite list_lookup_total_alt, E2. by apply word_const.
  - destruct (IH (a ++ record kind bytes) (n + 1) (seen ++ [x])) as [H1 H2].
    + apply Forall_app. split; [done|by apply record_words].
    + split; [done|]. rewrite len_app, len_record in H2. lia.
Qed.
Lemma answer_bounds q found : question_ok q → reply_ok (mkResolved 0 found) →
  Forall (word 8) (answer q found) ∧ len (answer q found) ≤ 4096.
Proof.
  intros [Hw Hl] Hf. unfold answer. cbn [addresses reply_ok] in Hf. unfold reply_ok in Hf. cbn [addresses] in Hf.
  set (a0 := splice _ 6 [0; 0; 0; 0; 0; 0]). assert (Forall (word 8) a0 ∧ len a0 = len (q_wire q)) as [Ha Hla].
  { unfold a0. split; [|by unfold len, splice; rewrite length_inserts, !length_insert]. apply Forall_splice.
    - apply Forall_insert; [apply Forall_insert; [done|]|repeat case_match; by apply word_const].
      apply word_lor; [lia|by apply word_const|]. apply word_land_r; [lia| |by apply word_const].
      destruct (q_wire q !! 2%nat) as [x2|] eqn:E2.
      + rewrite (list_lookup_total_correct _ _ _ E2). eapply Forall_lookup_1 in Hw; [|exact E2]. by apply Hw.
      + by rewrite list_lookup_total_alt, E2.
    - repeat (constructor; [by apply word_const|]). constructor. }
  clearbody a0. set (r := if unsupported q then (a0, 0) else _).
  assert (Forall (word 8) r.1 ∧ len r.1 ≤ 4096) as [H1 H2].
  { unfold r. destruct (unsupported q); [split; [done|cbn [fst]; lia]|].
    destruct (answer_loop_words (kind q) (default [] found) a0 0 [] Hf Ha). split; [done|lia]. }
  clearbody r. destruct r as [a n]. cbn [fst] in *. split; [apply Forall_splice; [done|by apply to_be_bytes_words]|].
  unfold len, splice. by rewrite length_inserts.
Qed.

Lemma parsed_question_ok packet q : Forall (word 8) packet → Question_parse packet = Some q → question_ok q.
Proof.
  intros Hw. unfold Question_parse. destruct (_ || negb (bool_decide (slice packet 6 4 = _))) eqn:E; [done|].
  rewrite !orb_false_iff in E. destruct E as [[[[_ El] _] _] _]. apply Z.ltb_ge in El.
  destruct (parse_labels _ _ _ _) as [[labels offset]|]; [|done]. cbn [mbind option_bind].
  destruct (_ <? _); [done|]. destruct (negb _); [done|]. destruct (_ || _); [done|]. intros [= <-]. split; cbn.
  - by apply Forall_take.
  - unfold len in *. rewrite length_take. lia.
Qed.
Lemma submit_sound packet port now ok d : Forall (word 8) packet → word 16 port →
  Forall (λ e, word 16 (SystemDns.port e.2) ∧ question_ok (question e.2)) (dns_pending d) → Forall reply_ok (receive d) →
  Forall (λ e, word 16 (SystemDns.port e.2) ∧ question_ok (question e.2)) (dns_pending (submit packet port now ok d).2) ∧
  Forall reply_ok (receive (submit packet port now ok d).2).
Proof.
  intros Hw Hp Hd Hr. unfold submit. destruct (Question_parse packet) as [q|] eqn:Eq; [|done].
  apply parsed_question_ok in Eq; [|done]. destruct (_ <=? _); [done|]. destruct (_ <=? _); [done|].
  destruct (if negb _ then _ else _) as [d1|] eqn:Es; [|done]. cbn [snd].
  assert (dns_pending d1 = dns_pending d ∧ Forall reply_ok (receive d1)) as [Ed Hr1].
  { unfold reply in Es. repeat case_match; simplify_eq; try done. split; [done|]. cbn. apply Forall_app.
    split; [done|]. apply Forall_singleton. constructor. }
  split; [|done]. cbn. rewrite Ed. apply Forall_app. split; [done|]. by apply Forall_singleton.
Qed.

Lemma map_Forall_sub {K} `{Countable K} {A} (P : K → A → Prop) (m m' : gmap K A) : m' ⊆ m → map_Forall P m → map_Forall P m'.
Proof. intros Hsub Hm i x Hi. apply Hm. by eapply lookup_weaken. Qed.
Lemma udp_handle_sound h packet u (c : NetCounters) : Forall (word 8) (payload packet) → udp_sound u →
  udp_sound (Udp.handle cfg h packet u c).1.1.
Proof.
  intros Hp Hu. unfold Udp.handle. destruct (guest_query cfg packet) as [[port query]|] eqn:Eq; [|done].
  assert (word 16 port ∧ Forall (word 8) query) as [Hport Hquery].
  { unfold guest_query in Eq. repeat case_match; simplify_eq. split; [by apply be16_word|by apply Forall_drop]. }
  destruct (upstream u) as [up|].
  - destruct (_ <? _); [done|]. unfold forward.
    assert (udp_sound (expire_pending (sweep_time h) u c).1) as H1.
    { destruct Hu. split; try done. eapply map_Forall_sub; [|done]. apply map_filter_subseteq. }
    destruct (expire_pending _ _ _) as [u1 c1]. cbn [fst] in H1. clear Hu. destruct (_ <=? _); [done|].
    unfold allocate_id. destruct (allocate_loop _ _ _ _) as [[id|] next]; destruct H1; [destruct (negb _)|]; split; try done; cbn.
    + eapply map_Forall_sub; [|done]. apply delete_subseteq.
    + by apply map_Forall_insert_2.
  - destruct Hu. destruct (submit_sound query port (sweep_time h) (queue_ok h) (system_dns u)) as [H1 H2]; [done..|].
    destruct (submit _ _ _ _ _) as [b d]. by split.
Qed.

Lemma emit_answer_valid p a w : word 16 p → Forall (word 8) a → len a ≤ 4096 →
  Forall (valid_packet cfg) (emitted w) → Forall (valid_packet cfg) (emitted (emit_answer cfg p a w)).
Proof.
  intros Hp Ha Hl Hw. cbn. apply Forall_app. split; [done|]. apply Forall_singleton.
  destruct (udp_packet_parses (gateway_ip cfg) (guest_ip cfg) 53 p a (ip_id w))
    as (q & E1 & E2 & E3 & E4 & E5 & E6 & E7 & _ & _ & _ & _ & E8); [done|done|by apply word_const|done|done|lia|].
  exists q. rewrite E2, E3, E4. auto 10.
Qed.

Definition answer_ok (e : Z * list Z) : Prop := word 16 e.1 ∧ Forall (word 8) e.2 ∧ len e.2 ≤ 4096.
Lemma dns_answer_ok (p : Pending) found : word 16 (port p) ∧ question_ok (question p) → reply_ok (mkResolved 0 found) →
  answer_ok (port p, answer (question p) found).
Proof. intros [Hp Hq] Hf. destruct (answer_bounds _ _ Hq Hf). by split. Qed.
Lemma answer_replies_sound now rs l : Forall reply_ok rs →
  Forall (λ e, word 16 (port e.2) ∧ question_ok (question e.2)) l →
  Forall answer_ok (answer_replies now rs l).1 ∧
  Forall (λ e, word 16 (port e.2) ∧ question_ok (question e.2)) (answer_replies now rs l).2.
Proof.
  intros Hr. revert l. induction Hr as [|r rs Hr _ IH]; intros l Hl; [done|]. cbn [answer_replies].
  destruct (dns_lookup _ _) as [p|] eqn:Ep; [|by apply IH].
  assert (word 16 (port p) ∧ question_ok (question p)) as Hp.
  { unfold dns_lookup in Ep. destruct (list_find _ _) as [[i e]|] eqn:Ef; [|done]. injection Ep as <-.
    apply list_find_Some in Ef as (Ef & _). exact (Forall_lookup_1 _ _ _ _ Hl Ef). }
  destruct (IH (dns_remove (resolved_id r) l)) as [H1 H2].
  { by apply Forall_filtered. }
  destruct (answer_replies _ _ _) as [answers l1]. cbn [fst snd] in *. split; [|done]. constructor; [|done].
  apply dns_answer_ok; [done|]. destruct (_ <? _); [exact Hr|constructor].
Qed.
Lemma take_answer_sound d u w : Forall (word 8) d.2 → udp_sound u → Forall (valid_packet cfg) (emitted w) →
  udp_sound (take_answer cfg d u w).1 ∧ Forall (valid_packet cfg) (emitted (take_answer cfg d u w).2).
Proof.
  intros Hd Hu Hw. unfold take_answer. destruct d as [from data]. destruct (negb _); [done|]. destruct (_ <? _); [done|].
  destruct (queries u !! _) as [q|] eqn:Eq; [|done]. destruct Hu. cbn [fst snd]. split.
  - split; try done. cbn. eapply map_Forall_sub; [|done]. apply delete_subseteq.
  - apply emit_answer_valid; [by eapply us_queries0|..|done].
    + apply Forall_splice; [by apply Forall_take|by apply to_be_bytes_words].
    + unfold len, splice. rewrite length_inserts, length_take. lia.
Qed.
Lemma udp_poll_sound now ds u w : Forall (λ d, Forall (word 8) d.2) ds → udp_sound u →
  Forall (valid_packet cfg) (emitted w) →
  udp_sound (Udp.poll cfg now ds u w).1 ∧ Forall (valid_packet cfg) (emitted (Udp.poll cfg now ds u w).2).
Proof.
  intros Hds Hu Hw. unfold Udp.poll, SystemDns_poll. destruct Hu.
  destruct (answer_replies_sound now _ _ us_receive0 us_pending0) as [Ha Hl].
  destruct (answer_replies _ _ _) as [answers l]. cbn [fst snd] in *.
  set (all := answers ++ _). assert (Forall answer_ok all) as Hall.
  { apply Forall_app. split; [done|]. apply Forall_fmap.
    eapply Forall_impl; [by apply Forall_filtered|]. intros e He. apply dns_answer_ok; [exact He|constructor]. }
  clearbody all. set (w1 := foldl _ w all). assert (Forall (valid_packet cfg) (emitted w1)) as Hw1.
  { unfold w1. clear w1. revert w Hw. induction Hall as [|[p a] all (Hp & Hb & Hn) _ IH]; intros w Hw; [done|].
    cbn [foldl]. apply IH. by apply emit_answer_valid. }
  clearbody w1. clear Hw w Hall all. set (u1 := u <| system_dns := _ |>). assert (udp_sound u1) as Hu1.
  { split; cbn; try done. by apply Forall_filtered. }
  clearbody u1. unfold take_answers.
  assert (udp_sound (foldl (λ '(s, w) d, take_answer cfg d s w) (u1, w1) ds).1 ∧
    Forall (valid_packet cfg) (emitted (foldl (λ '(s, w) d, take_answer cfg d s w) (u1, w1) ds).2)) as [H1 H2].
  { clear -Hguest Hgateway Hds Hu1 Hw1. revert u1 w1 Hu1 Hw1. induction Hds as [|d ds Hd _ IH]; intros u1 w1 Hu1 Hw1; [done|].
    cbn [foldl]. destruct (take_answer_sound d u1 w1 Hd Hu1 Hw1). destruct (take_answer _ _ _ _). by apply IH. }
  destruct (foldl _ _ _) as [u2 w2]. cbn [fst snd expire_pending] in *. split; [|done].
  destruct H1. split; try done. cbn. eapply map_Forall_sub; [|done]. apply map_filter_subseteq.
Qed.
End packets.

(** ** The backend *)

(** An echo request to the gateway, in a frame of the guest. *)
Definition pinged (cfg : NetConfig) (frame : list Z) (q : Ipv4Packet) : Prop :=
  ∃ dst_mac body, Ether.parse frame = Some (dst_mac, 0x0800, body) ∧ parse body = Some q ∧ dst q = gateway_ip cfg ∧
    protocol q = PROTOCOL_ICMP ∧ be16 (payload q) 0 = 0x0800 ∧ checksum (payload q) = 0.
(** An echo reply from the gateway to the source of an echo request among the frames
    of the guest, with the identifier, sequence number and data of the request. *)
Definition valid_echo (cfg : NetConfig) (log : list (list Z)) (packet : list Z) : Prop :=
  ∃ p frame q, frame ∈ log ∧ pinged cfg frame q ∧
    parse packet = Some p ∧ src p = gateway_ip cfg ∧ dst p = src q ∧ protocol p = PROTOCOL_ICMP ∧
    header_checksum_ok (header p) = true ∧ be16 (payload p) 0 = 0 ∧ drop 4 (payload p) = drop 4 (payload q) ∧
    checksum (payload p) = 0.
(** A frame for the guest, after the frames [log] of it: from the gateway's station, and
    an IPv4 packet of the backend or an ARP reply that gives the gateway's station for
    its address. *)
Definition frame_ok (cfg : NetConfig) (log : list (list Z)) (frame : list Z) : Prop :=
  ∃ dst ethertype body, Ether.parse frame = Some (dst, ethertype, body) ∧ slice frame 6 6 = gateway_mac cfg ∧
    (ethertype = 0x0800 ∧ dst = cfg_mac cfg ∧ (valid_packet cfg body ∨ valid_echo cfg log body) ∨
     ethertype = 0x0806 ∧ be16 body 6 = 2 ∧ slice body 8 6 = gateway_mac cfg ∧ slice body 14 4 = gateway_ip cfg ∧
       slice body 18 6 = dst).

Record config_ok (cfg : NetConfig) : Prop := mk_config_ok {
  cf_mac : length (cfg_mac cfg) = 6%nat;
  cf_gateway_mac : length (gateway_mac cfg) = 6%nat;
  cf_guest : octets (guest_ip cfg);
  cf_gateway : octets (gateway_ip cfg)
}.
Record backend_ok (cfg : NetConfig) (log : list (list Z)) (b : SlirpNetBackend) : Prop := mk_backend_ok {
  bo_config : config b = cfg;
  bo_tcp : table_ok (tcp b);
  bo_udp : udp_sound (udp b);
  bo_output : Forall (frame_ok cfg log) (output b);
  bo_cap : len (output b) ≤ OUTPUT_CAP;
  bo_inbox : Forall (λ d, Forall (word 8) d.2) (inbox (world b))
}.

(** What happens to the backend: the device hands it a frame, polls or resets it,
    and between calls the host's clock, sockets, threads and resolvers move on. The label
    is the frame of the guest. *)
Inductive slirp_step (b : SlirpNetBackend) : option (list Z) → SlirpNetBackend → Prop :=
  | guest_frame frame : Forall (word 8) frame → len frame ≤ 65000 → slirp_step b (Some frame) (enqueue frame b)
  | device_polls : slirp_step b None (net_poll b).2
  | device_resets : slirp_step b None (net_reset b)
  | host_moves w : Forall (λ d, Forall (word 8) d.2) (inbox w) → slirp_step b None (b <| world := w |>)
  | host_acts i c rx tx : connections (tcp b) !! i = Some c → Forall event_ok (events rx) →
      slirp_step b None (b <| tcp ::= λ t, t <| connections ::= <[i := c <| host_rx := rx |> <| guest_tx := tx |>]> |> |>)
  | worker_answers r : reply_ok r →
      slirp_step b None (b <| udp ::= λ u, u <| system_dns ::= λ d, d <| receive ::= λ l, l ++ [r] |> |> |>).

(** A step, with the frames the guest has sent so far. *)
Definition slirp_traced (x y : SlirpNetBackend * list (list Z)) : Prop :=
  ∃ l, slirp_step x.1 l y.1 ∧ y.2 = x.2 ++ option_list l.

Section backend.
Context (cfg : NetConfig) (Hcfg : config_ok cfg) (log : list (list Z)).
Implicit Types b : SlirpNetBackend.

Lemma ether_frame_parses dst src ethertype body : length dst = 6%nat → length src = 6%nat → word 16 ethertype →
  Ether.parse (Ether.frame dst src ethertype body) = Some (dst, ethertype, body) ∧
  slice (Ether.frame dst src ethertype body) 6 6 = src.
Proof.
  intros Hd Hs He. do 6 (destruct dst as [|? dst]; [done|]). destruct dst; [|done].
  do 6 (destruct src as [|? src]; [done|]). destruct src; [|done].
  unfold Ether.frame. rewrite be_bytes2. split; [|done]. unfold Ether.parse.
  rewrite (proj2 (Z.ltb_ge _ _)) by (cbn [app]; unfold len; cbn [length]; lia).
  do 2 f_equal. f_equal. rewrite <- (be_bytes2_value ethertype He) at 3. by rewrite be_bytes2.
Qed.

Lemma emit_frame_ok frame b : frame_ok cfg log frame → backend_ok cfg log b → backend_ok cfg log (emit_frame frame b).
Proof.
  intros Hf Hb. unfold emit_frame. destruct (Z.leb_spec OUTPUT_CAP (len (output b))); destruct Hb.
  - split; cbn; try done.
    + apply Forall_app. split; [by apply Forall_drop|by apply Forall_singleton].
    + rewrite len_app. unfold len, OUTPUT_CAP in *. rewrite length_drop. cbn [length]. lia.
  - split; cbn; try done.
    + apply Forall_app. split; [done|by apply Forall_singleton].
    + rewrite len_app. unfold len in *. cbn [length]. lia.
Qed.
Lemma emit_ok packet b : valid_packet cfg packet ∨ valid_echo cfg log packet → backend_ok cfg log b → backend_ok cfg log (emit packet b).
Proof.
  intros Hp Hb. unfold emit. apply emit_frame_ok; [|done]. rewrite (bo_config _ _ _ Hb). destruct Hcfg.
  destruct (ether_frame_parses (cfg_mac cfg) (gateway_mac cfg) 0x0800 packet) as [E1 E2]; [done|done|by apply word_const|].
  exists (cfg_mac cfg), 0x0800, packet. split; [done|]. split; [done|]. by left.
Qed.
Lemma with_wire_ok w b : Forall (valid_packet cfg) (emitted w) → backend_ok cfg log b → backend_ok cfg log (with_wire w b).
Proof.
  intros Hw Hb. unfold with_wire. set (b1 := b <| identification := _ |> <| net_counters := _ |>).
  assert (backend_ok cfg log b1) as H1 by (by destruct Hb; split). clearbody b1. clear Hb.
  revert b1 H1. induction Hw as [|p l Hp _ IH]; intros b1 H1; [done|]. cbn [foldl]. apply IH, emit_ok; [by left|done].
Qed.
Lemma count_ok f b : backend_ok cfg log b → backend_ok cfg log (count f b).
Proof. intros []. by split. Qed.

Lemma handle_arp_ok body b : backend_ok cfg log b → backend_ok cfg log (handle_arp body b).
Proof.
  intros Hb. unfold handle_arp, Ether.parse_arp_request. destruct (Z.ltb_spec (len body) 28); [by apply count_ok|].
  repeat (destruct (_ : bool); [by apply count_ok|]). destruct (negb _); [done|]. rewrite (bo_config _ _ _ Hb).
  assert (∀ i n, 0 ≤ i → 0 ≤ n → i + n ≤ 28 → length (slice body i n) = Z.to_nat n) as Hs.
  { intros i n Hi Hn Hin. unfold slice, len in *. rewrite length_take, length_drop. lia. }
  destruct Hcfg. pose proof (octets_len _ cf_gateway0) as Hg.
  destruct (arp_reply_answers (gateway_mac cfg) (gateway_ip cfg) (slice body 8 6) (slice body 14 4))
    as (frame & arp & -> & E1 & E2 & E3 & E4 & E5 & E6 & _); [done|by apply Hs|unfold len in Hg; lia|by apply Hs|].
  apply count_ok, emit_frame_ok; [|done]. exists (slice body 8 6), 0x0806, arp. split; [done|]. split; [done|]. by right.
Qed.

Lemma slice_octets data i : Forall (word 8) data → 0 ≤ i → i + 4 ≤ len data → octets (slice data i 4).
Proof.
  intros Hw Hi Hl. assert (Forall (word 8) (slice data i 4)) as Hs by (by apply Forall_take, Forall_drop).
  assert (length (slice data i 4) = 4%nat) as Hn by (unfold slice, len in *; rewrite length_take, length_drop; lia).
  destruct (slice data i 4) as [|a [|b [|c [|d [|]]]]]; try done. by exists a, b, c, d.
Qed.
Lemma parse_octets data p : Forall (word 8) data → parse data = Some p →
  octets (src p) ∧ octets (dst p) ∧ Forall (word 8) (payload p) ∧ len (payload p) ≤ len data.
Proof.
  intros Hw. unfold parse. destruct (_ || _) eqn:E; [done|]. apply orb_false_iff in E as [E _]. apply Z.ltb_ge in E.
  destruct (_ || _); [done|]. destruct (_ || _); [done|]. intros [= <-]. cbn. split_and!.
  - apply slice_octets; [done|lia|lia].
  - apply slice_octets; [done|lia|lia].
  - by apply Forall_take, Forall_drop.
  - unfold slice, len. rewrite length_take, length_drop. lia.
Qed.

Lemma handle_ipv4_ok frame dst_mac data b : frame ∈ log → Ether.parse frame = Some (dst_mac, 0x0800, data) →
  Forall (word 8) data → len data ≤ 65000 → backend_ok cfg log b → backend_ok cfg log (handle_ipv4 data b).
Proof.
  intros Hin Ef Hw Hl Hb. unfold handle_ipv4. destruct (parse data) as [packet|] eqn:Ep; [|by apply count_ok].
  destruct (parse_octets _ _ Hw Ep) as (Hs & Hd & Hp & Hpl).
  destruct (_ || _); [by apply count_ok|]. destruct (negb _); [by apply count_ok|].
  destruct (Z.eqb_spec (protocol packet) PROTOCOL_ICMP) as [Hicmp|]; [|destruct (_ =? PROTOCOL_UDP); [|destruct (_ =? PROTOCOL_TCP); [|by apply count_ok]]].
  - destruct (negb _) eqn:Eg; [by apply count_ok|]. apply negb_false_iff, bool_decide_eq_true in Eg.
    rewrite (bo_config _ _ _ Hb) in Eg.
    destruct (icmp_echo_reply _ _) as [[reply|] id] eqn:Ei; apply count_ok; [|by destruct Hb; split].
    apply emit_ok; [right|by destruct Hb; split].
    destruct (icmp_reply_echoes _ _ _ _ Hs Hd Hp ltac:(lia) Ei) as (_ & E7 & E8 & p & E1 & E2 & E2' & E3 & E4 & E5 & E5' & E6).
    exists p, frame, packet. rewrite E2, Eg. split; [done|]. split; [by exists dst_mac, data|done].
  - set (h := mkHostCall _ _ _ _).
    pose proof (udp_handle_sound (config b) h packet (udp b) (net_counters b) Hp (bo_udp _ _ _ Hb)) as Hu.
    destruct (Udp.handle _ _ _ _ _) as [[u c] sent]. cbn [fst] in Hu. by destruct Hb; split.
  - destruct Hcfg. destruct (handle_sound cfg cf_guest0 packet (tcp b) (mkWire (identification b) (net_counters b) []))
      as [Ht Hw']; [done|done|by destruct Hb|constructor|]. rewrite (bo_config _ _ _ Hb).
    destruct (Tcp.handle _ _ _ _) as [t w]. apply with_wire_ok; [done|]. by destruct Hb; split.
Qed.

Lemma enqueue_ok frame b : frame ∈ log → Forall (word 8) frame → len frame ≤ 65000 → backend_ok cfg log b → backend_ok cfg log (slirp_enqueue frame b).
Proof.
  intros Hin Hw Hl Hb. unfold slirp_enqueue. destruct (Ether.parse frame) as [[[d t] body]|] eqn:E; [|by apply count_ok].
  assert (body = drop 14 frame) as Eb by (unfold Ether.parse in E; destruct (_ <? _); by simplify_eq).
  destruct (negb _); [by apply count_ok|]. destruct (_ =? 0x0806); [by apply handle_arp_ok|].
  destruct (Z.eqb_spec t 0x0800) as [->|]; [|by apply count_ok]. subst body.
  eapply handle_ipv4_ok; [done|done|by apply Forall_drop| |done].
  unfold len in *. rewrite length_drop. lia.
Qed.
Lemma slirp_poll_ok b : backend_ok cfg log b →
  backend_ok cfg log (slirp_poll b).2 ∧ Forall (frame_ok cfg log) (slirp_poll b).1 ∧ len (slirp_poll b).1 ≤ OUTPUT_CAP.
Proof.
  intros Hb. unfold slirp_poll. pose proof Hb as []. rewrite bo_config0. pose proof Hcfg as [].
  destruct (udp_poll_sound cfg cf_guest0 cf_gateway0 (clock (world b)) (inbox (world b)) (udp b)
    (mkWire (identification b) (net_counters b) [])) as [Hu Hw]; [done|done|constructor|].
  destruct (Udp.poll _ _ _ _ _) as [u w]. cbn [fst snd] in *.
  destruct (tcp_poll_sound cfg cf_guest0 (clock (world b)) (tcp b) w) as [Ht Hw']; [done|done|].
  destruct (Tcp.poll _ _ _ _) as [t w']. cbn [fst snd] in *.
  set (b1 := with_wire _ _). assert (backend_ok cfg log b1) as H1 by (apply with_wire_ok; [done|]; by split).
  clearbody b1. destruct H1. split_and!; [|done|done]. by split.
Qed.

Lemma slirp_step_ok b l b' : slirp_step b l b' → (∀ frame, l = Some frame → frame ∈ log) → backend_ok cfg log b → backend_ok cfg log b'.
Proof.
  intros [frame Hf Hl| | |w Hw|i c rx tx Hc Hrx|r Hr] Hlog Hb.
  - apply enqueue_ok; auto.
  - by apply slirp_poll_ok.
  - destruct Hb. split; try done. destruct bo_tcp0 as (_ & Hi & _). by split.
  - by destruct Hb; split.
  - destruct Hb. split; try done. destruct bo_tcp0 as (Ht & Hi & Hm). split_and!; cbn; [|done|unfold len; by rewrite length_insert].
    apply Forall_insert; [done|]. pose proof (Forall_lookup_1 _ _ _ _ Ht Hc) as []. by split.
  - destruct Hb. split; try done. destruct bo_udp0. split; try done. cbn. apply Forall_app. split; [done|]. by apply Forall_singleton.
Qed.
Lemma slirp_new_ok nameserver isn w : word 32 isn → Forall (λ d, Forall (word 8) d.2) (inbox w) →
  backend_ok cfg log (SlirpNetBackend_new cfg nameserver isn w).
Proof. intros Hi Hw. split; cbn; try done; by split. Qed.
End backend.

Lemma backend_ok_mono cfg log log' b : backend_ok cfg log b → backend_ok cfg (log ++ log') b.
Proof.
  intros []. split; try done. eapply Forall_impl; [done|]. intros frame (d & t & body & E & Es & H). exists d, t, body.
  split; [done|]. split; [done|]. destruct H as [(? & ? & [?|(p & f & q & Hf & H)])|?]; [left; auto| |by right]. left.
  split; [done|]. split; [done|]. right. exists p, f, q. split; [|done]. apply elem_of_app. by left.
Qed.
(** C11: Whatever frames the guest sends and whatever the host's sockets, threads
    and resolvers do, every frame the backend hands to the network device is well
    formed: it comes from the gateway's station, and is an ARP reply for the gateway's
    address, a TCP or UDP packet to the guest's address, or an ICMP echo reply from the
    gateway to the source address of a valid echo request the guest sent, with its data;
    and its header and TCP, UDP or ICMP checksums verify. A poll hands over at most 1024
    frames, and at most 64 connections exist. *)
Theorem frames_wellformed (cfg : NetConfig) (nameserver : option SocketAddr) (isn : Z) (w : World) (b : SlirpNetBackend)
    (log : list (list Z)) :
  config_ok cfg → word 32 isn → Forall (λ d, Forall (word 8) d.2) (inbox w) →
  rtc slirp_traced (SlirpNetBackend_new cfg nameserver isn w, []) (b, log) →
  Forall (frame_ok cfg log) (net_poll b).1 ∧ len (net_poll b).1 ≤ OUTPUT_CAP ∧
  len (connections (tcp b)) ≤ MAX_CONNECTIONS.
Proof.
  intros Hcfg Hi Hw Hr. assert (backend_ok cfg log b) as Hb.
  { assert (∀ x y, rtc slirp_traced x y → backend_ok cfg x.2 x.1 → backend_ok cfg y.2 y.1) as Hrun.
    { induction 1 as [|x y z (l & Hs & El) _ IH]; [done|]. intros Hx. apply IH. rewrite El.
      eapply slirp_step_ok; [done|done| |by apply backend_ok_mono]. intros frame ->. apply elem_of_app. right. by left. }
    apply (Hrun _ _ Hr). by apply slirp_new_ok. }
  destruct (slirp_poll_ok cfg Hcfg log b Hb) as (_ & Hf & Hc). split_and!; [done|done|]. by destruct Hb as [_ (_ & _ & ?)].
Qed.

(** The guest asks for the gateway's station, pings it and dials out; the host connects. *)
Definition demo_arp : list Z :=
  Ether.frame Ether.BROADCAST_MAC (cfg_mac slirp_defaults) 0x0806
    ([0; 1] ++ [8; 0] ++ [6; 4] ++ [0; 1] ++ cfg_mac slirp_defaults ++ guest_ip slirp_defaults ++ replicate 6 0
     ++ gateway_ip slirp_defaults).
Definition demo_dial : list Z :=
  Ether.frame (gateway_mac slirp_defaults) (cfg_mac slirp_defaults) 0x0800
    (wrap_tcp (guest_ip slirp_defaults) [93; 184; 216; 34] (built demo_syn) 9).
Definition demo_world : World := mkWorld 0 true true [] [].
Definition demo_ping (source : list Z) : list Z :=
  Ether.frame (gateway_mac slirp_defaults) (cfg_mac slirp_defaults) 0x0800
    (build_header 28 PROTOCOL_ICMP source (gateway_ip slirp_defaults) 3 ++ [8; 0; 0xF7; 0xFD; 0; 1; 0; 1]).
Lemma slirp_traced_l l b b' log z : slirp_step b l b' → rtc slirp_traced (b', log ++ option_list l) z → rtc slirp_traced (b, log) z.
Proof. intros Hs Hr. eapply rtc_l; [|exact Hr]. by exists l. Qed.
Lemma demo_frames : ∃ b, rtc slirp_traced (SlirpNetBackend_new slirp_defaults None 77 demo_world, [])
    (b, [demo_arp; demo_ping (guest_ip slirp_defaults); demo_dial]) ∧ len (net_poll b).1 = 3.
Proof.
  eexists. split.
  - eapply slirp_traced_l; [apply (guest_frame _ demo_arp); [by apply bytes_const|by vm_compute]|].
    eapply slirp_traced_l; [apply (guest_frame _ (demo_ping (guest_ip slirp_defaults))); [by apply bytes_const|by vm_compute]|].
    eapply slirp_traced_l; [apply (guest_frame _ demo_dial); [by apply bytes_const|by vm_compute]|].
    eapply slirp_traced_l; [apply (host_acts _ 0 (opened demo_key demo_syn 77) (mkReceiver [Connected] true) (mkSender [] true));
      [by vm_compute|by repeat constructor]|].
    apply rtc_refl.
  - by vm_compute.
Qed.
Lemma frames_wellformed_witness : ∃ b, let log := [demo_arp; demo_ping (guest_ip slirp_defaults); demo_dial] in
  len (net_poll b).1 = 3 ∧ Forall (frame_ok slirp_defaults log) (net_poll b).1 ∧ len (net_poll b).1 ≤ OUTPUT_CAP ∧
  len (connections (tcp b)) ≤ MAX_CONNECTIONS.
Proof.
  destruct demo_frames as (b & Hr & El). exists b. intros log. split; [done|].
  apply (frames_wellformed slirp_defaults None 77 demo_world b log).
  - split; [done|done|by apply octets_const|by apply octets_const].
  - by apply word_const.
  - constructor.
  - exact Hr.
Defined.

(** The source of a ping is not compared with the guest's address: the reply to one from
    10.0.2.99 goes to 10.0.2.99. *)
Lemma echo_reply_to_any_source :
  ∃ frame dst_mac packet p, let source := [10; 0; 2; 99] in
    output (enqueue (demo_ping source) (SlirpNetBackend_new slirp_defaults None 77 demo_world)) = [frame] ∧
    Ether.parse frame = Some (dst_mac, 0x0800, packet) ∧ parse packet = Some p ∧ dst p = source ∧ source ≠ guest_ip slirp_defaults.
Proof. do 4 eexists. split; [vm_compute; reflexivity|]. split; [vm_compute; reflexivity|]. split; [vm_compute; reflexivity|]. by vm_compute. Qed.

