(* ===== verification/HostThread.v ===== *)
(** The host thread of a connection: [rish-softvm-core/src/net/host.rs].

    The thread dials, replays what an earlier socket did not answer, and shuttles
    bytes. The results of the socket and channel calls are inputs of its steps; the
    state also records what the thread has taken from the guest's channel and what
    each socket has accepted, which the theorems speak about. *)
From stdpp Require Import strings.
From S2P Require Import Prelude.
From S2P Require Import Tcp.
Local Open Scope Z_scope.

Definition MAX_DIALS : Z := 3.
Definition MAX_REPLAY_BYTES : Z := 64 * 1024.

(** [write_all]: done, or an error after some bytes. *)
Inductive WriteResult := Written | WriteError (accepted : nat).
Inductive RecvResult := RecvData (data : list Z) | RecvEmpty | RecvDisconnected.
Inductive ReadResult := ReadData (bytes : list Z) | ReadEof | ReadTimeout | ReadError.

Inductive Phase := Dialing | Shuttling | Exited.

Record HostThread := mkThread {
  phase : Phase;
  dials : Z;
  announced : bool;
  replay : list Z;
  replayable : bool;
  answered : bool;
  sent_events : list HostEvent;
  (** what the thread has taken from the channel, what the socket has accepted, and
      what the sockets before it had *)
  taken : list Z;
  accepted : list Z;
  earlier : list (list Z)
}.
#[export] Instance HostThread_eta : Settable HostThread := λ t,
  mkThread (phase t) (dials t) (announced t) (replay t) (replayable t) (answered t) (sent_events t) (taken t)
    (accepted t) (earlier t).

Definition host_new : HostThread := mkThread Dialing 0 false [] true false [] [] [] [].
Definition send_event (e : HostEvent) (t : HostThread) : HostThread := t <| sent_events ::= λ l, l ++ [e] |>.
Definition exit_with (e : HostEvent) (t : HostThread) : HostThread := send_event e t <| phase := Exited |>.
(** [break] out of the inner loop: the socket is dropped. *)
Definition redial (t : HostThread) : HostThread :=
  t <| phase := Dialing |> <| earlier ::= λ l, l ++ [accepted t] |> <| accepted := [] |>.

(** A round of the outer loop up to the inner one: [connect] is the error message of
    [connect_timeout], if any, and [write] the result of writing the replay. *)
Definition dial (connect : option string) (write : WriteResult) (t : HostThread) : HostThread :=
  let t := t <| dials ::= Z.add 1 |> in
  match connect with
  | Some message => if dials t <? MAX_DIALS then t else exit_with (ConnectFailed message) t
  | None =>
      let t := if announced t then t else send_event Connected t <| announced := true |> in
      match replay t, write with
      | [], _ => t <| phase := Shuttling |> <| answered := false |>
      | bytes, Written => t <| phase := Shuttling |> <| answered := false |> <| accepted := bytes |>
      | bytes, WriteError n =>
          let t := t <| accepted := take n bytes |> in
          if dials t <? MAX_DIALS then redial t else exit_with Eof t
      end
  end.

(** May the connection still be dialled again? *)
Definition redial_eligible (t : HostThread) : bool :=
  negb (answered t) && replayable t && (dials t <? MAX_DIALS).

(** The first half of a round of the inner loop: one chunk of the guest. *)
Definition take_chunk (recv : RecvResult) (write : WriteResult) (t : HostThread) : HostThread :=
  match recv with
  | RecvDisconnected => t <| phase := Exited |>
  | RecvEmpty => t
  | RecvData data =>
      let t := t <| taken ::= λ l, l ++ data |> in
      match write with
      | WriteError n =>
          let t := t <| accepted ::= λ l, l ++ take n data |> in
          if redial_eligible t && (len (replay t) + len data <=? MAX_REPLAY_BYTES)
          then redial (t <| replay ::= λ l, l ++ data |>)
          else exit_with Eof t
      | Written =>
          let t := t <| accepted ::= λ l, l ++ data |> in
          if negb (answered t) && replayable t then
            if len (replay t) + len data <=? MAX_REPLAY_BYTES then t <| replay ::= λ l, l ++ data |>
            else t <| replayable := false |> <| replay := [] |>
          else t
      end
  end.
(** The second half: one read of the socket; [delivered] says whether the backend
    still holds the receiver. *)
Definition read_socket (read : ReadResult) (delivered : bool) (t : HostThread) : HostThread :=
  match read with
  | ReadData bytes =>
      let t := send_event (Data bytes) (t <| answered := true |> <| replay := [] |>) in
      if delivered then t else t <| phase := Exited |>
  | ReadTimeout => t
  | ReadEof | ReadError => if redial_eligible t then redial t else exit_with Eof t
  end.
Definition shuttle (recv : RecvResult) (write : WriteResult) (read : ReadResult) (delivered : bool) (t : HostThread)
    : HostThread :=
  let t := take_chunk recv write t in
  match phase t with Shuttling => read_socket read delivered t | _ => t end.

Inductive host_step (t : HostThread) : HostThread → Prop :=
  | dials_out connect write : phase t = Dialing → host_step t (dial connect write t)
  | shuttles recv write read delivered : phase t = Shuttling → host_step t (shuttle recv write read delivered t).

(** ** What the remote and the guest see *)

(** The events of a run: the connection once, then data, then at most one end. *)
Record events_ok (t : HostThread) (chunks : list (list Z)) (final : list HostEvent) : Prop := mk_events_ok {
  ev_shape : sent_events t = (if announced t then [Connected] else []) ++ (Data <$> chunks) ++ final;
  ev_final : (length final ≤ 1)%nat ∧ (final ≠ [] → phase t = Exited);
  ev_data : chunks ≠ [] → announced t = true ∧ phase t ≠ Dialing ∧ (phase t = Shuttling → answered t = true)
}.
Record thread_ok (t : HostThread) : Prop := mk_thread_ok {
  to_dials : 0 ≤ dials t ≤ MAX_DIALS ∧ (phase t = Dialing → dials t < MAX_DIALS);
  to_dialing : phase t = Dialing → replayable t = true ∧ replay t = taken t ∧ accepted t = [];
  to_replay : phase t = Shuttling → answered t = false → replayable t = true → replay t = taken t;
  to_accepted : phase t = Shuttling → accepted t = taken t ∧ announced t = true;
  to_earlier : Forall (λ s, s `prefix_of` taken t) (earlier t ++ [accepted t]);
  to_events : ∃ chunks final, events_ok t chunks final
}.

Lemma prefix_grow (l : list (list Z)) (x y : list Z) : Forall (λ s, s `prefix_of` x) l → Forall (λ s, s `prefix_of` x ++ y) l.
Proof. intros H. eapply Forall_impl; [exact H|]. intros s Hs. by apply prefix_app_r. Qed.
Lemma prefix_taken (x data : list Z) n : x ++ take n data `prefix_of` x ++ data.
Proof. apply prefix_app. exists (drop n data). by rewrite take_drop. Qed.

(** An end of the thread from a phase in which it has not ended. *)
Lemma exit_ok e t : (e = Eof ∨ ∃ m, e = ConnectFailed m) → phase t ≠ Exited → 0 ≤ dials t ≤ MAX_DIALS →
  Forall (λ s, s `prefix_of` taken t) (earlier t ++ [accepted t]) → (∃ chunks final, events_ok t chunks final) →
  thread_ok (exit_with e t).
Proof.
  intros He Hp Hd Hs (chunks & final & []). split; cbn; try done.
  assert (final = []) as -> by (destruct final; [done|]; exfalso; by apply Hp, ev_final0).
  exists chunks, [e]. split; cbn; [by rewrite ev_shape0, app_nil_r, <- app_assoc|done|].
  intros H. by destruct (ev_data0 H).
Qed.

Lemma dial_ok connect write t : phase t = Dialing → thread_ok t → thread_ok (dial connect write t).
Proof.
  intros Hp [[Hd Hd'] Hdial _ _ Hs (chunks & final & [Hev [Hf1 Hf2] Hc])]. specialize (Hd' Hp).
  destruct (Hdial Hp) as (Hr & Erep & Eacc).
  assert (final = []) as -> by (destruct final; [done|]; by rewrite Hf2 in Hp).
  assert (chunks = []) as -> by (destruct chunks; [done|]; by destruct Hc as (_ & ? & _)).
  unfold dial. set (t1 := t <| dials ::= Z.add 1 |>). destruct connect as [message|].
  { destruct (Z.ltb_spec (dials t1) MAX_DIALS); cbn in *.
    - split; cbn; try done; [lia|by rewrite Hp|]. by exists [], [].
    - apply exit_ok; cbn; [right; by eexists|by rewrite Hp|lia|done|]. by exists [], []. }
  set (t2 := if announced t1 then t1 else _).
  assert (phase t2 = Dialing ∧ dials t2 = 1 + dials t ∧ announced t2 = true ∧ replay t2 = taken t ∧ replayable t2 = true ∧
    taken t2 = taken t ∧ accepted t2 = [] ∧ earlier t2 = earlier t ∧ sent_events t2 = [Connected]) as
    (E1 & E2 & E3 & E4 & E5 & E6 & E7 & E8 & E9).
  { unfold t2. cbn. destruct (announced t) eqn:Ea; cbn in *; split_and!; try done. by rewrite Hev. }
  clearbody t2. clear t1. assert (∀ p a, p ≠ Dialing → events_ok (t2 <| phase := p |> <| answered := a |>) [] []) as Hev2.
  { intros p a Hne. split; cbn; [by rewrite E9, E3|done|done]. }
  destruct (replay t2) as [|x l] eqn:El; [|destruct write as [|n]].
  - split; cbn; rewrite ?E6, ?E7, ?E8; try done; [by split; [lia|]|by rewrite El|by rewrite Eacc in Hs|].
    exists [], []. by apply Hev2.
  - split; cbn; rewrite ?E6, ?E8; try done; [by split; [lia|]|by rewrite El| |].
    + apply Forall_app in Hs as [Hs _]. apply Forall_app. split; [done|]. apply Forall_singleton. by rewrite E4.
    + exists [], []. destruct (Hev2 Shuttling false) as []; [done|]. by split.
  - set (t3 := t2 <| accepted := take n (x :: l) |>).
    assert (Forall (λ s, s `prefix_of` taken t3) (earlier t3 ++ [accepted t3])) as Hs3.
    { cbn. rewrite E6, E8, E4. apply Forall_app in Hs as [Hs _]. apply Forall_app. split; [done|]. apply Forall_singleton.
      exists (drop n (taken t)). by rewrite take_drop. }
    destruct (Z.ltb_spec (dials t3) MAX_DIALS).
    + split; cbn; try done; [cbn in *; lia|by rewrite El, E6|cbn in Hs3 |- *; apply Forall_app; split; [done|]|].
      * apply Forall_singleton. apply prefix_nil.
      * exists [], []. split; cbn; [by rewrite E9, E3|done|done].
    + apply exit_ok; cbn in *; [by left|by rewrite E1|lia|done|]. exists [], []. split; cbn; [by rewrite E9, E3|done|done].
Qed.

(** A redial from the inner loop. *)
Lemma redial_ok t : redial_eligible t = true → 0 ≤ dials t → replay t = taken t → announced t = true →
  Forall (λ s, s `prefix_of` taken t) (earlier t ++ [accepted t]) → sent_events t = [Connected] → thread_ok (redial t).
Proof.
  unfold redial_eligible. intros [[Ha Hr]%andb_prop Hd]%andb_prop H0 Hrep Han Hs Hev. apply Z.ltb_lt in Hd.
  split; cbn; try done; [lia| |].
  - apply Forall_app. split; [done|]. apply Forall_singleton, prefix_nil.
  - exists [], []. split; cbn; [by rewrite Hev, Han|by split; [lia|]|done].
Qed.
(** Before the first response nothing but the connection has been announced. *)
Lemma unanswered_events t : thread_ok t → phase t = Shuttling → answered t = false → sent_events t = [Connected].
Proof.
  intros [_ _ _ Hacc _ (chunks & final & [Hev [_ Hf] Hc])] Hp Ha. destruct (Hacc Hp) as [_ Han]. rewrite Hev, Han.
  assert (final = []) as -> by (destruct final; [done|]; by rewrite Hf in Hp).
  assert (chunks = []) as -> by (destruct chunks; [done|]; destruct Hc as (_ & _ & Hc); [done|]; by rewrite Hc in Ha). done.
Qed.

Lemma events_same t t' : phase t' = phase t → announced t' = announced t → answered t' = answered t →
  sent_events t' = sent_events t → (∃ chunks final, events_ok t chunks final) → ∃ chunks final, events_ok t' chunks final.
Proof. intros E1 E2 E3 E4 (chunks & final & []). exists chunks, final. by split; rewrite ?E1, ?E2, ?E3, ?E4. Qed.

Lemma take_chunk_ok recv write t : phase t = Shuttling → thread_ok t → thread_ok (take_chunk recv write t).
Proof.
  intros Hp Hok. pose proof Hok as [[Hd _] _ Hrep Hacc Hs Hev]. destruct (Hacc Hp) as [Eacc Han].
  assert (Forall (λ s, s `prefix_of` taken t) (earlier t)) as He by (by apply Forall_app in Hs as [? _]).
  destruct recv as [data| |]; cbn [take_chunk]; [|done|].
  2: { destruct Hev as (chunks & final & [Hev [Hf1 Hf2] Hc]). split; cbn; try done. exists chunks, final.
       by split. }
  destruct write as [|n].
  - set (t1 := t <| taken ::= _ |> <| accepted ::= _ |>).
    assert (Forall (λ s, s `prefix_of` taken t1) (earlier t1 ++ [accepted t1])) as Hs1.
    { cbn. rewrite Eacc. apply Forall_app. split; [by apply prefix_grow|]. by apply Forall_singleton. }
    destruct (negb _ && _) eqn:Ea; cbn in Ea.
    + apply andb_prop in Ea as [Ea Er]. apply negb_true_iff in Ea. destruct (_ <=? _).
      * split; cbn in *; rewrite ?Hp; try done; [intros; by rewrite Hrep|by rewrite Eacc|by eapply events_same; [..|exact Hev]].
      * split; cbn in *; rewrite ?Hp; try done; [by rewrite Eacc|by eapply events_same; [..|exact Hev]].
    + split; cbn in *; rewrite ?Hp; try done; [|by rewrite Eacc|by eapply events_same; [..|exact Hev]].
      intros _ Ha Hr. by rewrite Ha, Hr in Ea.
  - set (t1 := t <| taken ::= _ |> <| accepted ::= _ |>).
    assert (Forall (λ s, s `prefix_of` taken t1) (earlier t1 ++ [accepted t1])) as Hs1.
    { cbn. rewrite Eacc. apply Forall_app. split; [by apply prefix_grow|]. apply Forall_singleton, prefix_taken. }
    destruct (redial_eligible t1 && _) eqn:Ee.
    + apply andb_prop in Ee as [Ee _]. pose proof Ee as Ee'. unfold redial_eligible in Ee'. cbn in Ee'.
      apply andb_prop in Ee' as [[Ea Er]%andb_prop _]. apply negb_true_iff in Ea.
      apply redial_ok; cbn; [exact Ee|lia|by rewrite Hrep|done|done|by apply unanswered_events].
    + apply exit_ok; cbn; [by left|by rewrite Hp|done|done|].
      by eapply events_same; [..|exact Hev].
Qed.
Lemma read_socket_ok read delivered t : phase t = Shuttling → thread_ok t → thread_ok (read_socket read delivered t).
Proof.
  intros Hp Hok. pose proof Hok as [[Hd _] _ Hrep Hacc Hs Hev]. destruct (Hacc Hp) as [Eacc Han].
  assert (thread_ok (if redial_eligible t then redial t else exit_with Eof t)) as Hend.
  { destruct (redial_eligible t) eqn:Ee.
    - pose proof Ee as Ee'. unfold redial_eligible in Ee'. apply andb_prop in Ee' as [[Ea Er]%andb_prop _].
      apply negb_true_iff in Ea. apply redial_ok; [done|lia|by apply Hrep|done|done|by apply unanswered_events].
    - apply exit_ok; [by left|by rewrite Hp|done|done|done]. }
  destruct read as [bytes| | |]; cbn [read_socket]; [|done..]. clear Hend.
  destruct Hev as (chunks & final & [Hev [Hf1 Hf2] Hc]).
  assert (final = []) as -> by (destruct final; [done|]; by rewrite Hf2 in Hp).
  destruct delivered; (split; cbn in *; rewrite ?Hp; try done; exists (chunks ++ [bytes]), []; split; cbn;
    [rewrite Hev, fmap_app, !app_nil_r; by rewrite <- app_assoc|done|]); intros _; by rewrite Han, ?Hp.
Qed.

(** C18: The host thread delivers the guest's bytes exactly once: on every socket it
    dials, the remote sees a prefix of the guest's stream, and on the socket it is
    shuttling on all of it so far, with what earlier sockets never answered replayed
    first. It dials at most three times, and the backend sees the connection
    announced once, then the responses of one socket only, then at most one end. *)
Theorem guest_stream_replayed (t : HostThread) : rtc host_step host_new t →
  Forall (λ s, s `prefix_of` taken t) (earlier t ++ [accepted t]) ∧
  (phase t = Shuttling → accepted t = taken t) ∧
  0 ≤ dials t ≤ MAX_DIALS ∧
  ∃ chunks final, sent_events t = (if announced t then [Connected] else []) ++ (Data <$> chunks) ++ final ∧
    (length final ≤ 1)%nat ∧ (final ≠ [] → phase t = Exited) ∧ (chunks ≠ [] → phase t ≠ Dialing).
Proof.
  intros Hr. assert (thread_ok host_new) as H0.
  { split; cbn; try done; [by apply Forall_singleton, prefix_nil|]. exists [], []. split; cbn; [done|by split; [lia|]|done]. }
  assert (thread_ok t) as [[Hd _] _ _ Hacc Hs (chunks & final & [Hev [Hf1 Hf2] Hc])].
  { revert H0. induction Hr as [|t1 t2 t3 Hstep _ IH]; [done|]. intros H1. apply IH.
    destruct Hstep as [connect write Hp|recv write read delivered Hp]; [by apply dial_ok|].
    unfold shuttle. pose proof (take_chunk_ok recv write t1 Hp H1) as H2.
    destruct (phase (take_chunk recv write t1)) eqn:E; [done|by apply read_socket_ok|done]. }
  split_and!; [done|intros Hp; by destruct (Hacc Hp)|lia|lia|]. exists chunks, final. split_and!; try done.
  intros H. by destruct (Hc H) as (_ & ? & _).
Qed.

(** The first socket takes a request and resets; the second takes it again and
    answers. *)
Lemma guest_stream_replayed_witness :
  ∃ t, rtc host_step host_new t ∧ earlier t = [[71; 69; 84]] ∧ accepted t = [71; 69; 84] ∧
    sent_events t = [Connected; Data [79; 75]] ∧
  Forall (λ s, s `prefix_of` taken t) (earlier t ++ [accepted t]) ∧
  (phase t = Shuttling → accepted t = taken t) ∧
  0 ≤ dials t ≤ MAX_DIALS ∧
  ∃ chunks final, sent_events t = (if announced t then [Connected] else []) ++ (Data <$> chunks) ++ final ∧
    (length final ≤ 1)%nat ∧ (final ≠ [] → phase t = Exited) ∧ (chunks ≠ [] → phase t ≠ Dialing).
Proof.
  assert (∃ t, rtc host_step host_new t ∧ earlier t = [[71; 69; 84]] ∧ accepted t = [71; 69; 84] ∧
    sent_events t = [Connected; Data [79; 75]]) as (t & Hr & E).
  { eexists. split.
    - eapply rtc_l; [by apply (dials_out _ None Written)|].
      eapply rtc_l; [by apply (shuttles _ (RecvData [71; 69; 84]) Written ReadError true)|].
      eapply rtc_l; [by apply (dials_out _ None Written)|].
      eapply rtc_l; [by apply (shuttles _ RecvEmpty Written (ReadData [79; 75]) true)|]. apply rtc_refl.
    - by vm_compute. }
  exists t. split; [done|]. split; [apply E|]. split; [apply E|]. split; [apply E|].
  apply (guest_stream_replayed t). exact Hr.
Defined.
