(* ===== verification/Protocol.v ===== *)
(** The guest control protocol: [rish-guest-protocol/src/model.rs], [identifier.rs],
    [error.rs] and the constants of [lib.rs].

    The messages are the source's types. JSON values carried in a message are the
    type [Value] of the JSON library, a parameter; ordered string maps are finite
    maps. *)
From stdpp Require Import strings gmap pretty.
From S2P Require Import Prelude.
Local Open Scope Z_scope.

Record ProtocolVersion := mkVersion { major : Z; minor : Z }.
#[export] Instance ProtocolVersion_eq_dec : EqDecision ProtocolVersion.
Proof. solve_decision. Defined.

Definition PROTOCOL_ID : string := "dev.rish.guest".
Definition CURRENT_PROTOCOL_VERSION : ProtocolVersion := mkVersion 1 0.
Definition SUPPORTED_PROTOCOL_VERSIONS : list ProtocolVersion := [CURRENT_PROTOCOL_VERSION].
Definition DEFAULT_MAX_FRAME_SIZE : Z := 8 * 1024 * 1024.
Definition MIN_NEGOTIATED_FRAME_SIZE : Z := 64 * 1024.

(** ** Identifiers *)

Inductive IdentifierError := Empty | TooLong (length max : Z) | InvalidCharacter.
(** [impl Display for IdentifierError] *)
Definition identifier_text (e : IdentifierError) : string :=
  match e with
  | Empty => "request ID cannot be empty"
  | TooLong length max => "request ID length " +:+ pretty length +:+ " exceeds limit " +:+ pretty max
  | InvalidCharacter => "request ID contains an invalid character"
  end.
Record RequestId := mkRequestId { as_str : string }.
#[export] Instance RequestId_eq_dec : EqDecision RequestId.
Proof. solve_decision. Defined.

Definition MAX_LEN : Z := 128.
(** [byte.is_ascii_alphanumeric() || matches!(byte, b'-' | b'_' | b'.' | b':')] *)
Definition id_byte (c : Ascii.ascii) : bool :=
  let n := Z.of_N (Ascii.N_of_ascii c) in
  (48 <=? n) && (n <=? 57) || (65 <=? n) && (n <=? 90) || (97 <=? n) && (n <=? 122)
  || (n =? 45) || (n =? 95) || (n =? 46) || (n =? 58).
Definition RequestId_new (value : string) : result IdentifierError RequestId :=
  let length := Z.of_nat (String.length value) in
  if length =? 0 then Err Empty
  else if MAX_LEN <? length then Err (TooLong length MAX_LEN)
  else if negb (forallb id_byte (String.list_ascii_of_string value)) then Err InvalidCharacter
  else Ok (mkRequestId value).

(** ** Version negotiation *)

Record NegotiationError := mkNegotiationError { local : list ProtocolVersion; remote : list ProtocolVersion }.
(** The derived lexicographic order. *)
Definition version_le (a b : ProtocolVersion) : bool :=
  (major a <? major b) || (major a =? major b) && (minor a <=? minor b).
(** [Iterator::max], which keeps the last of equal elements. *)
Definition max_version (l : list ProtocolVersion) : option ProtocolVersion :=
  foldl (λ best v, match best with
                   | Some b => Some (if version_le b v then v else b)
                   | None => Some v
                   end) None l.
Definition negotiate_version (local remote : list ProtocolVersion) : result NegotiationError ProtocolVersion :=
  match max_version (filter (λ v, v ∈ remote) local) with
  | Some v => Ok v
  | None => Err (mkNegotiationError local remote)
  end.

(** ** Messages *)

Inductive PeerRole := Host | Guest.
Record PeerInfo := mkPeerInfo { peer_name : string; peer_version : string; platform : string; architecture : string }.
Record Hello := mkHello {
  hello_request_id : RequestId;
  role : PeerRole;
  hello_peer : PeerInfo;
  supported_versions : list ProtocolVersion;
  requested_capabilities : list string;
  hello_max_frame_size : Z
}.
Definition Hello_host (request_id : RequestId) (peer : PeerInfo) (capabilities : list string) (max_frame_size : Z) : Hello :=
  mkHello request_id Host peer SUPPORTED_PROTOCOL_VERSIONS capabilities max_frame_size.

Inductive CapabilityStatus := Available | Restricted | Unavailable.
Inductive ContainerState := Preparing | Created | Running | Stopped | Deleted.
Inductive CheckpointState := CpCreating | CpReady | CpRestoring | CpRestored | CpDeleted | CpFailed.
Inductive StreamChannel := Stdout | Stderr | Console.
#[export] Instance StreamChannel_eq_dec : EqDecision StreamChannel.
Proof. solve_decision. Defined.
Inductive LogLevel := Trace | Debug | Info | Warn | LogError.
Inductive TransportProtocol := Tcp | Udp.
Inductive ErrorCode :=
  | VersionMismatch | InvalidRequest | UnsupportedOperation | CapabilityUnavailable | NotFound | AlreadyExists
  | PermissionDenied | ResourceExhausted | DeadlineExceeded | Cancelled | Io | Oci | Runtime | Internal.
(** The derived [Debug]. *)
Definition error_code_debug (c : ErrorCode) : string :=
  match c with
  | VersionMismatch => "VersionMismatch"
  | InvalidRequest => "InvalidRequest"
  | UnsupportedOperation => "UnsupportedOperation"
  | CapabilityUnavailable => "CapabilityUnavailable"
  | NotFound => "NotFound"
  | AlreadyExists => "AlreadyExists"
  | PermissionDenied => "PermissionDenied"
  | ResourceExhausted => "ResourceExhausted"
  | DeadlineExceeded => "DeadlineExceeded"
  | Cancelled => "Cancelled"
  | Io => "Io"
  | Oci => "Oci"
  | Runtime => "Runtime"
  | Internal => "Internal"
  end.

Record GuestLimits := mkLimits {
  max_frame_size : Z;
  max_concurrent_exec : Z;
  max_port_forwards : Z;
  max_stream_chunk_size : Z
}.
Record UserSpec := mkUserSpec { uid : option Z; gid : option Z; supplementary_gids : list Z }.
Record ExecRequest := mkExecRequest {
  argv : list string;
  env : gmap string string;
  cwd : option string;
  user : option UserSpec;
  tty : bool;
  attach_stdin : bool;
  attach_stdout : bool;
  attach_stderr : bool;
  timeout_ms : option Z
}.
Inductive StreamAction := WriteStdin (data_base64 : string) | CloseStdin | ResizeTty (rows columns : Z).
Record StreamRequest := mkStreamRequest { stream_execution_id : string; action : StreamAction }.
Record CancelRequest := mkCancelRequest {
  target_request_id : RequestId;
  cancel_execution_id : option string;
  cancel_signal : option Z
}.
Record OciRunRequest := mkOciRun { run_container_id : string; attach : bool }.
Record OciStopRequest := mkOciStop { stop_container_id : string; stop_signal : option string; stop_timeout_ms : option Z }.
Record OciDeleteRequest := mkOciDelete { delete_container_id : string; force : bool }.
Record PortForwardRule := mkRule {
  forwarding_id : string;
  rule_protocol : TransportProtocol;
  host_address : string;
  host_port : Z;
  guest_address : string;
  guest_port : Z
}.
Inductive PortForwardAction := AddForward (rule : PortForwardRule) | RemoveForward (forwarding_id : string) | ListForwards.
Inductive CheckpointAction :=
  | CheckpointCreate (container_id checkpoint_id path : string) (leave_running : bool)
  | CheckpointRestore (container_id checkpoint_id path : string)
  | CheckpointDelete (checkpoint_id path : string)
  | CheckpointList.
Record CheckpointInfo := mkCheckpointInfo {
  checkpoint_id : string;
  checkpoint_container_id : string;
  checkpoint_path : string;
  checkpoint_state : CheckpointState
}.

Section messages.
Context {Value : Type}.

Inductive RemoteError := mkRemoteError
  (code : ErrorCode) (message : string) (retryable : bool) (details : gmap string Value) (cause : option RemoteError).
Definition RemoteError_new (code : ErrorCode) (message : string) : RemoteError :=
  mkRemoteError code message false ∅ None.

Record Capability := mkCapability {
  capability_name : string;
  capability_version : Z;
  status : CapabilityStatus;
  attributes : gmap string Value;
  reason : option string
}.
Record GuestCapabilities := mkCapabilities {
  kernel_release : string;
  guest_architecture : string;
  init_system : string;
  cgroup_version : option Z;
  container_runtimes : list string;
  features : list Capability
}.
Definition capability (c : GuestCapabilities) (name : string) : option Capability :=
  list_find (λ f, capability_name f = name) (features c) ≫= λ '(_, f), Some f.

Inductive HandshakeOutcome :=
  | Accepted (selected_version : ProtocolVersion) (session_id : string) (peer : PeerInfo)
      (capabilities : GuestCapabilities) (limits : GuestLimits)
  | Rejected (error : RemoteError).
Record HelloAck := mkHelloAck { ack_request_id : RequestId; outcome : HandshakeOutcome }.

Record OciPrepareRequest := mkOciPrepare {
  container_id : string;
  image_reference : string;
  expected_digest : option string;
  bundle_path : string;
  oci_spec : Value;
  replace : bool
}.
Inductive Operation :=
  | Exec (request : ExecRequest)
  | StreamOp (request : StreamRequest)
  | Cancel (request : CancelRequest)
  | OciPrepare (request : OciPrepareRequest)
  | OciRun (request : OciRunRequest)
  | OciStop (request : OciStopRequest)
  | OciDelete (request : OciDeleteRequest)
  | PortForwardOp (action : PortForwardAction)
  | CheckpointOp (action : CheckpointAction)
  | Ping (nonce : string).
Record Request := mkRequest { request_id : RequestId; operation : Operation }.

Inductive ResponsePayload :=
  | Ack
  | Pong (nonce : string)
  | ExecStarted (execution_id : string) (pid : Z)
  | StreamAccepted (execution_id : string)
  | WasCancelled (target : RequestId)
  | OciPrepared (container_id image_digest : string)
  | OciState (container_id : string) (state : ContainerState) (pid : option Z)
  | PortForwardResult (rule : PortForwardRule)
  | PortForwardList (rules : list PortForwardRule)
  | CheckpointResult (checkpoint_id : string) (state : CheckpointState)
  | CheckpointsResult (checkpoints : list CheckpointInfo).
Inductive ResponseOutcome := Success (result : ResponsePayload) | Failure (error : RemoteError).
Record Response := mkResponse { response_id : RequestId; response_outcome : ResponseOutcome }.

Inductive EventKind :=
  | GuestReady (session_id : string)
  | CapabilityChanged (capability : Capability)
  | ExecutionStarted (execution_id : string) (pid : Z)
  | Stream (execution_id : string) (channel : StreamChannel) (stream_sequence : Z) (data_base64 : string) (eof : bool)
  | ProcessExited (execution_id : string) (exit_code signal : option Z)
  | OciStateChanged (container_id : string) (state : ContainerState) (exit_code : option Z)
  | PortForwardChanged (forwarding_id : string) (active : bool) (error : option RemoteError)
  | CheckpointProgress (checkpoint_id : string) (state : CheckpointState) (completed_bytes : Z) (total_bytes : option Z)
  | Log (level : LogLevel) (target message : string) (fields : gmap string Value)
  | Heartbeat.
Record Event := mkEvent { sequence : Z; timestamp_ms : Z; event_request_id : option RequestId; event : EventKind }.

Inductive Message :=
  | MHello (hello : Hello)
  | MHelloAck (ack : HelloAck)
  | MRequest (request : Request)
  | MResponse (response : Response)
  | MEvent (event : Event).
Record Envelope := mkEnvelope { protocol : string; version : ProtocolVersion; message : Message }.
Definition with_version (v : ProtocolVersion) (m : Message) : Envelope := mkEnvelope PROTOCOL_ID v m.
End messages.
Arguments RemoteError : clear implicits.
Arguments Capability : clear implicits.
Arguments GuestCapabilities : clear implicits.
Arguments HandshakeOutcome : clear implicits.
Arguments HelloAck : clear implicits.
Arguments OciPrepareRequest : clear implicits.
Arguments Operation : clear implicits.
Arguments Request : clear implicits.
Arguments ResponseOutcome : clear implicits.
Arguments Response : clear implicits.
Arguments EventKind : clear implicits.
Arguments Event : clear implicits.
Arguments Message : clear implicits.
Arguments Envelope : clear implicits.

(** The derived equality of the messages. *)
Section equality.
Context {Value : Type} `{EqDecision Value}.
#[export] Instance ErrorCode_eq_dec : EqDecision ErrorCode.
Proof. solve_decision. Defined.
#[export] Instance RemoteError_eq_dec : EqDecision (RemoteError Value).
Proof.
  refine (fix go x y :=
    match x, y with
    | mkRemoteError c m r d o, mkRemoteError c' m' r' d' o' =>
        cast_if_and5 (decide (c = c')) (decide (m = m')) (decide (r = r')) (decide (d = d'))
          (match o, o' as p return Decision (o = p) with
           | None, None => left eq_refl
           | Some a, Some b => cast_if (go a b)
           | _, _ => right _
           end)
    end); congruence.
Defined.
#[export] Instance PeerRole_eq_dec : EqDecision PeerRole.
Proof. solve_decision. Defined.
#[export] Instance PeerInfo_eq_dec : EqDecision PeerInfo.
Proof. solve_decision. Defined.
#[export] Instance Hello_eq_dec : EqDecision Hello.
Proof. solve_decision. Defined.
#[export] Instance CapabilityStatus_eq_dec : EqDecision CapabilityStatus.
Proof. solve_decision. Defined.
#[export] Instance ContainerState_eq_dec : EqDecision ContainerState.
Proof. solve_decision. Defined.
#[export] Instance CheckpointState_eq_dec : EqDecision CheckpointState.
Proof. solve_decision. Defined.
#[export] Instance LogLevel_eq_dec : EqDecision LogLevel.
Proof. solve_decision. Defined.
#[export] Instance TransportProtocol_eq_dec : EqDecision TransportProtocol.
Proof. solve_decision. Defined.
#[export] Instance GuestLimits_eq_dec : EqDecision GuestLimits.
Proof. solve_decision. Defined.
#[export] Instance UserSpec_eq_dec : EqDecision UserSpec.
Proof. solve_decision. Defined.
#[export] Instance ExecRequest_eq_dec : EqDecision ExecRequest.
Proof. solve_decision. Defined.
#[export] Instance StreamAction_eq_dec : EqDecision StreamAction.
Proof. solve_decision. Defined.
#[export] Instance StreamRequest_eq_dec : EqDecision StreamRequest.
Proof. solve_decision. Defined.
#[export] Instance CancelRequest_eq_dec : EqDecision CancelRequest.
Proof. solve_decision. Defined.
#[export] Instance OciRunRequest_eq_dec : EqDecision OciRunRequest.
Proof. solve_decision. Defined.
#[export] Instance OciStopRequest_eq_dec : EqDecision OciStopRequest.
Proof. solve_decision. Defined.
#[export] Instance OciDeleteRequest_eq_dec : EqDecision OciDeleteRequest.
Proof. solve_decision. Defined.
#[export] Instance PortForwardRule_eq_dec : EqDecision PortForwardRule.
Proof. solve_decision. Defined.
#[export] Instance PortForwardAction_eq_dec : EqDecision PortForwardAction.
Proof. solve_decision. Defined.
#[export] Instance CheckpointAction_eq_dec : EqDecision CheckpointAction.
Proof. solve_decision. Defined.
#[export] Instance CheckpointInfo_eq_dec : EqDecision CheckpointInfo.
Proof. solve_decision. Defined.
#[export] Instance ResponsePayload_eq_dec : EqDecision ResponsePayload.
Proof. solve_decision. Defined.
#[export] Instance Capability_eq_dec : EqDecision (Capability Value).
Proof. solve_decision. Defined.
#[export] Instance GuestCapabilities_eq_dec : EqDecision (GuestCapabilities Value).
Proof. solve_decision. Defined.
#[export] Instance HandshakeOutcome_eq_dec : EqDecision (HandshakeOutcome Value).
Proof. solve_decision. Defined.
#[export] Instance HelloAck_eq_dec : EqDecision (HelloAck Value).
Proof. solve_decision. Defined.
#[export] Instance OciPrepareRequest_eq_dec : EqDecision (OciPrepareRequest Value).
Proof. solve_decision. Defined.
#[export] Instance Operation_eq_dec : EqDecision (Operation Value).
Proof. solve_decision. Defined.
#[export] Instance Request_eq_dec : EqDecision (Request Value).
Proof. solve_decision. Defined.
#[export] Instance ResponseOutcome_eq_dec : EqDecision (ResponseOutcome Value).
Proof. solve_decision. Defined.
#[export] Instance Response_eq_dec : EqDecision (Response Value).
Proof. solve_decision. Defined.
#[export] Instance EventKind_eq_dec : EqDecision (EventKind Value).
Proof. solve_decision. Defined.
#[export] Instance Event_eq_dec : EqDecision (Event Value).
Proof. solve_decision. Defined.
#[export] Instance Message_eq_dec : EqDecision (Message Value).
Proof. solve_decision. Defined.
#[export] Instance Envelope_eq_dec : EqDecision (Envelope Value).
Proof. solve_decision. Defined.
End equality.

(** ** Numbered ids *)

Lemma pretty_go_length k : ∀ x s, (x < 10 ^ N.of_nat k)%N → (String.length (pretty_N_go x s) ≤ k + String.length s)%nat.
Proof.
  induction k as [|k IH]; intros x s Hx.
  - assert (x = 0%N) as -> by (cbn in Hx; lia). by rewrite pretty_N_go_0.
  - destruct (decide (x = 0%N)) as [->|Hn]; [rewrite pretty_N_go_0; lia|]. rewrite pretty_N_go_step by lia.
    etrans; [apply IH|cbn; lia]. apply N.Div0.div_lt_upper_bound. rewrite Nat2N.inj_succ, N.pow_succ_r' in Hx. lia.
Qed.
Lemma digit_byte x : id_byte (pretty_N_char (x `mod` 10)%N) = true.
Proof. assert (x `mod` 10 < 10)%N as H by (by apply N.mod_lt). revert H. generalize (x `mod` 10)%N as y. intros y H.
  destruct (decide (y = 0 ∨ y = 1 ∨ y = 2 ∨ y = 3 ∨ y = 4 ∨ y = 5 ∨ y = 6 ∨ y = 7 ∨ y = 8 ∨ y = 9)%N) as [K|]; [|lia].
  by repeat destruct K as [->|K]; subst.
Qed.
Lemma pretty_go_bytes k : ∀ x s, (x < 10 ^ N.of_nat k)%N → forallb id_byte (String.list_ascii_of_string s) = true →
  forallb id_byte (String.list_ascii_of_string (pretty_N_go x s)) = true.
Proof.
  induction k as [|k IH]; intros x s Hx Hs.
  - assert (x = 0%N) as -> by (cbn in Hx; lia). by rewrite pretty_N_go_0.
  - destruct (decide (x = 0%N)) as [->|Hn]; [by rewrite pretty_N_go_0|]. rewrite pretty_N_go_step by lia.
    apply IH; [|cbn [String.list_ascii_of_string forallb]; by rewrite digit_byte]. apply N.Div0.div_lt_upper_bound. rewrite Nat2N.inj_succ, N.pow_succ_r' in Hx. lia.
Qed.
(** The ids a host numbers its requests with are valid. *)
Lemma numbered_id n : word 64 n → RequestId_new ("vm-req-" +:+ pretty n) = Ok (mkRequestId ("vm-req-" +:+ pretty n)).
Proof.
  intros Hn. unfold word in Hn.
  assert (∃ s, pretty n = s ∧ (String.length s ≤ 20)%nat ∧ forallb id_byte (String.list_ascii_of_string s) = true) as (s & -> & Hl & Hb).
  { eexists. split; [done|]. destruct n as [|p|p]; [by vm_compute; split; [lia|]| |lia].
    change (pretty (Zpos p)) with (pretty (Npos p)). unfold pretty, pretty_N. rewrite decide_False by done.
    split; [etrans; [apply (pretty_go_length 20)|]|apply (pretty_go_bytes 20); [|done]]; [|done|]; change (10 ^ N.of_nat 20)%N with 100000000000000000000%N; lia. }
  unfold RequestId_new.
  change (String.length ("vm-req-" +:+ s)) with (7 + String.length s)%nat.
  change (forallb id_byte (String.list_ascii_of_string ("vm-req-" +:+ s))) with (forallb id_byte (String.list_ascii_of_string s)).
  rewrite (proj2 (Z.eqb_neq _ _)) by lia. rewrite (proj2 (Z.ltb_ge _ _)) by (unfold MAX_LEN; lia).
  rewrite Hb. done.
Qed.
