(* ===== verification/Framing.v ===== *)
(** Frames of the control protocol: [rish-guest-protocol/src/framing.rs].

    A frame is a four-byte big-endian length and a JSON payload. The JSON library
    is a parameter: the interface [Serde] has its two functions, and [reads_back]
    says of an envelope that the library reads it back from what it writes. The decoder keeps the source's buffer
    and read position; its theorems speak of the bytes not yet read. *)
From stdpp Require Import strings.
From S2P Require Import Prelude.
From S2P Require Import NetWire.
From S2P Require Import Protocol.
Local Open Scope Z_scope.

Definition PREFIX_SIZE : Z := 4.
Definition BUFFERED_FRAME_BUDGET : Z := 2.

(** [serde_json::to_vec] and [serde_json::from_slice] at the type of envelopes; the
    errors are the library's messages. *)
Class Serde (Value : Type) := mkSerde {
  to_vec : Envelope Value → result string (list Z);
  from_slice : list Z → result string (Envelope Value)
}.
(** The library's round trip, which holds of an envelope as long as the JSON values in
    it are not nested deeper than the parser's limit and have no numbers it rounds. *)
Definition reads_back {Value : Type} `{Serde Value} (e : Envelope Value) : Prop :=
  ∀ bs, to_vec e = Ok bs → from_slice bs = Ok e.

Inductive FrameError :=
  | InvalidMaximum (max : Z)
  | FrameTooLarge (size max : Z)
  | BufferTooLarge (size max : Z)
  | Serialization (message : string)
  | Deserialization (message : string)
  | ProtocolMismatch (expected received : string)
  | FrameVersionMismatch (expected received : ProtocolVersion)
  | DecoderPoisoned.

(** [usize] is 64 bits wide. *)
Definition validate_maximum (max : Z) : result FrameError () :=
  if (max =? 0) || (2 ^ 32 <=? max) || (2 ^ 64 <=? max + PREFIX_SIZE) then Err (InvalidMaximum max) else Ok ().
Definition buffer_limit (max : Z) : Z :=
  let one_frame := max + PREFIX_SIZE in
  if one_frame * BUFFERED_FRAME_BUDGET <? 2 ^ 64 then one_frame * BUFFERED_FRAME_BUDGET else one_frame.

Section framing.
Context {Value : Type} `{Serde Value}.

(** ** Encoder *)

Record FrameEncoder := mkEncoder { enc_max_frame_size : Z }.
Definition FrameEncoder_new (max : Z) : result FrameError FrameEncoder :=
  let? _ := validate_maximum max in Ok (mkEncoder max).
Definition FrameEncoder_default : FrameEncoder := mkEncoder DEFAULT_MAX_FRAME_SIZE.
Definition enc_set_max_frame_size (max : Z) (e : FrameEncoder) : result FrameError FrameEncoder :=
  let? _ := validate_maximum max in Ok (mkEncoder max).

Definition encode (e : FrameEncoder) (envelope : Envelope Value) : result FrameError (list Z) :=
  if negb (bool_decide (protocol envelope = PROTOCOL_ID))
  then Err (ProtocolMismatch PROTOCOL_ID (protocol envelope))
  else
    let? payload := map_err Serialization (to_vec envelope) in
    if enc_max_frame_size e <? len payload then Err (FrameTooLarge (len payload) (enc_max_frame_size e))
    else if 2 ^ 32 <=? len payload then Err (FrameTooLarge (len payload) (enc_max_frame_size e))
    else Ok (to_be_bytes 4 (len payload) ++ payload).

(** ** Decoder *)

Record FrameDecoder := mkDecoder {
  buffer : list Z;
  read_position : Z;
  initial_max_frame_size : Z;
  dec_max_frame_size : Z;
  max_buffer_size : Z;
  expected_version : option ProtocolVersion;
  poisoned : bool
}.
#[export] Instance FrameDecoder_eta : Settable FrameDecoder := λ d,
  mkDecoder (buffer d) (read_position d) (initial_max_frame_size d) (dec_max_frame_size d) (max_buffer_size d)
    (expected_version d) (poisoned d).

Definition FrameDecoder_new (max : Z) : result FrameError FrameDecoder :=
  let? _ := validate_maximum max in Ok (mkDecoder [] 0 max max (buffer_limit max) None false).
Definition FrameDecoder_default : FrameDecoder :=
  mkDecoder [] 0 DEFAULT_MAX_FRAME_SIZE DEFAULT_MAX_FRAME_SIZE (buffer_limit DEFAULT_MAX_FRAME_SIZE) None false.
Definition set_expected_version (v : option ProtocolVersion) (d : FrameDecoder) : FrameDecoder :=
  d <| expected_version := v |>.
Definition with_expected_version (max : Z) (v : ProtocolVersion) : result FrameError FrameDecoder :=
  let? d := FrameDecoder_new max in Ok (set_expected_version (Some v) d).
Definition buffered_len (d : FrameDecoder) : Z := Z.max 0 (len (buffer d) - read_position d).
Definition remaining_buffer_capacity (d : FrameDecoder) : Z := Z.max 0 (max_buffer_size d - buffered_len d).

(** [poison] returns its error; the result type is the caller's. *)
Definition poison {A} (error : FrameError) : st FrameDecoder FrameError A := λ d,
  (Err error, d <| buffer := [] |> <| read_position := 0 |> <| poisoned := true |>).
Definition compact_if_useful (d : FrameDecoder) : FrameDecoder :=
  if read_position d =? len (buffer d) then d <| buffer := [] |> <| read_position := 0 |>
  else if (4096 <=? read_position d) && (len (buffer d) <=? read_position d * 2)
  then d <| buffer ::= drop (Z.to_nat (read_position d)) |> <| read_position := 0 |>
  else d.
Definition dec_reset (d : FrameDecoder) : FrameDecoder :=
  mkDecoder [] 0 (initial_max_frame_size d) (initial_max_frame_size d) (buffer_limit (initial_max_frame_size d)) None false.

Definition dec_set_max_frame_size (max : Z) : st FrameDecoder FrameError () := λ d,
  match validate_maximum max with
  | Err e => (Err e, d)
  | Ok _ =>
      let limit := buffer_limit max in
      if limit <? buffered_len d then poison (BufferTooLarge (buffered_len d) limit) d
      else (Ok (), d <| dec_max_frame_size := max |> <| max_buffer_size := limit |>)
  end.

Definition push (bytes : list Z) : st FrameDecoder FrameError () := λ d,
  if poisoned d then (Err DecoderPoisoned, d)
  else
    let d := compact_if_useful d in
    let size := buffered_len d + len bytes in
    if max_buffer_size d <? size then poison (BufferTooLarge size (max_buffer_size d)) d
    else (Ok (), d <| buffer ::= λ b, b ++ bytes |>).

Definition next_frame : st FrameDecoder FrameError (option (Envelope Value)) := λ d,
  if poisoned d then (Err DecoderPoisoned, d)
  else if buffered_len d <? PREFIX_SIZE then (Ok None, d)
  else
    let header_start := read_position d in
    let payload_size := from_be_bytes (slice (buffer d) header_start PREFIX_SIZE) in
    if dec_max_frame_size d <? payload_size then poison (FrameTooLarge payload_size (dec_max_frame_size d)) d
    else if buffered_len d <? PREFIX_SIZE + payload_size then (Ok None, d)
    else
      let payload_start := header_start + PREFIX_SIZE in
      let decoded := map_err Deserialization (from_slice (slice (buffer d) payload_start payload_size)) in
      let d := d <| read_position := payload_start + payload_size |> in
      match decoded with
      | Err error => poison error d
      | Ok envelope =>
          if negb (bool_decide (protocol envelope = PROTOCOL_ID))
          then poison (ProtocolMismatch PROTOCOL_ID (protocol envelope)) d
          else
            match expected_version d with
            | Some expected =>
                if negb (bool_decide (version envelope = expected))
                then poison (FrameVersionMismatch expected (version envelope)) d
                else (Ok (Some envelope), compact_if_useful d)
            | None => (Ok (Some envelope), compact_if_useful d)
            end
      end.

(** [while let Some(frame) = decoder.next_frame()? { .. }]: a frame takes at least
    its prefix, so the number of buffered bytes is enough fuel. *)
Fixpoint frames_loop (fuel : nat) : st FrameDecoder FrameError (list (Envelope Value)) :=
  match fuel with
  | O => sret []
  | S fuel =>
      let! frame := next_frame in
      match frame with
      | None => sret []
      | Some frame => let! frames := frames_loop fuel in sret (frame :: frames)
      end
  end.
Definition frames : st FrameDecoder FrameError (list (Envelope Value)) := λ d,
  frames_loop (S (Z.to_nat (buffered_len d))) d.
(** The reads of a transport: each is pushed and its frames taken. *)
Fixpoint feed (reads : list (list Z)) : st FrameDecoder FrameError (list (Envelope Value)) :=
  match reads with
  | [] => sret []
  | bytes :: reads =>
      let! _ := push bytes in
      let! first := frames in
      let! rest := feed reads in
      sret (first ++ rest)
  end.
End framing.

(** ** Frames survive any division into reads *)

Definition unread (d : FrameDecoder) : list Z := drop (Z.to_nat (read_position d)) (buffer d).

Record dec_ok (d : FrameDecoder) : Prop := mk_dec_ok {
  do_position : 0 ≤ read_position d ≤ len (buffer d);
  do_max : 0 < dec_max_frame_size d < 2 ^ 32;
  do_limit : max_buffer_size d = 2 * (dec_max_frame_size d + PREFIX_SIZE);
  do_live : poisoned d = false
}.
(** The fields the reads of a session do not change. *)
Definition same_limits (d d' : FrameDecoder) : Prop :=
  dec_max_frame_size d' = dec_max_frame_size d ∧ max_buffer_size d' = max_buffer_size d ∧
  expected_version d' = expected_version d.

Lemma buffered_unread d : dec_ok d → buffered_len d = len (unread d).
Proof. intros []. unfold buffered_len, unread, len in *. rewrite length_drop. lia. Qed.
Lemma compact_ok d : dec_ok d → dec_ok (compact_if_useful d) ∧ unread (compact_if_useful d) = unread d ∧
  same_limits d (compact_if_useful d).
Proof.
  intros []. unfold compact_if_useful. destruct (Z.eqb_spec (read_position d) (len (buffer d))) as [E|E].
  - split; [by split; cbn; try done; unfold len; cbn; lia|]. split; [|done]. unfold unread. cbn. rewrite E.
    unfold len. by rewrite Nat2Z.id, drop_all.
  - destruct (_ && _); [|split; [by split|done]]. split; [|done]. split; cbn; try done. unfold len. lia.
Qed.

(** ** The loop over frames ends *)

Lemma compact_buffered d : 0 ≤ read_position d → read_position d ≤ len (buffer d) →
  buffered_len (compact_if_useful d) = buffered_len d.
Proof.
  intros Hp Hl. unfold compact_if_useful, buffered_len.
  destruct (Z.eqb_spec (read_position d) (len (buffer d))) as [E|E]; [cbn; unfold len in *; cbn; lia|].
  destruct (_ && _); [|done]. cbn. unfold len in *. rewrite length_drop. lia.
Qed.
Definition in_buffer (d : FrameDecoder) : Prop := 0 ≤ read_position d ≤ len (buffer d) ∧ Forall (word 8) (buffer d).
Lemma compact_in_buffer d : in_buffer d → in_buffer (compact_if_useful d).
Proof.
  intros [Hp Hb]. unfold compact_if_useful. destruct (_ =? _); [split; [cbn; unfold len; cbn; lia|by constructor]|].
  destruct (_ && _); [|by split]. split; cbn; [unfold len; lia|by apply Forall_drop].
Qed.

(** A frame takes its prefix out of the buffer. *)
Lemma next_frame_progress {Value} `{Serde Value} d e d' : in_buffer d → next_frame d = (Ok (Some e), d') →
  in_buffer d' ∧ buffered_len d' + PREFIX_SIZE ≤ buffered_len d.
Proof.
  intros [Hp Hb] Hn. unfold next_frame in Hn. destruct (poisoned d); [done|].
  destruct (Z.ltb_spec (buffered_len d) PREFIX_SIZE) as [|Hpre]; [done|]. cbv zeta in Hn.
  set (size := from_be_bytes _) in Hn. assert (0 ≤ size) as Hs.
  { refine (proj1 (from_be_word _ _ (Z.le_refl _) _)). by apply Forall_slice. }
  destruct (_ <? size); [done|]. destruct (Z.ltb_spec (buffered_len d) (PREFIX_SIZE + size)) as [|Hsz]; [done|].
  destruct (map_err _ _) as [env|]; [|done]. destruct (negb _); [done|]. set (d1 := d <| read_position := _ |>) in Hn.
  assert (in_buffer d1) as Hd1. { split; [|done]. unfold buffered_len, PREFIX_SIZE in *. cbn. lia. }
  assert (d' = compact_if_useful d1) as ->.
  { destruct (expected_version d1) as [v|]; [destruct (negb _); [done|]|]; by injection Hn. }
  split; [by apply compact_in_buffer|]. rewrite compact_buffered by (destruct Hd1; lia).
  unfold buffered_len, PREFIX_SIZE in *. cbn. lia.
Qed.
Lemma frames_loop_fuel {Value} `{Serde Value} n : ∀ n' d, in_buffer d → buffered_len d < Z.of_nat n → buffered_len d < Z.of_nat n' →
  frames_loop n d = frames_loop n' d.
Proof.
  induction n as [|n IH]; intros [|n'] d Hd Hn Hn'; try (unfold buffered_len in *; lia). cbn [frames_loop]. unfold sbind.
  destruct (next_frame d) as [[[e|]|] d1] eqn:En; [|done|done]. destruct (next_frame_progress _ _ _ Hd En) as [Hd1 Hl].
  unfold PREFIX_SIZE in Hl. by rewrite (IH n' d1) by (done || lia).
Qed.

Section roundtrip.
Context {Value : Type} `{Serde Value}.
Definition frame_of (m : Z) (e : Envelope Value) (f : list Z) : Prop := encode (mkEncoder m) e = Ok f ∧ reads_back e.

Lemma encode_inv m e (f : list Z) : frame_of m e f →
  ∃ payload, from_slice payload = Ok e ∧ f = to_be_bytes 4 (len payload) ++ payload ∧
    len payload ≤ m ∧ len payload < 2 ^ 32 ∧ protocol e = PROTOCOL_ID.
Proof.
  intros [Hf Hb]. revert Hf. unfold encode. case_bool_decide as Ep; [|done]. cbn [negb].
  destruct (to_vec e) as [payload|] eqn:Et; [|done]. cbn.
  destruct (Z.ltb_spec m (len payload)); [done|]. destruct (Z.leb_spec (2 ^ 32) (len payload)); [done|].
  intros [= <-]. exists payload. split_and!; try done. by apply Hb.
Qed.

(** The prefix of what is unread. *)
Lemma unread_slice d k n : dec_ok d → 0 ≤ k → 0 ≤ n → slice (buffer d) (read_position d + k) n = slice (unread d) k n.
Proof.
  intros [] Hk Hn. unfold slice, unread. rewrite drop_drop. f_equal. f_equal. lia.
Qed.

Lemma next_frame_whole d e f m tail : dec_ok d → frame_of m e f → m ≤ dec_max_frame_size d →
  unread d = f ++ tail → (∀ v, expected_version d = Some v → version e = v) →
  ∃ d', next_frame d = (Ok (Some e), d') ∧ dec_ok d' ∧ unread d' = tail ∧ same_limits d d'.
Proof.
  intros Hd Hf Hm Hu Hv. destruct (encode_inv _ _ _ Hf) as (payload & Hs & -> & Hl & Hl32 & Hp).
  pose proof (len_nonneg payload) as H0. pose proof (len_nonneg tail) as Ht0. pose proof (buffered_unread d Hd) as Hb.
  rewrite Hu, !len_app, len_to_be_bytes in Hb by lia.
  unfold next_frame. rewrite (do_live _ Hd), (proj2 (Z.ltb_ge (buffered_len d) _)) by (unfold PREFIX_SIZE; lia).
  assert (slice (buffer d) (read_position d) PREFIX_SIZE = to_be_bytes 4 (len payload)) as ->.
  { rewrite <- (Z.add_0_r (read_position d)), unread_slice, Hu by done. unfold slice. rewrite drop_0, <- app_assoc.
    apply take_app_length'. pose proof (len_to_be_bytes 4 (len payload)). unfold len, PREFIX_SIZE in *. lia. }
  rewrite be_bytes4_value by (split; lia). rewrite (proj2 (Z.ltb_ge (dec_max_frame_size d) _)) by lia.
  rewrite (proj2 (Z.ltb_ge (buffered_len d) _)) by (unfold PREFIX_SIZE; lia).
  assert (slice (buffer d) (read_position d + PREFIX_SIZE) (len payload) = payload) as ->.
  { rewrite unread_slice, Hu by done. rewrite <- app_assoc. 
    replace PREFIX_SIZE with (len (to_be_bytes 4 (len payload))) by (by rewrite len_to_be_bytes).
    unfold slice, len. rewrite !Nat2Z.id, drop_app_length. apply take_app_length. }
  rewrite Hs. cbn [map_err]. rewrite bool_decide_true by done. cbn [negb].
  set (d1 := d <| read_position := read_position d + PREFIX_SIZE + len payload |>).
  assert (dec_ok d1 ∧ unread d1 = tail) as [Hd1 Hu1].
  { split.
    - destruct Hd. split; try done. cbn. unfold buffered_len, PREFIX_SIZE in *. lia.
    - unfold unread. cbn. assert (read_position d + PREFIX_SIZE + len payload = read_position d + len (to_be_bytes 4 (len payload) ++ payload)) as ->
        by (rewrite len_app, len_to_be_bytes by lia; unfold PREFIX_SIZE; lia).
      destruct Hd. rewrite Z2Nat.inj_add; [|lia|apply len_nonneg]. rewrite <- drop_drop.
      change (drop (Z.to_nat (read_position d)) (buffer d)) with (unread d). rewrite Hu. unfold len. by rewrite Nat2Z.id, drop_app_length. }
  destruct (compact_ok d1 Hd1) as (Hd2 & Hu2 & Hs2). exists (compact_if_useful d1).
  split; [|split; [done|split; [by rewrite Hu2|exact Hs2]]].
  destruct (expected_version d1) as [v|] eqn:Ev; [|done]. by rewrite bool_decide_true by (by apply Hv).
Qed.

(** Part of a frame is not a frame yet. *)
Lemma next_frame_partial d e f m : dec_ok d → frame_of m e f → m ≤ dec_max_frame_size d →
  unread d `prefix_of` f → len (unread d) < len f → next_frame d = (Ok None, d).
Proof.
  intros Hd Hf Hm [tail Hu] Hlt. destruct (encode_inv _ _ _ Hf) as (payload & Hs & Ef & Hl & Hl32 & Hp).
  pose proof (buffered_unread d Hd) as Hb. pose proof (len_nonneg payload) as Hl0.
  unfold next_frame. rewrite (do_live _ Hd). destruct (Z.ltb_spec (buffered_len d) PREFIX_SIZE); [done|].
  assert (slice (buffer d) (read_position d) PREFIX_SIZE = to_be_bytes 4 (len payload)) as ->.
  { rewrite <- (Z.add_0_r (read_position d)), unread_slice by done.
    assert (slice f 0 PREFIX_SIZE = to_be_bytes 4 (len payload)) as <-.
    { rewrite Ef. unfold slice. rewrite drop_0. apply take_app_length'. pose proof (len_to_be_bytes 4 (len payload)).
      unfold len, PREFIX_SIZE in *. lia. }
    rewrite Hu. unfold slice. rewrite !drop_0. symmetry. apply take_app_le. unfold PREFIX_SIZE, len in *. lia. }
  rewrite be_bytes4_value by (split; lia). rewrite (proj2 (Z.ltb_ge (dec_max_frame_size d) _)) by lia.
  rewrite Ef, len_app, len_to_be_bytes in Hlt by lia.
  by rewrite (proj2 (Z.ltb_lt (buffered_len d) _)) by (unfold PREFIX_SIZE; lia).
Qed.
Lemma next_frame_empty d : dec_ok d → unread d = [] → next_frame d = (Ok None, d).
Proof.
  intros Hd Hu. pose proof (buffered_unread d Hd) as Hb. rewrite Hu in Hb. unfold next_frame. rewrite (do_live _ Hd).
  by rewrite Hb.
Qed.

(** What follows the whole frames: nothing, or part of the next one. *)
Definition encoded (m : Z) (es : list (Envelope Value)) (fs : list (list Z)) : Prop :=
  Forall2 (frame_of m) es fs.
Definition partial (fs : list (list Z)) (tail : list Z) : Prop :=
  match fs with [] => tail = [] | f :: _ => tail `prefix_of` f ∧ len tail < len f end.
Definition versions_ok (d : FrameDecoder) (es : list (Envelope Value)) : Prop :=
  ∀ v, expected_version d = Some v → Forall (λ e, version e = v) es.

Lemma encode_len m e f : encode (mkEncoder m) e = Ok f → 4 ≤ len f ≤ m + 4.
Proof.
  unfold encode. destruct (negb _); [done|]. destruct (to_vec e) as [payload|]; [|done]. cbn.
  destruct (Z.ltb_spec m (len payload)); [done|]. destruct (_ <=? len payload); [done|]. intros [= <-].
  change (4 ≤ len (to_be_bytes 4 (len payload) ++ payload) ≤ m + 4).
  rewrite len_app, len_to_be_bytes by lia. pose proof (len_nonneg payload). lia.
Qed.
Lemma frame_len m e f : frame_of m e f → 4 ≤ len f ≤ m + 4.
Proof. intros [Hf _]. by eapply encode_len. Qed.

(** A prefix of a stream of frames. *)
Lemma split_frames m es fs p : encoded m es fs → p `prefix_of` concat fs →
  ∃ es1 es2 fs1 fs2 tail, es = es1 ++ es2 ∧ fs = fs1 ++ fs2 ∧ encoded m es1 fs1 ∧ encoded m es2 fs2 ∧
    p = concat fs1 ++ tail ∧ partial fs2 tail.
Proof.
  intros He. revert p. induction He as [|e f es fs Hf He IH]; intros p Hp.
  { destruct Hp as [k Hk]. symmetry in Hk. apply app_eq_nil in Hk as [-> _]. exists [], [], [], [], []. by split_and!; try constructor. }
  cbn [concat] in Hp. destruct (decide (len p < len f)) as [Hlt|Hge].
  - exists [], (e :: es), [], (f :: fs), p. split_and!; try done; [by constructor|by constructor|].
    split; [|done]. destruct Hp as [k Hp]. exists (drop (length p) f). unfold len in Hlt.
    assert (take (length p) (f ++ concat fs) = p) as Ep by (by rewrite Hp, take_app_length).
    rewrite take_app_le in Ep by lia. rewrite <- (take_drop (length p) f) at 1. by rewrite Ep.
  - destruct Hp as [k Hp]. assert (p = f ++ drop (length f) p) as Ep.
    { rewrite <- (take_drop (length f) p) at 1. f_equal. unfold len in Hge.
      rewrite <- (take_app_le p k) by lia. rewrite <- Hp. by rewrite take_app_length. }
    destruct (IH (drop (length f) p)) as (es1 & es2 & fs1 & fs2 & tail & -> & -> & H1 & H2 & Ht & Hpart).
    { exists k. rewrite Ep, <- app_assoc in Hp. by apply app_inv_head in Hp. }
    exists (e :: es1), es2, (f :: fs1), fs2, tail. split_and!; try done; [by constructor|].
    cbn [concat]. by rewrite <- app_assoc, <- Ht.
Qed.

Lemma frames_loop_spec fuel m es fs tail next d : encoded m es fs → partial next tail → (∃ es', encoded m es' next) →
  dec_ok d → m ≤ dec_max_frame_size d → unread d = concat fs ++ tail → versions_ok d es → (length es < fuel)%nat →
  ∃ d', frames_loop fuel d = (Ok es, d') ∧ dec_ok d' ∧ unread d' = tail ∧ same_limits d d'.
Proof.
  intros He. revert fuel d. induction He as [|e f es fs Hf He IH]; intros [|fuel] d Hpart Hnext Hd Hm Hu Hv Hfuel;
    cbn [length] in Hfuel; try lia; cbn [frames_loop].
  - exists d. split; [|done]. cbn [concat app] in Hu. rewrite (sbind_ok _ _ _ None d); [done|].
    destruct next as [|f next]; [by apply next_frame_empty; [|rewrite Hu]|].
    destruct Hnext as [es' He']. inversion He'; subst. destruct Hpart. by eapply next_frame_partial; rewrite ?Hu.
  - cbn [concat] in Hu. rewrite <- app_assoc in Hu.
    destruct (next_frame_whole d e f m (concat fs ++ tail) Hd Hf Hm Hu) as (d1 & E1 & Hd1 & Hu1 & Hs1).
    { intros v Ev. specialize (Hv v Ev). by apply Forall_cons in Hv as [? _]. }
    destruct Hs1 as (S1 & S2 & S3).
    destruct (IH fuel d1) as (d2 & E2 & Hd2 & Hu2 & (T1 & T2 & T3)); [done|done|done|by rewrite S1|done| |lia|].
    { intros v Ev. rewrite S3 in Ev. specialize (Hv v Ev). by apply Forall_cons in Hv as [_ ?]. }
    exists d2. rewrite (sbind_ok _ _ _ _ _ E1), (sbind_ok _ _ _ _ _ E2). unfold same_limits.
    split_and!; try done; congruence.
Qed.

Lemma push_ok d bytes : dec_ok d → len (unread d) + len bytes ≤ max_buffer_size d →
  ∃ d', push bytes d = (Ok (), d') ∧ dec_ok d' ∧ unread d' = unread d ++ bytes ∧ same_limits d d'.
Proof.
  intros Hd Hl. unfold push. rewrite (do_live _ Hd). destruct (compact_ok d Hd) as (Hd1 & Hu1 & (S1 & S2 & S3)).
  rewrite (buffered_unread _ Hd1), Hu1, S2, (proj2 (Z.ltb_ge _ _) Hl).
  exists ((compact_if_useful d) <| buffer ::= λ b, b ++ bytes |>). split; [done|].
  destruct Hd1. pose proof (len_nonneg bytes). split; [|split; [|exact (conj S1 (conj S2 S3))]].
  - split; cbn; try done. rewrite len_app. lia.
  - unfold unread in *. cbn. rewrite drop_app_le by (unfold len in *; lia). by rewrite Hu1.
Qed.

(** A decoder that has read part of a stream of frames, [reads] still to come. *)
Record receiving (m : Z) (es : list (Envelope Value)) (reads : list (list Z)) (d : FrameDecoder) : Prop := mk_receiving {
  rc_ok : dec_ok d;
  rc_max : dec_max_frame_size d = m;
  rc_frames : ∃ fs, encoded m es fs ∧ partial fs (unread d) ∧ unread d ++ concat reads = concat fs;
  rc_reads : Forall (λ r, len r ≤ m + PREFIX_SIZE) reads;
  rc_versions : versions_ok d es
}.

Lemma frames_fuel m es fs : encoded m es fs → len es ≤ len (concat fs).
Proof.
  induction 1 as [|e f es fs Hf _ IH]; [done|]. apply frame_len in Hf. cbn [concat]. rewrite len_cons, len_app. lia.
Qed.

(** One read: it is accepted, and the frames it completes are returned. *)
Lemma read_step m es r reads d : receiving m es (r :: reads) d →
  ∃ es1 es2 d1 d2, es = es1 ++ es2 ∧ push r d = (Ok (), d1) ∧ frames d1 = (Ok es1, d2) ∧ receiving m es2 reads d2.
Proof.
  intros [Hd Em (fs & He & Hpart & Hcat) Hr Hv]. apply Forall_cons in Hr as [Hr Hrs]. cbn [concat] in Hcat.
  rewrite app_assoc in Hcat. set (tail := unread d) in *. assert (len tail ≤ m + 4) as Htail.
  { destruct fs as [|f fs]; [cbn in Hpart; rewrite Hpart; unfold len; cbn; destruct Hd; lia|].
    inversion He as [|e ? es' ? Hf]; subst. apply frame_len in Hf. destruct Hpart. lia. }
  destruct (push_ok d r Hd) as (d1 & E1 & Hd1 & Hu1 & (S1 & S2 & S3)).
  { destruct Hd. rewrite do_limit0. rewrite Em. fold tail. unfold PREFIX_SIZE in *. lia. }
  destruct (split_frames m es fs (tail ++ r) He) as (es1 & es2 & fs1 & fs2 & tail' & -> & -> & H1 & H2 & Ht & Hp2).
  { exists (concat reads). done. }
  assert (versions_ok d1 es1 ∧ versions_ok d1 es2) as [Hv1 Hv2].
  { split; intros v Ev; rewrite S3 in Ev; specialize (Hv v Ev); apply Forall_app in Hv as [? ?]; done. }
  destruct (frames_loop_spec (S (Z.to_nat (buffered_len d1))) m es1 fs1 tail' fs2 d1) as (d2 & E2 & Hd2 & Hu2 & (T1 & T2 & T3));
    [done|done|by exists es2|done|by rewrite S1, Em|by rewrite Hu1|done| |].
  { rewrite (buffered_unread _ Hd1), Hu1. fold tail. rewrite Ht, len_app. pose proof (frames_fuel _ _ _ H1).
    pose proof (len_nonneg tail'). unfold len in *. lia. }
  exists es1, es2, d1, d2. split_and!; [done|done|done|]. split; [done|by rewrite T1, S1| |done|].
  - exists fs2. rewrite Hu2. split_and!; [done|done|]. rewrite concat_app in Hcat. rewrite Ht, <- app_assoc in Hcat.
    by apply app_inv_head in Hcat.
  - intros v Ev. rewrite T3 in Ev. by apply Hv2.
Qed.

(** A decoder with an empty buffer, at the start of a stream of frames. *)
Lemma receiving_start m es fs reads d : dec_ok d → unread d = [] → dec_max_frame_size d = m → encoded m es fs →
  concat reads = concat fs → Forall (λ r, len r ≤ m + PREFIX_SIZE) reads → versions_ok d es → receiving m es reads d.
Proof.
  intros Hd Hu Em He Hcat Hr Hv. split; try done. exists fs. rewrite Hu. split_and!; try done. destruct fs as [|f fs]; [done|].
  inversion He as [|e ? es' ? Hf]; subst. split; [apply prefix_nil|]. apply frame_len in Hf. change (len []) with 0. lia.
Qed.
Lemma encoded_frames m es fs : Forall2 (λ e f, encode (mkEncoder m) e = Ok f) es fs → Forall reads_back es → encoded m es fs.
Proof.
  intros He Hb. induction He as [|e f es fs Hf _ IH]; [constructor|]. apply Forall_cons in Hb as [? ?].
  constructor; [done|by apply IH].
Qed.
Lemma receiving_done m es d : receiving m es [] d → es = [] ∧ unread d = [].
Proof.
  intros [Hd Em (fs & He & Hpart & Hcat) _ _]. cbn [concat] in Hcat. rewrite app_nil_r in Hcat. destruct fs as [|f fs].
  - by inversion He.
  - destruct Hpart as [_ Hlt]. exfalso. rewrite Hcat in Hlt. cbn [concat] in Hlt. rewrite len_app in Hlt.
    pose proof (len_nonneg (concat fs)). lia.
Qed.
Lemma feed_spec reads : ∀ m es d, receiving m es reads d →
  ∃ d', feed reads d = (Ok es, d') ∧ unread d' = [] ∧ dec_ok d'.
Proof.
  induction reads as [|r reads IH]; intros m es d Hrc; cbn [feed].
  { destruct (receiving_done _ _ _ Hrc) as [-> Hu]. exists d. by destruct Hrc. }
  destruct (read_step _ _ _ _ _ Hrc) as (es1 & es2 & d1 & d2 & -> & E1 & E2 & Hrc2).
  destruct (IH m es2 d2 Hrc2) as (d3 & E3 & Hu3 & Hd3). exists d3.
  by rewrite (sbind_ok _ _ _ _ _ E1), (sbind_ok _ _ _ _ _ E2), (sbind_ok _ _ _ _ _ E3).
Qed.
End roundtrip.

(** C30: What one side of the control channel encodes the other decodes, however the
    transport divides the bytes: if every read holds at most one maximal frame, and the
    JSON library reads back each envelope from what it writes for it, the decoder returns exactly the envelopes that were encoded, in order, is not
    poisoned, and has nothing left over. *)
Theorem frames_survive_chunking {Value : Type} `{Serde Value} (m : Z) (v : option ProtocolVersion) (d : FrameDecoder)
    (es : list (Envelope Value)) (fs reads : list (list Z)) :
  FrameDecoder_new m = Ok d → 0 ≤ m →
  Forall2 (λ e f, encode (mkEncoder m) e = Ok f) es fs → Forall reads_back es →
  (∀ expected, v = Some expected → Forall (λ e, version e = expected) es) →
  concat reads = concat fs → Forall (λ r, len r ≤ m + PREFIX_SIZE) reads →
  ∃ d', feed reads (set_expected_version v d) = (Ok es, d') ∧ buffered_len d' = 0 ∧ poisoned d' = false.
Proof.
  intros Hd Hm0 He Hback Hv Hcat Hr. unfold FrameDecoder_new, validate_maximum in Hd. destruct (_ || _) eqn:Em; [done|].
  injection Hd as <-. rewrite !orb_false_iff in Em. destruct Em as [[E1 E2] E3].
  apply Z.eqb_neq in E1. apply Z.leb_gt in E2, E3. set (d := set_expected_version _ _).
  assert (dec_ok d) as Hd.
  { split; cbn; try done; [lia|]. unfold buffer_limit, BUFFERED_FRAME_BUDGET, PREFIX_SIZE in *.
    rewrite (proj2 (Z.ltb_lt _ _)) by lia. lia. }
  destruct (feed_spec reads m es d) as (d' & E & Hu & Hd').
  - apply (receiving_start m es fs); try done. by apply encoded_frames.
  - exists d'. split_and!; [done| |by destruct Hd']. by rewrite buffered_unread, Hu.
Qed.

(** A codec that knows heartbeats with small numbers. *)
Definition beat (n t : Z) : Envelope () :=
  mkEnvelope PROTOCOL_ID CURRENT_PROTOCOL_VERSION (MEvent (mkEvent n t None Heartbeat)).
Definition small (n : Z) : bool := (0 <=? n) && (n <? 256).
Definition beat_fields (e : Envelope ()) : option (Z * Z) :=
  match e with
  | mkEnvelope _ _ (MEvent (mkEvent n t None Heartbeat)) => if small n && small t then Some (n, t) else None
  | _ => None
  end.
#[local] Instance beat_serde : Serde () := {|
  to_vec e :=
    match beat_fields e with
    | Some (n, t) =>
        if bool_decide (protocol e = PROTOCOL_ID) && bool_decide (version e = CURRENT_PROTOCOL_VERSION)
        then Ok [n; t] else Err "unsupported"
    | None => Err "unsupported"
    end;
  from_slice bs := match bs with [n; t] => Ok (beat n t) | _ => Err "malformed" end
|}.
Lemma beat_fields_inv e n t : beat_fields e = Some (n, t) →
  message e = MEvent (mkEvent n t None Heartbeat) ∧ small n = true ∧ small t = true.
Proof.
  destruct e as [p v [| | | |[n' t' [|] []]]]; cbn; try done. destruct (small n' && small t') eqn:Es; [|done].
  intros [= <- <-]. apply andb_prop in Es. done.
Qed.
Lemma beat_to_vec e bs : to_vec e = Ok bs → ∃ n t, e = beat n t ∧ bs = [n; t] ∧ small n = true ∧ small t = true.
Proof.
  cbn. destruct (beat_fields e) as [[n t]|] eqn:Ef; [|done]. apply beat_fields_inv in Ef as (Em & Hn & Ht).
  destruct (bool_decide _ && _) eqn:Eb; [|done]. apply andb_prop in Eb as [Ep%bool_decide_eq_true Ev%bool_decide_eq_true].
  intros [= <-]. exists n, t. destruct e; cbn in *; by subst.
Qed.
Lemma beat_reads_back e : reads_back e.
Proof. by intros bs (n & t & -> & -> & Hn & Ht)%beat_to_vec. Qed.
Lemma frames_survive_chunking_witness :
  ∃ fs, Forall2 (λ e f, encode (mkEncoder 64) e = Ok f) [beat 1 5; beat 2 6] fs ∧
  ∃ d', feed [take 3 (concat fs); drop 3 (concat fs)]
          (set_expected_version (Some CURRENT_PROTOCOL_VERSION) (mkDecoder [] 0 64 64 (buffer_limit 64) None false))
        = (Ok [beat 1 5; beat 2 6], d') ∧ buffered_len d' = 0 ∧ poisoned d' = false.
Proof.
  exists [[0; 0; 0; 2; 1; 5]; [0; 0; 0; 2; 2; 6]]. split; [by repeat constructor|].
  apply (frames_survive_chunking 64 (Some CURRENT_PROTOCOL_VERSION) (mkDecoder [] 0 64 64 (buffer_limit 64) None false)
    [beat 1 5; beat 2 6] [[0; 0; 0; 2; 1; 5]; [0; 0; 0; 2; 2; 6]]).
  - by vm_compute.
  - done.
  - by repeat constructor.
  - apply Forall_forall. intros e _. apply beat_reads_back.
  - intros expected [= <-]. by repeat constructor.
  - done.
  - by repeat constructor.
Defined.
