(* ===== verification/Session.v ===== *)
(** The host's side of a control session: [rish-guest-protocol/src/session.rs].

    The byte transport and the host's queued standard input are interfaces, as the
    traits of the source are; base64 is the library's, a parameter. A computation
    threads the client, the transport and the caller's state through [st]. The
    loops are bounded by the step budget, which is their recursion argument. *)
From stdpp Require Import strings gmap pretty.
From S2P Require Import Prelude.
From S2P Require Import NetWire.
From S2P Require Import Protocol.
From S2P Require Import Framing.
Local Open Scope Z_scope.

Definition MAX_EXEC_STREAM_BYTES : Z := 64 * 1024 * 1024.
Definition MAX_FRAMES_PER_EXCHANGE : Z := 100000.

(** [trait SessionIo] over a transport state, and [trait PendingStdin]. *)
Class SessionIo (IO : Type) := mkSessionIo {
  io_write : list Z → IO → Z * IO;
  io_advance : IO → result string (list Z) * IO;
  io_dropped : IO → Z
}.
Class PendingStdin (Q : Type) := mkPendingStdin {
  take_pending : Q → option (list Z) * Q;
  close_requested : Q → bool
}.
(** The [base64] engine. *)
Class Base64 := mkBase64 {
  encode_base64 : list Z → string;
  base64_decode : string → result string (list Z)
}.

Record NegotiatedSession := mkNegotiated { session_id : string; session_version : ProtocolVersion; session_frame_size : Z }.

Inductive SessionError :=
  | Frame (error : FrameError)
  | Advance (message : string)
  | Deadline (advances : Z)
  | DroppedBytes
  | TooManyFrames
  | MissingResponse
  | UnexpectedResponse
  | GuestRejected (message : string)
  | StreamError (message : string)
  | StreamCap
  | NotNegotiated
  | InvalidBudget.

Record ExecOutcome := mkOutcome { exit_code : option Z; signal : option Z; stdout : list Z; stderr : list Z }.

Section session.
Context {Value IO Q : Type} `{Serde Value} `{SessionIo IO} `{PendingStdin Q} `{Base64}.

Record Exchange := mkExchange { response : Response Value; exchange_events : list (Event Value) }.
Record InteractiveStdin := mkInteractive { execution_id : string; source : Q; stdin_closed : bool }.
Record SessionClient := mkClient {
  encoder : FrameEncoder;
  decoder : FrameDecoder;
  negotiated : option NegotiatedSession;
  next_request_id : Z;
  max_advances_per_request : Z;
  interactive : option InteractiveStdin
}.
#[export] Instance SessionClient_eta : Settable SessionClient := λ c,
  mkClient (encoder c) (decoder c) (negotiated c) (next_request_id c) (max_advances_per_request c) (interactive c).

Definition SessionClient_new (max_advances : Z) : result SessionError SessionClient :=
  if max_advances =? 0 then Err InvalidBudget
  else
    let? encoder := map_err Frame (FrameEncoder_new DEFAULT_MAX_FRAME_SIZE) in
    let? decoder := map_err Frame (FrameDecoder_new DEFAULT_MAX_FRAME_SIZE) in
    Ok (mkClient encoder decoder None 1 max_advances None).

(** The state of a computation: the client, the transport, and what the observers
    of the caller have recorded. *)
Record World (Obs : Type) := mkWorld { client : SessionClient; io : IO; seen : Obs }.
#[global] Arguments mkWorld {Obs}.
#[global] Arguments client {Obs}.
#[global] Arguments io {Obs}.
#[global] Arguments seen {Obs}.
#[export] Instance World_eta {Obs} : Settable (World Obs) := λ w, mkWorld (client w) (io w) (seen w).

Section computations.
Context {Obs : Type}.
Definition run (A : Type) : Type := st (World Obs) SessionError A.

(** A frame operation on the decoder. *)
Definition on_decoder {A} (f : st FrameDecoder FrameError A) : run A := λ w,
  let '(r, d) := f (decoder (client w)) in
  (map_err Frame r, w <| client ::= λ c, c <| decoder := d |> |>).
Definition advance : run (list Z) := λ w,
  let '(r, i) := io_advance (io w) in (map_err Advance r, w <| io := i |>).

(** The loop of [write_frame] on the bytes still to be written; [turns] advances
    remain. *)
Fixpoint write_loop (turns : nat) (advances : Z) (bytes : list Z) : run () := λ w,
  match bytes with
  | [] => (Ok (), w)
  | _ =>
      let '(n, i) := io_write bytes (io w) in
      let w := w <| io := i |> in
      match drop (Z.to_nat n) bytes with
      | [] => (Ok (), w)
      | rest =>
          match turns with
          | O => (Err (Deadline advances), w)
          | S turns =>
              match advance w with
              | (Err e, w) => (Err e, w)
              | (Ok _, w) => write_loop turns (advances + 1) rest w
              end
          end
      end
  end.
Definition write_frame (envelope : Envelope Value) (max_advances : Z) : run () := λ w,
  match encode (encoder (client w)) envelope with
  | Err e => (Err (Frame e), w)
  | Ok frame => write_loop (Z.to_nat max_advances) 0 frame w
  end.

(** [RequestId::new(format!("vm-req-{}", ..))], and the next number. *)
Definition fresh_id : run RequestId := λ w,
  let n := next_request_id (client w) in
  match RequestId_new ("vm-req-" +:+ pretty n) with
  | Err e => (Err (StreamError (identifier_text e)), w)
  | Ok id => (Ok id, w <| client ::= λ c, c <| next_request_id := saturating_add 64 n 1 |> |>)
  end.

Definition write_stream_action (execution_id : string) (action : StreamAction) (v : ProtocolVersion) : run () :=
  let! id := fresh_id in
  let! budget := sread (λ w, Ok (max_advances_per_request (client w))) in
  write_frame (Protocol.with_version v (MRequest (mkRequest id (StreamOp (mkStreamRequest execution_id action))))) budget.

(** The frames of [write_pending_stdin]. *)
Definition write_pending_frames (id : string) (pending : option (list Z)) (close : bool) (v : ProtocolVersion) : run () :=
  let! _ :=
    match pending with
    | Some data => write_stream_action id (WriteStdin (encode_base64 data)) v
    | None => sret ()
    end in
  if close then
    let! _ := write_stream_action id CloseStdin v in
    supdate (λ w, Ok (w <| client ::= λ c,
      c <| interactive ::= fmap (λ i, mkInteractive (execution_id i) (source i) true) |> |>))
  else sret ().
Definition write_pending_stdin : run () := λ w,
  match interactive (client w) with
  | None => (Ok (), w)
  | Some i =>
      if stdin_closed i then (Ok (), w)
      else
        let '(pending, q) := take_pending (source i) in
        let close := close_requested q in
        let w := w <| client ::= λ c, c <| interactive := Some (mkInteractive (execution_id i) q false) |> |> in
        match pending, close with
        | None, false => (Ok (), w)
        | _, _ =>
            match negotiated (client w) with
            | None => (Err NotNegotiated, w)
            | Some n =>
                write_pending_frames (execution_id i) pending close (session_version n) w
            end
        end
  end.

(** The inner loop of [pump_observed] over the decoded frames. *)
Definition take_frame (observer : Envelope Value → Obs → result SessionError Obs) (frame : Envelope Value)
    (collected : list (Envelope Value)) : run (list (Envelope Value)) := λ w,
  if MAX_FRAMES_PER_EXCHANGE <=? len collected then (Err TooManyFrames, w)
  else
    match observer frame (seen w) with
    | Err e => (Err e, w)
    | Ok o => (Ok (collected ++ [frame]), w <| seen := o |>)
    end.
Fixpoint take_frames (fuel : nat) (observer : Envelope Value → Obs → result SessionError Obs)
    (collected : list (Envelope Value)) : run (list (Envelope Value)) :=
  match fuel with
  | O => sret collected
  | S fuel =>
      let! frame := on_decoder next_frame in
      match frame with
      | None => sret collected
      | Some frame =>
          let! collected := take_frame observer frame collected in
          take_frames fuel observer collected
      end
  end.

(** The loop of [pump_observed]; [turns] advances remain. *)
Fixpoint pump_loop (turns : nat) (initial advances : Z) (complete : Envelope Value → bool)
    (observer : Envelope Value → Obs → result SessionError Obs) (collected : list (Envelope Value))
    : run (list (Envelope Value)) := λ w,
  if negb (io_dropped (io w) =? initial) then (Err DroppedBytes, w)
  else
    match turns with
    | O => (Err (Deadline advances), w)
    | S turns =>
        (let! _ := write_pending_stdin in
         let! bytes := advance in
         let! dropped := sread (λ w, Ok (io_dropped (io w))) in
         if negb (dropped =? initial) then sfail DroppedBytes
         else
           let! collected :=
             match bytes with
             | [] => sret collected
             | _ =>
                 let! _ := on_decoder (push bytes) in
                 let! n := sread (λ w, Ok (buffered_len (decoder (client w)))) in
                 take_frames (S (Z.to_nat n)) observer collected
             end in
           if MAX_FRAMES_PER_EXCHANGE <? len collected then sfail TooManyFrames
           else if existsb complete collected then sret collected
           else pump_loop turns initial (advances + 1) complete observer collected) w
    end.
Definition pump_observed (max_advances : Z) (complete : Envelope Value → bool)
    (observer : Envelope Value → Obs → result SessionError Obs) : run (list (Envelope Value)) := λ w,
  pump_loop (Z.to_nat max_advances) (io_dropped (io w)) 0 complete observer [] w.
Definition pump (max_advances : Z) (complete : Envelope Value → bool) : run (list (Envelope Value)) :=
  pump_observed max_advances complete (λ _ o, Ok o).

Definition frame_event (e : Envelope Value) : option (Event Value) :=
  match message e with MEvent event => Some event | _ => None end.
Definition response_to (id : RequestId) (e : Envelope Value) : option (Response Value) :=
  match message e with
  | MResponse r => if bool_decide (response_id r = id) then Some r else None
  | _ => None
  end.

(** [find_map] from the end. *)
Definition last_response (id : RequestId) (frames : list (Envelope Value)) : option (Response Value) :=
  last (omap (response_to id) frames).
Definition request (operation : Operation Value) : run Exchange := λ w,
  match negotiated (client w) with
  | None => (Err NotNegotiated, w)
  | Some n =>
      (let! id := fresh_id in
       let! budget := sread (λ w, Ok (max_advances_per_request (client w))) in
       let! _ := write_frame (Protocol.with_version (session_version n) (MRequest (mkRequest id operation))) budget in
       let! frames := pump budget (λ e, bool_decide (is_Some (response_to id e))) in
       match last_response id frames with
       | None => sfail MissingResponse
       | Some response => sret (mkExchange response (omap frame_event frames))
       end) w
  end.

Definition is_hello_ack (e : Envelope Value) : bool := match message e with MHelloAck _ => true | _ => false end.
Definition bootstrap (hello : Envelope Value) : run (Envelope Value) :=
  let! budget := sread (λ w, Ok (max_advances_per_request (client w))) in
  let! _ := write_frame hello budget in
  let! frames := pump budget is_hello_ack in
  match filter (λ e, is_hello_ack e = true) frames with
  | [] => sfail MissingResponse
  | ack :: _ =>
      match message ack with
      | MHelloAck (mkHelloAck _ (Accepted selected id _ _ limits)) =>
          let size := max_frame_size limits in
          let! _ := supdate (λ w, Ok (w <| client ::= λ c, c <| decoder ::= set_expected_version (Some selected) |> |>)) in
          let! _ := on_decoder (dec_set_max_frame_size size) in
          let! _ := supdate (λ w,
            match enc_set_max_frame_size size (encoder (client w)) with
            | Ok e => Ok (w <| client ::= λ c, c <| encoder := e |> |>)
            | Err e => Err (Frame e)
            end) in
          let! _ := supdate (λ w, Ok (w <| client ::= λ c, c <| negotiated := Some (mkNegotiated id selected size) |> |>)) in
          sret ack
      | _ => sret ack
      end
  end.
End computations.

(** ** Executions *)

Definition push_bounded (target bytes : list Z) : result SessionError (list Z) :=
  if MAX_EXEC_STREAM_BYTES <? saturating_add 64 (len target) (len bytes) then Err StreamCap
  else Ok (target ++ bytes).
Definition decode_base64 (value : string) : result SessionError (list Z) :=
  map_err (λ e, StreamError ("invalid base64 payload: " +:+ e)) (base64_decode value).
(** [format!("{} ({:?})", error.message, error.code)] *)
Definition error_text (e : RemoteError Value) : string :=
  match e with mkRemoteError code message _ _ _ => message +:+ " (" +:+ error_code_debug code +:+ ")" end.
Definition accept_stream (r : Response Value) (execution_id : string) : result SessionError () :=
  match response_outcome r with
  | Success (StreamAccepted candidate) =>
      if bool_decide (candidate = execution_id) then Ok () else Err UnexpectedResponse
  | Success _ => Err UnexpectedResponse
  | Failure e => Err (StreamError (error_text e))
  end.

Definition exits (execution_id : string) (e : Event Value) : bool :=
  match event e with ProcessExited candidate _ _ => bool_decide (candidate = execution_id) | _ => false end.
Definition streams (execution_id : string) (e : Event Value) : bool :=
  match event e with Stream candidate _ _ _ _ => bool_decide (candidate = execution_id) | _ => false end.
Definition exit_frame (execution_id : string) (e : Envelope Value) : bool :=
  match frame_event e with Some event => exits execution_id event | None => false end.

Section collect.
Context {Obs : Type}.

(** The observer of [collect_until_exit_observed]. *)
Definition observe_event (execution_id : string) (observer : Event Value → Obs → result SessionError Obs)
    (envelope : Envelope Value) (o : Obs) : result SessionError Obs :=
  match frame_event envelope with
  | Some event => if exits execution_id event || streams execution_id event then observer event o else Ok o
  | None => Ok o
  end.
Definition collect_until_exit_observed (execution_id : string) (events : list (Event Value))
    (observer : Event Value → Obs → result SessionError Obs) : run (Obs := Obs) (list (Event Value)) :=
  let! budget := sread (λ w, Ok (max_advances_per_request (client w))) in
  let! frames := pump_observed budget (exit_frame execution_id) (observe_event execution_id observer) in
  sret (events ++ omap frame_event frames).
Definition collect_until_exit (execution_id : string) (events : list (Event Value)) : run (Obs := Obs) (list (Event Value)) :=
  collect_until_exit_observed execution_id events (λ _ o, Ok o).

Definition stream_stdin (execution_id : string) (stdin : list Z) (events : list (Event Value))
    : run (Obs := Obs) (list (Event Value)) :=
  let! write := request (StreamOp (mkStreamRequest execution_id (WriteStdin (encode_base64 stdin)))) in
  let! _ := sread (λ _, accept_stream (response write) execution_id) in
  let events := events ++ exchange_events write in
  let! close := request (StreamOp (mkStreamRequest execution_id CloseStdin)) in
  let! _ := sread (λ _, accept_stream (response close) execution_id) in
  sret (events ++ exchange_events close).
End collect.

(** What the closure [capture] of [execute_with_stdin] writes: the two streams, the
    exit, and the state of the caller's observer. *)
Record Capture (U : Type) := mkCapture {
  cap_stdout : list Z;
  cap_stderr : list Z;
  exited : option (option Z * option Z);
  user_state : U
}.
#[global] Arguments mkCapture {U}.
#[global] Arguments cap_stdout {U}.
#[global] Arguments cap_stderr {U}.
#[global] Arguments exited {U}.
#[global] Arguments user_state {U}.
#[export] Instance Capture_eta {U} : Settable (Capture U) := λ c,
  mkCapture (cap_stdout c) (cap_stderr c) (exited c) (user_state c).

Section execute.
Context {U : Type} (observer : StreamChannel → list Z → U → U).

Definition capture (execution_id : string) (e : Event Value) (c : Capture U) : result SessionError (Capture U) :=
  match event e with
  | Stream candidate channel _ data_base64 _ =>
      if bool_decide (candidate = execution_id) then
        match exited c with
        | Some _ => Err (StreamError "stream after ProcessExited")
        | None =>
            let? decoded := decode_base64 data_base64 in
            match channel with
            | Stderr =>
                let? target := push_bounded (cap_stderr c) decoded in
                Ok (c <| cap_stderr := target |> <| user_state ::= observer channel decoded |>)
            | _ =>
                let? target := push_bounded (cap_stdout c) decoded in
                Ok (c <| cap_stdout := target |> <| user_state ::= observer channel decoded |>)
            end
        end
      else Ok c
  | ProcessExited candidate exit_code signal =>
      if bool_decide (candidate = execution_id) then
        match exited c with
        | Some _ => Err (StreamError "guest reported ProcessExited twice")
        | None => Ok (c <| exited := Some (exit_code, signal) |>)
        end
      else Ok c
  | _ => Ok c
  end.
(** [for event in &exchange.events { capture(event)?; }] *)
Fixpoint capture_all (execution_id : string) (events : list (Event Value)) (c : Capture U)
    : result SessionError (Capture U) * Capture U :=
  match events with
  | [] => (Ok c, c)
  | e :: events =>
      match capture execution_id e c with
      | Ok c => capture_all execution_id events c
      | Err error => (Err error, c)
      end
  end.

(** A computation whose observers write a [Capture], begun with empty streams. *)
Definition capturing {A} (c : run (Obs := Capture U) A) : run (Obs := U) (A * Capture U) := λ w,
  let '(r, w') := c (mkWorld (client w) (io w) (mkCapture [] [] None (seen w))) in
  (let? a := r in Ok (a, seen w'), mkWorld (client w') (io w') (user_state (seen w'))).

Definition set_interactive (i : option InteractiveStdin) : run (Obs := U) () :=
  supdate (λ w, Ok (w <| client ::= λ c, c <| interactive := i |> |>)).
Definition capture_events (execution_id : string) (events : list (Event Value)) : run (Obs := Capture U) () := λ w,
  let '(r, c) := capture_all execution_id events (seen w) in
  (let? _ := r in Ok (), w <| seen := c |>).

Definition execute_with_stdin (req : ExecRequest) (stdin : list Z) (source : option Q) : run (Obs := U) ExecOutcome :=
  let! _ := set_interactive None in
  let! exchange := request (Exec req) in
  let! execution_id :=
    match response_outcome (response exchange) with
    | Success (ExecStarted execution_id _) => sret execution_id
    | Success _ => sfail UnexpectedResponse
    | Failure error => sfail (GuestRejected (error_text error))
    end in
  let! _ :=
    match source with
    | Some q => set_interactive (Some (mkInteractive execution_id q false))
    | None => sret ()
    end in
  let! attached := sread (λ w, Ok (attach_stdin req && negb (bool_decide (is_Some (interactive (client w)))))) in
  let! events :=
    if attached then stream_stdin execution_id stdin (exchange_events exchange) else sret (exchange_events exchange) in
  let already_exited := existsb (exits execution_id) events in
  let! captured := capturing (
    let! _ := capture_events execution_id events in
    if already_exited then sret () else
    let! _ := collect_until_exit_observed execution_id [] (capture execution_id) in sret ()) in
  let! _ := set_interactive None in
  match exited (captured.2) with
  | None => sfail (StreamError "no ProcessExited")
  | Some (exit_code, signal) => sret (mkOutcome exit_code signal (cap_stdout captured.2) (cap_stderr captured.2))
  end.
Definition execute_observed (req : ExecRequest) (stdin : list Z) : run (Obs := U) ExecOutcome :=
  execute_with_stdin req stdin None.
Definition execute_interactive (req : ExecRequest) (source : Q) : run (Obs := U) ExecOutcome :=
  execute_with_stdin req [] (Some source).
End execute.

Definition execute (argv : list string) (env : gmap string string) (cwd : option string) (stdin : list Z)
    : run (Obs := ()) ExecOutcome :=
  execute_observed (λ _ _ u, u)
    (mkExecRequest argv env cwd None false (negb (bool_decide (stdin = []))) true true None) stdin.
End session.
#[global] Arguments SessionClient : clear implicits.
#[global] Arguments InteractiveStdin : clear implicits.
#[global] Arguments World : clear implicits.
#[global] Arguments Exchange : clear implicits.

(** ** Steps of the guest *)

(** A transport that counts its advances. *)
Class Metered (IO : Type) `{SessionIo IO} := mkMetered {
  steps : IO → Z;
  steps_write : ∀ bytes i, steps (io_write bytes i).2 = steps i;
  steps_advance : ∀ i, steps (io_advance i).2 = steps i + 1
}.

Section budget.
Context {Value IO Q : Type} `{Serde Value} `{Metered IO} `{PendingStdin Q} `{Base64}.
Context (B : Z) (HB : 0 ≤ B).

(** [spends P P' k c]: from a client that satisfies [P] the computation advances the
    guest at most [k] times, and a result leaves the client in [P']. *)
Definition spends {Obs A} (P P' : SessionClient Q → Prop) (k : Z) (c : st (World IO Q Obs) SessionError A) : Prop :=
  ∀ w, P (client w) →
    steps (io (c w).2) ≤ steps (io w) + k ∧ ∀ a, (c w).1 = Ok a → P' (client (c w).2).

Lemma spends_bind {Obs A C} P P1 P2 k1 k2 (c : st (World IO Q Obs) SessionError A) (f : A → st (World IO Q Obs) SessionError C) :
  spends P P1 k1 c → 0 ≤ k2 → (∀ a, spends P1 P2 k2 (f a)) → spends P P2 (k1 + k2) (let! a := c in f a).
Proof.
  intros Hc Hk Hf w Hw. specialize (Hc w Hw). unfold sbind. destruct (c w) as [[a|e] w1]; cbn in *.
  - destruct Hc as [Hs Hp]. specialize (Hf a w1 (Hp a eq_refl)) as [Hs2 Hp2]. split; [lia|done].
  - split; [lia|done].
Qed.
Lemma spends_le {Obs A} P P' k k' (c : st (World IO Q Obs) SessionError A) : spends P P' k c → k ≤ k' → spends P P' k' c.
Proof. intros Hc Hk w Hw. destruct (Hc w Hw). split; [lia|done]. Qed.
Lemma spends_ret {Obs A} P (a : A) : spends (Obs := Obs) P P 0 (sret a).
Proof. intros w Hw. cbn. split; [lia|done]. Qed.
Lemma spends_fail {Obs A} P P' e : spends (Obs := Obs) P P' 0 (sfail (A := A) e).
Proof. intros w Hw. cbn. split; [lia|done]. Qed.
Lemma spends_read {Obs A} P (f : World IO Q Obs → result SessionError A) : spends P P 0 (sread f).
Proof. intros w Hw. cbn. split; [lia|done]. Qed.

(** The clients of one budget; a quiet one has no interactive execution. *)
Definition within (quiet : bool) (c : SessionClient Q) : Prop :=
  max_advances_per_request c = B ∧ (quiet = true → interactive c = None).

Lemma spends_budget {Obs A} q P' k (f : Z → st (World IO Q Obs) SessionError A) : spends (within q) P' k (f B) →
  spends (within q) P' k (let! budget := sread (λ w, Ok (max_advances_per_request (client w))) in f budget).
Proof. intros Hf w Hw. rewrite (sbind_ok _ _ _ B w); [by apply Hf|]. unfold sread. by rewrite (proj1 Hw). Qed.

Lemma spends_decoder {Obs A} q (f : st FrameDecoder FrameError A) : spends (Obs := Obs) (within q) (within q) 0 (on_decoder f).
Proof. intros w Hw. unfold on_decoder. destruct (f _) as [r d]. split; [cbn; lia|]. by intros a _. Qed.
Lemma spends_advance {Obs} q : spends (Obs := Obs) (within q) (within q) 1 advance.
Proof.
  intros w Hw. unfold advance. pose proof (steps_advance (io w)) as Hs. destruct (io_advance _) as [r i]. cbn in *.
  split; [lia|done].
Qed.
Lemma spends_fresh {Obs} q : spends (Obs := Obs) (within q) (within q) 0 fresh_id.
Proof. intros w Hw. unfold fresh_id. destruct (RequestId_new _); (split; [cbn; lia|done]). Qed.

Lemma spends_write_loop {Obs} q turns : ∀ advances bytes,
  spends (Obs := Obs) (within q) (within q) (Z.of_nat turns) (write_loop turns advances bytes).
Proof.
  induction turns as [|turns IH]; intros advances bytes w Hw; cbn [write_loop];
    (destruct bytes as [|b bytes]; [split; [cbn; lia|done]|]);
    pose proof (steps_write (b :: bytes) (io w)) as Hs; destruct (io_write _ _) as [n i]; cbn [snd] in Hs;
    (destruct (drop _ _) as [|b' rest]; [split; [cbn; lia|done]|]); [split; [cbn; lia|done]|].
  set (w1 := w <| io := i |>). destruct (spends_advance (Obs := Obs) q w1) as [Ha Hc]; [done|].
  destruct (advance w1) as [[x|e] w2]; cbn [fst snd] in *; change (steps (io w1)) with (steps i) in Ha; [|split; [lia|done]].
  destruct (IH (advances + 1) (b' :: rest) w2) as [Hi Hj]; [by apply Hc with x|]. split; [lia|done].
Qed.
Lemma spends_write {Obs} q e : spends (Obs := Obs) (within q) (within q) B (write_frame e B).
Proof.
  intros w Hw. unfold write_frame. destruct (encode _ _) as [frame|]; [|split; [cbn; lia|done]].
  destruct (spends_write_loop (Obs := Obs) q (Z.to_nat B) 0 frame w Hw). split; [lia|done].
Qed.
Lemma spends_action {Obs} q x a v : spends (Obs := Obs) (within q) (within q) B (write_stream_action x a v).
Proof.
  apply (spends_le _ _ (0 + B)); [|lia]. eapply spends_bind; [apply spends_fresh|lia|].
  intros id. apply spends_budget, spends_write.
Qed.

Lemma spends_close {Obs} : spends (Obs := Obs) (within false) (within false) 0
  (supdate (λ w, Ok (w <| client ::= λ c,
     c <| interactive ::= fmap (λ i, mkInteractive (execution_id i) (source i) true) |> |>))).
Proof. intros w Hw. split; [cbn; lia|]. intros _ _. destruct Hw. by split. Qed.

(** The frames queued input costs in one turn. *)
Definition stdin_cost (quiet : bool) : Z := if quiet then 0 else 2 * B.
Lemma spends_pending_frames {Obs} id pending close v :
  spends (Obs := Obs) (within false) (within false) (stdin_cost false) (write_pending_frames id pending close v).
Proof.
  apply (spends_le _ _ (B + (B + 0))); [|cbn; lia]. apply (spends_bind _ (within false)); [|lia|intros _].
  - destruct pending; [apply spends_action|eapply spends_le; [apply spends_ret|lia]].
  - destruct close; [|eapply spends_le; [apply spends_ret|lia]].
    eapply spends_bind; [apply spends_action|lia|intros _]. apply spends_close.
Qed.
Lemma spends_pending {Obs} q : spends (Obs := Obs) (within q) (within q) (stdin_cost q) write_pending_stdin.
Proof.
  intros w Hw. unfold write_pending_stdin. assert (0 ≤ stdin_cost q) by (unfold stdin_cost; destruct q; lia).
  destruct (interactive (client w)) as [i|] eqn:Ei; [|split; [cbn; lia|done]].
  destruct (stdin_closed i); [split; [cbn; lia|done]|]. destruct q.
  { destruct Hw as [_ Hq]. rewrite Hq in Ei; done. }
  destruct (take_pending (source i)) as [pending src]. set (w1 := w <| client ::= _ |>).
  assert (within false (client w1)) as Hw1 by (destruct Hw; by split).
  change (steps (io w)) with (steps (io w1)). clearbody w1.
  destruct pending as [data|], (close_requested src), (negotiated (client w1)) as [n|];
    try (split; [cbn; lia|done]); revert w1 Hw1; apply spends_pending_frames.
Qed.

Lemma spends_frames {Obs} q fuel observer : ∀ collected,
  spends (Obs := Obs) (within q) (within q) 0 (take_frames fuel observer collected).
Proof.
  induction fuel as [|fuel IH]; intros collected; cbn [take_frames]; [apply spends_ret|].
  apply (spends_bind _ (within q) _ 0 0); [apply spends_decoder|lia|]. intros [frame|]; [|apply spends_ret].
  apply (spends_bind _ (within q) _ 0 0); [|lia|apply IH]. intros w Hw. unfold take_frame.
  destruct (_ <=? _); [split; [cbn; lia|done]|]. destruct (observer _ _); (split; [cbn; lia|done]).
Qed.
Lemma spends_read_bind {Obs A C} P P' k (f : World IO Q Obs → result SessionError A) (g : A → st (World IO Q Obs) SessionError C) :
  0 ≤ k → (∀ a, spends P P' k (g a)) → spends P P' k (let! a := sread f in g a).
Proof. intros Hk Hg. apply (spends_bind P P P' 0 k); [apply spends_read|done|done]. Qed.

(** Every turn of the pump costs one advance and the queued input. *)
Lemma spends_pump_loop {Obs} q turns initial complete observer : ∀ advances collected,
  spends (Obs := Obs) (within q) (within q) (Z.of_nat turns * (stdin_cost q + 1))
    (pump_loop turns initial advances complete observer collected).
Proof.
  assert (0 ≤ stdin_cost q) as Hq by (unfold stdin_cost; destruct q; lia).
  assert (∀ n, 0 ≤ Z.of_nat n * (stdin_cost q + 1)) as Hn by (intros n; apply Z.mul_nonneg_nonneg; lia).
  induction turns as [|turns IH]; intros advances collected w Hw; cbn [pump_loop];
    [pose proof (Hn 0%nat)|pose proof (Hn (S turns)); specialize (Hn turns)];
    (destruct (negb _); [split; [cbn [snd]; lia|done]|]); [split; [cbn [snd]; lia|done]|]. revert w Hw.
  apply (spends_le _ _ (stdin_cost q + (1 + (0 + Z.of_nat turns * (stdin_cost q + 1))))); [|lia].
  apply (spends_bind _ (within q)); [apply spends_pending|lia|intros _].
  apply (spends_bind _ (within q)); [apply spends_advance|lia|intros bytes].
  apply spends_read_bind; [lia|intros dropped]. destruct (negb _); [eapply spends_le; [apply spends_fail|lia]|].
  apply (spends_bind _ (within q)); [|lia|intros collected'].
  - destruct bytes as [|b bytes]; [apply spends_ret|]. apply (spends_bind _ (within q) _ 0 0); [apply spends_decoder|lia|intros _].
    apply spends_read_bind; [lia|intros n]. apply spends_frames.
  - destruct (_ <? _); [eapply spends_le; [apply spends_fail|lia]|].
    destruct (existsb _ _); [eapply spends_le; [apply spends_ret|lia]|]. apply IH.
Qed.
Lemma spends_pump {Obs} q complete observer :
  spends (Obs := Obs) (within q) (within q) (B * (stdin_cost q + 1)) (pump_observed B complete observer).
Proof.
  intros w Hw. unfold pump_observed.
  pose proof (spends_pump_loop q (Z.to_nat B) (io_dropped (io w)) complete observer 0 [] w Hw) as Hp.
  by rewrite (Z2Nat.id B HB) in Hp.
Qed.

Definition request_cost (quiet : bool) : Z := B + B * (stdin_cost quiet + 1).
Lemma request_cost_nonneg q : 0 ≤ B * (stdin_cost q + 1).
Proof. unfold stdin_cost. destruct q; lia. Qed.
Lemma spends_request {Obs} q operation : spends (Obs := Obs) (within q) (within q) (request_cost q) (request operation).
Proof.
  pose proof (request_cost_nonneg q) as Hq. intros w Hw. unfold request.
  destruct (negotiated (client w)) as [n|]; [|split; [cbn; unfold request_cost; lia|done]]. revert w Hw.
  apply (spends_le _ _ (0 + request_cost q)); [|lia].
  apply (spends_bind _ (within q)); [apply spends_fresh|unfold request_cost; lia|intros id]. apply spends_budget.
  apply (spends_bind _ (within q)); [apply spends_write|lia|intros _].
  apply (spends_le _ _ (B * (stdin_cost q + 1) + 0)); [|lia].
  apply (spends_bind _ (within q)); [apply spends_pump|lia|intros frames].
  destruct (last_response id frames); [apply spends_ret|apply spends_fail].
Qed.
Lemma spends_stdin {Obs} x bytes es : spends (Obs := Obs) (within true) (within true) (4 * B) (stream_stdin x bytes es).
Proof.
  apply (spends_le _ _ (request_cost true + (request_cost true + 0))); [|unfold request_cost; cbn; lia].
  apply (spends_bind _ (within true)); [apply spends_request|unfold request_cost; cbn; lia|intros write].
  apply spends_read_bind; [unfold request_cost; cbn; lia|intros _].
  apply (spends_bind _ (within true)); [apply spends_request|lia|intros close].
  apply spends_read_bind; [lia|intros _]. apply spends_ret.
Qed.
Lemma spends_collect {Obs} q x es observer :
  spends (Obs := Obs) (within q) (within q) (B * (stdin_cost q + 1)) (collect_until_exit_observed x es observer).
Proof.
  pose proof (request_cost_nonneg q). apply spends_budget.
  apply (spends_le _ _ (B * (stdin_cost q + 1) + 0)); [|lia].
  apply (spends_bind _ (within q)); [apply spends_pump|lia|intros frames; apply spends_ret].
Qed.

(** Clients in an interactive execution do not stream a buffer. *)
Definition engaged (c : SessionClient Q) : Prop := max_advances_per_request c = B ∧ is_Some (interactive c).
Lemma spends_capture {U A} P P' k (c : st (World IO Q (Capture U)) SessionError A) : spends P P' k c →
  spends P P' k (capturing c).
Proof.
  intros Hc w Hw. unfold capturing. specialize (Hc (mkWorld (client w) (io w) (mkCapture [] [] None (seen w))) Hw).
  destruct (c _) as [[a|e] w']; cbn in *; [|split; [lia|done]]. split; [lia|]. intros _ _. by apply (proj2 Hc a).
Qed.
Lemma spends_capture_events {U} (observer : StreamChannel → list Z → U → U) q x (es : list (Event Value)) :
  spends (within q) (within q) 0 (capture_events observer x es).
Proof. intros w Hw. unfold capture_events. destruct (capture_all _ _ _ _) as [r c]. split; [cbn; lia|done]. Qed.
Lemma spends_set {U} (P P' : SessionClient Q → Prop) i :
  (∀ c, P c → P' (c <| interactive := i |>)) → spends (Obs := U) P P' 0 (set_interactive i).
Proof. intros Hp w Hw. split; [cbn; lia|]. intros _ _. by apply Hp. Qed.

(** The end of an execution, once its events so far are known. *)
Lemma spends_rest {U} (observer : StreamChannel → list Z → U → U) q x (es : list (Event Value)) : spends (within q) (λ _, True) (B * (stdin_cost q + 1))
  (let already_exited := existsb (exits x) es in
   let! captured := capturing (
     let! _ := capture_events observer x es in
     if already_exited then sret () else
     let! _ := collect_until_exit_observed x [] (capture observer x) in sret ()) in
   let! _ := set_interactive None in
   match exited captured.2 with
   | None => sfail (StreamError "no ProcessExited")
   | Some (exit_code, signal) => sret (mkOutcome exit_code signal (cap_stdout captured.2) (cap_stderr captured.2))
   end).
Proof.
  cbv zeta. pose proof (request_cost_nonneg q) as Hq.
  apply (spends_le _ _ (B * (stdin_cost q + 1) + (0 + 0))); [|lia]. apply (spends_bind _ (within q)); [|lia|intros captured].
  - apply spends_capture. apply (spends_le _ _ (0 + (B * (stdin_cost q + 1) + 0))); [|lia].
    apply (spends_bind _ (within q)); [apply spends_capture_events|lia|intros _].
    destruct (existsb _ _); [eapply spends_le; [apply spends_ret|lia]|].
    apply (spends_bind _ (within q)); [apply spends_collect|lia|intros _; apply spends_ret].
  - apply (spends_bind _ (λ _, True)); [by apply spends_set|lia|intros _].
    destruct (exited _) as [[code sig]|]; [apply spends_ret|apply spends_fail].
Qed.

Lemma spends_execute {U} (observer : StreamChannel → list Z → U → U) q req stdin src :
  spends (within q) (λ _, True) (match src with None => 7 * B | Some _ => 2 * B + B * (2 * B + 1) end)
    (execute_with_stdin (Value := Value) observer req stdin src).
Proof.
  set (rest := match src with None => 5 * B | Some _ => B * (2 * B + 1) end).
  assert (0 ≤ rest) as Hr by (unfold rest; destruct src; lia).
  apply (spends_le _ _ (0 + (request_cost true + (0 + (0 + rest))))).
  2:{ unfold rest, request_cost. cbn [stdin_cost]. destruct src; lia. }
  assert (0 ≤ request_cost true) by (unfold request_cost; cbn; lia). unfold execute_with_stdin.
  apply (spends_bind _ (within true)); [by apply spends_set; intros c []|lia|intros _].
  apply (spends_bind _ (within true)); [apply spends_request|lia|intros exchange].
  apply (spends_bind _ (within true)); [|lia|intros x].
  { destruct (response_outcome _) as [[]|]; first [apply spends_ret|apply spends_fail]. }
  destruct src as [src|].
  - apply (spends_bind _ engaged); [apply spends_set; intros c []; by split; [|eexists]|lia|intros _].
    intros w [Hw [i Hi]]. rewrite (sbind_ok _ _ _ false w).
    2:{ unfold sread. rewrite Hi. cbn. by rewrite andb_false_r. }
    rewrite (sbind_ok _ _ w (exchange_events exchange) w) by done. by apply (spends_rest observer false).
  - apply (spends_bind _ (within true)); [apply spends_ret|lia|intros _]. apply spends_read_bind; [lia|intros attached].
    apply (spends_le _ _ (4 * B + B * (stdin_cost true + 1))); [|unfold rest; cbn; lia].
    apply (spends_bind _ (within true)); [|cbn; lia|intros es; apply (spends_rest observer true)].
    destruct attached; [apply spends_stdin|eapply spends_le; [apply spends_ret|lia]].
Qed.
End budget.

(** C31: An execution is bounded, whatever the guest does: with a budget of [B] steps
    per exchange it returns after advancing the guest at most [7 * B] times, and an
    interactive one, which may write two frames at each turn, at most
    [2 * B + B * (2 * B + 1)] times. *)
Theorem execution_within_budget {Value IO Q U : Type} `{Serde Value} `{Metered IO} `{PendingStdin Q} `{Base64}
    (observer : StreamChannel → list Z → U → U) (req : ExecRequest) (stdin : list Z) (src : option Q) (w : World IO Q U) :
  let B := max_advances_per_request (client w) in 0 ≤ B →
  steps (io (execute_with_stdin (Value := Value) observer req stdin src w).2) ≤
    steps (io w) + match src with None => 7 * B | Some _ => 2 * B + B * (2 * B + 1) end.
Proof. intros B HB. by apply (spends_execute B HB observer false req stdin src w). Qed.

(** ** Invariants of a session *)

Section invariants.
Context {Value IO Q Obs : Type} `{Serde Value} `{SessionIo IO} `{PendingStdin Q} `{Base64}.
Definition comp (A : Type) : Type := st (World IO Q Obs) SessionError A.

Lemma keeps_run {A} (J : World IO Q Obs → Prop) (c : comp A) w r w' : keeps J c → c w = (r, w') → J w → J w'.
Proof. intros Hc Ec Hw. specialize (Hc w Hw). by rewrite Ec in Hc. Qed.

(** The updates a session makes by itself. *)
Record stable (J : World IO Q Obs → Prop) : Prop := mk_stable {
  stable_decoder : ∀ w d, J w → J (w <| client ::= λ c, c <| decoder := d |> |>);
  stable_io : ∀ w i, J w → J (w <| io := i |>);
  stable_number : ∀ w, J w →
    J (w <| client ::= λ c, c <| next_request_id := saturating_add 64 (next_request_id (client w)) 1 |> |>);
  stable_interactive : ∀ w f, J w → J (w <| client ::= λ c, c <| interactive ::= f |> |>)
}.
(** What an observer does to the caller's state. *)
Definition tolerates (J : World IO Q Obs → Prop) (observer : Envelope Value → Obs → result SessionError Obs) : Prop :=
  ∀ w e o, J w → observer e (seen w) = Ok o → J (w <| seen := o |>).
Context (J : World IO Q Obs → Prop) (HJ : stable J).

Lemma keeps_decoder {A} (f : st FrameDecoder FrameError A) : keeps J (on_decoder f : comp A).
Proof. intros w Hw. unfold on_decoder. destruct (f _) as [r d]. by apply (stable_decoder _ HJ). Qed.
Lemma keeps_advance : keeps J (advance : comp (list Z)).
Proof. intros w Hw. unfold advance. destruct (io_advance _) as [r i]. by apply (stable_io _ HJ). Qed.
Lemma keeps_write_loop turns : ∀ advances bytes, keeps J (write_loop turns advances bytes : comp ()).
Proof.
  induction turns as [|turns IH]; intros advances bytes w Hw; cbn [write_loop]; (destruct bytes as [|b bytes]; [done|]);
    destruct (io_write _ _) as [n i]; pose proof (stable_io _ HJ w i Hw) as Hw1;
    (destruct (drop _ _) as [|b' rest]; [exact Hw1|]); [exact Hw1|].
  set (w1 := w <| io := i |>) in *. pose proof (keeps_advance w1 Hw1) as Ha.
  destruct (advance w1) as [[x|e] w2]; [|exact Ha]. by apply IH.
Qed.
Lemma keeps_write e b : keeps J (write_frame e b : comp ()).
Proof. intros w Hw. unfold write_frame. destruct (encode _ _); [|done]. by apply keeps_write_loop. Qed.
Lemma keeps_fresh : keeps J (fresh_id : comp RequestId).
Proof. intros w Hw. unfold fresh_id. destruct (RequestId_new _); [|done]. by apply (stable_number _ HJ). Qed.
Lemma keeps_action x a v : keeps J (write_stream_action x a v : comp ()).
Proof.
  apply keeps_bind; [apply keeps_fresh|intros id _ _ _]. apply keeps_bind; [apply keeps_read|intros b _ _ _].
  apply keeps_write.
Qed.
Lemma keeps_pending_frames id pending close v : keeps J (write_pending_frames id pending close v : comp ()).
Proof.
  apply keeps_bind; [destruct pending; [apply keeps_action|apply keeps_ret]|intros _ _ _ _].
  destruct close; [|apply keeps_ret]. apply keeps_bind; [apply keeps_action|]. intros _ _ _ _ w2 Hw2.
  by apply (stable_interactive _ HJ).
Qed.
Lemma keeps_pending : keeps J (write_pending_stdin : comp ()).
Proof.
  intros w Hw. unfold write_pending_stdin. destruct (interactive (client w)) as [i|]; [|done]. destruct (stdin_closed i); [done|].
  destruct (take_pending (source i)) as [pending src]. set (w1 := w <| client ::= _ |>).
  assert (J w1) as Hw1 by (by apply (stable_interactive _ HJ)). clearbody w1.
  pose proof (λ close n, keeps_pending_frames (execution_id i) pending close n w1 Hw1) as Hk.
  destruct pending, (close_requested src), (negotiated (client w1)); first [exact Hw1|apply Hk].
Qed.
Lemma keeps_frames fuel observer : tolerates J observer → ∀ collected, keeps J (take_frames fuel observer collected : comp _).
Proof.
  intros Ho. induction fuel as [|fuel IH]; intros collected; cbn [take_frames]; [apply keeps_ret|].
  apply keeps_bind; [apply keeps_decoder|intros [frame|] _ _ _; [|apply keeps_ret]].
  apply keeps_bind; [|by intros]. intros w Hw. unfold take_frame. destruct (_ <=? _); [done|].
  destruct (observer _ _) as [o|] eqn:Eo; [|done]. by apply (Ho w frame o).
Qed.
Lemma keeps_pump_loop turns initial complete observer : tolerates J observer → ∀ advances collected,
  keeps J (pump_loop turns initial advances complete observer collected : comp _).
Proof.
  intros Ho. induction turns as [|turns IH]; intros advances collected w Hw; cbn [pump_loop]; (destruct (negb _); [done|]); [done|].
  revert w Hw. apply keeps_bind; [apply keeps_pending|intros _ _ _ _].
  apply keeps_bind; [apply keeps_advance|intros bytes _ _ _]. apply keeps_bind; [apply keeps_read|intros dropped _ _ _].
  destruct (negb _); [apply keeps_fail|]. apply keeps_bind; [|intros collected' _ _ _].
  - destruct bytes; [apply keeps_ret|]. apply keeps_bind; [apply keeps_decoder|intros _ _ _ _].
    apply keeps_bind; [apply keeps_read|intros n _ _ _]. by apply keeps_frames.
  - destruct (_ <? _); [apply keeps_fail|]. destruct (existsb _ _); [apply keeps_ret|]. apply IH.
Qed.
Lemma keeps_collect x es observer : tolerates J (observe_event x observer) →
  keeps J (collect_until_exit_observed x es observer : comp _).
Proof.
  intros Ho. apply keeps_bind; [apply keeps_read|intros budget _ _ _].
  apply keeps_bind; [|intros frames _ _ _; apply keeps_ret]. intros w Hw. by apply keeps_pump_loop.
Qed.
Lemma tolerates_unit : tolerates J (λ _ o, Ok o).
Proof. intros w e o Hw [= <-]. by destruct w. Qed.
Lemma keeps_request operation : keeps J (request operation : comp (Exchange Value)).
Proof.
  intros w Hw. unfold request. destruct (negotiated (client w)) as [n|]; [|done]. revert w Hw.
  apply keeps_bind; [apply keeps_fresh|intros id _ _ _]. apply keeps_bind; [apply keeps_read|intros b _ _ _].
  apply keeps_bind; [apply keeps_write|intros _ _ _ _]. apply keeps_bind; [|intros frames _ _ _].
  - intros w Hw. apply keeps_pump_loop; [apply tolerates_unit|done].
  - destruct (last_response id frames); [apply keeps_ret|apply keeps_fail].
Qed.
Lemma keeps_stream_stdin x bytes es : keeps J (stream_stdin x bytes es : comp (list (Event Value))).
Proof.
  apply keeps_bind; [apply keeps_request|intros write _ _ _]. apply keeps_bind; [apply keeps_read|intros _ _ _ _].
  apply keeps_bind; [apply keeps_request|intros close _ _ _]. apply keeps_bind; [apply keeps_read|intros _ _ _ _].
  apply keeps_ret.
Qed.
End invariants.

(** ** Correlation *)

Section correlation.
Context {Value IO Q Obs : Type} `{Serde Value} `{SessionIo IO} `{PendingStdin Q} `{Base64}.

(** The counter of requests does not go back. *)
Definition numbered (k : Z) (w : World IO Q Obs) : Prop := k ≤ next_request_id (client w) < 2 ^ 64.
Lemma numbered_stable k : stable (numbered k).
Proof. split; try done. intros w Hw. unfold numbered, saturating_add in *. cbn. lia. Qed.

Lemma last_response_id id (frames : list (Envelope Value)) r : last_response id frames = Some r → response_id r = id.
Proof.
  unfold last_response. intros Hl%last_Some_elem_of. apply list_elem_of_omap in Hl as (e & _ & He).
  unfold response_to in He. destruct (message e); try done. case_bool_decide; [|done]. by injection He as <-.
Qed.

Lemma request_id_used operation (w w' : World IO Q Obs) ex : word 64 (next_request_id (client w)) →
  request operation w = (Ok ex, w') →
  response_id (response ex) = mkRequestId ("vm-req-" +:+ pretty (next_request_id (client w))) ∧
  saturating_add 64 (next_request_id (client w)) 1 ≤ next_request_id (client w') < 2 ^ 64.
Proof.
  intros Hn Hr. unfold request in Hr. destruct (negotiated (client w)) as [session|]; [|done].
  apply sbind_inv in Hr as [(id & w1 & E1 & Hr)|(e & _ & ?)]; [|done].
  unfold fresh_id in E1. rewrite numbered_id in E1 by done. injection E1 as <- <-.
  set (n := next_request_id (client w)) in *. set (w1 := w <| client ::= _ |>) in Hr.
  assert (numbered (saturating_add 64 n 1) w1) as Hw1.
  { unfold numbered, word, saturating_add in *. cbn. unfold saturating_add. lia. }
  clearbody w1.
  apply sbind_inv in Hr as [(budget & w2 & E2 & Hr)|(e & _ & ?)]; [|done]. injection E2 as _ <-.
  apply sbind_inv in Hr as [(u & w3 & E3 & Hr)|(e & _ & ?)]; [|done].
  pose proof (keeps_run _ _ _ _ _ (keeps_write _ (numbered_stable _) _ _) E3 Hw1) as Hw3.
  apply sbind_inv in Hr as [(frames & w4 & E4 & Hr)|(e & _ & ?)]; [|done].
  pose proof (keeps_run _ _ _ _ _ (keeps_pump_loop _ (numbered_stable _) _ _ _ _ (tolerates_unit _) _ _) E4 Hw3) as Hw4.
  destruct (last_response _ _) as [r|] eqn:El; [|done]. injection Hr as <- <-. split; [|done]. by eapply last_response_id.
Qed.
End correlation.

(** Exchanges do not mix: of two requests a client makes one after the other, each
    is answered by a response that carries the number its own request was given, and
    the numbers differ, whatever responses the guest sends in between. *)
Theorem responses_correlated {Value IO Q Obs : Type} `{Serde Value} `{SessionIo IO} `{PendingStdin Q} `{Base64}
    (op1 op2 : Operation Value) (w w1 w2 : World IO Q Obs) (e1 e2 : Exchange Value) :
  0 ≤ next_request_id (client w) < 2 ^ 64 - 1 →
  request op1 w = (Ok e1, w1) → request op2 w1 = (Ok e2, w2) →
  response_id (response e1) = mkRequestId ("vm-req-" +:+ pretty (next_request_id (client w))) ∧
  response_id (response e2) = mkRequestId ("vm-req-" +:+ pretty (next_request_id (client w1))) ∧
  response_id (response e1) ≠ response_id (response e2).
Proof.
  intros Hn E1 E2. destruct (request_id_used op1 w w1 e1) as [R1 H1']; [unfold word; lia|done|].
  unfold saturating_add in H1'. destruct (request_id_used op2 w1 w2 e2) as [R2 _]; [unfold word; lia|done|].
  split_and!; [done|done|]. rewrite R1, R2. intros [= Heq]. apply (pretty_Z_inj _ _) in Heq. lia.
Qed.

(** ** Output *)

Definition is_stderr (channel : StreamChannel) : bool := match channel with Stderr => true | _ => false end.
(** The bytes of one of the two streams, from the chunks given to an observer. *)
Definition stream_bytes (err : bool) (chunks : list (StreamChannel * list Z)) : list Z :=
  concat (snd <$> filter (λ c, is_stderr c.1 = err) chunks).
Definition observe {U} (observer : StreamChannel → list Z → U → U) (u : U) (chunks : list (StreamChannel * list Z)) : U :=
  foldl (λ u c, observer c.1 c.2 u) u chunks.

Lemma stream_bytes_snoc err chunks channel bytes :
  stream_bytes err (chunks ++ [(channel, bytes)]) =
  stream_bytes err chunks ++ if Bool.eqb (is_stderr channel) err then bytes else [].
Proof.
  unfold stream_bytes. rewrite filter_app, fmap_app, concat_app. f_equal.
  rewrite filter_cons. cbn [fst]. destruct (decide _) as [->|Hne]; [by rewrite eqb_reflx; cbn; rewrite app_nil_r|].
  by apply eqb_false_iff in Hne as ->.
Qed.

Section output.
Context {Value IO Q U : Type} `{Serde Value} `{SessionIo IO} `{PendingStdin Q} `{Base64}.
Context (observer : StreamChannel → list Z → U → U) (u : U).

(** The captured streams are the chunks the observer was given, below the cap. *)
Definition mirrored (c : Capture U) : Prop := ∃ chunks,
  user_state c = observe observer u chunks ∧
  cap_stdout c = stream_bytes false chunks ∧ cap_stderr c = stream_bytes true chunks ∧
  len (cap_stdout c) ≤ MAX_EXEC_STREAM_BYTES ∧ len (cap_stderr c) ≤ MAX_EXEC_STREAM_BYTES.

Lemma push_bounded_ok target bytes t : push_bounded target bytes = Ok t →
  t = target ++ bytes ∧ len t ≤ MAX_EXEC_STREAM_BYTES.
Proof.
  unfold push_bounded, saturating_add. destruct (Z.ltb_spec MAX_EXEC_STREAM_BYTES ((len target + len bytes) `min` (2 ^ 64 - 1)));
    [done|]. intros [= <-]. rewrite len_app. unfold MAX_EXEC_STREAM_BYTES in *. split; [done|lia].
Qed.
Lemma mirrored_capture x (e : Event Value) c c' : mirrored c → capture observer x e c = Ok c' → mirrored c'.
Proof.
  intros (chunks & Hu & Ho & He & Lo & Le) Hc. unfold capture in Hc.
  destruct (event e) as [| | |candidate channel sequence data eof|candidate code sig| | | | |]; try (injection Hc as <-; by exists chunks).
  - case_bool_decide; [|injection Hc as <-; by exists chunks]. destruct (exited c); [done|].
    apply rbind_ok in Hc as (decoded & _ & Hc). exists (chunks ++ [(channel, decoded)]).
    unfold observe in *. rewrite foldl_snoc, !stream_bytes_snoc.
    destruct channel; apply rbind_ok in Hc as (t & [-> Ht]%push_bounded_ok & [= <-]); cbn; rewrite ?app_nil_r;
      split_and!; first [done|congruence].
  - case_bool_decide; [|injection Hc as <-; by exists chunks]. destruct (exited c); [done|]. injection Hc as <-.
    by exists chunks.
Qed.
Lemma mirrored_capture_all x (es : list (Event Value)) : ∀ c, mirrored c → mirrored (capture_all observer x es c).2.
Proof.
  induction es as [|e es IH]; intros c Hc; [done|]. cbn [capture_all].
  destruct (capture observer x e c) as [c1|] eqn:Ec; [|done]. apply IH. by apply (mirrored_capture x e c).
Qed.

Definition on_seen {Obs} (K : Obs → Prop) (w : World IO Q Obs) : Prop := K (seen w).
Lemma on_seen_stable {Obs} (K : Obs → Prop) : stable (on_seen K).
Proof. by split. Qed.

Lemma captured_mirrored x (es : list (Event Value)) (w w' : World IO Q U) p : seen w = u →
  capturing (
    let! _ := capture_events observer x es in
    if existsb (exits x) es then sret () else
    let! _ := collect_until_exit_observed x [] (capture observer x) in sret ()) w = (Ok p, w') →
  mirrored p.2 ∧ user_state p.2 = seen w'.
Proof.
  intros Hu. unfold capturing. set (w0 := mkWorld _ _ _). set (c := sbind _ _).
  assert (on_seen mirrored w0) as Hw0 by (exists []; split_and!; by rewrite ?Hu).
  assert (keeps (on_seen mirrored) c) as Hc.
  { apply keeps_bind; [|intros _ _ _ _].
    - intros w1 Hw1. unfold capture_events. pose proof (mirrored_capture_all x es (seen w1) Hw1) as Hm.
      by destruct (capture_all _ _ _ _).
    - destruct (existsb _ _); [apply keeps_ret|]. apply keeps_bind; [|intros _ _ _ _; apply keeps_ret].
      apply keeps_collect; [apply on_seen_stable|]. intros w1 e o Hw1 Ho. unfold observe_event in Ho.
      destruct (frame_event e) as [ev|]; [|by injection Ho as <-]. destruct (_ || _); [|by injection Ho as <-].
      by eapply mirrored_capture. }
  specialize (Hc w0 Hw0). destruct (c w0) as [[a|e] w1]; [|done]. by intros [= <- <-].
Qed.

Lemma execute_mirrors req stdin src (w w' : World IO Q U) outcome : seen w = u →
  execute_with_stdin (Value := Value) observer req stdin src w = (Ok outcome, w') →
  ∃ chunks, seen w' = observe observer u chunks ∧
    stdout outcome = stream_bytes false chunks ∧ stderr outcome = stream_bytes true chunks ∧
    len (stdout outcome) ≤ MAX_EXEC_STREAM_BYTES ∧ len (stderr outcome) ≤ MAX_EXEC_STREAM_BYTES.
Proof.
  intros Hu He. unfold execute_with_stdin in He. set (J := on_seen (λ s : U, s = u)).
  assert (stable J) as HJ by apply on_seen_stable. change (J w) in Hu.
  assert (∀ i, keeps J (set_interactive i)) as Hset by (by intros i w1 Hw1).
  apply sbind_inv in He as [([] & w1 & E1 & He)|(? & _ & ?)]; [|done].
  pose proof (keeps_run _ _ _ _ _ (Hset None) E1 Hu) as Hw1.
  apply sbind_inv in He as [(exchange & w2 & E2 & He)|(? & _ & ?)]; [|done].
  pose proof (keeps_run _ _ _ _ _ (keeps_request _ HJ _) E2 Hw1) as Hw2.
  apply sbind_inv in He as [(x & w3 & E3 & He)|(? & _ & ?)]; [|done].
  assert (w3 = w2) as ->. { destruct (response_outcome _) as [[]|]; by inversion E3. }
  apply sbind_inv in He as [([] & w4 & E4 & He)|(? & _ & ?)]; [|done].
  assert (J w4) as Hw4. { destruct src; [by apply (keeps_run _ _ _ _ _ (Hset _) E4 Hw2)|by inversion E4; subst]. }
  apply sbind_inv in He as [(attached & w5 & E5 & He)|(? & _ & ?)]; [|done]. injection E5 as _ <-.
  apply sbind_inv in He as [(es & w6 & E6 & He)|(? & _ & ?)]; [|done].
  assert (J w6) as Hw6.
  { destruct attached; [by apply (keeps_run _ _ _ _ _ (keeps_stream_stdin _ HJ _ _ _) E6 Hw4)|by inversion E6; subst]. }
  cbv zeta in He. apply sbind_inv in He as [(p & w7 & E7 & He)|(? & _ & ?)]; [|done].
  apply captured_mirrored in E7 as [(chunks & M1 & M2 & M3 & M4 & M5) Hs]; [|done].
  apply sbind_inv in He as [([] & w8 & E8 & He)|(? & _ & ?)]; [|done]. injection E8 as <-.
  destruct (exited p.2) as [[code sig]|]; [|done]. injection He as <- <-. exists chunks.
  split; [exact (eq_trans (eq_sym Hs) M1)|done].
Qed.
End output.

(** C20: The output of a command is what its observer was shown: when an execution
    succeeds, by any path and whatever the guest sent, the bytes of each stream of the
    outcome are the chunks the caller's observer was given for it, concatenated in
    the order it was given them, and neither stream exceeds the cap. *)
Theorem outcome_is_observed {Value IO Q U : Type} `{Serde Value} `{SessionIo IO} `{PendingStdin Q} `{Base64}
    (observer : StreamChannel → list Z → U → U) (req : ExecRequest) (stdin : list Z) (src : option Q)
    (w w' : World IO Q U) (outcome : ExecOutcome) :
  execute_with_stdin (Value := Value) observer req stdin src w = (Ok outcome, w') →
  ∃ chunks, seen w' = observe observer (seen w) chunks ∧
    stdout outcome = stream_bytes false chunks ∧ stderr outcome = stream_bytes true chunks ∧
    len (stdout outcome) ≤ MAX_EXEC_STREAM_BYTES ∧ len (stderr outcome) ≤ MAX_EXEC_STREAM_BYTES.
Proof. intros He. by apply (execute_mirrors observer (seen w) req stdin src w w' outcome). Qed.

(** ** A session that is served *)

(** What a healthy transport promises: frames are accepted whole, the listed reads
    arrive one for each advance, and nothing is dropped. *)
Class Delivers (IO : Type) `{SessionIo IO} := mkDelivers {
  delivers : IO → list (list Z) → Prop;
  delivers_write : ∀ i reads bytes, delivers i reads →
    ∃ i', io_write bytes i = (len bytes, i') ∧ delivers i' reads ∧ io_dropped i' = io_dropped i;
  delivers_advance : ∀ i r reads, delivers i (r :: reads) →
    ∃ i', io_advance i = (Ok r, i') ∧ delivers i' reads ∧ io_dropped i' = io_dropped i
}.

(** An observer along a list of frames. *)
Fixpoint observed {Value Obs} (observer : Envelope Value → Obs → result SessionError Obs) (es : list (Envelope Value)) (o : Obs)
    : option Obs :=
  match es with
  | [] => Some o
  | e :: es => match observer e o with Ok o => observed observer es o | Err _ => None end
  end.
Lemma observed_app {Value Obs} (observer : Envelope Value → Obs → result SessionError Obs) es1 es2 o :
  observed observer (es1 ++ es2) o = observed observer es1 o ≫= observed observer es2.
Proof. revert o. induction es1 as [|e es1 IH]; intros o; [done|]. cbn. destruct (observer e o); [apply IH|done]. Qed.

Section served.
Context {Value IO Q : Type} `{Serde Value} `{Hdel : Delivers IO} `{PendingStdin Q} `{Base64}.

(** The loop of the client over the decoded frames is the decoder's. *)
Lemma take_frames_spec {Obs} observer fuel : ∀ es d' (w : World IO Q Obs) o collected,
  frames_loop fuel (decoder (client w)) = (Ok es, d') → observed observer es (seen w) = Some o →
  len collected + len es ≤ MAX_FRAMES_PER_EXCHANGE →
  take_frames fuel observer collected w =
    (Ok (collected ++ es), w <| client ::= λ c, c <| decoder := d' |> |> <| seen := o |>).
Proof.
  induction fuel as [|fuel IH]; intros es d' w o collected Hf Ho Hl; cbn [frames_loop take_frames] in *.
  { injection Hf as <- <-. injection Ho as <-. rewrite app_nil_r. by destruct w as [[]]. }
  apply sbind_inv in Hf as [([e|] & d1 & E1 & Hf)|(? & _ & ?)]; [| |done].
  - apply sbind_inv in Hf as [(es1 & d2 & E2 & Hf)|(? & _ & ?)]; [|done]. injection Hf as <- <-.
    cbn [observed] in Ho. destruct (observer e (seen w)) as [o1|] eqn:Eo; [|done]. rewrite len_cons in Hl.
    unfold sbind, on_decoder. rewrite E1. cbn [map_err]. unfold take_frame. pose proof (len_nonneg es1).
    rewrite (proj2 (Z.leb_gt _ _)) by lia. cbn. rewrite Eo.
    rewrite (IH es1 d2 _ o); [|done|done|rewrite len_app; change (len [e]) with 1; lia]. by rewrite <- app_assoc.
  - injection Hf as <- <-. injection Ho as <-. unfold sbind, on_decoder. rewrite E1. cbn. unfold sret.
    rewrite app_nil_r. by destruct w as [[]].
Qed.

(** [link]: the frames [es] are on their way to the client in [reads]. *)
Record link {Obs} (m : Z) (es : list (Envelope Value)) (reads : list (list Z)) (w : World IO Q Obs) : Prop := mk_link {
  link_decoder : receiving m es reads (decoder (client w));
  link_io : delivers (io w) reads
}.
(** Clients that differ in their decoders only. *)
Definition same_client (c c' : SessionClient Q) : Prop := c' = c <| decoder := decoder c' |>.

Lemma receiving_empty m es reads d : receiving (Value := Value) m es ([] :: reads) d → receiving m es reads d.
Proof. intros [Hd Em Hf Hr Hv]. split; try done. by apply Forall_cons in Hr as [_ ?]. Qed.

(** What the client does with one read. *)
Lemma read_served {Obs} m es r reads observer collected (w : World IO Q Obs) o :
  receiving m es (r :: reads) (decoder (client w)) → delivers (io w) reads →
  observed observer es (seen w) = Some o → len collected + len es ≤ MAX_FRAMES_PER_EXCHANGE →
  ∃ es1 es2 w', es = es1 ++ es2 ∧
    match r with
    | [] => sret collected
    | _ =>
        let! _ := on_decoder (push r) in
        let! n := sread (λ w, Ok (buffered_len (decoder (client w)))) in
        take_frames (S (Z.to_nat n)) observer collected
    end w = (Ok (collected ++ es1), w') ∧
    link m es2 reads w' ∧ observed observer es1 (seen w) = Some (seen w') ∧ io w' = io w ∧ same_client (client w) (client w').
Proof.
  intros Hrc Hio Ho Hl. destruct r as [|b r].
  { exists [], es, w. rewrite app_nil_r. split_and!; try done; [|by destruct w as [[]]]. split; [by apply receiving_empty|done]. }
  destruct (read_step _ _ _ _ _ Hrc) as (es1 & es2 & d1 & d2 & -> & E1 & E2 & Hrc2).
  rewrite observed_app in Ho. destruct (observed observer es1 (seen w)) as [o1|] eqn:Eo; [|done].
  set (w1 := w <| client ::= λ c, c <| decoder := d1 |> |>). rewrite len_app in Hl. pose proof (len_nonneg es2).
  rewrite (sbind_ok _ _ w tt w1) by (unfold on_decoder; by rewrite E1).
  rewrite (sbind_ok _ _ w1 (buffered_len d1) w1) by done.
  rewrite (take_frames_spec observer _ es1 d2 w1 o1) by (done || lia).
  exists es1, es2, (w1 <| client ::= λ c, c <| decoder := d2 |> |> <| seen := o1 |>). by split_and!.
Qed.

Lemma pump_loop_served {Obs} reads : ∀ m es turns initial advances complete observer collected (w : World IO Q Obs) o,
  link m es reads w → io_dropped (io w) = initial → interactive (client w) = None →
  observed observer es (seen w) = Some o → len collected + len es ≤ MAX_FRAMES_PER_EXCHANGE →
  existsb complete collected = false → existsb complete es = true → (length reads ≤ turns)%nat →
  ∃ es1 es2 reads2 w', es = es1 ++ es2 ∧ existsb complete es1 = true ∧
    pump_loop turns initial advances complete observer collected w = (Ok (collected ++ es1), w') ∧
    link m es2 reads2 w' ∧ (length reads2 ≤ length reads)%nat ∧ observed observer es1 (seen w) = Some (seen w') ∧
    same_client (client w) (client w').
Proof.
  induction reads as [|r reads IH]; intros m es turns initial advances complete observer collected w o [Hrc Hio] Hdr Hint Ho Hl Hnot Hdone Hturns.
  { destruct (receiving_done _ _ _ Hrc) as [-> _]. done. }
  destruct turns as [|turns]; [cbn in Hturns; lia|]. cbn [pump_loop length] in *. rewrite Hdr, Z.eqb_refl. cbn [negb].
  rewrite (sbind_ok _ _ w tt w) by (unfold write_pending_stdin; by rewrite Hint).
  destruct (delivers_advance _ _ _ Hio) as (i & Ea & Hio' & Hdr'). rewrite (sbind_ok _ _ w r (w <| io := i |>)).
  2:{ unfold advance. by rewrite Ea. }
  rewrite (sbind_ok _ _ _ (io_dropped i) (w <| io := i |>)) by done. rewrite Hdr', Hdr, Z.eqb_refl. cbn [negb].
  set (w1 := w <| io := i |>).
  destruct (read_served m es r reads observer collected w1 o) as (es1 & es2 & w2 & -> & E2 & Hlink & Ho2 & Eio & Hsame); try done.
  rewrite (sbind_ok _ _ _ _ _ E2). rewrite len_app in Hl. pose proof (len_nonneg es2).
  rewrite (proj2 (Z.ltb_ge _ _)) by (rewrite len_app; lia). rewrite existsb_app, Hnot. cbn [orb].
  destruct (existsb complete es1) eqn:Ec.
  - exists es1, es2, reads, w2. split_and!; try done. lia.
  - rewrite existsb_app, Ec in Hdone. rewrite observed_app in Ho. change (seen w1) with (seen w) in Ho2.
    rewrite Ho2 in Ho. cbn in Ho.
    destruct (IH m es2 turns initial (advances + 1) complete observer (collected ++ es1) w2 o) as
      (es3 & es4 & reads4 & w4 & -> & Ec3 & E4 & Hlink4 & Hlen4 & Ho4 & Hsame4); try done.
    + rewrite Eio. exact (eq_trans Hdr' Hdr).
    + by rewrite Hsame.
    + rewrite len_app. lia.
    + by rewrite existsb_app, Hnot, Ec.
    + lia.
    + exists (es1 ++ es3), es4, reads4, w4. rewrite <- !app_assoc, existsb_app, Ec3, orb_true_r, observed_app, Ho2.
      rewrite <- app_assoc in E4. split_and!; try done; [lia|]. unfold same_client in *. rewrite Hsame4, Hsame. by destruct (client w2).
Qed.

Lemma write_served {Obs} e f b reads (w : World IO Q Obs) : encode (encoder (client w)) e = Ok f → delivers (io w) reads →
  ∃ i, write_frame e b w = (Ok (), w <| io := i |>) ∧ delivers i reads ∧ io_dropped i = io_dropped (io w).
Proof.
  intros He Hio. unfold write_frame. rewrite He. destruct (encoder (client w)) as [limit]. pose proof (encode_len _ _ _ He) as Hl.
  destruct (delivers_write _ _ f Hio) as (i & Ew & Hi & Hdr). exists i. split; [|done].
  destruct f as [|c f]; [unfold len in Hl; cbn in Hl; lia|].
  assert (drop (Z.to_nat (len (c :: f))) (c :: f) = []) as Hdrop by (unfold len; by rewrite Nat2Z.id, drop_all).
  destruct (Z.to_nat b); cbn [write_loop]; by rewrite Ew, Hdrop.
Qed.

Lemma request_served {Obs} m es reads session operation f r (w : World IO Q Obs) :
  let id := mkRequestId ("vm-req-" +:+ pretty (next_request_id (client w))) in
  link m es reads w → interactive (client w) = None → negotiated (client w) = Some session →
  word 64 (next_request_id (client w)) →
  encode (encoder (client w)) (with_version (session_version session) (MRequest (mkRequest id operation))) = Ok f →
  Z.of_nat (length reads) ≤ max_advances_per_request (client w) → len es ≤ MAX_FRAMES_PER_EXCHANGE →
  omap (response_to id) es = [r] →
  ∃ es1 es2 reads2 w', es = es1 ++ es2 ∧ request operation w = (Ok (mkExchange r (omap frame_event es1)), w') ∧
    link m es2 reads2 w' ∧ (length reads2 ≤ length reads)%nat ∧ seen w' = seen w ∧ interactive (client w') = None ∧
    max_advances_per_request (client w') = max_advances_per_request (client w).
Proof.
  intros id [Hrc Hio] Hint Hneg Hn He Hb Hl Hr. unfold request. rewrite Hneg.
  set (w1 := w <| client ::= λ c, c <| next_request_id := saturating_add 64 (next_request_id (client w)) 1 |> |>).
  rewrite (sbind_ok _ _ w id w1) by (unfold fresh_id; by rewrite numbered_id by done).
  rewrite (sbind_ok _ _ w1 (max_advances_per_request (client w)) w1) by done.
  destruct (write_served _ f (max_advances_per_request (client w)) reads w1 He Hio) as (i & Ew & Hi & Hdr).
  rewrite (sbind_ok _ _ _ _ _ Ew). set (w2 := w1 <| io := i |>).
  destruct (pump_loop_served reads m es (Z.to_nat (max_advances_per_request (client w))) (io_dropped (io w2)) 0
    (λ e, bool_decide (is_Some (response_to id e))) (λ _ o, Ok o) [] w2 (seen w2))
    as (es1 & es2 & reads2 & w3 & -> & Hd1 & Ep & Hlink & Hlen & Hs & Hsame); try done.
  - clear. induction es as [|e es IH]; [done|]. apply IH.
  - rewrite existsb_exists. assert (r ∈ omap (response_to id) es) as Hin by (rewrite Hr; by left).
    apply list_elem_of_omap in Hin as (e & Hin & Hre). exists e. rewrite <- list_elem_of_In. rewrite bool_decide_eq_true. by split; [|exists r].
  - lia.
  - rewrite (sbind_ok _ _ w2 es1 w3) by exact Ep.
    assert (last_response id es1 = Some r) as ->.
    { unfold last_response. rewrite omap_app in Hr. apply existsb_exists in Hd1 as (e & Hin & [r' Hr']%bool_decide_eq_true).
      apply list_elem_of_In in Hin. assert (r' ∈ omap (response_to id) es1) as Hin' by (apply list_elem_of_omap; by exists e).
      destruct (omap (response_to id) es1) as [|r1 l]; [by apply not_elem_of_nil in Hin'|]. cbn in Hr.
      injection Hr as -> Hnil. by apply app_eq_nil in Hnil as [-> _]. }
    exists es1, es2, reads2, w3. split_and!; try done; [|by rewrite Hsame|by rewrite Hsame].
    assert (∀ o : Obs, observed (λ (_ : Envelope Value) o, Ok o) es1 o = Some o) as Hid.
    { clear. induction es1 as [|e es1 IH]; intros o; [done|apply IH]. }
    rewrite Hid in Hs. by injection Hs.
Qed.

(** ** The output the events of an execution carry *)

Definition chunk (x : string) (err : bool) (e : Event Value) : list Z :=
  match event e with
  | Stream candidate channel _ data _ =>
      if bool_decide (candidate = x) && Bool.eqb (is_stderr channel) err
      then match base64_decode data with Ok bytes => bytes | Err _ => [] end else []
  | _ => []
  end.
Definition output (x : string) (err : bool) (es : list (Event Value)) : list Z := concat (chunk x err <$> es).
Definition decodes (x : string) (e : Event Value) : Prop :=
  match event e with Stream candidate _ _ data _ => candidate = x → ∃ bytes, base64_decode data = Ok bytes | _ => True end.

Section captured.
Context {U : Type} (observer : StreamChannel → list Z → U → U) (x : string).

Lemma push_bounded_within target bytes : len target + len bytes ≤ MAX_EXEC_STREAM_BYTES →
  push_bounded target bytes = Ok (target ++ bytes).
Proof.
  intros Hl. unfold push_bounded, saturating_add. rewrite (proj2 (Z.ltb_ge _ _)); [done|].
  unfold MAX_EXEC_STREAM_BYTES in *. lia.
Qed.

(** One event that is not the exit. *)
Lemma capture_event e c : exited c = None → exits x e = false → decodes x e →
  len (cap_stdout c) + len (chunk x false e) ≤ MAX_EXEC_STREAM_BYTES →
  len (cap_stderr c) + len (chunk x true e) ≤ MAX_EXEC_STREAM_BYTES →
  ∃ c', capture observer x e c = Ok c' ∧ exited c' = None ∧
    cap_stdout c' = cap_stdout c ++ chunk x false e ∧ cap_stderr c' = cap_stderr c ++ chunk x true e.
Proof.
  intros Hex He Hd Ho Hr. unfold capture, exits, decodes, chunk in *.
  destruct (event e) as [| | |candidate channel sequence data eof|candidate code sig| | | | |];
    try (exists c; by rewrite !app_nil_r); [|rewrite He; exists c; by rewrite !app_nil_r].
  case_bool_decide as Hx; [|exists c; by rewrite !app_nil_r]. destruct (Hd Hx) as [bytes Eb]. rewrite Hex.
  unfold decode_base64. rewrite Eb in *. cbn [map_err rbind andb] in *.
  destruct channel; cbn [is_stderr Bool.eqb] in *; rewrite push_bounded_within by done; eexists; split; try done;
    cbn; by rewrite ?app_nil_r.
Qed.
Lemma capture_all_output es : ∀ c, exited c = None → existsb (exits x) es = false → Forall (decodes x) es →
  len (cap_stdout c) + len (output x false es) ≤ MAX_EXEC_STREAM_BYTES →
  len (cap_stderr c) + len (output x true es) ≤ MAX_EXEC_STREAM_BYTES →
  ∃ c', capture_all observer x es c = (Ok c', c') ∧ exited c' = None ∧
    cap_stdout c' = cap_stdout c ++ output x false es ∧ cap_stderr c' = cap_stderr c ++ output x true es.
Proof.
  induction es as [|e es IH]; intros c Hex He Hd Ho Hr.
  { exists c. by rewrite !app_nil_r. }
  apply Forall_cons in Hd as [Hd Hds]. cbn [existsb] in He. apply orb_false_iff in He as [He Hes].
  change (output x false (e :: es)) with (chunk x false e ++ output x false es) in *.
  change (output x true (e :: es)) with (chunk x true e ++ output x true es) in *. rewrite len_app in Ho, Hr.
  pose proof (len_nonneg (output x false es)). pose proof (len_nonneg (output x true es)).
  destruct (capture_event e c) as (c1 & E1 & Hex1 & Ho1 & Hr1); [done|done|done|lia|lia|].
  destruct (IH c1) as (c2 & E2 & Hex2 & Ho2 & Hr2); [done|done|done|rewrite Ho1, len_app; lia|rewrite Hr1, len_app; lia|].
  exists c2. cbn [capture_all]. rewrite E1, E2, Ho2, Hr2, Ho1, Hr1, <- !app_assoc. done.
Qed.

(** Capturing the frames as they come is capturing their events. *)
Lemma observed_capture (es : list (Envelope Value)) : ∀ c c', capture_all observer x (omap frame_event es) c = (Ok c', c') →
  observed (observe_event x (capture observer x)) es c = Some c'.
Proof.
  induction es as [|e es IH]; intros c c' Hc; cbn in *; [congruence|].
  unfold observe_event at 1. destruct (frame_event e) as [ev|]; [|by apply IH]. cbn [capture_all] in Hc.
  assert (exits x ev || streams x ev = false → capture observer x ev c = Ok c) as Hskip.
  { unfold exits, streams, capture. destruct (event ev); try done; by case_bool_decide. }
  destruct (_ || _); [destruct (capture observer x ev c); [by apply IH|done]|].
  rewrite Hskip in Hc by done. by apply IH.
Qed.
Lemma capture_all_app (es1 es2 : list (Event Value)) c c1 : capture_all observer x es1 c = (Ok c1, c1) →
  capture_all observer x (es1 ++ es2) c = capture_all observer x es2 c1.
Proof.
  revert c. induction es1 as [|e es1 IH]; intros c Hc; cbn in *; [congruence|].
  destruct (capture observer x e c); [by apply IH|done].
Qed.
Lemma capture_all_split (es1 es2 : list (Event Value)) c c' : capture_all observer x (es1 ++ es2) c = (Ok c', c') →
  ∃ c1, capture_all observer x es1 c = (Ok c1, c1) ∧ capture_all observer x es2 c1 = (Ok c', c').
Proof.
  revert c. induction es1 as [|e es1 IH]; intros c Hc; cbn in *; [by exists c|].
  destruct (capture observer x e c); [by apply IH|done].
Qed.

(** The events of an execution that ends with its exit. *)
Lemma capture_until_exit es e code sig u : event e = ProcessExited x code sig → existsb (exits x) es = false →
  Forall (decodes x) es → len (output x false es) ≤ MAX_EXEC_STREAM_BYTES → len (output x true es) ≤ MAX_EXEC_STREAM_BYTES →
  ∃ c, capture_all observer x (es ++ [e]) (mkCapture [] [] None u) = (Ok c, c) ∧ exited c = Some (code, sig) ∧
    cap_stdout c = output x false es ∧ cap_stderr c = output x true es.
Proof.
  intros He Hes Hd Ho Hr. destruct (capture_all_output es (mkCapture [] [] None u)) as (c & E & Hex & Ho' & Hr'); try done.
  exists (c <| exited := Some (code, sig) |>). rewrite (capture_all_app _ _ _ _ E). cbn [capture_all].
  unfold capture. rewrite He, bool_decide_true, Hex by done. done.
Qed.
End captured.

(** Nothing follows the one element with a property that comes last. *)
Lemma last_only {A} (P : A → bool) l0 a l1 l2 : l0 ++ [a] = l1 ++ l2 → existsb P l0 = false → existsb P l1 = true → l2 = [].
Proof.
  intros E Hp0 Hp1. destruct l2 as [|b l2] using rev_ind; [done|]. exfalso. rewrite app_assoc in E.
  apply app_inj_tail in E as [-> _]. by rewrite existsb_app, Hp1 in Hp0.
Qed.
Lemma exit_frame_event x (es : list (Envelope Value)) : existsb (exits x) (omap frame_event es) = existsb (exit_frame x) es.
Proof.
  induction es as [|e es IH]; [done|]. cbn. unfold exit_frame at 1. destruct (frame_event e); [cbn; by rewrite <- IH|done].
Qed.

(** Collecting to the exit, the last frame that comes. *)
Lemma collect_served {U} (observer : StreamChannel → list Z → U → U) m es lastf reads x (w : World IO Q (Capture U)) c :
  link m (es ++ [lastf]) reads w → interactive (client w) = None →
  existsb (exit_frame x) es = false → exit_frame x lastf = true → len (es ++ [lastf]) ≤ MAX_FRAMES_PER_EXCHANGE →
  Z.of_nat (length reads) ≤ max_advances_per_request (client w) →
  capture_all observer x (omap frame_event (es ++ [lastf])) (seen w) = (Ok c, c) →
  ∃ evs w', collect_until_exit_observed x [] (capture observer x) w = (Ok evs, w') ∧ seen w' = c.
Proof.
  intros Hlink Hint He Hlast Hl Hb Hc. unfold collect_until_exit_observed.
  rewrite (sbind_ok _ _ w (max_advances_per_request (client w)) w) by done. pose proof (observed_capture observer x _ _ _ Hc) as Ho.
  destruct (pump_loop_served reads m (es ++ [lastf]) (Z.to_nat (max_advances_per_request (client w))) (io_dropped (io w)) 0
    (exit_frame x) (observe_event x (capture observer x)) [] w c) as (es1 & es2 & reads2 & w' & E & Hd & Ep & _ & _ & Hs & _); try done.
  { rewrite existsb_app. cbn. by rewrite Hlast, orb_true_r. }
  { lia. }
  pose proof (last_only (exit_frame x) _ _ _ _ E He Hd) as ->. rewrite app_nil_r in E. rewrite <- E in Hs, Ep.
  rewrite (sbind_ok _ _ w (es ++ [lastf]) w') by exact Ep. eexists _, w'. split; [done|]. rewrite Ho in Hs. by injection Hs.
Qed.

(** The end of an execution after its request: [es1] came with the response, the
    rest is collected. *)
Lemma rest_served {U} (observer : StreamChannel → list Z → U → U) m es lastf es1 es2 reads x (w : World IO Q U) c :
  es ++ [lastf] = es1 ++ es2 → link m es2 reads w → interactive (client w) = None →
  existsb (exit_frame x) es = false → exit_frame x lastf = true → len (es ++ [lastf]) ≤ MAX_FRAMES_PER_EXCHANGE →
  Z.of_nat (length reads) ≤ max_advances_per_request (client w) →
  capture_all observer x (omap frame_event (es ++ [lastf])) (mkCapture [] [] None (seen w)) = (Ok c, c) →
  ∃ w', capturing (
    let! _ := capture_events observer x (omap frame_event es1) in
    if existsb (exits x) (omap frame_event es1) then sret () else
    let! _ := collect_until_exit_observed x [] (capture observer x) in sret ()) w = (Ok ((), c), w').
Proof.
  intros E Hlink Hint He Hlast Hl Hb Hc. rewrite E, omap_app in Hc. apply capture_all_split in Hc as (c1 & Hc1 & Hc2).
  unfold capturing. set (w0 := mkWorld _ _ _). set (w1 := w0 <| seen := c1 |>).
  rewrite (sbind_ok _ _ w0 tt w1) by (unfold capture_events; change (seen w0) with (mkCapture [] [] None (seen w)); by rewrite Hc1).
  rewrite exit_frame_event. destruct (existsb (exit_frame x) es1) eqn:Ex.
  - pose proof (last_only _ _ _ _ _ E He Ex) as ->. injection Hc2 as ->. by eexists.
  - destruct es2 as [|y es2' _] using rev_ind.
    { rewrite app_nil_r in E. rewrite <- E, existsb_app in Ex. cbn in Ex. by rewrite Hlast, orb_true_r in Ex. }
    rewrite app_assoc in E. apply app_inj_tail in E as [-> <-]. rewrite existsb_app, Ex in He. rewrite <- app_assoc, len_app in Hl.
    pose proof (len_nonneg es1). destruct (collect_served observer m es2' lastf reads x w1 c) as (evs & w2 & E2 & Hs); try done; [|lia|].
    + by destruct Hlink.
    + rewrite (sbind_ok _ _ _ _ _ E2). cbn. rewrite Hs. by eexists.
Qed.

Lemma execute_served {U} (observer : StreamChannel → list Z → U → U) m es lastf reads session req f x pid code sig ev (w : World IO Q U) :
  let id := mkRequestId ("vm-req-" +:+ pretty (next_request_id (client w))) in
  link m (es ++ [lastf]) reads w → negotiated (client w) = Some session → word 64 (next_request_id (client w)) →
  encode (encoder (client w)) (with_version (session_version session) (MRequest (mkRequest id (Exec req)))) = Ok f →
  attach_stdin req = false →
  Z.of_nat (length reads) ≤ max_advances_per_request (client w) → len (es ++ [lastf]) ≤ MAX_FRAMES_PER_EXCHANGE →
  omap (response_to id) (es ++ [lastf]) = [mkResponse id (Success (ExecStarted x pid))] →
  existsb (exit_frame x) es = false → frame_event lastf = Some ev → event ev = ProcessExited x code sig →
  Forall (decodes x) (omap frame_event es) →
  len (output x false (omap frame_event es)) ≤ MAX_EXEC_STREAM_BYTES →
  len (output x true (omap frame_event es)) ≤ MAX_EXEC_STREAM_BYTES →
  ∃ w', execute_observed observer req [] w =
    (Ok (mkOutcome code sig (output x false (omap frame_event es)) (output x true (omap frame_event es))), w').
Proof.
  intros id [Hrc Hio] Hneg Hn He Hatt Hb Hl Hresp Hes Hlast Hev Hd Ho Hr. unfold execute_observed, execute_with_stdin.
  set (w0 := w <| client ::= λ c, c <| interactive := None |> |>). rewrite (sbind_ok _ _ w tt w0) by done.
  destruct (request_served m (es ++ [lastf]) reads session (Exec req) f (mkResponse id (Success (ExecStarted x pid))) w0)
    as (es1 & es2 & reads2 & w1 & E & Er & Hlink & Hlen & Hs & Hint & Hmax); try done.
  rewrite (sbind_ok _ _ _ _ _ Er), (sbind_ok _ _ w1 x w1), (sbind_ok _ _ w1 tt w1), (sbind_ok _ _ w1 false w1) by
    first [done|unfold sread; by rewrite Hatt].
  rewrite (sbind_ok _ _ w1 (omap frame_event es1) w1) by done. cbv zeta.
  destruct (capture_until_exit observer x (omap frame_event es) ev code sig (seen w)) as (c & Hc & Hex & Hco & Hce); try done.
  { by rewrite exit_frame_event. }
  destruct (rest_served observer m es lastf es1 es2 reads2 x w1 c) as [w2 E2]; try done.
  - unfold exit_frame. rewrite Hlast. unfold exits. by rewrite Hev, bool_decide_true.
  - rewrite Hmax. cbn. lia.
  - rewrite omap_app, Hs. change (omap frame_event [lastf]) with (match frame_event lastf with Some e => [e] | None => [] end).
    by rewrite Hlast.
  - rewrite (sbind_ok _ _ _ _ _ E2), (sbind_ok _ _ w2 tt (w2 <| client ::= λ c, c <| interactive := None |> |>)) by done.
    cbn [snd]. rewrite Hex, Hco, Hce. by eexists.
Qed.
End served.

(** C5: A served execution without standard input completes: when the transport takes the
    request and brings, in any division into reads of at most a maximal frame each and
    within the step budget, at most 100000 frames of the negotiated version, each of
    which the JSON library reads back, among which one answers the request with the id of
    the execution and the last reports its exit, and whose output for that execution can
    be decoded and is at most 64 MiB on each stream, the execution succeeds with the
    reported exit and with exactly that output, in order, each chunk on its stream. *)
Theorem execution_is_served {Value IO Q U : Type} `{Serde Value} `{Delivers IO} `{PendingStdin Q} `{Base64}
    (observer : StreamChannel → list Z → U → U) (w : World IO Q U) (session : NegotiatedSession) (req : ExecRequest)
    (x : string) (pid : Z) (code sig : option Z) (es : list (Envelope Value)) (lastf : Envelope Value) (ev : Event Value)
    (fs reads : list (list Z)) (f : list Z) :
  let d := decoder (client w) in let m := dec_max_frame_size d in
  let id := mkRequestId ("vm-req-" +:+ pretty (next_request_id (client w))) in
  negotiated (client w) = Some session → 0 ≤ next_request_id (client w) < 2 ^ 64 → dec_ok d → unread d = [] →
  encode (encoder (client w)) (with_version (session_version session) (MRequest (mkRequest id (Exec req)))) = Ok f →
  attach_stdin req = false →
  Forall2 (λ e f, encode (mkEncoder m) e = Ok f) (es ++ [lastf]) fs → Forall reads_back (es ++ [lastf]) → concat reads = concat fs →
  Forall (λ r, len r ≤ m + PREFIX_SIZE) reads → delivers (io w) reads →
  (∀ v, expected_version d = Some v → Forall (λ e, version e = v) (es ++ [lastf])) →
  Z.of_nat (length reads) ≤ max_advances_per_request (client w) → len (es ++ [lastf]) ≤ MAX_FRAMES_PER_EXCHANGE →
  omap (response_to id) (es ++ [lastf]) = [mkResponse id (Success (ExecStarted x pid))] →
  existsb (exit_frame x) es = false → frame_event lastf = Some ev → event ev = ProcessExited x code sig →
  Forall (decodes x) (omap frame_event es) →
  (∀ err, len (output x err (omap frame_event es)) ≤ MAX_EXEC_STREAM_BYTES) →
  ∃ w', execute_observed observer req [] w =
    (Ok (mkOutcome code sig (output x false (omap frame_event es)) (output x true (omap frame_event es))), w').
Proof.
  intros d m id Hneg Hn Hd Hu He Hatt Hfs Hback Hcat Hsz Hio Hv Hb Hl Hresp Hes Hlast Hev Hdec Hout.
  apply (execute_served observer m es lastf reads session req f x pid code sig ev w); try done.
  split; [|done]. apply (receiving_start m _ fs); try done. by apply encoded_frames.
Qed.

(** ** Sessions on a scripted transport *)

(** A transport that takes the scripted numbers of bytes at its writes, then all of
    them, and returns the scripted reads. *)
Record Script := mkScript { to_take : list Z; to_read : list (list Z); lost : Z; losses : list Z; taken : list Z; clock : Z }.
#[export] Instance Script_eta : Settable Script := λ s,
  mkScript (to_take s) (to_read s) (lost s) (losses s) (taken s) (clock s).
#[export] Instance Script_io : SessionIo Script := {|
  io_write bytes s :=
    match to_take s with
    | [] => (len bytes, s <| taken ::= λ t, t ++ bytes |>)
    | n :: rest => (n, s <| to_take := rest |> <| taken ::= λ t, t ++ take (Z.to_nat n) bytes |>)
    end;
  io_advance s :=
    (Ok (default [] (head (to_read s))),
     s <| to_read ::= tail |> <| lost ::= Z.add (default 0 (head (losses s))) |> <| losses ::= tail |> <| clock ::= Z.add 1 |>);
  io_dropped := lost
|}.
#[export] Instance Script_metered : Metered Script.
Proof.
  refine {| steps := clock |}; intros; cbn.
  - by destruct (to_take i).
  - lia.
Defined.
#[export] Instance Script_delivers : Delivers Script.
Proof.
  refine {| delivers i reads := to_take i = [] ∧ to_read i = reads ∧ losses i = [] |}.
  - intros i reads bytes (Et & Er & El). cbn. rewrite Et. by eexists.
  - intros i r reads (Et & Er & El). eexists. cbn. rewrite Er, El. split; [done|]. cbn. by rewrite Et, Er, El.
Defined.

(** Queued input: what each poll takes. *)
#[export] Instance Queue_stdin : PendingStdin (list (list Z)) := {|
  take_pending q := match q with [] => (None, []) | data :: q => (Some data, q) end;
  close_requested q := false
|}.
(** Payloads are not encoded. *)
#[export] Instance plain_base64 : Base64 := {|
  encode_base64 bytes := String.string_of_list_ascii ((λ b, Ascii.ascii_of_N (Z.to_N b)) <$> bytes);
  base64_decode s := Ok ((λ c, Z.of_N (Ascii.N_of_ascii c)) <$> String.list_ascii_of_string s)
|}.

(** A codec that numbers the messages of a table. *)
Section table.
Context (table : list (Envelope ())).
Definition table_serde : Serde () := {|
  to_vec e := match list_find (eq e) table with Some (i, _) => Ok [Z.of_nat i] | None => Err "unknown message" end;
  from_slice bs :=
    match bs with
    | [n] => match table !! Z.to_nat n with Some e => Ok e | None => Err "unknown number" end
    | _ => Err "unknown number"
    end
|}.
Lemma table_reads_back e : @reads_back () table_serde e.
Proof.
  intros bs. cbn. destruct (list_find _ _) as [[i e']|] eqn:Ef; [|done]. apply list_find_Some in Ef as (Hi & -> & _).
  intros [= <-]. by rewrite Nat2Z.id, Hi.
Qed.
End table.

Definition demo_exec : ExecRequest := mkExecRequest ["id"] ∅ None None false false true true None.
Definition demo_host (n : Z) (operation : Operation ()) : Envelope () :=
  with_version CURRENT_PROTOCOL_VERSION (MRequest (mkRequest (mkRequestId ("vm-req-" +:+ pretty n)) operation)).
Definition demo_reply (n : Z) (result : ResponsePayload) : Envelope () :=
  with_version CURRENT_PROTOCOL_VERSION (MResponse (mkResponse (mkRequestId ("vm-req-" +:+ pretty n)) (Success result))).
Definition demo_event (e : EventKind ()) : Envelope () := with_version CURRENT_PROTOCOL_VERSION (MEvent (mkEvent 0 0 None e)).

Definition demo_started : Envelope () := demo_reply 1 (ExecStarted "e1" 7).
Definition demo_out : Envelope () := demo_event (Stream "e1" Stdout 0 "uid=0" false).
Definition demo_other : Envelope () := demo_event (Stream "e0" Stdout 0 "noise" false).
Definition demo_err : Envelope () := demo_event (Stream "e1" Stderr 1 "warn" false).
Definition demo_exit : Envelope () := demo_event (ProcessExited "e1" (Some 0) None).
Definition demo_table : list (Envelope ()) :=
  [demo_host 1 (Exec demo_exec); demo_started; demo_out; demo_other; demo_err; demo_exit;
   demo_host 1 (Ping "a"); demo_reply 1 (Pong "a"); demo_host 2 (Ping "b"); demo_reply 2 (Pong "b");
   demo_host 2 (StreamOp (mkStreamRequest "e1" (WriteStdin "y"))); demo_event Heartbeat;
   demo_host 3 (StreamOp (mkStreamRequest "e1" (WriteStdin "y")))].
#[local] Instance demo_serde : Serde () := table_serde demo_table.

(** The bytes of a frame on the wire, a client of ten steps, and its world. *)
Definition wire (e : Envelope ()) : list Z := match encode (mkEncoder 64) e with Ok f => f | Err _ => [] end.
Definition demo_client : SessionClient (list (list Z)) :=
  mkClient (mkEncoder 64) (mkDecoder [] 0 64 64 (buffer_limit 64) (Some CURRENT_PROTOCOL_VERSION) false)
    (Some (mkNegotiated "s" CURRENT_PROTOCOL_VERSION 64)) 1 10 None.
Definition demo_world (takes : list Z) (reads : list (list Z)) (drops : list Z) :
    World Script (list (list Z)) (list (StreamChannel * list Z)) :=
  mkWorld demo_client (mkScript takes reads 0 drops [] 0) [].
Definition demo_log (channel : StreamChannel) (bytes : list Z) (l : list (StreamChannel * list Z)) : list (StreamChannel * list Z) :=
  l ++ [(channel, bytes)].
Definition demo_frames : list (Envelope ()) := [demo_started; demo_out; demo_other; demo_err].
Definition demo_bytes : list Z := concat (wire <$> demo_frames ++ [demo_exit]).

Lemma execution_is_served_witness :
  ∃ w', execute_observed (Value := ()) demo_log demo_exec [] (demo_world [] [take 7 demo_bytes; drop 7 demo_bytes] []) =
    (Ok (mkOutcome (Some 0) None (output "e1" false (omap frame_event demo_frames)) (output "e1" true (omap frame_event demo_frames))), w').
Proof.
  apply (execution_is_served demo_log (demo_world [] [take 7 demo_bytes; drop 7 demo_bytes] [])
    (mkNegotiated "s" CURRENT_PROTOCOL_VERSION 64) demo_exec "e1" 7 (Some 0) None demo_frames demo_exit
    (mkEvent 0 0 None (ProcessExited "e1" (Some 0) None)) (wire <$> demo_frames ++ [demo_exit])
    [take 7 demo_bytes; drop 7 demo_bytes] (wire (demo_host 1 (Exec demo_exec)))).
  - reflexivity.
  - cbn. lia.
  - split; cbn; unfold len; cbn; (lia || reflexivity).
  - reflexivity.
  - vm_compute. reflexivity.
  - reflexivity.
  - unfold demo_frames. cbn [app fmap list_fmap]. repeat (constructor; [vm_compute; reflexivity|]). constructor.
  - apply Forall_forall. intros e _. apply table_reads_back.
  - vm_compute. reflexivity.
  - repeat (constructor; [vm_compute; discriminate|]). constructor.
  - repeat split.
  - intros v [= <-]. repeat (constructor; [reflexivity|]). constructor.
  - cbn. lia.
  - vm_compute. discriminate.
  - vm_compute. reflexivity.
  - vm_compute. reflexivity.
  - reflexivity.
  - reflexivity.
  - repeat (constructor; [intros ?; eexists; reflexivity|]). constructor.
  - intros [|]; vm_compute; discriminate.
Defined.

Lemma execution_within_budget_witness :
  steps (io (execute_with_stdin (Value := ()) demo_log demo_exec [] None (demo_world [] [] [])).2) ≤
    steps (io (demo_world [] [] [])) + 7 * max_advances_per_request (client (demo_world [] [] [])).
Proof. exact (execution_within_budget (Value := ()) demo_log demo_exec [] None (demo_world [] [] []) (proj1 (Z.leb_le 0 10) eq_refl)). Defined.

Definition demo_execution := execute_with_stdin (Value := ()) demo_log demo_exec [] None (demo_world [] [demo_bytes] []).
Lemma demo_execution_ok : ∃ outcome w', demo_execution = (Ok outcome, w').
Proof. vm_compute. by eexists _, _. Qed.
Lemma outcome_is_observed_witness : ∃ outcome chunks w', demo_execution = (Ok outcome, w') ∧
  seen w' = observe demo_log [] chunks ∧ stdout outcome = stream_bytes false chunks ∧ stderr outcome = stream_bytes true chunks.
Proof.
  destruct demo_execution_ok as (outcome & w' & E).
  destruct (outcome_is_observed (Value := ()) demo_log demo_exec [] None (demo_world [] [demo_bytes] []) w' outcome E)
    as (chunks & H1 & H2 & H3 & _).
  exists outcome, chunks, w'. exact (conj E (conj H1 (conj H2 H3))).
Defined.

Definition demo_pings := demo_world [] [wire (demo_reply 1 (Pong "a")); wire (demo_reply 2 (Pong "b"))] [].
Lemma demo_pings_ok : ∃ e1 w1 e2 w2, request (Ping "a") demo_pings = (Ok e1, w1) ∧ request (Ping "b") w1 = (Ok e2, w2).
Proof.
  assert (∃ e1 w1, request (Ping "a") demo_pings = (Ok e1, w1)) as (e1 & w1 & E1) by (vm_compute; by eexists _, _).
  assert (∃ e2 w2, request (Ping "b") (request (Ping "a") demo_pings).2 = (Ok e2, w2)) as (e2 & w2 & E2) by (vm_compute; by eexists _, _).
  exists e1, w1, e2, w2. split; [exact E1|]. by rewrite E1 in E2.
Qed.
Lemma responses_correlated_witness : ∃ e1 w1 e2 w2,
  request (Ping "a") demo_pings = (Ok e1, w1) ∧ request (Ping "b") w1 = (Ok e2, w2) ∧
  response_id (response e1) ≠ response_id (response e2).
Proof.
  destruct demo_pings_ok as (e1 & w1 & e2 & w2 & E1 & E2). exists e1, w1, e2, w2. split; [exact E1|]. split; [exact E2|].
  assert (0 ≤ next_request_id (client demo_pings) < 2 ^ 64 - 1) as Hn by (cbn; lia).
  exact (proj2 (proj2 (responses_correlated (Ping "a") (Ping "b") demo_pings w1 w2 e1 e2 Hn E1 E2))).
Defined.

(** ** What the session loses *)

Definition exchange_of {A} (r : result SessionError (Exchange ()) * A) : option (list (Event ())) :=
  match r.1 with Ok ex => Some (exchange_events ex) | Err _ => None end.
Definition demo_reads : list (list Z) := [wire (demo_event Heartbeat); wire (demo_reply 1 (Pong "a"))].
(** [write_frame] drops the bytes [advance] returns: of the same two reads the exchange
    keeps the event if the transport takes the request whole, and loses it if the
    transport takes three bytes first. *)
Lemma output_lost_while_writing :
  exchange_of (request (Ping "a") (demo_world [] demo_reads [])) = Some [mkEvent 0 0 None Heartbeat] ∧
  exchange_of (request (Ping "a") (demo_world [3] demo_reads [])) = Some [].
Proof. by vm_compute. Qed.
(** Nor does it look at the count of dropped bytes, which the pump reads after it. *)
Lemma drop_while_writing_unnoticed :
  let r := request (Ping "a") (demo_world [3] demo_reads [5]) in exchange_of r = Some [] ∧ io_dropped (io r.2) = 5.
Proof. by vm_compute. Qed.

(** An interactive execution that fails stays registered: the next request writes the
    queued input to it. *)
Definition demo_failed := execute_interactive (Value := ()) demo_log demo_exec [[121]]
  (demo_world [] [wire demo_started ++ wire demo_exit ++ wire demo_exit; wire (demo_reply 2 (Pong "b"))] []).
Lemma input_after_failed_execution :
  demo_failed.1 = Err (StreamError "guest reported ProcessExited twice") ∧
  taken (io (request (Value := ()) (Ping "b") demo_failed.2).2) =
    wire (demo_host 1 (Exec demo_exec)) ++ wire (demo_host 2 (Ping "b")) ++
    wire (demo_host 3 (StreamOp (mkStreamRequest "e1" (WriteStdin "y")))).
Proof. by vm_compute. Qed.

(** The fuel of the loop over frames is enough. *)
Lemma take_frames_fuel {Value IO Q Obs} `{Serde Value} n observer : ∀ n' collected (w : World IO Q Obs),
  in_buffer (decoder (client w)) → buffered_len (decoder (client w)) < Z.of_nat n →
  buffered_len (decoder (client w)) < Z.of_nat n' → take_frames n observer collected w = take_frames n' observer collected w.
Proof.
  induction n as [|n IH]; intros [|n'] collected w Hd Hn Hn'; try (unfold buffered_len in *; lia). cbn [take_frames].
  unfold sbind, on_decoder. destruct (next_frame (decoder (client w))) as [[[e|]|] d1] eqn:En; [|done|done].
  destruct (next_frame_progress _ _ _ Hd En) as [Hd1 Hl]. unfold PREFIX_SIZE in Hl. cbn [map_err]. unfold take_frame.
  destruct (_ <=? _); [done|]. destruct (observer _ _); [|done]. apply IH; [done| |]; cbn; lia.
Qed.
