(* ===== verification/Text.v ===== *)
(** Text: the parts of [str], [String] and [u8] that the image crates use. A string
    is the list of its UTF-8 bytes. *)
From stdpp Require Import strings gmap.
From S2P Require Import Prelude.
Local Open Scope Z_scope.

(** The bytes of an ASCII text. *)
Definition bytes_of (text : string) : list Z := (λ c, Z.of_N (Ascii.N_of_ascii c)) <$> String.list_ascii_of_string text.
(** [str::cmp] and [[u8; 32]::cmp] *)
Fixpoint lex_leb (a b : list Z) : bool :=
  match a, b with
  | [], _ => true
  | _ :: _, [] => false
  | x :: a, y :: b => if x <? y then true else if x =? y then lex_leb a b else false
  end.

(** ** UTF-8 *)

Definition continuation (b : Z) : bool := (0x80 <=? b) && (b <=? 0xBF).
Definition between (lo hi b : Z) : bool := (lo <=? b) && (b <=? hi).
(** [str::from_utf8] succeeds. *)
Fixpoint utf8_valid (bytes : list Z) : bool :=
  match bytes with
  | [] => true
  | a :: rest =>
      if a <? 0x80 then utf8_valid rest
      else
        match rest with
        | b :: rest =>
            if between 0xC2 0xDF a then continuation b && utf8_valid rest
            else
              match rest with
              | c :: rest =>
                  if between 0xE0 0xEF a
                  then (if a =? 0xE0 then between 0xA0 0xBF b else if a =? 0xED then between 0x80 0x9F b else continuation b)
                       && continuation c && utf8_valid rest
                  else
                    match rest with
                    | d :: rest =>
                        between 0xF0 0xF4 a
                        && (if a =? 0xF0 then between 0x90 0xBF b else if a =? 0xF4 then between 0x80 0x8F b else continuation b)
                        && continuation c && continuation d && utf8_valid rest
                    | [] => false
                    end
              | [] => false
              end
        | [] => false
        end
  end.
Definition to_str (n : list Z) : option (list Z) := if utf8_valid n then Some n else None.

(** ** Classes of bytes *)

Definition is_ascii_digit (b : Z) : bool := between 48 57 b.
Definition is_ascii_lowercase (b : Z) : bool := between 97 122 b.
Definition is_ascii_uppercase (b : Z) : bool := between 65 90 b.
Definition is_ascii_alphanumeric (b : Z) : bool := between 48 57 b || between 65 90 b || between 97 122 b.
Definition to_ascii_lowercase (b : Z) : Z := if (65 <=? b) && (b <=? 90) then b + 32 else b.
Definition is_ascii_hexdigit (b : Z) : bool :=
  (48 <=? b) && (b <=? 57) || (65 <=? b) && (b <=? 70) || (97 <=? b) && (b <=? 102).
Definition is_ascii_control (b : Z) : bool := (b <? 32) || (b =? 127).
Definition is_ascii_whitespace (b : Z) : bool := (b =? 32) || (b =? 9) || (b =? 10) || (b =? 12) || (b =? 13).
Definition lowercase (s : list Z) : list Z := to_ascii_lowercase <$> s.

(** ** Searching *)

Definition contains_char (c : Z) (s : list Z) : bool := existsb (Z.eqb c) s.
Definition starts_with (p s : list Z) : bool := bool_decide (p `prefix_of` s).
Fixpoint contains_str (p s : list Z) : bool :=
  starts_with p s || match s with [] => false | _ :: s => contains_str p s end.
(** [split_once(c)] and [rsplit_once(c)] *)
Fixpoint split_once (c : Z) (s : list Z) : option (list Z * list Z) :=
  match s with
  | [] => None
  | b :: rest =>
      if b =? c then Some ([], rest)
      else match split_once c rest with Some (a, e) => Some (b :: a, e) | None => None end
  end.
Fixpoint rsplit_once (c : Z) (s : list Z) : option (list Z * list Z) :=
  match s with
  | [] => None
  | b :: rest =>
      match rsplit_once c rest with
      | Some (a, e) => Some (b :: a, e)
      | None => if b =? c then Some ([], rest) else None
      end
  end.
(** [split(p)]: the pieces, at least one. *)
Fixpoint split_on (p : Z → bool) (s : list Z) : list (list Z) :=
  match s with
  | [] => [[]]
  | b :: rest =>
      if p b then [] :: split_on p rest
      else match split_on p rest with piece :: pieces => (b :: piece) :: pieces | [] => [[b]] end
  end.

(** ** Trimming *)

(** The length of the white-space character at the start, none being 0; then the same
    for a string given backwards. *)
Definition white_start (s : list Z) : nat :=
  match s with
  | a :: rest =>
      if between 9 13 a || (a =? 32) then 1
      else
        match rest with
        | b :: rest =>
            if (a =? 0xC2) && ((b =? 0x85) || (b =? 0xA0)) then 2
            else
              match rest with
              | c :: _ =>
                  if (a =? 0xE1) && (b =? 0x9A) && (c =? 0x80)
                     || (a =? 0xE2) && (b =? 0x80) && (between 0x80 0x8A c || (c =? 0xA8) || (c =? 0xA9) || (c =? 0xAF))
                     || (a =? 0xE2) && (b =? 0x81) && (c =? 0x9F)
                     || (a =? 0xE3) && (b =? 0x80) && (c =? 0x80)
                  then 3 else 0
              | [] => 0
              end
        | [] => 0
        end
  | [] => 0
  end.
Definition white_end (s : list Z) : nat :=
  match s with
  | a :: rest =>
      if between 9 13 a || (a =? 32) then 1
      else
        match rest with
        | b :: rest =>
            if (white_start [b; a] =? 2)%nat then 2
            else match rest with c :: _ => if (white_start [c; b; a] =? 3)%nat then 3 else 0 | [] => 0 end
        | [] => 0
        end
  | [] => 0
  end.
Fixpoint strip (white : list Z → nat) (fuel : nat) (s : list Z) : list Z :=
  match fuel, white s with
  | S fuel, S n => strip white fuel (drop (S n) s)
  | _, _ => s
  end.
(** [trim()]; each step drops a character, so the length is fuel enough. *)
Definition trim (s : list Z) : list Z :=
  let s := strip white_start (length s) s in reverse (strip white_end (length s) (reverse s)).

(** ** Numbers *)

Fixpoint digits_value (maximum value : Z) (s : list Z) : option Z :=
  match s with
  | [] => Some value
  | d :: s =>
      if is_ascii_digit d
      then let value := value * 10 + (d - 48) in if maximum <? value then None else digits_value maximum value s
      else None
  end.
(** [parse::<uN>()]: a sign [+] is accepted before at least one digit. *)
Definition parse_unsigned (bits : Z) (s : list Z) : option Z :=
  let s := if starts_with [43] s && (1 <? length s)%nat then drop 1 s else s in
  match s with [] => None | _ => digits_value (2 ^ bits - 1) 0 s end.

(** ** Facts *)

Lemma contains_char_false c s : contains_char c s = false ↔ c ∉ s.
Proof.
  unfold contains_char. rewrite <- not_true_iff_false, existsb_exists. split.
  - intros H Hc. apply H. exists c. split; [by apply list_elem_of_In|apply Z.eqb_refl].
  - intros H (x & Hx & ->%Z.eqb_eq). by apply H, list_elem_of_In.
Qed.
Lemma contains_char_true c s : contains_char c s = true ↔ c ∈ s.
Proof. rewrite <- not_false_iff_true, contains_char_false. destruct (decide (c ∈ s)); tauto. Qed.
Lemma split_once_app c a b : c ∉ a → split_once c (a ++ c :: b) = Some (a, b).
Proof.
  induction a as [|x a IH]; intros Hc; cbn; [by rewrite Z.eqb_refl|].
  apply not_elem_of_cons in Hc as [Hx Hc]. replace (x =? c) with false by lia. by rewrite IH.
Qed.
Lemma split_once_Some c s a b : split_once c s = Some (a, b) → s = a ++ c :: b ∧ c ∉ a.
Proof.
  revert a. induction s as [|x s IH]; intros a; cbn; [done|]. destruct (Z.eqb_spec x c) as [->|Hx].
  - intros [= <- <-]. split; [done|by apply not_elem_of_nil].
  - destruct (split_once c s) as [[a' b']|]; [|done]. intros [= <- <-]. destruct (IH a' eq_refl) as [-> Hc].
    split; [done|]. apply not_elem_of_cons. split; [congruence|done].
Qed.
Lemma rsplit_once_None c s : c ∉ s → rsplit_once c s = None.
Proof.
  induction s as [|x s IH]; cbn; [done|]. intros [Hx Hc]%not_elem_of_cons. rewrite IH by done. by replace (x =? c) with false by lia.
Qed.
Lemma rsplit_once_app c a b : c ∉ b → rsplit_once c (a ++ c :: b) = Some (a, b).
Proof.
  intros Hc. induction a as [|x a IH]; cbn; [by rewrite rsplit_once_None, Z.eqb_refl|by rewrite IH].
Qed.
Lemma rsplit_once_Some c s a b : rsplit_once c s = Some (a, b) → s = a ++ c :: b ∧ c ∉ b.
Proof.
  revert a. induction s as [|x s IH]; intros a; cbn; [done|]. destruct (rsplit_once c s) as [[a' b']|] eqn:E.
  - intros [= <- <-]. destruct (IH a' eq_refl) as [-> Hc]. done.
  - destruct (Z.eqb_spec x c) as [->|]; [|done]. intros [= <- <-]. split; [done|]. intros Hin.
    apply list_elem_of_split_r in Hin as (l1 & l2 & -> & Hc). by rewrite rsplit_once_app in E.
Qed.
Lemma rsplit_once_None_inv c s : rsplit_once c s = None → c ∉ s.
Proof. intros E Hin. apply list_elem_of_split_r in Hin as (l1 & l2 & -> & Hc). by rewrite rsplit_once_app in E. Qed.

Lemma split_on_nonempty p s : split_on p s ≠ [].
Proof. induction s as [|x s IH]; cbn; [done|]. destruct (p x); [done|]. by destruct (split_on p s). Qed.
Lemma split_on_app p a c b : p c = true → split_on p (a ++ c :: b) = split_on p a ++ split_on p b.
Proof.
  intros Hc. induction a as [|x a IH]; cbn; [by rewrite Hc|]. destruct (p x); [by rewrite IH|]. rewrite IH.
  destruct (split_on p a) as [|piece pieces] eqn:E; [by apply split_on_nonempty in E|done].
Qed.
Lemma split_on_none p s : Forall (λ b, p b = false) s → split_on p s = [s].
Proof. induction 1 as [|x s Hx _ IH]; cbn; [done|]. by rewrite Hx, IH. Qed.
(** A tail without separators extends the last piece. *)
Lemma split_on_tail p a b : Forall (λ x, p x = false) b → ∃ front piece, split_on p a = front ++ [piece] ∧
  split_on p (a ++ b) = front ++ [piece ++ b].
Proof.
  intros Hb. induction a as [|x a IH]; cbn; [exists [], []; by rewrite split_on_none|]. destruct IH as (front & piece & E1 & E2).
  destruct (p x); [exists ([] :: front), piece; by rewrite E1, E2|]. rewrite E1, E2. destruct front as [|y front]; cbn.
  - by exists [], (x :: piece).
  - by exists ((x :: y) :: front), piece.
Qed.
Lemma split_on_Forall p (Q : Z → Prop) s : Forall (Forall Q) (split_on p s) → Forall (λ b, p b = true ∨ Q b) s.
Proof.
  induction s as [|x s IH]; cbn; [by constructor|]. destruct (p x) eqn:E.
  - intros [_ H]%Forall_cons. constructor; [by left|by apply IH].
  - destruct (split_on p s) as [|piece pieces] eqn:Es; [by apply split_on_nonempty in Es|].
    intros [[Hx Hp]%Forall_cons H]%Forall_cons. constructor; [by right|]. apply IH. by constructor.
Qed.
(** Text whose pieces are not empty has no separator twice in a row. *)
Lemma no_double c p s : Forall (λ piece, piece ≠ []) (split_on (Z.eqb c) s) → contains_str (p :: [c; c]) s = false.
Proof.
  intros Hs. destruct (contains_str _ s) eqn:E; [|done]. exfalso.
  assert (∃ a b, s = a ++ p :: c :: c :: b) as (a & b & ->).
  { clear Hs. induction s as [|x s IH]; cbn [contains_str] in E.
    - unfold starts_with in E. case_bool_decide as Hp; [|done]. by apply prefix_nil_inv in Hp.
    - apply orb_true_iff in E as [E|E].
      + unfold starts_with in E. apply bool_decide_eq_true in E as [b ->]. by exists [], b.
      + destruct (IH E) as (a & b & ->). by exists (x :: a), b. }
  replace (a ++ p :: c :: c :: b) with ((a ++ [p]) ++ c :: ([] ++ c :: b)) in Hs by (by rewrite <- app_assoc).
  rewrite !split_on_app in Hs by apply Z.eqb_refl. apply Forall_app in Hs as [_ Hs]. cbn in Hs. rewrite Z.eqb_refl in Hs. by apply Forall_cons in Hs as [].
Qed.
(** Text that begins and ends in printing ASCII is trimmed already. *)
Definition graphic (b : Z) : Prop := 33 ≤ b < 127.
Lemma white_start_graphic b s : graphic b → white_start (b :: s) = 0%nat.
Proof.
  intros Hb. unfold graphic in Hb. unfold white_start, between. replace ((9 <=? b) && (b <=? 13) || (b =? 32)) with false by lia.
  destruct s as [|x s]; [done|]. replace (b =? 0xC2) with false by lia. cbn [andb]. destruct s as [|y s]; [done|].
  replace (b =? 0xE1) with false by lia. replace (b =? 0xE2) with false by lia. replace (b =? 0xE3) with false by lia. done.
Qed.
Lemma white_end_graphic b s : graphic b → white_end (b :: s) = 0%nat.
Proof.
  intros Hb. unfold graphic in Hb. unfold white_end. unfold between at 1. replace ((9 <=? b) && (b <=? 13) || (b =? 32)) with false by lia.
  destruct s as [|x s]; [done|]. assert ((white_start [x; b] =? 2)%nat = false) as ->.
  { unfold white_start. destruct (_ || _); [done|]. replace ((b =? 0x85) || (b =? 0xA0)) with false by lia. by rewrite andb_false_r. }
  destruct s as [|y s]; [done|]. assert ((white_start [y; x; b] =? 3)%nat = false) as ->; [|done].
  unfold white_start, between. destruct (_ || _); [done|]. destruct (_ && _); [done|].
  replace (b =? 0x80) with false by lia. replace (b =? 0x9F) with false by lia.
  replace ((0x80 <=? b) && (b <=? 0x8A) || (b =? 0xA8) || (b =? 0xA9) || (b =? 0xAF)) with false by lia. by rewrite !andb_false_r.
Qed.
Lemma strip_none white fuel s : white s = 0%nat → strip white fuel s = s.
Proof. intros E. destruct fuel; cbn; [done|]. by rewrite E. Qed.
Lemma trim_graphic a s b : graphic a → graphic b → trim (a :: s ++ [b]) = a :: s ++ [b].
Proof.
  intros Ha Hb. unfold trim. rewrite (strip_none white_start) by (by apply white_start_graphic).
  rewrite strip_none; [by rewrite reverse_involutive|]. rewrite app_comm_cons, reverse_snoc. by apply white_end_graphic.
Qed.
