(* ===== verification/Filesystem.v ===== *)
(** The file system: the calls of [std::fs] that [rish-layer], [rish-content] and
    [rish-snapshot] make.

    Names are byte strings and an absolute path is the list of its names. The tree is
    a finite map from the paths of its nodes; file contents are inodes, shared by
    hard links. The kernel follows symbolic links in every component of a path but
    the last, at most forty times; calls that follow the last one too say so. A call
    can also fail for reasons outside the tree, which [faults] decides. *)
From Stdlib Require Import Sorted.
From stdpp Require Import strings gmap.
From S2P Require Import Prelude.
Local Open Scope Z_scope.

Abbreviation name := (list Z).
Abbreviation fspath := (list name).

(** ** [std::path] on Unix *)

Definition SLASH : Z := 47.
Definition DOT : Z := 46.
Inductive Component := RootDir | CurDir | ParentDir | Normal (part : name).
#[export] Instance Component_eq_dec : EqDecision Component.
Proof. solve_decision. Defined.

(** The segments between slashes. *)
Fixpoint split_slash (bytes : list Z) : list (list Z) :=
  match bytes with
  | [] => [[]]
  | b :: rest =>
      if b =? SLASH then [] :: split_slash rest
      else match split_slash rest with
           | segment :: segments => (b :: segment) :: segments
           | [] => [[b]]
           end
  end.
(** A segment that is not the first: repeated slashes and [.] vanish. *)
Definition component (segment : list Z) : list Component :=
  if bool_decide (segment = []) || bool_decide (segment = [DOT]) then []
  else if bool_decide (segment = [DOT; DOT]) then [ParentDir]
  else [Normal segment].
Definition is_absolute (bytes : list Z) : bool := match bytes with b :: _ => b =? SLASH | [] => false end.
(** [Path::components]: a leading [.] is kept. *)
Definition components (bytes : list Z) : list Component :=
  if is_absolute bytes then RootDir :: concat (component <$> split_slash bytes)
  else
    match split_slash bytes with
    | [] => []
    | first :: rest =>
        (if bool_decide (first = [DOT]) then [CurDir] else component first) ++ concat (component <$> rest)
    end.

(** ** Nodes *)

Inductive Node := Dir (mode : Z) | Regular (inode : Z) | Symlink (target : list Z).
#[export] Instance Node_eq_dec : EqDecision Node.
Proof. solve_decision. Defined.
Record Inode := mkInode { content : list Z; inode_mode : Z }.
Record Fs := mkFs {
  nodes : gmap fspath Node;
  inodes : gmap Z Inode;
  next_inode : Z;
  faults : list bool
}.
#[export] Instance Fs_eta : Settable Fs := λ f, mkFs (nodes f) (inodes f) (next_inode f) (faults f).

(** [io::ErrorKind], as far as the code looks at it. *)
Inductive IoError := NotFound | AlreadyExists | DirectoryNotEmpty | Unsupported | OtherError.
#[export] Instance IoError_eq_dec : EqDecision IoError.
Proof. solve_decision. Defined.

Definition parent (p : fspath) : fspath := take (length p - 1) p.

(** ** Resolution *)

Definition MAX_SYMLINKS : nat := 40.
(** The canonical path of a path, its last component not followed. *)
Fixpoint walk (links : nat) (t : gmap fspath Node) : fspath → list Component → result IoError fspath :=
  fix go (current : fspath) (rest : list Component) : result IoError fspath :=
    match rest with
    | [] => Ok current
    | RootDir :: rest => go [] rest
    | CurDir :: rest => go current rest
    | ParentDir :: rest => go (parent current) rest
    | Normal part :: rest =>
        let q := current ++ [part] in
        match rest with
        | [] => Ok q
        | _ =>
            match t !! q with
            | None => Err NotFound
            | Some (Dir _) => go q rest
            | Some (Regular _) => Err OtherError
            | Some (Symlink target) =>
                match links with
                | O => Err OtherError
                | S links => walk links t current (components target ++ rest)
                end
            end
        end
    end.
Definition resolve (t : gmap fspath Node) (p : fspath) : result IoError fspath := walk MAX_SYMLINKS t [] (Normal <$> p).
(** The same with the last component followed, so many times. *)
Fixpoint resolve_follow (links : nat) (t : gmap fspath Node) (p : fspath) : result IoError fspath :=
  let? q := resolve t p in
  match t !! q with
  | Some (Symlink target) =>
      match links with
      | O => Err OtherError
      | S links =>
          let? q := walk MAX_SYMLINKS t (parent q) (components target) in resolve_follow links t q
      end
  | Some _ => Ok q
  | None => Err NotFound
  end.

(** ** Calls *)

Abbreviation fsm A := (st Fs IoError A).
(** A call: it may fail for a reason of the host. *)
Definition call {A} (c : fsm A) : fsm A := λ f,
  match faults f with
  | true :: rest => (Err OtherError, f <| faults := rest |>)
  | _ :: rest => c (f <| faults := rest |>)
  | [] => c f
  end.
Definition at_path {A} (p : fspath) (c : fspath → fsm A) : fsm A :=
  call (λ f, match resolve (nodes f) p with Err e => (Err e, f) | Ok q => c q f end).
Definition put (q : fspath) (node : Node) (f : Fs) : Fs := f <| nodes ::= <[q := node]> |>.
Definition erase (q : fspath) (f : Fs) : Fs := f <| nodes ::= delete q |>.
(** The nodes at or below a path, what is in a directory before the directory. *)
Fixpoint insert_deepest (p : fspath) (l : list fspath) : list fspath :=
  match l with
  | [] => [p]
  | q :: l => if (length q <=? length p)%nat then p :: q :: l else q :: insert_deepest p l
  end.
Definition subtree (q : fspath) (t : gmap fspath Node) : list fspath :=
  foldr insert_deepest [] (filter (λ p, q `prefix_of` p) (map_to_list t).*1).
(** Each is a call of its own: when one fails, those before it are gone. *)
Fixpoint remove_each (l : list fspath) : fsm () := λ f,
  match l with
  | [] => (Ok (), f)
  | p :: l =>
      match call (λ f, (Ok (), erase p f)) f with
      | (Ok _, f) => remove_each l f
      | (Err e, f) => (Err e, f)
      end
  end.

Definition symlink_metadata (p : fspath) : fsm Node :=
  at_path p (λ q f, match nodes f !! q with Some node => (Ok node, f) | None => (Err NotFound, f) end).
(** The mode a new directory gets. *)
Definition DIRECTORY_MODE : Z := 0x1ED.
Definition create_dir (p : fspath) : fsm () :=
  at_path p (λ q f,
    match nodes f !! q with Some _ => (Err AlreadyExists, f) | None => (Ok (), put q (Dir DIRECTORY_MODE) f) end).
Definition remove_file (p : fspath) : fsm () :=
  at_path p (λ q f,
    match nodes f !! q with
    | None => (Err NotFound, f)
    | Some (Dir _) => (Err OtherError, f)
    | Some _ => (Ok (), erase q f)
    end).
Definition remove_dir_all (p : fspath) : fsm () :=
  at_path p (λ q f,
    match nodes f !! q with
    | None => (Err NotFound, f)
    | Some (Dir _) => remove_each (subtree q (nodes f)) f
    | Some _ => (Err OtherError, f)
    end).
Definition symlink (target : list Z) (p : fspath) : fsm () :=
  at_path p (λ q f,
    match nodes f !! q with Some _ => (Err AlreadyExists, f) | None => (Ok (), put q (Symlink target) f) end).
Definition hard_link (source p : fspath) : fsm () :=
  at_path source (λ s f,
    match nodes f !! s with
    | Some (Regular i) =>
        match resolve (nodes f) p with
        | Err e => (Err e, f)
        | Ok q => match nodes f !! q with Some _ => (Err AlreadyExists, f) | None => (Ok (), put q (Regular i) f) end
        end
    | Some _ => (Err OtherError, f)
    | None => (Err NotFound, f)
    end).
(** A file written beside its destination and renamed over it: a new inode in the
    place of a file or a link. *)
Definition persist (data : list Z) (mode : Z) (p : fspath) : fsm () :=
  at_path p (λ q f,
    match nodes f !! q with
    | Some (Dir _) => (Err OtherError, f)
    | _ => (Ok (), put q (Regular (next_inode f))
              (f <| inodes ::= <[next_inode f := mkInode data mode]> |> <| next_inode ::= Z.add 1 |>))
    end).
(** [fs::read_dir] of a directory, not a link: the names in it. *)
Definition children (q : fspath) (t : gmap fspath Node) : list name :=
  omap (λ '(p, _), match reverse p with n :: up => if bool_decide (reverse up = q) then Some n else None | [] => None end)
    (map_to_list t).
Definition read_dir (p : fspath) : fsm (list name) :=
  at_path p (λ q f,
    match nodes f !! q with
    | Some (Dir _) => (Ok (children q (nodes f)), f)
    | Some _ => (Err OtherError, f)
    | None => (Err NotFound, f)
    end).
(** [fs::set_permissions], which follows the last component. *)
Definition set_permissions (p : fspath) (mode : Z) : fsm () :=
  call (λ f,
    match resolve_follow MAX_SYMLINKS (nodes f) p with
    | Err e => (Err e, f)
    | Ok q =>
        match nodes f !! q with
        | Some (Dir _) => (Ok (), put q (Dir mode) f)
        | Some (Regular i) => (Ok (), f <| inodes ::= alter (λ n, mkInode (content n) mode) i |>)
        | _ => (Err OtherError, f)
        end
    end).

(** [Path::is_dir], which follows links. *)
Definition path_is_dir (path : fspath) (f : Fs) : bool :=
  match resolve_follow MAX_SYMLINKS (nodes f) path with
  | Ok q => match nodes f !! q with Some (Dir _) => true | _ => false end
  | Err _ => false
  end.
(** [fs::create_dir_all], on a path given last name first. *)
Fixpoint create_dir_all_rev (path : list name) : fsm () := λ f,
  match path with
  | [] => (Ok (), f)
  | _ :: up =>
      match create_dir (reverse path) f with
      | (Ok _, f) => (Ok (), f)
      | (Err NotFound, f) =>
          match create_dir_all_rev up f with
          | (Err e, f) => (Err e, f)
          | (Ok _, f) =>
              match create_dir (reverse path) f with
              | (Ok _, f) => (Ok (), f)
              | (Err e, f) => if path_is_dir (reverse path) f then (Ok (), f) else (Err e, f)
              end
          end
      | (Err e, f) => if path_is_dir (reverse path) f then (Ok (), f) else (Err e, f)
      end
  end.
Definition create_dir_all (path : fspath) : fsm () := create_dir_all_rev (reverse path).
Definition canonicalize (path : fspath) : fsm fspath := call (λ f, (resolve_follow MAX_SYMLINKS (nodes f) path, f)).
(** [OpenOptions::create_new]: the file is the number of its inode. *)
Definition create_new (mode : Z) (p : fspath) : fsm Z :=
  at_path p (λ q f,
    match nodes f !! q with
    | Some _ => (Err AlreadyExists, f)
    | None => (Ok (next_inode f), put q (Regular (next_inode f))
                 (f <| inodes ::= <[next_inode f := mkInode [] mode]> |> <| next_inode ::= Z.add 1 |>))
    end).
Definition write_all (i : Z) (data : list Z) : fsm () :=
  call (λ f, (Ok (), f <| inodes ::= alter (λ n, mkInode (content n ++ data) (inode_mode n)) i |>)).
Definition set_file_permissions (i : Z) (mode : Z) : fsm () :=
  call (λ f, (Ok (), f <| inodes ::= alter (λ n, mkInode (content n) mode) i |>)).
(** Opening with [O_NOFOLLOW] gives the node. *)
Definition open_no_follow (p : fspath) : fsm Node :=
  at_path p (λ q f,
    match nodes f !! q with
    | None => (Err NotFound, f)
    | Some (Symlink _) => (Err OtherError, f)
    | Some node => (Ok node, f)
    end).
Definition file_content (i : Z) (f : Fs) : list Z := match inodes f !! i with Some n => content n | None => [] end.
(** Reading a file, and writing one or a directory through to the disk. *)
Definition read_file (i : Z) : fsm (list Z) := call (λ f, (Ok (file_content i f), f)).
Definition sync : fsm () := call (sret ()).
Definition remove_dir (p : fspath) : fsm () :=
  at_path p (λ q f,
    match nodes f !! q with
    | None => (Err NotFound, f)
    | Some (Dir _) => match children q (nodes f) with [] => (Ok (), erase q f) | _ => (Err DirectoryNotEmpty, f) end
    | Some _ => (Err OtherError, f)
    end).
(** What is at or below [s] moved to [t], in the place of what was there. *)
Definition rebase (s t p : fspath) : fspath := t ++ drop (length s) p.
Definition move (s t : fspath) (tree : gmap fspath Node) : gmap fspath Node :=
  list_to_map ((λ '(p, node), (rebase s t p, node)) <$> map_to_list (filter (λ '(p, _), s `prefix_of` p) tree)) ∪
  filter (λ '(p, _), ¬ s `prefix_of` p ∧ ¬ t `prefix_of` p) tree.
(** [fs::rename], and [renameat2] with [RENAME_NOREPLACE]. *)
Definition may_replace (s t : fspath) (tree : gmap fspath Node) : result IoError () :=
  match tree !! s, tree !! t with
  | None, _ => Err NotFound
  | Some (Dir _), None => if bool_decide (s `prefix_of` t) then Err OtherError else Ok ()
  | Some (Dir _), Some (Dir _) => match children t tree with [] => Ok () | _ => Err DirectoryNotEmpty end
  | Some (Dir _), Some _ => Err OtherError
  | Some _, Some (Dir _) => Err OtherError
  | Some _, _ => Ok ()
  end.
Definition same_file (s t : fspath) (tree : gmap fspath Node) : bool :=
  match tree !! s, tree !! t with
  | Some (Regular i), Some (Regular j) => i =? j
  | Some _, Some _ => bool_decide (s = t)
  | _, _ => false
  end.
Definition rename (source target : fspath) : fsm () :=
  at_path source (λ s f,
    match resolve (nodes f) target with
    | Err e => (Err e, f)
    | Ok t =>
        if same_file s t (nodes f) then (Ok (), f)
        else match may_replace s t (nodes f) with
             | Err e => (Err e, f)
             | Ok _ => (Ok (), f <| nodes ::= move s t |>)
             end
    end).
Definition rename_noreplace (source target : fspath) : fsm () :=
  at_path source (λ s f,
    match resolve (nodes f) target with
    | Err e => (Err e, f)
    | Ok t =>
        match nodes f !! t with
        | Some _ => (Err AlreadyExists, f)
        | None => match may_replace s t (nodes f) with
                  | Err e => (Err e, f)
                  | Ok _ => (Ok (), f <| nodes ::= move s t |>)
                  end
        end
    end).

(** ** Real directories *)

(** A path all of whose components are directories. *)
Definition real (t : gmap fspath Node) (p : fspath) : Prop := ∀ q, q `prefix_of` p → ∃ m, t !! q = Some (Dir m).
(** A tree: what is above a node is a directory. *)
Definition tree_ok (t : gmap fspath Node) : Prop :=
  (∃ m, t !! [] = Some (Dir m)) ∧ ∀ p n, is_Some (t !! (p ++ [n])) → ∃ m, t !! p = Some (Dir m).

Lemma real_prefix t p q : real t p → q `prefix_of` p → real t q.
Proof. intros Hp Hq r Hr. apply Hp. by etrans. Qed.
Lemma real_snoc t p n m : real t p → t !! (p ++ [n]) = Some (Dir m) → real t (p ++ [n]).
Proof.
  intros Hp Hn q [k Hk]. destruct k as [|x k _] using rev_ind.
  - rewrite app_nil_r in Hk. subst q. by exists m.
  - rewrite app_assoc in Hk. apply app_inj_tail in Hk as [-> _]. apply Hp. by exists k.
Qed.
Lemma real_last t p : real t p → ∃ m, t !! p = Some (Dir m).
Proof. intros Hp. by apply Hp. Qed.

Lemma walk_step links t current part rest m : rest ≠ [] → t !! (current ++ [part]) = Some (Dir m) →
  walk links t current (Normal part :: rest) = walk links t (current ++ [part]) rest.
Proof. intros Hr Hd. destruct links, rest; try done; cbn; by rewrite Hd. Qed.
Lemma walk_leaf links t current part : walk links t current [Normal part] = Ok (current ++ [part]).
Proof. by destruct links. Qed.
Lemma walk_real links t p part : ∀ current, real t (current ++ p) →
  walk links t current ((Normal <$> p) ++ [Normal part]) = Ok (current ++ p ++ [part]).
Proof.
  induction p as [|a p IH]; intros current Hp; [apply walk_leaf|]. cbn [fmap list_fmap app].
  destruct (Hp (current ++ [a])) as [m Hm]; [exists p; by rewrite <- app_assoc|].
  rewrite (walk_step _ _ _ _ _ m); [|by destruct p|done]. rewrite IH by (by rewrite <- app_assoc). by rewrite <- app_assoc.
Qed.
(** The kernel goes where the name says if all of it but the last is real. *)
Lemma resolve_leaf t p part : real t p → resolve t (p ++ [part]) = Ok (p ++ [part]).
Proof. intros Hp. unfold resolve. rewrite fmap_app. by apply (walk_real _ _ _ _ []). Qed.
Lemma resolve_root t : resolve t [] = Ok [].
Proof. done. Qed.
Lemma resolve_real t p : real t p → resolve t p = Ok p.
Proof.
  intros Hp. destruct p as [|n p _] using rev_ind; [done|]. apply resolve_leaf. eapply real_prefix; [done|by exists [n]].
Qed.

Lemma leaf_not_prefix (p : fspath) n q : q `prefix_of` p → ¬ (p ++ [n]) `prefix_of` q.
Proof.
  intros Hq Hn. apply prefix_length in Hq, Hn. rewrite length_app in Hn. cbn in Hn. lia.
Qed.
Lemma tree_root t : tree_ok t → real t [].
Proof. intros [Hr _] q ->%prefix_nil_inv. done. Qed.
Lemma tree_real t p m : tree_ok t → t !! p = Some (Dir m) → real t p.
Proof.
  intros Ht. revert m. induction p as [|n p IH] using rev_ind; intros m Hm; [by apply tree_root|].
  eapply real_snoc; [|done]. destruct Ht as [_ Ht]. destruct (Ht p n) as [m' Hm']; [by eexists|]. by eapply IH.
Qed.
Lemma real_parent t p : real t p → real t (parent p).
Proof. intros Hp. eapply real_prefix; [done|]. unfold parent. exists (drop (length p - 1) p). by rewrite take_drop. Qed.
(** A walk ends in a directory or at a name in one. *)
Lemma walk_ends t links : tree_ok t → ∀ cs current q, real t current → walk links t current cs = Ok q →
  real t q ∨ ∃ p n, q = p ++ [n] ∧ real t p.
Proof.
  intros Ht. induction links as [|links IHl]; (induction cs as [|c cs IH]; intros current q Hc; [intros [= <-]; by left|]);
    (destruct c as [| | |part]; cbn;
     [apply IH; by apply tree_root|by apply IH|apply IH; by apply real_parent|]);
    (destruct cs as [|c cs]; [intros [= <-]; right; by eexists _, _|]);
    (destruct (t !! (current ++ [part])) as [[m| |target]|] eqn:E; [|try done..]);
    try (apply IH; by eapply real_snoc).
  by apply IHl.
Qed.

(** Changes that keep a tree a tree. *)
Lemma tree_put t p n node : tree_ok t → real t p →
  (match node with Dir _ => True | _ => ∀ m, t !! (p ++ [n]) ≠ Some (Dir m) end) → tree_ok (<[p ++ [n] := node]> t).
Proof.
  intros [[m0 H0] Ht] Hp Hnode. destruct (real_last _ _ Hp) as [m Hm]. split.
  - exists m0. rewrite lookup_insert_ne; [done|]. by destruct p.
  - intros q k Hk. assert (t !! q = None ∨ ∃ x, t !! q = Some x) as Hq by (destruct (t !! q); eauto).
    destruct (decide (p ++ [n] = q ++ [k])) as [E|Hne].
    + apply app_inj_tail in E as [-> ->]. exists m. rewrite lookup_insert_ne; [done|].
      intros E%(f_equal length). rewrite length_app in E. cbn in E. lia.
    + rewrite lookup_insert_ne in Hk by done. destruct (Ht q k Hk) as [mq Hmq].
      destruct (decide (p ++ [n] = q)) as [<-|Hne2]; [|exists mq; by rewrite lookup_insert_ne].
      rewrite lookup_insert_eq. destruct node; [by eexists|by destruct (Hnode mq)..].
Qed.
Lemma tree_erase t q : tree_ok t → (∀ m, t !! q ≠ Some (Dir m)) → tree_ok (delete q t).
Proof.
  intros [[m0 H0] Ht] Hq. split.
  - exists m0. rewrite lookup_delete_ne; [done|]. intros ->. by destruct (Hq m0).
  - intros p k [x Hx]. apply lookup_delete_Some in Hx as [Hne Hx]. destruct (Ht p k) as [m Hm]; [by eexists|].
    exists m. rewrite lookup_delete_ne; [done|]. intros ->. by destruct (Hq m).
Qed.

(** ** Calls *)

(** A call runs on the same tree, or fails and leaves it. *)
Lemma call_cases {A} (c : st Fs IoError A) f : ∃ l,
  call c f = (Err OtherError, f <| faults := l |>) ∨ call c f = c (f <| faults := l |>).
Proof.
  unfold call. destruct (faults f) as [|[|] l] eqn:E.
  - exists []. right. rewrite <- E. by destruct f.
  - exists l. by left.
  - exists l. by right.
Qed.
Lemma at_cases {A} p (c : fspath → st Fs IoError A) f : ∃ l,
  at_path p c f = (Err OtherError, f <| faults := l |>) ∨
  at_path p c f = match resolve (nodes f) p with Err e => (Err e, f <| faults := l |>) | Ok q => c q (f <| faults := l |>) end.
Proof. unfold at_path. by destruct (call_cases (λ f, match resolve (nodes f) p with Err e => (Err e, f) | Ok q => c q f end) f) as [l H]; exists l. Qed.
Lemma at_leaf {A} p n (c : fspath → st Fs IoError A) f : real (nodes f) p → ∃ l,
  at_path (p ++ [n]) c f = (Err OtherError, f <| faults := l |>) ∨
  at_path (p ++ [n]) c f = c (p ++ [n]) (f <| faults := l |>).
Proof.
  intros Hp. destruct (at_cases (p ++ [n]) c f) as [l [E|E]]; exists l; [by left|right].
  rewrite E. by rewrite resolve_leaf by exact Hp.
Qed.

Lemma metadata_cases p n f : real (nodes f) p → ∃ l, let g := f <| faults := l |> in
  symlink_metadata (p ++ [n]) f = (Err OtherError, g) ∨
  (∃ node, nodes f !! (p ++ [n]) = Some node ∧ symlink_metadata (p ++ [n]) f = (Ok node, g)) ∨
  nodes f !! (p ++ [n]) = None ∧ symlink_metadata (p ++ [n]) f = (Err NotFound, g).
Proof.
  intros Hp. unfold symlink_metadata. match goal with |- context [at_path _ ?c f] =>
    destruct (at_leaf p n c f Hp) as [l [E|E]]; exists l; rewrite E end; [by left|right].
  change (nodes (f <| faults := l |>)) with (nodes f). destruct (nodes f !! (p ++ [n])) as [node|]; [left; by exists node|by right].
Qed.
(** Below a node that is not a directory there is nothing. *)
Lemma nothing_below t p q : tree_ok t → (∀ m, t !! p ≠ Some (Dir m)) → p `prefix_of` q → p ≠ q → t !! q = None.
Proof.
  intros [_ Ht] Hp [k ->] Hne. induction k as [|x k IH] using rev_ind; [by rewrite app_nil_r in Hne|].
  destruct (t !! (p ++ k ++ [x])) eqn:E; [|done]. rewrite app_assoc in E. destruct (Ht (p ++ k) x) as [m Hm]; [by eexists|].
  destruct k as [|y k] using rev_ind; [rewrite app_nil_r in Hm; by destruct (Hp m)|].
  rewrite IH in Hm; [done|]. intros E'%(f_equal length). rewrite !length_app in E'. cbn in E'. lia.
Qed.
Lemma elem_of_children q t n : n ∈ children q t ↔ is_Some (t !! (q ++ [n])).
Proof.
  unfold children. rewrite list_elem_of_omap. split.
  - intros ([p node] & Hp%elem_of_map_to_list & E). destruct (reverse p) as [|x up] eqn:R; [done|].
    case_bool_decide; [|done]. injection E as ->. subst q. exists node. rewrite <- reverse_cons, <- R. by rewrite reverse_involutive.
  - intros [node Hn]. exists (q ++ [n], node). split; [by apply elem_of_map_to_list|]. rewrite reverse_snoc.
    rewrite bool_decide_eq_true_2; [done|]. apply reverse_involutive.
Qed.
Lemma follow_dir links t p q m : resolve t p = Ok q → t !! q = Some (Dir m) → resolve_follow links t p = Ok q.
Proof. intros R E. destruct links; cbn [resolve_follow]; rewrite R; cbn [rbind]; by rewrite E. Qed.
Lemma tree_remove_dir (t : gmap fspath Node) q : tree_ok t → q ≠ [] → children q t = [] → tree_ok (delete q t).
Proof.
  intros [[m0 H0] Ht] Hq Hc. split; [exists m0; by rewrite lookup_delete_ne|]. intros p n [x Hx].
  apply lookup_delete_Some in Hx as [Hne Hx]. destruct (Ht p n) as [m Hm]; [by eexists|]. exists m.
  rewrite lookup_delete_ne; [done|]. intros ->. assert (n ∈ children p t) as Hn by (apply elem_of_children; by eexists).
  rewrite Hc in Hn. by apply not_elem_of_nil in Hn.
Qed.
(** Removing a tree removes nothing else, whether or not it gets to the end. *)
Lemma elem_insert_deepest p l r : r ∈ insert_deepest p l ↔ r = p ∨ r ∈ l.
Proof. induction l as [|q l IH]; cbn; [set_solver|]. destruct (_ <=? _)%nat; set_solver. Qed.
Lemma elem_subtree q t r : r ∈ subtree q t ↔ is_Some (t !! r) ∧ q `prefix_of` r.
Proof.
  unfold subtree. trans (r ∈ filter (λ p, q `prefix_of` p) (map_to_list t).*1).
  - induction (filter _ _) as [|p l IH]; cbn; [done|]. rewrite elem_insert_deepest. set_solver.
  - rewrite list_elem_of_filter, list_elem_of_fmap. split.
    + intros (Hq & [p x] & -> & Hx%elem_of_map_to_list). split; [by eexists|done].
    + intros [[x Hx] Hq]. split; [done|]. exists (r, x). split; [done|]. by apply elem_of_map_to_list.
Qed.
Abbreviation deeper := (λ p q : fspath, (length q ≤ length p)%nat).
Lemma sorted_subtree q t : StronglySorted deeper (subtree q t).
Proof.
  unfold subtree. induction (filter _ _) as [|p l IH]; cbn; [constructor|]. revert IH. generalize (foldr insert_deepest [] l). clear l.
  intros l Hl. induction Hl as [|r l Hl IH Hr]; cbn; [by repeat constructor|]. destruct (Nat.leb_spec (length r) (length p)).
  - constructor; [by constructor|]. constructor; [done|]. eapply Forall_impl; [done|]. cbn. lia.
  - constructor; [done|]. apply Forall_forall. intros x [->|Hx]%elem_insert_deepest; [lia|]. by eapply Forall_forall in Hr.
Qed.
Lemma remove_each_fewer l : ∀ f, nodes (remove_each l f).2 ⊆ nodes f ∧ inodes (remove_each l f).2 = inodes f ∧
  next_inode (remove_each l f).2 = next_inode f.
Proof.
  induction l as [|p l IH]; intros f; [done|]. cbn [remove_each]. destruct (call_cases (λ f, (Ok (), erase p f)) f) as [k [E|E]]; rewrite E; [done|].
  destruct (IH (erase p (f <| faults := k |>))) as (H1 & H2 & H3). split; [|done]. etrans; [exact H1|]. apply delete_subseteq.
Qed.
Lemma remove_each_spec l q : q ≠ [] → ∀ f, tree_ok (nodes f) → Forall (prefix q) l → StronglySorted deeper l →
  (∀ r, is_Some (nodes f !! r) → q `prefix_of` r → r ∈ l) →
  let '(res, f') := remove_each l f in
  tree_ok (nodes f') ∧ (∀ r, ¬ q `prefix_of` r → nodes f' !! r = nodes f !! r) ∧
  (res = Ok () → ∀ r, q `prefix_of` r → nodes f' !! r = None).
Proof.
  intros Hq. induction l as [|p l IH]; intros f Ht Hl Hs Hall; cbn [remove_each].
  { split; [done|]. split; [done|]. intros _ r Hr. destruct (nodes f !! r) eqn:E; [|done].
    pose proof (Hall r (mk_is_Some _ _ E) Hr) as Hin. by apply not_elem_of_nil in Hin. }
  apply Forall_cons in Hl as [Hp Hl]. inversion Hs as [|? ? Hs' Hd]; subst.
  destruct (call_cases (λ f, (Ok (), erase p f)) f) as [k [E|E]]; rewrite E; [done|].
  assert (tree_ok (delete p (nodes f))) as Ht'.
  { apply tree_remove_dir; [done|intros ->; apply Hq; by apply prefix_nil_inv|].
    destruct (children p (nodes f)) as [|n ns] eqn:Ec; [done|]. exfalso.
    assert (is_Some (nodes f !! (p ++ [n]))) as Hn by (apply elem_of_children; rewrite Ec; by left).
    pose proof (Hall _ Hn ltac:(by apply prefix_app_r)) as Hin. apply elem_of_cons in Hin as [E'|Hin].
    - apply (f_equal length) in E'. rewrite length_app in E'. cbn in E'. lia.
    - eapply Forall_forall in Hd; [|done]. rewrite length_app in Hd. cbn in Hd. lia. }
  set (g := erase p (f <| faults := k |>)). assert (∀ r, is_Some (nodes g !! r) → q `prefix_of` r → r ∈ l) as Hg.
  { intros r [x Hx] Hr. unfold g in Hx. cbn in Hx. apply lookup_delete_Some in Hx as [Hne Hx]. pose proof (Hall r (mk_is_Some _ _ Hx) Hr) as Hin.
    by apply elem_of_cons in Hin as [->|?]. }
  specialize (IH g Ht' Hl Hs' Hg). destruct (remove_each l g) as [res f']. destruct IH as (H1 & H2 & H3).
  split; [done|]. split; [|done]. intros r Hr. rewrite H2 by done. unfold g. cbn. rewrite lookup_delete_ne; [done|by intros <-].
Qed.
Lemma remove_tree_spec q f : q ≠ [] → tree_ok (nodes f) → let '(res, f') := remove_each (subtree q (nodes f)) f in
  tree_ok (nodes f') ∧ (∀ r, ¬ q `prefix_of` r → nodes f' !! r = nodes f !! r) ∧
  (res = Ok () → ∀ r, q `prefix_of` r → nodes f' !! r = None).
Proof.
  intros Hq Ht. apply remove_each_spec; [done|done| |apply sorted_subtree|by intros; apply elem_subtree].
  apply Forall_forall. by intros r [_ ?]%elem_subtree.
Qed.
(** A path through a name that is not there leads nowhere. *)
Lemma resolve_missing t p n k : real t p → t !! (p ++ [n]) = None → k ≠ [] → resolve t ((p ++ [n]) ++ k) = Err NotFound.
Proof.
  intros Hp Hn Hk. unfold resolve. rewrite <- app_assoc, fmap_app. cbn [app fmap list_fmap].
  assert (∀ q cur, cur ++ q = p → walk MAX_SYMLINKS t cur ((Normal <$> q) ++ Normal n :: (Normal <$> k)) = Err NotFound) as Hw.
  { induction q as [|a q IH]; intros cur E; cbn [fmap list_fmap app].
    - rewrite app_nil_r in E. subst cur. destruct k as [|x k]; [done|]. cbn. by rewrite Hn.
    - destruct (Hp (cur ++ [a])) as [m Hm]; [exists q; by rewrite <- E, <- app_assoc|].
      rewrite (walk_step _ _ _ _ _ m) by (done || by destruct q). apply IH. by rewrite <- app_assoc. }
  by apply (Hw p []).
Qed.
(** Moving something that is not a directory to a place that is free. *)
Lemma move_leaf (t : gmap fspath Node) s d node : tree_ok t → t !! s = Some node → (∀ m, node ≠ Dir m) → t !! d = None →
  move s d t = <[d := node]> (delete s t).
Proof.
  intros Ht Hs Hn Hd. assert (∀ q x, t !! q = Some x → s `prefix_of` q → q = s) as Hbelow.
  { intros q x Hq Hp. destruct (decide (s = q)) as [|Hne]; [done|]. rewrite (nothing_below t s q) in Hq; [done|done| |done|done].
    intros m. congruence. }
  assert (∀ q x, t !! q = Some x → ¬ d `prefix_of` q) as Hfree.
  { intros q x Hq Hp. destruct (decide (d = q)) as [->|Hne]; [congruence|]. rewrite (nothing_below t d q) in Hq; [done|done| |done|done].
    intros m. congruence. }
  unfold move. assert (filter (λ '(p, _), s `prefix_of` p) t = {[s := node]}) as ->.
  { apply map_eq. intros q. rewrite map_lookup_filter. destruct (decide (s = q)) as [<-|Hne].
    - rewrite Hs, lookup_singleton_eq. cbn. by rewrite option_guard_True.
    - rewrite lookup_singleton_ne by done. destruct (t !! q) as [x|] eqn:E; [|done]. cbn. rewrite option_guard_False; [done|].
      intros Hp. by apply Hne, eq_sym, (Hbelow q x). }
  rewrite map_to_list_singleton. cbn. unfold rebase. rewrite drop_all, app_nil_r.
  apply map_eq. intros q. rewrite insert_empty. destruct (decide (d = q)) as [<-|Hne].
  - rewrite lookup_insert_eq. by rewrite (lookup_union_Some_l _ _ _ node) by apply lookup_singleton_eq.
  - rewrite lookup_insert_ne, lookup_union_r by (done || by apply lookup_singleton_ne). rewrite map_lookup_filter.
    destruct (decide (s = q)) as [<-|Hsq].
    + rewrite lookup_delete_eq, Hs. cbn. rewrite option_guard_False; [done|]. by intros [? _].
    + rewrite lookup_delete_ne by done. destruct (t !! q) as [x|] eqn:E; [|done]. cbn. rewrite option_guard_True; [done|].
      split; [|by eapply Hfree]. intros Hp. by apply Hsq, eq_sym, (Hbelow q x).
Qed.
(** The mode of a directory changes nothing else. *)
Lemma tree_chmod t p m m' : tree_ok t → t !! p = Some (Dir m) → tree_ok (<[p := Dir m']> t).
Proof.
  intros [[m0 H0] Ht] Hp. split.
  - destruct (decide (p = [])) as [->|Hne]; [rewrite lookup_insert_eq|rewrite lookup_insert_ne by done]; by eexists.
  - intros q n Hn. assert (is_Some (t !! (q ++ [n]))) as Hn'.
    { destruct (decide (p = q ++ [n])) as [->|Hne]; [by exists (Dir m)|by rewrite lookup_insert_ne in Hn]. }
    destruct (Ht q n Hn') as [mq Hmq]. destruct (decide (p = q)) as [->|Hne]; [rewrite lookup_insert_eq|rewrite lookup_insert_ne by done]; by eexists.
Qed.
Lemma NoDup_children q t : NoDup (children q t).
Proof.
  unfold children. pose proof (NoDup_fst_map_to_list t) as Hn. induction (map_to_list t) as [|[p node] l IH]; cbn; [constructor|].
  cbn in Hn. apply NoDup_cons in Hn as [Hp Hl]. destruct (reverse p) as [|n up] eqn:R; [by apply IH|].
  case_bool_decide as Hq; [|by apply IH]. constructor; [|by apply IH]. intros Hin. apply list_elem_of_omap in Hin as ([p' x] & Hx & E).
  apply Hp. apply list_elem_of_fmap. exists (p', x). split; [|done]. cbn.
  destruct (reverse p') as [|n' up'] eqn:R'; [done|]. case_bool_decide; [|done]. simplify_eq.
  rewrite <- (reverse_involutive p), <- (reverse_involutive p'), R, R'. rewrite !reverse_cons. congruence.
Qed.

(** Deciding whether a map is a tree. *)
Definition is_tree (t : gmap fspath Node) : bool :=
  match t !! [] with Some (Dir _) => true | _ => false end &&
  bool_decide (map_Forall (λ p _, Is_true (match t !! parent p with Some (Dir _) => true | _ => false end)) t).
Lemma is_tree_ok t : is_tree t → tree_ok t.
Proof.
  intros [Hr Hp%bool_decide_unpack]%andb_prop_elim. split; [destruct (t !! []) as [[m| |]|]; [by exists m|done..]|].
  intros p n [node Hn]. specialize (Hp _ _ Hn). cbn in Hp. unfold parent in Hp. rewrite length_app in Hp. cbn in Hp.
  replace (length p + 1 - 1)%nat with (length p) in Hp by lia. rewrite take_app_length in Hp.
  destruct (t !! p) as [[m| |]|]; [by exists m|done..].
Qed.
