(* ===== verification/Layer.v ===== *)
(** Application of an image layer: [rish-layer/src/path.rs], [apply.rs], [error.rs].

    The archive reader, gzip and SHA-256 are interfaces: [Archive] gives the entries
    the reader yields, the same on both passes, since the spooled file does not
    change between them. A normalised path is the list of its components. *)
From stdpp Require Import strings gmap.
From S2P Require Import Prelude.
From S2P Require Import Text.
From S2P Require Import Filesystem.
Local Open Scope Z_scope.

Inductive LayerError :=
  | Io (error : IoError)
  | InvalidDestination (path : fspath)
  | InvalidSpoolDirectory (path : fspath)
  | InvalidPath (path : list Z) (reason : string)
  | PathTooLong (limit : Z)
  | LinkTargetTooLong (path : fspath) (limit : Z)
  | MissingLinkTarget (path : fspath)
  | SymlinkEscape (path : fspath) (target : list Z)
  | SymlinkPathComponent (path component : fspath)
  | ParentNotDirectory (path : fspath)
  | InvalidHardlinkTarget (path target : fspath)
  | MalformedWhiteout (path : fspath)
  | WhiteoutHasData (path : fspath)
  | EntryLimitExceeded (limit : Z)
  | FileSizeLimitExceeded (path : fspath) (size limit : Z)
  | TotalSizeLimitExceeded (limit : Z)
  | ArchiveSizeLimitExceeded (limit : Z)
  | InvalidDiffId (value : list Z)
  | DiffIdMismatch (expected actual : list Z)
  | SpecialFileRejected (path : fspath) (entry_type : Z)
  | UnsupportedEntryType (path : fspath) (entry_type : Z)
  | TruncatedEntry (path : string) (expected actual : Z)
  | SymlinksUnsupported.
(** An error of the reader. *)
Abbreviation ReadError := (Io OtherError).
(** The bytes of a normalised path. *)
Fixpoint as_bytes (path : fspath) : list Z :=
  match path with [] => [] | [part] => part | part :: rest => part ++ SLASH :: as_bytes rest end.

(** ** [path.rs] *)

Definition path_from_tar_bytes (bytes : list Z) : result LayerError (list Z) :=
  if bool_decide (0 ∈ bytes) then Err (InvalidPath [] "NUL byte") else Ok bytes.

Fixpoint normalize_components (path : list Z) (cs : list Component) : result LayerError fspath :=
  match cs with
  | [] => Ok []
  | Normal part :: cs => let? rest := normalize_components path cs in Ok (part :: rest)
  | CurDir :: cs => normalize_components path cs
  | ParentDir :: _ => Err (InvalidPath path "parent-directory component")
  | RootDir :: _ => Err (InvalidPath path "absolute path")
  end.
Definition normalize_entry_path (path : list Z) : result LayerError fspath := normalize_components path (components path).

(** The loop of [validate_symlink_target] over the components of the target. *)
Fixpoint stays_below (depth : Z) (cs : list Component) : bool :=
  match cs with
  | [] => true
  | Normal _ :: cs => stays_below (saturating_add 64 depth 1) cs
  | CurDir :: cs => stays_below depth cs
  | ParentDir :: cs => if 0 <? depth then stays_below (depth - 1) cs else false
  | RootDir :: _ => false
  end.
Definition validate_symlink_target (path : fspath) (target : list Z) : result LayerError () :=
  if bool_decide (target = []) || is_absolute target then Err (SymlinkEscape path target)
  else if stays_below (len (parent path)) (components target) then Ok ()
  else Err (SymlinkEscape path target).

Inductive Whiteout := Remove (path : fspath) | Opaque (path : fspath).
Definition WHITEOUT_PREFIX : list Z := [46; 119; 104; 46].
Definition WHITEOUT_OPAQUE : list Z := [46; 119; 104; 46; 46; 119; 104; 46; 46; 111; 112; 113].
Definition whiteout_target (path : fspath) : result LayerError (option Whiteout) :=
  match last path with
  | None => Ok None
  | Some name =>
      if bool_decide (name = WHITEOUT_OPAQUE) then Ok (Some (Opaque (parent path)))
      else if negb (bool_decide (take 4 name = WHITEOUT_PREFIX)) then Ok None
      else
        let target_name := drop 4 name in
        if bool_decide (target_name = []) || bool_decide (target_name = [DOT]) || bool_decide (target_name = [DOT; DOT])
        then Err (MalformedWhiteout path)
        else
          let? target_name := path_from_tar_bytes target_name in
          Ok (Some (Remove (parent path ++ [target_name])))
  end.

(** ** Archives *)

(** [tar::EntryType]. *)
Inductive EntryType := TRegular | TContinuous | TDirectory | TSymlink | TLink | TChar | TBlock | TFifo | TOther (byte : Z).
#[export] Instance EntryType_eq_dec : EqDecision EntryType.
Proof. solve_decision. Defined.
Definition as_byte (t : EntryType) : Z :=
  match t with
  | TRegular => 48 | TLink => 49 | TSymlink => 50 | TChar => 51 | TBlock => 52 | TDirectory => 53 | TFifo => 54
  | TContinuous => 55 | TOther byte => byte
  end.
(** An entry as the reader gives it: reading its data may fail. *)
Record Entry := mkEntry {
  path_bytes : list Z;
  entry_type : EntryType;
  size : Z;
  header_mode : option Z;
  link_name : option (list Z);
  data : option (list Z)
}.
Definition is_special (t : EntryType) : bool := match t with TChar | TBlock | TFifo => true | _ => false end.

Inductive LayerFormat := Auto | Tar | Gzip.
Inductive SpecialFilePolicy := Reject | Skip.
#[export] Instance SpecialFilePolicy_eq_dec : EqDecision SpecialFilePolicy.
Proof. solve_decision. Defined.
Record LayerLimits := mkLimits {
  max_entries : Z;
  max_file_size : Z;
  max_total_size : Z;
  max_archive_size : Z;
  max_path_bytes : Z;
  max_link_target_bytes : Z
}.
Definition LayerLimits_default : LayerLimits :=
  mkLimits 100000 (512 * 1024 * 1024) (2 * 1024 * 1024 * 1024) (3 * 1024 * 1024 * 1024) 4096 4096.
Record ApplyOptions := mkOptions {
  limits : LayerLimits;
  special_files : SpecialFilePolicy;
  expected_diff_id : option (list Z);
  spool_directory : option fspath
}.
Record ApplyReport := mkReport {
  diff_id : list Z;
  report_entries : Z;
  expanded_bytes : Z;
  files : Z;
  directories : Z;
  symlinks : Z;
  hardlinks : Z;
  whiteouts : Z;
  skipped_special_files : Z
}.
#[export] Instance ApplyReport_eta : Settable ApplyReport := λ r,
  mkReport (diff_id r) (report_entries r) (expanded_bytes r) (files r) (directories r) (symlinks r) (hardlinks r)
    (whiteouts r) (skipped_special_files r).
Definition ApplyReport_default : ApplyReport := mkReport [] 0 0 0 0 0 0 0 0.

(** The libraries: the chunks the gzip decoder yields, the digest in lower-case
    hexadecimal, and the entries of the archive reader; [None] is an error. *)
Class Archive := mkArchive {
  gunzip : list (option (list Z)) → list (option (list Z));
  sha256_hex : list Z → list Z;
  entries : list Z → list (option Entry)
}.

(** ** Spooling *)

(** The reads of [copy_bounded]; an empty one is the end. *)
Fixpoint copy_bounded (limit total : Z) (spool : list Z) (reads : list (option (list Z))) : result LayerError (list Z) :=
  match reads with
  | [] => Ok spool
  | None :: _ => Err ReadError
  | Some [] :: _ => Ok spool
  | Some chunk :: reads =>
      match checked_add 64 total (len chunk) with
      | None => Err (ArchiveSizeLimitExceeded limit)
      | Some total =>
          if limit <? total then Err (ArchiveSizeLimitExceeded limit)
          else copy_bounded limit total (spool ++ chunk) reads
      end
  end.
Definition SHA256_COLON : list Z := [115; 104; 97; 50; 53; 54; 58].
(** The format, for [Auto] from the first bytes read. *)
Definition is_gzip (format : LayerFormat) (reads : list (option (list Z))) : result LayerError bool :=
  match format with
  | Auto =>
      match reads with
      | None :: _ => Err ReadError
      | Some bytes :: _ => Ok (bool_decide (take 2 bytes = [0x1f; 0x8b]))
      | [] => Ok false
      end
  | Tar => Ok false
  | Gzip => Ok true
  end.

Definition normalize_diff_id (value : list Z) : result LayerError (list Z) :=
  match split_once 58 value with
  | None => Err (InvalidDiffId value)
  | Some (algorithm, encoded) =>
      if negb (bool_decide (to_ascii_lowercase <$> algorithm = take 6 SHA256_COLON))
         || negb (len encoded =? 64) || negb (forallb is_ascii_hexdigit encoded)
      then Err (InvalidDiffId value)
      else Ok (SHA256_COLON ++ (to_ascii_lowercase <$> encoded))
  end.

(** ** The preflight scan *)

Section archive.
Context `{Archive}.
Record Scan := mkScan { report : ApplyReport; scan_whiteouts : list Whiteout }.

Definition validate_regular (path : fspath) (size : Z) (r : ApplyReport) (l : LayerLimits) : result LayerError ApplyReport :=
  if max_file_size l <? size then Err (FileSizeLimitExceeded path size (max_file_size l))
  else
    match checked_add 64 (expanded_bytes r) size with
    | None => Err (TotalSizeLimitExceeded (max_total_size l))
    | Some total =>
        if max_total_size l <? total then Err (TotalSizeLimitExceeded (max_total_size l))
        else Ok (r <| expanded_bytes := total |> <| files ::= Z.add 1 |>)
    end.
Definition read_link_target (e : Entry) (path : fspath) (options : ApplyOptions) : result LayerError (list Z) :=
  match link_name e with
  | None => Err (MissingLinkTarget path)
  | Some bytes =>
      if max_link_target_bytes (limits options) <? len bytes
      then Err (LinkTargetTooLong path (max_link_target_bytes (limits options)))
      else path_from_tar_bytes bytes
  end.
Definition mode_of (e : Entry) : result LayerError Z :=
  match header_mode e with Some mode => Ok mode | None => Err ReadError end.

(** What an entry that is not a whiteout adds to the report. *)
Definition scan_kind (options : ApplyOptions) (e : Entry) (path : fspath) (r : ApplyReport) : result LayerError ApplyReport :=
  match entry_type e with
  | TRegular | TContinuous =>
      let? r := validate_regular path (size e) r (limits options) in
      let? _ := mode_of e in Ok r
  | TDirectory => let? _ := mode_of e in Ok (r <| directories ::= Z.add 1 |>)
  | TSymlink =>
      let? target := read_link_target e path options in
      let? _ := validate_symlink_target path target in
      Ok (r <| symlinks ::= Z.add 1 |>)
  | TLink =>
      let? target := read_link_target e path options in
      let? target := normalize_entry_path target in
      match target with
      | [] => Err (InvalidHardlinkTarget path target)
      | _ => Ok (r <| hardlinks ::= Z.add 1 |>)
      end
  | TChar | TBlock | TFifo =>
      match special_files options with
      | Reject => Err (SpecialFileRejected path (as_byte (entry_type e)))
      | Skip => Ok (r <| skipped_special_files ::= Z.add 1 |>)
      end
  | TOther byte => Err (UnsupportedEntryType path byte)
  end.
Definition scan_entry (options : ApplyOptions) (e : Entry) (s : Scan) : result LayerError Scan :=
  let r := report s in
  match checked_add 64 (report_entries r) 1 with
  | None => Err (EntryLimitExceeded (max_entries (limits options)))
  | Some n =>
      let r := r <| report_entries := n |> in
      if max_entries (limits options) <? n then Err (EntryLimitExceeded (max_entries (limits options)))
      else
        let? raw_path := path_from_tar_bytes (path_bytes e) in
        if max_path_bytes (limits options) <? len raw_path then Err (PathTooLong (max_path_bytes (limits options)))
        else
          let? path := normalize_entry_path raw_path in
          let? whiteout := whiteout_target path in
          match whiteout with
          | Some whiteout =>
              if negb (size e =? 0) then Err (WhiteoutHasData path)
              else Ok (mkScan (r <| whiteouts ::= Z.add 1 |>) (scan_whiteouts s ++ [whiteout]))
          | None =>
              if bool_decide (path = []) && negb (bool_decide (entry_type e = TDirectory))
              then Err (InvalidPath raw_path "empty non-directory path")
              else let? r := scan_kind options e path r in Ok (mkScan r (scan_whiteouts s))
          end
  end.
Fixpoint scan_entries (options : ApplyOptions) (es : list (option Entry)) (s : Scan) : result LayerError Scan :=
  match es with
  | [] => Ok s
  | None :: _ => Err ReadError
  | Some e :: es => let? s := scan_entry options e s in scan_entries options es s
  end.
Definition scan_archive (spool : list Z) (options : ApplyOptions) : result LayerError Scan :=
  scan_entries options (entries spool) (mkScan ApplyReport_default []).
(** ** The tree *)

Abbreviation lm A := (st Fs LayerError A).
(** [fs::..()?] *)
Definition io {A} (c : st Fs IoError A) : lm A := λ f, let '(r, f) := c f in (map_err Io r, f).
(** [match fs::..() { Ok(..) => .., Err(error) => .. }] *)
Definition attempt {A} (c : st Fs IoError A) : lm (result IoError A) := λ f, let '(r, f) := c f in (Ok r, f).

(** Creating, writing and rewinding a temporary file, which the tree does not show. *)
Definition temporary : lm () := io (call (sret ())).
Definition spool_archive (reads : list (option (list Z))) (format : LayerFormat) (limit : Z) (directory : option fspath)
    : lm (list Z * list Z) :=
  let! gzip := sread (λ _, is_gzip format reads) in
  let! _ :=
    match directory with
    | None => sret ()
    | Some directory =>
        let! metadata := io (symlink_metadata directory) in
        match metadata with Dir _ => sret () | _ => sfail (InvalidSpoolDirectory directory) end
    end in
  let! _ := temporary in
  let! spool := sread (λ _, copy_bounded limit 0 [] (if gzip then gunzip reads else reads)) in
  let! _ := temporary in
  sret (spool, SHA256_COLON ++ sha256_hex spool).

Definition is_dir (node : Node) : bool := match node with Dir _ => true | _ => false end.
Definition is_symlink (node : Node) : bool := match node with Symlink _ => true | _ => false end.

(** The loop of [resolve_existing_directory] from a directory already reached. *)
Fixpoint resolve_from (path : fspath) (current : fspath) (rest : list name) : lm (option fspath) :=
  match rest with
  | [] => sret (Some current)
  | part :: rest =>
      let current := current ++ [part] in
      let! metadata := attempt (symlink_metadata current) in
      match metadata with
      | Err NotFound => sret None
      | Err error => sfail (Io error)
      | Ok node =>
          if is_symlink node then sfail (SymlinkPathComponent path current)
          else if negb (is_dir node) then sret None
          else resolve_from path current rest
      end
  end.
Definition resolve_existing_directory (root path : fspath) : lm (option fspath) := resolve_from path root path.
Fixpoint ensure_from (path : fspath) (current : fspath) (rest : list name) : lm fspath :=
  match rest with
  | [] => sret current
  | part :: rest =>
      let current := current ++ [part] in
      let! metadata := attempt (symlink_metadata current) in
      let! _ :=
        match metadata with
        | Ok (Symlink _) => sfail (SymlinkPathComponent path current)
        | Ok (Dir _) => sret ()
        | Ok _ => sfail (ParentNotDirectory path)
        | Err NotFound => io (create_dir current)
        | Err error => sfail (Io error)
        end in
      ensure_from path current rest
  end.
Definition ensure_directories (root path : fspath) : lm fspath := ensure_from path root path.

Definition remove_path_no_follow (path : fspath) : lm () :=
  let! metadata := attempt (symlink_metadata path) in
  match metadata with
  | Ok (Dir _) => io (remove_dir_all path)
  | Ok _ => io (remove_file path)
  | Err NotFound => sret ()
  | Err error => sfail (Io error)
  end.
Definition ensure_directory_leaf (path : fspath) : lm () :=
  let! metadata := attempt (symlink_metadata path) in
  match metadata with
  | Ok (Dir _) => sret ()
  | Ok _ => let! _ := remove_path_no_follow path in io (create_dir path)
  | Err NotFound => io (create_dir path)
  | Err error => sfail (Io error)
  end.
Definition replace_with_symlink (destination : fspath) (target : list Z) : lm () :=
  let! _ := remove_path_no_follow destination in
  io (symlink target destination).
(** Returns the number of bytes copied. *)
Definition write_regular_file (e : Entry) (destination : fspath) (mode : Z) : lm Z :=
  let! metadata := attempt (symlink_metadata destination) in
  let! _ := match metadata with Ok (Dir _) => io (remove_dir_all destination) | _ => sret () end in
  let! _ := temporary in
  match data e with
  | None => sfail ReadError
  | Some bytes => let! _ := io (persist bytes mode destination) in sret (len bytes)
  end.

(** [parent.join(path.file_name().ok_or(error)?)] *)
Definition join_leaf (parent path : fspath) (error : LayerError) : lm fspath :=
  match last path with Some name => sret (parent ++ [name]) | None => sfail error end.
Definition apply_hardlink (root path target : fspath) : lm () :=
  let! target_parent := resolve_existing_directory root (parent target) in
  match target_parent with
  | None => sfail (InvalidHardlinkTarget path target)
  | Some target_parent =>
      let! source := join_leaf target_parent target (InvalidHardlinkTarget path target) in
      let! metadata := attempt (symlink_metadata source) in
      match metadata with
      | Ok (Regular _) =>
          let! parent := ensure_directories root (parent path) in
          let! destination := join_leaf parent path (InvalidHardlinkTarget path target) in
          let! _ := remove_path_no_follow destination in
          io (hard_link source destination)
      | _ => sfail (InvalidHardlinkTarget path target)
      end
  end.

Fixpoint remove_children (directory : fspath) (names : list name) : lm () :=
  match names with
  | [] => sret ()
  | child :: names =>
      let! _ := remove_path_no_follow (directory ++ [child]) in
      remove_children directory names
  end.
Definition apply_whiteout (root : fspath) (whiteout : Whiteout) : lm () :=
  match whiteout with
  | Remove path =>
      let! found := resolve_existing_directory root (parent path) in
      match found with
      | None => sret ()
      | Some directory =>
          let! leaf := join_leaf directory path (MalformedWhiteout path) in
          remove_path_no_follow leaf
      end
  | Opaque path =>
      let! found := resolve_existing_directory root path in
      match found with
      | None => sret ()
      | Some directory =>
          let! names := io (read_dir directory) in
          remove_children directory names
      end
  end.
Fixpoint apply_whiteouts (root : fspath) (ws : list Whiteout) : lm () :=
  match ws with
  | [] => sret ()
  | w :: ws => let! _ := apply_whiteout root w in apply_whiteouts root ws
  end.

(** 0o1777 and 0o700. *)
Definition sanitized_mode (mode : Z) : Z := mode .& 0x3FF.
Definition sanitized_directory_mode (mode : Z) : Z := sanitized_mode mode .| 0x1C0.

(** The directories to set modes of, and the bytes copied so far. *)
Abbreviation progress := (list (fspath * Z) * Z)%type.
Definition apply_entry (root : fspath) (options : ApplyOptions) (e : Entry) (done : progress) : lm progress :=
  let '(modes, copied) := done in
  let! raw_path := sread (λ _, path_from_tar_bytes (path_bytes e)) in
  let! path := sread (λ _, normalize_entry_path raw_path) in
  let! whiteout := sread (λ _, whiteout_target path) in
  match whiteout with
  | Some _ => sret done
  | None =>
      match entry_type e with
      | TDirectory =>
          let! destination :=
            match path with
            | [] => sret root
            | _ =>
                let! parent := ensure_directories root (parent path) in
                let! destination := join_leaf parent path (InvalidPath (as_bytes path) "directory has no basename") in
                let! _ := ensure_directory_leaf destination in
                sret destination
            end in
          let! mode := sread (λ _, mode_of e) in
          sret (modes ++ [(destination, sanitized_directory_mode mode)], copied)
      | TRegular | TContinuous =>
          let! parent := ensure_directories root (parent path) in
          let! destination := join_leaf parent path (InvalidPath (as_bytes path) "file has no basename") in
          let! mode := sread (λ _, mode_of e) in
          let! n := write_regular_file e destination (sanitized_mode mode) in
          match checked_add 64 copied n with
          | None => sfail (TotalSizeLimitExceeded (max_total_size (limits options)))
          | Some copied => sret (modes, copied)
          end
      | TSymlink =>
          let! target := sread (λ _, read_link_target e path options) in
          let! parent := ensure_directories root (parent path) in
          let! destination := join_leaf parent path (InvalidPath (as_bytes path) "symbolic link has no basename") in
          let! _ := replace_with_symlink destination target in
          sret done
      | TLink =>
          let! target := sread (λ _, read_link_target e path options) in
          let! target := sread (λ _, normalize_entry_path target) in
          let! _ := apply_hardlink root path target in
          sret done
      | _ => sret done
      end
  end.
Fixpoint apply_loop (root : fspath) (options : ApplyOptions) (es : list (option Entry)) (done : progress) : lm progress :=
  match es with
  | [] => sret done
  | None :: _ => sfail ReadError
  | Some e :: es =>
      let! done := apply_entry root options e done in
      apply_loop root options es done
  end.

(** [sort_by_key] by the reversed number of components: a stable sort. *)
Fixpoint insert_by_depth (x : fspath * Z) (l : list (fspath * Z)) : list (fspath * Z) :=
  match l with
  | [] => [x]
  | y :: l => if (length y.1 <=? length x.1)%nat then x :: y :: l else y :: insert_by_depth x l
  end.
Definition sort_by_depth (l : list (fspath * Z)) : list (fspath * Z) := foldr insert_by_depth [] l.
Fixpoint set_modes (modes : list (fspath * Z)) : lm () :=
  match modes with
  | [] => sret ()
  | (path, mode) :: modes =>
      let! metadata := io (symlink_metadata path) in
      let! _ := match metadata with Dir _ => io (set_permissions path mode) | _ => sret () end in
      set_modes modes
  end.
Definition apply_entries (spool : list Z) (root : fspath) (options : ApplyOptions) (expected : ApplyReport) : lm () :=
  let! done := apply_loop root options (entries spool) ([], 0) in
  if negb (done.2 =? expanded_bytes expected) then sfail (TruncatedEntry "<layer-total>" (expanded_bytes expected) done.2)
  else set_modes (sort_by_depth done.1).

(** ** The destination *)

Definition prepare_destination (destination : fspath) : lm fspath :=
  let! _ := io (create_dir_all destination) in
  let! metadata := io (symlink_metadata destination) in
  match metadata with
  | Dir _ => io (canonicalize destination)
  | _ => sfail (InvalidDestination destination)
  end.

Definition apply_layer_with_format (reads : list (option (list Z))) (destination : fspath) (format : LayerFormat)
    (options : ApplyOptions) : lm ApplyReport :=
  let! spooled := spool_archive reads format (max_archive_size (limits options)) (spool_directory options) in
  let '(spool, actual) := spooled in
  let! _ :=
    match expected_diff_id options with
    | None => sret ()
    | Some expected =>
        let! expected := sread (λ _, normalize_diff_id expected) in
        if bool_decide (expected = actual) then sret () else sfail (DiffIdMismatch expected actual)
    end in
  let! _ := temporary in
  let! scan := sread (λ _, scan_archive spool options) in
  let result := (report scan) <| diff_id := actual |> in
  let! root := prepare_destination destination in
  let! _ := apply_whiteouts root (scan_whiteouts scan) in
  let! _ := temporary in
  let! _ := apply_entries spool root options result in
  sret result.
Definition apply_layer (reads : list (option (list Z))) (destination : fspath) (options : ApplyOptions) : lm ApplyReport :=
  apply_layer_with_format reads destination Auto options.
End archive.
