(* ===== verification/LayerSafety.v ===== *)
(** Layers stay below their destination: theorems about [rish-layer/src/apply.rs].

    The functions that change the tree are proved with triples [ensures P c Q] over
    an invariant that holds on errors too: below the destination the tree may
    change, elsewhere it may not. The invariant survives because every path handed
    to a call has been walked through real directories first. *)
From stdpp Require Import strings gmap.
From S2P Require Import Prelude.
From S2P Require Import Filesystem.
From S2P Require Import Layer.
Local Open Scope Z_scope.

(** ** The invariant *)

Definition below (root p : fspath) : Prop := root `prefix_of` p ∧ p ≠ root.
(** Nothing but what is below [root] differs, no inode is rewritten, and the files
    below [root] are new or were below [root] before: none has been linked in from
    outside. *)
Record kept_outside (root : fspath) (f0 f : Fs) : Prop := mk_kept_outside {
  ko_nodes : ∀ p, ¬ below root p → nodes f !! p = nodes f0 !! p;
  ko_inodes : ∀ i n, inodes f0 !! i = Some n → inodes f !! i = Some n;
  ko_next : ∀ i, is_Some (inodes f0 !! i) → i < next_inode f;
  ko_links : ∀ p i, below root p → nodes f !! p = Some (Regular i) →
    inodes f0 !! i = None ∨ ∃ q, below root q ∧ nodes f0 !! q = Some (Regular i)
}.
(** The invariant of the application below [root], begun on [f0]. *)
Record applying (root : fspath) (f0 f : Fs) : Prop := mk_applying {
  ap_kept : kept_outside root f0 f;
  ap_root : real (nodes f) root;
  ap_tree : tree_ok (nodes f)
}.
(** The same with a directory that has been walked to. *)
Definition standing (root : fspath) (f0 : Fs) (p : fspath) (f : Fs) : Prop :=
  applying root f0 f ∧ root `prefix_of` p ∧ real (nodes f) p.

Lemma leaf_below root p n : root `prefix_of` p → below root (p ++ [n]).
Proof.
  intros [k ->]. split; [exists (k ++ [n]); by rewrite app_assoc|].
  intros E%(f_equal length). rewrite !length_app in E. cbn in E. lia.
Qed.
Lemma below_below root q p : below root q → q `prefix_of` p → below root p.
Proof.
  intros [Hq Hne] Hp. split; [by etrans|]. intros ->. apply Hne.
  by apply (anti_symm (prefix (A := name))).
Qed.
(** A change at a leaf of the directory stood in, or below the leaf. *)
Lemma standing_change root f0 p n f f' : standing root f0 p f →
  (∀ q, ¬ (p ++ [n]) `prefix_of` q → nodes f' !! q = nodes f !! q) →
  (∀ i x, inodes f !! i = Some x → inodes f' !! i = Some x) → next_inode f ≤ next_inode f' →
  (∀ q i, below root q → nodes f' !! q = Some (Regular i) → ∃ q', below root q' ∧ nodes f !! q' = Some (Regular i)) →
  tree_ok (nodes f') → standing root f0 p f'.
Proof.
  intros ([[Kn Ki Kx Kl] Hroot Ht] & Hp & Hreal) Hn Hi Hx Hl Ht'. assert (real (nodes f') p) as Hreal'.
  { intros q Hq. rewrite Hn by (by apply leaf_not_prefix). by apply Hreal. }
  split; [|done]. split; [split|by eapply real_prefix|done].
  - intros q Hq. rewrite Hn; [by apply Kn|]. intros Hpre. apply Hq. eapply below_below; [by apply leaf_below|done].
  - intros i x Hix. by apply Hi, Ki.
  - intros i Hix. specialize (Kx i Hix). lia.
  - intros q i Hq Hqi. destruct (Hl q i Hq Hqi) as (q' & Hq' & E). by eapply Kl.
Qed.

(** ** Calls at a leaf *)

Section calls.
Context (root : fspath) (f0 : Fs).
Abbreviation J := (applying root f0).
Abbreviation S p := (standing root f0 p).

Lemma standing_J p f : S p f → J f.
Proof. by intros [? _]. Qed.
Lemma applying_faults f l : J f → J (f <| faults := l |>).
Proof. by intros [[] ? ?]. Qed.
Lemma standing_faults p f l : S p f → S p (f <| faults := l |>).
Proof. intros (? & ? & ?). split; [by apply applying_faults|done]. Qed.

(** [ensures] for calls whose error is returned, and for those it is looked at. *)
Lemma io_leaf {A} p n (c : fspath → st Fs IoError A) (Q : A → Fs → Prop) :
  (∀ f, S p f → match c (p ++ [n]) f with (Ok a, f') => Q a f' | (Err _, f') => J f' end) →
  ensures J (S p) (io (at_path (p ++ [n]) c)) Q.
Proof.
  intros Hc f Hf. unfold io. destruct (at_leaf p n c f) as [l [E|E]]; [by destruct Hf as (_ & _ & ?)|..]; rewrite E; cbn.
  - by apply applying_faults, (standing_J p).
  - specialize (Hc _ (standing_faults p f l Hf)). by destruct (c _ _) as [[|] ?].
Qed.
Lemma metadata_leaf p n : ensures J (S p) (attempt (symlink_metadata (p ++ [n])))
  (λ r f, S p f ∧ ∀ node, r = Ok node → nodes f !! (p ++ [n]) = Some node).
Proof.
  intros f Hf. unfold attempt, symlink_metadata. destruct (at_leaf p n (λ q f,
    match nodes f !! q with Some node => (Ok node, f) | None => (Err NotFound, f) end) f) as [l [E|E]];
    [by destruct Hf as (_ & _ & ?)|..]; rewrite E; cbn.
  - split; [by apply standing_faults|done].
  - destruct (nodes f !! (p ++ [n])) as [node|] eqn:En; (split; [by apply standing_faults|]); [|done].
    by intros node' [= <-].
Qed.

Lemma create_dir_leaf p n : ensures J (S p) (io (create_dir (p ++ [n]))) (λ _, S (p ++ [n])).
Proof.
  apply io_leaf. intros f Hf. destruct (nodes f !! (p ++ [n])) eqn:En; [by apply (standing_J p)|].
  assert (S p (put (p ++ [n]) (Dir DIRECTORY_MODE) f)) as Hs.
  { eapply (standing_change root f0 p n f); [done|intros q Hq; cbn; rewrite lookup_insert_ne; [done|by intros <-]|done|done| |].
    { intros q i Hq Hi. cbn in Hi. apply lookup_insert_Some in Hi as [[_ ?]|[_ Hi]]; [done|by eauto]. }
    destruct Hf as ([_ _ Ht] & _ & Hp). by apply tree_put. }
  destruct Hs as (HJ & Hpre & Hp). split; [done|]. split; [by apply prefix_app_r|].
  eapply real_snoc; [done|]. by apply lookup_insert_eq.
Qed.
(** Putting something that is not a directory where no directory is. *)
Lemma put_leaf p n node f f' : S p f → (∀ m, nodes f !! (p ++ [n]) ≠ Some (Dir m)) →
  nodes f' = <[p ++ [n] := node]> (nodes f) →
  inodes f' = inodes f → next_inode f' = next_inode f →
  (∀ i, node = Regular i → ∃ q, below root q ∧ nodes f !! q = Some (Regular i)) → S p f'.
Proof.
  intros Hf Hd En Hi Hx Hn. eapply (standing_change root f0 p n f); [done| |by rewrite Hi|by rewrite Hx|..]; rewrite En.
  - intros q Hq. rewrite lookup_insert_ne; [done|by intros <-].
  - intros q i Hq E. apply lookup_insert_Some in E as [[_ E]|[_ E]]; [by apply Hn|by eauto].
  - destruct Hf as ([_ _ Ht] & _ & Hp). apply tree_put; [done|done|by destruct node].
Qed.
Lemma symlink_leaf target p n : ensures J (S p) (io (symlink target (p ++ [n])))
  (λ _ f, S p f ∧ nodes f !! (p ++ [n]) = Some (Symlink target)).
Proof.
  apply io_leaf. intros f Hf. destruct (nodes f !! (p ++ [n])) eqn:En; [by apply (standing_J p)|].
  split; [|by apply lookup_insert_eq]. by eapply (put_leaf p n (Symlink target) f); try done; rewrite En.
Qed.
Lemma remove_dir_leaf p n : ensures J (S p) (io (remove_dir_all (p ++ [n])))
  (λ _ f, S p f ∧ ∀ q, (p ++ [n]) `prefix_of` q → nodes f !! q = None).
Proof.
  apply io_leaf. intros f Hf. destruct (nodes f !! (p ++ [n])) as [[]|] eqn:En; try by apply (standing_J p).
  assert (tree_ok (nodes f)) as Ht by (by destruct Hf as ([] & _)).
  pose proof (remove_tree_spec (p ++ [n]) f ltac:(by destruct p) Ht) as Hr.
  pose proof (remove_each_fewer (subtree (p ++ [n]) (nodes f)) f) as (Hsub & Hi & Hx).
  destruct (remove_each _ f) as [res f']. destruct Hr as (Ht' & Hk & Hg). cbn in Hsub, Hi, Hx.
  assert (S p f') as Hs.
  { eapply (standing_change root f0 p n f); [done|done|by rewrite Hi|by rewrite Hx| |done].
    intros q i Hq E. exists q. split; [done|]. by eapply lookup_weaken. }
  destruct res as [[]|]; [split; [done|by apply Hg]|by apply (standing_J p)].
Qed.
Lemma remove_file_leaf p n : ensures J (S p) (io (remove_file (p ++ [n])))
  (λ _ f, S p f ∧ ∀ q, (p ++ [n]) `prefix_of` q → nodes f !! q = None).
Proof.
  apply io_leaf. intros f Hf. assert (∀ node, nodes f !! (p ++ [n]) = Some node → is_dir node = false →
    S p (erase (p ++ [n]) f) ∧ ∀ q, (p ++ [n]) `prefix_of` q → nodes (erase (p ++ [n]) f) !! q = None) as Hgoal.
  { intros node En Hnode. assert (∀ m, nodes f !! (p ++ [n]) ≠ Some (Dir m)) as Hd by (intros m Hm; by simplify_eq).
    assert (tree_ok (nodes f)) as Ht by (by destruct Hf as ([] & _)). split.
    - eapply (standing_change root f0 p n f); [done| |done|done| |by apply tree_erase].
      + intros q Hq. cbn. rewrite lookup_delete_ne; [done|by intros <-].
      + intros q i Hq E. cbn in E. apply lookup_delete_Some in E as [_ E]. by eauto.
    - intros q Hq. cbn. destruct (decide (p ++ [n] = q)) as [<-|Hne]; [by apply lookup_delete_eq|].
      rewrite lookup_delete_ne by done. by eapply nothing_below. }
  destruct (nodes f !! (p ++ [n])) as [node|] eqn:En; [|by apply (standing_J p)].
  destruct node; [by apply (standing_J p)|by apply (Hgoal _ eq_refl)..].
Qed.
Lemma persist_leaf bytes mode p n : ensures J (S p) (io (persist bytes mode (p ++ [n])))
  (λ _ f, S p f ∧ ∃ i, nodes f !! (p ++ [n]) = Some (Regular i) ∧ inodes f !! i = Some (mkInode bytes mode)).
Proof.
  apply io_leaf. intros f Hf. assert ((∀ m, nodes f !! (p ++ [n]) ≠ Some (Dir m)) → standing root f0 p
      (put (p ++ [n]) (Regular (next_inode f))
         (f <| inodes ::= <[next_inode f := mkInode bytes mode]> |> <| next_inode ::= Z.add 1 |>))) as Hs.
  { intros Hd. destruct Hf as ([[Kn Ki Kx Kl] Hr Ht] & Hpre & Hp). split; [split; [split|..]|split; [done|]].
    - intros q Hq. cbn. rewrite lookup_insert_ne; [by apply Kn|]. intros <-. apply Hq. by apply leaf_below.
    - intros i x Hi. cbn. rewrite lookup_insert_ne; [by apply Ki|]. specialize (Kx i (mk_is_Some _ _ Hi)). lia.
    - intros i Hi. specialize (Kx i Hi). cbn. lia.
    - intros q i Hq E. cbn in E. apply lookup_insert_Some in E as [[_ [= <-]]|[_ E]]; [|by eapply Kl]. left.
      destruct (inodes f0 !! next_inode f) eqn:E; [|done]. specialize (Kx _ (mk_is_Some _ _ E)). lia.
    - intros q Hq. cbn. rewrite lookup_insert_ne; [by apply Hr|]. intros <-.
      apply (leaf_not_prefix p n (p ++ [n])); [by etrans|done].
    - by apply tree_put.
    - intros q Hq. cbn. rewrite lookup_insert_ne; [by apply Hp|]. intros <-. by apply (leaf_not_prefix p n (p ++ [n])). }
  assert (∀ g, ∃ i, nodes (put (p ++ [n]) (Regular (next_inode f)) (g <| inodes ::= <[next_inode f := mkInode bytes mode]> |>
    <| next_inode ::= Z.add 1 |>)) !! (p ++ [n]) = Some (Regular i) ∧ (<[next_inode f := mkInode bytes mode]> (inodes g)) !! i =
    Some (mkInode bytes mode)) as Hl.
  { intros g. exists (next_inode f). split; [apply lookup_insert_eq|apply lookup_insert_eq]. }
  destruct (nodes f !! (p ++ [n])) as [[]|]; [by apply (standing_J p)|..]; (split; [by apply Hs|apply Hl]).
Qed.

(** A step that gives up. *)
Ltac failing := solve [apply ensures_fail; intros ? [? _]; by eapply standing_J].

(** ** Functions *)

Lemma resolve_ensures path rest : ∀ p, ensures J (S p) (resolve_from path p rest)
  (λ r f, match r with Some q => S q f ∧ q = p ++ rest | None => J f end).
Proof.
  induction rest as [|n rest IH]; intros p; cbn [resolve_from].
  { apply ensures_ret. intros f Hf. by rewrite app_nil_r. }
  eapply ensures_bind; [apply metadata_leaf|]. intros [node|[]]; try failing.
  - destruct node as [m| |]; cbn; try failing.
    + eapply ensures_conseq; [apply (IH (p ++ [n]))| |].
      * intros f ((HJ & Hpre & Hp) & Hn). split; [done|]. split; [by apply prefix_app_r|]. eapply real_snoc; [done|by apply Hn].
      * intros [q|] f Hq; [|done]. destruct Hq as [Hq ->]. split; [done|by rewrite <- app_assoc].
    + apply ensures_ret. intros f [Hf _]. by apply (standing_J p).
  - apply ensures_ret. intros f [Hf _]. by apply (standing_J p).
Qed.
Lemma ensure_ensures path rest : ∀ p, ensures J (S p) (ensure_from path p rest) (λ q f, S q f ∧ q = p ++ rest).
Proof.
  induction rest as [|n rest IH]; intros p; cbn [ensure_from].
  { apply ensures_ret. intros f Hf. by rewrite app_nil_r. }
  eapply ensures_bind; [apply metadata_leaf|]. intros metadata. eapply (ensures_bind _ _ _ (λ _, S (p ++ [n]))).
  - destruct metadata as [[m| |]|[]]; try failing.
    + apply ensures_ret. intros f ((HJ & Hpre & Hp) & Hn). split; [done|]. split; [by apply prefix_app_r|].
      eapply real_snoc; [done|by apply Hn].
    + apply ensures_left, create_dir_leaf.
  - intros _. eapply ensures_conseq; [apply IH|done|]. intros q f [Hq ->]. split; [done|by rewrite <- app_assoc].
Qed.
(** Nothing is left at the leaf or below it. *)
Definition cleared (p : fspath) (n : name) (f : Fs) : Prop := S p f ∧ ∀ q, (p ++ [n]) `prefix_of` q → nodes f !! q = None.
Lemma remove_ensures p n : ensures J (S p) (remove_path_no_follow (p ++ [n])) (λ _, cleared p n).
Proof.
  intros f Hf. unfold remove_path_no_follow, sbind, attempt, symlink_metadata.
  destruct (at_leaf p n (λ q f, match nodes f !! q with Some node => (Ok node, f) | None => (Err NotFound, f) end) f)
    as [l [E|E]]; [by destruct Hf as (_ & _ & ?)|..]; rewrite E; cbn.
  { by apply applying_faults, (standing_J p). }
  pose proof (standing_faults p f l Hf) as Hl. destruct (nodes f !! (p ++ [n])) as [[m| |]|] eqn:En; cbn.
  - by apply remove_dir_leaf.
  - by apply remove_file_leaf.
  - by apply remove_file_leaf.
  - split; [done|]. intros q Hq. destruct (decide (p ++ [n] = q)) as [<-|Hne]; [done|].
    eapply nothing_below; [by destruct Hf as ([] & _)| |done|done]. intros m Hm. cbn in Hm. congruence.
Qed.
Lemma leaf_ensures p n : ensures J (S p) (ensure_directory_leaf (p ++ [n])) (λ _, S (p ++ [n])).
Proof.
  eapply ensures_bind; [apply metadata_leaf|]. intros [[m| |]|[]]; try failing.
  - apply ensures_ret. intros f ((HJ & Hpre & Hp) & Hn). split; [done|]. split; [by apply prefix_app_r|].
    eapply real_snoc; [done|by apply Hn].
  - apply ensures_left.
    eapply ensures_bind; [apply remove_ensures|]. intros ?. apply ensures_left, create_dir_leaf.
  - apply ensures_left.
    eapply ensures_bind; [apply remove_ensures|]. intros ?. apply ensures_left, create_dir_leaf.
  - apply ensures_left, create_dir_leaf.
Qed.
Lemma symlink_ensures p n target : ensures J (S p) (replace_with_symlink (p ++ [n]) target)
  (λ _ f, S p f ∧ nodes f !! (p ++ [n]) = Some (Symlink target)).
Proof.
  eapply ensures_bind; [apply remove_ensures|]. intros ?. apply ensures_left, symlink_leaf.
Qed.
Lemma temporary_ensures p : ensures J (S p) temporary (λ _, S p).
Proof.
  intros f Hf. unfold temporary, io. destruct (call_cases (sret ()) f) as [l [E|E]]; rewrite E; cbn.
  - by apply applying_faults, (standing_J p).
  - by apply standing_faults.
Qed.
(** The file at the leaf is a new inode with the contents. *)
Definition holds (p : fspath) (bytes : list Z) (mode : Z) (f : Fs) : Prop :=
  ∃ i, nodes f !! p = Some (Regular i) ∧ inodes f !! i = Some (mkInode bytes mode).
Lemma write_ensures e p n mode : ensures J (S p) (write_regular_file e (p ++ [n]) mode)
  (λ copied f, S p f ∧ ∃ bytes, data e = Some bytes ∧ copied = len bytes ∧ holds (p ++ [n]) bytes mode f).
Proof.
  eapply ensures_bind; [apply metadata_leaf|]. intros metadata. eapply (ensures_bind _ _ _ (λ _, S p)).
  { apply ensures_left. destruct metadata as [[m| |]|]; try by apply ensures_ret.
    eapply ensures_conseq; [apply remove_dir_leaf|done|by intros _ f []]. }
  intros ?. eapply ensures_bind; [apply temporary_ensures|]. intros ?. destruct (data e) as [bytes|].
  - eapply ensures_bind; [apply persist_leaf|]. intros ?. apply ensures_ret. intros f [Hf Hh]. split; [done|]. by exists bytes.
  - apply ensures_fail. apply standing_J.
Qed.

(** ** Hard links *)

(** A path without links above its last component leads to itself or nowhere. *)
Definition plain (p : fspath) (f : Fs) : Prop := ∀ q target, q `prefix_of` p → q ≠ p → nodes f !! q ≠ Some (Symlink target).
Lemma walk_plain links t p : ∀ current,
  (∀ q target, q `prefix_of` p → q ≠ p → t !! (current ++ q) ≠ Some (Symlink target)) →
  walk links t current (Normal <$> p) = Ok (current ++ p) ∨ ∃ e, walk links t current (Normal <$> p) = Err e.
Proof.
  induction p as [|a p IH]; intros current Hp; [left; rewrite app_nil_r; by destruct links|].
  destruct p as [|b p]; [left; by destruct links|].
  specialize (IH (current ++ [a])). rewrite <- app_assoc in IH. destruct (t !! (current ++ [a])) as [[m|i|target]|] eqn:E.
  - cbn [fmap list_fmap] in IH |- *. rewrite (walk_step _ _ _ _ _ m) by done. apply IH. intros q target Hq Hne.
    rewrite <- app_assoc. apply (Hp (a :: q)); [by apply prefix_cons|by intros [= ->]].
  - right. exists OtherError. destruct links; cbn; by rewrite E.
  - exfalso. apply (Hp [a] target); [by exists (b :: p)|done|done].
  - right. exists NotFound. destruct links; cbn; by rewrite E.
Qed.
Lemma resolve_plain p f : plain p f → resolve (nodes f) p = Ok p ∨ ∃ e, resolve (nodes f) p = Err e.
Proof. intros Hp. by apply (walk_plain _ _ _ []). Qed.
Lemma real_plain p n f : real (nodes f) p → plain (p ++ [n]) f.
Proof.
  intros Hp q target [k Hk] Hne E. destruct k as [|x k _] using rev_ind; [by rewrite app_nil_r in Hk|].
  rewrite app_assoc in Hk. apply app_inj_tail in Hk as [-> _]. destruct (Hp q) as [m Hm]; [by exists k|]. congruence.
Qed.

(** What only removes nodes and adds directories keeps a plain path plain. *)
Definition fewer_links (f f' : Fs) : Prop :=
  ∀ q target, nodes f' !! q = Some (Symlink target) → nodes f !! q = Some (Symlink target).
Lemma fewer_refl f : fewer_links f f.
Proof. by intros q target. Qed.
Hint Resolve fewer_refl : core.
Lemma fewer_plain p f f' : plain p f → fewer_links f f' → plain p f'.
Proof. intros Hp Hl q target Hq Hne E. by eapply Hp, Hl. Qed.
Lemma plain_call {A} s p (c : fspath → st Fs IoError A) : (∀ q f, fewer_links f (c q f).2) →
  ensures (plain s) (plain s) (io (at_path p c)) (λ _, plain s).
Proof.
  intros Hc f Hf. unfold io. destruct (at_cases p c f) as [l [E|E]]; rewrite E; [done|].
  destruct (resolve _ p) as [q|]; [|done]. specialize (Hc q (f <| faults := l |>)).
  destruct (c q _) as [[a|e] f'] eqn:Ec; by eapply fewer_plain.
Qed.
Lemma plain_attempt {A} s p (c : fspath → st Fs IoError A) : (∀ q f, fewer_links f (c q f).2) →
  ensures (plain s) (plain s) (attempt (at_path p c)) (λ _, plain s).
Proof.
  intros Hc f Hf. pose proof (plain_call s p c Hc f Hf) as H. unfold io, attempt in *.
  by destruct (at_path p c f) as [[|] f'].
Qed.
Lemma plain_metadata s p : ensures (plain s) (plain s) (attempt (symlink_metadata p)) (λ _, plain s).
Proof. apply plain_attempt. intros q f. by destruct (nodes f !! q). Qed.
Lemma plain_create s p : ensures (plain s) (plain s) (io (create_dir p)) (λ _, plain s).
Proof.
  apply plain_call. intros q f. destruct (nodes f !! q); [done|]. cbn. intros q' target E. cbn in E.
  by apply lookup_insert_Some in E as [[_ ?]|[_ ?]].
Qed.
Lemma plain_ensure s path rest : ∀ p, ensures (plain s) (plain s) (ensure_from path p rest) (λ _, plain s).
Proof.
  induction rest as [|n rest IH]; intros p; cbn [ensure_from]; [by apply ensures_ret|].
  eapply ensures_bind; [apply plain_metadata|]. intros metadata. eapply (ensures_bind _ _ _ (λ _, plain s)); [|by intros].
  destruct metadata as [[]|[]]; try by apply ensures_fail. - by apply ensures_ret. - apply plain_create.
Qed.
Lemma plain_remove s p : ensures (plain s) (plain s) (remove_path_no_follow p) (λ _, plain s).
Proof.
  eapply ensures_bind; [apply plain_metadata|]. intros [[]|[]]; try by apply ensures_fail.
  - apply plain_call. intros q f. destruct (nodes f !! q) as [[]|]; try done. intros q' ? E.
    eapply lookup_weaken; [exact E|]. apply remove_each_fewer.
  - apply plain_call. intros q f. destruct (nodes f !! q) as [[]|]; try done; intros q' ? E; cbn in E;
      by apply lookup_delete_Some in E as [_ E].
  - apply plain_call. intros q f. destruct (nodes f !! q) as [[]|]; try done; intros q' ? E; cbn in E;
      by apply lookup_delete_Some in E as [_ E].
  - by apply ensures_ret.
Qed.
Lemma ensures_frame {A} (P X : Fs → Prop) (c : st Fs LayerError A) Q : ensures J P c Q → ensures X X c (λ _, X) →
  ensures J (λ f, P f ∧ X f) c (λ a f, Q a f ∧ X f).
Proof.
  intros Hc Hx f [Hf HX]. specialize (Hc f Hf). specialize (Hx f HX). by destruct (c f) as [[|] ?].
Qed.
Lemma link_leaf s p n : below root s → ensures J (λ f, S p f ∧ plain s f) (io (hard_link s (p ++ [n])))
  (λ _ f, S p f ∧ ∃ i, nodes f !! (p ++ [n]) = Some (Regular i) ∧ nodes f !! s = Some (Regular i)).
Proof.
  intros Hs f [Hf Hpl]. unfold io, hard_link.
  match goal with |- context [at_path s ?c f] => destruct (at_cases s c f) as [l [E|E]]; rewrite E; clear E end; cbn [map_err].
  { by apply applying_faults, (standing_J p). }
  pose proof (standing_faults p f l Hf) as Hl. assert (J (f <| faults := l |>)) as HJ by (by apply (standing_J p)).
  destruct (resolve_plain s f Hpl) as [R|[e R]]; rewrite R; [|done].
  change (nodes (f <| faults := l |>)) with (nodes f). destruct (nodes f !! s) as [[]|] eqn:En; try done.
  rewrite resolve_leaf by apply Hf. destruct (nodes f !! (p ++ [n])) eqn:Ed; [done|].
  split; [|exists inode; split; [by apply lookup_insert_eq|]; cbn; rewrite lookup_insert_ne; [done|congruence]]. eapply (put_leaf p n); [done| |done..|].
  - intros m. cbn. congruence.
  - intros i [= <-]. by exists s.
Qed.
Lemma root_stands f : J f ↔ S root f.
Proof. split; [intros []; by split_and!|by intros []]. Qed.
(** The last component is the name of the leaf in the parent. *)
Lemma parent_last (path : fspath) n : last path = Some n → path = parent path ++ [n].
Proof.
  intros [up ->]%last_Some. unfold parent. rewrite length_app. cbn. replace (length up + 1 - 1)%nat with (length up) by lia.
  by rewrite take_app_length.
Qed.
Lemma join_ensures q path error (Q : Fs → Prop) : (∀ f, Q f → J f) →
  ensures J Q (join_leaf q path error) (λ d f, Q f ∧ ∃ n, last path = Some n ∧ d = q ++ [n]).
Proof.
  intros HQ. unfold join_leaf. destruct (last path) as [n|] eqn:E; [|by apply ensures_fail].
  apply ensures_ret. intros f Hf. split; [done|]. by exists n.
Qed.
(** What follows the creation of the parent runs at a leaf of it. *)
Lemma at_destination {A} path (X : Fs → Prop) error (k : fspath → st Fs LayerError A) Q :
  ensures X X (ensure_directories root (parent path)) (λ _, X) →
  (∀ p n, root ++ path = p ++ [n] → ensures J (λ f, S p f ∧ X f) (k (p ++ [n])) Q) →
  ensures J (λ f, J f ∧ X f) (let! up := ensure_directories root (parent path) in
    let! destination := join_leaf up path error in k destination) Q.
Proof.
  intros HX Hk. eapply (ensures_bind _ _ _ (λ up f, (S (root ++ parent path) f ∧ X f) ∧ up = root ++ parent path)).
  { eapply ensures_conseq; [apply ensures_frame; [apply ensure_ensures|exact HX]|by intros f [?%root_stands ?]|by intros up f [[? ->] ?]]. }
  intros up. apply ensures_pure. intros ->. eapply ensures_bind; [apply join_ensures; by intros f [[] ]|]. intros destination.
  apply ensures_pure. intros (n & Hn & ->). apply Hk. rewrite <- app_assoc. f_equal. by apply parent_last.
Qed.
Lemma relink_ensures s p n : below root s →
  ensures J (λ f, S p f ∧ plain s f) (let! _ := remove_path_no_follow (p ++ [n]) in io (hard_link s (p ++ [n])))
    (λ _ f, J f ∧ ∃ i, nodes f !! (p ++ [n]) = Some (Regular i) ∧ nodes f !! s = Some (Regular i)).
Proof.
  intros Hs. eapply ensures_bind; [apply ensures_frame; [apply remove_ensures|apply plain_remove]|]. intros ?.
  eapply ensures_conseq; [by apply link_leaf|by intros f [[] ]|by intros ? f [[] ]].
Qed.
Lemma hardlink_ensures path target : ensures J J (apply_hardlink root path target)
  (λ _ f, J f ∧ ∃ i, nodes f !! (root ++ path) = Some (Regular i) ∧ nodes f !! (root ++ target) = Some (Regular i)).
Proof.
  eapply (ensures_bind _ _ _ (λ r f, match r with Some q => S q f ∧ q = root ++ parent target | None => J f end)).
  { eapply ensures_conseq; [apply resolve_ensures|by intros f ?%root_stands|done]. }
  intros [q|]; [|by apply ensures_fail]. eapply ensures_bind; [apply join_ensures; by intros f [[] _]|].
  intros source. eapply (ensures_bind _ _ _ (λ _ f, (S root f ∧ plain source f) ∧ below root source ∧ source = root ++ target)).
  { intros f ([Hf ->] & n & Hn & ->). pose proof (metadata_leaf (root ++ parent target) n f Hf) as H. unfold attempt in *.
    destruct (symlink_metadata _ f) as [r f1]. destruct H as [H _]. cbn. split; [split|split].
    - apply root_stands. by apply standing_J in H.
    - apply real_plain, H.
    - by apply leaf_below, Hf.
    - rewrite <- app_assoc. f_equal. symmetry. by apply parent_last. }
  intros [[m|i|t]|e]; try by (apply ensures_fail; intros f [[[] _] _]).
  apply ensures_pure. intros [Hb ->].
  eapply (ensures_conseq _ (λ f, J f ∧ plain (root ++ target) f)); [|by intros f [?%root_stands ?]|by intros ? ? H; exact H].
  apply (at_destination path (plain (root ++ target))); [apply plain_ensure|].
  intros p n ->. by apply relink_ensures.
Qed.

(** ** Whiteouts and entries *)

Lemma children_ensures p names : ensures J (S p) (remove_children p names) (λ _, S p).
Proof.
  induction names as [|n names IH]; cbn [remove_children]; [by apply ensures_ret|].
  eapply ensures_bind; [apply remove_ensures|]. intros ?. eapply ensures_conseq; [apply IH|by intros f []|done].
Qed.
Lemma read_dir_ensures p q : ensures J (S p) (io (read_dir q)) (λ _, S p).
Proof.
  intros f Hf. unfold io, read_dir. match goal with |- context [at_path q ?c f] =>
    destruct (at_cases q c f) as [l [E|E]]; rewrite E; clear E end; cbn [map_err].
  - by apply applying_faults, (standing_J p).
  - apply (standing_faults _ _ l) in Hf. destruct (resolve _ q) as [q'|]; [|by apply (standing_J p)].
    destruct (nodes _ !! q') as [[]|]; [done|by apply (standing_J p)..].
Qed.
Lemma resolve_existing_ensures path : ensures J J (resolve_existing_directory root path)
  (λ r f, match r with Some q => S q f | None => J f end).
Proof.
  eapply ensures_conseq; [apply resolve_ensures|by intros f ?%root_stands|by intros [q|] f; [intros [] |]].
Qed.
Lemma whiteout_ensures w : ensures J J (apply_whiteout root w) (λ _, J).
Proof.
  destruct w as [path|path]; (eapply ensures_bind; [apply resolve_existing_ensures|]); (intros [q|]; [|by apply ensures_ret]).
  - eapply ensures_bind; [apply join_ensures; by intros f []|]. intros leaf. apply ensures_pure. intros (n & Hn & ->).
    eapply ensures_conseq; [apply remove_ensures|done|by intros ? f [[] ]].
  - eapply ensures_bind; [apply read_dir_ensures|]. intros names.
    eapply ensures_conseq; [apply children_ensures|done|by intros ? f []].
Qed.
Lemma whiteouts_ensures ws : ensures J J (apply_whiteouts root ws) (λ _, J).
Proof.
  induction ws as [|w ws IH]; cbn [apply_whiteouts]; [by apply ensures_ret|].
  eapply ensures_bind; [apply whiteout_ensures|]. by intros.
Qed.

(** What an entry leaves at its path. *)
Definition entry_path (e : Entry) : result LayerError fspath :=
  let? raw_path := path_from_tar_bytes (path_bytes e) in normalize_entry_path raw_path.
Definition placed_at (e : Entry) (path : fspath) (f : Fs) : Prop :=
  match entry_type e with
  | TDirectory => real (nodes f) (root ++ path)
  | TRegular | TContinuous => ∃ bytes mode, data e = Some bytes ∧ header_mode e = Some mode ∧
      holds (root ++ path) bytes (sanitized_mode mode) f
  | TSymlink => ∃ target, link_name e = Some target ∧ nodes f !! (root ++ path) = Some (Symlink target)
  | TLink => ∃ target i, link_name e = Some target ∧ (∃ source, normalize_entry_path target = Ok source ∧
      nodes f !! (root ++ source) = Some (Regular i)) ∧ nodes f !! (root ++ path) = Some (Regular i)
  | _ => True
  end.
Definition placed (e : Entry) (f : Fs) : Prop :=
  ∀ path, entry_path e = Ok path → whiteout_target path = Ok None → placed_at e path f.
Lemma read_pure {A} (P : Fs → Prop) (r : result LayerError A) : (∀ f, P f → J f) →
  ensures J P (sread (λ _, r)) (λ a f, P f ∧ r = Ok a).
Proof. intros HP f Hf. unfold sread. destruct r; [done|by apply HP]. Qed.
Lemma at_new {A} path error (k : fspath → st Fs LayerError A) Q :
  (∀ p n, root ++ path = p ++ [n] → ensures J (S p) (k (p ++ [n])) Q) →
  ensures J J (let! up := ensure_directories root (parent path) in
    let! destination := join_leaf up path error in k destination) Q.
Proof.
  intros Hk. eapply (ensures_conseq _ (λ f, J f ∧ True)); [|done|by intros ? ? H; exact H].
  apply (at_destination path (λ _, True)); [|intros p n E; by apply ensures_left, Hk]. intros f _.
  by destruct (ensure_directories root (parent path) f) as [[]].
Qed.
Lemma directory_ensures path : ensures J J
  (match path with
   | [] => sret root
   | _ => let! up := ensure_directories root (parent path) in
          let! destination := join_leaf up path (InvalidPath (as_bytes path) "directory has no basename") in
          let! _ := ensure_directory_leaf destination in sret destination
   end) (λ d f, J f ∧ d = root ++ path ∧ real (nodes f) (root ++ path)).
Proof.
  destruct path as [|x path]; [apply ensures_ret; intros f []; by rewrite app_nil_r|].
  apply (at_new (x :: path)). intros p n ->. eapply ensures_bind; [apply leaf_ensures|]. intros ?.
  apply ensures_ret. by intros f (? & ? & ?).
Qed.
Lemma file_ensures options e path modes copied : ensures J J
  (let! up := ensure_directories root (parent path) in
   let! destination := join_leaf up path (InvalidPath (as_bytes path) "file has no basename") in
   let! mode := sread (λ _, mode_of e) in
   let! n := write_regular_file e destination (sanitized_mode mode) in
   match checked_add 64 copied n with
   | None => sfail (TotalSizeLimitExceeded (max_total_size (limits options)))
   | Some copied => sret (modes : list (fspath * Z), copied)
   end)
  (λ _ f, J f ∧ ∃ bytes mode, data e = Some bytes ∧ header_mode e = Some mode ∧
     holds (root ++ path) bytes (sanitized_mode mode) f).
Proof.
  apply (at_new path). intros p n ->. eapply ensures_bind; [apply read_pure; by intros f []|]. intros mode.
  apply ensures_pure. intros Hm. assert (header_mode e = Some mode) as Hh.
  { unfold mode_of in Hm. destruct (header_mode e); by simplify_eq. }
  eapply ensures_bind; [apply write_ensures|]. intros size. destruct (checked_add 64 copied size).
  - apply ensures_ret. intros f ([Hf _] & bytes & Hd & _ & Hh'). split; [done|]. by exists bytes, mode.
  - apply ensures_fail. by intros f [[] _].
Qed.
Lemma link_target_name e path options target : read_link_target e path options = Ok target → link_name e = Some target.
Proof.
  unfold read_link_target, path_from_tar_bytes. destruct (link_name e); [|done]. by repeat case_match; intros [= <-].
Qed.
Lemma entry_ensures options e done : ensures J J (apply_entry root options e done) (λ _ f, J f ∧ placed e f).
Proof.
  destruct done as [modes copied]. unfold apply_entry.
  eapply ensures_bind; [by apply read_pure|]. intros raw. apply ensures_pure. intros Hraw.
  eapply ensures_bind; [by apply read_pure|]. intros path. apply ensures_pure. intros Hpath.
  eapply ensures_bind; [by apply read_pure|]. intros w. apply ensures_pure. intros Hw.
  assert (entry_path e = Ok path) as Hep by (unfold entry_path; by rewrite Hraw).
  destruct w as [w|]; [apply ensures_ret; intros f Hf; split; [done|]; intros path' E Hw'; congruence|].
  apply (ensures_conseq _ J _ _ (λ _ f, J f ∧ placed_at e path f));
    [|done|intros ? f [Hf Hp]; split; [done|]; intros path' E _; congruence]. clear Hraw Hpath Hw Hep.
  unfold placed_at. destruct (entry_type e); try by (apply ensures_ret).
  - apply file_ensures.
  - apply file_ensures.
  - eapply ensures_bind; [apply directory_ensures|]. intros d. eapply ensures_bind; [apply ensures_read; by intros f []|].
    intros mode. apply ensures_ret. by intros f (? & ? & ?).
  - eapply ensures_bind; [by apply read_pure|]. intros target. apply ensures_pure. intros Ht%link_target_name.
    apply (at_new path). intros p n ->. eapply ensures_bind; [apply symlink_ensures|]. intros ?.
    apply ensures_ret. intros f [[Hf _] E]. split; [done|]. by exists target.
  - eapply ensures_bind; [by apply read_pure|]. intros target. apply ensures_pure. intros Ht%link_target_name.
    eapply ensures_bind; [by apply read_pure|]. intros source. apply ensures_pure. intros Hs.
    eapply ensures_bind; [apply hardlink_ensures|]. intros ?. apply ensures_ret. intros f (Hf & i & Hd & Hi).
    split; [done|]. exists target, i. split; [done|]. split; [by exists source|done].
Qed.
Lemma loop_ensures options es : ∀ done, ensures J J (apply_loop root options es done) (λ _, J).
Proof.
  induction es as [|[e|] es IH]; intros done; cbn [apply_loop]; [by apply ensures_ret| |by apply ensures_fail].
  eapply ensures_bind; [apply entry_ensures|]. intros done'. eapply ensures_conseq; [apply IH|by intros f []|done].
Qed.
End calls.
