(* ===== verification/LayerTheorems.v ===== *)
(** Application of a layer as a whole: what [apply_layer_with_format] of
    [rish-layer/src/apply.rs] may change, when, and to what; and the ways a layer
    still reaches outside its destination. *)
From stdpp Require Import strings gmap.
From S2P Require Import Prelude.
From S2P Require Import Filesystem.
From S2P Require Import Layer.
From S2P Require Import LayerSafety.
Local Open Scope Z_scope.

(** ** Modes of directories *)

(** The same node, modes of directories apart. *)
Definition same_node (a b : option Node) : Prop :=
  match a, b with Some (Dir _), Some (Dir _) => True | _, _ => a = b end.
#[export] Instance same_node_equivalence : Equivalence same_node.
Proof.
  split.
  - by intros [[]|].
  - intros [[]|] [[]|]; cbn; congruence.
  - intros [[]|] [[]|] [[]|]; cbn; congruence.
Qed.
Record same_shape (f f' : Fs) : Prop := mk_same_shape {
  ss_nodes : ∀ p, same_node (nodes f' !! p) (nodes f !! p);
  ss_inodes : inodes f' = inodes f
}.
#[export] Instance same_shape_refl : Reflexive same_shape.
Proof. done. Qed.
#[export] Instance same_shape_trans : Transitive same_shape.
Proof. intros f g h [N I] [N' I']. split; [|congruence]. intros p. etrans; [apply N'|apply N]. Qed.

Lemma shape_faults f l : same_shape f (f <| faults := l |>).
Proof. done. Qed.
Lemma metadata_found p f node f' : symlink_metadata p f = (Ok node, f') →
  nodes f' = nodes f ∧ inodes f' = inodes f ∧ ∃ q, resolve (nodes f) p = Ok q ∧ nodes f !! q = Some node.
Proof.
  unfold symlink_metadata. match goal with |- context [at_path p ?c f] =>
    destruct (at_cases p c f) as [l [E|E]]; rewrite E; clear E end; [done|].
  destruct (resolve _ p) as [q|] eqn:R; [|done]. cbn. destruct (nodes f !! q) eqn:E; [|done].
  intros [= <- <-]. split; [done|]. split; [done|]. by exists q.
Qed.
Lemma metadata_shape p f : nodes (symlink_metadata p f).2 = nodes f ∧ inodes (symlink_metadata p f).2 = inodes f.
Proof.
  unfold symlink_metadata. match goal with |- context [at_path p ?c f] =>
    destruct (at_cases p c f) as [l [E|E]]; rewrite E; clear E end; [done|].
  destruct (resolve _ p) as [q|] eqn:R; [|done]. cbn. by destruct (nodes f !! q).
Qed.
Lemma metadata_next p f : next_inode (symlink_metadata p f).2 = next_inode f.
Proof.
  unfold symlink_metadata. match goal with |- context [at_path p ?c f] =>
    destruct (at_cases p c f) as [l [E|E]]; rewrite E; clear E end; [done|].
  destruct (resolve _ p) as [q|] eqn:R; [|done]. cbn. by destruct (nodes f !! q).
Qed.
(** Setting the mode of a directory changes that and nothing else. *)
Lemma set_permissions_shape p mode q m f : resolve (nodes f) p = Ok q → nodes f !! q = Some (Dir m) →
  same_shape f (set_permissions p mode f).2.
Proof.
  intros R E. unfold set_permissions. match goal with |- context [call ?c f] =>
    destruct (call_cases c f) as [l [C|C]]; rewrite C; clear C end; [done|].
  change (nodes (f <| faults := l |>)) with (nodes f). rewrite (follow_dir _ _ _ q m), E by done.
  split; [|done]. intros p'. cbn. destruct (decide (q = p')) as [<-|Hne].
  - by rewrite lookup_insert_eq, E.
  - by rewrite lookup_insert_ne.
Qed.
Lemma set_modes_shape modes : ∀ f, same_shape f (set_modes modes f).2.
Proof.
  induction modes as [|[p mode] modes IH]; intros f; [done|]. cbn [set_modes]. unfold sbind, io.
  destruct (symlink_metadata p f) as [[node|e] f1] eqn:E; cbn.
  - apply metadata_found in E as (N & I & q & R & Eq). assert (same_shape f f1) as H1 by (split; [intros; by rewrite N|done]).
    destruct node as [m| |]; cbn; [|by etrans; [|apply IH]..].
    assert (same_shape f1 (set_permissions p mode f1).2) as H2 by (eapply set_permissions_shape; by rewrite N).
    destruct (set_permissions p mode f1) as [[[]|e] f2]; cbn in *; [etrans; [done|]; by etrans; [|apply IH]|by etrans].
  - destruct (metadata_shape p f) as [N I]. rewrite E in N, I. cbn in N, I. split; [intros; by rewrite N|done].
Qed.

(** ** The destination *)

(** What a path leads to stays what it leads to as the tree grows. *)
Lemma walk_grown t t' : t ⊆ t' → ∀ links current rest q, walk links t current rest = Ok q → walk links t' current rest = Ok q.
Proof.
  intros Ht. induction links as [|links IHl]; intros current rest; revert current;
    induction rest as [|c rest IH]; intros current q; cbn; try done; destruct c as [| | |part]; try apply IH;
    (destruct rest as [|c' rest]; [done|]); destruct (t !! (current ++ [part])) as [[]|] eqn:E; try done;
    rewrite (lookup_weaken _ _ _ _ E Ht); [apply IH|apply IH|]; try done. apply IHl.
Qed.
Lemma resolve_grown t t' p q : t ⊆ t' → resolve t p = Ok q → resolve t' p = Ok q.
Proof. intros Ht. by apply walk_grown. Qed.
(** Directories have been made on the way to the destination, nothing else: each is
    what the path of the destination, or a part of it from the root, leads to. *)
Record grown (destination : fspath) (f f' : Fs) : Prop := mk_grown {
  gr_old : nodes f ⊆ nodes f';
  gr_new : ∀ q node, nodes f' !! q = Some node → nodes f !! q = Some node ∨
    node = Dir DIRECTORY_MODE ∧ ∃ p, p `prefix_of` destination ∧ resolve (nodes f') p = Ok q;
  gr_inodes : inodes f' = inodes f;
  gr_next : next_inode f' = next_inode f;
  gr_tree : tree_ok (nodes f) → tree_ok (nodes f')
}.
#[export] Instance grown_refl d : Reflexive (grown d).
Proof. intros f. split; try done. by left. Qed.
#[export] Instance grown_trans d : Transitive (grown d).
Proof.
  intros f g h [O N I X T] [O' N' I' X' T']. split; [by etrans| |congruence|congruence|by auto].
  intros q node Hq. destruct (N' q node Hq) as [Hg|?]; [|by right]. destruct (N q node Hg) as [?|(-> & p & Hp & R)]; [by left|].
  right. split; [done|]. exists p. split; [done|]. by apply (resolve_grown (nodes g)).
Qed.
Lemma grown_same d f f' : nodes f' = nodes f → inodes f' = inodes f → next_inode f' = next_inode f → grown d f f'.
Proof. intros N I X. split; rewrite ?N; try done. by left. Qed.

Lemma create_dir_grown d p f : p `prefix_of` d → grown d f (create_dir p f).2.
Proof.
  intros Hpd. unfold create_dir. match goal with |- context [at_path p ?c f] =>
    destruct (at_cases p c f) as [l [E|E]]; rewrite E; clear E end; [by apply grown_same|].
  destruct (resolve (nodes f) p) as [q|] eqn:R; [|by apply grown_same].
  change (nodes (f <| faults := l |>)) with (nodes f). destruct (nodes f !! q) eqn:E; [by apply grown_same|].
  assert (nodes f ⊆ <[q := Dir DIRECTORY_MODE]> (nodes f)) as Hs by (by apply insert_subseteq).
  split; try done; cbn -[resolve].
  - intros p' node Hp. apply lookup_insert_Some in Hp as [[<- <-]|[_ Hp]]; [right|by left]. split; [done|].
    exists p. split; [done|]. by eapply resolve_grown.
  - intros Ht. destruct (walk_ends (nodes f) MAX_SYMLINKS Ht (Normal <$> p) [] q) as [Hq|(up & n & -> & Hup)].
    + by apply tree_root.
    + done.
    + destruct (real_last _ _ Hq) as [m Hm]. congruence.
    + by apply tree_put.
Qed.
Lemma create_all_grown d path : reverse path `prefix_of` d → ∀ f, grown d f (create_dir_all_rev path f).2.
Proof.
  induction path as [|n up IH]; intros Hd f; [done|]. cbn [create_dir_all_rev].
  pose proof (create_dir_grown d (reverse (n :: up)) f Hd) as H1.
  specialize (IH ltac:(rewrite reverse_cons in Hd; by eapply prefix_app_l)).
  destruct (create_dir _ f) as [[[]|[]] f1]; cbn in H1; [done| |by case_match..].
  specialize (IH f1). destruct (create_dir_all_rev up f1) as [[[]|e] f2]; cbn in IH; [|by etrans].
  pose proof (create_dir_grown d (reverse (n :: up)) f2 Hd) as H2.
  destruct (create_dir _ f2) as [[[]|e] f3]; cbn in H2; [|case_match]; (etrans; [exact H1|by etrans]).
Qed.
(** The destination is the directory its path leads to. *)
Lemma prepare_grown destination f : match prepare_destination destination f with
  | (Ok root, f') => grown destination f f' ∧ resolve (nodes f') destination = Ok root ∧ ∃ m, nodes f' !! root = Some (Dir m)
  | (Err _, f') => grown destination f f'
  end.
Proof.
  unfold prepare_destination, sbind, io at 1, create_dir_all. pose proof (create_all_grown destination (reverse destination) ltac:(by rewrite reverse_involutive) f) as H1.
  destruct (create_dir_all_rev _ f) as [[[]|e] f1]; cbn in H1; [|done]. cbn [map_err]. unfold io at 1.
  destruct (symlink_metadata destination f1) as [[node|e] f2] eqn:E.
  - pose proof (metadata_next destination f1) as X. rewrite E in X. apply metadata_found in E as (N & I & q & R & Eq). cbn [map_err].
    assert (grown destination f f2) as H2 by (etrans; [done|by apply grown_same]). destruct node as [m| |]; [|done..].
    unfold canonicalize, io. match goal with |- context [call ?c f2] =>
      destruct (call_cases c f2) as [l [C|C]]; rewrite C; clear C end; cbn [map_err].
    + etrans; [done|by apply grown_same].
    + change (nodes (f2 <| faults := l |>)) with (nodes f2). rewrite (follow_dir _ _ _ q m) by (by rewrite N).
      cbn. rewrite N. split; [etrans; [done|by apply grown_same]|]. split; [done|by exists m].
  - destruct (metadata_shape destination f1) as [N I]. pose proof (metadata_next destination f1) as X. rewrite E in N, I, X.
    cbn in *. etrans; [done|by apply grown_same].
Qed.

(** ** Confinement *)

(** A well-formed file system: a tree, with unused inode numbers ahead. *)
Record fs_ok (f : Fs) : Prop := mk_fs_ok {
  ok_tree : tree_ok (nodes f);
  ok_next : ∀ i, is_Some (inodes f !! i) → i < next_inode f;
  ok_inodes : ∀ p i, nodes f !! p = Some (Regular i) → is_Some (inodes f !! i)
}.
(** From [f] to [f'] only what is below [root] has changed: elsewhere every node is
    what it was, the modes of directories apart; every file that existed has the
    contents and mode it had; a file below [root] is new or was below [root]. *)
Record confined (root : fspath) (f f' : Fs) : Prop := mk_confined {
  cf_nodes : ∀ p, ¬ below root p → same_node (nodes f' !! p) (nodes f !! p);
  cf_inodes : ∀ i n, inodes f !! i = Some n → inodes f' !! i = Some n;
  cf_links : ∀ p i, below root p → nodes f' !! p = Some (Regular i) →
    inodes f !! i = None ∨ ∃ q, below root q ∧ nodes f !! q = Some (Regular i)
}.
Lemma confined_shape root f g h : kept_outside root f g → same_shape g h → confined root f h.
Proof.
  intros [Kn Ki Kx Kl] [N I]. split.
  - intros p Hp. rewrite <- (Kn p Hp). apply N.
  - intros i n Hi. rewrite I. by apply Ki.
  - intros p i Hp E. apply (Kl p i Hp). specialize (N p). rewrite E in N. cbn in N. by rewrite N.
Qed.
(** What the application may have done to [f]: made directories on the way to the
    destination, and then changed what is below the directory it names. *)
Definition only_below (destination : fspath) (f f' : Fs) : Prop :=
  grown destination f f' ∨
  ∃ root f1, grown destination f f1 ∧ resolve (nodes f1) destination = Ok root ∧ real (nodes f1) root ∧ confined root f1 f'.

(** What holds of a tree still holds after calls that only look at it. *)
Definition quiet (J : Fs → Prop) : Prop :=
  ∀ f f', J f → nodes f' = nodes f → inodes f' = inodes f → next_inode f' = next_inode f → J f'.
Lemma quiet_grown d f0 : quiet (grown d f0).
Proof. intros f f' Hf N I X. etrans; [done|by apply grown_same]. Qed.
Lemma temporary_quiet J : quiet J → ensures J J temporary (λ _, J).
Proof.
  intros HJ. apply ensures_snd. intros f Hf. unfold temporary, io.
  destruct (call_cases (sret ()) f) as [l [C|C]]; rewrite C; by eapply HJ.
Qed.
Lemma metadata_quiet J p : quiet J → ensures J J (io (symlink_metadata p)) (λ _, J).
Proof.
  intros HJ. apply ensures_snd. intros f Hf. destruct (metadata_shape p f) as [N I]. pose proof (metadata_next p f) as X.
  unfold io. destruct (symlink_metadata p f) as [r f1]. by eapply HJ.
Qed.

(** ** The preflight scan *)

(** What an entry is applied as; a whiteout is not. *)
Definition whiteout_of (e : Entry) : option Whiteout :=
  match entry_path e with
  | Ok path => match whiteout_target path with Ok w => w | Err _ => None end
  | Err _ => None
  end.
Definition is_a (ts : list EntryType) (e : Entry) : bool :=
  match whiteout_of e with Some _ => false | None => bool_decide (entry_type e ∈ ts) end.
Definition is_whiteout (e : Entry) : bool := match whiteout_of e with Some _ => true | None => false end.
Abbreviation FILES := [TRegular; TContinuous].
Fixpoint count (test : Entry → bool) (es : list Entry) : Z :=
  match es with [] => 0 | e :: es => (if test e then 1 else 0) + count test es end.
Fixpoint total_size (es : list Entry) : Z :=
  match es with [] => 0 | e :: es => (if is_a FILES e then size e else 0) + total_size es end.

(** An entry the scan lets through: its path names something below the destination,
    within the limits; its kind is supported; a symbolic link does not lead out of
    the destination by its components alone; a hard link names something in it. *)
Record acceptable (options : ApplyOptions) (e : Entry) : Prop := mk_acceptable {
  acc_path : Forall (λ c, c = CurDir ∨ ∃ part, c = Normal part) (components (path_bytes e));
  acc_bytes : (0 ∉ path_bytes e) ∧ len (path_bytes e) ≤ max_path_bytes (limits options);
  acc_size : is_a FILES e → size e ≤ max_file_size (limits options);
  acc_whiteout : is_whiteout e → size e = 0;
  acc_special : is_a [TChar; TBlock; TFifo] e → special_files options = Skip;
  acc_kind : ∀ byte, entry_type e = TOther byte → is_whiteout e;
  acc_symlink : is_a [TSymlink] e → ∃ path target, entry_path e = Ok path ∧ link_name e = Some target ∧
    len target ≤ max_link_target_bytes (limits options) ∧ stays_below (len (parent path)) (components target);
  acc_hardlink : is_a [TLink] e → ∃ target source, link_name e = Some target ∧
    normalize_entry_path target = Ok source ∧ source ≠ []
}.
(** A report that counts these entries too. *)
Record counted (es : list Entry) (r r' : ApplyReport) : Prop := mk_counted {
  cnt_entries : report_entries r' = report_entries r + len es;
  cnt_bytes : expanded_bytes r' = expanded_bytes r + total_size es;
  cnt_files : files r' = files r + count (is_a FILES) es;
  cnt_directories : directories r' = directories r + count (is_a [TDirectory]) es;
  cnt_symlinks : symlinks r' = symlinks r + count (is_a [TSymlink]) es;
  cnt_hardlinks : hardlinks r' = hardlinks r + count (is_a [TLink]) es;
  cnt_whiteouts : whiteouts r' = whiteouts r + count is_whiteout es;
  cnt_special : skipped_special_files r' = skipped_special_files r + count (is_a [TChar; TBlock; TFifo]) es
}.
Lemma normalize_forward bytes cs path : normalize_components bytes cs = Ok path →
  Forall (λ c, c = CurDir ∨ ∃ part, c = Normal part) cs.
Proof.
  revert path. induction cs as [|[] cs IH]; intros path; cbn; try done.
  - intros E. constructor; [by left|by eapply IH].
  - intros (rest & E & _)%rbind_ok. constructor; [right; by eexists|by eapply IH].
Qed.
Lemma tar_bytes bytes raw : path_from_tar_bytes bytes = Ok raw → raw = bytes ∧ 0 ∉ bytes.
Proof. unfold path_from_tar_bytes. case_bool_decide; by intros [= <-]. Qed.

(** ** Whiteouts *)

(** The nodes in [X] are gone and nothing else has changed. *)
Record erased (X : fspath → Prop) (f f' : Fs) : Prop := mk_erased {
  er_gone : ∀ q, X q → nodes f' !! q = None;
  er_kept : ∀ q, ¬ X q → nodes f' !! q = nodes f !! q;
  er_inodes : inodes f' = inodes f
}.
Definition covers (root : fspath) (w : Whiteout) (q : fspath) : Prop :=
  match w with Remove path => (root ++ path) `prefix_of` q | Opaque path => below (root ++ path) q end.

(** A path that leads nowhere has nothing below it. *)
Lemma resolve_exact path rest : ∀ p f r f', real (nodes f) p → tree_ok (nodes f) → resolve_from path p rest f = (Ok r, f') →
  nodes f' = nodes f ∧ inodes f' = inodes f ∧
  match r with
  | Some q => q = p ++ rest ∧ real (nodes f) q
  | None => ∀ q, below (p ++ rest) q → nodes f !! q = None
  end.
Proof.
  induction rest as [|n rest IH]; intros p f r f' Hp Ht; cbn [resolve_from].
  { intros [= <- <-]. by rewrite app_nil_r. }
  unfold sbind, attempt. destruct (metadata_cases p n f Hp) as (l & [E|[(node & En & E)|[En E]]]); rewrite E; clear E; [done| |].
  - destruct node as [m|i|target]; cbn [is_symlink is_dir negb]; [|intros [= <- <-]|done].
    + intros E. apply IH in E as (N & I & Hr); [|by eapply real_snoc|done]. rewrite <- app_assoc in Hr. done.
    + split; [done|]. split; [done|]. intros q [Hq Hne]. eapply (nothing_below _ (p ++ [n])); [done|cbn; congruence| |].
      * etrans; [|done]. exists rest. by rewrite <- app_assoc.
      * intros <-. apply Hne. apply (anti_symm (prefix (A := name))); [|done]. exists rest. by rewrite <- app_assoc.
  - intros [= <- <-]. split; [done|]. split; [done|]. intros q [Hq Hne]. destruct (decide (p ++ [n] = q)) as [<-|Hnq]; [done|].
    eapply (nothing_below _ (p ++ [n])); [done|congruence| |done]. etrans; [|done]. exists rest. by rewrite <- app_assoc.
Qed.
Lemma remove_exact p n f f' : real (nodes f) p → tree_ok (nodes f) → remove_path_no_follow (p ++ [n]) f = (Ok (), f') →
  erased (prefix (p ++ [n])) f f'.
Proof.
  intros Hp Ht. unfold remove_path_no_follow, sbind, attempt.
  destruct (metadata_cases p n f Hp) as (l & [E|[(node & En & E)|[En E]]]); rewrite E; clear E; [done| |].
  - assert ((∀ m, nodes f !! (p ++ [n]) ≠ Some (Dir m)) → ∀ l, erased (prefix (p ++ [n])) f (erase (p ++ [n]) (f <| faults := l |>))) as He.
    { intros Hd l'. split; cbn; [|intros q Hq; rewrite lookup_delete_ne; [done|by intros <-]|done].
      intros q Hq. destruct (decide (p ++ [n] = q)) as [<-|Hne]; [apply lookup_delete_eq|].
      rewrite lookup_delete_ne by done. by eapply nothing_below. }
    destruct node as [m|i|target]; unfold io, remove_dir_all, remove_file;
      (match goal with |- context [at_path _ ?c ?g] => destruct (at_leaf p n c g Hp) as [l' [E|E]]; rewrite E; clear E end; [done|]);
      change (nodes (f <| faults := l |> <| faults := l' |>)) with (nodes f); rewrite En; [|intros [= <-]..].
    + pose proof (remove_tree_spec (p ++ [n]) (f <| faults := l |> <| faults := l' |>) ltac:(by destruct p) Ht) as Hr.
      pose proof (remove_each_fewer (subtree (p ++ [n]) (nodes f)) (f <| faults := l |> <| faults := l' |>)) as (_ & Hi & _).
      change (nodes (f <| faults := l |> <| faults := l' |>)) with (nodes f) in Hr.
      destruct (remove_each _ _) as [[[]|] f2]; [|done]. intros [= <-]. destruct Hr as (_ & Hk & Hg). split; [by apply Hg|done|done].
    + apply (He ltac:(congruence)).
    + apply (He ltac:(congruence)).
  - intros [= <-]. split; [|done|done]. intros q Hq. destruct (decide (p ++ [n] = q)) as [<-|Hne]; [done|].
    eapply nothing_below; [done| |done|done]. intros m. cbn. congruence.
Qed.
Lemma erased_tree p n f f' : erased (prefix (p ++ [n])) f f' → tree_ok (nodes f) → tree_ok (nodes f').
Proof.
  intros [G K _] [[m Hm] Ht]. split; [exists m; rewrite K; [done|]; intros Hq%prefix_nil_inv; by destruct p|].
  intros q k Hk. destruct (decide ((p ++ [n]) `prefix_of` (q ++ [k]))) as [Hq|Hq]; [rewrite G in Hk by done; by destruct Hk|].
  rewrite K in Hk by done. destruct (Ht q k Hk) as [m' Hm']. exists m'. rewrite K; [done|]. intros Hq'. apply Hq. by apply prefix_app_r.
Qed.
Lemma erased_real p n f f' : erased (prefix (p ++ [n])) f f' → real (nodes f) p → real (nodes f') p.
Proof. intros [G K _] Hp q Hq. rewrite K; [by apply Hp|]. by apply leaf_not_prefix. Qed.
Lemma remove_children_exact p names : ∀ f f', real (nodes f) p → tree_ok (nodes f) →
  remove_children p names f = (Ok (), f') → erased (λ q, ∃ n, n ∈ names ∧ (p ++ [n]) `prefix_of` q) f f'.
Proof.
  induction names as [|n names IH]; intros f f' Hp Ht; cbn [remove_children].
  { intros [= <-]. split; [|done|done]. by intros q (n & Hn%not_elem_of_nil & _). }
  intros [([] & f1 & E1 & E2)|(e & _ & [=])]%sbind_inv. apply remove_exact in E1; [|done..].
  apply IH in E2; [|by eapply erased_real|by eapply erased_tree]. destruct E1 as [G K I], E2 as [G' K' I'].
  split; [| |congruence].
  - intros q (k & Hk & Hq). destruct (decide (Exists (λ k, (p ++ [k]) `prefix_of` q) names)) as [Hx|Hx].
    + apply Exists_exists in Hx as (k' & Hk' & Hq'). apply G'. by exists k'.
    + apply elem_of_cons in Hk as [->|Hk]; [|exfalso; apply Hx, Exists_exists; by exists k].
      rewrite K'; [by apply G|]. intros (k' & Hk' & Hq'). apply Hx, Exists_exists. by exists k'.
  - intros q Hq. rewrite K', K; [done|..].
    + intros Hn. apply Hq. exists n. split; [by left|done].
    + intros (k & Hk & Hkq). apply Hq. exists k. split; [by right|done].
Qed.
Lemma below_child (p q : fspath) : below p q → ∃ n, (p ++ [n]) `prefix_of` q.
Proof.
  intros [[k ->] Hne]. destruct k as [|n k]; [by rewrite app_nil_r in Hne|]. exists n, k. by rewrite <- app_assoc.
Qed.
Lemma remove_whiteout_exact root path f f' : real (nodes f) root → tree_ok (nodes f) →
  apply_whiteout root (Remove path) f = (Ok (), f') → erased (prefix (root ++ path)) f f'.
Proof.
  intros Hr Ht. cbn [apply_whiteout]. intros [(found & f1 & E1 & E2)|(e & _ & [=])]%sbind_inv. unfold join_leaf in E2.
  destruct (last path) as [n|] eqn:En.
  - apply parent_last in En. apply resolve_exact in E1 as (N & I & Hf); [|done..]. destruct found as [q|].
    + destruct Hf as [-> Hq]. apply sbind_inv in E2 as [(? & ? & [= <- <-] & E2)|(e & _ & [=])].
      rewrite <- N in Hq, Ht. apply remove_exact in E2 as [G K I']; [|done..]. rewrite <- app_assoc, <- En in G, K.
      split; [done| |congruence]. intros q' Hq'. rewrite <- N. by apply K.
    + injection E2 as <-. split; [|congruence|done]. intros q Hq. rewrite N. apply Hf. split.
      * etrans; [|done]. rewrite En at 2. exists [n]. by rewrite app_assoc.
      * intros ->. apply prefix_length in Hq. apply (f_equal length) in En. rewrite !length_app in *. cbn in *. lia.
  - apply last_None in En as ->. injection E1 as <- <-. by apply sbind_inv in E2 as [(? & ? & [=] & E2)|(e & _ & [=])].
Qed.
Lemma read_dir_exact q f names f' : real (nodes f) q → io (read_dir q) f = (Ok names, f') →
  names = children q (nodes f) ∧ nodes f' = nodes f ∧ inodes f' = inodes f.
Proof.
  intros Hq. unfold io, read_dir. match goal with |- context [at_path q ?c f] =>
    destruct (at_cases q c f) as [l [E|E]]; rewrite E; clear E end; [done|]. rewrite resolve_real by done.
  change (nodes (f <| faults := l |>)) with (nodes f). destruct (real_last _ _ Hq) as [m ->]. by intros [= <- <-].
Qed.
Lemma opaque_whiteout_exact root path f f' : real (nodes f) root → tree_ok (nodes f) →
  apply_whiteout root (Opaque path) f = (Ok (), f') → erased (below (root ++ path)) f f'.
Proof.
  intros Hr Ht. cbn [apply_whiteout]. intros [(found & f1 & E1 & E2)|(e & _ & [=])]%sbind_inv.
  apply resolve_exact in E1 as (N & I & Hf); [|done..]. destruct found as [q|].
  - destruct Hf as [-> Hq]. rewrite <- N in Hq, Ht. apply sbind_inv in E2 as [(names & f2 & E3 & E2)|(e & _ & [=])].
    apply read_dir_exact in E3 as (-> & N2 & I2); [|done]. rewrite <- N2 in Hq, Ht.
    apply remove_children_exact in E2 as [G K I']; [|done..]. split; [| |congruence].
    + intros q Hb. destruct (decide (Exists (λ k, ((root ++ path) ++ [k]) `prefix_of` q) (children (root ++ path) (nodes f1)))) as [Hx|Hx].
      * apply Exists_exists in Hx as (k & Hk & Hkq). apply G. by exists k.
      * rewrite K; [|intros (k & Hk & Hkq); apply Hx, Exists_exists; by exists k].
        destruct (below_child _ _ Hb) as [n Hn]. destruct (nodes f2 !! ((root ++ path) ++ [n])) as [node|] eqn:En.
        -- exfalso. apply Hx, Exists_exists. exists n. split; [|done]. apply elem_of_children. rewrite <- N2, En. by eexists.
        -- destruct (decide ((root ++ path) ++ [n] = q)) as [<-|Hne]; [done|]. eapply nothing_below; [done| |done|done]. congruence.
    + intros q Hb. rewrite K, N2, N; [done|]. intros (k & Hk & Hkq). apply Hb. eapply below_below; [by apply leaf_below|done].
  - injection E2 as <-. split; [|congruence|done]. intros q Hq. rewrite N. by apply Hf.
Qed.
(** Decides membership of a known kind. *)
Ltac closed_decide := repeat match goal with |- context [bool_decide ?P] =>
  let b := eval vm_compute in (bool_decide P) in
  match b with true => idtac | false => idtac end; change (bool_decide P) with b end.
Section theorems.
Context `{Archive}.
(** All that a reader gives up to its end, if no read fails. *)
Fixpoint delivered (reads : list (option (list Z))) : option (list Z) :=
  match reads with
  | [] | Some [] :: _ => Some []
  | Some chunk :: reads => app chunk <$> delivered reads
  | None :: _ => None
  end.
(** A compressed archive: by its format, or by its first two bytes. *)
Definition compressed (format : LayerFormat) (reads : list (option (list Z))) : Prop :=
  format = Gzip ∨ format = Auto ∧ ∃ bytes rest, reads = Some bytes :: rest ∧ take 2 bytes = [0x1f; 0x8b].
(** The whole archive the reads hold. *)
Record is_archive (reads : list (option (list Z))) (format : LayerFormat) (spool : list Z) : Prop := mk_is_archive {
  ia_compressed : compressed format reads → delivered (gunzip reads) = Some spool;
  ia_plain : ¬ compressed format reads → delivered reads = Some spool
}.
(** What is spooled is all of the archive, and it is within the limit. *)
Lemma copy_bounded_whole limit reads : ∀ total spool out, total = len spool → total ≤ limit →
  copy_bounded limit total spool reads = Ok out → len out ≤ limit ∧ ∃ rest, delivered reads = Some rest ∧ out = spool ++ rest.
Proof.
  induction reads as [|[[|b chunk]|] reads IH]; intros total spool out Ht Hl; cbn [copy_bounded delivered];
    try (intros [= <-]; split; [lia|exists []; by rewrite app_nil_r]); [|done].
  unfold checked_add. destruct (_ <? 2 ^ 64); [|done]. destruct (Z.ltb_spec limit (total + len (b :: chunk))); [done|].
  intros E. apply IH in E as (Ho & rest & -> & ->); [|rewrite len_app; lia|lia]. split; [done|].
  exists ((b :: chunk) ++ rest). by rewrite app_assoc.
Qed.
Lemma is_gzip_spec format reads gzip : is_gzip format reads = Ok gzip → if gzip then compressed format reads else ¬ compressed format reads.
Proof.
  destruct format; cbn.
  - destruct reads as [|[bytes|] reads]; [intros [= <-]|intros [= <-]|done].
    + by intros [?|(_ & ? & ? & ? & _)].
    + case_bool_decide as E; [right; split; [done|]; by eexists _, _|]. intros [?|(_ & ? & ? & [= <- <-] & ?)]; done.
  - intros [= <-]. by intros [?|[? _]].
  - intros [= <-]. by left.
Qed.
Definition spooled (reads : list (option (list Z))) (format : LayerFormat) (limit : Z) (spool : list Z) : Prop :=
  ∃ gzip, is_gzip format reads = Ok gzip ∧ copy_bounded limit 0 [] (if gzip then gunzip reads else reads) = Ok spool.
Lemma spooled_whole reads format limit spool : 0 ≤ limit → spooled reads format limit spool →
  is_archive reads format spool ∧ len spool ≤ limit.
Proof.
  intros Hl (gzip & Hg%is_gzip_spec & E). apply copy_bounded_whole in E as (Ho & rest & Hd & ->); [|done|done].
  split; [|done]. by destruct gzip; split.
Qed.
Lemma spool_quiet J reads format limit directory : quiet J →
  ensures J J (spool_archive reads format limit directory) (λ r f, J f ∧
    spooled reads format limit r.1 ∧ r.2 = SHA256_COLON ++ sha256_hex r.1).
Proof.
  intros HJ. unfold spool_archive.
  eapply (ensures_bind _ _ _ (λ gzip f, J f ∧ is_gzip format reads = Ok gzip)).
  { intros f Hf. unfold sread. by destruct (is_gzip format reads). }
  intros gzip. apply ensures_pure. intros Hg. eapply (ensures_bind _ _ _ (λ _, J)).
  { destruct directory; [|by apply ensures_ret]. eapply ensures_bind; [by apply metadata_quiet|].
    intros []; [by apply ensures_ret|by apply ensures_fail..]. }
  intros ?. eapply ensures_bind; [by apply temporary_quiet|]. intros ?.
  destruct (copy_bounded _ _ _ _) as [spool|e] eqn:E; [|by intros f Hf]. eapply (ensures_bind _ _ _ (λ x f, J f ∧ x = spool)); [by intros f Hf|].
  intros ?. apply ensures_pure. intros ->. eapply ensures_bind; [by apply temporary_quiet|]. intros ?.
  apply ensures_ret. intros f Hf. split; [done|]. split; [by exists gzip|done].
Qed.
Lemma entries_confined root f0 spool options expected :
  ensures (confined root f0) (applying root f0) (apply_entries spool root options expected) (λ _, confined root f0).
Proof.
  assert (∀ f, applying root f0 f → confined root f0 f) as Hc by (intros f []; by eapply confined_shape).
  intros f Hf. unfold apply_entries, sbind. pose proof (loop_ensures root f0 options (entries spool) ([], 0) f Hf) as HL.
  destruct (apply_loop _ _ _ _ f) as [[done|e] f1]; [|by apply Hc].
  destruct (negb (_ =? _)); [by apply Hc|].
  pose proof (set_modes_shape (sort_by_depth done.1) f1) as HM. destruct HL.
  destruct (set_modes _ f1) as [[]]; by eapply confined_shape.
Qed.
Lemma validate_regular_spec path n r l r' : validate_regular path n r l = Ok r' →
  n ≤ max_file_size l ∧ expanded_bytes r + n ≤ max_total_size l ∧
  r' = r <| expanded_bytes := expanded_bytes r + n |> <| files ::= Z.add 1 |>.
Proof.
  unfold validate_regular, checked_add. destruct (Z.ltb_spec (max_file_size l) n); [done|].
  destruct (_ <? 2 ^ 64); [|done]. destruct (Z.ltb_spec (max_total_size l) (expanded_bytes r + n)); [done|]. by intros [= <-].
Qed.
Lemma read_link_spec e path options target : read_link_target e path options = Ok target →
  link_name e = Some target ∧ len target ≤ max_link_target_bytes (limits options).
Proof.
  unfold read_link_target. destruct (link_name e) as [bytes|]; [|done].
  destruct (Z.ltb_spec (max_link_target_bytes (limits options)) (len bytes)); [done|]. by intros [-> _]%tar_bytes.
Qed.
Lemma validate_symlink_spec path target : validate_symlink_target path target = Ok () →
  stays_below (len (parent path)) (components target).
Proof. unfold validate_symlink_target. destruct (_ || _); [done|]. by destruct (stays_below _ _). Qed.
(** What the kind of an entry that is not a whiteout asks for. *)
Lemma kind_acceptable options e path r r' : whiteout_of e = None → entry_path e = Ok path →
  len (path_bytes e) ≤ max_path_bytes (limits options) → scan_kind options e path r = Ok r' → acceptable options e.
Proof.
  intros Hwo Hp Hlen Hk. pose proof Hp as (raw & Hraw & Hn)%rbind_ok. apply tar_bytes in Hraw as [-> H0].
  apply normalize_forward in Hn. assert (∀ ts, is_a ts e = bool_decide (entry_type e ∈ ts)) as Hi.
  { intros ts. unfold is_a. by rewrite Hwo. }
  assert (is_whiteout e = false) as Hiw by (unfold is_whiteout; by rewrite Hwo).
  split; [done|done|rewrite Hi|by rewrite Hiw|rewrite Hi|intros byte Et|rewrite Hi..]; unfold scan_kind in Hk.
  - intros Et%bool_decide_unpack. set_unfold in Et. by destruct_or? Et; try done; rewrite Et in Hk; apply rbind_ok in Hk as (? & (? & _)%validate_regular_spec & _).
  - intros Et%bool_decide_unpack. set_unfold in Et. by destruct_or? Et; try done; rewrite Et in Hk; destruct (special_files options).
  - by rewrite Et in Hk.
  - intros Et%bool_decide_unpack. set_unfold in Et. destruct Et as [Et|[]]. rewrite Et in Hk.
    apply rbind_ok in Hk as (target & [Hl Hb]%read_link_spec & ([] & Hv%validate_symlink_spec & _)%rbind_ok). by exists path, target.
  - intros Et%bool_decide_unpack. set_unfold in Et. destruct Et as [Et|[]]. rewrite Et in Hk.
    apply rbind_ok in Hk as (target & [Hl Hb]%read_link_spec & (source & Hs & Hk)%rbind_ok). exists target, source.
    by destruct source.
Qed.
Lemma kind_counted options e path r r' : whiteout_of e = None → scan_kind options e path r = Ok r' →
  counted [e] (r <| report_entries ::= λ n, n - 1 |>) r' ∧
  (is_a FILES e → expanded_bytes r' ≤ max_total_size (limits options)).
Proof.
  intros Hwo Hk. assert (is_whiteout e = false) as Hiw by (unfold is_whiteout; by rewrite Hwo).
  assert (∀ ts, is_a ts e = bool_decide (entry_type e ∈ ts)) as Hi by (intros ts; unfold is_a; by rewrite Hwo).
  unfold scan_kind in Hk. destruct (entry_type e); inv_ok; try done;
    repeat match goal with H : validate_regular _ _ _ _ = Ok _ |- _ => apply validate_regular_spec in H as (? & ? & ->) end;
    repeat case_match; simplify_eq/=;
    (split; [split|]; cbn; rewrite ?Hi, ?Hiw; closed_decide; cbn; unfold len; cbn; try done; lia).
Qed.
Lemma counted_trans es es' r r' r'' : counted es r r' → counted es' r' r'' → counted (es ++ es') r r''.
Proof.
  assert (∀ test l l', count test (l ++ l') = count test l + count test l') as Hc.
  { intros test l l'. induction l; cbn; lia. }
  assert (∀ l l', total_size (l ++ l') = total_size l + total_size l') as Ht.
  { intros l l'. induction l; cbn; lia. }
  intros [] []. split; rewrite ?Hc, ?Ht, ?len_app; lia.
Qed.
Lemma scan_entry_spec options e s s' : scan_entry options e s = Ok s' →
  acceptable options e ∧ counted [e] (report s) (report s') ∧
  report_entries (report s') ≤ max_entries (limits options) ∧
  (expanded_bytes (report s) ≤ max_total_size (limits options) → expanded_bytes (report s') ≤ max_total_size (limits options)) ∧
  scan_whiteouts s' = scan_whiteouts s ++ option_list (whiteout_of e).
Proof.
  unfold scan_entry, checked_add. destruct (_ <? 2 ^ 64); [|done].
  destruct (Z.ltb_spec (max_entries (limits options)) (report_entries (report s) + 1)) as [|Hmax]; [done|].
  intros (raw & Hraw & Hk)%rbind_ok. destruct (Z.ltb_spec (max_path_bytes (limits options)) (len raw)) as [|Hlen]; [done|].
  apply rbind_ok in Hk as (path & Hn & Hk). assert (entry_path e = Ok path) as Hp by (unfold entry_path; by rewrite Hraw).
  apply tar_bytes in Hraw as [-> H0]. apply rbind_ok in Hk as (w & Hw & Hk).
  assert (whiteout_of e = w) as Hwo by (unfold whiteout_of; by rewrite Hp, Hw). destruct w as [w|].
  - destruct (Z.eqb_spec (size e) 0) as [Hs|]; [|done]. injection Hk as <-. rewrite Hwo. cbn.
    assert (∀ ts, is_a ts e = false) as Hi by (intros ts; unfold is_a; by rewrite Hwo).
    assert (is_whiteout e = true) as Hiw by (unfold is_whiteout; by rewrite Hwo).
    split; [split|]; rewrite ?Hi, ?Hiw; try done; [by eapply normalize_forward|].
    split; [|done]. split; cbn; rewrite ?Hi, ?Hiw; unfold len; cbn; lia.
  - destruct (_ && _); [done|]. apply rbind_ok in Hk as (r & Hk & [= <-]). cbn.
    pose proof (kind_acceptable _ _ _ _ _ Hwo Hp Hlen Hk). apply kind_counted in Hk as [[] Ht]; [|done]. unfold len in *; cbn in *.
    split; [done|]. split; [split; unfold len; cbn in *; lia|]. split; [lia|]. split; [|by rewrite Hwo, app_nil_r].
    destruct (is_a FILES e); [by intros; apply Ht|lia].
Qed.
Lemma scan_entries_spec options es : ∀ s s', scan_entries options es s = Ok s' →
  report_entries (report s) ≤ max_entries (limits options) → expanded_bytes (report s) ≤ max_total_size (limits options) →
  ∃ es', es = Some <$> es' ∧ Forall (acceptable options) es' ∧ counted es' (report s) (report s') ∧
    report_entries (report s') ≤ max_entries (limits options) ∧
    expanded_bytes (report s') ≤ max_total_size (limits options) ∧ scan_whiteouts s' = scan_whiteouts s ++ omap whiteout_of es'.
Proof.
  induction es as [|[e|] es IH]; intros s s'; cbn; [|intros (s1 & He & Hs)%rbind_ok Hn Ht|done].
  - intros [= <-] Hn Ht. exists []. split; [done|]. split; [done|]. split; [split; unfold len; cbn; lia|].
    by rewrite app_nil_r.
  - apply scan_entry_spec in He as (Ha & Hc & Hn1 & Ht1 & Hw1). apply IH in Hs as (es' & -> & Has & Hcs & Hn' & Ht' & Hw'); [|lia|by auto].
    exists (e :: es'). split; [done|]. split; [by constructor|]. split; [by apply (counted_trans [e] es' _ (report s1))|].
    split; [done|]. split; [done|]. rewrite Hw', Hw1, <- app_assoc. cbn. by destruct (whiteout_of e).
Qed.
Lemma applying_start root f : fs_ok f → real (nodes f) root → applying root f f.
Proof.
  intros [] Hr. split; [split|done|done]; try done. intros p i Hp E. right. by exists p.
Qed.
Lemma grown_ok d f f' : fs_ok f → grown d f f' → fs_ok f'.
Proof.
  intros [T X I] [O N Ii Xx Tt]. split; [by apply Tt|by rewrite Ii, Xx|].
  intros p i E. rewrite Ii. destruct (N _ _ E) as [E'|[? _]]; [by eapply I|done].
Qed.
Lemma placement_below destination f spool ws options expected result : fs_ok f →
  ensures (only_below destination f) (grown destination f)
    (let! root := prepare_destination destination in
     let! _ := apply_whiteouts root ws in
     let! _ := temporary in
     let! _ := apply_entries spool root options expected in sret (A := ApplyReport) result) (λ _, only_below destination f).
Proof.
  intros Hok g Hg. unfold sbind at 1. pose proof (prepare_grown destination g) as HP.
  destruct (prepare_destination destination g) as [[root|e] f1]; [|left; by etrans].
  destruct HP as (H1 & R & m & Hm). assert (grown destination f f1) as H1' by by etrans.
  assert (fs_ok f1) as Hok1 by (by eapply grown_ok). assert (real (nodes f1) root) as Hr by (apply (tree_real _ _ m); [apply Hok1|done]).
  assert (∀ h, confined root f1 h → only_below destination f h) as Hdone by (intros h Hh; right; by exists root, f1).
  unfold sbind at 1. pose proof (whiteouts_ensures root f1 ws f1 (applying_start _ _ Hok1 Hr)) as HW.
  destruct (apply_whiteouts root ws f1) as [[[]|e] f2].
  - unfold sbind. pose proof (temporary_ensures root f1 root f2 (proj1 (root_stands _ _ _) HW)) as HT.
    destruct (temporary f2) as [[[]|e] f2']; [apply root_stands in HT|apply Hdone; destruct HT; by eapply confined_shape].
    pose proof (entries_confined root f1 spool options expected f2' HT) as HE.
    by destruct (apply_entries spool root options expected f2') as [[[]|e] f3]; apply Hdone.
  - apply Hdone. destruct HW. by eapply confined_shape.
Qed.
(** C6: whatever a layer holds, and wherever its application stops, only the tree
    below the directory its destination names has changed, apart from directories
    made on the way there and modes of directories: no other node, no contents or
    mode of a file that existed, and no file from outside is linked in. *)
Theorem layer_confined reads destination format options f : fs_ok f →
  only_below destination f (apply_layer_with_format reads destination format options f).2.
Proof.
  intros Hok. apply (ensures_run _ (grown destination f)); [|done]. unfold apply_layer_with_format.
  assert (∀ g, grown destination f g → only_below destination f g) as Hl by (by left).
  eapply (ensures_bind _ _ _ (λ _, grown destination f)).
  { intros g Hg. pose proof (spool_quiet _ reads format (max_archive_size (limits options)) (spool_directory options) (quiet_grown destination f) g Hg) as HS.
    destruct (spool_archive _ _ _ _ g) as [[]]; [apply HS|by apply Hl]. }
  intros [spool actual]. eapply (ensures_bind _ _ _ (λ _, grown destination f)).
  { destruct (expected_diff_id options); [|by apply ensures_ret]. eapply ensures_bind; [by apply ensures_read|]. intros ?.
    case_match; [by apply ensures_ret|by apply ensures_fail]. }
  intros ?. eapply (ensures_bind _ _ _ (λ _, grown destination f)).
  { intros g Hg. pose proof (temporary_quiet _ (quiet_grown destination f) g Hg). destruct (temporary g) as [[]]; [done|by apply Hl]. }
  intros ?. eapply ensures_bind; [by apply ensures_read|]. intros scan. by apply placement_below.
Qed.

(** ** Rejected layers *)

(** An archive that has passed every check made before the tree is touched. *)
Record passed (reads : list (option (list Z))) (format : LayerFormat) (options : ApplyOptions) (spool : list Z)
    (es : list Entry) : Prop := mk_passed {
  ps_whole : is_archive reads format spool;
  ps_archive : len spool ≤ max_archive_size (limits options);
  ps_digest : ∀ expected, expected_diff_id options = Some expected →
    normalize_diff_id expected = Ok (SHA256_COLON ++ sha256_hex spool);
  ps_entries : entries spool = Some <$> es;
  ps_acceptable : Forall (acceptable options) es;
  ps_count : len es ≤ max_entries (limits options);
  ps_total : total_size es ≤ max_total_size (limits options)
}.
Definition limits_ok (l : LayerLimits) : Prop := 0 ≤ max_entries l ∧ 0 ≤ max_total_size l ∧ 0 ≤ max_archive_size l.
(** The tree and the files are what they were. *)
Definition unchanged (f g : Fs) : Prop := nodes g = nodes f ∧ inodes g = inodes f ∧ next_inode g = next_inode f.
Lemma quiet_unchanged f : quiet (unchanged f).
Proof. intros g h (? & ? & ?) ? ? ?. split_and!; congruence. Qed.
Lemma spool_archive_spec reads format limit directory f : let '(r, f1) := spool_archive reads format limit directory f in
  unchanged f f1 ∧ ∀ spool actual, r = Ok (spool, actual) → spooled reads format limit spool ∧ actual = SHA256_COLON ++ sha256_hex spool.
Proof.
  pose proof (spool_quiet _ reads format limit directory (quiet_unchanged f) f ltac:(done)) as HS.
  destruct (spool_archive _ _ _ _ f) as [[[spool actual]|e] f1]; [|done]. destruct HS as (? & ? & ?). split; [done|]. by intros ? ? [= <- <-].
Qed.
(** After the checks come the destination, the whiteouts and the entries. *)
Lemma application_stages reads destination format options f r f' : limits_ok (limits options) →
  apply_layer_with_format reads destination format options f = (r, f') →
  (unchanged f f' ∧ ∃ e, r = Err e) ∨
  ∃ spool es scan f1, passed reads format options spool es ∧
    counted es ApplyReport_default (report scan) ∧ scan_whiteouts scan = omap whiteout_of es ∧ unchanged f f1 ∧
    (let result := (report scan) <| diff_id := SHA256_COLON ++ sha256_hex spool |> in
     let! root := prepare_destination destination in
     let! _ := apply_whiteouts root (scan_whiteouts scan) in
     let! _ := temporary in
     let! _ := apply_entries spool root options result in sret result) f1 = (r, f').
Proof.
  intros (Hn & Ht & Ha). unfold apply_layer_with_format, sbind at 1.
  pose proof (spool_archive_spec reads format (max_archive_size (limits options)) (spool_directory options) f) as HS.
  destruct (spool_archive _ _ _ _ f) as [[[spool actual]|e] f1]; destruct HS as [U HS]; [|intros [= <- <-]; left; by eauto].
  destruct (HS _ _ eq_refl) as [Hs ->]. unfold sbind at 1.
  set (check := match expected_diff_id options with None => _ | Some _ => _ end).
  assert ((∃ e, check f1 = (Err e, f1)) ∨ check f1 = (Ok (), f1) ∧ ∀ expected, expected_diff_id options = Some expected →
    normalize_diff_id expected = Ok (SHA256_COLON ++ sha256_hex spool)) as Hcheck.
  { subst check. destruct (expected_diff_id options) as [x|]; [|by right]. unfold sbind, sread.
    destruct (normalize_diff_id x) as [y|] eqn:Ex; [|left; by eexists]. case_bool_decide; [|left; by eexists]. right. split; [done|].
    intros ? [= <-]. congruence. }
  destruct Hcheck as [[e ->]|[-> Hd]]; [intros [= <- <-]; left; by eauto|]. unfold sbind at 1.
  pose proof (temporary_quiet _ (quiet_unchanged f) f1 U) as HT.
  destruct (temporary f1) as [[[]|e] f1']; [|intros [= <- <-]; left; by eauto]. unfold sbind at 1, sread.
  destruct (scan_archive spool options) as [scan|e] eqn:Escan; [|intros [= <- <-]; left; by eauto].
  apply scan_entries_spec in Escan as (es & He & Hes & Hc & Hle & Hlt & Hw); [|done|done]. pose proof Hc as [Ce Cb _ _ _ _ _ _].
  intros E. right. exists spool, es, scan, f1'. split; [|done].
  apply spooled_whole in Hs as [Hwh Hs]; [|done]. cbn in *. split; try done; lia.
Qed.
(** C21: a layer changes nothing unless all of it has passed: the archive has been
    read to its end, is within its limit and has the digest asked for, every entry of
    it can be read and is acceptable, and their number and total size are within the
    limits. *)
Theorem preflight_first reads destination format options f r f' : limits_ok (limits options) →
  apply_layer_with_format reads destination format options f = (r, f') →
  (nodes f' = nodes f ∧ inodes f' = inodes f ∧ ∃ e, r = Err e) ∨
  ∃ spool es, passed reads format options spool es.
Proof.
  intros Hl E. destruct (application_stages _ _ _ _ _ _ _ Hl E) as [[(? & ? & _) ?]|(spool & es & scan & f1 & HP & _)]; [by left|].
  right. by exists spool, es.
Qed.
(** C22: a whiteout removes what it covers and nothing else: the named node with all
    below it, or all below an opaque directory, whether or not it is there. *)
Theorem whiteout_exact root w f f' : real (nodes f) root → tree_ok (nodes f) →
  apply_whiteout root w f = (Ok (), f') → erased (covers root w) f f'.
Proof. destruct w; [apply remove_whiteout_exact|apply opaque_whiteout_exact]. Qed.

(** ** Applied layers *)

(** C23: an entry that is applied leaves at its path what it describes: a directory, a
    file with its data and mode, its link, or a second name for the file its target
    names; and all else it changes is below the destination. *)
Theorem entry_placed root options e done done' f f' : fs_ok f → real (nodes f) root →
  apply_entry root options e done f = (Ok done', f') → placed root e f' ∧ confined root f f'.
Proof.
  intros Hok Hr E. pose proof (entry_ensures root f options e done f (applying_start _ _ Hok Hr)) as He. rewrite E in He.
  destruct He as [[] ?]. split; [done|]. by eapply confined_shape.
Qed.
End theorems.

(** ** A layer *)

Module Fixture.
Definition fixed (es : list (option Entry)) : Archive :=
  {| gunzip := id; sha256_hex := λ _, replicate 64 97; entries := λ _, es |}.
Definition directory (path : list Z) : option Entry := Some (mkEntry path TDirectory 0 (Some 0x1FF) None (Some [])).
Definition file (path bytes : list Z) : option Entry :=
  Some (mkEntry path TRegular (len bytes) (Some 0x9ED) None (Some bytes)).
Definition link (path target : list Z) : option Entry := Some (mkEntry path TSymlink 0 None (Some target) (Some [])).
Definition hardlink (path target : list Z) : option Entry := Some (mkEntry path TLink 0 None (Some target) (Some [])).

(** [/w] holds the destination [/w/r], in it a file [o], and beside it [/w/b]. *)
Definition destination : fspath := [[119]; [114]].
Definition before : Fs := mkFs
  (list_to_map [([], Dir 0x1ED); ([[119]], Dir 0x1ED); (destination, Dir 0x1ED); (destination ++ [[111]], Regular 0);
     ([[119]; [98]], Dir 0x1C0)])
  {[0 := mkInode [1; 2; 3] 0x1A4]} 1 [].
Definition options : ApplyOptions := mkOptions LayerLimits_default Reject None None.
Definition run (es : list (option Entry)) : result LayerError ApplyReport * Fs :=
  apply_layer (H := fixed es) [Some [0]] destination options before.
(** [d/f] with data, [l] to it, [h] for it, and a whiteout of [o]. *)
Definition ordinary : list (option Entry) :=
  [directory [100]; file [100; 47; 102] [7; 8]; link [108] [100; 47; 102]; hardlink [104] [100; 47; 102];
   Some (mkEntry (WHITEOUT_PREFIX ++ [111]) TRegular 0 (Some 0) None (Some []))].
Lemma before_ok : fs_ok before.
Proof.
  split.
  - apply is_tree_ok. by vm_compute.
  - intros i [x Hi]. cbn in Hi. apply lookup_singleton_Some in Hi as [<- _]. done.
  - assert (map_Forall (λ _ node, Is_true (match node with Regular i => i =? 0 | _ => true end)) (nodes before)) as Hall.
    { refine (bool_decide_unpack _ _). by vm_compute. }
    intros p i Hp. specialize (Hall _ _ Hp). cbn in Hall. apply Is_true_true, Z.eqb_eq in Hall as ->. by eexists.
Qed.
Lemma destination_real : real (nodes before) destination.
Proof. apply (tree_real _ _ 0x1ED); [apply before_ok|by vm_compute]. Qed.
End Fixture.
Import Fixture.

Lemma layer_confined_witness : only_below destination before
  (apply_layer_with_format (H := fixed ordinary) [Some [0]] destination Auto options before).2.
Proof. exact (layer_confined (H := fixed ordinary) [Some [0]] destination Auto options before before_ok). Defined.
Lemma preflight_first_witness : let '(r, f') := apply_layer_with_format (H := fixed [file [46; 46] []]) [Some [0]] destination Auto options before in
  r = Err (InvalidPath [46; 46] "parent-directory component") ∧
  ((nodes f' = nodes before ∧ inodes f' = inodes before ∧ ∃ e, r = Err e) ∨
   ∃ spool es, passed (H := fixed [file [46; 46] []]) [Some [0]] Auto options spool es).
Proof.
  destruct (apply_layer_with_format _ _ _ _ _) as [r f'] eqn:E. split.
  - assert ((apply_layer_with_format (H := fixed [file [46; 46] []]) [Some [0]] destination Auto options before).1 =
      Err (InvalidPath [46; 46] "parent-directory component")) as E1 by (by vm_compute). by rewrite E in E1.
  - apply (preflight_first (H := fixed [file [46; 46] []]) [Some [0]] destination Auto options before r f'); [by vm_compute|done].
Defined.
Lemma whiteout_exact_witness : erased (covers destination (Remove [[111]])) before
  (apply_whiteout destination (Remove [[111]]) before).2.
Proof.
  apply (whiteout_exact destination (Remove [[111]]) before); [apply destination_real|apply before_ok|by vm_compute].
Defined.
Lemma entry_placed_witness : let e := mkEntry [100; 47; 102] TRegular 2 (Some 0x9ED) None (Some [7; 8]) in
  let f' := (apply_entry destination options e ([], 0) before).2 in placed destination e f' ∧ confined destination before f'.
Proof.
  apply (entry_placed destination options (mkEntry [100; 47; 102] TRegular 2 (Some 0x9ED) None (Some [7; 8])) ([], 0) ([], 2) before);
    [apply before_ok|apply destination_real|by vm_compute].
Defined.
(** ** Ways out *)

(** [a/b] is a directory when its entry is applied, and recorded for its mode. A later
    entry makes [a] a link to [d/s/..], where [d/s] leads to [..]: each target stays
    below the destination by its components, and together they lead to its parent. *)
Definition leading_out : list (option Entry) :=
  [directory [97; 47; 98]; directory [100]; link [100; 47; 115] [46; 46]; link [97] [100; 47; 115; 47; 46; 46]].
(** The mode set last is that of a directory beside the destination. *)
Lemma mode_set_outside : ¬ below destination [[119]; [98]] ∧ nodes before !! [[119]; [98]] = Some (Dir 0x1C0) ∧
  nodes (run leading_out).2 !! [[119]; [98]] = Some (Dir 0x1FF).
Proof. split; [by intros [[k [=]] _]|]. split; by vm_compute. Qed.
(** The links of an accepted layer lead out of its destination. *)
Lemma links_lead_out : (∃ rep, (run leading_out).1 = Ok rep) ∧
  resolve_follow MAX_SYMLINKS (nodes (run leading_out).2) (destination ++ [[97]]) = Ok [[119]].
Proof. split; [eexists|]; by vm_compute. Qed.
(** A hard link to its own path removes the file first and then does not find it. *)
Lemma link_to_itself_removes : nodes before !! (destination ++ [[111]]) = Some (Regular 0) ∧
  (run [hardlink [111] [111]]).1 = Err (Io NotFound) ∧
  nodes (run [hardlink [111] [111]]).2 !! (destination ++ [[111]]) = None.
Proof. split; [|split]; by vm_compute. Qed.
