(* ===== verification/LayerResult.v ===== *)
(** The tree a layer leaves: what [apply_layer_with_format] of
    [rish-layer/src/apply.rs] has put, removed and kept when it reports success. *)
From stdpp Require Import strings gmap.
From S2P Require Import Prelude.
From S2P Require Import Filesystem.
From S2P Require Import Layer.
From S2P Require Import LayerSafety.
From S2P Require Import LayerTheorems.
Local Open Scope Z_scope.

(** ** Files *)

(** The files of [f] are as they were, and no inode number is used twice. *)
Definition filed (f g : Fs) : Prop := inodes f ⊆ inodes g ∧ ∀ i, is_Some (inodes g !! i) → i < next_inode g.
Lemma filed_same f g h : filed f g → inodes h = inodes g → next_inode h = next_inode g → filed f h.
Proof. intros [S X] I N. split; rewrite I; [done|by rewrite N]. Qed.
(** A call that is not [persist] leaves the inodes. *)
Lemma filed_at {A} f p (c : fspath → st Fs IoError A) :
  (∀ q g, inodes (c q g).2 = inodes g ∧ next_inode (c q g).2 = next_inode g) → keeps (filed f) (at_path p c).
Proof.
  intros Hc g Hg. destruct (at_cases p c g) as [l [E|E]]; rewrite E; [done|]. destruct (resolve _ p) as [q|]; [|done].
  destruct (Hc q (g <| faults := l |>)). by eapply filed_same.
Qed.
Lemma filed_io {A} f (c : st Fs IoError A) : keeps (filed f) c → keeps (filed f) (io c).
Proof. intros Hc g Hg. specialize (Hc g Hg). unfold io. by destruct (c g). Qed.
Lemma filed_attempt {A} f (c : st Fs IoError A) : keeps (filed f) c → keeps (filed f) (attempt c).
Proof. intros Hc g Hg. specialize (Hc g Hg). unfold attempt. by destruct (c g). Qed.
Ltac filed_call := apply filed_at; intros ? ?; repeat case_match; done.
Lemma filed_metadata f p : keeps (filed f) (symlink_metadata p).
Proof. filed_call. Qed.
Lemma filed_create f p : keeps (filed f) (create_dir p).
Proof. filed_call. Qed.
Lemma filed_remove_dir f p : keeps (filed f) (remove_dir_all p).
Proof. apply filed_at. intros q g. repeat case_match; try done. by apply remove_each_fewer. Qed.
Lemma filed_remove_file f p : keeps (filed f) (remove_file p).
Proof. filed_call. Qed.
Lemma filed_symlink f target p : keeps (filed f) (symlink target p).
Proof. filed_call. Qed.
Lemma filed_hard_link f s p : keeps (filed f) (hard_link s p).
Proof. filed_call. Qed.
Lemma filed_temporary f : keeps (filed f) temporary.
Proof. intros g Hg. unfold temporary, io. destruct (call_cases (sret ()) g) as [l [E|E]]; by rewrite E. Qed.
Lemma filed_persist f bytes mode p : keeps (filed f) (persist bytes mode p).
Proof.
  intros g Hg. unfold persist. match goal with |- context [at_path p ?c g] =>
    destruct (at_cases p c g) as [l [E|E]]; rewrite E; clear E end; [done|]. destruct (resolve _ p) as [q|]; [|done].
  assert (filed f (put q (Regular (next_inode g)) (g <| faults := l |> <| inodes ::= <[next_inode g := mkInode bytes mode]> |>
    <| next_inode ::= Z.add 1 |>))) as Hp; [|by repeat case_match].
  destruct Hg as [S X]. split; cbn.
  - etrans; [done|]. apply insert_subseteq. destruct (inodes g !! next_inode g) eqn:E; [|done].
    specialize (X _ (mk_is_Some _ _ E)). lia.
  - intros i [<-|[_ Hi]]%lookup_insert_is_Some; [lia|]. specialize (X _ Hi). lia.
Qed.
#[local] Hint Resolve filed_io filed_attempt filed_metadata filed_create filed_remove_dir filed_remove_file filed_symlink
  filed_hard_link filed_temporary filed_persist : keeps.
Ltac filing := repeat first
  [ solve [auto with keeps]
  | apply keeps_bind; [|intros ? ? _ _]
  | match goal with |- keeps _ (match ?c with _ => _ end) => destruct c end ].
Lemma filed_ensure f path rest : ∀ p, keeps (filed f) (ensure_from path p rest).
Proof. induction rest as [|n rest IH]; intros p; cbn [ensure_from]; filing. Qed.
Lemma filed_resolve f path rest : ∀ p, keeps (filed f) (resolve_from path p rest).
Proof. induction rest as [|n rest IH]; intros p; cbn [resolve_from]; filing. Qed.
Lemma filed_remove f p : keeps (filed f) (remove_path_no_follow p).
Proof. unfold remove_path_no_follow. filing. Qed.
Lemma filed_join f p path error : keeps (filed f) (join_leaf p path error).
Proof. unfold join_leaf. filing. Qed.
#[local] Hint Resolve filed_ensure filed_resolve filed_remove filed_join : keeps.
Lemma filed_entry f root options e done : keeps (filed f) (apply_entry root options e done).
Proof.
  unfold apply_entry, ensure_directories, ensure_directory_leaf, write_regular_file, replace_with_symlink, apply_hardlink,
    resolve_existing_directory, ensure_directories. filing.
Qed.
Lemma filed_children f p names : keeps (filed f) (remove_children p names).
Proof. induction names; cbn [remove_children]; filing. Qed.
#[local] Hint Resolve filed_children : keeps.
Lemma filed_whiteouts f root ws : keeps (filed f) (apply_whiteouts root ws).
Proof.
  induction ws as [|w ws IH]; cbn [apply_whiteouts]; filing. unfold apply_whiteout, resolve_existing_directory.
  assert (∀ p, keeps (filed f) (read_dir p)) by (intros; filed_call). filing.
Qed.

(** ** What an entry changes *)

(** A directory that was made on the way to [d]. *)
Definition made (d : fspath) (f g : Fs) (q : fspath) : Prop :=
  q `prefix_of` d ∧ nodes f !! q = None ∧ nodes g !! q = Some (Dir DIRECTORY_MODE).
(** Where an entry replaces what is there: at its path and below, a directory only at
    its path. *)
Definition hits (root : fspath) (e : Entry) (q : fspath) : Prop :=
  whiteout_of e = None ∧ ∃ path, entry_path e = Ok path ∧
  match entry_type e with
  | TDirectory => q = root ++ path
  | TRegular | TContinuous | TSymlink | TLink => (root ++ path) `prefix_of` q
  | _ => False
  end.

Lemma leaf_ok {A} p n (c : fspath → st Fs IoError A) f a f' : real (nodes f) p → io (at_path (p ++ [n]) c) f = (Ok a, f') →
  ∃ l, c (p ++ [n]) (f <| faults := l |>) = (Ok a, f').
Proof.
  intros Hp. unfold io. destruct (at_leaf p n c f Hp) as [l [E|E]]; rewrite E; [done|]. exists l.
  destruct (c _ _) as [[]]; cbn in *; by simplify_eq.
Qed.
Lemma create_exact p n f f' : real (nodes f) p → io (create_dir (p ++ [n])) f = (Ok (), f') →
  nodes f !! (p ++ [n]) = None ∧ nodes f' = <[p ++ [n] := Dir DIRECTORY_MODE]> (nodes f).
Proof.
  intros Hp [l E]%leaf_ok; [|done]. change (nodes (f <| faults := l |>)) with (nodes f) in E.
  destruct (nodes f !! (p ++ [n])); [done|]. by injection E as <-.
Qed.
Lemma symlink_exact target p n f f' : real (nodes f) p → io (symlink target (p ++ [n])) f = (Ok (), f') →
  nodes f' = <[p ++ [n] := Symlink target]> (nodes f).
Proof.
  intros Hp [l E]%leaf_ok; [|done]. change (nodes (f <| faults := l |>)) with (nodes f) in E.
  destruct (nodes f !! (p ++ [n])); [done|]. by injection E as <-.
Qed.
Lemma persist_exact bytes mode p n f f' : real (nodes f) p → io (persist bytes mode (p ++ [n])) f = (Ok (), f') →
  nodes f' = <[p ++ [n] := Regular (next_inode f)]> (nodes f).
Proof.
  intros Hp [l E]%leaf_ok; [|done]. change (nodes (f <| faults := l |>)) with (nodes f) in E.
  destruct (nodes f !! (p ++ [n])) as [[]|]; by simplify_eq.
Qed.
Lemma link_exact s p n f f' : real (nodes f) p → io (hard_link s (p ++ [n])) f = (Ok (), f') →
  ∃ i, nodes f' = <[p ++ [n] := Regular i]> (nodes f).
Proof.
  intros Hp. unfold io, hard_link. match goal with |- context [at_path s ?c f] =>
    destruct (at_cases s c f) as [l [E|E]]; rewrite E; clear E end; [done|]. destruct (resolve _ s) as [s'|]; [|done].
  change (nodes (f <| faults := l |>)) with (nodes f). destruct (nodes f !! s') as [[]|]; try done.
  rewrite resolve_leaf by done. destruct (nodes f !! (p ++ [n])); [done|]. intros [= <-]. by eexists.
Qed.
Lemma metadata_same p f r f' : attempt (symlink_metadata p) f = (Ok r, f') → nodes f' = nodes f ∧ ∀ node, r = Ok node → resolve (nodes f) p = Ok p → nodes f !! p = Some node.
Proof.
  unfold attempt. destruct (symlink_metadata p f) as [x f1] eqn:E. intros [= <- <-]. destruct (metadata_shape p f) as [N _].
  rewrite E in N. split; [done|]. intros node -> R. apply metadata_found in E as (_ & _ & q & R' & ?). rewrite R in R'. by injection R' as <-.
Qed.
Lemma temporary_same f f' : temporary f = (Ok (), f') → nodes f' = nodes f.
Proof. unfold temporary, io. destruct (call_cases (sret ()) f) as [l [E|E]]; rewrite E; by intros [= <-]. Qed.

Lemma ensure_exact path rest : ∀ p f q f', real (nodes f) p → ensure_from path p rest f = (Ok q, f') →
  ∀ q', nodes f' !! q' = nodes f !! q' ∨ made (p ++ rest) f f' q'.
Proof.
  induction rest as [|n rest IH]; intros p f q f' Hp; cbn [ensure_from].
  { intros [= <- <-]. by left. }
  intros [(r & f1 & E1 & E)|(? & _ & [=])]%sbind_inv. unfold attempt in E1.
  assert (∀ f2, real (nodes f2) (p ++ [n]) → ensure_from path (p ++ [n]) rest f2 = (Ok q, f') →
    (∀ q', nodes f2 !! q' = nodes f !! q' ∨ made (p ++ n :: rest) f f2 q') →
    ∀ q', nodes f' !! q' = nodes f !! q' ∨ made (p ++ n :: rest) f f' q') as Hgo.
  { intros f2 Hp2 E2 H2 q'. destruct (IH _ _ _ _ Hp2 E2 q') as [E'|(Hq & N & M)]; rewrite <- ?app_assoc in *.
    - destruct (H2 q') as [<-|(? & ? & ?)]; [by left|]. right. split_and!; [done|done|congruence].
    - right. split_and!; [done| |done]. destruct (H2 q') as [<-|(? & ? & ?)]; [done|congruence]. }
  destruct (metadata_cases p n f Hp) as (l & [Em|[(node & En & Em)|[En Em]]]); rewrite Em in E1; injection E1 as <- <-; [done| |].
  - destruct node; apply sbind_inv in E as [(? & ? & E0 & E)|(? & _ & [=])]; simplify_eq/=.
    injection E0 as _ <-. eapply Hgo; [|exact E|by left]. by eapply real_snoc.
  - apply sbind_inv in E as [([] & f2 & E0 & E)|(? & _ & [=])]. apply create_exact in E0 as [_ N]; [|done]. cbn in N.
    eapply Hgo; [|exact E|].
    + eapply real_snoc; [|rewrite N; apply lookup_insert_eq]. intros q' Hq'. rewrite N, lookup_insert_ne; [by apply Hp|].
      intros <-. by apply (leaf_not_prefix p n (p ++ [n])).
    + intros q'. destruct (decide (p ++ [n] = q')) as [<-|Hne]; [right|left; by rewrite N, lookup_insert_ne].
      split_and!; [exists rest; by rewrite <- app_assoc|done|]. rewrite N. apply lookup_insert_eq.
Qed.

Lemma insert_kept (t t' : gmap fspath Node) d node q : t' = <[d := node]> t → q ≠ d → t' !! q = t !! q.
Proof. intros -> Hq. by rewrite lookup_insert_ne. Qed.
Lemma not_below (d q : fspath) : ¬ d `prefix_of` q → q ≠ d.
Proof. by intros Hq ->. Qed.
#[local] Hint Resolve not_below : core.
Section leaves.
Context (p : fspath) (n : name) (g f' : Fs) (Hp : real (nodes g) p) (Ht : tree_ok (nodes g)).
Lemma leaf_dir_exact : ensure_directory_leaf (p ++ [n]) g = (Ok (), f') → ∀ q, q ≠ p ++ [n] → nodes f' !! q = nodes g !! q.
Proof.
  intros [(r & g1 & E1 & E)|(? & _ & [=])]%sbind_inv q Hq. unfold attempt in E1.
  assert (∀ l, io (create_dir (p ++ [n])) (g <| faults := l |>) = (Ok (), f') → nodes f' !! q = nodes g !! q) as Hc.
  { intros l [_ N]%create_exact; [|done]. by eapply insert_kept. }
  assert (∀ l, (∀ m, nodes g !! (p ++ [n]) ≠ Some (Dir m)) → (let! _ := remove_path_no_follow (p ++ [n]) in io (create_dir (p ++ [n])))
    (g <| faults := l |>) = (Ok (), f') → nodes f' !! q = nodes g !! q) as Hr.
  { intros l Hd [([] & g2 & E2 & E3)|(? & _ & [=])]%sbind_inv. apply remove_exact in E2; [|done..].
    apply create_exact in E3 as [_ N]; [|by eapply erased_real]. rewrite (insert_kept _ _ _ _ _ N Hq). destruct E2 as [G K _].
    destruct (decide ((p ++ [n]) `prefix_of` q)) as [Hpre|Hpre]; [|by rewrite K].
    rewrite G by done. symmetry. by eapply nothing_below. }
  destruct (metadata_cases p n g Hp) as (l & [Em|[(node & En & Em)|[En Em]]]); rewrite Em in E1; injection E1 as <- <-; [done| |].
  - destruct node; [by injection E as <-|eapply Hr; [|exact E]; congruence..].
  - by eapply Hc.
Qed.
Lemma link_leaf_exact target : replace_with_symlink (p ++ [n]) target g = (Ok (), f') →
  ∀ q, ¬ (p ++ [n]) `prefix_of` q → nodes f' !! q = nodes g !! q.
Proof.
  intros [([] & g2 & E2 & E3)|(? & _ & [=])]%sbind_inv q Hq. apply remove_exact in E2; [|done..].
  apply symlink_exact in E3; [|by eapply erased_real]. rewrite (insert_kept _ _ _ _ _ E3) by auto. destruct E2 as [_ K _]. by apply K.
Qed.
Lemma relink_exact s : (let! _ := remove_path_no_follow (p ++ [n]) in io (hard_link s (p ++ [n]))) g = (Ok (), f') →
  ∀ q, ¬ (p ++ [n]) `prefix_of` q → nodes f' !! q = nodes g !! q.
Proof.
  intros [([] & g2 & E2 & E3)|(? & _ & [=])]%sbind_inv q Hq. apply remove_exact in E2; [|done..].
  apply link_exact in E3 as [i E3]; [|by eapply erased_real]. rewrite (insert_kept _ _ _ _ _ E3) by auto. destruct E2 as [_ K _]. by apply K.
Qed.
Lemma write_exact e mode size : write_regular_file e (p ++ [n]) mode g = (Ok size, f') →
  ∀ q, ¬ (p ++ [n]) `prefix_of` q → nodes f' !! q = nodes g !! q.
Proof.
  intros [(r & g1 & E1 & E)|(? & _ & [=])]%sbind_inv q Hq. unfold attempt in E1.
  apply sbind_inv in E as [([] & g2 & E2 & E)|(? & _ & [=])]. apply sbind_inv in E as [([] & g3 & E3%temporary_same & E)|(? & _ & [=])].
  assert (nodes g1 = nodes g) as N1 by (destruct (metadata_shape (p ++ [n]) g) as [N _]; by destruct (symlink_metadata _ g); simplify_eq).
  destruct (data e) as [bytes|]; [|done]. apply sbind_inv in E as [([] & g4 & E4 & E)|(? & _ & [=])]. injection E as _ <-.
  assert ((∀ q, ¬ (p ++ [n]) `prefix_of` q → nodes g2 !! q = nodes g !! q)) as K.
  { rewrite <- N1. destruct r as [[]|]; try by injection E2 as <-. apply leaf_ok in E2 as [l E2]; [|by rewrite N1].
    change (nodes (g1 <| faults := l |>)) with (nodes g1) in E2. destruct (nodes g1 !! (p ++ [n])) as [[]|]; try done.
    pose proof (remove_tree_spec (p ++ [n]) (g1 <| faults := l |>) ltac:(by destruct p) ltac:(cbn; by rewrite N1)) as Hr.
    change (nodes (g1 <| faults := l |>)) with (nodes g1) in Hr. rewrite E2 in Hr. apply Hr. }
  apply persist_exact in E4; [|rewrite E3; intros q' Hq'; rewrite K; [by apply Hp|by apply leaf_not_prefix]].
  rewrite (insert_kept _ _ _ _ _ E4), E3 by auto. by apply K.
Qed.
End leaves.

Section entry.
Context (root : fspath) (f0 : Fs).
(** The parents of the path are made, and then [k] runs at its leaf. *)
Lemma at_new_exact {A} path error (k : fspath → st Fs LayerError A) (bad : fspath → Prop) f a f' : applying root f0 f →
  (∀ p n g, root ++ path = p ++ [n] → real (nodes g) p → tree_ok (nodes g) → k (p ++ [n]) g = (Ok a, f') →
     ∀ q, ¬ bad q → nodes f' !! q = nodes g !! q) →
  (let! up := ensure_directories root (parent path) in let! d := join_leaf up path error in k d) f = (Ok a, f') →
  ∀ q, ¬ bad q → nodes f' !! q = nodes f !! q ∨ made (root ++ path) f f' q.
Proof.
  intros Hf Hk [(up & g & E1 & E)|(? & _ & [=])]%sbind_inv q Hq.
  apply sbind_inv in E as [(d & g' & E2 & E)|(? & _ & [=])]. unfold join_leaf in E2.
  destruct (last path) as [n|] eqn:En; [|done]. injection E2 as <- <-. pose proof (parent_last _ _ En) as Hn.
  pose proof (ensure_ensures root f0 (parent path) (parent path) root f (proj1 (root_stands _ _ _) Hf)) as HE.
  unfold ensure_directories in E1. rewrite E1 in HE. destruct HE as [([_ _ Ht] & _ & Hup) ->].
  apply (Hk _ _ g) with (q := q) in E; [|rewrite <- app_assoc; by f_equal|done|done|done]. rewrite E. destruct Hf as [_ Hr _].
  destruct (ensure_exact _ _ _ _ _ _ Hr E1 q) as [?|(Hm & ? & ?)]; [by left|]. right. split_and!; [|done|congruence].
  etrans; [done|]. rewrite Hn at 2. exists [n]. by rewrite app_assoc.
Qed.
Lemma directory_exact path f d f' : applying root f0 f →
  (match path with
   | [] => sret root
   | _ => let! up := ensure_directories root (parent path) in
          let! d := join_leaf up path (InvalidPath (as_bytes path) "directory has no basename") in
          let! _ := ensure_directory_leaf d in sret d
   end) f = (Ok d, f') → ∀ q, q ≠ root ++ path → nodes f' !! q = nodes f !! q ∨ made (root ++ path) f f' q.
Proof.
  intros Hf E q Hq. destruct path as [|x path]; [injection E as _ <-; by left|].
  apply (at_new_exact (x :: path) _ _ (λ q, q = root ++ x :: path) f d f') with (q := q) in E; [done|done| |done].
  intros p n g -> Hp Ht [([] & g' & E1 & E2)|(? & _ & [=])]%sbind_inv q' Hq'. injection E2 as _ <-. by eapply leaf_dir_exact.
Qed.
Lemma file_exact options e path modes copied f done' f' : applying root f0 f →
  (let! up := ensure_directories root (parent path) in
   let! destination := join_leaf up path (InvalidPath (as_bytes path) "file has no basename") in
   let! mode := sread (λ _, mode_of e) in
   let! n := write_regular_file e destination (sanitized_mode mode) in
   match checked_add 64 copied n with
   | None => sfail (TotalSizeLimitExceeded (max_total_size (limits options)))
   | Some copied => sret (modes : list (fspath * Z), copied)
   end) f = (Ok done', f') →
  ∀ q, ¬ (root ++ path) `prefix_of` q → nodes f' !! q = nodes f !! q ∨ made (root ++ path) f f' q.
Proof.
  intros Hf E q Hq.
  apply (at_new_exact path _ _ (λ q, (root ++ path) `prefix_of` q) f done' f') with (q := q) in E; [done|done| |done].
  intros p n g -> Hp Ht [(mode & g1 & E1 & E2)|(? & _ & [=])]%sbind_inv q' Hq'. unfold sread in E1. injection E1 as _ <-.
  apply sbind_inv in E2 as [(size & g2 & E2 & E3)|(? & _ & [=])]. destruct (checked_add 64 copied size); [|done].
  injection E3 as _ <-. by eapply write_exact.
Qed.
Lemma hardlink_exact path target f f' : applying root f0 f → apply_hardlink root path target f = (Ok (), f') →
  ∀ q, ¬ (root ++ path) `prefix_of` q → nodes f' !! q = nodes f !! q ∨ made (root ++ path) f f' q.
Proof.
  intros Hf [(up & f1 & E1 & E)|(? & _ & [=])]%sbind_inv q Hq. assert (applying root f0 f1 ∧ nodes f1 = nodes f) as [Hf1 N1].
  { pose proof (resolve_existing_ensures root f0 (parent target) f Hf) as HR. rewrite E1 in HR. destruct Hf as [_ Hr Ht].
    unfold resolve_existing_directory in E1. apply resolve_exact in E1 as (N & _ & _); [|done..]. split; [|done].
    destruct up; [by apply standing_J in HR|done]. }
  destruct up as [up|]; [|done]. apply sbind_inv in E as [(s & f2 & E2 & E)|(? & _ & [=])].
  assert (f2 = f1) as -> by (unfold join_leaf in E2; destruct (last target); [by injection E2|done]).
  apply sbind_inv in E as [(r & f3 & E3 & E)|(? & _ & [=])].
  assert (applying root f0 f3 ∧ nodes f3 = nodes f1) as [Hf3 N3].
  { unfold attempt, symlink_metadata in E3. match type of E3 with context [at_path s ?c f1] =>
      destruct (at_cases s c f1) as [l [Em|Em]]; rewrite Em in E3; clear Em end; repeat case_match; simplify_eq;
      (split; [by apply applying_faults|done]). }
  destruct r as [[|i|]|]; try done. rewrite <- N1, <- N3.
  assert (∀ q, nodes f3 !! q = nodes f !! q) as N by (intros; congruence).
  apply (at_new_exact path _ _ (λ q, (root ++ path) `prefix_of` q) f3 () f') with (q := q) in E; [|done| |done].
  - destruct E as [?|(? & ? & ?)]; [by left|]. right. split_and!; [done|by rewrite <- N|done].
  - intros p n g -> Hp Ht E' q' Hq'. by eapply relink_exact.
Qed.
(** An entry keeps all that it does not replace, and makes the directories above it. *)
Lemma entry_exact options e done f done' f' : applying root f0 f → apply_entry root options e done f = (Ok done', f') →
  ∀ q, ¬ hits root e q → nodes f' !! q = nodes f !! q ∨
    ∃ path, whiteout_of e = None ∧ entry_path e = Ok path ∧ made (root ++ path) f f' q.
Proof.
  intros Hf E q Hq. destruct done as [modes copied]. unfold apply_entry in E.
  apply sbind_inv in E as [(raw & f1 & E1 & E)|(? & _ & [=])]. unfold sread in E1. injection E1 as E1 <-.
  apply sbind_inv in E as [(path & f1 & E2 & E)|(? & _ & [=])]. unfold sread in E2. injection E2 as E2 <-.
  apply sbind_inv in E as [(w & f1 & E3 & E)|(? & _ & [=])]. unfold sread in E3. injection E3 as E3 <-.
  assert (entry_path e = Ok path) as Hp by (unfold entry_path; by rewrite E1).
  assert (whiteout_of e = w) as Hw by (unfold whiteout_of; by rewrite Hp, E3).
  destruct w as [w|]; [injection E as _ <-; by left|].
  cut (nodes f' !! q = nodes f !! q ∨ made (root ++ path) f f' q); [intros [?|?]; [by left|right; by exists path]|].
  assert (¬ match entry_type e with TDirectory => q = root ++ path | TRegular | TContinuous | TSymlink | TLink =>
    (root ++ path) `prefix_of` q | _ => False end) as Hn by (intros Hn; apply Hq; split; [done|]; by exists path).
  destruct (entry_type e); try (injection E as _ <-; by left).
  - by eapply file_exact.
  - by eapply file_exact.
  - apply sbind_inv in E as [(d & f1 & Ed & E)|(? & _ & [=])]. apply sbind_inv in E as [(mode & f2 & Em & E)|(? & _ & [=])].
    unfold sread in Em. injection Em as _ <-. injection E as _ <-. by eapply directory_exact.
  - apply sbind_inv in E as [(target & f1 & Et & E)|(? & _ & [=])]. unfold sread in Et. injection Et as _ <-.
    eapply (at_new_exact path _ _ (λ q, (root ++ path) `prefix_of` q)); [done| |exact E|done].
    intros p n g -> Hp' Ht [([] & g' & E1' & E2')|(? & _ & [=])]%sbind_inv q' Hq'. injection E2' as _ <-. by eapply link_leaf_exact.
  - apply sbind_inv in E as [(target & f1 & Et & E)|(? & _ & [=])]. unfold sread in Et. injection Et as _ <-.
    apply sbind_inv in E as [(source & f1 & Et & E)|(? & _ & [=])]. unfold sread in Et. injection Et as _ <-.
    apply sbind_inv in E as [([] & f1 & Eh & E)|(? & _ & [=])]. injection E as _ <-. by eapply hardlink_exact.
Qed.
End entry.

(** ** The entries in order *)

Record effect (root : fspath) (e : Entry) (f g : Fs) : Prop := mk_effect {
  ef_read : ∀ path, entry_path e = Ok path → whiteout_target path = Ok (whiteout_of e);
  ef_placed : placed root e g;
  ef_inodes : inodes f ⊆ inodes g;
  ef_kept : ∀ q, ¬ hits root e q → nodes g !! q = nodes f !! q ∨
    ∃ path, whiteout_of e = None ∧ entry_path e = Ok path ∧ made (root ++ path) f g q
}.
Inductive entered (root : fspath) : list Entry → Fs → Fs → Prop :=
  | entered_nil f : entered root [] f f
  | entered_cons e es f g h : effect root e f g → entered root es g h → entered root (e :: es) f h.
(** No later entry replaces what an entry has left at its path, or what a hard link names. *)
Definition lasting (root : fspath) (e : Entry) (after : list Entry) : Prop :=
  ∀ e' path, e' ∈ after → entry_path e = Ok path → ¬ hits root e' (root ++ path) ∧
    ∀ target source, entry_type e = TLink → link_name e = Some target → normalize_entry_path target = Ok source →
      ¬ hits root e' (root ++ source).
(** A directory on the way to an entry. *)
Definition leads_to (root : fspath) (es : list Entry) (q : fspath) : Prop :=
  ∃ e path, e ∈ es ∧ whiteout_of e = None ∧ entry_path e = Ok path ∧ q `prefix_of` (root ++ path).

Lemma effect_node root e f g q node : effect root e f g → ¬ hits root e q → nodes f !! q = Some node → nodes g !! q = Some node.
Proof. intros [_ _ _ K] Hq Hn. destruct (K q Hq) as [->|(? & _ & _ & _ & ? & _)]; [done|congruence]. Qed.
Lemma effect_real root e f g p : effect root e f g → ¬ hits root e p → real (nodes f) p → real (nodes g) p.
Proof.
  intros He Hp Hr q Hq. destruct (Hr q Hq) as [m Hm].
  assert (Decision (hits root e q)) as [Hh|Hh].
  { unfold hits. destruct (whiteout_of e); [right; naive_solver|]. destruct (entry_path e) as [path|]; [|right; naive_solver].
    destruct (entry_type e); first [destruct (decide (q = root ++ path)); [left|right]; naive_solver
      |destruct (decide ((root ++ path) `prefix_of` q)); [left|right]; naive_solver|right; naive_solver]. }
  - destruct Hh as (Hw & path & Ep & Hh). destruct (decide (entry_type e = TDirectory)) as [Et|Et].
    + destruct He as [Hread Hpl _ _]. rewrite Et in Hh. subst q. specialize (Hpl path Ep ltac:(by rewrite Hread, Hw)).
      unfold placed_at in Hpl. rewrite Et in Hpl. by apply Hpl.
    + exfalso. apply Hp. split; [done|]. exists path. split; [done|]. destruct (entry_type e); try done; by etrans.
  - exists m. by eapply effect_node.
Qed.
Lemma effect_placed root e e' f g : effect root e' f g → placed root e f → lasting root e [e'] → placed root e g.
Proof.
  intros He Hpl Hl path Ep Hw. specialize (Hpl path Ep Hw). destruct (Hl e' path ltac:(by left) Ep) as [Hh Hs].
  unfold placed_at in *. assert (∀ bytes mode, holds (root ++ path) bytes mode f → holds (root ++ path) bytes mode g) as Hf.
  { intros bytes mode (i & N & I). exists i. split; [by eapply effect_node|]. destruct He as [_ _ S _]. by eapply lookup_weaken. }
  destruct (entry_type e) eqn:Et; try done.
  - destruct Hpl as (bytes & mode & ? & ? & ?). exists bytes, mode. auto.
  - destruct Hpl as (bytes & mode & ? & ? & ?). exists bytes, mode. auto.
  - by eapply effect_real.
  - destruct Hpl as (target & ? & ?). exists target. split; [done|]. by eapply effect_node.
  - destruct Hpl as (target & i & Ht & (source & Hn & Hi) & Hd). exists target, i. split; [done|]. split; [|by eapply effect_node].
    exists source. split; [done|]. eapply effect_node; [done| |done]. by eapply Hs.
Qed.
Lemma entered_placed root e es f h : entered root es f h → placed root e f → lasting root e es → placed root e h.
Proof.
  induction 1 as [f|e' es f g h He Hes IH]; intros Hp Hl; [done|]. apply IH.
  - eapply effect_placed; [done|done|]. intros e'' path He''%list_elem_of_singleton. subst. apply Hl. by left.
  - intros e'' path Hin. apply Hl. by right.
Qed.
Lemma entered_split root before e after f h : entered root (before ++ e :: after) f h →
  ∃ f1 g, entered root before f f1 ∧ effect root e f1 g ∧ entered root after g h.
Proof.
  revert f. induction before as [|x before IH]; intros f He; inversion He; subst.
  - eexists _, _. split; [constructor|done].
  - edestruct IH as (f1 & g' & ? & ? & ?); [done|]. exists f1, g'. split; [by econstructor|done].
Qed.
Lemma entered_inodes root es f h : entered root es f h → inodes f ⊆ inodes h.
Proof. induction 1 as [|???? ? []]; [done|by etrans]. Qed.
Lemma entered_kept root es f h q : entered root es f h → (∀ e, e ∈ es → ¬ hits root e q) →
  nodes h !! q = nodes f !! q ∨ nodes f !! q = None ∧ leads_to root es q ∧ nodes h !! q = Some (Dir DIRECTORY_MODE).
Proof.
  induction 1 as [f|e es f g h He Hes IH]; intros Hq; [by left|].
  assert (∀ e, e ∈ es → ¬ hits root e q) as Hq' by (intros; apply Hq; by right).
  assert (leads_to root es q → leads_to root (e :: es) q) as Hlead.
  { intros (e' & path & ? & ? & ? & ?). exists e', path. split; [by right|done]. }
  destruct He as [_ _ _ K]. destruct (K q (Hq e ltac:(by left))) as [E|(path & Hw & Ep & Hpre & N & M)].
  - destruct (IH Hq') as [E'|(N & L & M)]; [left; congruence|]. right. split_and!; [congruence|by auto|done].
  - right. split; [done|]. split; [exists e, path; split; [by left|done]|].
    destruct (IH Hq') as [E'|(N' & _)]; congruence.
Qed.

(** ** The loop *)

(** The directory whose mode an entry has set in the end. *)
Definition recorded (root : fspath) (e : Entry) : option (fspath * Z) :=
  match entry_path e, header_mode e with
  | Ok path, Some mode => if is_a [TDirectory] e then Some (root ++ path, sanitized_directory_mode mode) else None
  | _, _ => None
  end.
Definition data_len (e : Entry) : Z := match data e with Some bytes => len bytes | None => 0 end.
Fixpoint data_size (es : list Entry) : Z :=
  match es with [] => 0 | e :: es => (if is_a FILES e then data_len e else 0) + data_size es end.
Lemma write_copied e destination mode f n f' : write_regular_file e destination mode f = (Ok n, f') → n = data_len e.
Proof.
  unfold write_regular_file, data_len. intros E. do 3 (apply sbind_inv in E as [(? & ? & _ & E)|(? & _ & [=])]).
  destruct (data e); [|done]. apply sbind_inv in E as [(? & ? & _ & E)|(? & _ & [=])]. by injection E as <- _.
Qed.
Lemma directory_named root path f d f' :
  (match path with
   | [] => sret root
   | _ => let! up := ensure_directories root (parent path) in
          let! d := join_leaf up path (InvalidPath (as_bytes path) "directory has no basename") in
          let! _ := ensure_directory_leaf d in sret d
   end) f = (Ok d, f') → d = root ++ path.
Proof.
  destruct path as [|x path]; [intros [= <- _]; by rewrite app_nil_r|]. intros [(up & f1 & E1 & E)|(? & _ & [=])]%sbind_inv.
  assert (∀ rest p f q f', ensure_from (parent (x :: path)) p rest f = (Ok q, f') → q = p ++ rest) as Hup.
  { clear. intros rest. induction rest as [|n rest IH]; intros p f q f'; cbn [ensure_from]; [intros [= <- _]; by rewrite app_nil_r|].
    intros [(r & f1 & E1 & E)|(? & _ & [=])]%sbind_inv. apply sbind_inv in E as [(? & ? & _ & E)|(? & _ & [=])].
    apply IH in E as ->. by rewrite <- app_assoc. }
  apply Hup in E1 as ->. apply sbind_inv in E as [(d' & f2 & E2 & E)|(? & _ & [=])].
  apply sbind_inv in E as [(? & ? & _ & E)|(? & _ & [=])]. injection E as -> _. unfold join_leaf in E2.
  destruct (last (x :: path)) as [n|] eqn:En; [|done]. injection E2 as <- _. rewrite <- app_assoc. f_equal. symmetry. by apply parent_last.
Qed.
(** What one entry adds to the modes to set and to the bytes copied. *)
Lemma entry_progress root options e modes copied done' f f' : apply_entry root options e (modes, copied) f = (Ok done', f') →
  (∀ path, entry_path e = Ok path → whiteout_target path = Ok (whiteout_of e)) ∧
  done'.1 = modes ++ option_list (recorded root e) ∧ done'.2 = copied + (if is_a FILES e then data_len e else 0).
Proof.
  unfold apply_entry. intros E. apply sbind_inv in E as [(raw & f1 & E1 & E)|(? & _ & [=])].
  apply sbind_inv in E as [(path & f2 & E2 & E)|(? & _ & [=])]. apply sbind_inv in E as [(w & f3 & E3 & E)|(? & _ & [=])].
  unfold sread in E1, E2, E3. injection E1 as E1 <-. injection E2 as E2 <-. injection E3 as E3 <-.
  assert (entry_path e = Ok path) as Hp by (unfold entry_path; by rewrite E1).
  assert (whiteout_of e = w) as Hw by (unfold whiteout_of; by rewrite Hp, E3).
  split; [intros p' Hp'; congruence|]. unfold recorded, is_a. rewrite Hw, Hp.
  destruct w as [w|]; [injection E as <- _; cbn; case_match; rewrite app_nil_r; split; [done|lia|done|lia]|].
  destruct (entry_type e); closed_decide; try (injection E as <- _; cbn; case_match; rewrite app_nil_r; split; [done|lia|done|lia]).
  1,2: do 3 (apply sbind_inv in E as [(? & ? & _ & E)|(? & _ & [=])]);
    apply sbind_inv in E as [(n & ? & ->%write_copied & E)|(? & _ & [=])]; unfold checked_add in E;
    (destruct (_ <? 2 ^ 64); [|done]); injection E as <- _; cbn; case_match; by rewrite app_nil_r.
  - apply sbind_inv in E as [(d & ? & ->%directory_named & E)|(? & _ & [=])].
    apply sbind_inv in E as [(mode & ? & Em & E)|(? & _ & [=])]. unfold sread, mode_of in Em.
    destruct (header_mode e); [|done]. injection Em as <- _. injection E as <- _. cbn. split; [done|lia].
  - repeat (apply sbind_inv in E as [(? & ? & _ & E)|(? & _ & [=])]). injection E as <- _. cbn.
    case_match; rewrite app_nil_r; (split; [done|lia]).
  - repeat (apply sbind_inv in E as [(? & ? & _ & E)|(? & _ & [=])]). injection E as <- _. cbn.
    case_match; rewrite app_nil_r; (split; [done|lia]).
Qed.
Lemma loop_exact root f0 options es : ∀ modes copied done' f f', applying root f0 f → filed f f →
  apply_loop root options (Some <$> es) (modes, copied) f = (Ok done', f') →
  entered root es f f' ∧ done'.1 = modes ++ omap (recorded root) es ∧ done'.2 = copied + data_size es.
Proof.
  induction es as [|e es IH]; intros modes copied done' f f' Hf Hi; cbn [fmap list_fmap apply_loop omap list_omap data_size].
  { intros [= <- <-]. split; [constructor|]. rewrite app_nil_r. cbn. split; [done|lia]. }
  intros [([modes1 copied1] & f1 & E1 & E)|(? & _ & [=])]%sbind_inv.
  pose proof (entry_ensures root f0 options e (modes, copied) f Hf) as He. rewrite E1 in He. destruct He as [Hf1 Hpl].
  pose proof (filed_entry f root options e (modes, copied) f Hi) as Hi1. rewrite E1 in Hi1. cbn in Hi1.
  pose proof (entry_progress _ _ _ _ _ _ _ _ E1) as (Hr & Hm & Hc). cbn in Hm, Hc.
  apply IH in E as (Hes & Hm' & Hc'); [|done|by destruct Hi1]. split; [|split].
  - econstructor; [|done]. destruct Hi1. split; [done|done|done|]. by eapply entry_exact.
  - rewrite Hm', Hm, <- app_assoc. f_equal. by destruct (recorded root e).
  - lia.
Qed.

(** ** Modes *)

Lemma insert_split (x : fspath * Z) l : ∃ a b, l = a ++ b ∧ insert_by_depth x l = a ++ x :: b ∧
  Forall (λ y, (length x.1 < length y.1)%nat) a.
Proof.
  induction l as [|y l (a & b & -> & E & Ha)]; [by exists [], []|]. cbn. destruct (Nat.leb_spec (length y.1) (length x.1)).
  - by exists [], (y :: a ++ b).
  - exists (y :: a), b. rewrite E. split; [done|]. split; [done|]. by constructor.
Qed.
(** The sort is stable: the last mode recorded for a directory is the last one set. *)
Lemma sort_last (x : fspath * Z) a b : (∀ m, (x.1, m) ∉ b) →
  ∃ a' b', sort_by_depth (a ++ x :: b) = a' ++ x :: b' ∧ ∀ m, (x.1, m) ∉ b'.
Proof.
  assert (∀ y l z, z ∈ insert_by_depth y l → z = y ∨ z ∈ l) as Hin.
  { intros y l z. destruct (insert_split y l) as (c & d & -> & -> & _). set_solver. }
  intros Hb. induction a as [|y a (a' & b' & E & Hb')].
  - change (sort_by_depth ([] ++ x :: b)) with (insert_by_depth x (sort_by_depth b)). assert (∀ z, z ∈ sort_by_depth b → z ∈ b) as Hs.
    { clear -Hin. induction b as [|y b IH]; cbn; [done|]. intros z [->|Hz%IH]%Hin; [by left|by right]. }
    destruct (insert_split x (sort_by_depth b)) as (c & d & Ed & -> & _). exists c, d. split; [done|]. intros m Hm.
    apply (Hb m), Hs. rewrite Ed. apply elem_of_app. by right.
  - change (sort_by_depth ((y :: a) ++ x :: b)) with (insert_by_depth y (sort_by_depth (a ++ x :: b))). rewrite E.
    destruct (insert_split y (a' ++ x :: b')) as (c & d & Ed & -> & Hc).
    apply app_eq_inv in Ed as [(k & -> & Ed)|(k & -> & Ed)].
    + subst d. exists (c ++ y :: k), b'. by rewrite <- !app_assoc.
    + destruct k as [|z k]; cbn in Ed.
      * subst d. rewrite app_nil_r. exists (a' ++ [y]), b'. by rewrite <- app_assoc.
      * injection Ed as <- ->. exists a', (k ++ y :: d). rewrite <- !app_assoc. split; [done|].
        intros m [Hm|[Hm|Hm]%elem_of_cons]%elem_of_app; [apply (Hb' m); set_solver| |apply (Hb' m); set_solver].
        subst y. apply Forall_app in Hc as [_ [Hx _]%Forall_cons]. cbn in Hx. lia.
Qed.
Lemma real_insert t p q m : real t p → real (<[q := Dir m]> t) p.
Proof.
  intros Hp r Hr. destruct (decide (q = r)) as [->|Hne]; [exists m; apply lookup_insert_eq|]. rewrite lookup_insert_ne by done.
  by apply Hp.
Qed.
Lemma set_modes_exact modes : ∀ f f', (∀ x, x ∈ modes → real (nodes f) x.1) → set_modes modes f = (Ok (), f') →
  nodes f' = foldl (λ t x, <[x.1 := Dir x.2]> t) (nodes f) modes.
Proof.
  induction modes as [|[p mode] modes IH]; intros f f' Hr; [by intros [= <-]|]. cbn [set_modes foldl].
  pose proof (Hr (p, mode) ltac:(by left)) as Hp. cbn in Hp. destruct (real_last _ _ Hp) as [m Hm].
  intros [(node & f1 & E1 & E)|(? & _ & [=])]%sbind_inv. unfold io in E1.
  destruct (symlink_metadata p f) as [[x|] f1'] eqn:Em; [|done]. injection E1 as -> ->.
  apply metadata_found in Em as (N & _ & q & R & Eq). rewrite resolve_real in R by done. injection R as <-.
  rewrite Hm in Eq. injection Eq as <-. apply sbind_inv in E as [([] & f2 & E2 & E)|(? & _ & [=])].
  assert (nodes f2 = <[p := Dir mode]> (nodes f)) as N2.
  { unfold io, set_permissions in E2. match type of E2 with context [call ?c f1] =>
      destruct (call_cases c f1) as [l [C|C]]; rewrite C in E2; clear C end; [done|].
    change (nodes (f1 <| faults := l |>)) with (nodes f1) in E2.
    rewrite (follow_dir _ _ _ p m) in E2 by (rewrite N; by rewrite ?resolve_real). rewrite N, Hm in E2. injection E2 as <-.
    cbn. by rewrite N. }
  rewrite (IH _ _ ltac:(intros x Hx; rewrite N2; apply real_insert, Hr; by right) E). by rewrite N2.
Qed.
Lemma foldl_last (x : fspath * Z) (a b : list (fspath * Z)) (t : gmap fspath Node) : (∀ m, (x.1, m) ∉ b) →
  foldl (λ t x, <[x.1 := Dir x.2]> t) t (a ++ x :: b) !! x.1 = Some (Dir x.2).
Proof.
  intros Hb. rewrite foldl_app. cbn [foldl]. generalize (foldl (λ t x, <[x.1 := Dir x.2]> t) t a). clear t a. intros t.
  assert ((<[x.1 := Dir x.2]> t : gmap fspath Node) !! x.1 = Some (Dir x.2)) as H by apply lookup_insert_eq. revert H.
  generalize (<[x.1 := Dir x.2]> t). clear t. induction b as [|y b IH]; intros t H; [done|]. cbn. apply IH; [set_solver|].
  rewrite lookup_insert_ne; [done|]. intros Hy. apply (Hb y.2). rewrite <- Hy. destruct y. by left.
Qed.

(** ** Whiteouts *)

Definition covered (root : fspath) (ws : list Whiteout) (q : fspath) : Prop := ∃ w, w ∈ ws ∧ covers root w q.
#[export] Instance covers_dec root w q : Decision (covers root w q).
Proof. destruct w; unfold covers, below; apply _. Defined.
Lemma whiteouts_exact root f0 ws : ∀ f f', applying root f0 f → apply_whiteouts root ws f = (Ok (), f') →
  erased (covered root ws) f f'.
Proof.
  induction ws as [|w ws IH]; intros f f' Hf; cbn [apply_whiteouts].
  { intros [= <-]. split; [|done|done]. by intros q (w & Hw%not_elem_of_nil & _). }
  intros [([] & f1 & E1 & E)|(? & _ & [=])]%sbind_inv. pose proof (whiteout_ensures root f0 w f Hf) as HW. rewrite E1 in HW.
  apply IH in E as [G K I]; [|done]. destruct Hf as [_ Hr Ht]. assert (erased (covers root w) f f1) as [G1 K1 I1].
  { destruct w; [by apply remove_whiteout_exact|by apply opaque_whiteout_exact]. }
  split; [| |congruence].
  - intros q (w' & Hw & Hc). destruct (decide (Exists (λ w, covers root w q) ws)) as [Hx|Hx].
    + apply Exists_exists in Hx as (w'' & ? & ?). apply G. by exists w''.
    + rewrite K; [|intros (w'' & ? & ?); apply Hx, Exists_exists; by exists w'']. apply G1.
      apply elem_of_cons in Hw as [->|Hw]; [done|]. exfalso. apply Hx, Exists_exists. by exists w'.
  - intros q Hq. rewrite K, K1; [done|..].
    + intros Hc. apply Hq. exists w. split; [by left|done].
    + intros (w' & ? & ?). apply Hq. exists w'. split; [by right|done].
Qed.

(** ** The result *)

(** The tree [f'] a layer with the entries [es] makes of [f]: an entry that no later one
    replaces is in place; what a whiteout covers is gone, unless an entry has put it
    back; all else is what it was, and so are the files, or is a directory made on the
    way to an entry. As long as the path of every directory entry still leads to it,
    each has the mode of the last entry for it, and no other mode has changed. *)
Record applied (root : fspath) (es : list Entry) (f f' : Fs) : Prop := mk_applied {
  al_placed : ∀ before e after, es = before ++ e :: after → lasting root e after → placed root e f';
  al_gone : ∀ q, covered root (omap whiteout_of es) q → (∀ e, e ∈ es → ¬ hits root e q) →
    nodes f' !! q = None ∨ leads_to root es q ∧ ∃ m, nodes f' !! q = Some (Dir m);
  al_kept : ∀ q, ¬ covered root (omap whiteout_of es) q → (∀ e, e ∈ es → ¬ hits root e q) →
    same_node (nodes f' !! q) (nodes f !! q) ∨ nodes f !! q = None ∧ leads_to root es q ∧ ∃ m, nodes f' !! q = Some (Dir m);
  al_files : inodes f ⊆ inodes f';
  al_modes : (∀ x, x ∈ omap (recorded root) es → real (nodes f') x.1) →
    (∀ before e after path mode, es = before ++ e :: after → recorded root e = Some (path, mode) →
       (∀ e' m, e' ∈ after → recorded root e' ≠ Some (path, m)) → nodes f' !! path = Some (Dir mode)) ∧
    ∀ q node, ¬ covered root (omap whiteout_of es) q → (∀ e, e ∈ es → ¬ hits root e q) →
      nodes f !! q = Some node → nodes f' !! q = Some node
}.
Lemma shape_real f g p : same_shape f g → real (nodes f) p ↔ real (nodes g) p.
Proof.
  intros [N _]. split; intros Hp q Hq; destruct (Hp q Hq) as [m Hm]; specialize (N q); rewrite Hm in N; unfold same_node in N;
    repeat case_match; by eauto.
Qed.
Lemma shape_node f g p node : same_shape f g → is_dir node = false → nodes f !! p = Some node → nodes g !! p = Some node.
Proof. intros [N _] Hd Hn. specialize (N p). rewrite Hn in N. unfold same_node in N. repeat case_match; by simplify_eq. Qed.
Lemma placed_shape root e f g : same_shape f g → placed root e f → placed root e g.
Proof.
  intros Hs Hp path Ep Hw. specialize (Hp path Ep Hw). unfold placed_at in *. assert (inodes g = inodes f) as I by apply Hs.
  unfold holds in *. rewrite I. destruct (entry_type e); try done; [naive_solver eauto using shape_node..|by apply (shape_real f g _ Hs)| |];
    naive_solver eauto using shape_node.
Qed.
Lemma recorded_hits root e x : recorded root e = Some x → hits root e x.1.
Proof.
  unfold recorded, hits, is_a. destruct (entry_path e) as [path|]; [|done]. destruct (header_mode e); [|done].
  destruct (whiteout_of e); [done|]. case_bool_decide as Ht; [|done]. intros [= <-]. split; [done|]. exists path. split; [done|].
  set_unfold in Ht. destruct Ht as [->|[]]. done.
Qed.
Lemma modes_set root es f f' : (∀ x, x ∈ omap (recorded root) es → real (nodes f') x.1) →
  set_modes (sort_by_depth (omap (recorded root) es)) f = (Ok (), f') →
  (∀ before e after path mode, es = before ++ e :: after → recorded root e = Some (path, mode) →
     (∀ e' m, e' ∈ after → recorded root e' ≠ Some (path, m)) → nodes f' !! path = Some (Dir mode)) ∧
  ∀ q, (∀ e, e ∈ es → ¬ hits root e q) → nodes f' !! q = nodes f !! q.
Proof.
  intros Hr E. pose proof (set_modes_shape (sort_by_depth (omap (recorded root) es)) f) as HS. rewrite E in HS. cbn in HS.
  assert (∀ l (x : fspath * Z), x ∈ sort_by_depth l → x ∈ l) as Hin.
  { induction l as [|y l IH]; intros x; [done|]. change (sort_by_depth (y :: l)) with (insert_by_depth y (sort_by_depth l)).
    destruct (insert_split y (sort_by_depth l)) as (a & b & Eab & -> & _). specialize (IH x). rewrite Eab in IH. set_solver. }
  apply set_modes_exact in E; [|intros x Hx%Hin; apply (shape_real f f' _ HS); by apply Hr]. rewrite E. split.
  - intros before e after path mode -> He Ha. rewrite omap_app. cbn. rewrite He.
    destruct (sort_last (path, mode) (omap (recorded root) before) (omap (recorded root) after)) as (a & b & -> & Hb).
    { intros m (e' & He' & Em)%list_elem_of_omap. by eapply Ha. }
    by apply (foldl_last (path, mode)).
  - intros q Hq. assert (∀ x, x ∈ sort_by_depth (omap (recorded root) es) → x.1 ≠ q) as Hn.
    { intros x (e & He & Ex)%Hin%list_elem_of_omap <-. by eapply Hq, recorded_hits. }
    clear -Hn. revert Hn. generalize (nodes f) as t. induction (sort_by_depth _) as [|x l IH]; intros t Hn; [done|]. cbn.
    rewrite IH by set_solver. rewrite lookup_insert_ne; [done|]. apply Hn. by left.
Qed.

Section theorems.
Context `{Archive}.
Lemma shape_cases root es g f f' q : same_shape g f' →
  nodes g !! q = nodes f !! q ∨ nodes f !! q = None ∧ leads_to root es q ∧ nodes g !! q = Some (Dir DIRECTORY_MODE) →
  same_node (nodes f' !! q) (nodes f !! q) ∨ nodes f !! q = None ∧ leads_to root es q ∧ ∃ m, nodes f' !! q = Some (Dir m).
Proof.
  intros [N _] [E|(E & L & M)]; [left; rewrite <- E; apply N|]. right. split; [done|]. split; [done|]. specialize (N q).
  rewrite M in N. unfold same_node in N. repeat case_match; by eauto.
Qed.
(** The whiteouts and the entries, from the destination on. *)
Lemma placement_applied spool es root options expected f f' : fs_ok f → real (nodes f) root → entries spool = Some <$> es →
  (let! _ := apply_whiteouts root (omap whiteout_of es) in
   let! _ := temporary in apply_entries spool root options expected) f = (Ok (), f') →
  applied root es f f' ∧ expanded_bytes expected = data_size es.
Proof.
  intros Hok Hr He E. pose proof (applying_start root f Hok Hr) as Hf.
  apply sbind_inv in E as [([] & f1 & E1 & E)|(? & _ & [=])]. pose proof (whiteouts_ensures root f (omap whiteout_of es) f Hf) as Hf1.
  pose proof (filed_whiteouts f root (omap whiteout_of es) f ltac:(by destruct Hok)) as Hi1. rewrite E1 in Hf1, Hi1. cbn in Hi1.
  apply (whiteouts_exact root f) in E1 as [G K I]; [|done]. apply sbind_inv in E as [([] & f2 & E2 & E)|(? & _ & [=])].
  pose proof (temporary_ensures root f root f1 (proj1 (root_stands _ _ _) Hf1)) as Hf2. pose proof (filed_temporary f f1 Hi1) as Hi2.
  rewrite E2 in Hf2, Hi2. apply root_stands in Hf2. apply temporary_same in E2. cbn in Hi2.
  unfold apply_entries in E. rewrite He in E. apply sbind_inv in E as [([modes copied] & f3 & E3 & E)|(? & _ & [=])].
  apply (loop_exact root f) in E3 as (Hes & Em & Ec); [|done|by destruct Hi2]. cbn [fst snd app] in Em, Ec, E.
  destruct (Z.eqb_spec copied (expanded_bytes expected)) as [Hc|]; [|done]. cbn [negb] in E. subst modes. split; [|lia].
  pose proof (set_modes_shape (sort_by_depth (omap (recorded root) es)) f3) as HS. rewrite E in HS. cbn in HS.
  split.
  - intros before e after -> Hl. apply entered_split in Hes as (g & g' & _ & Hg & Ha). eapply placed_shape; [done|].
    eapply entered_placed; [done| |done]. by destruct Hg.
  - intros q Hq Hh. pose proof (entered_kept _ _ _ _ q Hes Hh) as Hk. apply (shape_cases _ _ _ _ _ _ HS) in Hk. rewrite E2, G in Hk by done.
    destruct Hk as [Hn|(_ & ? & ?)]; [left|by right]. unfold same_node in Hn. by repeat case_match.
  - intros q Hq Hh. pose proof (entered_kept _ _ _ _ q Hes Hh) as Hk. apply (shape_cases _ _ _ _ _ _ HS) in Hk. by rewrite E2, K in Hk.
  - destruct HS as [_ ->]. etrans; [apply Hi2|]. by eapply entered_inodes.
  - intros Hreal. apply modes_set in E as [Hm Hk]; [|done]. split; [done|]. intros q node Hq Hh Hn. rewrite Hk by done.
    destruct (entered_kept _ _ _ _ q Hes Hh) as [->|(N & _)]; [by rewrite E2, K|]. rewrite E2, K in N by done. congruence.
Qed.
(** C24: a layer reported as applied has been applied in full: the report has the digest
    of the whole archive, counts its entries kind by kind, and the bytes it gives are
    both those the entries announce and those written; and the tree is what the entries
    make of the tree that was there: each entry is in place, what the whiteouts name is
    gone, directories have the modes given for them, and the rest has been kept. *)
Theorem applied_in_full reads destination format options f rep f' : limits_ok (limits options) → fs_ok f →
  apply_layer_with_format reads destination format options f = (Ok rep, f') →
  ∃ spool es root f1, is_archive reads format spool ∧ entries spool = Some <$> es ∧
    diff_id rep = SHA256_COLON ++ sha256_hex spool ∧ counted es ApplyReport_default rep ∧ expanded_bytes rep = data_size es ∧
    grown destination f f1 ∧ resolve (nodes f1) destination = Ok root ∧ applied root es f1 f'.
Proof.
  intros Hl Hok E.
  destruct (application_stages _ _ _ _ _ _ _ Hl E) as [(_ & ? & [=])|(spool & es & scan & f1 & HP & Hc & Hw & (N & I & X) & E')].
  rewrite Hw in E'. apply sbind_inv in E' as [(root & f2 & E1 & E')|(? & _ & [=])]. pose proof (prepare_grown destination f1) as HG.
  rewrite E1 in HG. destruct HG as (Hg & R & m & Hm). assert (grown destination f f2) as Hg' by (etrans; [by apply grown_same|done]).
  assert (fs_ok f2) as Hok2 by (by eapply grown_ok). assert (real (nodes f2) root) as Hr by (by eapply tree_real, Hm; apply Hok2).
  apply sbind_inv in E' as [(? & f3 & E2 & E')|(? & _ & [=])]. apply sbind_inv in E' as [(? & f4 & E3 & E')|(? & _ & [=])].
  apply sbind_inv in E' as [([] & f5 & E4 & E')|(? & _ & [=])]. injection E' as <- <-. destruct HP as [Hwh _ _ He _ _ _].
  edestruct (placement_applied spool es root options ((report scan) <| diff_id := SHA256_COLON ++ sha256_hex spool |>) f2 f5)
    as [Ha Hb]; [done|done|done|by rewrite (sbind_ok _ _ _ _ _ E2), (sbind_ok _ _ _ _ _ E3)|].
  exists spool, es, root, f2. split; [done|]. split; [done|]. split; [done|]. split; [by destruct Hc|done].
Qed.
End theorems.

Import Fixture.
(** The report and the tree of the layer of the fixture. *)
Lemma applied_in_full_witness : ∃ rep f', apply_layer_with_format (H := fixed ordinary) [Some [0]] destination Auto options before = (Ok rep, f') ∧
  ∃ spool es root f1, is_archive (H := fixed ordinary) [Some [0]] Auto spool ∧ entries (Archive := fixed ordinary) spool = Some <$> es ∧
    diff_id rep = SHA256_COLON ++ sha256_hex (Archive := fixed ordinary) spool ∧ counted es ApplyReport_default rep ∧
    expanded_bytes rep = data_size es ∧
    grown destination before f1 ∧ resolve (nodes f1) destination = Ok root ∧ applied root es f1 f'.
Proof.
  destruct (apply_layer_with_format (H := fixed ordinary) [Some [0]] destination Auto options before) as [[rep|e] f'] eqn:E.
  - exists rep, f'. split; [done|].
    apply (applied_in_full (H := fixed ordinary) [Some [0]] destination Auto options before rep f'); [by vm_compute|apply before_ok|done].
  - exfalso. assert (match (apply_layer_with_format (H := fixed ordinary) [Some [0]] destination Auto options before).1 with
      Ok _ => true | Err _ => false end = true) as E1 by (by vm_compute). by rewrite E in E1.
Defined.
