(* ===== verification/Content.v ===== *)
(** The content-addressed store: [rish-content/src/digest.rs], [error.rs],
    [filesystem.rs], [quota.rs] and [store.rs], on Unix.

    A handle is the immutable part of [Inner]; the world holds the file system, the
    state behind the lock, the counter of temporary names and the clock. Methods that
    hold the lock throughout are one computation; ingestion, which does not, is three
    ([ingest_begin], [ingest_copy], [ingest_finish]) composed as the code composes
    them, so that clones can run between them. Nothing panics under the lock, which is
    therefore never poisoned. *)
From stdpp Require Import strings gmap pretty.
From S2P Require Import Prelude.
From S2P Require Import Text.
From S2P Require Import Filesystem.
From S2P Require Import Layer.
Local Open Scope Z_scope.

(** ** [digest.rs] *)

(** [[u8; 32]] *)
Abbreviation Sha256Digest := (list Z).
Definition BYTE_LEN : Z := 32.
Definition ENCODED_LEN : Z := BYTE_LEN * 2.
Definition ALGORITHM : list Z := take 6 SHA256_COLON.
Inductive DigestParseError :=
  | MissingAlgorithm
  | UnsupportedAlgorithm (algorithm : list Z)
  | InvalidLength (expected actual : Z)
  | InvalidCharacter (index character : Z).
Definition hex_nibble (byte index : Z) : result DigestParseError Z :=
  if (48 <=? byte) && (byte <=? 57) then Ok (byte - 48)
  else if (97 <=? byte) && (byte <=? 102) then Ok (byte - 97 + 10)
  else if (65 <=? byte) && (byte <=? 70) then Ok (byte - 65 + 10)
  else Err (InvalidCharacter index byte).
(** [chunks_exact(2).enumerate()] *)
Fixpoint from_pairs (index : Z) (bytes : list Z) : result DigestParseError (list Z) :=
  match bytes with
  | a :: b :: bytes =>
      let? high := hex_nibble a (index * 2) in
      let? low := hex_nibble b (index * 2 + 1) in
      let? rest := from_pairs (index + 1) bytes in
      Ok ((high ≪ 4) .| low :: rest)
  | _ => Ok []
  end.
Definition from_encoded (encoded : list Z) : result DigestParseError Sha256Digest :=
  if negb (len encoded =? ENCODED_LEN) then Err (InvalidLength ENCODED_LEN (len encoded)) else from_pairs 0 encoded.
(** [{byte:02x}] *)
Definition hex_digit (n : Z) : Z := if n <? 10 then 48 + n else 87 + n.
Definition hex_byte (b : Z) : list Z := [hex_digit (b ≫ 4); hex_digit (b .& 15)].
Definition encoded (d : Sha256Digest) : list Z := concat (hex_byte <$> d).
Definition digest_from_str (value : list Z) : result DigestParseError Sha256Digest :=
  match split_once 58 value with
  | None => Err MissingAlgorithm
  | Some (algorithm, encoded) =>
      if negb (bool_decide (algorithm = ALGORITHM)) then Err (UnsupportedAlgorithm algorithm) else from_encoded encoded
  end.
Definition digest_to_string (d : Sha256Digest) : list Z := ALGORITHM ++ 58 :: encoded d.

(** Hashing, and the number of the process. *)
Class Host := mkHost { calculate : list Z → Sha256Digest; process_id : Z }.
Definition digest_ok (d : Sha256Digest) : Prop := len d = BYTE_LEN ∧ Forall (word 8) d.
Class HostLaws `{Host} : Prop := calculate_ok : ∀ bytes, digest_ok (calculate bytes).

(** ** [error.rs] *)

(** The texts of reasons, the formatted ones by what they show. *)
Inductive Reason :=
  | Text (text : string)
  | InvalidName (error : DigestParseError)
  | NotPinName (name : list Z)
  | SizeFound (expected found : Z)
  | HashesTo (actual : Sha256Digest).
Inductive StoreError :=
  | StoreIo (error : IoError)
  | InvalidDigest (error : DigestParseError)
  | BlobTooLarge (maximum observed_at_least : Z)
  | CommittedBytesQuotaExceeded (maximum committed attempted : Z)
  | DigestMismatch (expected actual : Sha256Digest)
  | SizeMismatch (expected actual : Z)
  | BlobNotFound (digest : Sha256Digest)
  | CorruptBlob (digest : Sha256Digest) (reason : Reason)
  | InvalidPinName (name : list Z)
  | CorruptPin (path : fspath) (reason : Reason)
  | UnsafeFilesystemEntry (path : fspath) (reason : Reason)
  | LeaseReleased
  | LockPoisoned.

(** ** The world *)

Record BlobDescriptor := mkDescriptor { digest : Sha256Digest; blob_size : Z }.
#[export] Instance BlobDescriptor_eq_dec : EqDecision BlobDescriptor.
Proof. solve_decision. Defined.
Record Pin := mkPin { pin_name : list Z; pin_digest : Sha256Digest }.
Record GcReport := mkGcReport { marked_digests : Z; kept_blobs : Z; removed_blobs : Z; reclaimed_bytes : Z }.
#[export] Instance GcReport_eta : Settable GcReport := λ r,
  mkGcReport (marked_digests r) (kept_blobs r) (removed_blobs r) (reclaimed_bytes r).
Record StoreConfig := mkConfig { config_root : fspath; config_max_blob_size : Z; config_max_committed_bytes : Z }.
Definition DEFAULT_MAX_BLOB_SIZE : Z := 4 * 1024 * 1024 * 1024.
Definition DEFAULT_MAX_COMMITTED_BYTES : Z := 4 * 1024 * 1024 * 1024.
Definition StoreConfig_new (root : fspath) : StoreConfig := mkConfig root DEFAULT_MAX_BLOB_SIZE DEFAULT_MAX_COMMITTED_BYTES.

Record Inner := mkInner {
  root : fspath;
  blobs : fspath;
  temporary_dir : fspath;
  pins_dir : fspath;
  max_blob_size : Z;
  max_committed_bytes : Z
}.
Record State := mkState {
  next_lease_id : Z;
  leases : gmap Z (gset Sha256Digest);
  committed_blobs : gmap Sha256Digest Z;
  committed_bytes : Z
}.
#[export] Instance State_eta : Settable State := λ s,
  mkState (next_lease_id s) (leases s) (committed_blobs s) (committed_bytes s).
Record World := mkWorld { disk : Fs; guarded : State; next_temp_id : Z; clock : list Z }.
#[export] Instance World_eta : Settable World := λ w, mkWorld (disk w) (guarded w) (next_temp_id w) (clock w).

Abbreviation sm A := (st World StoreError A).
(** [fs::..()?], and the same with its error looked at. *)
Definition host {A} (c : st Fs IoError A) : sm A := λ w,
  let '(r, f) := c (disk w) in (map_err StoreIo r, w <| disk := f |>).
Definition try_host {A} (c : st Fs IoError A) : sm (result IoError A) := λ w,
  let '(r, f) := c (disk w) in (Ok r, w <| disk := f |>).
(** Reading and changing what the lock guards. *)
Definition locked {A} (g : State → result StoreError A) : sm A := sread (λ w, g (guarded w)).
Definition update_state (g : State → State) : sm () := supdate (λ w, Ok (w <| guarded ::= g |>)).

(** ** [filesystem.rs] *)

Definition unsafe {A} (path : fspath) (reason : string) : sm A := sfail (UnsafeFilesystemEntry path (Text reason)).
(** 0o700 and 0o600. *)
Definition set_private_directory_permissions (path : fspath) : sm () := host (set_permissions path 0x1C0).
Definition set_private_file_permissions (file : Z) : sm () := host (set_file_permissions file 0x180).
Definition sync_directory (path : fspath) : sm () := host sync.
Definition managed_relative_path (base path : fspath) : result StoreError (list name) :=
  if bool_decide (base `prefix_of` path) then Ok (drop (length base) path)
  else Err (UnsafeFilesystemEntry path (Text "managed directory escapes its base")).
Definition assert_real_directory (path : fspath) : sm () :=
  let! metadata := host (symlink_metadata path) in
  if is_dir metadata then sret () else unsafe path "managed path is not a real directory".
Fixpoint ensure_managed (current : fspath) (relative : list name) : sm () :=
  match relative with
  | [] => sret ()
  | part :: relative =>
      let current := current ++ [part] in
      let! metadata := try_host (symlink_metadata current) in
      let! _ :=
        match metadata with
        | Ok node => if is_dir node then sret () else unsafe current "managed path is not a real directory"
        | Err NotFound => host (create_dir current)
        | Err error => sfail (StoreIo error)
        end in
      let! _ := assert_real_directory current in
      let! _ := set_private_directory_permissions current in
      ensure_managed current relative
  end.
Definition ensure_managed_directory (base path : fspath) : sm () :=
  let! relative := sread (λ _, managed_relative_path base path) in
  let! _ := assert_real_directory base in
  ensure_managed base relative.
Fixpoint ensure_optional (current : fspath) (relative : list name) : sm () :=
  match relative with
  | [] => sret ()
  | part :: relative =>
      let current := current ++ [part] in
      let! metadata := try_host (symlink_metadata current) in
      match metadata with
      | Ok node =>
          if is_dir node
          then let! _ := set_private_directory_permissions current in ensure_optional current relative
          else unsafe current "managed path is not a real directory"
      | Err NotFound => sret ()
      | Err error => sfail (StoreIo error)
      end
  end.
Definition ensure_optional_managed_directory (base path : fspath) : sm () :=
  let! relative := sread (λ _, managed_relative_path base path) in
  let! _ := assert_real_directory base in
  ensure_optional base relative.
Definition is_file (node : Node) : bool := match node with Regular _ => true | _ => false end.
Definition ensure_regular_marker (path : fspath) : sm () :=
  let! metadata := host (symlink_metadata path) in
  if is_file metadata then sret () else unsafe path "pin marker is not a regular file".
Definition remove_directory_if_empty (path : fspath) : sm () :=
  let! removed := try_host (remove_dir path) in
  match removed with
  | Ok _ => sret ()
  | Err DirectoryNotEmpty | Err NotFound => sret ()
  | Err error => sfail (StoreIo error)
  end.
Definition prepare_store_root (root : fspath) : sm () :=
  let! metadata := try_host (symlink_metadata root) in
  let! _ :=
    match metadata with
    | Ok node => if is_dir node then sret () else unsafe root "content-store root is not a real directory"
    | Err NotFound => host (create_dir_all root)
    | Err error => sfail (StoreIo error)
    end in
  let! _ := assert_real_directory root in
  set_private_directory_permissions root.

Definition FILE_MODE : Z := 0x1B6.
Section host.
Context `{Host}.
Definition temporary_name (timestamp sequence : Z) : name :=
  bytes_of (".ingest-" +:+ pretty process_id +:+ "-" +:+ pretty timestamp +:+ "-" +:+ pretty sequence).
(** [fetch_add] on the counter, and the time. *)
Definition next_name : sm name := λ w,
  (Ok (temporary_name (default 0 (head (clock w))) (next_temp_id w)),
   w <| next_temp_id ::= λ n, wrapping_add 64 n 1 |> <| clock ::= tail |>).
Fixpoint create_attempts (attempts : nat) (directory : fspath) : sm (fspath * Z) :=
  match attempts with
  | O => sfail (StoreIo AlreadyExists)
  | S attempts =>
      let! name := next_name in
      let path := directory ++ [name] in
      let! file := try_host (create_new FILE_MODE path) in
      match file with
      | Ok file => let! _ := set_private_file_permissions file in sret (path, file)
      | Err AlreadyExists => create_attempts attempts directory
      | Err error => sfail (StoreIo error)
      end
  end.
Definition create_temporary_file (directory : fspath) : sm (fspath * Z) := create_attempts 128 directory.
End host.

(** ** [quota.rs] *)

(** An entry of the blob directory: a regular file named by a digest. *)
Definition blob_entry (blobs : fspath) (n : name) : sm (Sha256Digest * Z) :=
  let path := blobs ++ [n] in
  let! metadata := host (symlink_metadata path) in
  match metadata with
  | Regular file =>
      match to_str n with
      | None => unsafe path "blob filename is not UTF-8"
      | Some encoded =>
          match from_encoded encoded with
          | Err error => sfail (UnsafeFilesystemEntry path (InvalidName error))
          | Ok digest => let! size := sread (λ w, Ok (len (file_content file (disk w)))) in sret (digest, size)
          end
      end
  | _ => unsafe path "unexpected non-file in blob directory"
  end.
Fixpoint scan_blobs (blobs : fspath) (names : list name) (committed : gmap Sha256Digest Z) (bytes : Z)
    : sm (gmap Sha256Digest Z * Z) :=
  match names with
  | [] => sret (committed, bytes)
  | n :: names =>
      let! blob := blob_entry blobs n in
      match checked_add 64 bytes blob.2 with
      | None => unsafe blobs "committed blob sizes exceed the u64 accounting range"
      | Some bytes => scan_blobs blobs names (<[blob.1 := blob.2]> committed) bytes
      end
  end.
Definition scan_committed_blobs (blobs : fspath) : sm (gmap Sha256Digest Z * Z) :=
  let! names := host (read_dir blobs) in
  scan_blobs blobs names ∅ 0.

(** ** [State] *)

Definition ensure_committed_capacity (maximum attempted : Z) (s : State) : result StoreError () :=
  match checked_add 64 (committed_bytes s) attempted with
  | None => Err (CommittedBytesQuotaExceeded maximum (committed_bytes s) attempted)
  | Some projected =>
      if maximum <? projected then Err (CommittedBytesQuotaExceeded maximum (committed_bytes s) attempted) else Ok ()
  end.
Definition observe_committed_blob (b : BlobDescriptor) (s : State) : State :=
  let fresh := match committed_blobs s !! digest b with None => true | Some _ => false end in
  let s := s <| committed_blobs ::= <[digest b := blob_size b]> |> in
  if fresh then s <| committed_bytes ::= λ n, saturating_add 64 n (blob_size b) |> else s.
Definition remove_committed_blob (d : Sha256Digest) (s : State) : State :=
  match committed_blobs s !! d with
  | None => s
  | Some size => s <| committed_blobs ::= delete d |> <| committed_bytes ::= λ n, saturating_sub n size |>
  end.

(** ** [store.rs] *)

Definition BLOBS : name := bytes_of "blobs".
Definition TMP : name := bytes_of "tmp".
Definition PINS : name := bytes_of "pins".
Definition State_default : State := mkState 0 ∅ ∅ 0.
(** The new store has a state of its own. *)
Definition open (config : StoreConfig) : sm Inner :=
  let! _ := prepare_store_root (config_root config) in
  let! root := host (canonicalize (config_root config)) in
  let! _ := ensure_managed_directory root (root ++ [BLOBS]) in
  let blobs := root ++ [BLOBS; ALGORITHM] in
  let! _ := ensure_managed_directory root blobs in
  let temporary := root ++ [TMP] in
  let! _ := ensure_managed_directory root temporary in
  let pins := root ++ [PINS] in
  let! _ := ensure_managed_directory root pins in
  let! committed := scan_committed_blobs blobs in
  let! _ := update_state (λ _, State_default <| committed_blobs := committed.1 |> <| committed_bytes := committed.2 |>) in
  sret (mkInner root blobs temporary pins (config_max_blob_size config) (config_max_committed_bytes config)).

Definition blob_path (store : Inner) (d : Sha256Digest) : fspath := blobs store ++ [encoded d].
Definition contains (store : Inner) (d : Sha256Digest) : sm bool :=
  let! metadata := try_host (symlink_metadata (blob_path store d)) in
  match metadata with
  | Ok node => if is_file node then sret true else unsafe (blob_path store d) "blob is not a regular file"
  | Err NotFound => sret false
  | Err error => sfail (StoreIo error)
  end.
(** The metadata of an open file. *)
Definition metadata_of (node : Node) : sm Node := host (call (sret node)).
Definition open_blob (store : Inner) (d : Sha256Digest) : sm Z :=
  let path := blob_path store d in
  let! file := try_host (open_no_follow path) in
  match file with
  | Ok file =>
      let! metadata := metadata_of file in
      match metadata with Regular i => sret i | _ => unsafe path "blob is not a regular file" end
  | Err NotFound => sfail (BlobNotFound d)
  | Err error => sfail (StoreIo error)
  end.
Section store.
Context `{Host}.
Definition verify_blob_file (path : fspath) (b : BlobDescriptor) : sm () :=
  let! file := try_host (open_no_follow path) in
  match file with
  | Ok file =>
      let! metadata := metadata_of file in
      match metadata with
      | Regular i =>
          let! found := sread (λ w, Ok (len (file_content i (disk w)))) in
          if negb (found =? blob_size b) then sfail (CorruptBlob (digest b) (SizeFound (blob_size b) found))
          else
            let! bytes := host (read_file i) in
            if bool_decide (calculate bytes = digest b) then sret ()
            else sfail (CorruptBlob (digest b) (HashesTo (calculate bytes)))
      | _ => unsafe path "blob is not a regular file"
      end
  | Err NotFound => sfail (BlobNotFound (digest b))
  | Err error => sfail (StoreIo error)
  end.
Definition blob_is_regular_file (path : fspath) : sm bool :=
  let! file := try_host (open_no_follow path) in
  match file with
  | Ok file =>
      let! metadata := metadata_of file in
      if is_file metadata then sret true else unsafe path "blob is not a regular file"
  | Err NotFound => sret false
  | Err error => sfail (StoreIo error)
  end.
Definition verify (store : Inner) (b : BlobDescriptor) : sm () := verify_blob_file (blob_path store (digest b)) b.

(** [.], [_] and [-] *)
Definition is_name_byte (b : Z) : bool := is_ascii_alphanumeric b || (b =? 46) || (b =? 95) || (b =? 45).
Definition MAX_PIN_NAME_LEN : Z := 128.
Definition validate_pin_name (n : list Z) : result StoreError () :=
  let valid_length := negb (bool_decide (n = [])) && (len n <=? MAX_PIN_NAME_LEN) in
  let valid_characters := forallb is_name_byte n in
  if negb valid_length || negb valid_characters || bool_decide (n = [DOT]) || bool_decide (n = [DOT; DOT])
  then Err (InvalidPinName n) else Ok ().

Definition pin_leb (a b : Pin) : bool :=
  if bool_decide (pin_name a = pin_name b) then lex_leb (pin_digest a) (pin_digest b) else lex_leb (pin_name a) (pin_name b).
Fixpoint insert_pin (x : Pin) (l : list Pin) : list Pin :=
  match l with [] => [x] | y :: l => if pin_leb x y then x :: y :: l else y :: insert_pin x l end.
Definition sort_pins (l : list Pin) : list Pin := foldr insert_pin [] l.

Definition corrupt {A} (path : fspath) (reason : Reason) : sm A := sfail (CorruptPin path reason).
(** The markers in the directory of one name. *)
Fixpoint read_markers (n : name) (directory : fspath) (markers : list name) (pins : list Pin) : sm (list Pin) :=
  match markers with
  | [] => sret pins
  | marker :: markers =>
      let path := directory ++ [marker] in
      let! metadata := host (symlink_metadata path) in
      if negb (is_file metadata) then corrupt path (Text "pin marker is not a regular file")
      else
        match to_str marker with
        | None => corrupt path (Text "pin digest is not UTF-8")
        | Some encoded =>
            match from_encoded encoded with
            | Err error => corrupt path (InvalidName error)
            | Ok digest => read_markers n directory markers (pins ++ [mkPin n digest])
            end
        end
  end.
Fixpoint read_names (root : fspath) (names : list name) (pins : list Pin) : sm (list Pin) :=
  match names with
  | [] => sret pins
  | n :: names =>
      let path := root ++ [n] in
      let! metadata := host (symlink_metadata path) in
      if negb (is_dir metadata) then corrupt path (Text "pin name entry is not a directory")
      else
        match to_str n with
        | None => corrupt path (Text "pin name is not UTF-8")
        | Some n =>
            match validate_pin_name n with
            | Err _ => corrupt path (NotPinName n)
            | Ok _ =>
                let! markers := host (read_dir path) in
                let! pins := read_markers n path markers pins in
                read_names root names pins
            end
        end
  end.
Definition read_pins (root : fspath) : sm (list Pin) :=
  let! names := host (read_dir root) in
  let! pins := read_names root names [] in
  sret (sort_pins pins).

Definition pin (store : Inner) (n : name) (d : Sha256Digest) : sm () :=
  let! _ := sread (λ _, validate_pin_name n) in
  let! present := blob_is_regular_file (blob_path store d) in
  if negb present then sfail (BlobNotFound d)
  else
    let pin_directory := pins_dir store ++ [n] in
    let! _ := ensure_managed_directory (pins_dir store) pin_directory in
    let path := pin_directory ++ [encoded d] in
    let! file := try_host (create_new FILE_MODE path) in
    match file with
    | Ok file =>
        let! _ := set_private_file_permissions file in
        let! _ := host sync in
        let! _ := sync_directory pin_directory in
        sync_directory (pins_dir store)
    | Err AlreadyExists => ensure_regular_marker path
    | Err error => sfail (StoreIo error)
    end.
Definition unpin (store : Inner) (n : name) (d : Sha256Digest) : sm bool :=
  let! _ := sread (λ _, validate_pin_name n) in
  let directory := pins_dir store ++ [n] in
  let! _ := ensure_optional_managed_directory (pins_dir store) directory in
  let path := directory ++ [encoded d] in
  let! metadata := try_host (symlink_metadata path) in
  match metadata with
  | Ok node =>
      if is_file node
      then
        let! _ := host (remove_file path) in
        let! _ := remove_directory_if_empty directory in
        let! _ := sync_directory (pins_dir store) in
        sret true
      else unsafe path "pin marker is not a regular file"
  | Err NotFound => sret false
  | Err error => sfail (StoreIo error)
  end.
Definition pins (store : Inner) : sm (list Pin) := read_pins (pins_dir store).

(** *** Leases *)

Record Lease := mkLease { lease_id : Z; released : bool }.
Definition fresh_lease_id (s : State) : Z :=
  let id := wrapping_add 64 (next_lease_id s) 1 in if id =? 0 then 1 else id.
Definition create_lease : sm Lease :=
  let! id := locked (λ s, Ok (fresh_lease_id s)) in
  let! _ := update_state (λ s, s <| next_lease_id := id |> <| leases ::= <[id := ∅]> |>) in
  sret (mkLease id false).
Definition lease_digests (id : Z) (s : State) : result StoreError (gset Sha256Digest) :=
  match leases s !! id with Some ds => Ok ds | None => Err LeaseReleased end.
Definition insert_leased (id : Z) (d : Sha256Digest) : sm () :=
  let! ds := locked (lease_digests id) in
  update_state (λ s, s <| leases ::= <[id := {[d]} ∪ ds]> |>).
Definition add_to_lease (store : Inner) (id : Z) (d : Sha256Digest) : sm () :=
  let! present := blob_is_regular_file (blob_path store d) in
  if negb present then sfail (BlobNotFound d) else insert_leased id d.
Definition remove_from_lease (id : Z) (d : Sha256Digest) : sm bool :=
  let! ds := locked (lease_digests id) in
  let! _ := update_state (λ s, s <| leases ::= <[id := ds ∖ {[d]}]> |>) in
  sret (bool_decide (d ∈ ds)).
Definition release_lease (id : Z) : sm () := update_state (λ s, s <| leases ::= delete id |>).
Definition usable {A} (l : Lease) (c : sm A) : sm A := if released l then sfail LeaseReleased else c.
Definition lease_add (store : Inner) (l : Lease) (d : Sha256Digest) : sm () := usable l (add_to_lease store (lease_id l) d).
Definition lease_remove (l : Lease) (d : Sha256Digest) : sm bool := usable l (remove_from_lease (lease_id l) d).
(** [release], and [drop] of a lease not released. *)
Definition release (l : Lease) : sm () := if released l then sret () else release_lease (lease_id l).
Definition drop_lease (l : Lease) : sm () := if released l then sret () else release_lease (lease_id l).

(** *** Collection *)

Fixpoint collect (store : Inner) (marked : gset Sha256Digest) (dry_run : bool) (names : list name) (r : GcReport)
    : sm GcReport :=
  match names with
  | [] => sret r
  | n :: names =>
      let! blob := blob_entry (blobs store) n in
      if bool_decide (blob.1 ∈ marked)
      then collect store marked dry_run names (r <| kept_blobs ::= λ k, saturating_add 64 k 1 |>)
      else
        let r := r <| removed_blobs ::= λ k, saturating_add 64 k 1 |>
                   <| reclaimed_bytes ::= λ k, saturating_add 64 k blob.2 |> in
        let! _ :=
          if dry_run then sret ()
          else
            let! _ := host (remove_file (blobs store ++ [n])) in
            update_state (remove_committed_blob blob.1) in
        collect store marked dry_run names r
  end.
(** The digests in any lease. *)
Definition leased (s : State) : gset Sha256Digest := map_fold (λ _ ds all, ds ∪ all) ∅ (leases s).
(** Once the roots are known. *)
Definition sweep (store : Inner) (dry_run : bool) (marked : gset Sha256Digest) : sm GcReport :=
  let! names := host (read_dir (blobs store)) in
  let! r := collect store marked dry_run names (mkGcReport (Z.min (Z.of_nat (base.size marked)) (2 ^ 64 - 1)) 0 0 0) in
  let! _ := if (0 <? removed_blobs r) && negb dry_run then sync_directory (blobs store) else sret () in
  sret r.
Definition garbage_collect_with_roots (store : Inner) (additional_roots : list Sha256Digest) (dry_run : bool) : sm GcReport :=
  let! pinned := read_pins (pins_dir store) in
  let! leased := locked (λ s, Ok (leased s)) in
  sweep store dry_run (list_to_set additional_roots ∪ list_to_set (pin_digest <$> pinned) ∪ leased).
Definition garbage_collect (store : Inner) (dry_run : bool) : sm GcReport := garbage_collect_with_roots store [] dry_run.

(** *** Ingestion *)

Definition preflight_committed_quota (store : Inner) (b : BlobDescriptor) : sm () :=
  locked (λ s,
    match committed_blobs s !! digest b with
    | Some _ => Ok ()
    | None => ensure_committed_capacity (max_committed_bytes store) (blob_size b) s
    end).
(** Up to the temporary file. *)
Definition ingest_begin (store : Inner) (expected : option BlobDescriptor) : sm (fspath * Z) :=
  let! _ :=
    match expected with
    | None => sret ()
    | Some e =>
        if max_blob_size store <? blob_size e then sfail (BlobTooLarge (max_blob_size store) (blob_size e))
        else preflight_committed_quota store e
    end in
  create_temporary_file (temporary_dir store).
(** The loop that copies; [remaining] is what [Read::take] still lets through. *)
Fixpoint copy_blob (store : Inner) (expected : option BlobDescriptor) (file remaining total : Z) (bytes : list Z)
    (reads : list (option (list Z))) : sm (list Z * Z) :=
  if remaining =? 0 then sret (bytes, total)
  else
    match reads with
    | [] => sret (bytes, total)
    | None :: _ => sfail (StoreIo OtherError)
    | Some chunk :: reads =>
        let chunk := take (Z.to_nat remaining) chunk in
        if bool_decide (chunk = []) then sret (bytes, total)
        else
          match checked_add 64 total (len chunk) with
          | None => sfail (BlobTooLarge (max_blob_size store) (2 ^ 64 - 1))
          | Some total =>
              if max_blob_size store <? total then sfail (BlobTooLarge (max_blob_size store) total)
              else
                let! _ :=
                  match expected with
                  | Some e => if blob_size e <? total then sfail (SizeMismatch (blob_size e) total) else sret ()
                  | None => sret ()
                  end in
                let! _ := host (write_all file chunk) in
                copy_blob store expected file (remaining - len chunk) total (bytes ++ chunk) reads
          end
    end.
Definition ingest_copy (store : Inner) (expected : option BlobDescriptor) (file : Z) (reads : list (option (list Z)))
    : sm (list Z * Z) :=
  let expected_limit := match expected with Some e => blob_size e | None => max_blob_size store end in
  copy_blob store expected file (saturating_add 64 expected_limit 1) 0 [] reads.
Definition commit_temporary (store : Inner) (temporary : fspath) (b : BlobDescriptor) (lease : option Z) : sm () :=
  let! _ :=
    match lease with
    | Some id => let! _ := locked (lease_digests id) in sret ()
    | None => sret ()
    end in
  let final_path := blob_path store (digest b) in
  let! found := try_host (symlink_metadata final_path) in
  let! _ :=
    match found with
    | Ok _ => let! _ := verify_blob_file final_path b in update_state (observe_committed_blob b)
    | Err NotFound =>
        let! _ := locked (λ s,
          match committed_blobs s !! digest b with
          | Some _ => Ok ()
          | None => ensure_committed_capacity (max_committed_bytes store) (blob_size b) s
          end) in
        let! renamed := try_host (rename temporary final_path) in
        match renamed with
        | Ok _ => let! _ := update_state (observe_committed_blob b) in sync_directory (blobs store)
        | Err rename_error =>
            let! found := try_host (symlink_metadata final_path) in
            match found with
            | Ok _ => let! _ := verify_blob_file final_path b in update_state (observe_committed_blob b)
            | Err _ => sfail (StoreIo rename_error)
            end
        end
    | Err error => sfail (StoreIo error)
    end in
  match lease with Some id => insert_leased id (digest b) | None => sret () end.
Definition ingest_finish (store : Inner) (expected : option BlobDescriptor) (lease : option Z) (temporary : fspath)
    (copied : list Z * Z) : sm BlobDescriptor :=
  let b := mkDescriptor (calculate copied.1) copied.2 in
  let! _ :=
    match expected with
    | Some e =>
        if negb (blob_size e =? copied.2) then sfail (SizeMismatch (blob_size e) copied.2)
        else if bool_decide (digest e = digest b) then sret ()
        else sfail (DigestMismatch (digest e) (digest b))
    | None => sret ()
    end in
  let! _ := host sync in
  let! _ := commit_temporary store temporary b lease in
  sret b.
(** [TemporaryGuard]: the file is removed whatever happens. *)
Definition with_guard {A} (temporary : fspath) (c : sm A) : sm A := λ w,
  let '(r, w) := c w in let '(_, w) := try_host (remove_file temporary) w in (r, w).
Definition ingest_inner (store : Inner) (reads : list (option (list Z))) (expected : option BlobDescriptor)
    (lease : option Z) : sm BlobDescriptor :=
  let! created := ingest_begin store expected in
  let '(temporary, file) := created in
  with_guard temporary
    (let! copied := ingest_copy store expected file reads in
     ingest_finish store expected lease temporary copied).
Definition ingest (store : Inner) (reads : list (option (list Z))) : sm BlobDescriptor := ingest_inner store reads None None.
Definition ingest_verified (store : Inner) (reads : list (option (list Z))) (expected : BlobDescriptor) : sm BlobDescriptor :=
  ingest_inner store reads (Some expected) None.
Definition ingest_bytes (store : Inner) (bytes : list Z) : sm BlobDescriptor := ingest store [Some bytes].
Definition ingest_bytes_verified (store : Inner) (bytes : list Z) (expected : BlobDescriptor) : sm BlobDescriptor :=
  ingest_verified store [Some bytes] expected.
Definition lease_ingest (store : Inner) (l : Lease) (reads : list (option (list Z))) : sm BlobDescriptor :=
  usable l (ingest_inner store reads None (Some (lease_id l))).
Definition lease_ingest_verified (store : Inner) (l : Lease) (reads : list (option (list Z))) (expected : BlobDescriptor)
    : sm BlobDescriptor := usable l (ingest_inner store reads (Some expected) (Some (lease_id l))).
End store.
