(* ===== verification/ContentSafety.v ===== *)
(** What the content store guarantees: facts and triples about [Content], and the
    invariant that every operation preserves. The theorems are in [ContentTheorems]. *)
From stdpp Require Import strings gmap.
From S2P Require Import Prelude.
From S2P Require Import Text.
From S2P Require Import Filesystem.
From S2P Require Import Layer.
From S2P Require Import Content.
Local Open Scope Z_scope.

(** ** Digests *)

Lemma hex_digit_nibble n index : 0 ≤ n < 16 → hex_nibble (hex_digit n) index = Ok n.
Proof.
  intros Hn. unfold hex_nibble, hex_digit. destruct (Z.ltb_spec n 10).
  - replace ((48 <=? 48 + n) && (48 + n <=? 57)) with true by lia. f_equal. lia.
  - replace ((48 <=? 87 + n) && (87 + n <=? 57)) with false by lia.
    replace ((97 <=? 87 + n) && (87 + n <=? 102)) with true by lia. f_equal. lia.
Qed.
Lemma nibbles b : word 8 b → 0 ≤ b ≫ 4 < 16 ∧ 0 ≤ b .& 15 < 16 ∧ ((b ≫ 4) ≪ 4) .| (b .& 15) = b.
Proof.
  intros [Hl Hh]. split; [|split].
  - rewrite Z.shiftr_div_pow2 by lia. split; [apply Z.div_pos; lia|]. apply Z.div_lt_upper_bound; lia.
  - change 15 with (Z.ones 4). rewrite Z.land_ones by lia. by apply Z.mod_pos_bound.
  - rewrite Z.lor_comm, lor_shiftl by (try done; change 15 with (Z.ones 4); rewrite Z.land_ones by done; by apply Z.mod_pos_bound).
    change 15 with (Z.ones 4). rewrite Z.land_ones, Z.shiftr_div_pow2 by done. pose proof (Z.div_mod b (2 ^ 4)). lia.
Qed.
Lemma from_pairs_encoded d : ∀ index, Forall (word 8) d → from_pairs index (encoded d) = Ok d.
Proof.
  induction d as [|b d IH]; intros index Hd; [done|]. apply Forall_cons in Hd as [Hb Hd].
  destruct (nibbles b Hb) as (Hh & Hl & E). unfold encoded. cbn [fmap list_fmap concat hex_byte app from_pairs].
  rewrite !hex_digit_nibble by done. cbn [rbind]. fold (encoded d). rewrite IH by done. cbn [rbind]. by rewrite E.
Qed.
Lemma len_encoded d : len (encoded d) = 2 * len d.
Proof. unfold encoded, len. induction d as [|b d IH]; [done|]. cbn in *. lia. Qed.
(** The name of a blob stands for its digest. *)
Lemma from_encoded_encoded d : digest_ok d → from_encoded (encoded d) = Ok d.
Proof.
  intros [Hl Hd]. unfold from_encoded. rewrite len_encoded, Hl. by apply from_pairs_encoded.
Qed.
Lemma encoded_inj d e : digest_ok d → digest_ok e → encoded d = encoded e → d = e.
Proof. intros Hd%from_encoded_encoded He%from_encoded_encoded E. rewrite E in Hd. congruence. Qed.
Lemma hex_digit_ascii n : 0 ≤ n < 16 → hex_digit n < 0x80.
Proof. unfold hex_digit. intros Hn. destruct (n <? 10); lia. Qed.
Lemma encoded_utf8 d : Forall (word 8) d → utf8_valid (encoded d) = true.
Proof.
  induction d as [|b d IH]; intros Hd; [done|]. apply Forall_cons in Hd as [Hb Hd].
  destruct (nibbles b Hb) as (Hh & Hl & _). apply hex_digit_ascii in Hh, Hl. unfold encoded.
  cbn [fmap list_fmap concat hex_byte app]. fold (encoded d). cbn [utf8_valid].
  replace (hex_digit (b ≫ 4) <? 128) with true by lia. replace (hex_digit (b .& 15) <? 128) with true by lia. by apply IH.
Qed.
Lemma to_str_encoded d : digest_ok d → to_str (encoded d) = Some (encoded d).
Proof. intros [_ Hd]. unfold to_str. by rewrite encoded_utf8. Qed.

(** ** Sizes *)

Definition total (m : gmap Sha256Digest Z) : Z := map_fold (λ _ s n, s + n) 0 m.
Lemma total_insert m d s : m !! d = None → total (<[d := s]> m) = s + total m.
Proof. intros Hd. unfold total. rewrite map_fold_insert_L; [done| |done]. intros. lia. Qed.
Lemma total_delete m d s : m !! d = Some s → total m = s + total (delete d m).
Proof. intros Hd. rewrite <- (insert_id m d s) at 1 by done. rewrite <- insert_delete_eq. apply total_insert, lookup_delete_eq. Qed.
Lemma total_sizes_nonneg m : map_Forall (λ _ s, 0 ≤ s) m → 0 ≤ total m.
Proof.
  induction m as [|d s m Hd IH] using map_ind; [done|]. rewrite map_Forall_insert by done. intros [Hs Hm].
  rewrite total_insert by done. specialize (IH Hm). lia.
Qed.

(** ** Layout *)

Definition apart (a b : fspath) : Prop := ¬ a `prefix_of` b ∧ ¬ b `prefix_of` a.
Lemma apart_comm a b : apart a b → apart b a.
Proof. intros []. by split. Qed.
(** What is below one of two directories apart is apart from the other. *)
Lemma apart_below a b x : apart a b → a `prefix_of` x → apart x b.
Proof.
  intros [Hab Hba] Hx. split; intros H; [apply Hab; by etrans|]. by destruct (prefix_weak_total a b x Hx H).
Qed.
Record layout (store : Inner) : Prop := mk_layout {
  la_tmp : apart (blobs store) (temporary_dir store);
  la_pins : apart (blobs store) (pins_dir store);
  la_both : apart (temporary_dir store) (pins_dir store)
}.

(** ** The invariant *)

(** The ingestions under way: their temporary file and what has been written to it. *)
Abbreviation inflight := (gmap fspath (Z * list Z)).
Record inodes_ok (f : Fs) : Prop := mk_inodes_ok {
  io_next : ∀ i, is_Some (inodes f !! i) → i < next_inode f;
  io_node : ∀ p i, nodes f !! p = Some (Regular i) → is_Some (inodes f !! i)
}.
Create HintDb steady.
(** ** Growth *)

(** No blob is lost, and only the one lease changes, to name more. *)
Definition grown (lease : option Z) (s s' : State) : Prop :=
  committed_blobs s ⊆ committed_blobs s' ∧
  (∀ id ds, leases s !! id = Some ds → ∃ ds', leases s' !! id = Some ds' ∧ ds ⊆ ds') ∧
  ∀ id, lease ≠ Some id → leases s' !! id = leases s !! id.
#[export] Instance grown_preorder lease : PreOrder (grown lease).
Proof.
  split; [intros s; split_and!; eauto|]. intros s s' s'' (H1 & H2 & H3) (H4 & H5 & H6). split; [by etrans|]. split.
  - intros id ds Hi. destruct (H2 id ds Hi) as (ds' & Hi' & ?). destruct (H5 id ds' Hi') as (ds'' & ? & ?). exists ds''. split; [done|set_solver].
  - intros id Hn. by rewrite H6, H3.
Qed.
(** The lease names the blob. *)
Definition names_blob (lease : option Z) (d : Sha256Digest) (s : State) : Prop :=
  match lease with Some id => ∃ ds, leases s !! id = Some ds ∧ d ∈ ds | None => True end.
Lemma names_grown lease lease' d s s' : names_blob lease d s → grown lease' s s' → names_blob lease d s'.
Proof. destruct lease as [id|]; [|done]. intros (ds & Hi & Hd) (_ & Hg & _). destruct (Hg id ds Hi) as (ds' & ? & ?). exists ds'. split; [done|set_solver]. Qed.
Lemma observe_grown lease b s : committed_blobs s !! digest b = None → grown lease s (observe_committed_blob b s).
Proof. intros Hn. unfold observe_committed_blob. rewrite Hn. split; [by apply insert_subseteq|]. cbn. eauto. Qed.

Section store.
Context `{Host} (store : Inner) (quota : Z).
(** The blob of a digest is a file with this content. *)
Definition stored (f : Fs) (d : Sha256Digest) (bytes : list Z) : Prop :=
  ∃ i x, nodes f !! blob_path store d = Some (Regular i) ∧ inodes f !! i = Some x ∧ content x = bytes.
Record sound (fl : inflight) (w : World) : Prop := mk_sound {
  so_tree : tree_ok (nodes (disk w));
  so_inodes : inodes_ok (disk w);
  so_blobs : real (nodes (disk w)) (blobs store);
  so_tmp : real (nodes (disk w)) (temporary_dir store);
  so_pins : real (nodes (disk w)) (pins_dir store);
  so_stored : ∀ d s, committed_blobs (guarded w) !! d = Some s →
    digest_ok d ∧ ∃ bytes, stored (disk w) d bytes ∧ calculate bytes = d ∧ len bytes = s;
  so_only : ∀ n, is_Some (nodes (disk w) !! (blobs store ++ [n])) →
    ∃ d, n = encoded d ∧ is_Some (committed_blobs (guarded w) !! d);
  so_bytes : committed_bytes (guarded w) = total (committed_blobs (guarded w)) ∧ committed_bytes (guarded w) ≤ quota;
  so_leased : ∀ id ds d, leases (guarded w) !! id = Some ds → d ∈ ds → is_Some (committed_blobs (guarded w) !! d);
  so_pinned : ∀ n m, is_Some (nodes (disk w) !! (pins_dir store ++ [n; m])) →
    ∃ d, m = encoded d ∧ is_Some (committed_blobs (guarded w) !! d);
  so_temp : ∀ p i bytes, fl !! p = Some (i, bytes) → (∃ n, p = temporary_dir store ++ [n]) ∧
    nodes (disk w) !! p = Some (Regular i) ∧ (∃ x, inodes (disk w) !! i = Some x ∧ content x = bytes) ∧
    ∀ q, nodes (disk w) !! q = Some (Regular i) → q = p
}.

(** The same tree, files and state. *)
Definition same (w w' : World) : Prop :=
  nodes (disk w') = nodes (disk w) ∧ inodes (disk w') = inodes (disk w) ∧ next_inode (disk w') = next_inode (disk w) ∧
  guarded w' = guarded w.
Definition steady (P : World → Prop) : Prop := ∀ w w', P w → same w w' → P w'.
Lemma sound_steady fl : steady (sound fl).
Proof.
  intros w w' [T [X N] B M P St On By Le Pi Te] (En & Ei & Ex & Eg). split; rewrite ?En, ?Eg; try done.
  - split; [by rewrite Ei, Ex|by rewrite En, Ei].
  - intros d s Hd. destruct (St d s Hd) as (Ho & bytes & (i & x & H1 & H2 & H3) & H4). split; [done|]. exists bytes.
    split; [|done]. exists i, x. by rewrite En, Ei.
  - intros p i bytes Hp. rewrite Ei. by apply Te.
Qed.

(** ** Changes *)

Context (L : layout store) (Hquota : max_committed_bytes store ≤ quota < 2 ^ 64).
(** Strictly below the directory of pins or that of temporary files. *)
Definition scratch (q : fspath) : Prop :=
  (temporary_dir store `prefix_of` q ∧ q ≠ temporary_dir store) ∨ (pins_dir store `prefix_of` q ∧ q ≠ pins_dir store).
Lemma scratch_apart q : scratch q → apart q (blobs store).
Proof. intros [[Hq _]|[Hq _]]; (eapply apart_below; [|done]); apply apart_comm, L. Qed.
Lemma scratch_above q D : scratch q → D ∈ [blobs store; temporary_dir store; pins_dir store] → ¬ q `prefix_of` D.
Proof.
  intros Hs HD Hq. set_unfold in HD. destruct HD as [->|[->|[->|[]]]].
  - by destruct (scratch_apart q Hs).
  - destruct Hs as [[Ht Hne]|[Hp _]]; [by apply Hne, (anti_symm (prefix (A := name)))|].
    destruct (apart_below _ _ _ (apart_comm _ _ (la_both _ L)) Hp) as [Ha _]. by apply Ha.
  - destruct Hs as [[Ht _]|[Hp Hne]]; [|by apply Hne, (anti_symm (prefix (A := name)))].
    destruct (apart_below _ _ _ (la_both _ L) Ht) as [Ha _]. by apply Ha.
Qed.
Lemma scratch_blob q n : scratch q → blobs store ++ [n] ≠ q.
Proof. intros Hs <-. destruct (scratch_apart _ Hs) as [_ Ha]. apply Ha. by exists [n]. Qed.
Lemma temp_scratch n : scratch (temporary_dir store ++ [n]).
Proof. left. split; [by exists [n]|]. intros E%(f_equal length). rewrite length_app in E. cbn in E. lia. Qed.
Lemma pin_scratch n k : scratch (pins_dir store ++ n :: k).
Proof. right. split; [by exists (n :: k)|]. intros E%(f_equal length). rewrite length_app in E. cbn in E. lia. Qed.

(** One node below the pins or the temporary files changes. *)
Lemma sound_leaf fl w q f' : sound fl w → scratch q → fl !! q = None →
  (∀ p, p ≠ q → nodes f' !! p = nodes (disk w) !! p) → tree_ok (nodes f') → inodes_ok f' →
  (∀ i x, inodes (disk w) !! i = Some x → inodes f' !! i = Some x) →
  (∀ i p bytes, nodes f' !! q = Some (Regular i) → fl !! p = Some (i, bytes) → False) →
  (∀ n m, q = pins_dir store ++ [n; m] → is_Some (nodes f' !! q) →
     ∃ d, m = encoded d ∧ is_Some (committed_blobs (guarded w) !! d)) →
  sound fl (w <| disk := f' |>).
Proof.
  intros [T I B M P St On By Le Pi Te] Hs Hf Hn HT HI Hx Hi Hp.
  assert (∀ D, D ∈ [blobs store; temporary_dir store; pins_dir store] → real (nodes (disk w)) D → real (nodes f') D) as HD.
  { intros D HD Hr p Hpre. rewrite Hn; [by apply Hr|]. intros ->. by apply (scratch_above q D). }
  split; cbn; try done; try (apply HD; [set_solver|done]).
  - intros d s Hd. destruct (St d s Hd) as (Ho & bytes & (i & x & H1 & H2 & H3) & H4). split; [done|]. exists bytes.
    split; [|done]. exists i, x. split; [|split; [by apply Hx|done]]. rewrite Hn; [done|by apply scratch_blob].
  - intros n Hb. apply On. by rewrite <- Hn by (by apply scratch_blob).
  - intros n m Hb. destruct (decide (pins_dir store ++ [n; m] = q)) as [E|Hne]; [apply (Hp n); congruence|].
    apply (Pi n). by rewrite <- Hn.
  - intros p i bytes Hpi. destruct (Te p i bytes Hpi) as (Hp1 & Hp2 & (x & Hp3 & Hp4) & Hp5). split; [done|].
    split; [rewrite Hn; [done|congruence]|]. split; [exists x; split; [by apply Hx|done]|].
    intros q' Hq'. destruct (decide (q' = q)) as [->|Hne]; [by destruct (Hi _ _ _ Hq' Hpi)|]. rewrite Hn in Hq' by done. by apply Hp5.
Qed.
(** The contents of files change, those of temporary files as recorded. *)
Lemma sound_content fl fl' w f' : sound fl w → nodes f' = nodes (disk w) → next_inode f' = next_inode (disk w) →
  (∀ j, is_Some (inodes f' !! j) ↔ is_Some (inodes (disk w) !! j)) →
  (∀ p j bytes', fl' !! p = Some (j, bytes') → (∃ bytes, fl !! p = Some (j, bytes)) ∧ ∃ x, inodes f' !! j = Some x ∧ content x = bytes') →
  (∀ j x, inodes (disk w) !! j = Some x → (∀ p bytes, fl !! p ≠ Some (j, bytes)) → ∃ x', inodes f' !! j = Some x' ∧ content x' = content x) →
  sound fl' (w <| disk := f' |>).
Proof.
  intros [T [X N] B M P St On By Le Pi Te] En Ex Hdom Hfl Hc. split; cbn; rewrite ?En; try done.
  - split; [intros i Hi; rewrite Ex; by apply X, Hdom|intros p i Hi; apply Hdom; rewrite En in Hi; by eapply N].
  - intros d s Hd. destruct (St d s Hd) as (Ho & bytes & (i & x & H1 & H2 & H3) & H4). split; [done|]. exists bytes.
    split; [|done]. destruct (Hc i x H2) as (x' & Hx' & Ec); [|exists i, x'; rewrite En; split; [done|]; split; [done|congruence]].
    intros p b Hp. destruct (Te _ _ _ Hp) as ([n ->] & _ & _ & Hq). specialize (Hq _ H1).
    by apply (scratch_blob _ (encoded d) (temp_scratch n)).
  - intros p i bytes Hp. destruct (Hfl _ _ _ Hp) as [[b Hb] Hx]. destruct (Te _ _ _ Hb) as (H1 & H2 & _ & H3). done.
Qed.

(** ** Calls *)

Definition call_of {A} (P : World → Prop) (Q : result IoError A → World → Prop) (c : st Fs IoError A) : Prop :=
  ∀ w, P w → let '(r, f') := c (disk w) in Q r (w <| disk := f' |>).
Lemma try_ensures {A} (J P : World → Prop) (Q : result IoError A → World → Prop) c : call_of P Q c → ensures J P (try_host c) Q.
Proof. intros Hc w Hw. unfold try_host. specialize (Hc w Hw). by destruct (c (disk w)). Qed.
Lemma host_ensures {A} (J P : World → Prop) (Q : A → World → Prop) c :
  call_of P (λ r w, match r with Ok a => Q a w | Err _ => J w end) c → ensures J P (host c) Q.
Proof. intros Hc w Hw. unfold host. specialize (Hc w Hw). by destruct (c (disk w)) as [[]]. Qed.
(** A call on a path that leads to itself. *)
Lemma path_call {A} p (c : fspath → st Fs IoError A) (P : World → Prop) (Q : result IoError A → World → Prop) :
  steady P → (∀ w, P w → resolve (nodes (disk w)) p = Ok p) → (∀ w, P w → Q (Err OtherError) w) → call_of P Q (c p) →
  call_of P Q (at_path p c).
Proof.
  intros Hs Hr Ho Hc w Hw. destruct (at_cases p c (disk w)) as [l [E|E]]; rewrite E.
  - apply Ho. eapply Hs; [done|]. by split_and!.
  - rewrite Hr by done. assert (P (w <| disk := (disk w) <| faults := l |> |>)) as Hl by (eapply Hs; [done|]; by split_and!).
    specialize (Hc _ Hl). cbn [disk] in Hc. by destruct (c p _) as [r f'].
Qed.
Lemma plain_call_of {A} (c : st Fs IoError A) (P : World → Prop) (Q : result IoError A → World → Prop) :
  steady P → (∀ w, P w → Q (Err OtherError) w) → call_of P Q c → call_of P Q (call c).
Proof.
  intros Hs Ho Hc w Hw. destruct (call_cases c (disk w)) as [l [E|E]]; rewrite E.
  - apply Ho. eapply Hs; [done|]. by split_and!.
  - assert (P (w <| disk := (disk w) <| faults := l |> |>)) as Hl by (eapply Hs; [done|]; by split_and!).
    specialize (Hc _ Hl). cbn [disk] in Hc. by destruct (c _) as [r f'].
Qed.
Lemma steady_and P Q : steady P → steady Q → steady (λ w, P w ∧ Q w).
Proof. intros HP HQ w w' [] Hs. split; [by eapply HP|by eapply HQ]. Qed.

Lemma ensures_given {A} (J : World → Prop) (φ : Prop) (P : World → Prop) (c : sm A) Q : (∀ w, P w → φ) → (φ → ensures J P c Q) → ensures J P c Q.
Proof. intros HP Hc w Hw. by apply Hc; [eapply HP|]. Qed.
(** Calls that only look. *)
Section looking.
Context (J P : World → Prop) (HS : steady P) (HJ : ∀ w, P w → J w) (p : fspath)
  (HR : ∀ w, P w → resolve (nodes (disk w)) p = Ok p).
Definition at_node (node : option Node) (w : World) : Prop := P w ∧ nodes (disk w) !! p = node.
Lemma try_metadata : ensures J P (try_host (symlink_metadata p))
  (λ r w, P w ∧ match r with Ok node => nodes (disk w) !! p = Some node | Err NotFound => nodes (disk w) !! p = None | Err _ => True end).
Proof.
  apply try_ensures, path_call; [done|done|done|]. intros w Hw. destruct (nodes (disk w) !! p) eqn:E; cbn; (split; [by destruct w|done]).
Qed.
Lemma host_metadata : ensures J P (host (symlink_metadata p)) (λ node, at_node (Some node)).
Proof.
  apply host_ensures, path_call; [done|done|done|]. intros w Hw. unfold at_node.
  destruct (nodes (disk w) !! p) eqn:E; cbn; [split; [by destruct w|done]|apply HJ; by destruct w].
Qed.
Lemma try_open : ensures J P (try_host (open_no_follow p))
  (λ r w, P w ∧ match r with Ok node => nodes (disk w) !! p = Some node | Err NotFound => nodes (disk w) !! p = None | Err _ => True end).
Proof.
  apply try_ensures, path_call; [done|done|done|]. intros w Hw.
  destruct (nodes (disk w) !! p) as [[]|] eqn:E; cbn; (split; [by destruct w|done]).
Qed.
Lemma host_read_dir : ensures J P (host (read_dir p))
  (λ names w, P w ∧ names = children p (nodes (disk w))).
Proof.
  apply host_ensures, path_call; [done|done|done|]. intros w Hw.
  destruct (nodes (disk w) !! p) as [[]|] eqn:E; cbn; [split; [by destruct w|done]|apply HJ; by destruct w..].
Qed.
Lemma assert_real : ensures J P (assert_real_directory p) (λ _ w, P w ∧ ∃ m, nodes (disk w) !! p = Some (Dir m)).
Proof.
  eapply ensures_bind; [apply host_metadata|]. intros [m| |]; cbn.
  - apply ensures_ret. intros w [Hw E]. split; [done|by exists m].
  - apply ensures_fail. intros w [Hw _]. by apply HJ.
  - apply ensures_fail. intros w [Hw _]. by apply HJ.
Qed.
End looking.
Lemma host_quiet {A} (J P : World → Prop) (a : A) : steady P → (∀ w, P w → J w) → ensures J P (host (call (sret a))) (λ b w, P w ∧ b = a).
Proof. intros HS HJ. apply host_ensures, plain_call_of; [done|done|]. intros w Hw. cbn. split; [by destruct w|done]. Qed.
Lemma host_sync (J P : World → Prop) : steady P → (∀ w, P w → J w) → ensures J P (host sync) (λ _, P).
Proof. intros HS HJ. eapply ensures_conseq; [by apply host_quiet|done|by intros ? w []]. Qed.
Lemma host_read_file (J P : World → Prop) i : steady P → (∀ w, P w → J w) →
  ensures J P (host (read_file i)) (λ bytes w, P w ∧ bytes = file_content i (disk w)).
Proof. intros HS HJ. apply host_ensures, plain_call_of; [done|done|]. intros w Hw. cbn. split; [by destruct w|done]. Qed.
Lemma look_ensures {A} (J P : World → Prop) (g : World → result StoreError A) : (∀ w, P w → J w) →
  ensures J P (sread g) (λ a w, P w ∧ g w = Ok a).
Proof. intros HJ w Hw. unfold sread. destruct (g w) eqn:E; [done|by apply HJ]. Qed.

Lemma steady_node p x : steady (λ w, nodes (disk w) !! p = x).
Proof. intros w w' E (N & _). by rewrite N. Qed.
Lemma steady_state (φ : State → Prop) : steady (λ w, φ (guarded w)).
Proof. intros w w' E (_ & _ & _ & G). by rewrite G. Qed.
Lemma steady_content i (φ : list Z → Prop) : steady (λ w, φ (file_content i (disk w))).
Proof. intros w w' E (_ & I & _). unfold file_content in *. by rewrite I. Qed.
Lemma steady_pure (φ : Prop) : steady (λ _, φ).
Proof. by intros w w' E _. Qed.
Lemma steady_nodes (φ : gmap fspath Node → Prop) : steady (λ w, φ (nodes (disk w))).
Proof. intros w w' E (N & _). by rewrite N. Qed.
Hint Resolve sound_steady steady_and steady_node steady_state steady_content steady_pure steady_nodes : steady.

Section blob.
Context (J P : World → Prop) (HS : steady P) (HJ : ∀ w, P w → J w)
  (HR : ∀ w, P w → real (nodes (disk w)) (blobs store)).
Lemma blob_resolves n w : P w → resolve (nodes (disk w)) (blobs store ++ [n]) = Ok (blobs store ++ [n]).
Proof. intros Hw. by apply resolve_leaf, HR. Qed.
Lemma is_regular_ensures d : ensures J P (blob_is_regular_file (blob_path store d))
  (λ present w, P w ∧ (present = true → ∃ i, nodes (disk w) !! blob_path store d = Some (Regular i))).
Proof.
  eapply ensures_bind; [apply try_open; [done|apply blob_resolves]|]. intros [node|[]].
  2: { apply ensures_ret. by intros w []. }
  2-5: apply ensures_fail; intros w []; by apply HJ.
  eapply ensures_bind; [apply host_quiet; [by auto with steady|by intros w []; apply HJ]|]. intros metadata.
  apply ensures_pure. intros ->. destruct node as [m|i|t]; cbn.
  - apply ensures_fail. intros w []. by apply HJ.
  - apply ensures_ret. intros w [Hw E]. split; [done|]. intros _. by exists i.
  - apply ensures_fail. intros w []. by apply HJ.
Qed.
Lemma verify_ensures b : (∀ w, P w → inodes_ok (disk w)) → ensures J P (verify_blob_file (blob_path store (digest b)) b)
  (λ _ w, P w ∧ ∃ bytes, stored (disk w) (digest b) bytes ∧ calculate bytes = digest b ∧ len bytes = blob_size b).
Proof.
  intros HI. eapply ensures_bind; [apply try_open; [done|apply blob_resolves]|]. intros [node|[]].
  2-6: apply ensures_fail; intros w []; by apply HJ.
  eapply ensures_bind; [apply host_quiet; [by auto with steady|by intros w []; apply HJ]|]. intros metadata.
  apply ensures_pure. intros ->. destruct node as [m|i|t]; [apply ensures_fail; intros w []; by apply HJ| |apply ensures_fail; intros w []; by apply HJ].
  eapply ensures_bind; [apply look_ensures; intros w []; by apply HJ|]. intros found.
  destruct (Z.eqb_spec found (blob_size b)) as [->|]; [|apply ensures_fail; intros w [[] _]; by apply HJ]. cbn [negb].
  eapply (ensures_bind _ _ _ (λ bytes w, (P w ∧ nodes (disk w) !! blob_path store (digest b) = Some (Regular i)) ∧
    len (file_content i (disk w)) = blob_size b ∧ bytes = file_content i (disk w))).
  { eapply ensures_conseq; [apply (host_read_file J (λ w, (P w ∧ nodes (disk w) !! blob_path store (digest b) = Some (Regular i)) ∧
      len (file_content i (disk w)) = blob_size b))| |].
    - apply steady_and; [by auto with steady|]. apply (steady_content i (λ c, len c = blob_size b)).
    - intros w [[] _]. by apply HJ.
    - intros w [H1 H2]. by simplify_eq.
    - intros bytes w [[] ->]. done. }
  intros bytes. case_bool_decide as Hd; [|apply ensures_fail; intros w [[] _]; by apply HJ].
  apply ensures_ret. intros w ([Hw E] & Hl & Eb). split; [done|]. exists bytes. subst bytes. split; [|done].
  destruct (io_node _ (HI w Hw) _ _ E) as [x Hx]. exists i, x. split; [done|]. split; [done|]. unfold file_content. by rewrite Hx.
Qed.
Lemma blob_entry_ensures n : ensures J P (blob_entry (blobs store) n)
  (λ blob w, P w ∧ from_encoded n = Ok blob.1 ∧ ∃ i, nodes (disk w) !! (blobs store ++ [n]) = Some (Regular i) ∧
     blob.2 = len (file_content i (disk w))).
Proof.
  eapply ensures_bind; [apply host_metadata; [done|done|apply blob_resolves]|]. intros [m|i|t].
  1,3: apply ensures_fail; intros w []; by apply HJ.
  unfold to_str. destruct (utf8_valid n); [|apply ensures_fail; intros w []; by apply HJ].
  destruct (from_encoded n) as [d|e]; [|apply ensures_fail; intros w []; by apply HJ].
  eapply ensures_bind; [apply look_ensures; intros w []; by apply HJ|]. intros size. apply ensures_ret.
  intros w [[Hw E] [= <-]]. split; [done|]. split; [done|]. by exists i.
Qed.
End blob.

(** ** Directories and files of the store *)

Section changing.
Context (fl : inflight).
Abbreviation J := (sound fl).
(** A name may be put in the directories of pins and temporary files; a marker only for a blob. *)
Definition admitted (q : fspath) (w : World) : Prop :=
  ∀ n m, q = pins_dir store ++ [n; m] → ∃ d, m = encoded d ∧ is_Some (committed_blobs (guarded w) !! d).
Lemma absent_idle q w : J w → nodes (disk w) !! q = None → fl !! q = None.
Proof. intros Hw Hq. destruct (fl !! q) as [[i bytes]|] eqn:E; [|done]. destruct (so_temp _ _ Hw _ _ _ E) as (_ & E' & _). congruence. Qed.
Lemma steady_admitted q : steady (admitted q).
Proof. apply (steady_state (λ s, ∀ n m, q = pins_dir store ++ [n; m] → ∃ d, m = encoded d ∧ is_Some (committed_blobs s !! d))). Qed.
Lemma steady_real p : steady (λ w, real (nodes (disk w)) p).
Proof. apply (steady_nodes (λ t, real t p)). Qed.
Hint Resolve steady_admitted steady_real : steady.

Lemma create_dir_ensures p n : scratch (p ++ [n]) →
  ensures J (λ w, (J w ∧ real (nodes (disk w)) p) ∧ admitted (p ++ [n]) w) (host (create_dir (p ++ [n])))
    (λ _ w, J w ∧ real (nodes (disk w)) (p ++ [n])).
Proof.
  intros Hs. apply host_ensures, path_call; [by auto with steady|intros w [[] _]; by apply resolve_leaf|by intros w [[] _]|].
  intros w [[Hw Hr] Ha]. destruct (nodes (disk w) !! (p ++ [n])) eqn:E; cbn; [by destruct w|]. split.
  - eapply (sound_leaf fl w (p ++ [n])); try done; cbn.
    + by eapply absent_idle.
    + intros q Hq. by rewrite lookup_insert_ne.
    + apply tree_put; [apply Hw|done|done].
    + destruct (so_inodes _ _ Hw) as [X N]. split; cbn; [done|]. intros q i Hi. apply lookup_insert_Some in Hi as [[_ ?]|[_ Hi]]; [done|by eapply N].
    + intros i q bytes. by rewrite lookup_insert_eq.
    + intros n' m E' _. by eapply Ha.
  - eapply real_snoc; [|apply lookup_insert_eq]. intros q Hq. rewrite lookup_insert_ne; [by apply Hr|].
    intros <-. by apply (leaf_not_prefix p n (p ++ [n])).
Qed.
Lemma created_absent q w i w' : try_host (create_new FILE_MODE q) w = (Ok (Ok i), w') →
  resolve (nodes (disk w)) q = Ok q → nodes (disk w) !! q = None.
Proof.
  unfold try_host, create_new. match goal with |- context [at_path q ?c (disk w)] => destruct (at_cases q c (disk w)) as [l [E|E]]; rewrite E; clear E end; [done|].
  intros E R. rewrite R in E. cbn in E. by destruct (nodes (disk w) !! q).
Qed.
Lemma chmod_ensures p n : scratch (p ++ [n]) →
  ensures J (λ w, J w ∧ real (nodes (disk w)) (p ++ [n])) (set_private_directory_permissions (p ++ [n]))
    (λ _ w, J w ∧ real (nodes (disk w)) (p ++ [n])).
Proof.
  intros Hs. apply host_ensures, plain_call_of; [by auto with steady|by intros w []|]. intros w [Hw Hr].
  destruct (real_last _ _ Hr) as [m Hm]. rewrite (follow_dir _ _ _ (p ++ [n]) m), Hm by (try done; by apply resolve_real). cbn.
  assert (fl !! (p ++ [n]) = None) as Hfl.
  { destruct (fl !! (p ++ [n])) as [[i bytes]|] eqn:E; [|done]. destruct (so_temp _ _ Hw _ _ _ E) as (_ & E' & _). congruence. }
  split.
  - eapply (sound_leaf fl w (p ++ [n])); try done; cbn.
    + intros q Hq. by rewrite lookup_insert_ne.
    + apply tree_put; [apply Hw|eapply real_prefix; [done|by exists [n]]|done].
    + destruct (so_inodes _ _ Hw) as [X N]. split; cbn; [done|]. intros q i Hi. apply lookup_insert_Some in Hi as [[_ ?]|[_ Hi]]; [done|by eapply N].
    + intros i q bytes. by rewrite lookup_insert_eq.
    + intros n' m' E' _. apply (so_pinned _ _ Hw n'). rewrite <- E'. by exists (Dir m).
  - intros q Hq. cbn. destruct (decide (p ++ [n] = q)) as [<-|Hne]; [rewrite lookup_insert_eq; by eexists|].
    rewrite lookup_insert_ne by done. by apply Hr.
Qed.
Lemma create_file_ensures p n : scratch (p ++ [n]) →
  ensures J (λ w, (J w ∧ real (nodes (disk w)) p) ∧ admitted (p ++ [n]) w) (try_host (create_new FILE_MODE (p ++ [n])))
    (λ r w, (J w ∧ real (nodes (disk w)) p) ∧ ∀ i, r = Ok i → nodes (disk w) !! (p ++ [n]) = Some (Regular i) ∧
       inodes (disk w) !! i = Some (mkInode [] FILE_MODE) ∧ ∀ q, nodes (disk w) !! q = Some (Regular i) → q = p ++ [n]).
Proof.
  intros Hs. apply try_ensures, path_call; [by auto with steady|intros w [[] _]; by apply resolve_leaf|by intros w [[] _]|].
  intros w [[Hw Hr] Ha]. destruct (nodes (disk w) !! (p ++ [n])) eqn:E; cbn; [split; [by destruct w|done]|].
  destruct (so_inodes _ _ Hw) as [X N]. assert (∀ i, is_Some (inodes (disk w) !! i) → i ≠ next_inode (disk w)) as Hne.
  { intros i Hi ->. specialize (X _ Hi). lia. }
  split; [split|].
  - eapply (sound_leaf fl w (p ++ [n])); try done; cbn.
    + by eapply absent_idle.
    + intros q Hq. by rewrite lookup_insert_ne.
    + apply tree_put; [apply Hw|done|intros m; congruence].
    + split; cbn.
      * intros i Hi. destruct (decide (i = next_inode (disk w))) as [->|Hi']; [lia|]. rewrite lookup_insert_ne in Hi by done.
        specialize (X i Hi). lia.
      * intros q i Hi. apply lookup_insert_Some in Hi as [[_ [= <-]]|[_ Hi]]; [rewrite lookup_insert_eq; by eexists|].
        rewrite lookup_insert_ne; [by eapply N|]. by apply not_eq_sym, Hne, (N q).
    + intros i x Hi. rewrite lookup_insert_ne; [done|]. apply not_eq_sym, Hne. by exists x.
    + intros i q bytes. rewrite lookup_insert_eq. intros [= <-] Hq. destruct (so_temp _ _ Hw _ _ _ Hq) as (_ & _ & (x & Hx & _) & _).
      apply (Hne (next_inode (disk w))); [by exists x|done].
    + intros n' m' E' _. by eapply Ha.
  - intros q Hq. cbn. rewrite lookup_insert_ne; [by apply Hr|]. intros <-. by apply (leaf_not_prefix p n (p ++ [n])).
  - intros i [= <-]. split; [apply lookup_insert_eq|]. split; [apply lookup_insert_eq|]. intros q Hq.
    apply lookup_insert_Some in Hq as [[<- _]|[_ Hq]]; [done|]. exfalso. apply (Hne (next_inode (disk w))); [by eapply N|done].
Qed.
Lemma file_mode_ensures (R : World → Prop) i mode :
  (∀ w f', R w → nodes f' = nodes (disk w) → (∀ j x, inodes (disk w) !! j = Some x → ∃ x', inodes f' !! j = Some x' ∧ content x' = content x) →
     R (w <| disk := f' |>)) → steady R →
  ensures J (λ w, J w ∧ R w) (host (set_file_permissions i mode)) (λ _ w, J w ∧ R w).
Proof.
  intros HR HS. apply host_ensures, plain_call_of; [by auto with steady|by intros w []|]. intros w [Hw Hr]. cbn.
  assert (∀ j x, inodes (disk w) !! j = Some x → ∃ x', alter (λ n, mkInode (content n) mode) i (inodes (disk w)) !! j = Some x' ∧
    content x' = content x) as Hc.
  { intros j x Hj. destruct (decide (i = j)) as [<-|Hne]; [rewrite lookup_alter_eq, Hj; by eexists|rewrite lookup_alter_ne by done; by eexists]. }
  split; [|by apply HR]. eapply (sound_content fl fl); try done; cbn.
  - intros j. destruct (decide (i = j)) as [<-|Hne]; [rewrite lookup_alter_eq; by destruct (inodes (disk w) !! i)|by rewrite lookup_alter_ne].
  - intros p j bytes Hp. split; [by eexists|]. destruct (so_temp _ _ Hw _ _ _ Hp) as (_ & _ & (x & Hx & <-) & _). by apply Hc.
  - intros j x Hx _. by apply Hc.
Qed.

(** Computations that leave the state alone. *)
Definition untouched {A} (c : sm A) : Prop := ∀ w, guarded (c w).2 = guarded w.
Lemma untouched_bind {A B} (c : sm A) (k : A → sm B) : untouched c → (∀ a, untouched (k a)) → untouched (let! a := c in k a).
Proof. intros Hc Hk w. unfold sbind. specialize (Hc w). destruct (c w) as [[a|e] w1]; [|done]. rewrite Hk. done. Qed.
Lemma untouched_host {A} (c : st Fs IoError A) : untouched (host c).
Proof. intros w. unfold host. by destruct (c (disk w)). Qed.
Lemma untouched_try {A} (c : st Fs IoError A) : untouched (try_host c).
Proof. intros w. unfold try_host. by destruct (c (disk w)). Qed.
Lemma untouched_ret {A} (a : A) : untouched (sret a).
Proof. done. Qed.
Lemma untouched_fail {A} e : untouched (A := A) (sfail e).
Proof. done. Qed.
Lemma untouched_read {A} (g : World → result StoreError A) : untouched (sread g).
Proof. done. Qed.
Lemma ensures_framed {A} (I P : World → Prop) (c : sm A) Q (φ : State → Prop) : untouched c → ensures I P c Q →
  ensures (λ w, I w ∧ φ (guarded w)) (λ w, P w ∧ φ (guarded w)) c (λ a w, Q a w ∧ φ (guarded w)).
Proof.
  intros Hu Hc w [Hw Hφ]. specialize (Hc w Hw). specialize (Hu w). destruct (c w) as [[a|e] w']; cbn in Hu; by rewrite Hu.
Qed.
Lemma ensures_state {A} (I P : World → Prop) (c : sm A) Q (φ : State → Prop) : untouched c → ensures I P c Q →
  ensures I (λ w, P w ∧ φ (guarded w)) c (λ a w, Q a w ∧ φ (guarded w)).
Proof.
  intros Hu Hc w [Hw Hφ]. specialize (Hc w Hw). specialize (Hu w). destruct (c w) as [[a|e] w']; [|done].
  cbn in Hu. by rewrite Hu.
Qed.

Lemma managed_ensures n : ensures J J (ensure_managed_directory (pins_dir store) (pins_dir store ++ [n]))
  (λ _ w, J w ∧ real (nodes (disk w)) (pins_dir store ++ [n])).
Proof.
  unfold ensure_managed_directory, managed_relative_path. rewrite bool_decide_eq_true_2 by (by exists [n]).
  rewrite drop_app_length. eapply (ensures_bind _ _ _ (λ rel w, J w ∧ rel = [n])); [by intros w Hw|].
  intros rel. apply ensures_pure. intros ->. eapply (ensures_bind _ _ _ (λ _, J)).
  { eapply ensures_conseq; [apply (assert_real J J)| |]; [by auto with steady|done|intros w Hw; by apply resolve_real, Hw|done|by intros ? w []]. }
  intros ?. cbn [ensure_managed]. eapply ensures_bind.
  { apply (try_metadata J J); [by auto with steady|]. intros w Hw. by apply resolve_leaf, Hw. }
  intros metadata. eapply (ensures_bind _ _ _ (λ _ w, J w ∧ real (nodes (disk w)) (pins_dir store ++ [n]))).
  { destruct metadata as [node|[]]; try (by apply ensures_fail; intros w []).
    - destruct node as [m| |]; cbn [is_dir]; [|by apply ensures_fail; intros w []..].
      apply ensures_ret. intros w [Hw E]. split; [done|]. eapply real_snoc; [apply Hw|done].
    - eapply ensures_conseq; [apply create_dir_ensures, pin_scratch| |done]. intros w [Hw _]. split; [split; [done|apply Hw]|].
      intros n' m E. by apply (f_equal length) in E; rewrite !length_app in E; cbn in E; lia. }
  intros ?. eapply (ensures_bind _ _ _ (λ _ w, J w ∧ real (nodes (disk w)) (pins_dir store ++ [n]))).
  { eapply ensures_conseq; [apply (assert_real J (λ w, J w ∧ real (nodes (disk w)) (pins_dir store ++ [n])))| |];
      [by auto with steady|by intros w []|intros w []; by apply resolve_real|done|by intros ? w []]. }
  intros ?. eapply ensures_bind; [apply chmod_ensures, pin_scratch|]. intros ?. by apply ensures_ret.
Qed.
Lemma managed_untouched base path : untouched (ensure_managed_directory base path).
Proof.
  assert (∀ rel cur, untouched (ensure_managed cur rel)) as Hm.
  { induction rel as [|n rel IH]; intros cur; cbn [ensure_managed]; [apply untouched_ret|].
    apply untouched_bind; [apply untouched_try|]. intros metadata. apply untouched_bind; [by destruct metadata as [[]|[]]; try apply untouched_host|].
    intros ?. apply untouched_bind; [apply untouched_bind; [apply untouched_host|by intros []]|]. intros _.
    apply untouched_bind; [apply untouched_host|]. intros ?. apply IH. }
  apply untouched_bind; [apply untouched_read|]. intros rel.
  apply untouched_bind; [apply untouched_bind; [apply untouched_host|by intros []]|]. by intros ?.
Qed.
(** A digest whose file is present is committed. *)
Lemma present_committed d w : J w → digest_ok d → is_Some (nodes (disk w) !! blob_path store d) → is_Some (committed_blobs (guarded w) !! d).
Proof.
  intros Hw Hd Hn. destruct (so_only _ _ Hw _ Hn) as (e & E & [s Hs]). destruct (so_stored _ _ Hw e s Hs) as [He _].
  apply encoded_inj in E as ->; [by eexists|done|done].
Qed.

(** ** Pins *)

Lemma pin_ensures n d : digest_ok d → ensures J J (pin store n d) (λ _, J).
Proof.
  intros Hd. eapply ensures_bind; [by apply ensures_read|]. intros ?. eapply ensures_bind.
  { apply (is_regular_ensures J J); [by auto with steady|done|intros w Hw; apply Hw]. }
  intros present. destruct present; [|apply ensures_fail; by intros w []]. cbn [negb].
  set (committed := λ s : State, is_Some (committed_blobs s !! d)).
  eapply (ensures_bind _ _ _ (λ _ w, (J w ∧ real (nodes (disk w)) (pins_dir store ++ [n])) ∧ committed (guarded w))).
  { eapply ensures_conseq; [exact (ensures_state _ _ _ _ committed (managed_untouched _ _) (managed_ensures n))| |by intros ? w].
    intros w [Hw Hi]. split; [done|]. destruct (Hi eq_refl) as [i Ei]. by apply present_committed; [| |exists (Regular i)]. }
  intros ?. eapply ensures_bind.
  { eapply ensures_conseq; [apply (create_file_ensures (pins_dir store ++ [n]) (encoded d))| |].
    - rewrite <- app_assoc. apply pin_scratch.
    - intros w [[Hw Hr] Hc]. split; [done|]. intros n' m E. rewrite <- app_assoc in E. apply app_inv_head in E as [= <- <-]. by exists d.
    - intros r w H'. exact H'. }
  intros [i|[]].
  - eapply (ensures_bind _ _ _ (λ _, J)).
    { eapply ensures_conseq; [apply (file_mode_ensures (λ _, True)); [done|by auto with steady]|by intros w [[] _]|by intros ? w []]. }
    intros ?. eapply ensures_bind; [apply host_sync; [by auto with steady|done]|]. intros ?.
    eapply ensures_bind; [apply host_sync; [by auto with steady|done]|]. intros ?. apply host_sync; [by auto with steady|done].
  - apply ensures_fail. by intros w [[] _].
  - apply ensures_left. eapply ensures_bind.
    { apply (host_metadata J (λ w, J w ∧ real (nodes (disk w)) (pins_dir store ++ [n]))); [by auto with steady|by intros w []|].
      intros w []. by apply resolve_leaf. }
    intros node. destruct (is_file node); [apply ensures_ret|apply ensures_fail]; by intros w [[] _].
  - apply ensures_fail. by intros w [[] _].
  - apply ensures_fail. by intros w [[] _].
  - apply ensures_fail. by intros w [[] _].
Qed.
(** Removing a file of the two directories that no ingestion is using. *)
Lemma remove_scratch_ensures p n : scratch (p ++ [n]) → (∀ w, J w → fl !! (p ++ [n]) = None) →
  ensures J (λ w, J w ∧ real (nodes (disk w)) p) (host (remove_file (p ++ [n]))) (λ _ w, J w ∧ real (nodes (disk w)) p).
Proof.
  intros Hs Hfl. apply host_ensures, path_call; [by auto with steady|intros w []; by apply resolve_leaf|by intros w []|].
  intros w [Hw Hr]. pose proof (Hfl w Hw) as Hfl'. destruct (nodes (disk w) !! (p ++ [n])) as [node|] eqn:E; [|by destruct w].
  assert (is_dir node = false → J (w <| disk := erase (p ++ [n]) (disk w) |>) ∧ real (nodes (erase (p ++ [n]) (disk w))) p) as Hgo.
  { intros Hd. split.
    - eapply (sound_leaf fl w (p ++ [n])); try done; cbn.
      + intros q Hq. by rewrite lookup_delete_ne.
      + apply tree_erase; [apply Hw|]. intros m Hm. rewrite E in Hm. by injection Hm as ->.
      + destruct (so_inodes _ _ Hw) as [X N]. split; cbn; [done|]. intros q i Hi. apply lookup_delete_Some in Hi as [_ Hi]. by eapply N.
      + intros i q bytes. by rewrite lookup_delete_eq.
      + intros n' m _. rewrite lookup_delete_eq. by intros [].
    - intros q Hq. cbn. rewrite lookup_delete_ne; [by apply Hr|]. intros <-. by apply (leaf_not_prefix p n (p ++ [n])). }
  destruct node; [by destruct w|by apply Hgo|by apply Hgo].
Qed.
Lemma remove_pin_dir_ensures n : ensures J J (remove_directory_if_empty (pins_dir store ++ [n])) (λ _, J).
Proof.
  eapply (ensures_bind _ _ _ (λ _, J)); [|by intros [[]|[]]; try apply ensures_ret; try apply ensures_fail].
  apply try_ensures, path_call; [by auto with steady|intros w Hw; by apply resolve_leaf, Hw|done|]. intros w Hw.
  destruct (nodes (disk w) !! (pins_dir store ++ [n])) as [[m| |]|] eqn:E; [|by destruct w..].
  destruct (children _ _) eqn:Ec; [|by destruct w]. cbn.
  eapply (sound_leaf fl w (pins_dir store ++ [n])); try done; cbn.
  - apply pin_scratch.
  - destruct (fl !! _) as [[i bytes]|] eqn:E'; [|done]. destruct (so_temp _ _ Hw _ _ _ E') as (_ & E2 & _). congruence.
  - intros q Hq. by rewrite lookup_delete_ne.
  - apply tree_remove_dir; [apply Hw|by destruct (pins_dir store)|done].
  - destruct (so_inodes _ _ Hw) as [X N]. split; cbn; [done|]. intros q i Hi. apply lookup_delete_Some in Hi as [_ Hi]. by eapply N.
  - intros i q bytes. by rewrite lookup_delete_eq.
  - intros n' m' _. rewrite lookup_delete_eq. by intros [].
Qed.
Lemma pins_idle q w : J w → pins_dir store `prefix_of` q → fl !! q = None.
Proof.
  intros Hw Hq. destruct (fl !! q) as [[i bytes]|] eqn:E; [|done]. destruct (so_temp _ _ Hw _ _ _ E) as ([n ->] & _).
  destruct (apart_below _ _ (temporary_dir store ++ [n]) (la_both _ L)) as [_ Ha]; [by exists [n]|]. done.
Qed.
Lemma optional_ensures n : ensures J J (ensure_optional_managed_directory (pins_dir store) (pins_dir store ++ [n]))
  (λ _ w, J w ∧ (real (nodes (disk w)) (pins_dir store ++ [n]) ∨ nodes (disk w) !! (pins_dir store ++ [n]) = None)).
Proof.
  unfold ensure_optional_managed_directory, managed_relative_path. rewrite bool_decide_eq_true_2 by (by exists [n]).
  rewrite drop_app_length. eapply (ensures_bind _ _ _ (λ rel w, J w ∧ rel = [n])); [by intros w Hw|].
  intros rel. apply ensures_pure. intros ->. eapply (ensures_bind _ _ _ (λ _, J)).
  { eapply ensures_conseq; [apply (assert_real J J)| |]; [by auto with steady|done|intros w Hw; by apply resolve_real, Hw|done|by intros ? w []]. }
  intros ?. cbn [ensure_optional]. eapply ensures_bind.
  { apply (try_metadata J J); [by auto with steady|]. intros w Hw. by apply resolve_leaf, Hw. }
  intros [node|[]]; try (by apply ensures_fail; intros w []); [|apply ensures_ret; intros w []; by auto].
  destruct node as [m| |]; cbn [is_dir]; [|by apply ensures_fail; intros w []..].
  eapply (ensures_bind _ _ _ (λ _ w, J w ∧ real (nodes (disk w)) (pins_dir store ++ [n])));
    [|intros ?; apply ensures_ret; intros w []; by auto].
  eapply ensures_conseq; [apply chmod_ensures, pin_scratch| |by intros ? w H'; exact H'].
  intros w [Hw E]. split; [done|]. eapply real_snoc; [apply Hw|done].
Qed.
(** The marker, in a directory that may be missing. *)
Lemma marker_metadata n m : ensures J
  (λ w, J w ∧ (real (nodes (disk w)) (pins_dir store ++ [n]) ∨ nodes (disk w) !! (pins_dir store ++ [n]) = None))
  (try_host (symlink_metadata ((pins_dir store ++ [n]) ++ [m])))
  (λ r w, J w ∧ ∀ node, r = Ok node → real (nodes (disk w)) (pins_dir store ++ [n])).
Proof.
  apply try_ensures. intros w [Hw [Hr|Hn]].
  - assert (call_of (λ w, J w ∧ real (nodes (disk w)) (pins_dir store ++ [n])) (λ r w, J w ∧ ∀ node : Node, r = Ok node →
      real (nodes (disk w)) (pins_dir store ++ [n])) (symlink_metadata ((pins_dir store ++ [n]) ++ [m]))) as Hc.
    { apply path_call; [by auto with steady|intros v []; by apply resolve_leaf|by intros v []|]. intros v [Hv Hr'].
      by destruct (nodes (disk v) !! _); destruct v. }
    by apply Hc.
  - unfold symlink_metadata. match goal with |- context [at_path _ ?c (disk w)] =>
      destruct (at_cases ((pins_dir store ++ [n]) ++ [m]) c (disk w)) as [l [E|E]]; rewrite E; clear E end.
    + split; [|done]. eapply sound_steady; [done|by split_and!].
    + rewrite (resolve_missing _ (pins_dir store) n [m]); [|apply Hw|done|done]. split; [|done]. eapply sound_steady; [done|by split_and!].
Qed.
Lemma unpin_ensures n d : ensures J J (unpin store n d) (λ _, J).
Proof.
  eapply ensures_bind; [by apply ensures_read|]. intros ?. eapply ensures_bind; [apply optional_ensures|]. intros ?.
  eapply ensures_bind; [apply marker_metadata|]. intros [node|[]]; try (by apply ensures_fail; intros w []).
  2: { apply ensures_ret. by intros w []. }
  destruct (is_file node); [|by apply ensures_fail; intros w []]. eapply (ensures_bind _ _ _ (λ _, J)).
  { eapply ensures_conseq; [apply (remove_scratch_ensures (pins_dir store ++ [n]) (encoded d))| |].
    - rewrite <- app_assoc. apply pin_scratch.
    - intros w Hw. apply (pins_idle _ w); [done|]. rewrite <- app_assoc. by exists [n; encoded d].
    - intros w [Hw Hr]. split; [done|]. by apply (Hr node).
    - by intros ? w []. }
  intros ?. eapply ensures_bind; [apply remove_pin_dir_ensures|]. intros ?.
  eapply ensures_bind; [apply host_sync; [by auto with steady|done]|]. intros ?. by apply ensures_ret.
Qed.

(** *** Reading the pins *)

Section reading.
Context (w0 : World) (H0 : J w0).
Abbreviation P := (same w0).
Lemma same_steady : steady P.
Proof. intros w w' (A & B & C & D) (A' & B' & C' & D'). split_and!; congruence. Qed.
Lemma same_sound w : P w → J w.
Proof. by apply sound_steady. Qed.
Hint Resolve same_steady : steady.
Lemma read_markers_ensures n markers : real (nodes (disk w0)) (pins_dir store ++ [n]) → ∀ acc,
  ensures J P (read_markers n (pins_dir store ++ [n]) markers acc) (λ out w, P w ∧ ∀ x, x ∈ out ↔ x ∈ acc ∨
    pin_name x = n ∧ ∃ m, m ∈ markers ∧ from_encoded m = Ok (pin_digest x)).
Proof.
  intros Hr. induction markers as [|m markers IH]; intros acc; cbn [read_markers].
  { apply ensures_ret. intros w Hw. split; [done|]. intros x. split; [by left|]. intros [?|(_ & m & Hm%not_elem_of_nil & _)]; done. }
  eapply ensures_bind.
  { apply (host_metadata J P); [by auto with steady|apply same_sound|]. intros w (N & _). rewrite N. by apply resolve_leaf. }
  intros node. destruct (is_file node); cbn [negb]; [|apply ensures_fail; intros w []; by apply same_sound].
  unfold to_str. destruct (utf8_valid m); [|apply ensures_fail; intros w []; by apply same_sound].
  destruct (from_encoded m) as [d|e] eqn:Ed; [|apply ensures_fail; intros w []; by apply same_sound].
  apply ensures_left. eapply ensures_conseq; [apply IH|done|]. intros out w [Hw Hx]. split; [done|]. intros x. rewrite Hx. clear Hx.
  rewrite elem_of_app, list_elem_of_singleton. split.
  - intros [[?| ->]|(E & m' & Hm & Em)]; [by left|right; split; [done|]; exists m; split; [by left|done]|].
    right. split; [done|]. exists m'. split; [by right|done].
  - intros [?|(E & m' & Hm & Em)]; [by left; left|]. apply elem_of_cons in Hm as [->|Hm]; [|right; split; [done|]; by exists m'].
    left. right. destruct x as [xn xd]. cbn in *. congruence.
Qed.
Lemma read_names_ensures names : ∀ acc,
  ensures J P (read_names (pins_dir store) names acc) (λ out w, P w ∧ ∀ x, x ∈ out ↔ x ∈ acc ∨
    pin_name x ∈ names ∧ ∃ m, is_Some (nodes (disk w0) !! (pins_dir store ++ [pin_name x; m])) ∧ from_encoded m = Ok (pin_digest x)).
Proof.
  induction names as [|n names IH]; intros acc; cbn [read_names].
  { apply ensures_ret. intros w Hw. split; [done|]. intros x. split; [by left|]. intros [?|(Hm%not_elem_of_nil & _)]; done. }
  eapply ensures_bind.
  { apply (host_metadata J P); [by auto with steady|apply same_sound|]. intros w (N & _). rewrite N. apply resolve_leaf, H0. }
  intros node. destruct node as [mode| |]; cbn [is_dir negb]; [|apply ensures_fail; intros w []; by apply same_sound..].
  unfold to_str. destruct (utf8_valid n); [|apply ensures_fail; intros w []; by apply same_sound].
  destruct (validate_pin_name n); [|apply ensures_fail; intros w []; by apply same_sound].
  apply (ensures_given _ (real (nodes (disk w0)) (pins_dir store ++ [n]))).
  { intros w [(N & _) E]. eapply real_snoc; [apply H0|by rewrite <- N]. }
  intros Hr. apply ensures_left. eapply (ensures_bind _ _ _ (λ markers w, P w ∧ markers = children (pins_dir store ++ [n]) (nodes (disk w0)))).
  { eapply ensures_conseq; [apply (host_read_dir J P); [by auto with steady|apply same_sound|]|done|].
    - intros w (N & _). rewrite N. by apply resolve_real.
    - intros markers w [Hw ->]. split; [done|]. by destruct Hw as (-> & _). }
  intros markers. apply ensures_pure. intros ->. eapply ensures_bind; [by apply read_markers_ensures|]. intros pins.
  eapply (ensures_given _ (∀ x, x ∈ pins ↔ x ∈ acc ∨ pin_name x = n ∧ ∃ m,
    is_Some (nodes (disk w0) !! (pins_dir store ++ [n; m])) ∧ from_encoded m = Ok (pin_digest x))).
  { intros w [_ Hx] x. rewrite Hx. by setoid_rewrite elem_of_children; setoid_rewrite <- app_assoc. }
  intros Hx. apply ensures_left. eapply ensures_conseq; [apply IH|done|]. intros out w [Hw Ho]. split; [done|].
  intros x. rewrite Ho, Hx. setoid_rewrite elem_of_cons. naive_solver.
Qed.
Lemma elem_of_insert_pin x y l : x ∈ insert_pin y l ↔ x = y ∨ x ∈ l.
Proof.
  induction l as [|z l IH]; cbn; [set_solver|]. destruct (pin_leb y z); rewrite ?elem_of_cons, ?IH; naive_solver.
Qed.
Lemma elem_of_sort_pins x l : x ∈ sort_pins l ↔ x ∈ l.
Proof. induction l as [|y l IH]; cbn; [done|]. rewrite elem_of_insert_pin, IH, elem_of_cons. done. Qed.
(** The pins are the markers. *)
Lemma read_pins_ensures : ensures J P (read_pins (pins_dir store)) (λ out w, P w ∧ ∀ x, x ∈ out ↔
  ∃ m, is_Some (nodes (disk w0) !! (pins_dir store ++ [pin_name x; m])) ∧ from_encoded m = Ok (pin_digest x)).
Proof.
  eapply (ensures_bind _ _ _ (λ names w, P w ∧ names = children (pins_dir store) (nodes (disk w0)))).
  { eapply ensures_conseq; [apply (host_read_dir J P); [by auto with steady|apply same_sound|]|done|].
    - intros w (N & _). rewrite N. apply resolve_real, H0.
    - intros names w [Hw ->]. split; [done|]. by destruct Hw as (-> & _). }
  intros names. apply ensures_pure. intros ->. eapply ensures_bind; [apply read_names_ensures|]. intros pins. apply ensures_ret.
  intros w [Hw Hx]. split; [done|]. intros x. rewrite elem_of_sort_pins, Hx. split.
  - intros [Hn%not_elem_of_nil|(_ & m & Hm)]; [done|by exists m].
  - intros (m & Hm & Em). right. split; [|by exists m]. apply elem_of_children.
    destruct (so_tree _ _ H0) as [_ Ht]. destruct (Ht (pins_dir store ++ [pin_name x]) m) as [mode E]; [by rewrite <- app_assoc|by eexists].
Qed.
End reading.

(** ** Leases *)

Lemma update_ensures {A} (I P : World → Prop) (g : State → State) (k : sm A) Q :
  ensures I (λ w, ∃ v, P v ∧ w = v <| guarded ::= g |>) k Q → ensures I P (let! _ := update_state g in k) Q.
Proof. intros Hk w Hw. unfold sbind, update_state, supdate. apply Hk. by exists w. Qed.
Lemma update_done (I P Q : World → Prop) (g : State → State) : (∀ w, P w → Q (w <| guarded ::= g |>)) →
  ensures I P (update_state g) (λ _, Q).
Proof. intros HQ w Hw. by apply HQ. Qed.
(** Only the leases change. *)
Lemma sound_leases w g : J w → committed_blobs (g (guarded w)) = committed_blobs (guarded w) →
  committed_bytes (g (guarded w)) = committed_bytes (guarded w) →
  (∀ id ds d, leases (g (guarded w)) !! id = Some ds → d ∈ ds → is_Some (committed_blobs (guarded w) !! d)) →
  J (w <| guarded ::= g |>).
Proof. intros [] Ec Eb Hl. split; cbn; rewrite ?Ec, ?Eb; done. Qed.
Lemma create_lease_ensures : ensures J J create_lease (λ _, J).
Proof.
  eapply ensures_bind; [by apply ensures_read|]. intros id. apply update_ensures, ensures_ret. intros w (v & Hv & ->).
  apply sound_leases; [done..|]. cbn. intros i ds d Hi Hd. apply lookup_insert_Some in Hi as [[_ <-]|[_ Hi]]; [by apply not_elem_of_empty in Hd|].
  by eapply so_leased.
Qed.
Lemma insert_leased_ensures id d : ensures J (λ w, J w ∧ is_Some (committed_blobs (guarded w) !! d)) (insert_leased id d) (λ _, J).
Proof.
  eapply ensures_bind; [apply look_ensures; by intros w []|]. intros ds. apply update_done. intros w [[Hw Hd] El].
  unfold lease_digests in El. destruct (leases (guarded w) !! id) as [ds'|] eqn:E; simplify_eq.
  apply sound_leases; [done..|]. cbn. intros i es e Hi He. apply lookup_insert_Some in Hi as [[_ <-]|[_ Hi]]; [|by eapply so_leased].
  apply elem_of_union in He as [->%elem_of_singleton|He]; [done|by eapply so_leased].
Qed.
Lemma insert_leased_grows id d w w' : insert_leased id d w = (Ok (), w') →
  committed_blobs (guarded w') = committed_blobs (guarded w) ∧ grown (Some id) (guarded w) (guarded w') ∧ names_blob (Some id) d (guarded w').
Proof.
  unfold insert_leased, sbind, locked, sread, lease_digests. destruct (leases (guarded w) !! id) as [ds|] eqn:E; [|done]. intros [= <-].
  split; [done|]. split; [split; [done|split]|].
  - cbn. intros i es Hi. destruct (decide (i = id)) as [->|]; [|by exists es; rewrite lookup_insert_ne].
    rewrite lookup_insert_eq. eexists. split; [done|]. set_solver.
  - cbn. intros i Hi. rewrite lookup_insert_ne; [done|]. by intros ->.
  - eexists. split; [apply lookup_insert_eq|set_solver].
Qed.
Lemma insert_leased_fails id d w e w' : insert_leased id d w = (Err e, w') → w' = w.
Proof. unfold insert_leased, sbind, locked, sread. destruct (lease_digests id (guarded w)); [done|]. by intros [= _ <-]. Qed.
Lemma add_to_lease_ensures id d : digest_ok d → ensures J J (add_to_lease store id d) (λ _, J).
Proof.
  intros Hd. eapply ensures_bind; [apply (is_regular_ensures J J); [by auto with steady|done|intros w Hw; apply Hw]|].
  intros [|]; cbn [negb]; [|apply ensures_fail; by intros w []]. eapply ensures_conseq; [apply insert_leased_ensures| |done].
  intros w [Hw Hi]. split; [done|]. destruct (Hi eq_refl) as [i Ei]. by apply present_committed; [| |exists (Regular i)].
Qed.
Lemma remove_from_lease_ensures id d : ensures J J (remove_from_lease id d) (λ _, J).
Proof.
  eapply ensures_bind; [by apply look_ensures|]. intros ds. apply update_ensures, ensures_ret. intros w (v & [Hv El] & ->).
  unfold lease_digests in El. destruct (leases (guarded v) !! id) as [ds'|] eqn:E; simplify_eq.
  apply sound_leases; [done..|]. cbn. intros i es e Hi He. apply lookup_insert_Some in Hi as [[_ <-]|[_ Hi]]; [|by eapply so_leased].
  apply elem_of_difference in He as [He _]. by eapply so_leased.
Qed.
Lemma release_lease_ensures id : ensures J J (release_lease id) (λ _, J).
Proof.
  apply update_done. intros w Hw. apply sound_leases; [done..|]. cbn. intros i ds d Hi Hd.
  apply lookup_delete_Some in Hi as [_ Hi]. by eapply so_leased.
Qed.

(** ** Collection *)

(** A blob no lease and no pin needs goes. *)
Lemma sound_remove w f' d s : J w → committed_blobs (guarded w) !! d = Some s →
  (∀ id ds, leases (guarded w) !! id = Some ds → d ∉ ds) →
  (∀ n, nodes (disk w) !! (pins_dir store ++ [n; encoded d]) = None) →
  nodes f' = delete (blob_path store d) (nodes (disk w)) → inodes f' = inodes (disk w) → next_inode f' = next_inode (disk w) →
  J (w <| disk := f' |> <| guarded ::= remove_committed_blob d |>).
Proof.
  intros [T [X N] B M P St On [By Bw] Le Pi Te] Hd Hl Hp En Ei Ex.
  destruct (St d s Hd) as (Hdo & bytes & (i & x & S1 & S2 & S3) & S4 & S5).
  assert (remove_committed_blob d (guarded w) = (guarded w) <| committed_blobs ::= delete d |>
    <| committed_bytes ::= λ n, saturating_sub n s |>) as Eg by (unfold remove_committed_blob; by rewrite Hd).
  assert (∀ e t, committed_blobs (guarded w) !! e = Some t → e ≠ d → blob_path store e ≠ blob_path store d) as Hinj.
  { intros e t He Hne E. apply app_inv_head in E as [= Ee]. apply Hne, encoded_inj; [by eapply St|done|done]. }
  assert (∀ D, D ∈ [blobs store; temporary_dir store; pins_dir store] → real (nodes (disk w)) D → real (nodes f') D) as HD.
  { intros D HD Hr p Hpre. rewrite En, lookup_delete_ne; [by apply Hr|]. intros <-. unfold blob_path in Hpre.
    assert (apart (blobs store ++ [encoded d]) (temporary_dir store)) as [HA _] by (eapply apart_below; [apply L|by exists [encoded d]]).
    assert (apart (blobs store ++ [encoded d]) (pins_dir store)) as [HB _] by (eapply apart_below; [apply L|by exists [encoded d]]).
    set_unfold in HD. destruct HD as [->|[->|[->|[]]]]; [by apply (leaf_not_prefix (blobs store) (encoded d) (blobs store))|by apply HA|by apply HB]. }
  split; cbn; rewrite ?Eg; try (apply HD; [set_solver|done]); cbn.
  - rewrite En. apply tree_erase; [done|]. intros m. rewrite S1. done.
  - split; [by rewrite Ei, Ex|]. intros p j. rewrite En, Ei. intros [_ Hj]%lookup_delete_Some. by eapply N.
  - intros e t He. apply lookup_delete_Some in He as [Hne He]. destruct (St e t He) as (Heo & b & (j & y & E1 & E2 & E3) & E4).
    split; [done|]. exists b. split; [|done]. exists j, y. rewrite En, Ei. split; [|done].
    rewrite lookup_delete_ne; [done|]. apply not_eq_sym. by eapply Hinj.
  - intros n. rewrite En. intros Hn. destruct (decide (blob_path store d = blobs store ++ [n])) as [E|Hne]; [rewrite E, lookup_delete_eq in Hn; by destruct Hn|].
    rewrite lookup_delete_ne in Hn by done. destruct (On n Hn) as (e & -> & [t Ht]). exists e. split; [done|].
    rewrite lookup_delete_ne; [by eexists|]. intros <-. done.
  - pose proof (total_delete _ _ _ Hd). assert (0 ≤ s) by (rewrite <- S5; apply len_nonneg). 
    assert (0 ≤ total (delete d (committed_blobs (guarded w)))).
    { apply total_sizes_nonneg. intros e t [_ He]%lookup_delete_Some. destruct (St e t He) as (_ & b & _ & _ & <-). apply len_nonneg. }
    unfold saturating_sub. lia.
  - intros id ds e Hi He. rewrite lookup_delete_ne; [by eapply Le|]. intros <-. by eapply Hl.
  - intros n m. rewrite En. intros Hn. assert (blob_path store d ≠ pins_dir store ++ [n; m]) as Hne.
    { intros E. destruct (scratch_blob _ (encoded d) (pin_scratch n [m])). done. }
    rewrite lookup_delete_ne in Hn by done. destruct (Pi n m Hn) as (e & -> & [t Ht]). exists e. split; [done|].
    rewrite lookup_delete_ne; [by eexists|]. intros <-. rewrite Hp in Hn. by destruct Hn.
  - intros p j b Hj. destruct (Te p j b Hj) as ([n ->] & E1 & E2 & E3). split; [by eexists|]. rewrite En, Ei.
    split; [rewrite lookup_delete_ne; [done|]; apply scratch_blob, temp_scratch|]. split; [done|].
    intros q [_ Hq]%lookup_delete_Some. by apply E3.
Qed.

Section collecting.
Context (w0 : World) (H0 : J w0) (marked : gset Sha256Digest)
  (Hleased : ∀ id ds d, leases (guarded w0) !! id = Some ds → d ∈ ds → d ∈ marked)
  (Hpinned : ∀ n d, digest_ok d → is_Some (nodes (disk w0) !! (pins_dir store ++ [n; encoded d])) → d ∈ marked).
(** After the names [done]: what is gone was not marked, and the report counts its bytes. *)
Record collected (done : list name) (r : GcReport) (w : World) : Prop := mk_collected {
  co_sound : J w;
  co_leases : leases (guarded w) = leases (guarded w0);
  co_committed : ∀ d, committed_blobs (guarded w) !! d =
    if decide ((d ∉ marked) ∧ encoded d ∈ done) then None else committed_blobs (guarded w0) !! d;
  co_nodes : ∀ q, nodes (disk w) !! q = nodes (disk w0) !! q ∨
    nodes (disk w) !! q = None ∧ ∃ d, q = blob_path store d ∧ (d ∉ marked) ∧ is_Some (committed_blobs (guarded w0) !! d);
  co_inodes : inodes (disk w) = inodes (disk w0);
  co_bytes : reclaimed_bytes r + committed_bytes (guarded w) = committed_bytes (guarded w0)
}.
Lemma collected_steady done r : steady (collected done r).
Proof.
  intros w w' [] Hs. pose proof Hs as (N & I & X & G). split; rewrite ?N, ?I, ?G; try done. by eapply sound_steady.
Qed.
(** A name read from the directory is that of a committed blob. *)
Lemma entry_committed n d w : J w → from_encoded n = Ok d → is_Some (nodes (disk w) !! (blobs store ++ [n])) →
  n = encoded d ∧ is_Some (committed_blobs (guarded w) !! d).
Proof.
  intros Hw Hn Hp. destruct (so_only _ _ Hw n Hp) as (e & -> & [s Hs]). destruct (so_stored _ _ Hw e s Hs) as [He _].
  rewrite from_encoded_encoded in Hn by done. simplify_eq. split; [done|by eexists].
Qed.
Lemma collected_remove done r n d size w f' : collected done r w → d ∉ marked → from_encoded n = Ok d →
  (∃ i, nodes (disk w) !! (blobs store ++ [n]) = Some (Regular i) ∧ size = len (file_content i (disk w))) →
  nodes f' = delete (blobs store ++ [n]) (nodes (disk w)) → inodes f' = inodes (disk w) → next_inode f' = next_inode (disk w) →
  collected (done ++ [n]) (r <| removed_blobs ::= λ k, saturating_add 64 k 1 |> <| reclaimed_bytes ::= λ k, saturating_add 64 k size |>)
    (w <| disk := f' |> <| guarded ::= remove_committed_blob d |>).
Proof.
  intros [Cs Cl Cc Cn Ci Cb] Hd Hn (i & Hi & Hsize) En Ei Ex.
  destruct (entry_committed n d w Cs Hn) as [-> [s Hs]]; [by eexists|]. destruct (so_stored _ _ Cs d s Hs) as (Hdo & bytes & (j & x & S1 & S2 & S3) & S4 & S5).
  assert (i = j) as -> by (unfold blob_path in S1; congruence). assert (size = s) as -> by (unfold file_content in Hsize; rewrite S2 in Hsize; congruence).
  assert (committed_blobs (guarded w0) !! d = Some s) as Hs0 by (rewrite Cc in Hs; by destruct (decide _)).
  assert (remove_committed_blob d (guarded w) = (guarded w) <| committed_blobs ::= delete d |>
    <| committed_bytes ::= λ n, saturating_sub n s |>) as Eg by (unfold remove_committed_blob; by rewrite Hs).
  split.
  - eapply sound_remove; try done.
    + intros id ds Hid Hin. apply Hd. rewrite Cl in Hid. by eapply Hleased.
    + intros n. destruct (nodes (disk w) !! (pins_dir store ++ [n; encoded d])) eqn:E; [|done]. exfalso. apply Hd, (Hpinned n); [done|].
      destruct (Cn (pins_dir store ++ [n; encoded d])) as [E'|[E' _]]; [rewrite <- E', E; by eexists|congruence].
  - cbn. by rewrite Eg.
  - intros e. cbn. rewrite Eg. cbn. destruct (decide (d = e)) as [<-|Hne].
    + rewrite lookup_delete_eq, decide_True; [done|]. split; [done|]. apply elem_of_app. right. by left.
    + rewrite lookup_delete_ne, Cc by done. destruct (decide ((e ∉ marked) ∧ encoded e ∈ done)) as [[H1 H2]|Hno].
      * rewrite decide_True; [done|]. split; [done|]. apply elem_of_app. by left.
      * destruct (decide ((e ∉ marked) ∧ encoded e ∈ done ++ [encoded d])) as [[H1 H2]|]; [|done].
        apply elem_of_app in H2 as [H2|H2%list_elem_of_singleton]; [by destruct Hno|].
        destruct (committed_blobs (guarded w0) !! e) as [t|] eqn:Ee; [|done]. destruct (so_stored _ _ H0 e t Ee) as [Heo _].
        apply encoded_inj in H2 as ->; done.
  - intros q. cbn. rewrite En. destruct (decide (blobs store ++ [encoded d] = q)) as [<-|Hne].
    + right. rewrite lookup_delete_eq. split; [done|]. exists d. split; [done|]. split; [done|by eexists].
    + rewrite lookup_delete_ne by done. apply Cn.
  - cbn. congruence.
  - cbn. rewrite Eg. cbn. destruct (so_bytes _ _ Cs) as [By _]. destruct (so_bytes _ _ H0) as [_ Bw].
    pose proof (total_delete _ _ _ Hs). assert (0 ≤ s) by (rewrite <- S5; apply len_nonneg).
    assert (0 ≤ total (delete d (committed_blobs (guarded w)))).
    { apply total_sizes_nonneg. intros e t [_ He]%lookup_delete_Some. destruct (so_stored _ _ Cs e t He) as (_ & b & _ & _ & <-). apply len_nonneg. }
    unfold saturating_sub, saturating_add. lia.
Qed.
Lemma collected_keep done r r' n d w : collected done r w → d ∈ marked → from_encoded n = Ok d → 
  is_Some (nodes (disk w) !! (blobs store ++ [n])) → reclaimed_bytes r' = reclaimed_bytes r → collected (done ++ [n]) r' w.
Proof.
  intros [Cs Cl Cc Cn Ci Cb] Hd Hn Hp Er. destruct (entry_committed n d w Cs Hn Hp) as [-> [s Hs]]. split; try done; [|by rewrite Er].
  intros e. rewrite Cc. destruct (decide ((e ∉ marked) ∧ encoded e ∈ done)) as [[H1 H2]|Hno].
  - rewrite decide_True; [done|]. split; [done|]. apply elem_of_app. by left.
  - destruct (decide ((e ∉ marked) ∧ encoded e ∈ done ++ [encoded d])) as [[H1 H2]|]; [|done].
    apply elem_of_app in H2 as [H2|H2%list_elem_of_singleton]; [by destruct Hno|].
    destruct (committed_blobs (guarded w0) !! e) as [t|] eqn:Ee; [|done]. destruct (so_stored _ _ H0 e t Ee) as [Heo _].
    destruct (so_stored _ _ Cs d s Hs) as [Hdo _]. apply encoded_inj in H2 as ->; done.
Qed.
Lemma collect_ensures names : ∀ done r, ensures J (collected done r) (collect store marked false names r)
  (λ r w, collected (done ++ names) r w).
Proof.
  induction names as [|n names IH]; intros done r; cbn [collect].
  { apply ensures_ret. intros w Hw. by rewrite app_nil_r. }
  eapply ensures_bind.
  { apply (blob_entry_ensures J (collected done r)); [apply collected_steady|by intros w []|]. intros w []. by apply so_blobs with fl. }
  intros [d size]. cbn [fst snd]. replace (done ++ n :: names) with ((done ++ [n]) ++ names) by (by rewrite <- app_assoc).
  case_bool_decide as Hm.
  - eapply ensures_conseq; [exact (IH (done ++ [n]) _)| |by intros ? w Hw]. intros w (Hw & Hn & i & Hi & _).
    by eapply collected_keep.
  - eapply (ensures_bind _ _ _ (λ _, collected (done ++ [n]) _)); [|intros ?; exact (IH (done ++ [n]) _)].
    eapply (ensures_bind _ _ _ (λ _ v, ∃ w f', v = w <| disk := f' |> ∧ collected (done ++ [n]) _ (w <| disk := f' |> <| guarded ::= remove_committed_blob d |>))).
    2: { intros ?. apply update_done. intros v (w & f' & -> & Hw). exact Hw. }
    apply host_ensures, path_call.
    + intros w w' (Hw & Hn & i & Hi & Hs) Hsame. pose proof Hsame as (N & I & _). split; [by eapply collected_steady|]. split; [done|].
      exists i. unfold file_content. by rewrite N, I.
    + intros w ([] & _). by apply resolve_leaf, so_blobs with fl.
    + by intros w ([] & _).
    + intros w (Hw & Hn & i & Hi & Hs). rewrite Hi. exists w, (erase (blobs store ++ [n]) (disk w)). split; [done|].
      eapply collected_remove; try done. by exists i.
Qed.
End collecting.

Lemma elem_of_leased s d : d ∈ leased s ↔ ∃ id ds, leases s !! id = Some ds ∧ d ∈ ds.
Proof.
  unfold leased. generalize (leases s) as m. intros m. induction m as [|id ds m Hid IH] using map_ind.
  - rewrite map_fold_empty. split; [by intros ?%not_elem_of_empty|]. intros (id & ds & E & _). by rewrite lookup_empty in E.
  - rewrite map_fold_insert_L by (done || set_solver). rewrite elem_of_union, IH. split.
    + intros [Hd|(j & es & Hj & Hd)]; [exists id, ds; by rewrite lookup_insert_eq|]. exists j, es. rewrite lookup_insert_ne; [done|].
      intros ->. congruence.
    + intros (j & es & Hj & Hd). apply lookup_insert_Some in Hj as [[_ <-]|[_ Hj]]; [by left|right; by exists j, es].
Qed.
(** What a collection keeps: roots, and what a pin or a lease names. *)
Definition pinned (w : World) (d : Sha256Digest) : Prop :=
  ∃ n m, is_Some (nodes (disk w) !! (pins_dir store ++ [n; m])) ∧ from_encoded m = Ok d.
Definition leased_in (w : World) (d : Sha256Digest) : Prop := ∃ id ds, leases (guarded w) !! id = Some ds ∧ d ∈ ds.
Definition kept (w : World) (roots : list Sha256Digest) (d : Sha256Digest) : Prop := d ∈ roots ∨ pinned w d ∨ leased_in w d.
Definition marks (w : World) (roots : list Sha256Digest) (marked : gset Sha256Digest) : Prop := ∀ d, d ∈ marked ↔ kept w roots d.
Lemma marking_ensures {A} (w0 : World) (roots : list Sha256Digest) (k : gset Sha256Digest → sm A) Q : J w0 →
  (∀ marked, marks w0 roots marked → ensures J (same w0) (k marked) Q) →
  ensures J (same w0) (let! pinned := read_pins (pins_dir store) in
    let! leased := locked (λ s, Ok (leased s)) in
    k (list_to_set roots ∪ list_to_set (pin_digest <$> pinned) ∪ leased)) Q.
Proof.
  intros H0 Hk. eapply ensures_bind; [by apply read_pins_ensures|]. intros pins.
  eapply (ensures_given _ (∀ x, x ∈ pins ↔ ∃ m, is_Some (nodes (disk w0) !! (pins_dir store ++ [pin_name x; m])) ∧
    from_encoded m = Ok (pin_digest x))); [by intros w []|]. intros Hp. apply ensures_left.
  eapply (ensures_bind _ _ _ (λ l w, same w0 w ∧ l = leased (guarded w0))).
  { intros w Hw. cbn. split; [done|]. by destruct Hw as (_ & _ & _ & ->). }
  intros l. apply ensures_pure. intros ->. apply Hk. intros d. rewrite !elem_of_union, !elem_of_list_to_set, elem_of_leased.
  rewrite list_elem_of_fmap. unfold kept, pinned. setoid_rewrite Hp. split.
  - intros [[?|([n e] & -> & m & Hm)]|?]; [by left|right; left; by exists n, m|by right; right].
  - intros [?|[(n & m & Hm)|?]]; [by left; left|left; right; exists (mkPin n d); split; [done|by exists m]|by right].
Qed.
Lemma names_ensures {A} (w0 : World) (k : list name → sm A) Q : J w0 →
  ensures J (same w0) (k (children (blobs store) (nodes (disk w0)))) Q →
  ensures J (same w0) (let! names := host (read_dir (blobs store)) in k names) Q.
Proof.
  intros H0 Hk. eapply (ensures_bind _ _ _ (λ names w, same w0 w ∧ names = children (blobs store) (nodes (disk w0)))).
  - eapply ensures_conseq; [apply (host_read_dir J (same w0)); [apply same_steady|intros w; by apply same_sound|]|done|].
    + intros w (N & _). rewrite N. apply resolve_real, H0.
    + intros names w [Hw ->]. split; [done|]. by destruct Hw as (-> & _).
  - intros names. apply ensures_pure. by intros ->.
Qed.
Lemma gc_ensures w0 roots : J w0 → ensures J (same w0) (garbage_collect_with_roots store roots false)
  (λ r w, ∃ marked, marks w0 roots marked ∧ collected w0 marked (children (blobs store) (nodes (disk w0))) r w).
Proof.
  intros H0. apply (marking_ensures w0 roots (sweep store false)); [done|]. intros marked Hm. unfold sweep. apply (names_ensures w0 (λ names, let! r := collect store marked _ names _ in _)); [done|].
  eapply (ensures_bind _ _ _ (λ r w, collected w0 marked (children (blobs store) (nodes (disk w0))) r w)).
  - eapply ensures_conseq; [apply (collect_ensures w0 H0 marked) with (done := [])| |by intros ? w Hw].
    + intros id ds d Hid Hd. apply Hm. right. right. by exists id, ds.
    + intros n d Hd Hn. apply Hm. right. left. exists n, (encoded d). split; [done|by apply from_encoded_encoded].
    + intros w Hw. pose proof Hw as (N & I & _ & G). split; rewrite ?N, ?I, ?G; [by eapply sound_steady|done| |by left|done|by cbn].
      intros d. rewrite decide_False; [done|]. by intros [_ ?%not_elem_of_nil].
  - intros r. eapply (ensures_bind _ _ _ (λ _ w, collected w0 marked (children (blobs store) (nodes (disk w0))) r w)).
    + destruct (_ && _); [|by apply ensures_ret]. apply host_sync; [apply collected_steady|by intros w []].
    + intros ?. apply ensures_ret. intros w Hw. by exists marked.
Qed.
Lemma dry_collect_ensures w0 marked names : J w0 → ∀ r, ensures J (same w0) (collect store marked true names r) (λ _, same w0).
Proof.
  intros H0. induction names as [|n names IH]; intros r; cbn [collect]; [by apply ensures_ret|].
  eapply ensures_bind.
  { apply (blob_entry_ensures J (same w0)); [apply same_steady|intros w; by apply same_sound|]. intros w (N & _). rewrite N. apply H0. }
  intros [d size]. apply ensures_left. case_bool_decide; [apply IH|]. cbn. eapply (ensures_bind _ _ _ (λ _, same w0)); [by apply ensures_ret|].
  intros ?. apply IH.
Qed.
Lemma dry_gc_ensures w0 roots : J w0 → ensures J (same w0) (garbage_collect_with_roots store roots true) (λ _, same w0).
Proof.
  intros H0. apply (marking_ensures w0 roots (sweep store true)); [done|]. intros marked Hm. unfold sweep. apply (names_ensures w0 (λ names, let! r := collect store marked _ names _ in _)); [done|].
  eapply ensures_bind; [by apply dry_collect_ensures|]. intros r. rewrite andb_false_r.
  eapply (ensures_bind _ _ _ (λ _, same w0)); [by apply ensures_ret|]. intros ?. by apply ensures_ret.
Qed.
End changing.

(** ** Ingestion *)

Hint Resolve steady_admitted steady_real : steady.
Lemma ensures_weaken {A} (I I' P : World → Prop) (c : sm A) Q : (∀ w, I w → I' w) → ensures I P c Q → ensures I' P c Q.
Proof. intros HI Hc w Hw. specialize (Hc w Hw). destruct (c w) as [[]]; [done|by apply HI]. Qed.
Section ingesting.
Context `{!HostLaws} (fl : inflight).
(** With the temporary file of this ingestion. *)
Abbreviation owning path file bytes := (sound (<[path := (file, bytes)]> fl)).
Lemma sound_fewer path i bytes w : fl !! path = None → owning path i bytes w → sound fl w.
Proof. intros Hp [T I B M P St On By Le Pi Te]. split; try done. intros p j b Hj. apply Te. rewrite lookup_insert_ne; [done|congruence]. Qed.
Lemma sound_enroll n i x w : sound fl w → let p := temporary_dir store ++ [n] in
  nodes (disk w) !! p = Some (Regular i) → inodes (disk w) !! i = Some x →
  (∀ q, nodes (disk w) !! q = Some (Regular i) → q = p) → owning p i (content x) w.
Proof.
  intros [T I B M P St On By Le Pi Te] p Hp Hi Hq. split; try done. intros q j b Hj.
  apply lookup_insert_Some in Hj as [[<- [= <- <-]]|[_ Hj]]; [|by apply Te]. split; [by exists n|]. split; [done|]. split; [by exists x|done].
Qed.
(** The temporary file is new. *)
Lemma attempts_ensures k : ensures (sound fl) (sound fl) (create_attempts k (temporary_dir store))
  (λ created w, owning created.1 created.2 [] w ∧ fl !! created.1 = None ∧ ∃ n, created.1 = temporary_dir store ++ [n]).
Proof.
  induction k as [|k IH]; cbn [create_attempts]; [by apply ensures_fail|].
  eapply (ensures_bind _ _ _ (λ _, sound fl)); [intros w Hw; cbn; eapply sound_steady; [done|by split_and!]|]. intros n.
  set (p := temporary_dir store ++ [n]).
  eapply (ensures_bind _ _ _ (λ r w, sound fl w ∧ ∀ i, r = Ok i → owning p i [] w ∧ fl !! p = None)).
  { intros w Hw. pose proof (create_file_ensures fl (temporary_dir store) n (temp_scratch n) w) as Hc.
    specialize (Hc ltac:(split; [split; [done|apply Hw]|]; intros n' m E; exfalso;
      destruct (apart_below _ _ (temporary_dir store ++ [n]) (la_both _ L)) as [_ Ha]; [by exists [n]|apply Ha; rewrite E; by eexists])).
    destruct (try_host _ w) as [[r|e] w'] eqn:Ec; [|done]. destruct Hc as [[Hw' _] Hc].
    split; [done|]. intros i ->. destruct (Hc i eq_refl) as (E1 & E2 & E3). split; [by apply (sound_enroll n i (mkInode [] FILE_MODE))|].
    eapply absent_idle; [exact Hw|]. eapply (created_absent p w i w'); [done|]. apply resolve_leaf, Hw. }
  intros [i|[]]; try (by apply ensures_fail; intros w []).
  - eapply (ensures_bind _ _ _ (λ _ w, owning p i [] w ∧ fl !! p = None)).
    + intros w [Hw Hi]. destruct (Hi i eq_refl) as [Hu Hn]. pose proof (file_mode_ensures (<[p := (i, [])]> fl) (λ _, True) i 0x180) as Hm.
      specialize (Hm ltac:(done) ltac:(by auto with steady) w (conj Hu I)). unfold set_private_file_permissions.
      destruct (host _ w) as [[]]; [by destruct Hm|by eapply sound_fewer].
    + intros ?. apply ensures_ret. intros w [Hu Hn]. split; [done|]. split; [done|by exists n].
  - eapply ensures_conseq; [apply IH|by intros w []|done].
Qed.
Section file.
Context (path : fspath) (file : Z) (Hfree : fl !! path = None).
Lemma write_all_ensures bytes chunk : ensures (sound fl) (owning path file bytes) (host (write_all file chunk))
  (λ _, owning path file (bytes ++ chunk)).
Proof.
  apply host_ensures, plain_call_of; [by auto with steady|intros w; by apply sound_fewer|]. intros w Hw. cbn.
  destruct (so_temp _ _ Hw path file bytes) as (_ & En & (x & Hx & Ex) & Hex); [apply lookup_insert_eq|].
  eapply (sound_content (<[path := (file, bytes)]> fl)); [done|done|done|..]; cbn.
  - intros j. destruct (decide (file = j)) as [<-|Hne]; [rewrite lookup_alter_eq; by destruct (inodes (disk w) !! file)|by rewrite lookup_alter_ne].
  - intros p j b Hj. apply lookup_insert_Some in Hj as [[<- [= <- <-]]|[Hne Hj]].
    + split; [exists bytes; apply lookup_insert_eq|]. rewrite lookup_alter_eq, Hx. eexists. split; [done|]. cbn. by rewrite Ex.
    + split; [exists b; by rewrite lookup_insert_ne|]. destruct (so_temp _ _ Hw p j b) as (_ & En' & (y & Hy & Ey) & _); [by rewrite lookup_insert_ne|].
      rewrite lookup_alter_ne; [by exists y|]. intros <-. by apply Hne, eq_sym, Hex.
  - intros j y Hy Hno. rewrite lookup_alter_ne; [by exists y|]. intros <-. apply (Hno path bytes), lookup_insert_eq.
Qed.
(** The bytes up to the end of the stream. *)
Fixpoint readable (reads : list (option (list Z))) : list Z :=
  match reads with Some (b :: chunk) :: reads => b :: chunk ++ readable reads | _ => [] end.
Definition limit_of (expected : option BlobDescriptor) : Z :=
  match expected with Some e => Z.min (blob_size e) (max_blob_size store) | None => max_blob_size store end.
Lemma copy_ensures expected reads : ∀ remaining bytes, limit_of expected + 1 - len bytes ≤ remaining → len bytes ≤ limit_of expected →
  ensures (sound fl) (owning path file bytes) (copy_blob store expected file remaining (len bytes) bytes reads)
    (λ out w, owning path file out.1 w ∧ out.1 = bytes ++ readable reads ∧ out.2 = len out.1 ∧ len out.1 ≤ limit_of expected).
Proof.
  induction reads as [|[chunk|] reads IH]; intros remaining bytes Hr Hl; cbn [copy_blob].
  all: replace (remaining =? 0) with false by lia.
  - apply ensures_ret. intros w Hw. cbn. by rewrite app_nil_r.
  - destruct chunk as [|b chunk].
    { rewrite take_nil. apply ensures_ret. intros w Hw. cbn. by rewrite app_nil_r. }
    set (c := take (Z.to_nat remaining) (b :: chunk)). rewrite bool_decide_eq_false_2 by (subst c; destruct (Z.to_nat remaining) eqn:E; [lia|done]).
    unfold checked_add. destruct (_ <? 2 ^ 64); [|apply ensures_fail; intros w; by apply sound_fewer].
    destruct (Z.ltb_spec (max_blob_size store) (len bytes + len c)) as [|Hmax]; [apply ensures_fail; intros w; by apply sound_fewer|].
    eapply (ensures_bind _ _ _ (λ _ w, owning path file bytes w ∧ len bytes + len c ≤ limit_of expected)).
    { unfold limit_of in *. destruct expected as [e|]; [|apply ensures_ret; by intros w Hw].
      destruct (Z.ltb_spec (blob_size e) (len bytes + len c)); [apply ensures_fail; intros w; by apply sound_fewer|].
      apply ensures_ret. intros w Hw. split; [done|lia]. }
    intros ?. apply ensures_pure. intros Hle. assert (c = b :: chunk) as Hc.
    { subst c. apply take_ge. destruct (decide (length (b :: chunk) ≤ Z.to_nat remaining)%nat) as [|Hgt]; [done|].
      unfold len in Hle at 2. rewrite length_take in Hle. lia. }
    rewrite Hc in *. eapply ensures_bind; [apply write_all_ensures|]. intros ?. rewrite <- len_app in *.
    eapply ensures_conseq; [apply (IH (remaining - len (b :: chunk)) (bytes ++ b :: chunk)); rewrite ?len_app in *; lia|done|].
    intros out w (Hw & Ho & H1 & H2). split; [done|]. split; [|done]. rewrite Ho. cbn. by rewrite <- app_assoc.
  - apply ensures_fail. intros w. by apply sound_fewer.
Qed.

(** *** Committing *)

Context (bytes : list Z).
Abbreviation d := (calculate bytes).
Abbreviation b := (mkDescriptor d (len bytes)).
Context (s0 : State) (lease : option Z).
(** The blob is there, and so is all that was. *)
Definition committed_in (w : World) : Prop := committed_blobs (guarded w) !! d = Some (len bytes) ∧ grown lease s0 (guarded w).
Definition retained (w : World) : Prop := sound fl w ∧ grown lease s0 (guarded w).
Definition held (w : World) : Prop := owning path file bytes w ∧ grown lease s0 (guarded w).
Lemma held_retained w : held w → retained w.
Proof. intros [Hw Hg]. split; [by eapply sound_fewer|done]. Qed.
Lemma held_steady : steady held.
Proof. apply steady_and; [by auto with steady|apply (steady_state (grown lease s0))]. Qed.
Hint Resolve held_steady : steady.
Lemma sound_commit w f' : owning path file bytes w → nodes (disk w) !! blob_path store d = None →
  committed_bytes (guarded w) + len bytes ≤ max_committed_bytes store →
  nodes f' = <[blob_path store d := Regular file]> (delete path (nodes (disk w))) → inodes f' = inodes (disk w) →
  next_inode f' = next_inode (disk w) → sound fl (w <| disk := f' |> <| guarded ::= observe_committed_blob b |>).
Proof.
  intros Hw Hn Hcap En Ei Ex. pose proof Hw as [T [X N] B M P St On [By Bw] Le Pi Te].
  destruct (Te path file bytes) as ([n Hpath] & Ep & (x & Hx & Hc) & Hex); [apply lookup_insert_eq|].
  assert (digest_ok d) as Hd by apply calculate_ok. assert (committed_blobs (guarded w) !! d = None) as Hcd.
  { destruct (committed_blobs (guarded w) !! d) as [s|] eqn:E; [|done]. destruct (St _ _ E) as (_ & ? & (i & y & Ei' & _) & _). congruence. }
  assert (observe_committed_blob b (guarded w) = (guarded w) <| committed_blobs ::= <[d := len bytes]> |>
    <| committed_bytes ::= λ n, saturating_add 64 n (len bytes) |>) as Eg by (unfold observe_committed_blob; cbn [digest blob_size]; by rewrite Hcd).
  assert (scratch path) as Hs by (rewrite Hpath; apply temp_scratch).
  assert (∀ q, q ≠ path → q ≠ blob_path store d → nodes f' !! q = nodes (disk w) !! q) as Hq.
  { intros q H1 H2. rewrite En, lookup_insert_ne, lookup_delete_ne; done. }
  assert (∀ D, D ∈ [blobs store; temporary_dir store; pins_dir store] → real (nodes (disk w)) D → real (nodes f') D) as HD.
  { intros D HD Hr p Hpre. rewrite Hq; [by apply Hr|intros ->; by apply (scratch_above path D)|]. intros ->.
    destruct (Hr _ Hpre) as [m Hm]. congruence. }
  assert (∀ m e, m ++ [e] = path → m = temporary_dir store) as Htmp by (intros m e E; rewrite Hpath in E; by apply app_inj_tail in E as []).
  split; cbn; rewrite ?Eg; try (apply HD; [set_solver|done]); cbn.
  - rewrite En. apply tree_put; [apply tree_erase; [done|intros m; congruence]| |].
    + intros p Hp. rewrite lookup_delete_ne; [by apply B|]. intros <-. apply (scratch_above path (blobs store)); [done|set_solver|done].
    + intros m. rewrite lookup_delete_ne; [unfold blob_path in Hn; congruence|]. apply not_eq_sym. by apply scratch_blob.
  - split; [by rewrite Ei, Ex|]. intros p i. rewrite Ei, En. intros Hi. apply lookup_insert_Some in Hi as [[_ [= <-]]|[_ Hi]]; [by exists x|].
    apply lookup_delete_Some in Hi as [_ Hi]. by eapply N.
  - intros e s He. apply lookup_insert_Some in He as [[<- <-]|[Hne He]].
    + split; [done|]. exists bytes. split; [|done]. exists file, x. rewrite Ei, En, lookup_insert_eq. done.
    + destruct (St _ _ He) as (Ho & c & (i & y & E1 & E2 & E3) & E4). split; [done|]. exists c. split; [|done]. exists i, y.
      rewrite Ei, Hq; [done| |].
      * by apply scratch_blob.
      * intros E. apply app_inv_head in E as [= Ee]. apply Hne, eq_sym, encoded_inj; done.
  - intros m Hm. destruct (decide (blobs store ++ [m] = blob_path store d)) as [E|Hne].
    + apply app_inv_head in E as [= ->]. exists d. split; [done|]. rewrite lookup_insert_eq. by eexists.
    + rewrite Hq in Hm; [|by apply scratch_blob|done]. destruct (On m Hm) as (e & -> & Hse). exists e. split; [done|].
      rewrite lookup_insert_ne; [done|]. by intros <-.
  - rewrite total_insert by done. pose proof (len_nonneg bytes). assert (0 ≤ total (committed_blobs (guarded w))).
    { apply total_sizes_nonneg. intros e t He. destruct (St _ _ He) as (_ & c & _ & _ & <-). apply len_nonneg. }
    unfold saturating_add. lia.
  - intros id ds e Hi He. apply lookup_insert_is_Some. destruct (decide (d = e)); [by left|right; split; [done|by eapply Le]].
  - intros n' m Hm. rewrite Hq in Hm; [| |by apply not_eq_sym, (scratch_blob _ (encoded d)), pin_scratch].
    + destruct (Pi _ _ Hm) as (e & -> & He). exists e. split; [done|]. apply lookup_insert_is_Some. destruct (decide (d = e)); [by left|by right].
    + intros E. rewrite Hpath in E. destruct (apart_below _ _ (temporary_dir store ++ [n]) (la_both _ L)) as [_ Ha]; [by exists [n]|].
      apply Ha. rewrite <- E. by eexists.
  - intros p i c Hp. destruct (Te p i c) as (H1 & H2 & H3 & H4); [rewrite lookup_insert_ne; [done|congruence]|]. split; [done|].
    destruct H1 as [n' ->]. assert (temporary_dir store ++ [n'] ≠ path) as Hne by congruence. rewrite Ei.
    split; [rewrite Hq; [done|done|by apply not_eq_sym, (scratch_blob _ (encoded d)), temp_scratch]|]. split; [done|].
    intros q Hqi. rewrite En in Hqi. apply lookup_insert_Some in Hqi as [[_ [= <-]]|[_ Hqi]].
    + exfalso. by apply Hne, Hex.
    + apply lookup_delete_Some in Hqi as [_ Hqi]. by apply H4.
Qed.
(** A blob already there is checked and counted. *)
Lemma existing_ensures : ensures retained held
  (let! _ := verify_blob_file (blob_path store d) b in update_state (observe_committed_blob b))
  (λ _ w, sound fl w ∧ committed_in w).
Proof.
  eapply ensures_bind.
  { apply (verify_ensures retained held held_steady held_retained (λ w Hw, so_blobs _ _ (proj1 Hw)) b).
    intros w Hw. apply Hw. }
  intros ?. apply update_done. intros w ([Hw Hg] & c & (i & y & E1 & E2 & E3) & Ec & El). apply sound_fewer in Hw; [|done].
  destruct (present_committed fl d w Hw (calculate_ok bytes)) as [s Hs]; [by eexists|]. cbn in E1, Ec, El.
  destruct (so_stored _ _ Hw d s Hs) as (Hd & c' & (i' & y' & E1' & E2' & E3') & _ & El').
  assert (s = len bytes) as -> by (cbn in E1; assert (i' = i) by congruence; subst i'; assert (y' = y) by congruence; congruence).
  assert (observe_committed_blob b (guarded w) = guarded w) as Eg.
  { unfold observe_committed_blob. cbn [digest blob_size]. rewrite Hs. destruct (guarded w) as [n l m t]. cbn in Hs |- *.
    unfold set_field. cbn. f_equal. by apply insert_id. }
  assert (w <| guarded ::= observe_committed_blob b |> = w) as -> by (destruct w; cbn in *; unfold set_field; cbn; by rewrite Eg).
  done.
Qed.
Lemma rename_ensures (I : World → Prop) : ensures I
  (λ w, (owning path file bytes w ∧ nodes (disk w) !! blob_path store d = None) ∧
     committed_bytes (guarded w) + len bytes ≤ max_committed_bytes store)
  (try_host (rename path (blob_path store d)))
  (λ r w, match r with
          | Ok _ => sound fl (w <| guarded ::= observe_committed_blob b |>)
          | Err _ => owning path file bytes w
          end).
Proof.
  apply try_ensures. intros w [[Hw Hn] Hcap]. destruct (so_temp _ _ Hw path file bytes) as ([n Hpath] & Ep & _); [apply lookup_insert_eq|].
  set (P := λ w, (owning path file bytes w ∧ nodes (disk w) !! blob_path store d = None ∧ nodes (disk w) !! path = Some (Regular file)) ∧
    committed_bytes (guarded w) + len bytes ≤ max_committed_bytes store).
  assert (steady P) as HS. { intros v v' [(H1 & H2 & H3) H4] Hsame. split; [|by destruct Hsame as (_ & _ & _ & ->)].
    split; [by eapply sound_steady|]. by destruct Hsame as (-> & _). }
  assert (call_of P (λ r w, match r with Ok _ => sound fl (w <| guarded ::= observe_committed_blob b |>) | Err _ => owning path file bytes w end)
    (rename (temporary_dir store ++ [n]) (blob_path store d))) as Hcall.
  { apply path_call; [done|intros v [(Hv & _) _]; by apply resolve_leaf, Hv|by intros v [(Hv & _) _]|].
    intros v [(Hv & Hn' & Ep') Hcap']. rewrite <- Hpath. unfold blob_path at 1. rewrite resolve_leaf by apply Hv.
    fold (blob_path store d). unfold same_file, may_replace. rewrite Ep', Hn'. cbn.
    apply (sound_commit v ((disk v) <| nodes ::= move path (blob_path store d) |>)); try done. cbn.
    rewrite (move_leaf _ _ _ (Regular file)); [done|apply Hv|done|done|done]. }
  rewrite <- Hpath in Hcall. by apply (Hcall w).
Qed.
Lemma absent_uncommitted w : owning path file bytes w → nodes (disk w) !! blob_path store d = None → committed_blobs (guarded w) !! d = None.
Proof.
  intros Hw Hn. destruct (committed_blobs (guarded w) !! d) as [s|] eqn:E; [|done].
  destruct (so_stored _ _ Hw _ _ E) as (_ & ? & (i & y & Ei' & _) & _). congruence.
Qed.
Lemma commit_ensures : ensures retained held (commit_temporary store path b lease)
  (λ _ w, sound fl w ∧ committed_in w ∧ names_blob lease d (guarded w)).
Proof.
  pose proof held_retained as Hf.
  eapply (ensures_bind _ _ _ (λ _, held)).
  { destruct lease as [id|]; [|by apply ensures_ret]. eapply ensures_bind; [by apply ensures_read|]. intros ?. by apply ensures_ret. }
  intros ?. eapply ensures_bind.
  { apply (try_metadata retained held); [by auto with steady|]. intros w Hw. by apply resolve_leaf, Hw. }
  intros found. eapply (ensures_bind _ _ _ (λ _ w, sound fl w ∧ committed_in w)).
  2: { intros ?. destruct lease as [id|] eqn:El; [|apply ensures_ret; by intros w [? ?]]. intros w (Hw & Hc & Hg).
       pose proof (insert_leased_ensures fl id d w (conj Hw (mk_is_Some _ _ Hc))) as HI. cbn [digest].
       destruct (insert_leased id d w) as [[[]|] w'] eqn:E; [|apply insert_leased_fails in E as ->; by split].
       apply insert_leased_grows in E as (HC & HG & HL).
       split; [done|]. split; [|done]. split; [by rewrite HC|]. rewrite El in *. by etrans. }
  destruct found as [node|[]]; try (by apply ensures_fail; intros w []; apply Hf).
  - apply ensures_left, existing_ensures.
  - eapply (ensures_bind _ _ _ (λ _ w, (held w ∧ nodes (disk w) !! blob_path store d = None) ∧
      committed_bytes (guarded w) + len bytes ≤ max_committed_bytes store)).
    { intros w [[Hw Hg] Hn]. unfold locked, sread. cbn [digest blob_size] in *. rewrite (absent_uncommitted w Hw Hn).
      unfold ensure_committed_capacity, checked_add. destruct (_ <? 2 ^ 64); [|by apply Hf].
      destruct (Z.ltb_spec (max_committed_bytes store) (committed_bytes (guarded w) + len bytes)); [by apply Hf|]. split; [done|lia]. }
    intros ?. eapply ensures_bind.
    { eapply ensures_conseq; [eapply (ensures_state _ _ _ _ (λ s, committed_blobs s !! d = None ∧ grown lease s0 s)); [apply untouched_try|apply rename_ensures]| |done].
      intros w [[[Hw Hg] Hn] Hcap]. split; [done|]. split; [by apply absent_uncommitted|done]. }
    intros [?|e].
    + eapply (ensures_bind _ _ _ (λ _ w, sound fl w ∧ committed_in w)).
      * apply update_done. intros w (Hw & Hn & Hg). split; [done|]. split; [|cbn; etrans; [done|by apply observe_grown]].
        unfold observe_committed_blob. cbn. by case_match; cbn; rewrite lookup_insert_eq.
      * intros ?. apply host_sync; [apply steady_and; [by auto with steady|apply (steady_state (λ s, committed_blobs s !! d = Some (len bytes) ∧ grown lease s0 s))]|by intros w (? & _ & ?)].
    + eapply ensures_bind.
      { eapply ensures_conseq; [apply (try_metadata retained held); [by auto with steady|]; intros w Hw; by apply resolve_leaf, Hw| |done].
        by intros w (? & _ & ?). }
      intros [node|]; [apply ensures_left, existing_ensures|apply ensures_fail; intros w []; by apply Hf].
Qed.
Lemma finish_ensures expected : ensures retained held
  (ingest_finish store expected lease path (bytes, len bytes))
  (λ r w, (sound fl w ∧ committed_in w ∧ names_blob lease d (guarded w)) ∧ r = b ∧ ∀ e, expected = Some e → e = b).
Proof.
  pose proof held_retained as Hf.
  eapply (ensures_bind _ _ _ (λ _ w, held w ∧ ∀ e, expected = Some e → e = b)).
  { destruct expected as [[ed es]|]; [|by apply ensures_ret]. cbn. destruct (Z.eqb_spec es (len bytes)) as [->|]; cbn; [|by apply ensures_fail].
    case_bool_decide as E; [|by apply ensures_fail]. apply ensures_ret. intros w Hw. split; [done|]. intros e [= <-]. by rewrite E. }
  intros ?. apply ensures_pure. intros He. eapply ensures_bind; [apply host_sync; [by auto with steady|done]|]. intros ?.
  eapply ensures_bind; [apply commit_ensures|]. intros ?. apply ensures_ret. done.
Qed.
End file.

Lemma try_state {A} (c : st Fs IoError A) w : (try_host c w).2 = (host c w).2.
Proof. unfold try_host, host. by destruct (c (disk w)). Qed.
(** The guard leaves the store as it is. *)
Lemma guard_ensures {A} path (ψ : State → Prop) (P : World → Prop) (c : sm A) (φ : A → State → Prop) : fl !! path = None →
  (∃ n, path = temporary_dir store ++ [n]) →
  ensures (λ w, sound fl w ∧ ψ (guarded w)) P c (λ a w, sound fl w ∧ φ a (guarded w)) →
  ensures (λ w, sound fl w ∧ ψ (guarded w)) P (with_guard path c) (λ a w, sound fl w ∧ φ a (guarded w)).
Proof.
  intros Hfree [n ->] Hc w Hw. unfold with_guard. specialize (Hc w Hw).
  assert (∀ v, sound fl v → sound fl (try_host (remove_file (temporary_dir store ++ [n])) v).2) as Hs.
  { intros v Hv. rewrite try_state. pose proof (remove_scratch_ensures fl (temporary_dir store) n (temp_scratch n)) as Hr.
    specialize (Hr ltac:(by intros) v (conj Hv (so_tmp _ _ Hv))). by destruct (host _ v) as [[]]; [destruct Hr|]. }
  assert (∀ v, guarded (try_host (remove_file (temporary_dir store ++ [n])) v).2 = guarded v) as Hg by (intros v; apply untouched_try).
  destruct (c w) as [[a|e] w']; destruct Hc as [Hc Hφ]; specialize (Hg w'); specialize (Hs w' Hc);
    destruct (try_host _ w') as [? w'']; cbn in *; by rewrite Hg.
Qed.
(** A descriptor of what was read. *)
Definition describes (reads : list (option (list Z))) (expected : option BlobDescriptor) (b : BlobDescriptor) : Prop :=
  b = mkDescriptor (calculate (readable reads)) (len (readable reads)) ∧ len (readable reads) ≤ max_blob_size store ∧
  ∀ e, expected = Some e → e = b.
Lemma untouched_begin expected : untouched (ingest_begin store expected).
Proof.
  apply untouched_bind.
  - destruct expected as [e|]; [|done]. destruct (_ <? _); [done|]. intros w. unfold preflight_committed_quota, locked, sread. done.
  - intros ?. unfold create_temporary_file. generalize 128%nat. intros k. induction k as [|k IH]; [done|]. cbn [create_attempts].
    apply untouched_bind; [done|]. intros n. apply untouched_bind; [apply untouched_try|]. intros [file|[]]; try done.
    apply untouched_bind; [apply untouched_host|done].
Qed.
Lemma untouched_copy expected file reads : untouched (ingest_copy store expected file reads).
Proof.
  unfold ingest_copy. generalize (saturating_add 64 (match expected with Some e => blob_size e | None => max_blob_size store end) 1) as remaining.
  generalize 0 as total. generalize (@nil Z) as bytes. induction reads as [|[chunk|] reads IH]; intros bytes total remaining; cbn [copy_blob];
    (destruct (remaining =? 0); [done|]); try done.
  case_bool_decide; [done|]. destruct (checked_add 64 total _); [|done]. destruct (_ <? _); [done|].
  apply untouched_bind; [destruct expected; [destruct (_ <? _)|]; done|]. intros ?.
  apply untouched_bind; [apply untouched_host|]. intros ?. apply IH.
Qed.
Lemma ingest_grows s0 reads expected lease : 0 ≤ max_blob_size store < 2 ^ 64 - 1 → (∀ e, expected = Some e → 0 ≤ blob_size e) →
  ensures (λ w, sound fl w ∧ grown lease s0 (guarded w)) (λ w, sound fl w ∧ grown lease s0 (guarded w)) (ingest_inner store reads expected lease)
    (λ b w, sound fl w ∧ describes reads expected b ∧ committed_blobs (guarded w) !! digest b = Some (blob_size b) ∧
       grown lease s0 (guarded w) ∧ names_blob lease (digest b) (guarded w)).
Proof.
  intros Hmax Hexp. unfold ingest_inner.
  eapply (ensures_bind _ _ _ (λ created w, (owning created.1 created.2 [] w ∧ fl !! created.1 = None ∧ (∃ n, created.1 = temporary_dir store ++ [n]) ∧
    ∀ e, expected = Some e → blob_size e ≤ max_blob_size store) ∧ grown lease s0 (guarded w))).
  { apply (ensures_framed _ _ _ _ (grown lease s0)); [apply untouched_begin|].
    eapply (ensures_bind _ _ _ (λ _ w, sound fl w ∧ ∀ e, expected = Some e → blob_size e ≤ max_blob_size store)).
    - destruct expected as [e|]; [|by apply ensures_ret]. destruct (Z.ltb_spec (max_blob_size store) (blob_size e)); [by apply ensures_fail|].
      eapply ensures_conseq; [by apply ensures_read|done|]. intros ? w Hw. split; [done|]. by intros ? [= <-].
    - intros ?. apply ensures_pure. intros He. eapply ensures_conseq; [apply attempts_ensures|done|]. intros created w (H1 & H2 & H3). done. }
  intros [path file]. cbn [fst snd]. eapply (ensures_given _ (fl !! path = None ∧ (∃ n, path = temporary_dir store ++ [n]) ∧
    ∀ e, expected = Some e → blob_size e ≤ max_blob_size store)); [by intros w ((_ & ?) & _)|].
  intros (Hfree & Hpath & He).
  apply (guard_ensures path (grown lease s0) _ _ (λ b s, describes reads expected b ∧ committed_blobs s !! digest b = Some (blob_size b) ∧
    grown lease s0 s ∧ names_blob lease (digest b) s)); [done|done|].
  assert (0 ≤ limit_of expected) as Hl0 by (unfold limit_of; destruct expected as [e|]; [specialize (Hexp e eq_refl)|]; lia).
  eapply ensures_bind.
  { eapply ensures_conseq; [eapply (ensures_framed _ _ _ _ (grown lease s0)); [apply untouched_copy|]|..].
    - apply (copy_ensures path file Hfree expected reads _ []); [|done]. unfold saturating_add, limit_of. change (len (@nil Z)) with 0.
      destruct expected as [e|]; [specialize (He e eq_refl)|]; lia.
    - by intros w [[? _] ?].
    - done. }
  intros [out n]. cbn [fst snd]. eapply (ensures_given _ (out = readable reads ∧ n = len out ∧ len out ≤ limit_of expected)); [by intros w ((_ & ?) & _)|].
  intros (-> & -> & Hlim). eapply ensures_conseq; [by apply (finish_ensures path file Hfree (readable reads) s0 lease)|by intros w [[? _] ?]|].
  intros b w ((Hw & (Hc & Hg) & Hl) & -> & Hb). split; [done|]. split; [|done]. split; [done|]. split; [|done].
  unfold limit_of in Hlim. destruct expected; lia.
Qed.
Lemma ingest_ensures reads expected lease : 0 ≤ max_blob_size store < 2 ^ 64 - 1 → (∀ e, expected = Some e → 0 ≤ blob_size e) →
  ensures (sound fl) (sound fl) (ingest_inner store reads expected lease)
    (λ b w, sound fl w ∧ describes reads expected b ∧ committed_blobs (guarded w) !! digest b = Some (blob_size b)).
Proof.
  intros Hmax He w Hw. pose proof (ingest_grows (guarded w) reads expected lease Hmax He w (conj Hw (reflexivity _))) as Hi.
  destruct (ingest_inner _ _ _ _ w) as [[b|e] w']; [by destruct Hi as (? & ? & ? & _)|by destruct Hi].
Qed.
End ingesting.
End store.
