(* ===== verification/ContentTheorems.v ===== *)
(** The content store as its clients see it: threads that share one store, the
    invariant of every state they reach, what a collection keeps, what an ingestion
    stores, and the opening of a store. *)
From stdpp Require Import strings gmap.
From S2P Require Import Prelude.
From S2P Require Import Text.
From S2P Require Import Filesystem.
From S2P Require Import Layer.
From S2P Require Import Content.
From S2P Require Import ContentSafety.
Local Open Scope Z_scope.

(** ** Clients *)

(** The operations that hold the lock throughout. *)
Inductive operation :=
  | Pinning (n : name) (d : Sha256Digest)
  | Unpinning (n : name) (d : Sha256Digest)
  | Listing
  | Leasing
  | Adding (l : Lease) (d : Sha256Digest)
  | Removing (l : Lease) (d : Sha256Digest)
  | Releasing (l : Lease)
  | Dropping (l : Lease)
  | Collecting (roots : list Sha256Digest) (dry_run : bool)
  | Verifying (b : BlobDescriptor)
  | Opening (d : Sha256Digest)
  | Looking (d : Sha256Digest).
(** Digests are arrays of thirty-two bytes. *)
Definition operation_ok (o : operation) : Prop :=
  match o with Pinning _ d | Adding _ d => digest_ok d | _ => True end.
Section clients.
Context `{Host} `{!HostLaws} (store : Inner).
Definition perform (o : operation) (w : World) : World :=
  match o with
  | Pinning n d => (pin store n d w).2
  | Unpinning n d => (unpin store n d w).2
  | Listing => (pins store w).2
  | Leasing => (create_lease w).2
  | Adding l d => (lease_add store l d w).2
  | Removing l d => (lease_remove l d w).2
  | Releasing l => (release l w).2
  | Dropping l => (drop_lease l w).2
  | Collecting roots dry_run => (garbage_collect_with_roots store roots dry_run w).2
  | Verifying b => (verify store b w).2
  | Opening d => (open_blob store d w).2
  | Looking d => (contains store d w).2
  end.
(** One step of any thread: an operation, or a part of an ingestion, its result a
    success or not; and the host's clock and failures are anything at any time. *)
Inductive step : inflight * World → inflight * World → Prop :=
  | step_host fl w l c : step (fl, w) (fl, w <| disk ::= λ f, f <| faults := l |> |> <| clock := c |>)
  | step_perform fl w o : operation_ok o → step (fl, w) (fl, perform o w)
  | step_begin fl w expected path file w' : ingest_begin store expected w = (Ok (path, file), w') →
      step (fl, w) (<[path := (file, [])]> fl, w')
  | step_refused fl w expected e w' : ingest_begin store expected w = (Err e, w') → step (fl, w) (fl, w')
  | step_write fl w path file bytes chunk w' : fl !! path = Some (file, bytes) → host (write_all file chunk) w = (Ok (), w') →
      step (fl, w) (<[path := (file, bytes ++ chunk)]> fl, w')
  | step_abandon fl w path file bytes e : fl !! path = Some (file, bytes) →
      step (fl, w) (delete path fl, (with_guard (A := ()) path (sfail e) w).2)
  | step_failed fl w path file bytes chunk e w' : fl !! path = Some (file, bytes) → host (write_all file chunk) w = (Err e, w') →
      step (fl, w) (delete path fl, (with_guard (A := ()) path (sfail e) w').2)
  | step_finish fl w path file bytes expected lease : fl !! path = Some (file, bytes) →
      step (fl, w) (delete path fl, (with_guard path (ingest_finish store expected lease path (bytes, len bytes)) w).2).

Context (quota : Z) (L : layout store) (Hquota : max_committed_bytes store ≤ quota < 2 ^ 64).
Abbreviation sound := (sound store quota).
Lemma read_only fl {A} (c : sm A) w : sound fl w → ensures (sound fl) (same w) c (λ _, same w) → sound fl (c w).2.
Proof.
  intros Hw Hc. specialize (Hc w ltac:(by split_and!)). destruct (c w) as [[a|e] w']; [|done]. by eapply sound_steady.
Qed.
Lemma keeps_sound fl {A} (c : sm A) w : sound fl w → ensures (sound fl) (sound fl) c (λ _, sound fl) → sound fl (c w).2.
Proof. intros Hw Hc. by apply (ensures_run _ _ _ w Hc). Qed.
Lemma perform_sound fl o w : operation_ok o → sound fl w → sound fl (perform o w).
Proof.
  intros Ho Hw. assert (steady (sound fl)) as HS by apply sound_steady.
  assert (∀ v, sound fl v → real (nodes (disk v)) (blobs store)) as HB by (by intros v []).
  destruct o as [n d|n d| | |l d|l d|l|l|roots []|b|d|d]; cbn [perform].
  - apply keeps_sound; [done|]. by apply pin_ensures.
  - apply keeps_sound; [done|]. by apply unpin_ensures.
  - apply read_only; [done|]. eapply ensures_conseq; [by apply read_pins_ensures|done|by intros ? v []].
  - apply keeps_sound; [done|]. by apply create_lease_ensures.
  - apply keeps_sound; [done|]. unfold lease_add, usable. destruct (released l); [by apply ensures_fail|by apply add_to_lease_ensures].
  - apply keeps_sound; [done|]. unfold lease_remove, usable. destruct (released l); [by apply ensures_fail|by apply remove_from_lease_ensures].
  - apply keeps_sound; [done|]. unfold release. destruct (released l); [by apply ensures_ret|by apply release_lease_ensures].
  - apply keeps_sound; [done|]. unfold drop_lease. destruct (released l); [by apply ensures_ret|by apply release_lease_ensures].
  - apply read_only; [done|]. by apply dry_gc_ensures.
  - pose proof (gc_ensures store quota L Hquota fl w roots Hw w ltac:(by split_and!)) as Hc.
    destruct (garbage_collect_with_roots _ _ _ w) as [[r|e] w']; [|done]. by destruct Hc as (m & _ & []).
  - apply keeps_sound; [done|]. eapply ensures_conseq; [apply (verify_ensures _ (sound fl) (sound fl)); try done; by intros v []|done|by intros ? v []].
  - apply keeps_sound; [done|]. unfold open_blob. eapply ensures_bind; [apply (try_open (sound fl) (sound fl) HS); intros v Hv; by apply resolve_leaf, HB|].
    intros [node|[]]; try (by apply ensures_fail; intros v []). apply ensures_left.
    eapply ensures_bind; [by apply host_quiet|]. intros m. destruct m; [apply ensures_fail|apply ensures_ret|apply ensures_fail]; by intros v [].
  - apply keeps_sound; [done|]. unfold contains. eapply ensures_bind; [apply (try_metadata (sound fl) (sound fl) HS); intros v Hv; by apply resolve_leaf, HB|].
    intros [node|[]]; try (by apply ensures_fail; intros v []); [destruct (is_file node); [apply ensures_ret|apply ensures_fail]|apply ensures_ret]; by intros v [].
Qed.
Lemma begin_sound fl expected w : sound fl w →
  match ingest_begin store expected w with
  | (Ok (path, file), w') => sound (<[path := (file, [])]> fl) w'
  | (Err _, w') => sound fl w'
  end.
Proof.
  intros Hw. assert (ensures (sound fl) (sound fl) (ingest_begin store expected) (λ created w, sound (<[created.1 := (created.2, [])]> fl) w)) as Hc.
  { eapply (ensures_bind _ _ _ (λ _, sound fl)).
    - destruct expected as [e|]; [|by apply ensures_ret]. destruct (_ <? _); [by apply ensures_fail|by apply ensures_read].
    - intros ?. eapply ensures_conseq; [by apply attempts_ensures|done|by intros ? v []]. }
  specialize (Hc w Hw). by destruct (ingest_begin store expected w) as [[[]|]].
Qed.
(** Giving up an ingestion, or finishing it, leaves the others. *)
Lemma guarded_sound fl {A} path file bytes (c : sm A) w : fl !! path = Some (file, bytes) → sound fl w →
  ensures (sound (delete path fl)) (sound fl) c (λ _, sound (delete path fl)) →
  sound (delete path fl) (with_guard path c w).2.
Proof.
  intros Hp Hw Hc. destruct (so_temp _ _ _ _ Hw _ _ _ Hp) as (Hn & _).
  pose proof (guard_ensures store quota L Hquota (delete path fl) path (λ _, True) (sound fl) c (λ _ _, True) (lookup_delete_eq _ _) Hn) as Hg.
  specialize (Hg ltac:(intros v Hv; specialize (Hc v Hv); by destruct (c v) as [[]]) w Hw). by destruct (with_guard path c w) as [[]]; destruct Hg.
Qed.
Lemma step_sound a a' : step a a' → sound a.1 a.2 → sound a'.1 a'.2.
Proof.
  intros [fl w l c|fl w o Ho|fl w expected path file w' E|fl w expected e w' E|fl w path file bytes chunk w' Hp E|
    fl w path file bytes e Hp|fl w path file bytes chunk e w' Hp E|fl w path file bytes expected lease Hp]; cbn [fst snd]; intros Hw.
  - eapply sound_steady; [done|by split_and!].
  - by apply perform_sound.
  - pose proof (begin_sound fl expected w Hw) as Hb. by rewrite E in Hb.
  - pose proof (begin_sound fl expected w Hw) as Hb. by rewrite E in Hb.
  - pose proof (write_all_ensures store quota L (delete path fl) path file (lookup_delete_eq _ _) bytes chunk w) as Hc.
    rewrite !insert_delete_eq, insert_id, E in Hc by done. by apply Hc.
  - eapply guarded_sound; [done|done|]. apply ensures_fail. intros v Hv. eapply (sound_fewer store quota _ path file bytes); [apply lookup_delete_eq|].
    by rewrite insert_delete_id.
  - pose proof (write_all_ensures store quota L (delete path fl) path file (lookup_delete_eq _ _) bytes chunk w) as Hc.
    rewrite insert_delete_id, E in Hc by done. specialize (Hc Hw). destruct (so_temp _ _ _ _ Hw _ _ _ Hp) as (Hn & _).
    pose proof (guard_ensures (A := ()) store quota L Hquota (delete path fl) path (λ _, True) (sound (delete path fl)) (sfail e) (λ _ _, True) (lookup_delete_eq _ _) Hn) as Hg.
    specialize (Hg ltac:(by apply ensures_fail) w' Hc). by destruct (with_guard path _ w') as [[]]; destruct Hg.
  - eapply guarded_sound; [done|done|]. intros v Hv.
    pose proof (finish_ensures store quota L Hquota (delete path fl) path file (lookup_delete_eq _ _) bytes (guarded v) lease expected v) as Hc.
    unfold held in Hc. rewrite insert_delete_id in Hc by done. specialize (Hc (conj Hv (reflexivity _))).
    destruct (ingest_finish _ _ _ _ _ v) as [[]]; [by destruct Hc as [[] _]|by destruct Hc].
Qed.
End clients.

(** ** Opening *)

Section opening.
Context `{Host} `{!HostLaws} (rt : fspath).
Definition store_dirs : list fspath := [rt; rt ++ [BLOBS]; rt ++ [BLOBS; ALGORITHM]; rt ++ [TMP]; rt ++ [PINS]].
(** A directory left by a store, or a new one: blobs hash to their names, and what is
    pinned is there. *)
Record disk_ok (f : Fs) : Prop := mk_disk_ok {
  dk_tree : tree_ok (nodes f);
  dk_inodes : inodes_ok f;
  dk_root : real (nodes f) rt;
  dk_blobs : ∀ n, is_Some (nodes f !! (rt ++ [BLOBS; ALGORITHM; n])) → ∃ d i x, n = encoded d ∧ digest_ok d ∧
    nodes f !! (rt ++ [BLOBS; ALGORITHM; n]) = Some (Regular i) ∧ inodes f !! i = Some x ∧ calculate (content x) = d;
  dk_pins : ∀ n m, is_Some (nodes f !! (rt ++ [PINS; n; m])) →
    ∃ d, m = encoded d ∧ digest_ok d ∧ is_Some (nodes f !! (rt ++ [BLOBS; ALGORITHM; encoded d]))
}.
Definition dirs_ok (XS : list fspath) (w : World) : Prop := disk_ok (disk w) ∧ Forall (real (nodes (disk w))) XS.
Lemma dirs_steady XS : steady (dirs_ok XS).
Proof.
  intros w w' [[T [X N] R B P] HX] (En & Ei & Ex & _). split; [split|]; rewrite ?En, ?Ei; try done.
  split; [by rewrite Ei, Ex|by rewrite En, Ei].
Qed.
(** A directory of the store is made, or its mode set. *)
Lemma dirs_put XS w q m : dirs_ok XS w → q ∈ store_dirs → tree_ok (<[q := Dir m]> (nodes (disk w))) →
  (∀ node, nodes (disk w) !! q = Some node → is_dir node = true) →
  dirs_ok XS (w <| disk := put q (Dir m) (disk w) |>) ∧
  ∀ p, real (nodes (disk w)) p → real (<[q := Dir m]> (nodes (disk w))) p.
Proof.
  intros [[T [X N] R B P] HX] Hq HT Hd.
  assert (∀ p, real (nodes (disk w)) p → real (<[q := Dir m]> (nodes (disk w))) p) as HR.
  { intros p Hp k Hk. destruct (decide (q = k)) as [<-|Hne]; [rewrite lookup_insert_eq; by eexists|rewrite lookup_insert_ne by done; by apply Hp]. }
  assert (∀ n, q ≠ rt ++ [BLOBS; ALGORITHM; n]) as HB.
  { intros n ->. unfold store_dirs in Hq. set_unfold in Hq. destruct_or? Hq; try done; apply (f_equal length) in Hq; rewrite !length_app in Hq; cbn in Hq; lia. }
  assert (∀ n k, q ≠ rt ++ [PINS; n; k]) as HP.
  { intros n k ->. unfold store_dirs in Hq. set_unfold in Hq. destruct_or? Hq; try done; apply (f_equal length) in Hq; rewrite !length_app in Hq; cbn in Hq; lia. }
  split; [|done]. split; [|eapply Forall_impl; [done|]; cbn; by intros p ?%HR]. split; cbn; [done| |by apply HR|..].
  - split; cbn; [done|]. intros p i Hi. apply lookup_insert_Some in Hi as [[_ ?]|[_ Hi]]; [done|by eapply N].
  - intros n Hn. rewrite lookup_insert_ne in * by done. by apply B.
  - intros n k Hn. rewrite lookup_insert_ne in Hn by done. destruct (P n k Hn) as (d & E1 & E2 & E3). exists d.
    rewrite lookup_insert_ne by done. done.
Qed.
Lemma chmod_dirs XS q : q ∈ store_dirs → q ∈ XS →
  ensures (dirs_ok []) (dirs_ok XS) (set_private_directory_permissions q) (λ _, dirs_ok XS).
Proof.
  intros Hq HX. apply host_ensures, plain_call_of; [apply dirs_steady|by intros w []|]. intros w [Hd Hr].
  assert (real (nodes (disk w)) q) as Hrq by (by eapply (proj1 (Forall_forall _ _)); [exact Hr|]).
  destruct (real_last _ _ Hrq) as [m Hm]. rewrite (follow_dir _ _ _ q m), Hm by (try done; by apply resolve_real). cbn.
  apply (dirs_put XS w q 0x1C0); [done|done|eapply tree_chmod; [apply Hd|done]|]. intros node E. by simplify_eq.
Qed.
Lemma make_dir XS p n : p ++ [n] ∈ store_dirs → p ∈ XS →
  ensures (dirs_ok []) (dirs_ok XS) (host (create_dir (p ++ [n]))) (λ _, dirs_ok ((p ++ [n]) :: XS)).
Proof.
  intros Hq HX. apply host_ensures, path_call; [apply dirs_steady| |by intros w []|].
  { intros w [Hd Hr]. apply resolve_leaf. by eapply (proj1 (Forall_forall _ _)); [exact Hr|]. }
  intros w [Hd Hr]. destruct (nodes (disk w) !! (p ++ [n])) eqn:E; [by split|]. assert (real (nodes (disk w)) p) as Hp.
  { by eapply (proj1 (Forall_forall _ _)); [exact Hr|]. }
  destruct (dirs_put XS w (p ++ [n]) DIRECTORY_MODE) as [[Hd' Hr'] HR]; [done|done|apply tree_put; [apply Hd|done|done]|congruence|].
  split; [done|]. constructor; [|done]. eapply real_snoc; [by apply HR|apply lookup_insert_eq].
Qed.
Lemma ensure_dirs rel : ∀ XS cur, cur ∈ XS → (∀ k n, (k ++ [n]) `prefix_of` rel → cur ++ k ++ [n] ∈ store_dirs) →
  ensures (dirs_ok []) (dirs_ok XS) (ensure_managed cur rel) (λ _ w, dirs_ok XS w ∧ real (nodes (disk w)) (cur ++ rel)).
Proof.
  assert (∀ XS w, dirs_ok XS w → dirs_ok [] w) as Hnil by (intros XS w []; by split).
  induction rel as [|n rel IH]; intros XS cur HX Hrel; cbn [ensure_managed].
  { apply ensures_ret. intros w Hw. rewrite app_nil_r. split; [done|]. destruct Hw as [_ Hr]. by eapply (proj1 (Forall_forall _ _)); [exact Hr|]. }
  assert (cur ++ [n] ∈ store_dirs) as Hn by (apply (Hrel []); by exists rel).
  assert (∀ w, dirs_ok XS w → real (nodes (disk w)) cur) as Hcur by (intros w [_ Hr]; by eapply (proj1 (Forall_forall _ _)); [exact Hr|]).
  eapply ensures_bind; [apply (try_metadata (dirs_ok []) (dirs_ok XS)); [apply dirs_steady|intros w Hw; by apply resolve_leaf, Hcur]|].
  intros metadata. eapply (ensures_bind _ _ _ (λ _, dirs_ok ((cur ++ [n]) :: XS))).
  { destruct metadata as [node|[]]; try (by apply ensures_fail; intros w [Hw _]; eapply Hnil).
    - destruct node as [m| |]; cbn [is_dir]; [|by apply ensures_fail; intros w [Hw _]; eapply Hnil..]. apply ensures_ret.
      intros w [Hw E]. split; [apply Hw|]. constructor; [|apply Hw]. eapply real_snoc; [by apply Hcur|done].
    - apply ensures_left. by apply make_dir. }
  intros ?. eapply (ensures_bind _ _ _ (λ _, dirs_ok ((cur ++ [n]) :: XS))).
  { eapply ensures_conseq; [apply (assert_real (dirs_ok []) (dirs_ok ((cur ++ [n]) :: XS))); [apply dirs_steady|apply Hnil|]|done|by intros ? w []].
    intros w [_ Hr]. apply resolve_real. by apply Forall_cons in Hr as []. }
  intros ?. eapply ensures_bind; [apply (chmod_dirs ((cur ++ [n]) :: XS)); [done|by left]|]. intros ?.
  eapply ensures_conseq; [apply (IH ((cur ++ [n]) :: XS) (cur ++ [n]))| |]; [by left| |done|].
  - intros k n' [t Ht]. rewrite <- app_assoc. apply (Hrel (n :: k) n'). exists t. cbn. by rewrite Ht.
  - intros ? w [[Hd Hr] Hre]. rewrite <- app_assoc in Hre. split; [|done]. split; [done|]. by apply Forall_cons in Hr as [].
Qed.
Lemma managed_dirs XS path rel : path = rt ++ rel → (∀ k n, (k ++ [n]) `prefix_of` rel → rt ++ k ++ [n] ∈ store_dirs) →
  ensures (dirs_ok []) (dirs_ok (rt :: XS)) (ensure_managed_directory rt path) (λ _, dirs_ok (rt :: path :: XS)).
Proof.
  intros -> Hrel. unfold ensure_managed_directory, managed_relative_path. rewrite bool_decide_eq_true_2 by (by exists rel).
  rewrite drop_app_length. eapply (ensures_bind _ _ _ (λ x w, dirs_ok (rt :: XS) w ∧ x = rel)); [by intros w Hw|].
  intros x. apply ensures_pure. intros ->. eapply (ensures_bind _ _ _ (λ _, dirs_ok (rt :: XS))).
  { eapply ensures_conseq; [apply (assert_real (dirs_ok []) (dirs_ok (rt :: XS))); [apply dirs_steady|by intros w []|]|done|by intros ? w []].
    intros w [_ Hr]. apply resolve_real. by apply Forall_cons in Hr as []. }
  intros ?. eapply ensures_conseq; [apply (ensure_dirs rel (rt :: XS) rt); [by left|done]|done|].
  intros ? w [[Hd Hr] Hre]. split; [done|]. apply Forall_cons in Hr as [H1 H2]. by repeat constructor.
Qed.

(** *** The scan *)

Abbreviation bl := (rt ++ [BLOBS; ALGORITHM]).
Section scanning.
Context (w0 : World) (D : dirs_ok [bl] w0).
(** The size of a blob on the disk. *)
Definition sized (d : Sha256Digest) (s : Z) : Prop := digest_ok d ∧ ∃ i x, nodes (disk w0) !! (bl ++ [encoded d]) = Some (Regular i) ∧
  inodes (disk w0) !! i = Some x ∧ calculate (content x) = d ∧ len (content x) = s.
Lemma sized_unique d s s' : sized d s → sized d s' → s = s'.
Proof. intros (_ & i & x & E1 & E2 & _ & E3) (_ & i' & x' & E1' & E2' & _ & E3'). simplify_eq. congruence. Qed.
Lemma same_world_steady : steady (same w0).
Proof. intros w w' (A & B & C & E) (A' & B' & C' & E'). split_and!; congruence. Qed.
Lemma entry_sized n : ensures (λ _, True) (same w0) (blob_entry bl n) (λ b w, same w0 w ∧ n = encoded b.1 ∧ sized b.1 b.2).
Proof.
  assert (∀ w, same w0 w → real (nodes (disk w)) bl) as Hr.
  { intros w (N & _). rewrite N. destruct D as [_ HX]. by apply Forall_cons in HX as []. }
  eapply ensures_conseq; [apply (blob_entry_ensures (mkInner rt bl [] [] 0 0) (λ _, True) (same w0) same_world_steady); [done|exact Hr]|done|].
  intros [d s] w (Hw & Hn & i & Hi & Hs). pose proof Hw as (N & I & _). cbn [fst snd blobs] in Hn, Hi, Hs. rewrite N, <- app_assoc in Hi. cbn [app] in Hi.
  destruct (dk_blobs _ (proj1 D) n) as (e & j & x & -> & He & E1 & E2 & E3); [by eexists|]. rewrite from_encoded_encoded in Hn by done.
  simplify_eq. split; [done|]. split; [done|]. split; [done|]. exists j, x. rewrite <- app_assoc. cbn [app]. split; [done|]. split; [done|]. split; [done|].
  unfold file_content. by rewrite I, E2.
Qed.
Record scanned (names : list name) (out : gmap Sha256Digest Z * Z) : Prop := mk_scanned {
  sc_blobs : ∀ d s, out.1 !! d = Some s ↔ sized d s ∧ encoded d ∈ names;
  sc_bytes : out.2 = total out.1 ∧ out.2 < 2 ^ 64
}.
Lemma scan_ensures names : ∀ seen committed bytes, NoDup (seen ++ names) → scanned seen (committed, bytes) →
  ensures (λ _, True) (same w0) (scan_blobs bl names committed bytes) (λ out w, same w0 w ∧ scanned (seen ++ names) out).
Proof.
  induction names as [|n names IH]; intros seen committed bytes Hd Hs; cbn [scan_blobs].
  { apply ensures_ret. intros w Hw. by rewrite app_nil_r. }
  eapply ensures_bind; [apply entry_sized|]. intros [d s]. cbn [fst snd]. eapply (ensures_given _ (n = encoded d ∧ sized d s)); [by intros w (_ & ?)|].
  intros [-> Hsz]. apply ensures_left. unfold checked_add. destruct (Z.ltb_spec (bytes + s) (2 ^ 64)) as [Hlt|]; [|by apply ensures_fail].
  replace (seen ++ encoded d :: names) with ((seen ++ [encoded d]) ++ names) in * by (by rewrite <- app_assoc).
  destruct Hs as [Hb [Ht _]]. cbn in Hb, Ht. assert (encoded d ∉ seen) as Hfresh.
  { apply NoDup_app in Hd as [Hd _]. apply NoDup_app in Hd as (_ & Hd & _). intros Hin. apply (Hd _ Hin). by left. }
  assert (committed !! d = None) as Hnone.
  { destruct (committed !! d) eqn:E; [|done]. by apply Hb in E as [_ E]. }
  apply IH; [done|]. split; cbn; [|rewrite total_insert by done; lia]. intros e t. rewrite elem_of_app, list_elem_of_singleton. split.
  - intros He. apply lookup_insert_Some in He as [[<- <-]|[Hne He]]; [split; [done|by right]|]. apply Hb in He as [? ?]. split; [done|by left].
  - intros [Hse [Hin|E]].
    + rewrite lookup_insert_ne; [by apply Hb|]. by intros <-.
    + destruct Hse as [He Hse]. destruct Hsz as [Hdo Hsz]. apply encoded_inj in E as ->; [|done|done].
      rewrite lookup_insert_eq. f_equal. by apply (sized_unique d); split.
Qed.
End scanning.

Definition store_at (config : StoreConfig) : Inner :=
  mkInner rt bl (rt ++ [TMP]) (rt ++ [PINS]) (config_max_blob_size config) (config_max_committed_bytes config).
Lemma store_layout config : layout (store_at config).
Proof.
  assert (∀ a b x y, a ≠ b → apart (rt ++ a :: x) (rt ++ b :: y)) as Ha.
  { intros a b x y Hne. split; intros Hp%prefix_app_inv%prefix_cons_inv_1; congruence. }
  split; cbn [blobs temporary_dir pins_dir store_at]; by apply Ha.
Qed.
Lemma prepare_ensures : ensures (λ _, True) (dirs_ok [rt]) (prepare_store_root rt) (λ _, dirs_ok [rt]).
Proof.
  assert (∀ w, dirs_ok [rt] w → resolve (nodes (disk w)) rt = Ok rt) as HR.
  { intros w [_ Hr]. apply resolve_real. by apply Forall_cons in Hr as []. }
  eapply ensures_bind; [apply (try_metadata (λ _, True) (dirs_ok [rt])); [apply dirs_steady|done]|]. intros metadata.
  eapply (ensures_bind _ _ _ (λ _, dirs_ok [rt])).
  - destruct metadata as [node|[]]; try (by apply ensures_fail).
    + destruct (is_dir node); [apply ensures_ret; by intros w []|by apply ensures_fail].
    + intros w [[_ Hr] E]. apply Forall_cons in Hr as [Hr _]. destruct (real_last _ _ Hr). congruence.
  - intros ?. eapply (ensures_bind _ _ _ (λ _, dirs_ok [rt])).
    + eapply ensures_conseq; [apply (assert_real (λ _, True) (dirs_ok [rt])); [apply dirs_steady|done|done]|done|by intros ? w []].
    + intros ?. eapply ensures_weaken; [|apply (chmod_dirs [rt]); by left]. done.
Qed.
Lemma managed_step XS rel {A} (k : sm A) Q : (∀ k n, (k ++ [n]) `prefix_of` rel → rt ++ k ++ [n] ∈ store_dirs) →
  ensures (λ _, True) (dirs_ok (rt :: (rt ++ rel) :: XS)) k Q →
  ensures (λ _, True) (dirs_ok (rt :: XS)) (let! _ := ensure_managed_directory rt (rt ++ rel) in k) Q.
Proof.
  intros Hrel Hk. eapply ensures_bind; [eapply ensures_weaken; [|by apply (managed_dirs XS _ rel)]; done|]. by intros ?.
Qed.
Lemma prefix_one {A} (x : A) k n : (k ++ [n]) `prefix_of` [x] → k = [] ∧ n = x.
Proof. destruct k as [|y [|z k]]; intros [l E]; by simplify_list_eq. Qed.
Lemma prefix_two {A} (x y : A) k n : (k ++ [n]) `prefix_of` [x; y] → k = [] ∧ n = x ∨ k = [x] ∧ n = y.
Proof. destruct k as [|a [|b [|c k]]]; intros [l E]; simplify_list_eq; auto. Qed.
(** The state a scan gives is sound. *)
Lemma scan_sound config w committed : dirs_ok [rt; rt ++ [PINS]; rt ++ [TMP]; bl; rt ++ [BLOBS]] w → leases (guarded w) = ∅ →
  committed_blobs (guarded w) = committed.1 → committed_bytes (guarded w) = committed.2 →
  scanned w (children bl (nodes (disk w))) committed →
  sound (store_at config) (Z.max (config_max_committed_bytes config) committed.2) ∅ w.
Proof.
  intros [[T I R B P] HX] El Ec Eb [Hs [Ht _]]. repeat (apply Forall_cons in HX as [? HX]).
  assert (∀ d, digest_ok d → is_Some (nodes (disk w) !! (bl ++ [encoded d])) → is_Some (committed.1 !! d)) as Hin.
  { intros d Hd Hn. pose proof Hn as Hn'. rewrite <- app_assoc in Hn'. destruct (B _ Hn') as (e & i & x & E & He & E1 & E2 & E3).
    apply encoded_inj in E as <-; [|done|done]. exists (len (content x)). apply Hs. split; [|by apply elem_of_children].
    split; [done|]. exists i, x. rewrite <- app_assoc. done. }
  split; cbn [blobs temporary_dir pins_dir store_at]; try done.
  - intros d s Hd. rewrite Ec in Hd. apply Hs in Hd as [(Hd & i & x & E1 & E2 & E3 & E4) _]. split; [done|]. exists (content x).
    split; [|done]. by exists i, x.
  - intros n Hn. pose proof Hn as Hn'. rewrite <- app_assoc in Hn'. destruct (B n Hn') as (d & i & x & -> & Hd & _). exists d. split; [done|].
    rewrite Ec. by apply Hin.
  - rewrite Eb, Ec, Ht. split; [done|lia].
  - intros id ds d Hi. by rewrite El, lookup_empty in Hi.
  - intros n m Hn. rewrite <- app_assoc in Hn. destruct (P n m Hn) as (d & -> & Hd & Hb). exists d. split; [done|]. rewrite Ec.
    apply Hin; [done|]. by rewrite <- app_assoc.
Qed.
Lemma open_ensures config : config_root config = rt → ensures (λ _, True) (dirs_ok [rt]) (open config)
  (λ store w, store = store_at config ∧ committed_bytes (guarded w) < 2 ^ 64 ∧
     sound store (Z.max (config_max_committed_bytes config) (committed_bytes (guarded w))) ∅ w).
Proof.
  intros Hroot. unfold open. rewrite Hroot. eapply ensures_bind; [apply prepare_ensures|]. intros ?.
  eapply (ensures_bind _ _ _ (λ x w, dirs_ok [rt] w ∧ x = rt)).
  { apply host_ensures, plain_call_of; [apply dirs_steady|done|]. intros w Hw. pose proof Hw as [_ Hr]. apply Forall_cons in Hr as [Hr _].
    destruct (real_last _ _ Hr) as [m Hm]. rewrite (follow_dir _ _ _ rt m) by (try done; by apply resolve_real). split; [by destruct w|done]. }
  intros x. apply ensures_pure. intros ->. cbn zeta.
  apply (managed_step []); [intros k n [-> ->]%prefix_one; by right; left|].
  apply (managed_step _ [BLOBS; ALGORITHM]).
  { intros k n [[-> ->]|[-> ->]]%prefix_two; unfold store_dirs; cbn [app]; set_unfold; tauto. }
  apply (managed_step _ [TMP]); [intros k n [-> ->]%prefix_one; unfold store_dirs; cbn [app]; set_unfold; tauto|].
  apply (managed_step _ [PINS]); [intros k n [-> ->]%prefix_one; unfold store_dirs; cbn [app]; set_unfold; tauto|].
  intros w0 D0. assert (dirs_ok [bl] w0) as D1.
  { destruct D0 as [? HX]. split; [done|]. repeat (apply Forall_cons in HX as [? HX]). by repeat constructor. }
  assert (ensures (λ _, True) (same w0) (let! committed := scan_committed_blobs bl in
    let! _ := update_state (λ _, State_default <| committed_blobs := committed.1 |> <| committed_bytes := committed.2 |>) in
    sret (store_at config)) (λ store w, store = store_at config ∧ committed_bytes (guarded w) < 2 ^ 64 ∧
     sound store (Z.max (config_max_committed_bytes config) (committed_bytes (guarded w))) ∅ w)) as Hc; [|apply Hc; by split_and!].
  eapply (ensures_bind _ _ _ (λ out w, same w0 w ∧ scanned w0 (children bl (nodes (disk w0))) out)).
  { eapply (ensures_bind _ _ _ (λ names w, same w0 w ∧ names = children bl (nodes (disk w0)))).
    - eapply ensures_conseq; [apply (host_read_dir (λ _, True) (same w0)); [apply same_world_steady|done|]|done|].
      + intros w (N & _). rewrite N. apply resolve_real. destruct D1 as [_ HX]. by apply Forall_cons in HX as [].
      + intros names w [Hw ->]. split; [done|]. by destruct Hw as (-> & _).
    - intros names. apply ensures_pure. intros ->. apply (scan_ensures w0 D1 _ []); [apply NoDup_children|].
      split; cbn; [|done]. intros d s. split; [done|]. by intros [_ ?%not_elem_of_nil]. }
  intros committed. apply ensures_pure. intros Hs. apply update_ensures, ensures_ret. intros w (v & Hv & ->). split; [done|].
  destruct Hs as [Hs1 Hs2] eqn:Es. split; [cbn; apply Hs2|]. cbn [committed_bytes guarded].
  assert (sound (store_at config) (Z.max (config_max_committed_bytes config) committed.2) ∅
    (w0 <| guarded := State_default <| committed_blobs := committed.1 |> <| committed_bytes := committed.2 |> |>)) as Hgo.
  { apply scan_sound; [|done|done|done|by split]. destruct D0 as [? HX]. split; [done|]. repeat (apply Forall_cons in HX as [? HX]). by repeat constructor. }
  eapply sound_steady; [exact Hgo|]. destruct Hv as (A1 & A2 & A3 & _). by split_and!.
Qed.
End opening.

(** ** The theorems *)

Section theorems.
Context `{Host} `{!HostLaws}.
(** What was found at the opening may be above the quota; nothing is added then. *)
Definition bound (store : Inner) (w : World) : Z := Z.max (max_committed_bytes store) (committed_bytes (guarded w)).
Lemma open_sound config store w w1 : config_max_committed_bytes config < 2 ^ 64 → disk_ok (config_root config) (disk w) →
  open config w = (Ok store, w1) → layout store ∧ max_committed_bytes store ≤ bound store w1 < 2 ^ 64 ∧ sound store (bound store w1) ∅ w1.
Proof.
  intros Hq Hd Ho. pose proof (open_ensures (config_root config) config eq_refl w) as Hc. rewrite Ho in Hc.
  destruct Hc as (-> & Hb & Hs); [split; [done|by repeat constructor; apply Hd]|]. split; [apply store_layout|].
  unfold bound. cbn [max_committed_bytes store_at]. split; [lia|done].
Qed.
Lemma steps_sound store quota fl w fl' w' : layout store → max_committed_bytes store ≤ quota < 2 ^ 64 → sound store quota fl w →
  rtc (step store) (fl, w) (fl', w') → sound store quota fl' w'.
Proof.
  intros L Hq Hw Hs. change (sound store quota (fl', w').1 (fl', w').2). change (sound store quota (fl, w).1 (fl, w).2) in Hw.
  induction Hs as [|a b c Hs _ IH]; [done|]. by apply IH, (step_sound store quota L Hq a b).
Qed.

(** The bound may be any at or above what is accounted for. *)
Lemma sound_bound store quota quota' fl w : sound store quota fl w → committed_bytes (guarded w) ≤ quota' → sound store quota' fl w.
Proof. intros Hs Hb. pose proof (so_bytes _ _ _ _ Hs) as [Ht _]. by destruct Hs; split. Qed.

(** C7: a store opened on a directory whose blobs hash to their names and whose pins name
    blobs, as an empty one or one a store has left, and then shared by any number of threads
    keeps its invariant: whatever operations they interleave, with ingestions under way in
    between and with any call of the host failing, every blob accounted for is a file whose
    content hashes to its name and has its size, no other file is among the blobs, the bytes
    accounted for are the sum of the sizes, every pin and lease names a blob that is there, and
    each ingestion under way has a temporary file of its own with what it has written. The
    bytes accounted for are at most the quota or what was found at opening, whichever is
    more; and from any state on they never exceed both the quota and what they were. *)
Theorem store_invariant config store w w1 fl w' : config_max_committed_bytes config < 2 ^ 64 → disk_ok (config_root config) (disk w) →
  open config w = (Ok store, w1) → rtc (step store) (∅, w1) (fl, w') →
  sound store (bound store w1) fl w' ∧
  ∀ fl2 w2, rtc (step store) (fl, w') (fl2, w2) → committed_bytes (guarded w2) ≤ bound store w'.
Proof.
  intros Hq Hd Ho Hs. destruct (open_sound _ _ _ _ Hq Hd Ho) as (L & Hb & H1).
  assert (sound store (bound store w1) fl w') as Hs' by (by eapply steps_sound). split; [done|]. intros fl2 w2 Hr.
  pose proof (so_bytes _ _ _ _ Hs') as [_ Hle]. apply (steps_sound store (bound store w') fl w' fl2) in Hr; [by apply Hr|done| |].
  - unfold bound in *. lia.
  - eapply sound_bound; [done|]. unfold bound. lia.
Qed.

(** C25: a collection keeps exactly the blobs that a root, a pin or a lease names: those stay
    accounted for with their content, every other one is gone from the state and from the
    disk, nothing but blobs is removed, and the bytes reported as reclaimed are those no
    longer accounted for. A dry run leaves the tree, the files and the state as
    they were. *)
Theorem collection_exact store quota fl w roots : layout store → max_committed_bytes store ≤ quota < 2 ^ 64 → sound store quota fl w →
  (∀ r w', garbage_collect_with_roots store roots false w = (Ok r, w') →
     (∀ d s, committed_blobs (guarded w') !! d = Some s ↔ committed_blobs (guarded w) !! d = Some s ∧ kept store w roots d) ∧
     (∀ d bytes, is_Some (committed_blobs (guarded w) !! d) → kept store w roots d → stored store (disk w) d bytes → stored store (disk w') d bytes) ∧
     (∀ d, is_Some (committed_blobs (guarded w) !! d) → ¬ kept store w roots d → nodes (disk w') !! blob_path store d = None) ∧
     (∀ q, ¬ (∃ d, q = blob_path store d) → nodes (disk w') !! q = nodes (disk w) !! q) ∧
     leases (guarded w') = leases (guarded w) ∧
     reclaimed_bytes r = committed_bytes (guarded w) - committed_bytes (guarded w')) ∧
  (∀ r w', garbage_collect_with_roots store roots true w = (Ok r, w') → same w w').
Proof.
  intros L Hq Hw. split; intros r w' E.
  - pose proof (gc_ensures store quota L Hq fl w roots Hw w ltac:(by split_and!)) as Hc. rewrite E in Hc.
    destruct Hc as (marked & Hm & [Hs Hl Hc Hn Hi Hb]).
    assert (∀ d s, committed_blobs (guarded w) !! d = Some s → digest_ok d ∧ encoded d ∈ children (blobs store) (nodes (disk w))) as Hin.
    { intros d s Hd. destruct (so_stored _ _ _ _ Hw d s Hd) as (Ho & b & (i & x & E1 & _) & _). split; [done|]. apply elem_of_children. by eexists. }
    assert (∀ d s, committed_blobs (guarded w') !! d = Some s ↔ committed_blobs (guarded w) !! d = Some s ∧ kept store w roots d) as Hcomm.
    { intros d s. rewrite Hc, <- (Hm d). case_decide as Hg; [|]; split; try done.
      - intros [_ ?]. by destruct Hg.
      - intros Hd. split; [done|]. destruct (decide (d ∈ marked)); [done|]. destruct Hg. split; [done|]. by eapply Hin.
      - by intros []. }
    split; [done|]. split; [|split; [|split; [|split; [done|lia]]]].
    + intros d bytes [t Ht] Hk (i & x & E1 & E2 & E3). exists i, x. rewrite Hi. split; [|done].
      destruct (Hn (blob_path store d)) as [->|(_ & e & Ee & He & s & Hs')]; [done|].
      apply app_inj_tail in Ee as [_ Ee]. apply encoded_inj in Ee as ->; [by destruct He; apply Hm|by eapply Hin..].
    + intros d [s Hd] Hk. destruct (nodes (disk w') !! blob_path store d) eqn:En; [|done].
      destruct (so_only _ _ _ _ Hs (encoded d)) as (d' & Ed & s' & Hd'); [by eexists|]. apply Hcomm in Hd' as [Hd1 Hd2].
      apply encoded_inj in Ed as ->; [done|by eapply Hin..].
    + intros q Hnb. destruct (Hn q) as [->|(_ & d & -> & _)]; [done|]. destruct Hnb. by exists d.
  - pose proof (dry_gc_ensures store quota L Hq fl w roots Hw w ltac:(by split_and!)) as Hc. by rewrite E in Hc.
Qed.

(** C26: an ingestion that succeeds describes exactly what was read: the blob it reports has the
    hash and the length of the bytes of the reader, no more than the largest allowed, and is
    the one that was expected if one was. It is accounted for and a file with that hash and
    length is on the disk under its name, and the lease it was made with names it. Whether it
    succeeds or fails, no blob is lost, no other lease changes, and the invariant holds of
    the store and of every other ingestion. *)
Theorem ingestion_stores store quota fl w reads expected lease : layout store → max_committed_bytes store ≤ quota < 2 ^ 64 →
  0 ≤ max_blob_size store < 2 ^ 64 - 1 → (∀ e, expected = Some e → 0 ≤ blob_size e) → sound store quota fl w →
  match ingest_inner store reads expected lease w with
  | (Ok b, w') => sound store quota fl w' ∧ describes store reads expected b ∧
      committed_blobs (guarded w') !! digest b = Some (blob_size b) ∧
      (∃ bytes, stored store (disk w') (digest b) bytes ∧ calculate bytes = digest b ∧ len bytes = blob_size b) ∧
      grown lease (guarded w) (guarded w') ∧ names_blob lease (digest b) (guarded w')
  | (Err _, w') => sound store quota fl w' ∧ grown lease (guarded w) (guarded w')
  end.
Proof.
  intros L Hq Hmax He Hw. pose proof (ingest_grows store quota L Hq fl (guarded w) reads expected lease Hmax He w (conj Hw (reflexivity _))) as Hi.
  destruct (ingest_inner store reads expected lease w) as [[b|e] w']; [|done]. destruct Hi as (Hs & Hd & Hc & Hg & Hl).
  split_and!; [done..| |done|done]. by destruct (so_stored _ _ _ _ Hs _ _ Hc) as (_ & ?).
Qed.

(** The text of a digest reads back as the digest. *)
Lemma digest_round_trip d : digest_ok d → digest_from_str (digest_to_string d) = Ok d.
Proof.
  intros Hd. unfold digest_from_str, digest_to_string. replace (split_once 58 _) with (Some (ALGORITHM, encoded d)) by done.
  rewrite bool_decide_eq_true_2 by done. by apply from_encoded_encoded.
Qed.
End theorems.

(** ** Witnesses *)

Module StoreFixture.
(** A hash that pads, and a disk with an empty directory [/s]. *)
#[export] Instance padding : Host := {| calculate bytes := take 32 (((λ b, b mod 256) <$> bytes) ++ replicate 32 0); process_id := 7 |}.
#[export] Instance padding_laws : HostLaws.
Proof.
  intros bytes. unfold calculate, padding. split.
  - unfold len. rewrite length_take, length_app, length_replicate. unfold BYTE_LEN. lia.
  - apply Forall_take, Forall_app. split; [|by repeat constructor]. apply Forall_fmap, Forall_true. intros b. apply Z.mod_pos_bound. lia.
Qed.
Definition config : StoreConfig := mkConfig [[115]] 1000 4.
Definition before : World := mkWorld (mkFs (list_to_map [([], Dir 0x1ED); ([[115]], Dir 0x1ED)]) ∅ 0 []) State_default 0 [].
Lemma before_disk_ok : disk_ok (config_root config) (disk before).
Proof.
  split.
  - apply is_tree_ok. by vm_compute.
  - split; [intros i [x Hx]; by vm_compute in Hx|]. intros p i Hi. apply elem_of_list_to_map_2 in Hi. set_unfold in Hi. naive_solver.
  - intros [|n [|n' q]] [l E]; simplify_list_eq; by eexists.
  - intros n [node Hn]. apply elem_of_list_to_map_2 in Hn. set_unfold in Hn. naive_solver.
  - intros n m [node Hn]. apply elem_of_list_to_map_2 in Hn. set_unfold in Hn. naive_solver.
Qed.
Definition store : Inner := store_at [[115]] config.
Definition opened : World := (open config before).2.
Lemma run_eq {A} (c : sm A) w r : (c w).1 = r → c w = (r, (c w).2).
Proof. intros <-. apply surjective_pairing. Qed.
Lemma opened_result : open config before = (Ok store, opened).
Proof. apply (run_eq (open config) before). vm_compute. reflexivity. Qed.
Lemma opened_sound : open config before = (Ok store, opened) ∧ layout store ∧ max_committed_bytes store ≤ bound store opened < 2 ^ 64 ∧
  sound store (bound store opened) ∅ opened.
Proof. split; [apply opened_result|]. apply (open_sound config store before); [done|apply before_disk_ok|apply opened_result]. Qed.
(** An ingestion begun, a part of it written while a lease is taken, and finished with the
    lease; then a blob without one, and a collection. *)
Definition path : fspath := temporary_dir store ++ [temporary_name 0 0].
Definition begun : World := (ingest_begin store None opened).2.
Definition leasing : World := perform store Leasing begun.
Definition written : World := (host (write_all 0 [1; 2; 3]) leasing).2.
Definition finished : World := (with_guard path (ingest_finish store None (Some 1) path ([1; 2; 3], len [1; 2; 3])) written).2.
Definition second : World := (ingest_bytes store [9] finished).2.
Lemma begun_result : ingest_begin store None opened = (Ok (path, 0), begun).
Proof. unfold begun. apply run_eq. vm_compute. reflexivity. Qed.
Lemma written_result : host (write_all 0 [1; 2; 3]) leasing = (Ok (), written).
Proof. unfold written. apply run_eq. vm_compute. reflexivity. Qed.
Lemma finished_reached : rtc (step store) (∅, opened) (∅, finished).
Proof.
  eapply rtc_l; [apply (step_begin store ∅ opened None path 0 begun), begun_result|].
  eapply rtc_l; [apply (step_perform store _ begun Leasing); done|]. fold leasing.
  eapply rtc_l; [apply (step_write store _ leasing path 0 [] [1; 2; 3] written); [apply lookup_insert_eq|apply written_result]|].
  eapply rtc_l; [apply (step_finish store _ written path 0 [1; 2; 3] None (Some 1)); apply lookup_insert_eq|]. fold finished.
  rewrite !delete_insert_eq. done.
Qed.
Lemma second_sound : sound store (bound store opened) ∅ second.
Proof.
  destruct opened_sound as (_ & L & Hb & H1).
  assert (sound store (bound store opened) ∅ finished) as H2 by (by eapply steps_sound; [| | |apply finished_reached]).
  pose proof (ingest_ensures store (bound store opened) L Hb ∅ [Some [9]] None None) as Hi.
  specialize (Hi ltac:(by vm_compute) ltac:(done) finished H2). unfold second, ingest_bytes, ingest.
  by destruct (ingest_inner _ _ _ _ finished) as [[]]; [destruct Hi|].
Qed.
Definition swept : World := (garbage_collect_with_roots store [] false second).2.
Lemma swept_result : garbage_collect_with_roots store [] false second = (Ok (mkGcReport 1 1 1 1), swept).
Proof. apply (run_eq (garbage_collect_with_roots store [] false) second). vm_compute. reflexivity. Qed.
End StoreFixture.
Import StoreFixture.

Lemma store_invariant_witness : committed_blobs (guarded finished) !! calculate [1; 2; 3] = Some 3 ∧
  sound store (bound store opened) ∅ finished ∧
  ∀ fl2 w2, rtc (step store) (∅, finished) (fl2, w2) → committed_bytes (guarded w2) ≤ bound store finished.
Proof.
  split; [by vm_compute|]. apply (store_invariant config store before opened ∅ finished); [done|apply before_disk_ok|apply opened_result|apply finished_reached].
Defined.
(** The leased blob stays and the other one goes. *)
Lemma collection_exact_witness : (∀ d s, committed_blobs (guarded swept) !! d = Some s ↔
    committed_blobs (guarded second) !! d = Some s ∧ kept store second [] d) ∧
  committed_blobs (guarded second) !! calculate [9] = Some 1 ∧ committed_blobs (guarded swept) !! calculate [9] = None ∧
  committed_blobs (guarded swept) !! calculate [1; 2; 3] = Some 3.
Proof.
  split; [|split_and!; vm_compute; reflexivity].
  destruct (collection_exact store (bound store opened) ∅ second []) as [Hc _]; [apply opened_sound|apply opened_sound|apply second_sound|].
  destruct (Hc (mkGcReport 1 1 1 1) swept) as [Hd _]; [apply swept_result|exact Hd].
Defined.
(** What is within the quota is stored, what is beyond it refused. *)
Lemma ingestion_stores_witness :
  (ingest_inner store [Some [5]; Some [6]] None None opened).1 = Ok (mkDescriptor (calculate [5; 6]) 2) ∧
  (ingest_inner store [Some [1; 2; 3; 4; 5]] None None opened).1 = Err (CommittedBytesQuotaExceeded 4 0 5) ∧
  match ingest_inner store [Some [5]; Some [6]] None None opened with
  | (Ok b, w') => sound store (bound store opened) ∅ w' ∧ describes store [Some [5]; Some [6]] None b ∧
      committed_blobs (guarded w') !! digest b = Some (blob_size b) ∧
      (∃ bytes, stored store (disk w') (digest b) bytes ∧ calculate bytes = digest b ∧ len bytes = blob_size b) ∧
      grown None (guarded opened) (guarded w') ∧ names_blob None (digest b) (guarded w')
  | (Err _, w') => sound store (bound store opened) ∅ w' ∧ grown None (guarded opened) (guarded w')
  end.
Proof.
  split; [vm_compute; reflexivity|]. split; [vm_compute; reflexivity|].
  apply (ingestion_stores store (bound store opened) ∅ opened); [apply opened_sound|apply opened_sound|done|done|apply opened_sound].
Defined.
