(* ===== verification/Registry.v ===== *)
(** The registry client's data: [rish-registry/src/digest.rs], [media_type.rs],
    [model.rs], [selection.rs], [transport.rs] and [validation.rs]. Strings are lists of
    bytes; SHA-256 is the [Host]'s and SHA-512 a parameter beside it. Documents are
    records: their JSON form is serde's. *)
From stdpp Require Import strings gmap.
From S2P Require Import Prelude.
From S2P Require Import Text.
From S2P Require Import Content.
Local Open Scope Z_scope.

(** ** [digest.rs] *)

Record Digest := mkDigest { algorithm : list Z; hex : list Z }.
#[export] Instance Digest_eq_dec : EqDecision Digest.
Proof. solve_decision. Defined.
Inductive DigestError :=
  | MissingSeparator
  | InvalidFormat
  | InvalidAlgorithm (algorithm : list Z)
  | InvalidDigestLength (algorithm : list Z) (expected actual : Z)
  | InvalidEncoding (encoded : list Z).
Inductive DigestValidationError :=
  | UnknownAlgorithm (algorithm : list Z)
  | Mismatch (expected actual : Digest).

Definition SHA256 : list Z := bytes_of "sha256".
Definition SHA512 : list Z := bytes_of "sha512".
(** [+], [.], [_] and [-] *)
Definition is_algorithm_separator (b : Z) : bool := (b =? 43) || (b =? 46) || (b =? 95) || (b =? 45).
Definition valid_algorithm (value : list Z) : bool :=
  forallb (λ component, negb (bool_decide (component = [])) && forallb (λ b, is_ascii_lowercase b || is_ascii_digit b) component)
    (split_on is_algorithm_separator value).
Definition is_lower_hex (b : Z) : bool := is_ascii_digit b || between 97 102 b.
Definition is_digest_byte (b : Z) : bool := is_ascii_alphanumeric b || (b =? 61) || (b =? 95) || (b =? 45).
Definition Digest_from_str (value : list Z) : result DigestError Digest :=
  match split_once 58 value with
  | None => Err MissingSeparator
  | Some (algorithm, encoded) =>
      if bool_decide (algorithm = []) || bool_decide (encoded = []) || contains_char 58 encoded then Err InvalidFormat
      else if negb (valid_algorithm algorithm) then Err (InvalidAlgorithm algorithm)
      else if bool_decide (algorithm = SHA256) && negb (len encoded =? 64) then Err (InvalidDigestLength algorithm 64 (len encoded))
      else if bool_decide (algorithm = SHA512) && negb (len encoded =? 128) then Err (InvalidDigestLength algorithm 128 (len encoded))
      else if (bool_decide (algorithm = SHA256) || bool_decide (algorithm = SHA512)) && negb (forallb is_lower_hex encoded)
      then Err (InvalidEncoding encoded)
      else if negb (forallb is_digest_byte encoded) then Err (InvalidEncoding encoded)
      else Ok (mkDigest algorithm encoded)
  end.
Definition Digest_to_string (d : Digest) : list Z := algorithm d ++ 58 :: hex d.

Class Hashing := sha512 : list Z → list Z.
Section hashing.
Context `{Host} `{Hashing}.
Definition Digest_sha256 (payload : list Z) : Digest := mkDigest SHA256 (encoded (calculate payload)).
Definition Digest_sha512 (payload : list Z) : Digest := mkDigest SHA512 (encoded (sha512 payload)).
Definition Digest_verify (d : Digest) (payload : list Z) : result DigestValidationError () :=
  let? actual :=
    if bool_decide (algorithm d = SHA256) then Ok (Digest_sha256 payload)
    else if bool_decide (algorithm d = SHA512) then Ok (Digest_sha512 payload)
    else Err (UnknownAlgorithm (algorithm d)) in
  if bool_decide (d = actual) then Ok () else Err (Mismatch d actual).
End hashing.

(** ** [media_type.rs] *)

Inductive MediaType :=
  | OctetStream
  | OciImageManifest
  | OciImageIndex
  | OciImageConfig
  | OciImageLayer
  | OciImageLayerGzip
  | OciImageLayerZstd
  | DockerManifest
  | DockerManifestList
  | DockerImageConfig
  | DockerLayerGzip
  | DockerForeignLayerGzip
  | OtherType (value : list Z).
#[export] Instance MediaType_eq_dec : EqDecision MediaType.
Proof. solve_decision. Defined.
Definition OCTET_STREAM := bytes_of "application/octet-stream".
Definition OCI_IMAGE_MANIFEST := bytes_of "application/vnd.oci.image.manifest.v1+json".
Definition OCI_IMAGE_INDEX := bytes_of "application/vnd.oci.image.index.v1+json".
Definition OCI_IMAGE_CONFIG := bytes_of "application/vnd.oci.image.config.v1+json".
Definition OCI_IMAGE_LAYER := bytes_of "application/vnd.oci.image.layer.v1.tar".
Definition OCI_IMAGE_LAYER_GZIP := bytes_of "application/vnd.oci.image.layer.v1.tar+gzip".
Definition OCI_IMAGE_LAYER_ZSTD := bytes_of "application/vnd.oci.image.layer.v1.tar+zstd".
Definition DOCKER_MANIFEST := bytes_of "application/vnd.docker.distribution.manifest.v2+json".
Definition DOCKER_MANIFEST_LIST := bytes_of "application/vnd.docker.distribution.manifest.list.v2+json".
Definition DOCKER_IMAGE_CONFIG := bytes_of "application/vnd.docker.container.image.v1+json".
Definition DOCKER_LAYER_GZIP := bytes_of "application/vnd.docker.image.rootfs.diff.tar.gzip".
Definition DOCKER_FOREIGN_LAYER_GZIP := bytes_of "application/vnd.docker.image.rootfs.foreign.diff.tar.gzip".
Definition as_str (m : MediaType) : list Z :=
  match m with
  | OctetStream => OCTET_STREAM
  | OciImageManifest => OCI_IMAGE_MANIFEST
  | OciImageIndex => OCI_IMAGE_INDEX
  | OciImageConfig => OCI_IMAGE_CONFIG
  | OciImageLayer => OCI_IMAGE_LAYER
  | OciImageLayerGzip => OCI_IMAGE_LAYER_GZIP
  | OciImageLayerZstd => OCI_IMAGE_LAYER_ZSTD
  | DockerManifest => DOCKER_MANIFEST
  | DockerManifestList => DOCKER_MANIFEST_LIST
  | DockerImageConfig => DOCKER_IMAGE_CONFIG
  | DockerLayerGzip => DOCKER_LAYER_GZIP
  | DockerForeignLayerGzip => DOCKER_FOREIGN_LAYER_GZIP
  | OtherType value => value
  end.
Definition is_manifest (m : MediaType) : bool := match m with OciImageManifest | DockerManifest => true | _ => false end.
Definition is_index (m : MediaType) : bool := match m with OciImageIndex | DockerManifestList => true | _ => false end.
(** [! # $ % & ' * + - . ^ _ ` | ~] and alphanumerics; headers have the same. *)
Definition is_token_byte (b : Z) : bool :=
  is_ascii_alphanumeric b || existsb (Z.eqb b) [33; 35; 36; 37; 38; 39; 42; 43; 45; 46; 94; 95; 96; 124; 126].
Definition valid_media_type (value : list Z) : bool :=
  match split_once 47 value with
  | None => false
  | Some (kind, subtype) =>
      negb (bool_decide (kind = [])) && negb (bool_decide (subtype = [])) && negb (contains_char 47 subtype)
      && forallb is_token_byte kind && forallb is_token_byte subtype
  end.
(** The names of the known ones, in the order of the source. *)
Definition KNOWN : list MediaType :=
  [OctetStream; OciImageManifest; OciImageIndex; OciImageConfig; OciImageLayer; OciImageLayerGzip; OciImageLayerZstd;
   DockerManifest; DockerManifestList; DockerImageConfig; DockerLayerGzip; DockerForeignLayerGzip].
Record MediaTypeParseError := mkMediaTypeParseError { invalid_media_type : list Z }.
Definition MediaType_from_str (value : list Z) : result MediaTypeParseError MediaType :=
  if negb (valid_media_type value) then Err (mkMediaTypeParseError value)
  else Ok (default (OtherType value) (List.find (λ m, bool_decide (as_str m = value)) KNOWN)).
Definition COMMA_SPACE : list Z := bytes_of ", ".
Definition manifest_accept_header : list Z :=
  OCI_IMAGE_INDEX ++ COMMA_SPACE ++ DOCKER_MANIFEST_LIST ++ COMMA_SPACE ++ OCI_IMAGE_MANIFEST ++ COMMA_SPACE ++ DOCKER_MANIFEST.

(** ** [model.rs] *)

Record Platform := mkPlatform {
  architecture : list Z;
  os : list Z;
  variant : option (list Z);
  os_version : option (list Z);
  os_features : list (list Z);
  features : list (list Z)
}.
Record Descriptor := mkDescriptorOf {
  media_type : MediaType;
  descriptor_digest : Digest;
  descriptor_size : Z;
  urls : list (list Z);
  annotations : gmap (list Z) (list Z);
  data : option (list Z);
  platform : option Platform;
  artifact_type : option MediaType
}.
Record ImageManifest := mkManifest {
  schema_version : Z;
  manifest_media_type : option MediaType;
  config : Descriptor;
  layers : list Descriptor;
  manifest_artifact_type : option MediaType;
  subject : option Descriptor;
  manifest_annotations : gmap (list Z) (list Z)
}.
Record ImageIndex := mkIndex {
  index_schema_version : Z;
  index_media_type : option MediaType;
  manifests : list Descriptor;
  index_artifact_type : option MediaType;
  index_subject : option Descriptor;
  index_annotations : gmap (list Z) (list Z)
}.
Inductive ManifestDocument :=
  | Manifest (manifest : ImageManifest)
  | Index (index : ImageIndex).
Inductive ModelValidationError :=
  | UnsupportedSchemaVersion (version : Z)
  | UnexpectedMediaType (media_type : MediaType)
  | DescriptorSizeOutOfRange (size : Z)
  | InvalidDescriptorUrl.

Definition Descriptor_validate (d : Descriptor) : result ModelValidationError () :=
  if 2 ^ 63 - 1 <? descriptor_size d then Err (DescriptorSizeOutOfRange (descriptor_size d))
  else if existsb (λ url, bool_decide (url = []) || existsb is_ascii_control url) (urls d) then Err InvalidDescriptorUrl
  else Ok ().
Definition validate_schema (version : Z) : result ModelValidationError () :=
  if version =? 2 then Ok () else Err (UnsupportedSchemaVersion version).
Fixpoint validate_all (ds : list Descriptor) : result ModelValidationError () :=
  match ds with [] => Ok () | d :: ds => let? _ := Descriptor_validate d in validate_all ds end.
Definition validate_subject (d : option Descriptor) : result ModelValidationError () :=
  match d with Some d => Descriptor_validate d | None => Ok () end.
Definition ImageManifest_validate (m : ImageManifest) : result ModelValidationError () :=
  let? _ := validate_schema (schema_version m) in
  let? _ := match manifest_media_type m with Some t => if is_manifest t then Ok () else Err (UnexpectedMediaType t) | None => Ok () end in
  let? _ := Descriptor_validate (config m) in
  let? _ := validate_all (layers m) in
  validate_subject (subject m).
Definition ImageIndex_validate (m : ImageIndex) : result ModelValidationError () :=
  let? _ := validate_schema (index_schema_version m) in
  let? _ := match index_media_type m with Some t => if is_index t then Ok () else Err (UnexpectedMediaType t) | None => Ok () end in
  let? _ := validate_all (manifests m) in
  validate_subject (index_subject m).
Definition ManifestDocument_validate (document : ManifestDocument) : result ModelValidationError () :=
  match document with Manifest m => ImageManifest_validate m | Index m => ImageIndex_validate m end.

(** ** [selection.rs] *)

Record PlatformRequest := mkRequest {
  request_os : list Z;
  request_architecture : list Z;
  variant_preferences : list (list Z);
  variantless_fallback : bool;
  request_os_version : option (list Z);
  required_os_features : list (list Z)
}.
#[export] Instance PlatformRequest_eta : Settable PlatformRequest := λ q,
  mkRequest (request_os q) (request_architecture q) (variant_preferences q) (variantless_fallback q) (request_os_version q)
    (required_os_features q).
Inductive GuestPlatform := LinuxArm64V8 | LinuxAmd64.
Definition LINUX : list Z := bytes_of "linux".
Definition ARM64 : list Z := bytes_of "arm64".
Definition AMD64 : list Z := bytes_of "amd64".
Definition V8 : list Z := bytes_of "v8".
Definition PlatformRequest_new (os architecture : list Z) : PlatformRequest := mkRequest os architecture [] true None [].
Definition linux_arm64 (preferred_variant : option (list Z)) : PlatformRequest :=
  let preferences :=
    match preferred_variant with Some v => if bool_decide (v = []) then [] else [v] | None => [] end in
  let preferences := if existsb (λ v, bool_decide (v = V8)) preferences then preferences else preferences ++ [V8] in
  (PlatformRequest_new LINUX ARM64) <| variant_preferences := preferences |>.
Definition with_variant_preferences (variants : list (list Z)) (q : PlatformRequest) : PlatformRequest :=
  q <| variant_preferences := List.filter (λ v, negb (bool_decide (v = []))) variants |>.
Definition allow_variantless_fallback (allow : bool) (q : PlatformRequest) : PlatformRequest := q <| variantless_fallback := allow |>.
Definition selection_request (g : GuestPlatform) : PlatformRequest :=
  match g with
  | LinuxArm64V8 => allow_variantless_fallback false (with_variant_preferences [V8] (PlatformRequest_new LINUX ARM64))
  | LinuxAmd64 => allow_variantless_fallback true (PlatformRequest_new LINUX AMD64)
  end.
Fixpoint position (x : list Z) (l : list (list Z)) : option Z :=
  match l with
  | [] => None
  | y :: l => if bool_decide (y = x) then Some 0 else match position x l with Some i => Some (i + 1) | None => None end
  end.
Definition score (p : Platform) (q : PlatformRequest) : option Z :=
  if negb (bool_decide (os p = request_os q)) || negb (bool_decide (architecture p = request_architecture q)) then None
  else if match request_os_version q with Some v => negb (bool_decide (os_version p = Some v)) | None => false end then None
  else if negb (forallb (λ required, existsb (λ f, bool_decide (f = required)) (os_features p)) (required_os_features q)) then None
  else
    match variant p with
    | Some v => position v (variant_preferences q)
    | None => if variantless_fallback q then Some (len (variant_preferences q)) else None
    end.
Definition candidate (q : PlatformRequest) (d : Descriptor) : option (Z * Descriptor) :=
  if is_manifest (media_type d)
  then match platform d with Some p => match score p q with Some s => Some (s, d) | None => None end | None => None end
  else None.
(** [min_by_key]: the first of the least. *)
Fixpoint min_by_key {A} (l : list (Z * A)) : option (Z * A) :=
  match l with
  | [] => None
  | (k, a) :: l => match min_by_key l with Some (j, b) => if j <? k then Some (j, b) else Some (k, a) | None => Some (k, a) end
  end.
Record PlatformSelectionError := mkNoMatch { no_os : list Z; no_architecture : list Z; no_variants : list (list Z) }.
Definition select_platform (index : ImageIndex) (q : PlatformRequest) : result PlatformSelectionError Descriptor :=
  match min_by_key (omap (candidate q) (manifests index)) with
  | Some (_, d) => Ok d
  | None => Err (mkNoMatch (request_os q) (request_architecture q) (variant_preferences q))
  end.

(** ** [transport.rs] *)

Definition MAX_HEADER_FIELDS : Z := 128.
Definition MAX_HEADER_NAME_BYTES : Z := 128.
Definition MAX_HEADER_VALUE_BYTES : Z := 16 * 1024.
Definition MAX_HEADER_BYTES : Z := 64 * 1024.
Definition DEFAULT_MANIFEST_RESPONSE_LIMIT : Z := 8 * 1024 * 1024.
Inductive HeaderError :=
  | HeaderNameTooLong (maximum actual : Z)
  | InvalidHeaderName (name : list Z)
  | HeaderValueTooLong (maximum actual : Z)
  | InvalidHeaderValue
  | TooManyFields (maximum actual : Z)
  | MapTooLarge (maximum actual : Z)
  | InvalidBearerToken
  | DuplicateSingleton (name : list Z) (count : Z).
Abbreviation HeaderMap := (gmap (list Z) (list (list Z))).
Definition normalize_header_name (name : list Z) : result HeaderError (list Z) :=
  if MAX_HEADER_NAME_BYTES <? len name then Err (HeaderNameTooLong MAX_HEADER_NAME_BYTES (len name))
  else if bool_decide (name = []) || negb (forallb is_token_byte name) then Err (InvalidHeaderName name)
  else Ok (lowercase name).
Definition validate_header_value (value : list Z) : result HeaderError () :=
  if MAX_HEADER_VALUE_BYTES <? len value then Err (HeaderValueTooLong MAX_HEADER_VALUE_BYTES (len value))
  else if existsb (λ b, negb (b =? 9) && negb (between 32 126 b)) value then Err InvalidHeaderValue
  else Ok ().
Definition header_wire_bytes (name value : list Z) : Z := saturating_add 64 (saturating_add 64 (len name) (len value)) 4.
Definition validate_header_limits (fields bytes : Z) : result HeaderError () :=
  if MAX_HEADER_FIELDS <? fields then Err (TooManyFields MAX_HEADER_FIELDS fields)
  else if MAX_HEADER_BYTES <? bytes then Err (MapTooLarge MAX_HEADER_BYTES bytes)
  else Ok ().
Definition usage (headers : HeaderMap) : Z * Z :=
  foldl (λ '(fields, bytes) '(name, values),
    (saturating_add 64 fields (len values), foldl (λ bytes value, saturating_add 64 bytes (header_wire_bytes name value)) bytes values))
    (0, 0) (map_to_list headers).
Definition validate_projected_insert (headers : HeaderMap) (name value : list Z) : result HeaderError () :=
  let '(fields, bytes) := usage headers in
  let '(fields, bytes) :=
    match headers !! name with
    | Some values => (saturating_sub fields (len values), foldl (λ bytes v, saturating_sub bytes (header_wire_bytes name v)) bytes values)
    | None => (fields, bytes)
    end in
  validate_header_limits (saturating_add 64 fields 1) (saturating_add 64 bytes (header_wire_bytes name value)).
Definition validate_projected_append (headers : HeaderMap) (name value : list Z) : result HeaderError () :=
  let '(fields, bytes) := usage headers in
  validate_header_limits (saturating_add 64 fields 1) (saturating_add 64 bytes (header_wire_bytes name value)).
Definition insert_header (name value : list Z) (headers : HeaderMap) : result HeaderError HeaderMap :=
  let? name := normalize_header_name name in
  let? _ := validate_header_value value in
  let? _ := validate_projected_insert headers name value in
  Ok (<[name := [value]]> headers).
Definition append_header (name value : list Z) (headers : HeaderMap) : result HeaderError HeaderMap :=
  let? name := normalize_header_name name in
  let? _ := validate_header_value value in
  let? _ := validate_projected_append headers name value in
  Ok (<[name := default [] (headers !! name) ++ [value]]> headers).
Definition get_all (headers : HeaderMap) (name : list Z) : list (list Z) := default [] (headers !! lowercase name).
Definition get_single (headers : HeaderMap) (name : list Z) : result HeaderError (option (list Z)) :=
  match get_all headers name with
  | [] => Ok None
  | [value] => Ok (Some value)
  | values => Err (DuplicateSingleton (lowercase name) (len values))
  end.

Inductive HttpMethod := Get | Head | Post.
Inductive RegistryScheme := Http | Https.
Record RegistryRequest := mkRegistryRequest {
  method : HttpMethod;
  scheme : RegistryScheme;
  authority : list Z;
  path_and_query : list Z;
  request_headers : HeaderMap;
  request_body : list Z;
  max_response_bytes : Z
}.
#[export] Instance RegistryRequest_eta : Settable RegistryRequest := λ q,
  mkRegistryRequest (method q) (scheme q) (authority q) (path_and_query q) (request_headers q) (request_body q) (max_response_bytes q).
Definition with_response_body_limit (maximum : Z) (q : RegistryRequest) : RegistryRequest := q <| max_response_bytes := maximum |>.
(** [- . _ ~ + / =] *)
Definition is_bearer_byte (b : Z) : bool := is_ascii_alphanumeric b || existsb (Z.eqb b) [45; 46; 95; 126; 43; 47; 61].
Definition set_bearer_token (token : list Z) (q : RegistryRequest) : result HeaderError RegistryRequest :=
  if bool_decide (token = []) || negb (forallb is_bearer_byte token) then Err InvalidBearerToken
  else
    let? headers := insert_header (bytes_of "authorization") (bytes_of "Bearer " ++ token) (request_headers q) in
    Ok (q <| request_headers := headers |>).
(** A response with a body that is read later: what each read gives. *)
Abbreviation Body := (list (option (list Z))).
Record RegistryStreamResponse := mkResponse { status : Z; headers : HeaderMap; body : Body }.
Record RegistryResponse := mkBuffered { response_status : Z; response_headers : HeaderMap; response_body : list Z }.

(** ** [validation.rs] *)

Record ValidationPolicy := mkPolicy { require_content_length : bool; require_content_type : bool; require_registry_digest : bool }.
Definition strict_headers : ValidationPolicy := mkPolicy true true true.
Definition descriptor_headers : ValidationPolicy := mkPolicy true true false.
Inductive ResponseValidationError :=
  | UnexpectedStatus (status : Z)
  | BodyTooLarge
  | MissingContentLength
  | DescriptorSizeMismatch (expected actual : Z)
  | InvalidContentLength
  | ContentLengthMismatch (header actual : Z)
  | MissingContentType
  | ContentTypeMismatch (expected actual : MediaType)
  | MissingRegistryDigest
  | RegistryDigestMismatch (expected actual : Digest)
  | InHeader (error : HeaderError)
  | InDigest (error : DigestError)
  | DigestInvalid (error : DigestValidationError)
  | InMediaType (error : MediaTypeParseError)
  | InModel (error : ModelValidationError).
Definition CONTENT_LENGTH : list Z := bytes_of "content-length".
Definition CONTENT_TYPE : list Z := bytes_of "content-type".
Definition REGISTRY_DIGEST : list Z := bytes_of "docker-content-digest".
Definition parse_content_length (value : list Z) : result ResponseValidationError Z :=
  if bool_decide (value = []) || (1 <? len value) && starts_with [48] value || negb (forallb is_ascii_digit value)
  then Err InvalidContentLength
  else match parse_unsigned 64 value with Some n => Ok n | None => Err InvalidContentLength end.
Definition content_length (r : RegistryStreamResponse) : result ResponseValidationError (option Z) :=
  let? value := map_err InHeader (get_single (headers r) CONTENT_LENGTH) in
  match value with
  | None => Ok None
  | Some value => let? n := parse_content_length value in Ok (Some n)
  end.
(** [split(';').next()], trimmed *)
Definition essence (header : list Z) : list Z := trim (default [] (head (split_on (Z.eqb 59) header))).
Definition validate_content_type (headers : HeaderMap) (d : Descriptor) (policy : ValidationPolicy)
    : result ResponseValidationError () :=
  let? header := map_err InHeader (get_single headers CONTENT_TYPE) in
  match header with
  | None => if require_content_type policy then Err MissingContentType else Ok ()
  | Some header =>
      let? actual := map_err InMediaType (MediaType_from_str (essence header)) in
      if bool_decide (actual = media_type d)
         || (negb (is_manifest (media_type d)) && negb (is_index (media_type d)) && bool_decide (actual = OctetStream))
      then Ok () else Err (ContentTypeMismatch (media_type d) actual)
  end.
Definition validate_registry_digest (headers : HeaderMap) (d : Descriptor) (policy : ValidationPolicy)
    : result ResponseValidationError () :=
  let? header := map_err InHeader (get_single headers REGISTRY_DIGEST) in
  match header with
  | None => if require_registry_digest policy then Err MissingRegistryDigest else Ok ()
  | Some header =>
      let? actual := map_err InDigest (Digest_from_str (trim header)) in
      if bool_decide (actual = descriptor_digest d) then Ok () else Err (RegistryDigestMismatch (descriptor_digest d) actual)
  end.
Definition validate_descriptor_metadata (status : Z) (headers : HeaderMap) (d : Descriptor) (policy : ValidationPolicy)
    : result ResponseValidationError () :=
  let? _ := map_err InModel (Descriptor_validate d) in
  if negb (status =? 200) then Err (UnexpectedStatus status)
  else
    let? length := map_err InHeader (get_single headers CONTENT_LENGTH) in
    let? _ :=
      match length with
      | Some value =>
          let? n := parse_content_length value in
          if negb (n =? descriptor_size d) then Err (ContentLengthMismatch n (descriptor_size d)) else Ok ()
      | None => if require_content_length policy then Err MissingContentLength else Ok ()
      end in
    let? _ := validate_content_type headers d policy in
    validate_registry_digest headers d policy.
Definition validate_descriptor `{Host} `{Hashing} (r : RegistryResponse) (d : Descriptor) (policy : ValidationPolicy)
    : result ResponseValidationError () :=
  let? _ := map_err InModel (Descriptor_validate d) in
  if negb (response_status r =? 200) then Err (UnexpectedStatus (response_status r))
  else if negb (len (response_body r) =? descriptor_size d)
  then Err (DescriptorSizeMismatch (descriptor_size d) (len (response_body r)))
  else
    let? _ := validate_descriptor_metadata (response_status r) (response_headers r) d policy in
    map_err DigestInvalid (Digest_verify (descriptor_digest d) (response_body r)).

(** ** Facts *)

Lemma min_by_key_spec {A} (l : list (Z * A)) :
  match min_by_key l with
  | Some (k, a) => ∃ before after, l = before ++ (k, a) :: after ∧ (∀ j b, (j, b) ∈ before → k < j) ∧ ∀ j b, (j, b) ∈ after → k ≤ j
  | None => l = []
  end.
Proof.
  induction l as [|[k a] l IH]; cbn; [done|]. destruct (min_by_key l) as [[j b]|].
  - destruct IH as (before & after & -> & Hb & Ha). destruct (Z.ltb_spec j k).
    + exists ((k, a) :: before), after. split; [done|]. split; [|done]. intros i c [[= -> ->]|Hi]%elem_of_cons; [done|by eapply Hb].
    + exists [], (before ++ (j, b) :: after). split; [done|]. split; [by intros i c ?%not_elem_of_nil|]. intros i c Hi.
      apply elem_of_app in Hi as [Hi|[[= -> ->]|Hi]%elem_of_cons]; [apply Hb in Hi; lia|done|apply Ha in Hi; lia].
  - subst l. exists [], []. split; [done|]. split; by intros i c ?%not_elem_of_nil.
Qed.
Lemma omap_split {A B} (f : A → option B) l before x after : omap f l = before ++ x :: after →
  ∃ l1 a l2, l = l1 ++ a :: l2 ∧ f a = Some x ∧ omap f l1 = before ∧ omap f l2 = after.
Proof.
  revert before. induction l as [|a l IH]; intros before E; cbn in E; [by destruct before|]. destruct (f a) as [y|] eqn:Ef.
  - destruct before as [|z before]; cbn in E; injection E as -> E; [by exists [], a, l|].
    destruct (IH before E) as (l1 & b & l2 & -> & Hb & H1 & H2). exists (a :: l1), b, l2. cbn. rewrite Ef, H1. done.
  - destruct (IH before E) as (l1 & b & l2 & -> & Hb & H1 & H2). exists (a :: l1), b, l2. cbn. rewrite Ef. done.
Qed.
Lemma position_spec x l i : position x l = Some i ↔ ∃ n, i = Z.of_nat n ∧ l !! n = Some x ∧ ∀ m, (m < n)%nat → l !! m ≠ Some x.
Proof.
  revert i. induction l as [|y l IH]; intros i; cbn; [split; [done|]; by intros (n & _ & ? & _)|]. case_bool_decide as E.
  - subst y. split.
    + intros [= <-]. exists 0%nat. split; [done|]. split; [done|]. lia.
    + intros (n & -> & Hn & Hm). destruct n as [|n]; [done|]. by destruct (Hm 0%nat); [lia|].
  - split.
    + destruct (position x l) as [k|]; [|done]. intros [= <-]. destruct (proj1 (IH k) eq_refl) as (n & -> & Hn & Hm).
      exists (S n). split; [lia|]. split; [done|]. intros [|m] Hlt; [by intros [= ->]|]. apply Hm. lia.
    + intros (n & -> & Hn & Hm). destruct n as [|n]; [by injection Hn as ->|]. rewrite (proj2 (IH (Z.of_nat n))); [f_equal; lia|].
      exists n. split; [done|]. split; [done|]. intros m Hlt. apply (Hm (S m)). lia.
Qed.
(** A manifest for the platform asked for, and how far down the list of preferences. *)
Definition fits (q : PlatformRequest) (d : Descriptor) (rank : Z) : Prop :=
  is_manifest (media_type d) = true ∧ ∃ p, platform d = Some p ∧ os p = request_os q ∧ architecture p = request_architecture q ∧
  (∀ v, request_os_version q = Some v → os_version p = Some v) ∧ (∀ f, f ∈ required_os_features q → f ∈ os_features p) ∧
  match variant p with
  | Some v => ∃ n, rank = Z.of_nat n ∧ variant_preferences q !! n = Some v ∧ ∀ m, (m < n)%nat → variant_preferences q !! m ≠ Some v
  | None => variantless_fallback q = true ∧ rank = len (variant_preferences q)
  end.
Lemma features_included (required present : list (list Z)) :
  forallb (λ x, existsb (λ f, bool_decide (f = x)) present) required = true ↔ ∀ f, f ∈ required → f ∈ present.
Proof.
  rewrite forallb_forall. setoid_rewrite existsb_exists. split.
  - intros H f Hf. destruct (H f) as (g & Hg & ->%bool_decide_eq_true); [by apply list_elem_of_In|by apply list_elem_of_In].
  - intros H f Hf. exists f. split; [by apply list_elem_of_In, H, list_elem_of_In|by apply bool_decide_eq_true].
Qed.
Lemma candidate_fits q d rank e : candidate q d = Some (rank, e) ↔ e = d ∧ fits q d rank.
Proof.
  unfold candidate, fits. destruct (is_manifest (media_type d)); [|naive_solver]. destruct (platform d) as [p|]; [|naive_solver].
  assert (score p q = Some rank ↔ os p = request_os q ∧ architecture p = request_architecture q ∧
    (∀ v, request_os_version q = Some v → os_version p = Some v) ∧ (∀ f, f ∈ required_os_features q → f ∈ os_features p) ∧
    match variant p with
    | Some v => ∃ n, rank = Z.of_nat n ∧ variant_preferences q !! n = Some v ∧ ∀ m, (m < n)%nat → variant_preferences q !! m ≠ Some v
    | None => variantless_fallback q = true ∧ rank = len (variant_preferences q)
    end) as Hs.
  { unfold score. rewrite <- features_included. destruct (forallb _ _); cbn [negb];
      (destruct (decide (os p = request_os q)); [rewrite (bool_decide_eq_true_2 (os p = _)) by done|rewrite (bool_decide_eq_false_2 (os p = _)) by done; naive_solver]);
      (destruct (decide (architecture p = request_architecture q)); [rewrite (bool_decide_eq_true_2 (architecture p = _)) by done|rewrite (bool_decide_eq_false_2 (architecture p = _)) by done; naive_solver]);
      cbn [negb orb]; (destruct (request_os_version q) as [v|]; [case_bool_decide; cbn [negb]; [|naive_solver]|]); [..|naive_solver|naive_solver].
    - destruct (variant p) as [x|]; [rewrite position_spec; naive_solver|]. destruct (variantless_fallback q); naive_solver.
    - destruct (variant p) as [x|]; [rewrite position_spec; naive_solver|]. destruct (variantless_fallback q); naive_solver. }
  split.
  - destruct (score p q) as [k|]; [|done]. intros [= -> <-]. split; [done|]. split; [done|]. exists p. split; [done|]. by apply Hs.
  - intros (-> & _ & ? & [= <-] & Hp). apply Hs in Hp. by rewrite Hp.
Qed.

(** C28: the manifest selected from an index is the best one there is for the platform: it is a
    manifest for the system and architecture asked for, with the version and the features
    required, and ranks first in the order of variants preferred, a manifest without a variant
    coming last; among equals the first in the index is taken. An index is refused only when
    nothing in it fits. *)
Theorem selection_is_best index q :
  match select_platform index q with
  | Ok d => ∃ rank before after, manifests index = before ++ d :: after ∧ fits q d rank ∧
      (∀ e j, e ∈ before → fits q e j → rank < j) ∧ (∀ e j, e ∈ after → fits q e j → rank ≤ j)
  | Err _ => ∀ d rank, d ∈ manifests index → ¬ fits q d rank
  end.
Proof.
  unfold select_platform. pose proof (min_by_key_spec (omap (candidate q) (manifests index))) as Hm.
  destruct (min_by_key _) as [[rank d]|].
  - destruct Hm as (before & after & E & Hb & Ha). apply omap_split in E as (l1 & a & l2 & El & Hd & H1 & H2).
    apply candidate_fits in Hd as [<- Hd]. exists rank, l1, l2. split; [done|]. split; [done|]. subst before after. split.
    + intros e j He Hf. eapply (Hb j e). apply list_elem_of_omap. exists e. split; [done|]. by apply candidate_fits.
    + intros e j He Hf. eapply (Ha j e). apply list_elem_of_omap. exists e. split; [done|]. by apply candidate_fits.
  - intros d rank Hd Hf. apply (not_elem_of_nil (rank, d)). rewrite <- Hm. apply list_elem_of_omap. exists d. split; [done|].
    by apply candidate_fits.
Qed.
