(* ===== verification/Reference.v ===== *)
(** Image references: [rish-registry/src/reference.rs], and the requests of
    [transport.rs] that name one. *)
From stdpp Require Import strings gmap.
From S2P Require Import Prelude.
From S2P Require Import Text.
From S2P Require Import Content.
From S2P Require Import Registry.
Local Open Scope Z_scope.

(** ** IPv6 addresses *)

(** [Ipv6Addr::from_str] succeeds: each reader gives the rest of the text after what it
    reads. A number has at least one and at most [digits] digits. *)
Definition hex_value (b : Z) : option Z :=
  if is_ascii_digit b then Some (b - 48) else if between 97 102 b then Some (b - 87) else if between 65 70 b then Some (b - 55) else None.
Fixpoint read_digits (radix maximum : Z) (digits : nat) (value : Z) (count : nat) (s : list Z) : option (Z * nat * list Z) :=
  match s with
  | b :: rest =>
      match hex_value b with
      | Some d =>
          if d <? radix
          then
            let value := value * radix + d in
            if (maximum <? value) || (digits <=? count)%nat then None else read_digits radix maximum digits value (S count) rest
          else Some (value, count, s)
      | None => Some (value, count, s)
      end
  | [] => Some (value, count, s)
  end.
Definition read_number (radix maximum : Z) (digits : nat) (allow_zero_prefix : bool) (s : list Z) : option (list Z) :=
  match read_digits radix maximum digits 0 0 s with
  | Some (_, count, rest) =>
      if (count =? 0)%nat then None
      else if negb allow_zero_prefix && starts_with [48] s && (1 <? count)%nat then None
      else Some rest
  | None => None
  end.
(** [read_separator]: no separator before the first. *)
Definition read_after (separator : Z) (first : bool) (reader : list Z → option (list Z)) (s : list Z) : option (list Z) :=
  if first then reader s else match s with b :: rest => if b =? separator then reader rest else None | [] => None end.
Fixpoint read_ipv4 (groups : nat) (first : bool) (s : list Z) : option (list Z) :=
  match groups with
  | O => Some s
  | S groups => match read_after 46 first (read_number 10 255 3 false) s with Some s => read_ipv4 groups false s | None => None end
  end.
(** Up to [limit] groups: how many were read, whether they end in an IPv4 address, the rest. *)
Fixpoint read_groups (limit : nat) (first : bool) (s : list Z) : nat * bool * list Z :=
  match limit with
  | O => (O, false, s)
  | S limit' =>
      match (if (1 <? limit)%nat then read_after 58 first (read_ipv4 4 true) s else None) with
      | Some s => (2%nat, true, s)
      | None =>
          match read_after 58 first (read_number 16 0xFFFF 4 true) s with
          | Some s => let '(n, v4, s) := read_groups limit' false s in (S n, v4, s)
          | None => (O, false, s)
          end
      end
  end.
Definition is_ipv6 (s : list Z) : bool :=
  let '(n, v4, s) := read_groups 8 true s in
  if (n =? 8)%nat then bool_decide (s = [])
  else if v4 then false
  else
    match s with
    | 58 :: 58 :: s => let '(_, _, s) := read_groups (7 - n) true s in bool_decide (s = [])
    | _ => false
    end.

(** ** References *)

Record ImageReference := mkReference { registry : list Z; repository : list Z; tag : option (list Z); reference_digest : option Digest }.
Inductive ImageReferenceError :=
  | EmptyReference
  | InvalidSyntax (value : list Z)
  | InvalidRegistry (registry : list Z)
  | InvalidRepository (repository : list Z)
  | InvalidTag (tag : list Z)
  | InvalidReferenceDigest (error : DigestError).
Definition DEFAULT_REGISTRY : list Z := bytes_of "docker.io".
Definition LEGACY_DOCKER_HUB_REGISTRY : list Z := bytes_of "index.docker.io".
Definition DOCKER_HUB_DISTRIBUTION_AUTHORITY : list Z := bytes_of "registry-1.docker.io".
Definition DEFAULT_NAMESPACE : list Z := bytes_of "library".
Definition DEFAULT_TAG : list Z := bytes_of "latest".
Definition LOCALHOST : list Z := bytes_of "localhost".
Definition MAX_REPOSITORY_LENGTH : Z := 255.
Definition MAX_TAG_LENGTH : Z := 128.

Definition distribution_authority (image : ImageReference) : list Z :=
  if bool_decide (registry image = DEFAULT_REGISTRY) then DOCKER_HUB_DISTRIBUTION_AUTHORITY else registry image.
Definition manifest_reference (image : ImageReference) : list Z :=
  match reference_digest image with
  | Some d => Digest_to_string d
  | None => default DEFAULT_TAG (tag image)
  end.
Definition V2 : list Z := bytes_of "/v2/".
Definition MANIFESTS : list Z := bytes_of "/manifests/".
Definition manifest_path (image : ImageReference) : list Z := V2 ++ repository image ++ MANIFESTS ++ manifest_reference image.
Definition blob_url (image : ImageReference) (d : Digest) : list Z := V2 ++ repository image ++ bytes_of "/blobs/" ++ Digest_to_string d.
Definition to_string (image : ImageReference) : list Z :=
  registry image ++ 47 :: repository image ++ match tag image with Some t => 58 :: t | None => [] end
  ++ match reference_digest image with Some d => 64 :: Digest_to_string d | None => [] end.

Definition split_digest (value : list Z) : result ImageReferenceError (list Z * option Digest) :=
  match split_on (Z.eqb 64) value with
  | [name] => if bool_decide (name = []) then Err (InvalidSyntax value) else Ok (name, None)
  | [name; digest] =>
      if bool_decide (name = []) then Err (InvalidSyntax value)
      else if bool_decide (digest = []) then Err (InvalidSyntax digest)
      else let? d := map_err InvalidReferenceDigest (Digest_from_str digest) in Ok (name, Some d)
  | _ => Err (InvalidSyntax value)
  end.
(** The last colon, if it comes after the last slash. *)
Definition split_tag (value : list Z) : result ImageReferenceError (list Z * option (list Z)) :=
  match rsplit_once 58 value with
  | Some (name, tag) =>
      if contains_char 47 tag then Ok (value, None)
      else if bool_decide (name = []) || bool_decide (tag = []) then Err (InvalidSyntax value)
      else Ok (name, Some tag)
  | None => Ok (value, None)
  end.
Definition split_registry (value : list Z) : result ImageReferenceError (list Z * list Z) :=
  match split_once 47 value with
  | None => Ok (DEFAULT_REGISTRY, value)
  | Some (first, remainder) =>
      if contains_char 46 first || contains_char 58 first || bool_decide (first = LOCALHOST) || starts_with [91] first
      then if bool_decide (remainder = []) then Err (InvalidRepository value) else Ok (first, remainder)
      else Ok (DEFAULT_REGISTRY, value)
  end.
Definition validate_port (registry : list Z) (port : option (list Z)) : result ImageReferenceError () :=
  match port with
  | Some value => match parse_unsigned 16 value with Some n => if n =? 0 then Err (InvalidRegistry registry) else Ok () | None => Err (InvalidRegistry registry) end
  | None => Ok ()
  end.
Definition validate_ipv6_registry (registry : list Z) : result ImageReferenceError () :=
  match split_once 93 registry with
  | None => Err (InvalidRegistry registry)
  | Some (address, suffix) =>
      if negb (is_ipv6 (drop 1 address)) then Err (InvalidRegistry registry)
      else
        let? port :=
          match suffix with
          | [] => Ok None
          | 58 :: port => Ok (Some port)
          | _ => Err (InvalidRegistry registry)
          end in
        validate_port registry port
  end.
Definition invalid_label (label : list Z) : bool :=
  bool_decide (label = []) || starts_with [45] label || bool_decide (last label = Some 45)
  || negb (forallb (λ b, is_ascii_lowercase b || is_ascii_digit b || (b =? 45)) label).
Definition validate_registry (registry : list Z) : result ImageReferenceError () :=
  if bool_decide (registry = []) || contains_char 47 registry || contains_char 64 registry
     || existsb (λ b, is_ascii_whitespace b || is_ascii_uppercase b || is_ascii_control b) registry
  then Err (InvalidRegistry registry)
  else if starts_with [91] registry then validate_ipv6_registry registry
  else
    let '(host, port) := match rsplit_once 58 registry with Some (host, port) => (host, Some port) | None => (registry, None) end in
    if bool_decide (host = []) || existsb invalid_label (split_on (Z.eqb 46) host) then Err (InvalidRegistry registry)
    else validate_port registry port.

Definition is_lower_alphanumeric (b : Z) : bool := is_ascii_lowercase b || is_ascii_digit b.
Fixpoint skip_dashes (s : list Z) : list Z :=
  match s with b :: rest => if b =? 45 then skip_dashes rest else s | [] => [] end.
(** What the loop goes on with after a separator. *)
Definition after_separator (b : Z) (rest : list Z) : option (list Z) :=
  if b =? 46 then Some rest
  else if b =? 95 then Some (if starts_with [95] rest then drop 1 rest else rest)
  else if b =? 45 then Some (skip_dashes (b :: rest))
  else None.
(** The loop, on what is left of the component; every round drops a byte or more. *)
Fixpoint name_tail (fuel : nat) (s : list Z) : bool :=
  match fuel with
  | O => true
  | S fuel =>
      match s with
      | [] => true
      | b :: rest =>
          if is_lower_alphanumeric b then name_tail fuel rest
          else
            match after_separator b rest with
            | None => false
            | Some after => match after with c :: _ => if is_lower_alphanumeric c then name_tail fuel after else false | [] => false end
            end
      end
  end.
Definition valid_name_component (component : list Z) : bool :=
  match component with b :: rest => is_lower_alphanumeric b && name_tail (length rest) rest | [] => false end.
Definition validate_repository (repository : list Z) : result ImageReferenceError () :=
  if bool_decide (repository = []) || (MAX_REPOSITORY_LENGTH <? len repository)
     || existsb (λ part, negb (valid_name_component part)) (split_on (Z.eqb 47) repository)
  then Err (InvalidRepository repository) else Ok ().
Definition validate_tag (tag : list Z) : result ImageReferenceError () :=
  let valid := match tag with b :: rest => (is_ascii_alphanumeric b || (b =? 95)) && forallb is_name_byte rest | [] => false end in
  if negb valid || (MAX_TAG_LENGTH <? len tag) then Err (InvalidTag tag) else Ok ().

Definition SCHEME_SEPARATOR : list Z := bytes_of "://".
Definition from_str (value : list Z) : result ImageReferenceError ImageReference :=
  if bool_decide (value = []) then Err EmptyReference
  else if negb (bool_decide (trim value = value)) || contains_str SCHEME_SEPARATOR value || contains_char 63 value || contains_char 35 value
  then Err (InvalidSyntax value)
  else
    let? (name_and_tag, digest) := split_digest value in
    let? (name, tag) := split_tag name_and_tag in
    let? (registry, repository) := split_registry name in
    let? _ := validate_registry registry in
    let registry := if bool_decide (registry = LEGACY_DOCKER_HUB_REGISTRY) then DEFAULT_REGISTRY else registry in
    let? _ := validate_repository repository in
    let repository :=
      if bool_decide (registry = DEFAULT_REGISTRY) && negb (contains_char 47 repository)
      then DEFAULT_NAMESPACE ++ 47 :: repository else repository in
    let? tag :=
      match tag, digest with
      | Some tag, _ => let? _ := validate_tag tag in Ok (Some tag)
      | None, None => Ok (Some DEFAULT_TAG)
      | None, Some _ => Ok None
      end in
    Ok (mkReference registry repository tag digest).

(** ** Requests *)

(** The two static headers; [insert] accepts them. *)
Definition IDENTITY : HeaderMap := {[bytes_of "accept-encoding" := [bytes_of "identity"]]}.
Definition manifest_headers : HeaderMap := <[bytes_of "accept" := [manifest_accept_header]]> IDENTITY.
Definition manifest_request_of (image : ImageReference) : RegistryRequest :=
  mkRegistryRequest Get Https (distribution_authority image) (manifest_path image) manifest_headers [] DEFAULT_MANIFEST_RESPONSE_LIMIT.
Definition blob_request (image : ImageReference) (d : Descriptor) : RegistryRequest :=
  mkRegistryRequest Get Https (distribution_authority image) (blob_url image (descriptor_digest d)) IDENTITY [] (descriptor_size d).
Lemma static_headers_accepted :
  (let? h := insert_header (bytes_of "accept") manifest_accept_header ∅ in
   insert_header (bytes_of "accept-encoding") (bytes_of "identity") h) = Ok manifest_headers.
Proof. vm_compute. reflexivity. Qed.

(** ** Names *)

Lemma skip_dashes_length s : (length (skip_dashes s) ≤ length s)%nat.
Proof. induction s as [|b s IH]; cbn; [done|]. destruct (b =? 45); cbn; lia. Qed.
Lemma after_shorter b rest after : after_separator b rest = Some after → (length after ≤ length rest)%nat.
Proof.
  unfold after_separator. destruct (b =? 46); [by intros [= <-]|]. destruct (b =? 95).
  - intros [= <-]. destruct (starts_with _ _); [rewrite length_drop; lia|done].
  - destruct (b =? 45) eqn:E; [|done]. cbn. rewrite E. intros [= <-]. apply skip_dashes_length.
Qed.
(** The fuel is enough. *)
Lemma name_tail_fuel fuel : ∀ fuel' s, (length s ≤ fuel)%nat → (length s ≤ fuel')%nat → name_tail fuel s = name_tail fuel' s.
Proof.
  induction fuel as [|fuel IH]; intros fuel' [|b s] H1 H2; cbn in *; try lia; [by destruct fuel'..|].
  destruct fuel' as [|fuel']; [lia|]. cbn [name_tail]. destruct (is_lower_alphanumeric b); [apply IH; lia|].
  destruct (after_separator b s) as [[|c after]|] eqn:E; [done| |done].
  apply after_shorter in E. destruct (is_lower_alphanumeric c); [apply IH; lia|done].
Qed.
(** The bytes of a name. *)
Definition name_byte (b : Z) : Prop := is_lower_alphanumeric b = true ∨ b = 46 ∨ b = 95 ∨ b = 45.
Lemma skip_dashes_bytes s : Forall name_byte (skip_dashes s) → Forall name_byte s.
Proof.
  induction s as [|b s IH]; cbn; [done|]. destruct (Z.eqb_spec b 45) as [->|]; [|done]. intros H. constructor; [|by apply IH].
  unfold name_byte. tauto.
Qed.
Lemma after_bytes b rest after : after_separator b rest = Some after → Forall name_byte after → Forall name_byte (b :: rest).
Proof.
  unfold after_separator. destruct (Z.eqb_spec b 46) as [->|]; [intros [= <-] H; constructor; [unfold name_byte; tauto|done]|].
  destruct (Z.eqb_spec b 95) as [->|].
  - intros [= <-] H. constructor; [unfold name_byte; tauto|]. unfold starts_with in H. case_bool_decide as Hp; [|done].
    destruct Hp as [l ->]. cbn in *. constructor; [unfold name_byte; tauto|done].
  - destruct (Z.eqb_spec b 45) as [->|]; [|done]. intros [= <-] H. by apply skip_dashes_bytes.
Qed.
Lemma name_tail_bytes fuel : ∀ s, (length s ≤ fuel)%nat → name_tail fuel s = true → Forall name_byte s.
Proof.
  induction fuel as [|fuel IH]; intros [|b s] Hl; cbn in *; try lia; [constructor..|].
  destruct (is_lower_alphanumeric b) eqn:Eb; [intros H; constructor; [by left|apply IH; [lia|done]]|].
  destruct (after_separator b s) as [[|c after]|] eqn:E; [done| |done].
  pose proof (after_shorter _ _ _ E). destruct (is_lower_alphanumeric c); [|done]. intros H1.
  apply (after_bytes _ _ _ E), IH; [lia|done].
Qed.
Lemma component_bytes s : valid_name_component s = true → s ≠ [] ∧ Forall name_byte s.
Proof.
  destruct s as [|b s]; cbn; [done|]. intros [Hb H]%andb_prop. split; [done|]. constructor; [by left|].
  by eapply name_tail_bytes.
Qed.

(** ** Printing and parsing *)

Ltac bytes := unfold name_byte, graphic, is_name_byte, is_digest_byte, is_lower_hex, is_algorithm_separator, is_lower_alphanumeric,
  is_ascii_alphanumeric, is_ascii_digit, is_ascii_lowercase, between in *; lia.
Lemma split_on_subset p s piece x : piece ∈ split_on p s → x ∈ piece → x ∈ s.
Proof.
  revert piece. induction s as [|b s IH]; intros piece; cbn.
  - intros ->%list_elem_of_singleton. done.
  - destruct (p b).
    + intros [->|Hp]%elem_of_cons Hx; [by apply not_elem_of_nil in Hx|]. apply elem_of_cons. right. by eapply IH.
    + destruct (split_on p s) as [|q pieces] eqn:E; [by apply split_on_nonempty in E|].
      intros [->|Hp]%elem_of_cons Hx; apply elem_of_cons.
      * apply elem_of_cons in Hx as [->|Hx]; [by left|right]. eapply IH; [by left|done].
      * right. eapply IH; [by right|done].
Qed.
Lemma forallb_Forall {A} (f : A → bool) l : forallb f l = true → Forall (λ x, f x = true) l.
Proof. intros H. apply Forall_forall. intros x Hx. by apply (proj1 (forallb_forall f l) H), list_elem_of_In. Qed.
Lemma existsb_Forall {A} (f : A → bool) l : existsb f l = false → Forall (λ x, f x = false) l.
Proof.
  intros H. apply Forall_forall. intros x Hx. destruct (f x) eqn:E; [|done]. rewrite <- H. symmetry. apply existsb_exists.
  exists x. split; [by apply list_elem_of_In|done].
Qed.

(** *** Digests *)

Lemma Digest_parsed s d : Digest_from_str s = Ok d → Digest_to_string d = s.
Proof.
  unfold Digest_from_str. destruct (split_once 58 s) as [[a e]|] eqn:E; [|done]. apply split_once_Some in E as [-> _].
  intros H. repeat (case_match; [done|]). by simplify_eq.
Qed.
Lemma Digest_bytes d : Digest_from_str (Digest_to_string d) = Ok d → Forall (λ b, graphic b ∧ b ∉ [63; 35; 64; 47]) (Digest_to_string d) ∧ hex d ≠ [].
Proof.
  unfold Digest_from_str. destruct (split_once 58 _) as [[a e]|] eqn:E; [|done]. apply split_once_Some in E as [E _].
  destruct (_ || _) eqn:H1; [done|]. destruct (valid_algorithm a) eqn:H2; [|done]. cbn [negb].
  do 3 (case_match; [done|]). destruct (forallb is_digest_byte e) eqn:Hh; [|done]. cbn [negb]. intros [= <-]. rewrite E. clear E.
  split.
  - apply Forall_app. split; [|constructor; [split; [bytes|set_solver]|]].
    + apply forallb_Forall in H2. eapply Forall_impl; [apply (split_on_Forall is_algorithm_separator (λ b, is_ascii_lowercase b || is_ascii_digit b = true))|].
      * eapply Forall_impl; [exact H2|]. cbn. intros piece [_ Hp]%andb_prop. by apply forallb_Forall.
      * cbn. intros b Hb. split; [destruct Hb; bytes|]. set_unfold. intros Hx. destruct_or? Hx; subst; by destruct Hb.
    + apply forallb_Forall in Hh. eapply Forall_impl; [exact Hh|]. cbn. intros b Hb. split; [bytes|]. set_unfold.
      intros Hx. destruct_or? Hx; by subst.
  - cbn. intros ->. by rewrite (bool_decide_eq_true_2 ([] = [])), orb_true_r in H1.
Qed.

(** *** References *)

Definition names_registry (first : list Z) : bool :=
  contains_char 46 first || contains_char 58 first || bool_decide (first = LOCALHOST) || starts_with [91] first.
Record reference_ok (r : ImageReference) : Prop := mk_reference_ok {
  rf_registry : validate_registry (registry r) = Ok ();
  rf_named : names_registry (registry r) = true;
  rf_legacy : registry r ≠ LEGACY_DOCKER_HUB_REGISTRY;
  rf_plain : (63 ∉ registry r) ∧ (35 ∉ registry r);
  rf_repository : validate_repository (repository r) = Ok ();
  rf_default : registry r = DEFAULT_REGISTRY → 47 ∈ repository r;
  rf_tag : match tag r with Some t => validate_tag t = Ok () | None => reference_digest r ≠ None end;
  rf_digest : ∀ d, reference_digest r = Some d → Digest_from_str (Digest_to_string d) = Ok d
}.
Lemma registry_start s : validate_registry s = Ok () → ∃ b rest, s = b :: rest ∧ graphic b ∧ (47 ∉ s) ∧ (64 ∉ s).
Proof.
  unfold validate_registry. destruct (_ || _) eqn:H1; [done|]. rewrite !orb_false_iff in H1. destruct H1 as [[[H0 H1] H2] _].
  apply bool_decide_eq_false in H0. apply contains_char_false in H1, H2. destruct s as [|b s]; [done|].
  intros Hv. exists b, s. split; [done|]. split; [|done]. unfold starts_with in Hv. case_bool_decide as Hb.
  { destruct Hb as [l Hb]. simplify_list_eq. bytes. }
  assert (∀ host, host ≠ [] → existsb invalid_label (split_on (Z.eqb 46) host) = false → ∃ c l, host = c :: l ∧ graphic c) as Hhost.
  { intros [|c l] Hne He; [done|]. exists c, l. split; [done|]. apply existsb_Forall in He. cbn [split_on] in He.
    destruct (Z.eqb_spec 46 c) as [<-|Hc]; [bytes|]. destruct (split_on _ l) as [|piece pieces]; apply Forall_cons in He as [He _];
      unfold invalid_label in He; rewrite !orb_false_iff, negb_false_iff in He; destruct He as [_ He]; cbn in He; apply andb_prop in He as [He _]; bytes. }
  destruct (rsplit_once 58 (b :: s)) as [[host port]|] eqn:E; (destruct (_ || _) eqn:H3; [done|]); rewrite orb_false_iff in H3;
    destruct H3 as [Hne He]; apply bool_decide_eq_false in Hne; destruct (Hhost _ Hne He) as (c & l & Ehost & Hg).
  - apply rsplit_once_Some in E as [E _]. subst host. by simplify_list_eq.
  - by simplify_list_eq.
Qed.
Lemma repository_bytes s : validate_repository s = Ok () → Forall (λ piece, piece ≠ []) (split_on (Z.eqb 47) s) ∧
  Forall (λ b, b = 47 ∨ name_byte b) s ∧ s ≠ [].
Proof.
  unfold validate_repository. destruct (_ || _) eqn:H; [done|]. rewrite !orb_false_iff in H. destruct H as [[H0 _] H].
  apply bool_decide_eq_false in H0. apply existsb_Forall in H. intros _. split.
  - eapply Forall_impl; [exact H|]. cbn. intros piece Hp%negb_false_iff. by apply component_bytes.
  - split; [|done]. eapply Forall_impl; [apply (split_on_Forall (Z.eqb 47) name_byte)|].
    + eapply Forall_impl; [exact H|]. cbn. intros piece Hp%negb_false_iff. by apply component_bytes.
    + intros b [Hb%Z.eqb_eq|Hb]; [by left|by right].
Qed.
Lemma tag_bytes s : validate_tag s = Ok () → Forall (λ b, is_name_byte b = true) s ∧ s ≠ [].
Proof.
  unfold validate_tag. destruct s as [|b s]; [done|]. destruct (_ && _) eqn:E; [|done]. destruct (_ <? _); [done|]. intros _.
  apply andb_prop in E as [Hb Hs]. split; [|done]. constructor; [|by apply forallb_Forall]. bytes.
Qed.

Section printed.
Context (r : ImageReference) (R : reference_ok r).
Definition tag_part : list Z := match tag r with Some t => 58 :: t | None => [] end.
Definition digest_part : list Z := match reference_digest r with Some d => 64 :: Digest_to_string d | None => [] end.
Lemma tag_part_bytes : Forall (λ b, graphic b ∧ b ∉ [63; 35; 64; 47]) tag_part.
Proof.
  unfold tag_part. pose proof (rf_tag r R) as Ht. destruct (tag r) as [t|]; [|constructor]. constructor; [split; [bytes|set_solver]|].
  destruct (tag_bytes t Ht) as [Hb _]. eapply Forall_impl; [exact Hb|]. cbn. intros b Hx. split; [bytes|]. set_unfold.
  intros Hy. destruct_or? Hy; by subst.
Qed.
Lemma digest_part_bytes : Forall (λ b, graphic b ∧ b ∉ [63; 35; 47]) digest_part.
Proof.
  unfold digest_part. pose proof (rf_digest r R) as Hd. destruct (reference_digest r) as [d|]; [|constructor].
  constructor; [split; [bytes|set_solver]|]. destruct (Digest_bytes d (Hd d eq_refl)) as [Hb _].
  eapply Forall_impl; [exact Hb|]. cbn. intros b [Hg Hn]. split; [done|]. set_solver.
Qed.
Lemma parts_end : ∃ s b, tag_part ++ digest_part = s ++ [b] ∧ graphic b.
Proof.
  assert (tag_part ++ digest_part ≠ []) as Hne.
  { unfold tag_part, digest_part. pose proof (rf_tag r R). by destruct (tag r), (reference_digest r). }
  assert (Forall graphic (tag_part ++ digest_part)) as Hg.
  { apply Forall_app. split; (eapply Forall_impl; [apply tag_part_bytes || apply digest_part_bytes|]); by intros b []. }
  destruct (tag_part ++ digest_part) as [|b s _] using rev_ind; [done|]. exists s, b. split; [done|].
  apply Forall_app in Hg as [_ Hg]. by apply Forall_cons in Hg as [].
Qed.
Lemma to_string_parts : to_string r = registry r ++ 47 :: repository r ++ tag_part ++ digest_part.
Proof. done. Qed.
Lemma printed_syntax : to_string r ≠ [] ∧ trim (to_string r) = to_string r ∧ contains_str SCHEME_SEPARATOR (to_string r) = false ∧
  contains_char 63 (to_string r) = false ∧ contains_char 35 (to_string r) = false.
Proof.
  destruct (registry_start _ (rf_registry r R)) as (b & rest & Er & Hb & Hs & _).
  destruct (repository_bytes _ (rf_repository r R)) as (Hp & Hn & _). destruct parts_end as (s & c & Et & Hc).
  pose proof tag_part_bytes as Htag. pose proof digest_part_bytes as Hdig. pose proof (rf_plain r R) as [P1 P2].
  rewrite to_string_parts. split; [rewrite Er; done|]. split.
  { rewrite Et, Er, (app_assoc (repository r)), app_comm_cons, app_assoc. by apply trim_graphic. }
  split.
  - apply (no_double 47 58). rewrite split_on_app by done. apply Forall_app. split.
    + rewrite split_on_none; [by repeat constructor; rewrite Er|]. apply Forall_forall. intros x Hx. apply Z.eqb_neq. by intros <-.
    + destruct (split_on_tail (Z.eqb 47) (repository r) (tag_part ++ digest_part)) as (front & piece & E1 & E2).
      { apply Forall_app. split; (eapply Forall_impl; [exact Htag || exact Hdig|]); intros x [_ Hx]; apply Z.eqb_neq; intros ?; subst x; set_solver. }
      rewrite E2. rewrite E1 in Hp. apply Forall_app in Hp as [Hf Hl]. apply Forall_app. split; [done|].
      apply Forall_cons in Hl as [Hl _]. repeat constructor. by destruct piece.
  - split; apply contains_char_false; rewrite !elem_of_app, elem_of_cons, !elem_of_app; intros Hin;
      rewrite Forall_forall in Htag, Hdig, Hn;
      (destruct Hin as [?|[?|[Hin|[Hin|Hin]]]]; [done|done|apply Hn in Hin as [?|Hin]; [done|bytes]|
       apply Htag in Hin as [_ Hin]; set_solver|apply Hdig in Hin as [_ Hin]; set_solver]).
Qed.
Definition name_part : list Z := registry r ++ 47 :: repository r.
Lemma name_part_none c : c ∈ [58; 64] → c ∉ repository r.
Proof.
  intros Hc Hin. destruct (repository_bytes _ (rf_repository r R)) as (_ & Hn & _). rewrite Forall_forall in Hn.
  apply Hn in Hin. set_unfold in Hc. destruct_or? Hc; subst; (destruct Hin; [done|bytes]).
Qed.
Lemma printed_digest : split_digest (to_string r) = Ok (name_part ++ tag_part, reference_digest r).
Proof.
  destruct (registry_start _ (rf_registry r R)) as (b & rest & Er & _ & _ & Ha).
  assert (Forall (λ x, (64 =? x) = false) (name_part ++ tag_part)) as Hno.
  { apply Forall_forall. intros x Hx. apply Z.eqb_neq. intros <-. unfold name_part in Hx. rewrite !elem_of_app, elem_of_cons in Hx.
    destruct Hx as [[?|[?|Hx]]|Hx]; [done|done|by apply name_part_none in Hx; [|set_solver]|].
    pose proof tag_part_bytes as Ht. rewrite Forall_forall in Ht. apply Ht in Hx as [_ Hx]. set_solver. }
  assert (name_part ++ tag_part ≠ []) as Hne by (unfold name_part; rewrite Er; done).
  replace (to_string r) with ((name_part ++ tag_part) ++ digest_part) by (unfold name_part; rewrite to_string_parts, <- !app_assoc; done).
  unfold split_digest, digest_part. pose proof (rf_digest r R) as Hd. destruct (reference_digest r) as [d|].
  - specialize (Hd d eq_refl). rewrite split_on_app, (split_on_none _ (name_part ++ tag_part)), split_on_none by done || (
      apply Forall_forall; intros x Hx; apply Z.eqb_neq; intros <-; destruct (Digest_bytes d Hd) as [Hb _];
      rewrite Forall_forall in Hb; apply Hb in Hx as [_ Hx]; set_solver).
    cbn [app]. rewrite !bool_decide_eq_false_2; [by rewrite Hd| |done]. unfold Digest_to_string. by destruct (algorithm d).
  - rewrite app_nil_r, split_on_none by done. by rewrite bool_decide_eq_false_2.
Qed.
Lemma printed_tag : split_tag (name_part ++ tag_part) = Ok (name_part, tag r).
Proof.
  destruct (registry_start _ (rf_registry r R)) as (b & rest & Er & _). unfold split_tag, tag_part.
  pose proof (rf_tag r R) as Ht. destruct (tag r) as [t|].
  - destruct (tag_bytes t Ht) as [Hb Hne]. rewrite Forall_forall in Hb. rewrite rsplit_once_app by (intros Hx%Hb; bytes).
    rewrite (proj2 (contains_char_false _ _)) by (intros Hx%Hb; bytes).
    rewrite !bool_decide_eq_false_2; [done|done|]. unfold name_part. by rewrite Er.
  - rewrite app_nil_r. destruct (rsplit_once 58 name_part) as [[n t]|] eqn:E; [|done]. apply rsplit_once_Some in E as [E Hc].
    assert (47 ∈ t) as Hin; [|by rewrite (proj2 (contains_char_true _ _) Hin)].
    unfold name_part in E. apply app_eq_inv in E as [(k & E1 & E2)|(k & E1 & E2)].
    + destruct k as [|x k]; [done|]. injection E2 as _ ->. apply elem_of_app. right. by left.
    + destruct k as [|x k]; [done|]. injection E2 as _ E2. exfalso. apply (name_part_none 58); [by left|]. rewrite E2.
      apply elem_of_app. right. by left.
Qed.
Lemma printed_parses : from_str (to_string r) = Ok r.
Proof.
  destruct printed_syntax as (H1 & H2 & H3 & H4 & H5). unfold from_str. rewrite bool_decide_eq_false_2 by done.
  rewrite H2, H3, H4, H5, bool_decide_eq_true_2 by done. cbn [negb orb]. rewrite printed_digest. cbn [rbind].
  rewrite printed_tag. cbn [rbind]. destruct (registry_start _ (rf_registry r R)) as (b & rest & Er & _ & Hs & _).
  destruct (repository_bytes _ (rf_repository r R)) as (_ & _ & Hne).
  unfold split_registry, name_part. rewrite split_once_app by done. fold (names_registry (registry r)).
  rewrite (rf_named r R), bool_decide_eq_false_2 by done. cbn [rbind]. rewrite (rf_registry r R). cbn [rbind].
  rewrite (bool_decide_eq_false_2 (registry r = LEGACY_DOCKER_HUB_REGISTRY)) by apply R. rewrite (rf_repository r R). cbn [rbind].
  assert (bool_decide (registry r = DEFAULT_REGISTRY) && negb (contains_char 47 (repository r)) = false) as ->.
  { case_bool_decide as Hd; [|done]. by rewrite (proj2 (contains_char_true _ _) (rf_default r R Hd)). }
  pose proof (rf_tag r R) as Ht. destruct r as [reg rep [t|] d]; cbn in *; [by rewrite Ht|]. by destruct d.
Qed.
End printed.

(** *** What parsing gives *)

Lemma split_digest_inv v n d : split_digest v = Ok (n, d) → (∀ x, x ∈ n → x ∈ v) ∧
  ∀ e, d = Some e → Digest_from_str (Digest_to_string e) = Ok e.
Proof.
  unfold split_digest. pose proof (split_on_subset (Z.eqb 64) v) as Hs. destruct (split_on _ v) as [|a [|b [|]]]; [done|..|done].
  - case_bool_decide; [done|]. intros [= <- <-]. split; [|done]. intros x Hx. by apply (Hs a); [left|].
  - do 2 (case_bool_decide; [done|]). destruct (Digest_from_str b) as [e|] eqn:E; [|done]. intros [= <- <-].
    split; [intros x Hx; by apply (Hs a); [left|]|]. intros ? [= <-]. by rewrite (Digest_parsed _ _ E).
Qed.
Lemma split_tag_inv v n t : split_tag v = Ok (n, t) → ∀ x, x ∈ n → x ∈ v.
Proof.
  unfold split_tag. destruct (rsplit_once 58 v) as [[a b]|] eqn:E; [|by intros [= <- _]]. apply rsplit_once_Some in E as [-> _].
  destruct (contains_char 47 b); [by intros [= <- _]|]. destruct (_ || _); [done|]. intros [= <- _] x Hx. apply elem_of_app. by left.
Qed.
Lemma split_registry_inv v g p : split_registry v = Ok (g, p) → g = DEFAULT_REGISTRY ∨ names_registry g = true ∧ ∀ x, x ∈ g → x ∈ v.
Proof.
  unfold split_registry. destruct (split_once 47 v) as [[a b]|] eqn:E; [|by intros [= <- _]; left].
  apply split_once_Some in E as [-> _]. fold (names_registry a). destruct (names_registry a) eqn:En; [|by intros [= <- _]; left].
  case_bool_decide; [done|]. intros [= <- _]. right. split; [done|]. intros x Hx. apply elem_of_app. by left.
Qed.
Lemma library_ok p : validate_repository p = Ok () → len (DEFAULT_NAMESPACE ++ 47 :: p) ≤ MAX_REPOSITORY_LENGTH →
  validate_repository (DEFAULT_NAMESPACE ++ 47 :: p) = Ok ().
Proof.
  unfold validate_repository. intros Hp Hl. destruct (_ || _) eqn:E in Hp; [done|]. rewrite !orb_false_iff in E. destruct E as [_ E].
  rewrite split_on_app, existsb_app, E by done. replace (MAX_REPOSITORY_LENGTH <? _) with false by lia.
  by rewrite bool_decide_eq_false_2.
Qed.
Lemma ok_inj {E A} (a b : A) : Ok (E := E) a = Ok b → a = b.
Proof. congruence. Qed.
Lemma parsed_ok v r : from_str v = Ok r → len (repository r) ≤ MAX_REPOSITORY_LENGTH → reference_ok r.
Proof.
  unfold from_str. case_bool_decide; [done|]. destruct (_ || _) eqn:Es; [done|]. rewrite !orb_false_iff in Es.
  destruct Es as [[_ H63] H35]. apply contains_char_false in H63, H35. intros Hr Hl.
  apply rbind_ok in Hr as ([n d] & Hd & Hr). apply rbind_ok in Hr as ([m t] & Ht & Hr).
  apply rbind_ok in Hr as ([g p] & Hg & Hr). apply rbind_ok in Hr as ([] & Hv & Hr). cbn zeta in Hr.
  apply rbind_ok in Hr as ([] & Hp & Hr). apply rbind_ok in Hr as (t' & Ht' & Hr). apply ok_inj in Hr as <-.
  apply split_digest_inv in Hd as [Hn Hd]. pose proof (split_tag_inv _ _ _ Ht) as Hm. apply split_registry_inv in Hg.
  set (g' := if bool_decide (g = LEGACY_DOCKER_HUB_REGISTRY) then DEFAULT_REGISTRY else g) in *.
  assert (g' = DEFAULT_REGISTRY ∨ g' = g ∧ names_registry g = true ∧ (63 ∉ g) ∧ (35 ∉ g) ∧ g ≠ LEGACY_DOCKER_HUB_REGISTRY) as Hcases.
  { subst g'. case_bool_decide; [by left|]. destruct Hg as [->|[Hg Hx]]; [by left|]. right. split_and!; try done.
    - intros ?%Hx%Hm%Hn. done.
    - intros ?%Hx%Hm%Hn. done. }
  cbn [repository] in Hl. split; cbn [registry repository tag reference_digest].
  - destruct Hcases as [->|(-> & _)]; [by vm_compute|done].
  - destruct Hcases as [->|(-> & ? & _)]; [by vm_compute|done].
  - destruct Hcases as [->|(-> & _ & _ & _ & ?)]; [by vm_compute|done].
  - destruct Hcases as [->|(-> & _ & ? & ? & _)]; [|done]. split; apply contains_char_false; by vm_compute.
  - destruct (_ && _); [|done]. by apply library_ok.
  - intros Eg. rewrite Eg, bool_decide_eq_true_2 by done. destruct (contains_char 47 p) eqn:Ec; cbn [andb negb].
    + by apply contains_char_true.
    + apply elem_of_app. right. by left.
  - destruct t as [t|]; [apply rbind_ok in Ht' as ([] & Hval & [= <-]); done|]. destruct d; by injection Ht' as <-.
  - done.
Qed.

(** C27: what an image reference prints, parses again as the same reference: registry,
    repository with its default namespace, tag and digest come back as they are. The
    repository is at most as long as a repository may be, which parsing checks before
    it puts the default namespace in front. *)
Theorem reference_round_trip v r : from_str v = Ok r → len (repository r) ≤ MAX_REPOSITORY_LENGTH → from_str (to_string r) = Ok r.
Proof. intros Hr Hl. by eapply printed_parses, parsed_ok. Qed.
Lemma reference_round_trip_witness : ∃ r, from_str (bytes_of "localhost:5000/team/a__b.c:v1") = Ok r ∧ from_str (to_string r) = Ok r.
Proof.
  eexists. split; [vm_compute; reflexivity|]. eapply (reference_round_trip (bytes_of "localhost:5000/team/a__b.c:v1")); vm_compute; done.
Defined.
(** A name that is short enough only without its default namespace. *)
Definition long_name : list Z := replicate 250 97.
Lemma long_name_not_printed : ∃ r, from_str long_name = Ok r ∧ from_str (to_string r) = Err (InvalidRepository (repository r)).
Proof. eexists. split; [vm_compute; reflexivity|]. vm_compute. reflexivity. Qed.
(** A port with a sign is taken over into the authority. *)
Lemma signed_port_accepted : ∃ r, from_str (bytes_of "localhost:+80/a") = Ok r ∧ distribution_authority r = bytes_of "localhost:+80".
Proof. eexists. split; [vm_compute; reflexivity|]. vm_compute. reflexivity. Qed.
