(* ===== verification/Oci.v ===== *)
(** Image configurations: the part of [rish-oci/src/lib.rs] that validates one, and the
    structural limits on JSON documents, [rish-pull/src/json_limits.rs].

    The JSON library's reading of a document is given as a tree in the order in which
    the deserializer reports it to the visitor, with the place where it reports an error. *)
From stdpp Require Import strings gmap.
From S2P Require Import Prelude.
From S2P Require Import Text.
From S2P Require Import Registry.
Local Open Scope Z_scope.

(** ** [rish-oci/src/lib.rs] *)

Record ImageConfig := mkImageConfig {
  env : list (list Z);
  entrypoint : list (list Z);
  cmd : list (list Z);
  working_dir : list Z;
  labels : gmap (list Z) (list Z);
  user : list Z
}.
Record RootFilesystem := mkRootFilesystem { kind : list Z; diff_ids : list (list Z) }.
Record ImageConfiguration := mkImageConfiguration {
  image_architecture : list Z;
  image_os : list Z;
  image_config : ImageConfig;
  rootfs : RootFilesystem
}.
Inductive OciError :=
  | InvalidContract (reason : list Z)
  | UnknownCapability (capability : list Z)
  | UnsupportedPlatform (os architecture : list Z)
  | GuestArchitectureMismatch (image guest : list Z)
  | InvalidRootFilesystem (kind : list Z)
  | UnsupportedDiffId (diff_id : list Z)
  | InvalidDiffId (diff_id : list Z)
  | InvalidWorkingDirectory (path : list Z)
  | InvalidEnvironment
  | MissingCommand.
Definition SHA256_PREFIX : list Z := bytes_of "sha256:".
Definition validate_sha256_diff_id (diff_id : list Z) : result OciError () :=
  if negb (starts_with SHA256_PREFIX diff_id) then Err (UnsupportedDiffId diff_id)
  else
    let encoded := drop (length SHA256_PREFIX) diff_id in
    if negb (len encoded =? 64) || negb (forallb is_lower_hex encoded) then Err (InvalidDiffId diff_id) else Ok ().
Definition valid_environment_entry (entry : list Z) : bool :=
  match split_once 61 entry with
  | None => false
  | Some (name, _) =>
      negb (bool_decide (name = [])) && negb (contains_char 0 name) && negb (contains_char 61 name)
      && forallb (λ b, negb (is_ascii_control b)) name
  end.
Fixpoint validate_diff_ids (ids : list (list Z)) : result OciError () :=
  match ids with [] => Ok () | id :: ids => let? _ := validate_sha256_diff_id id in validate_diff_ids ids end.
Definition validate_metadata (c : ImageConfiguration) : result OciError () :=
  if negb (bool_decide (kind (rootfs c) = bytes_of "layers")) then Err (InvalidRootFilesystem (kind (rootfs c)))
  else
    let? _ := validate_diff_ids (diff_ids (rootfs c)) in
    let directory := working_dir (image_config c) in
    if negb (bool_decide (directory = [])) && negb (starts_with [47] directory) then Err (InvalidWorkingDirectory directory)
    else if existsb (λ entry, negb (valid_environment_entry entry)) (env (image_config c)) then Err InvalidEnvironment
    else Ok ().
Definition ImageConfiguration_validate (c : ImageConfiguration) : result OciError () :=
  if negb (bool_decide (image_os c = LINUX)) || negb (bool_decide (image_architecture c = ARM64))
  then Err (UnsupportedPlatform (image_os c) (image_architecture c)) else validate_metadata c.
Definition validate_linux_guest_metadata (c : ImageConfiguration) : result OciError () :=
  if negb (bool_decide (image_os c = LINUX))
     || negb (bool_decide (image_architecture c = ARM64) || bool_decide (image_architecture c = AMD64))
  then Err (UnsupportedPlatform (image_os c) (image_architecture c)) else validate_metadata c.

(** ** [json_limits.rs] *)

(** What the deserializer reports of a value. [JBad] is an error in the value itself,
    [JCut] one before it, when the next value or the colon before it is missing; [broken]
    one at the next key. *)
Inductive Json :=
  | JScalar
  | JString (value : list Z)
  | JArray (items : list Json)
  | JObject (members : list (list Z * Json)) (broken : bool)
  | JBad
  | JCut.
Record JsonLimits := mkJsonLimits {
  max_depth : Z;
  max_total_values : Z;
  max_array_items : Z;
  max_object_members : Z;
  max_string_bytes : Z;
  max_total_string_bytes : Z
}.
Definition JsonLimits_default : JsonLimits := mkJsonLimits 64 65536 4096 4096 (1024 * 1024) (8 * 1024 * 1024).
Inductive JsonReason :=
  | ZeroLimit
  | NotJson
  | TooManyValues (limit : Z)
  | StringTooLong (length limit : Z)
  | TooManyStringBytes (limit : Z)
  | TooDeep (limit : Z)
  | TooManyItems (limit : Z)
  | TooManyMembers (limit : Z).
Record Budget := mkBudget { depth : Z; total_values : Z; total_string_bytes : Z }.
#[export] Instance Budget_eta : Settable Budget := λ b, mkBudget (depth b) (total_values b) (total_string_bytes b).
Abbreviation jm A := (st Budget JsonReason A).
Definition validate_limits (l : JsonLimits) : result JsonReason () :=
  if (max_depth l =? 0) || (max_total_values l =? 0) || (max_array_items l =? 0) || (max_object_members l =? 0)
     || (max_string_bytes l =? 0) || (max_total_string_bytes l =? 0)
  then Err ZeroLimit else Ok ().
Section shape.
Context (limits : JsonLimits).
Definition observe_value : jm () := λ b,
  let b := b <| total_values ::= λ n, saturating_add 64 n 1 |> in
  if max_total_values limits <? total_values b then (Err (TooManyValues (max_total_values limits)), b) else (Ok (), b).
Definition observe_string (value : list Z) : jm () := λ b,
  if max_string_bytes limits <? len value then (Err (StringTooLong (len value) (max_string_bytes limits)), b)
  else
    let b := b <| total_string_bytes ::= λ n, saturating_add 64 n (len value) |> in
    if max_total_string_bytes limits <? total_string_bytes b
    then (Err (TooManyStringBytes (max_total_string_bytes limits)), b) else (Ok (), b).
Definition leave_container : Budget → Budget := λ b, b <| depth ::= λ n, saturating_sub n 1 |>.
Definition enter_container : jm () := λ b,
  let b := b <| depth ::= λ n, saturating_add 64 n 1 |> in
  if max_depth limits <? depth b then (Err (TooDeep (max_depth limits)), leave_container b) else (Ok (), b).
(** The closure of a container, and what follows it whatever its result. *)
Definition within_container (c : jm ()) : jm () :=
  let! _ := enter_container in λ b, let '(r, b) := c b in (r, leave_container b).
Section visit.
Context (visit : Json → jm ()).
Fixpoint visit_seq (items : list Json) (count : Z) : jm () :=
  match items with
  | [] => sret ()
  | item :: items =>
      let! _ := visit item in
      let count := saturating_add 64 count 1 in
      if max_array_items limits <? count then sfail (TooManyItems (max_array_items limits)) else visit_seq items count
  end.
Fixpoint visit_map (broken : bool) (members : list (list Z * Json)) (count : Z) : jm () :=
  match members with
  | [] => if broken then sfail NotJson else sret ()
  | (key, value) :: members =>
      let! _ := observe_string key in
      let count := saturating_add 64 count 1 in
      if max_object_members limits <? count then sfail (TooManyMembers (max_object_members limits))
      else let! _ := visit value in visit_map broken members count
  end.
End visit.
Fixpoint shape (j : Json) : jm () :=
  match j with
  | JCut => sfail NotJson
  | JBad => let! _ := observe_value in sfail NotJson
  | JScalar => observe_value
  | JString value => let! _ := observe_value in observe_string value
  | JArray items => let! _ := observe_value in within_container (visit_seq shape items 0)
  | JObject members broken => let! _ := observe_value in within_container (visit_map shape broken members 0)
  end.
End shape.
Definition validate_json_shape (document : Json) (ends : bool) (limits : JsonLimits) : result JsonReason () :=
  let? _ := validate_limits limits in
  let? _ := (shape limits document (mkBudget 0 0 0)).1 in
  if ends then Ok () else Err NotJson.

(** ** What the limits say of a document *)

Section Json_ind.
Context (P : Json → Prop) (Hs : P JScalar) (Ht : ∀ v, P (JString v)) (Ha : ∀ items, Forall P items → P (JArray items))
  (Ho : ∀ members broken, Forall (λ m, P m.2) members → P (JObject members broken)) (Hb : P JBad) (Hc : P JCut).
Fixpoint Json_nested_ind (j : Json) : P j :=
  match j with
  | JScalar => Hs
  | JString v => Ht v
  | JArray items => Ha items ((fix go l : Forall P l := match l with [] => Forall_nil_2 _ | x :: l => Forall_cons_2 _ x l (Json_nested_ind x) (go l) end) items)
  | JObject members broken => Ho members broken ((fix go l : Forall (λ m, P m.2) l :=
      match l with [] => Forall_nil_2 _ | x :: l => Forall_cons_2 _ x l (Json_nested_ind x.2) (go l) end) members)
  | JBad => Hb
  | JCut => Hc
  end.
End Json_ind.

(** Nesting, values and bytes of strings; [sum] and [most] over a list. *)
Definition sum {A} (f : A → Z) (l : list A) : Z := foldr (λ x n, f x + n) 0 l.
Definition most {A} (f : A → Z) (l : list A) : Z := foldr (λ x n, Z.max (f x) n) 0 l.
Fixpoint nesting (j : Json) : Z :=
  match j with
  | JArray items => 1 + most nesting items
  | JObject members _ => 1 + most (λ m, nesting m.2) members
  | _ => 0
  end.
Fixpoint values (j : Json) : Z :=
  match j with
  | JCut => 0
  | JArray items => 1 + sum values items
  | JObject members _ => 1 + sum (λ m, values m.2) members
  | _ => 1
  end.
Fixpoint string_bytes (j : Json) : Z :=
  match j with
  | JString v => len v
  | JArray items => sum string_bytes items
  | JObject members _ => sum (λ m, len m.1 + string_bytes m.2) members
  | _ => 0
  end.
(** The value is read without an error, and no array, object or string in it is too long. *)
Fixpoint acceptable (limits : JsonLimits) (j : Json) : Prop :=
  match j with
  | JScalar => True
  | JString v => len v ≤ max_string_bytes limits
  | JArray items => len items ≤ max_array_items limits ∧ foldr (λ x P, acceptable limits x ∧ P) True items
  | JObject members broken => broken = false ∧ len members ≤ max_object_members limits ∧
      foldr (λ m P, (len m.1 ≤ max_string_bytes limits ∧ acceptable limits m.2) ∧ P) True members
  | JBad | JCut => False
  end.
Lemma sum_nonneg {A} (f : A → Z) l : (∀ x, 0 ≤ f x) → 0 ≤ sum f l.
Proof. intros Hf. induction l as [|x l IH]; cbn; [lia|]. specialize (Hf x). fold (sum f l). lia. Qed.
Lemma most_nonneg {A} (f : A → Z) l : 0 ≤ most f l.
Proof. induction l as [|x l IH]; cbn; [lia|]. fold (most f l). lia. Qed.
Lemma nesting_nonneg j : 0 ≤ nesting j.
Proof. destruct j; cbn; try lia; [pose proof (most_nonneg nesting items)|pose proof (most_nonneg (λ m, nesting m.2) members)]; lia. Qed.
Lemma values_nonneg j : 0 ≤ values j.
Proof.
  induction j as [|v|items IH|members broken IH| |] using Json_nested_ind; cbn; try lia.
  - induction IH as [|x l Hx _ IH]; cbn; [lia|]. fold (sum values l). lia.
  - induction IH as [|x l Hx _ IH]; cbn; [lia|]. fold (sum (λ m : list Z * Json, values m.2) l). lia.
Qed.
Lemma string_bytes_nonneg j : 0 ≤ string_bytes j.
Proof.
  induction j as [|v|items IH|members broken IH| |] using Json_nested_ind; cbn; try lia.
  - apply len_nonneg.
  - induction IH as [|x l Hx _ IH]; cbn; [lia|]. fold (sum string_bytes l). lia.
  - induction IH as [|x l Hx _ IH]; cbn; [lia|]. pose proof (len_nonneg x.1). fold (sum (λ m : list Z * Json, len m.1 + string_bytes m.2) l). lia.
Qed.

Record limits_ok (l : JsonLimits) : Prop := mk_limits_ok {
  lo_depth : 0 ≤ max_depth l < 2 ^ 64 - 1;
  lo_values : 0 ≤ max_total_values l < 2 ^ 64 - 1;
  lo_items : 0 ≤ max_array_items l < 2 ^ 64 - 1;
  lo_members : 0 ≤ max_object_members l < 2 ^ 64 - 1;
  lo_string : 0 ≤ max_string_bytes l < 2 ^ 64 - 1;
  lo_strings : 0 ≤ max_total_string_bytes l < 2 ^ 64 - 1
}.
Section exact.
Context (limits : JsonLimits) (L : limits_ok limits).
Definition within_budget (b : Budget) : Prop := 0 ≤ depth b ≤ max_depth limits ∧ 0 ≤ total_values b ≤ max_total_values limits ∧
  0 ≤ total_string_bytes b ≤ max_total_string_bytes limits.
Definition spend (dv ds : Z) (b : Budget) : Budget := mkBudget (depth b) (total_values b + dv) (total_string_bytes b + ds).
(** The computation succeeds exactly when [H], and then has spent this much. *)
Definition outcome (c : jm ()) (b : Budget) (H : Prop) (dv ds : Z) : Prop :=
  match c b with
  | (Ok _, b') => H ∧ b' = spend dv ds b ∧ within_budget b'
  | (Err _, _) => ¬ H
  end.
Lemma outcome_iff c b H H' dv dv' ds ds' : outcome c b H dv ds → (H ↔ H') → dv = dv' → ds = ds' → outcome c b H' dv' ds'.
Proof. unfold outcome. intros Hc HH -> ->. destruct (c b) as [[]]; tauto. Qed.
Lemma outcome_bind (c k : jm ()) b H H' dv dv' ds ds' : outcome c b H dv ds →
  (H → within_budget (spend dv ds b) → outcome k (spend dv ds b) H' dv' ds') →
  outcome (let! _ := c in k) b (H ∧ H') (dv + dv') (ds + ds').
Proof.
  unfold outcome, sbind. intros Hc Hk. destruct (c b) as [[[]|e] b']; [|tauto]. destruct Hc as (HH & -> & Hw). specialize (Hk HH Hw).
  destruct (k _) as [[]]; [|tauto]. destruct Hk as (H2 & -> & Hw'). split; [tauto|]. split; [|done]. unfold spend. cbn. f_equal; lia.
Qed.
Lemma outcome_ret b : within_budget b → outcome (sret ()) b True 0 0.
Proof. intros Hb. cbn. split; [done|]. unfold spend. rewrite !Z.add_0_r. by destruct b. Qed.
Lemma outcome_fail e b : outcome (sfail e) b False 0 0.
Proof. cbn. tauto. Qed.
Lemma observe_value_exact b : within_budget b → outcome (observe_value limits) b (total_values b + 1 ≤ max_total_values limits) 1 0.
Proof.
  destruct b as [d v t]. intros (Hd & Hv & Hs). destruct L. unfold outcome, observe_value, saturating_add, within_budget, spend in *. cbn in *.
  unfold set_field. cbn. replace (Z.min (v + 1) _) with (v + 1) by lia. destruct (Z.ltb_spec (max_total_values limits) (v + 1)); cbn; [lia|].
  rewrite Z.add_0_r. split; [lia|]. split; [done|lia].
Qed.
Lemma observe_string_exact s b : within_budget b →
  outcome (observe_string limits s) b (len s ≤ max_string_bytes limits ∧ total_string_bytes b + len s ≤ max_total_string_bytes limits) 0 (len s).
Proof.
  destruct b as [d v t]. intros (Hd & Hv & Hs). destruct L. pose proof (len_nonneg s). unfold outcome, observe_string, within_budget, spend in *.
  destruct (Z.ltb_spec (max_string_bytes limits) (len s)); [lia|]. unfold saturating_add, set_field. cbn in *.
  destruct (Z.ltb_spec (max_total_string_bytes limits) (Z.min (t + len s) (2 ^ 64 - 1))); cbn; [lia|].
  replace (Z.min (t + len s) _) with (t + len s) by lia. rewrite Z.add_0_r. split; [lia|]. split; [done|lia].
Qed.
Lemma within_exact (c : jm ()) b H dv ds : within_budget b →
  (depth b + 1 ≤ max_depth limits → outcome c (b <| depth := depth b + 1 |>) H dv ds) →
  outcome (within_container limits c) b (depth b + 1 ≤ max_depth limits ∧ H) dv ds.
Proof.
  destruct b as [d v t]. intros (Hd & Hv & Hs) Hc. destruct L. unfold outcome, within_container, enter_container, sbind, saturating_add, set_field in *. cbn in *.
  replace (Z.min (d + 1) _) with (d + 1) by lia. destruct (Z.ltb_spec (max_depth limits) (d + 1)); [lia|]. specialize (Hc ltac:(lia)).
  unfold set_field in *. cbn in *. destruct (c _) as [[u|e] b']; [|tauto]. destruct Hc as (HH & -> & Hw). split; [split; [lia|done]|].
  unfold spend, leave_container, within_budget, saturating_sub, set_field in *. cbn in *. replace (Z.max 0 (d + 1 - 1)) with d by lia. split; [done|lia].
Qed.
(** What holds of a value in a budget. *)
Definition holds (j : Json) (b : Budget) : Prop := acceptable limits j ∧ depth b + nesting j ≤ max_depth limits ∧
  total_values b + values j ≤ max_total_values limits ∧ total_string_bytes b + string_bytes j ≤ max_total_string_bytes limits.
Definition exact (j : Json) : Prop := ∀ b, within_budget b → outcome (shape limits j) b (holds j b) (values j) (string_bytes j).
Lemma visit_seq_exact items : Forall exact items → ∀ count b, within_budget b → 0 ≤ count ≤ max_array_items limits →
  outcome (visit_seq limits (shape limits) items count) b
    (count + len items ≤ max_array_items limits ∧ foldr (λ x P, acceptable limits x ∧ P) True items ∧
     depth b + most nesting items ≤ max_depth limits ∧ total_values b + sum values items ≤ max_total_values limits ∧
     total_string_bytes b + sum string_bytes items ≤ max_total_string_bytes limits) (sum values items) (sum string_bytes items).
Proof.
  destruct L. induction 1 as [|x items Hx _ IH]; intros count b Hb Hc.
  { eapply outcome_iff; [by apply outcome_ret| |done|done]. change (len (@nil Json)) with 0. cbn. destruct Hb as (? & ? & ?). lia. }
  cbn [visit_seq]. pose proof (nesting_nonneg x). pose proof (values_nonneg x). pose proof (string_bytes_nonneg x).
  pose proof (most_nonneg nesting items). pose proof (sum_nonneg values items values_nonneg). pose proof (sum_nonneg string_bytes items string_bytes_nonneg).
  pose proof (len_nonneg items). eapply outcome_iff.
  - apply (outcome_bind _ _ b (holds x b) (count + len (x :: items) ≤ max_array_items limits ∧ foldr (λ x P, acceptable limits x ∧ P) True items ∧
      depth b + most nesting items ≤ max_depth limits ∧ total_values b + values x + sum values items ≤ max_total_values limits ∧
      total_string_bytes b + string_bytes x + sum string_bytes items ≤ max_total_string_bytes limits) (values x) (sum values items) (string_bytes x) (sum string_bytes items));
      [by apply Hx|]. intros Hh Hw. unfold saturating_add. replace (Z.min (count + 1) _) with (count + 1) by lia. rewrite len_cons.
    destruct (Z.ltb_spec (max_array_items limits) (count + 1)).
    + cbn. lia.
    + eapply outcome_iff; [apply IH; [done|lia]| |done|done]. cbn. replace (count + 1 + len items) with (count + (1 + len items)) by lia. done.
  - unfold holds. cbn. fold (most nesting items) (sum values items) (sum string_bytes items). rewrite len_cons. split; intros Hh; decompose [and] Hh; split_and!; try done; lia.
  - done.
  - done.
Qed.
Lemma visit_map_exact broken members : Forall (λ m, exact m.2) members → ∀ count b, within_budget b → 0 ≤ count ≤ max_object_members limits →
  outcome (visit_map limits (shape limits) broken members count) b
    (broken = false ∧ count + len members ≤ max_object_members limits ∧
     foldr (λ m P, (len m.1 ≤ max_string_bytes limits ∧ acceptable limits m.2) ∧ P) True members ∧
     depth b + most (λ m, nesting m.2) members ≤ max_depth limits ∧ total_values b + sum (λ m, values m.2) members ≤ max_total_values limits ∧
     total_string_bytes b + sum (λ m, len m.1 + string_bytes m.2) members ≤ max_total_string_bytes limits)
    (sum (λ m, values m.2) members) (sum (λ m, len m.1 + string_bytes m.2) members).
Proof.
  destruct L. induction 1 as [|[key x] members Hx _ IH]; intros count b Hb Hc.
  { change (len (@nil (list Z * Json))) with 0. destruct Hb as (? & ? & ?). destruct broken; cbn [visit_map].
    - eapply outcome_iff; [apply outcome_fail| |done|done]. by split; [|intros []].
    - eapply outcome_iff; [by apply outcome_ret| |done|done]. cbn. split; [|done]. intros _. split_and!; try done; lia. }
  cbn [visit_map]. cbn [snd] in Hx. pose proof (nesting_nonneg x). pose proof (values_nonneg x). pose proof (string_bytes_nonneg x). pose proof (len_nonneg key).
  pose proof (most_nonneg (λ m : list Z * Json, nesting m.2) members). assert (0 ≤ sum (λ m : list Z * Json, values m.2) members) by (apply sum_nonneg; intros; apply values_nonneg).
  assert (0 ≤ sum (λ m : list Z * Json, len m.1 + string_bytes m.2) members).
  { apply sum_nonneg. intros m. pose proof (len_nonneg m.1). pose proof (string_bytes_nonneg m.2). lia. }
  pose proof (len_nonneg members). eapply outcome_iff.
  - eapply (outcome_bind _ _ b); [by apply observe_string_exact|]. intros Hs Hw. unfold saturating_add.
    replace (Z.min (count + 1) _) with (count + 1) by lia. destruct (Z.ltb_spec (max_object_members limits) (count + 1)) as [Hbig|].
    + instantiate (3 := count + 1 ≤ max_object_members limits ∧ holds x (spend 0 (len key) b) ∧ _). cbn. lia.
    + eapply outcome_iff; [eapply outcome_bind; [by apply Hx|]; intros Hh Hw'; apply IH; [done|lia]| |reflexivity|reflexivity].
      split; [intros HH; split; [lia|exact HH]|by intros [_ HH]].
  - unfold holds. cbn. fold (most (λ m : list Z * Json, nesting m.2) members) (sum (λ m : list Z * Json, values m.2) members)
      (sum (λ m : list Z * Json, len m.1 + string_bytes m.2) members). rewrite len_cons.
    split; intros Hh; decompose [and] Hh; split_and!; try done; lia.
  - done.
  - cbn. fold (sum (λ m : list Z * Json, len m.1 + string_bytes m.2) members). lia.
Qed.
Lemma shape_exact j : exact j.
Proof.
  destruct L. induction j as [|v|items IH|members broken IH| |] using Json_nested_ind; intros b Hb; pose proof Hb as (Hd & Hv & Hs).
  - eapply outcome_iff; [by apply observe_value_exact| |done|done]. unfold holds. cbn. lia.
  - eapply outcome_iff; [eapply outcome_bind; [by apply observe_value_exact|]; intros _ Hw; by apply observe_string_exact| |done|done].
    unfold holds. cbn. lia.
  - eapply outcome_iff; [eapply outcome_bind; [by apply observe_value_exact|]; intros _ Hw; apply within_exact; [done|]; intros Hdep;
      apply visit_seq_exact; [done|destruct Hw as (? & ? & ?); split_and!; cbn in *; lia|lia]| |done|done].
    unfold holds. cbn. fold (most nesting items) (sum values items) (sum string_bytes items). pose proof (most_nonneg nesting items).
    pose proof (sum_nonneg values items values_nonneg). pose proof (sum_nonneg string_bytes items string_bytes_nonneg).
    split; intros Hh; decompose [and] Hh; split_and!; try done; lia.
  - eapply outcome_iff; [eapply outcome_bind; [by apply observe_value_exact|]; intros _ Hw; apply within_exact; [done|]; intros Hdep;
      apply visit_map_exact; [done|destruct Hw as (? & ? & ?); split_and!; cbn in *; lia|lia]| |done|done].
    unfold holds. cbn. fold (most (λ m : list Z * Json, nesting m.2) members) (sum (λ m : list Z * Json, values m.2) members)
      (sum (λ m : list Z * Json, len m.1 + string_bytes m.2) members).
    pose proof (most_nonneg (λ m : list Z * Json, nesting m.2) members). assert (0 ≤ sum (λ m : list Z * Json, values m.2) members) by (apply sum_nonneg; intros; apply values_nonneg).
    assert (0 ≤ sum (λ m : list Z * Json, len m.1 + string_bytes m.2) members).
    { apply sum_nonneg. intros m. pose proof (len_nonneg m.1). pose proof (string_bytes_nonneg m.2). lia. }
    split; intros Hh; decompose [and] Hh; split_and!; try done; lia.
  - eapply outcome_iff; [eapply outcome_bind; [by apply observe_value_exact|]; intros _ Hw; apply outcome_fail| |done|done]. unfold holds. cbn. tauto.
  - eapply outcome_iff; [apply outcome_fail| |done|done]. unfold holds. cbn. tauto.
Qed.
End exact.

(** C29: under limits none of which is zero, the preflight of a JSON document accepts exactly
    the documents that the library reads to their end and that are within the limits: the
    nesting, the number of values, the length of every array, object and string and the bytes
    of all strings together. *)
Theorem json_limits_exact document ends limits : limits_ok limits →
  validate_json_shape document ends limits = Ok () ↔
  validate_limits limits = Ok () ∧ ends = true ∧ acceptable limits document ∧ nesting document ≤ max_depth limits ∧
  values document ≤ max_total_values limits ∧ string_bytes document ≤ max_total_string_bytes limits.
Proof.
  intros L. unfold validate_json_shape. destruct (validate_limits limits) as [[]|] eqn:E; [|by split; [|intros []]]. cbn [rbind].
  pose proof (shape_exact limits L document (mkBudget 0 0 0)) as Hs. unfold outcome in Hs. destruct L.
  specialize (Hs ltac:(split_and!; cbn; lia)). unfold holds in Hs. cbn [depth total_values total_string_bytes] in Hs. rewrite !Z.add_0_l in Hs.
  destruct (shape limits document _) as [[[]|e] b]; cbn [fst rbind]; [destruct Hs as [Hs _]; destruct ends; naive_solver|].
  split; [done|]. intros (_ & _ & H). by destruct Hs.
Qed.
Lemma json_limits_exact_witness : validate_json_shape (JArray [JString [97]; JObject [([98], JScalar)] false]) true JsonLimits_default = Ok ().
Proof. apply json_limits_exact; [by split|]. vm_compute. naive_solver. Defined.
