(* ===== verification/Pull.v ===== *)
(** Pulling an image: [rish-pull/src/puller.rs], [policy.rs] and [error.rs].

    The registry is the environment: [execute] gives a response for each request, which
    may depend on every request before it, and the body of a response is what each read of
    it gives. Reading JSON into documents is serde's, a parameter. *)
From stdpp Require Import strings gmap.
From S2P Require Import Prelude.
From S2P Require Import Text.
From S2P Require Import Filesystem.
From S2P Require Import Content.
From S2P Require Import Registry.
From S2P Require Import Reference.
From S2P Require Import Oci.
Local Open Scope Z_scope.

(** ** [policy.rs] and [error.rs] *)

Definition DEFAULT_MAX_MANIFEST_BYTES : Z := 8 * 1024 * 1024.
Definition DEFAULT_MAX_CONFIG_BYTES : Z := 8 * 1024 * 1024.
Definition DEFAULT_MAX_LAYERS : Z := 128.
Definition DEFAULT_MAX_LAYER_BYTES : Z := 512 * 1024 * 1024.
Definition DEFAULT_MAX_TOTAL_BYTES : Z := 2 * 1024 * 1024 * 1024.
Record PullPolicy := mkPullPolicy {
  max_manifest_bytes : Z;
  max_config_bytes : Z;
  max_layers : Z;
  max_layer_bytes : Z;
  max_total_bytes : Z;
  json_limits : JsonLimits
}.
Definition PullPolicy_default : PullPolicy :=
  mkPullPolicy DEFAULT_MAX_MANIFEST_BYTES DEFAULT_MAX_CONFIG_BYTES DEFAULT_MAX_LAYERS DEFAULT_MAX_LAYER_BYTES DEFAULT_MAX_TOTAL_BYTES
    JsonLimits_default.
Inductive BlobKind := IndexBlob | ManifestBlob | ConfigBlob | LayerBlob.
Inductive LimitKind := ManifestBytes | ConfigBytes | LayerCount | LayerBytes | TotalBytes.
Record TransportError := mkTransportError { message : list Z; retryable : bool }.
Inductive PullError :=
  | BodyRead (error : IoError)
  | OfReference (error : ImageReferenceError)
  | OfTransport (error : TransportError)
  | OfResponse (error : ResponseValidationError)
  | OfHeader (error : HeaderError)
  | OfDigest (error : DigestError)
  | OfMediaType (error : MediaTypeParseError)
  | OfModel (error : ModelValidationError)
  | OfSelection (error : PlatformSelectionError)
  | OfStore (error : StoreError)
  | OfOci (error : OciError)
  | InvalidJson (kind : BlobKind)
  | JsonPreflight (kind : BlobKind) (reason : JsonReason)
  | UnsupportedDigest (kind : BlobKind) (algorithm : list Z)
  | UnsupportedMediaType (kind : BlobKind) (media_type : MediaType)
  | DocumentMediaTypeMismatch (kind : BlobKind) (expected actual : MediaType)
  | UnexpectedDocument (expected actual : BlobKind)
  | LimitExceeded (kind : LimitKind) (limit actual : Z)
  | ImagePlatformMismatch (expected_os expected_architecture actual_os actual_architecture : list Z)
  | LayerDiffIdCountMismatch (ids found : Z).

(** ** The environment *)

Class Registries := execute : list RegistryRequest → RegistryRequest → result TransportError RegistryStreamResponse.
Class Documents := mkDocuments {
  json_of : list Z → Json;
  json_ends : list Z → bool;
  document_of : list Z → option ManifestDocument;
  configuration_of : list Z → option ImageConfiguration
}.
(** The store's world and the requests made so far, the last one first. *)
Record Pulling := mkPulling { world : World; requests : list RegistryRequest }.
#[export] Instance Pulling_eta : Settable Pulling := λ s, mkPulling (world s) (requests s).
Abbreviation pm A := (st Pulling PullError A).
Definition lift {A} (r : result PullError A) : pm A := sread (λ _, r).
Definition in_store {A} (c : sm A) : pm A := λ s, let '(r, w) := c (world s) in (map_err OfStore r, s <| world := w |>).
Definition send `{Registries} (q : RegistryRequest) : pm RegistryStreamResponse := λ s,
  (map_err OfTransport (execute (requests s) q), s <| requests ::= cons q |>).

(** ** [puller.rs] *)

Record PulledBlob := mkPulledBlob { descriptor : Descriptor; blob_content : BlobDescriptor }.
Record PulledImage := mkPulledImage {
  image_reference : ImageReference;
  image_index : option PulledBlob;
  image_manifest : PulledBlob;
  image_configured : PulledBlob;
  image_layers : list PulledBlob;
  manifest_document : ImageManifest;
  image_configuration : ImageConfiguration;
  image_lease : Lease
}.
Definition resolved_digest (image : PulledImage) : Digest :=
  match image_index image with
  | Some index => descriptor_digest (descriptor index)
  | None => descriptor_digest (descriptor (image_manifest image))
  end.
(** [None] is the panic of [expect]. *)
Definition layer_diff_ids (image : PulledImage) : option (list Digest) :=
  mapM (λ value, match Digest_from_str value with Ok d => Some d | Err _ => None end) (diff_ids (rootfs (image_configuration image))).
Record Puller := mkPuller { policy : PullPolicy; platform_request : PlatformRequest }.
Definition Puller_new : Puller := mkPuller PullPolicy_default (linux_arm64 None).
Definition with_policy (policy : PullPolicy) (p : Puller) : Puller := mkPuller policy (platform_request p).
Definition with_guest_platform (platform : GuestPlatform) (p : Puller) : Puller := mkPuller (policy p) (selection_request platform).
Definition with_preferred_arm64_variant (variant : option (list Z)) (p : Puller) : Puller := mkPuller (policy p) (linux_arm64 variant).
Definition manifest_limit (p : Puller) : Z :=
  if max_manifest_bytes (policy p) <? DEFAULT_MAX_MANIFEST_BYTES then max_manifest_bytes (policy p) else DEFAULT_MAX_MANIFEST_BYTES.
Definition config_limit (p : Puller) : Z :=
  if max_config_bytes (policy p) <? DEFAULT_MAX_CONFIG_BYTES then max_config_bytes (policy p) else DEFAULT_MAX_CONFIG_BYTES.

Definition enforce_limit (kind : LimitKind) (limit actual : Z) : result PullError () :=
  if actual <=? limit then Ok () else Err (LimitExceeded kind limit actual).
(** [Budget::charge]: what is consumed after it. *)
Definition charge (maximum consumed bytes : Z) : result PullError Z :=
  let total := saturating_add 64 consumed bytes in
  let? _ := enforce_limit TotalBytes maximum total in
  Ok total.
Definition limit_kind (kind : BlobKind) : LimitKind :=
  match kind with IndexBlob | ManifestBlob => ManifestBytes | ConfigBlob => ConfigBytes | LayerBlob => LayerBytes end.
Definition infer_kind (t : MediaType) : BlobKind :=
  if is_index t then IndexBlob
  else if is_manifest t then ManifestBlob
  else match t with OciImageConfig | DockerImageConfig => ConfigBlob | _ => LayerBlob end.
Definition document_kind (t : MediaType) : result PullError BlobKind :=
  if is_index t then Ok IndexBlob else if is_manifest t then Ok ManifestBlob else Err (UnsupportedMediaType ManifestBlob t).
Definition ensure_sha256 (d : Digest) (kind : BlobKind) : result PullError () :=
  if bool_decide (algorithm d = ALGORITHM) then Ok () else Err (UnsupportedDigest kind (algorithm d)).
Definition ensure_reference_digest (image : ImageReference) : result PullError () :=
  match reference_digest image with Some d => ensure_sha256 d ManifestBlob | None => Ok () end.
Definition validate_descriptor_kind (d : Descriptor) (kind : BlobKind) : result PullError () :=
  let? _ := map_err OfModel (Descriptor_validate d) in
  let? _ := ensure_sha256 (descriptor_digest d) kind in
  let supported :=
    match kind with
    | IndexBlob => is_index (media_type d)
    | ManifestBlob => is_manifest (media_type d)
    | ConfigBlob => match media_type d with OciImageConfig | DockerImageConfig => true | _ => false end
    | LayerBlob => match media_type d with OciImageLayer | OciImageLayerGzip | DockerLayerGzip => true | _ => false end
    end in
  if supported then Ok () else Err (UnsupportedMediaType kind (media_type d)).
Definition validate_document_media_type (kind : BlobKind) (expected : MediaType) (document : option MediaType) : result PullError () :=
  match document with
  | Some actual => if bool_decide (actual = expected) then Ok () else Err (DocumentMediaTypeMismatch kind expected actual)
  | None => Ok ()
  end.
Definition cas_descriptor (d : Descriptor) : result PullError BlobDescriptor :=
  let? _ := ensure_sha256 (descriptor_digest d) (infer_kind (media_type d)) in
  match digest_from_str (Digest_to_string (descriptor_digest d)) with
  | Ok digest => Ok (mkDescriptor digest (descriptor_size d))
  | Err _ => Err (UnsupportedDigest (infer_kind (media_type d)) (algorithm (descriptor_digest d)))
  end.
Definition required_content_type (h : HeaderMap) : result PullError MediaType :=
  let? value := map_err OfHeader (get_single h CONTENT_TYPE) in
  match value with
  | None => Err (OfResponse MissingContentType)
  | Some value => map_err OfMediaType (MediaType_from_str (essence value))
  end.
Definition required_registry_digest (h : HeaderMap) : result PullError Digest :=
  let? value := map_err OfHeader (get_single h REGISTRY_DIGEST) in
  match value with
  | None => Err (OfResponse MissingRegistryDigest)
  | Some value => map_err OfDigest (Digest_from_str (trim value))
  end.
Definition synthetic_descriptor (t : MediaType) (d : Digest) (size : Z) : Descriptor := mkDescriptorOf t d size [] ∅ None None None.
Definition manifest_request (image : ImageReference) (d : Descriptor) : RegistryRequest :=
  with_response_body_limit (descriptor_size d)
    ((manifest_request_of image) <| path_and_query := V2 ++ repository image ++ MANIFESTS ++ Digest_to_string (descriptor_digest d) |>).

(** A payload whose size and digest have been checked. *)
Record VerifiedPayload := mkVerified { payload_descriptor : Descriptor; payload : list Z }.
(** [take(remaining).read_to_end]: what was read, and the reads that are left. What a read
    gives beyond [remaining] is still there for the next one. *)
Fixpoint read_to_end (remaining : Z) (read : list Z) (reads : Body) : result PullError (list Z * Body) :=
  if remaining =? 0 then Ok (read, reads)
  else
    match reads with
    | [] => Ok (read, [])
    | None :: _ => Err (BodyRead OtherError)
    | Some chunk :: reads =>
        if bool_decide (chunk = []) then Ok (read, reads)
        else if remaining <? len chunk
        then Ok (read ++ take (Z.to_nat remaining) chunk, Some (drop (Z.to_nat remaining) chunk) :: reads)
        else read_to_end (remaining - len chunk) (read ++ chunk) reads
    end.
(** One more read of one byte: how many it gives. *)
Definition read_trailing (reads : Body) : result PullError Z :=
  match reads with
  | [] => Ok 0
  | None :: _ => Err (BodyRead OtherError)
  | Some chunk :: _ => Ok (Z.min 1 (len chunk))
  end.
Section puller.
Context `{Host} `{Hashing} `{Registries} `{Documents} (store : Inner) (p : Puller).
Definition read_small_verified (response : RegistryStreamResponse) (d : Descriptor) (maximum : Z) (kind : BlobKind)
    : result PullError VerifiedPayload :=
  let? _ := enforce_limit (limit_kind kind) maximum (descriptor_size d) in
  let? (buffered, reads) := read_to_end (descriptor_size d) [] (body response) in
  let? trailing := read_trailing reads in
  if negb (trailing =? 0)
  then Err (OfResponse (DescriptorSizeMismatch (descriptor_size d) (saturating_add 64 (descriptor_size d) 1)))
  else if negb (len buffered =? descriptor_size d)
  then Err (OfResponse (DescriptorSizeMismatch (descriptor_size d) (len buffered)))
  else
    let? _ := map_err (λ e, OfResponse (DigestInvalid e)) (Digest_verify (descriptor_digest d) buffered) in
    Ok (mkVerified d buffered).
Definition preflight (kind : BlobKind) (bytes : list Z) : result PullError () :=
  map_err (JsonPreflight kind) (validate_json_shape (json_of bytes) (json_ends bytes) (json_limits (policy p))).
Definition parse_document (v : VerifiedPayload) : result PullError ManifestDocument :=
  let t := media_type (payload_descriptor v) in
  let kind := match document_kind t with Ok kind => kind | Err _ => ManifestBlob end in
  let? _ := preflight kind (payload v) in
  match document_of (payload v) with
  | None => Err (InvalidJson kind)
  | Some document =>
      let? _ := map_err OfModel (ManifestDocument_validate document) in
      match document with
      | Manifest _ => if is_manifest t then Ok document else Err (UnexpectedDocument IndexBlob ManifestBlob)
      | Index _ => if is_index t then Ok document else Err (UnexpectedDocument ManifestBlob IndexBlob)
      end
  end.
Definition parse_image_configuration (v : VerifiedPayload) : result PullError ImageConfiguration :=
  let? _ := preflight ConfigBlob (payload v) in
  match configuration_of (payload v) with None => Err (InvalidJson ConfigBlob) | Some c => Ok c end.

Definition fetch_root (image : ImageReference) (consumed : Z) : pm (VerifiedPayload * Z) :=
  let! response := send (with_response_body_limit (manifest_limit p) (manifest_request_of image)) in
  if negb (status response =? 200) then sfail (OfResponse (UnexpectedStatus (status response)))
  else
    let! length := lift (map_err OfResponse (content_length response)) in
    match length with
    | None => sfail (OfResponse MissingContentLength)
    | Some size =>
        let! _ := lift (enforce_limit ManifestBytes (manifest_limit p) size) in
        let! t := lift (required_content_type (headers response)) in
        let! kind := lift (document_kind t) in
        let! (digest, header_policy) :=
          match reference_digest image with
          | Some expected => sret (expected, descriptor_headers)
          | None =>
              let! d := lift (required_registry_digest (headers response)) in
              let! _ := lift (ensure_sha256 d kind) in
              sret (d, strict_headers)
          end in
        let d := synthetic_descriptor t digest size in
        let! _ := lift (map_err OfResponse (validate_descriptor_metadata (status response) (headers response) d header_policy)) in
        let! consumed := lift (charge (max_total_bytes (policy p)) consumed size) in
        let! v := lift (read_small_verified response d (manifest_limit p) kind) in
        sret (v, consumed)
    end.
Definition fetch_small_descriptor (image : ImageReference) (d : Descriptor) (maximum : Z) : pm VerifiedPayload :=
  let kind := infer_kind (media_type d) in
  let! _ := lift (enforce_limit (limit_kind kind) maximum (descriptor_size d)) in
  let q := if is_manifest (media_type d) then manifest_request image d else blob_request image d in
  let! response := send (with_response_body_limit (Z.min (descriptor_size d) maximum) q) in
  let! _ := lift (map_err OfResponse (validate_descriptor_metadata (status response) (headers response) d descriptor_headers)) in
  lift (read_small_verified response d maximum kind).
Definition fetch_layer (image : ImageReference) (lease : Lease) (d : Descriptor) : pm PulledBlob :=
  let! response := send (blob_request image d) in
  let! _ := lift (map_err OfResponse (validate_descriptor_metadata (status response) (headers response) d descriptor_headers)) in
  let! expected := lift (cas_descriptor d) in
  let! stored := in_store (lease_ingest_verified store lease (body response) expected) in
  sret (mkPulledBlob d stored).
Definition store_payload (lease : Lease) (v : VerifiedPayload) : pm PulledBlob :=
  let! content := lift (cas_descriptor (payload_descriptor v)) in
  let! stored := in_store (lease_ingest_verified store lease [Some (payload v)] content) in
  sret (mkPulledBlob (payload_descriptor v) stored).
Fixpoint charge_layers (ds : list Descriptor) (consumed : Z) : result PullError Z :=
  match ds with
  | [] => Ok consumed
  | d :: ds =>
      let? _ := validate_descriptor_kind d LayerBlob in
      let? _ := enforce_limit LayerBytes (max_layer_bytes (policy p)) (descriptor_size d) in
      let? consumed := charge (max_total_bytes (policy p)) consumed (descriptor_size d) in
      charge_layers ds consumed
  end.
Definition validate_manifest_graph (m : ImageManifest) (consumed : Z) : result PullError Z :=
  let? _ := map_err OfModel (ImageManifest_validate m) in
  let? _ := validate_descriptor_kind (Registry.config m) ConfigBlob in
  let? _ := enforce_limit ConfigBytes (config_limit p) (descriptor_size (Registry.config m)) in
  let? _ := enforce_limit LayerCount (max_layers (policy p)) (len (layers m)) in
  let? consumed := charge (max_total_bytes (policy p)) consumed (descriptor_size (Registry.config m)) in
  charge_layers (layers m) consumed.
Definition validate_image_configuration (c : ImageConfiguration) (m : ImageManifest) : result PullError () :=
  if negb (bool_decide (image_os c = request_os (platform_request p)))
     || negb (bool_decide (image_architecture c = request_architecture (platform_request p)))
  then Err (ImagePlatformMismatch (request_os (platform_request p)) (request_architecture (platform_request p)) (image_os c) (image_architecture c))
  else
    let? _ := map_err OfOci (validate_linux_guest_metadata c) in
    if negb (len (diff_ids (rootfs c)) =? len (layers m))
    then Err (LayerDiffIdCountMismatch (len (diff_ids (rootfs c))) (len (layers m))) else Ok ().

(** The manifest the reference leads to, by way of an index or not. *)
Definition resolve_manifest (image : ImageReference) : pm (option VerifiedPayload * VerifiedPayload * ImageManifest * Z) :=
  let! (root, consumed) := fetch_root image 0 in
  let! document := lift (parse_document root) in
  match document with
  | Manifest m =>
      let! _ := lift (validate_document_media_type ManifestBlob (media_type (payload_descriptor root)) (manifest_media_type m)) in
      sret (None, root, m, consumed)
  | Index index =>
      let! _ := lift (validate_document_media_type IndexBlob (media_type (payload_descriptor root)) (index_media_type index)) in
      let! selected := lift (map_err OfSelection (select_platform index (platform_request p))) in
      let! _ := lift (validate_descriptor_kind selected ManifestBlob) in
      let! _ := lift (enforce_limit ManifestBytes (manifest_limit p) (descriptor_size selected)) in
      let! consumed := lift (charge (max_total_bytes (policy p)) consumed (descriptor_size selected)) in
      let! v := fetch_small_descriptor image selected (manifest_limit p) in
      let! document := lift (parse_document v) in
      match document with
      | Index _ => sfail (UnexpectedDocument ManifestBlob IndexBlob)
      | Manifest m =>
          let! _ := lift (validate_document_media_type ManifestBlob (media_type selected) (manifest_media_type m)) in
          sret (Some root, v, m, consumed)
      end
  end.
Fixpoint fetch_layers (image : ImageReference) (lease : Lease) (ds : list Descriptor) : pm (list PulledBlob) :=
  match ds with
  | [] => sret []
  | d :: ds =>
      let! layer := fetch_layer image lease d in
      let! layers := fetch_layers image lease ds in
      sret (layer :: layers)
  end.
Definition pull_with (lease : Lease) (image : ImageReference) : pm PulledImage :=
  let! (index_payload, manifest_payload, m, consumed) := resolve_manifest image in
  let! _ := lift (validate_manifest_graph m consumed) in
  let! index :=
    match index_payload with Some v => let! b := store_payload lease v in sret (Some b) | None => sret None end in
  let! manifest := store_payload lease manifest_payload in
  let! config_payload := fetch_small_descriptor image (Registry.config m) (config_limit p) in
  let! c := lift (parse_image_configuration config_payload) in
  let! _ := lift (validate_image_configuration c m) in
  let! configured := store_payload lease config_payload in
  let! layers := fetch_layers image lease (layers m) in
  sret (mkPulledImage image index manifest configured layers m c lease).
(** A pull that fails drops its lease. *)
Definition pull (image : ImageReference) : pm PulledImage :=
  let! _ := lift (ensure_reference_digest image) in
  let! lease := in_store create_lease in
  λ s, match pull_with lease image s with
       | (Ok image, s) => (Ok image, s)
       | (Err e, s) => (Err e, (in_store (drop_lease lease) s).2)
       end.
Definition pull_str (reference : list Z) : pm PulledImage :=
  let! image := lift (map_err OfReference (from_str reference)) in pull image.
End puller.
