(* ===== verification/PullTheorems.v ===== *)
(** What a pull promises: every blob of an image it gives is in the store under the
    digest that names it and held by the image's lease, each document is the one the
    document before it names, and a pull that fails leaves no lease. *)
From stdpp Require Import strings gmap.
From S2P Require Import Prelude.
From S2P Require Import Text.
From S2P Require Import Filesystem.
From S2P Require Import Content.
From S2P Require Import ContentSafety.
From S2P Require Import ContentTheorems.
From S2P Require Import Registry.
From S2P Require Import Reference.
From S2P Require Import Oci.
From S2P Require Import Pull.
Local Open Scope Z_scope.

(** ** Checks that passed *)

Lemma digits_value_nonneg bound value s n : 0 ≤ value → digits_value bound value s = Some n → 0 ≤ n.
Proof.
  revert value. induction s as [|b s IH]; intros value Hv; cbn; [by intros [= <-]|].
  destruct (is_ascii_digit b) eqn:E; [|done]. unfold is_ascii_digit, between in E. destruct (_ <? _); [done|]. apply IH. lia.
Qed.
Lemma content_length_nonneg value n : parse_content_length value = Ok n → 0 ≤ n.
Proof.
  unfold parse_content_length. destruct (_ || _); [done|]. destruct (parse_unsigned 64 value) as [m|] eqn:E; [|done]. intros [= <-].
  unfold parse_unsigned in E. case_match; [done|]. by eapply digits_value_nonneg.
Qed.
Lemma metadata_size status h d policy : require_content_length policy = true → validate_descriptor_metadata status h d policy = Ok () →
  0 ≤ descriptor_size d.
Proof.
  intros Hp. unfold validate_descriptor_metadata. intros ([] & _ & E)%rbind_ok. destruct (negb _); [done|].
  apply rbind_ok in E as (length & _ & E). apply rbind_ok in E as ([] & E & _). rewrite Hp in E. destruct length as [value|]; [|done].
  apply rbind_ok in E as (n & Hn & E). destruct (Z.eqb_spec n (descriptor_size d)) as [<-|]; [|done]. by eapply content_length_nonneg.
Qed.
Lemma enforce_limit_ok kind limit actual : enforce_limit kind limit actual = Ok () → actual ≤ limit.
Proof. unfold enforce_limit. by destruct (Z.leb_spec actual limit). Qed.
(** Below the largest number a charge that passes is exact. *)
Lemma charge_exact maximum consumed bytes total : maximum < 2 ^ 64 - 1 → charge maximum consumed bytes = Ok total →
  total = consumed + bytes ∧ total ≤ maximum.
Proof. intros Hm. unfold charge. intros ([] & E%enforce_limit_ok & [= <-])%rbind_ok. unfold saturating_add in *. lia. Qed.
Definition sizes (ds : list Descriptor) : Z := foldr (λ d n, descriptor_size d + n) 0 ds.
Lemma charge_layers_exact p ds : ∀ consumed total, max_total_bytes (policy p) < 2 ^ 64 - 1 → consumed ≤ max_total_bytes (policy p) →
  charge_layers p ds consumed = Ok total → total = consumed + sizes ds ∧ total ≤ max_total_bytes (policy p).
Proof.
  induction ds as [|d ds IH]; intros consumed total Hm Hc; cbn [charge_layers].
  - intros [= <-]. cbn. lia.
  - intros ([] & _ & E)%rbind_ok. apply rbind_ok in E as ([] & _ & E). apply rbind_ok in E as (n & Hn & E).
    apply charge_exact in Hn as [-> Hn]; [|done]. apply IH in E as [-> ?]; [|done|done]. cbn [sizes foldr]. unfold sizes in *. lia.
Qed.
Lemma graph_exact p m consumed total : max_total_bytes (policy p) < 2 ^ 64 - 1 → validate_manifest_graph p m consumed = Ok total →
  consumed + sizes (Registry.config m :: layers m) ≤ max_total_bytes (policy p).
Proof.
  intros Hm. unfold validate_manifest_graph. intros ([] & _ & E)%rbind_ok. apply rbind_ok in E as ([] & _ & E). apply rbind_ok in E as ([] & _ & E).
  apply rbind_ok in E as ([] & _ & E). apply rbind_ok in E as (n & Hn & E). apply charge_exact in Hn as [-> Hn]; [|done].
  apply charge_layers_exact in E as [-> ?]; [|done|done]. cbn [sizes foldr]. unfold sizes in *. lia.
Qed.
(** The diff ids of a configuration that passed are digests. *)
Lemma diff_id_parses v : validate_sha256_diff_id v = Ok () → ∃ d, Digest_from_str v = Ok d.
Proof.
  unfold validate_sha256_diff_id. destruct (starts_with SHA256_PREFIX v) eqn:Ep; cbn [negb]; [|done].
  destruct (Z.eqb_spec (len (drop (length SHA256_PREFIX) v)) 64) as [El|]; cbn [negb orb]; [|done].
  destruct (forallb is_lower_hex _) eqn:Eh; cbn [negb]; [|done]. intros _. unfold starts_with in Ep. apply bool_decide_eq_true in Ep as [e ->].
  rewrite drop_app_length in El, Eh. assert (∀ b, b ∈ e → is_lower_hex b = true) as Hh.
  { rewrite forallb_forall in Eh. intros b Hb. by apply Eh, list_elem_of_In. }
  exists (mkDigest SHA256 e). unfold Digest_from_str. replace (SHA256_PREFIX ++ e) with (SHA256 ++ 58 :: e) by done.
  rewrite split_once_app by (by apply contains_char_false; vm_compute). rewrite (bool_decide_eq_false_2 (e = [])) by (by intros ->).
  rewrite (proj2 (contains_char_false 58 e)) by (by intros Hb%Hh). replace (valid_algorithm SHA256) with true by (vm_compute; reflexivity).
  rewrite (bool_decide_eq_true_2 (SHA256 = SHA256)) by done. rewrite (bool_decide_eq_false_2 (SHA256 = [])), (bool_decide_eq_false_2 (SHA256 = SHA512)) by done.
  rewrite El, Eh. cbn [orb negb andb Z.eqb]. assert (forallb is_digest_byte e = true) as ->; [|done].
  apply forallb_forall. intros b Hb%list_elem_of_In%Hh. unfold is_lower_hex, is_digest_byte, is_ascii_alphanumeric, is_ascii_digit, between in *. lia.
Qed.
Lemma diff_ids_parse ids : validate_diff_ids ids = Ok () →
  ∃ ds, mapM (λ value, match Digest_from_str value with Ok d => Some d | Err _ => None end) ids = Some ds ∧ length ds = length ids.
Proof.
  induction ids as [|v ids IH]; cbn [validate_diff_ids]; [by exists []|]. intros ([] & Hv & E)%rbind_ok.
  destruct (diff_id_parses v Hv) as [d Hd], (IH E) as (ds & Hds & Hl). exists (d :: ds). split; [|cbn; by rewrite Hl].
  cbn [mapM]. rewrite Hd. cbn [mbind option_bind]. by rewrite Hds.
Qed.
Lemma linux_diff_ids c : validate_linux_guest_metadata c = Ok () → validate_diff_ids (diff_ids (rootfs c)) = Ok ().
Proof.
  unfold validate_linux_guest_metadata, validate_metadata. destruct (_ || _); [done|]. destruct (negb _); [done|].
  intros ([] & E & _)%rbind_ok. done.
Qed.

Section pulling.
Context `{Host} `{!HostLaws} `{Hashing} `{Registries} `{Documents} (store : Inner) (p : Puller).
(** The bytes a descriptor names. *)
Definition names (d : Descriptor) (bytes : list Z) : Prop :=
  Digest_verify (descriptor_digest d) bytes = Ok () ∧ len bytes = descriptor_size d.
Definition verified (v : VerifiedPayload) : Prop := names (payload_descriptor v) (payload v) ∧ 0 ≤ descriptor_size (payload_descriptor v).
Lemma read_small_ok response d maximum kind v : read_small_verified response d maximum kind = Ok v →
  payload_descriptor v = d ∧ names d (payload v) ∧ descriptor_size d ≤ maximum.
Proof.
  unfold read_small_verified. intros ([] & Hl%enforce_limit_ok & E)%rbind_ok. apply rbind_ok in E as ([buffered reads] & _ & E).
  apply rbind_ok in E as (trailing & _ & E). destruct (negb _); [done|]. destruct (Z.eqb_spec (len buffered) (descriptor_size d)); [|done].
  cbn [negb] in E. apply rbind_ok in E as ([] & Hv & [= <-]). split; [done|]. split; [|done]. split; [|done]. by destruct (Digest_verify _ _) as [[]|].
Qed.
Lemma parse_document_ok v document : parse_document p v = Ok document → document_of (payload v) = Some document.
Proof.
  unfold parse_document. intros ([] & _ & E)%rbind_ok. destruct (document_of (payload v)) as [m|]; [|done].
  apply rbind_ok in E as ([] & _ & E). destruct m; destruct (_ (media_type _)) in E; by simplify_eq.
Qed.
Lemma parse_configuration_ok v c : parse_image_configuration p v = Ok c → configuration_of (payload v) = Some c.
Proof. unfold parse_image_configuration. intros ([] & _ & E)%rbind_ok. destruct (configuration_of (payload v)); by simplify_eq. Qed.
Lemma configuration_ok c m : validate_image_configuration p c m = Ok () →
  image_os c = request_os (platform_request p) ∧ image_architecture c = request_architecture (platform_request p) ∧
  validate_linux_guest_metadata c = Ok () ∧ len (diff_ids (rootfs c)) = len (layers m).
Proof.
  unfold validate_image_configuration. case_bool_decide; [|done]. case_bool_decide; [|done]. cbn [negb orb].
  intros ([] & E & E')%rbind_ok. destruct (Z.eqb_spec (len (diff_ids (rootfs c))) (len (layers m))); [|done].
  split_and!; [done..| |done]. by destruct (validate_linux_guest_metadata c) as [[]|].
Qed.

(** ** Steps *)

Context (quota : Z) (L : layout store) (Hquota : max_committed_bytes store ≤ quota < 2 ^ 64)
  (Hmax : 0 ≤ max_blob_size store < 2 ^ 64 - 1) (fl : inflight).
(** Sending and checking leave the store alone. *)
Definition idle {A} (c : pm A) (φ : A → Prop) : Prop := ∀ s, world (c s).2 = world s ∧ ∀ a, (c s).1 = Ok a → φ a.
Lemma idle_bind {A B} (c : pm A) (k : A → pm B) φ ψ : idle c φ → (∀ a, φ a → idle (k a) ψ) → idle (let! a := c in k a) ψ.
Proof.
  intros Hc Hk s. destruct (Hc s) as [Hw Ha]. unfold sbind. destruct (c s) as [[a|e] s1]; cbn in *; [|by split].
  destruct (Hk a (Ha a eq_refl) s1) as [Hw' Hb]. by rewrite Hw', Hw.
Qed.
Lemma idle_lift {A} (r : result PullError A) : idle (lift r) (λ a, r = Ok a).
Proof. by intros s. Qed.
Lemma idle_send q : idle (send q) (λ _, True).
Proof. by intros s. Qed.
Lemma idle_ret {A} (a : A) (φ : A → Prop) : φ a → idle (sret a) φ.
Proof. intros Ha s. split; [done|]. by intros b [= <-]. Qed.
Lemma idle_fail {A} e (φ : A → Prop) : idle (sfail e) φ.
Proof. by intros s. Qed.
Lemma idle_weaken {A} (c : pm A) (φ ψ : A → Prop) : idle c φ → (∀ a, φ a → ψ a) → idle c ψ.
Proof. intros Hc Hw s. destruct (Hc s) as [? Ha]. split; [done|]. intros a Ea. by apply Hw, Ha. Qed.
Lemma idle_ensures {A} (P : World → Prop) (c : pm A) φ : idle c φ →
  ensures (λ s, P (world s)) (λ s, P (world s)) c (λ a s, P (world s) ∧ φ a).
Proof.
  intros Hc s Hs. destruct (Hc s) as [Hw Ha]. destruct (c s) as [[a|e] s']; cbn in *; rewrite Hw; [|done]. split; [done|by apply Ha].
Qed.
Lemma fetch_root_idle image consumed : idle (fetch_root p image consumed) (λ '(v, total), verified v ∧
  (∀ d, reference_digest image = Some d → descriptor_digest (payload_descriptor v) = d) ∧
  charge (max_total_bytes (policy p)) consumed (descriptor_size (payload_descriptor v)) = Ok total).
Proof.
  unfold fetch_root. eapply idle_bind; [apply idle_send|]. intros response _. destruct (negb _); [apply idle_fail|].
  eapply idle_bind; [apply idle_lift|]. intros [size|] _; [|apply idle_fail].
  eapply idle_bind; [apply idle_lift|]. intros [] _. eapply idle_bind; [apply idle_lift|]. intros t _.
  eapply idle_bind; [apply idle_lift|]. intros kind _.
  eapply (idle_bind _ _ (λ '(digest, header_policy), require_content_length header_policy = true ∧
    ∀ d, reference_digest image = Some d → digest = d)).
  { destruct (reference_digest image) as [d|]; [apply idle_ret; split; [done|]; by intros ? [= <-]|].
    eapply idle_bind; [apply idle_lift|]. intros d _. eapply idle_bind; [apply idle_lift|]. intros [] _. by apply idle_ret. }
  intros [digest header_policy] [Hp Hd]. eapply idle_bind; [apply idle_lift|]. intros [] Hm.
  eapply idle_bind; [apply idle_lift|]. intros total Hc. eapply idle_bind; [apply idle_lift|]. intros v Hv. apply idle_ret.
  apply read_small_ok in Hv as (Ev & Hn & _). rewrite Ev. split; [split; [by rewrite Ev|]|by split].
  rewrite Ev. destruct (validate_descriptor_metadata _ _ _ _) as [[]|] eqn:E; [|done]. by eapply metadata_size.
Qed.
Lemma fetch_small_idle image d maximum : idle (fetch_small_descriptor image d maximum) (λ v, payload_descriptor v = d ∧ verified v).
Proof.
  unfold fetch_small_descriptor. eapply idle_bind; [apply idle_lift|]. intros [] _. eapply idle_bind; [apply idle_send|]. intros response _.
  eapply idle_bind; [apply idle_lift|]. intros [] Hm. eapply idle_weaken; [apply idle_lift|]. intros v Hv.
  apply read_small_ok in Hv as (Ev & Hn & _). split; [done|]. unfold verified. rewrite Ev. split; [done|].
  destruct (validate_descriptor_metadata _ _ _ _) as [[]|] eqn:E; [|done]. by eapply metadata_size in E.
Qed.
(** The manifest that a reference leads to. *)
Definition resolves (image : ImageReference) (index : option VerifiedPayload) (v : VerifiedPayload) (m : ImageManifest) (consumed : Z) : Prop :=
  verified v ∧ document_of (payload v) = Some (Manifest m) ∧
  (∀ d, reference_digest image = Some d → descriptor_digest (payload_descriptor (default v index)) = d) ∧
  (max_total_bytes (policy p) < 2 ^ 64 - 1 → consumed = sizes (payload_descriptor <$> option_list index ++ [v])) ∧
  ∀ root, index = Some root → verified root ∧
    ∃ i, document_of (payload root) = Some (Index i) ∧ select_platform i (platform_request p) = Ok (payload_descriptor v).
Lemma resolve_manifest_idle image : idle (resolve_manifest p image) (λ '(index, v, m, consumed), resolves image index v m consumed).
Proof.
  unfold resolve_manifest. eapply idle_bind; [apply fetch_root_idle|]. intros [root consumed] (Hr & Hd & Hc).
  eapply idle_bind; [apply idle_lift|]. intros [m|i] Hp%parse_document_ok.
  - eapply idle_bind; [apply idle_lift|]. intros [] _. apply idle_ret. split_and!; [done..| |done].
    intros Hm. apply charge_exact in Hc as [-> _]; [|done]. cbn. lia.
  - eapply idle_bind; [apply idle_lift|]. intros [] _. eapply idle_bind; [apply idle_lift|]. intros selected Hs.
    eapply idle_bind; [apply idle_lift|]. intros [] _. eapply idle_bind; [apply idle_lift|]. intros [] _.
    eapply idle_bind; [apply idle_lift|]. intros total Ht. eapply idle_bind; [apply fetch_small_idle|]. intros v [Ev Hv].
    eapply idle_bind; [apply idle_lift|]. intros [m|?] Hq%parse_document_ok; [|apply idle_fail].
    eapply idle_bind; [apply idle_lift|]. intros [] _. apply idle_ret. split_and!; [done..| |].
    + intros Hm. apply charge_exact in Hc as [-> _]; [|done]. apply charge_exact in Ht as [-> _]; [|done]. subst selected. cbn. lia.
    + intros ? [= <-]. split; [done|]. exists i. split; [done|]. rewrite Ev. by destruct (select_platform _ _); simplify_eq/=.
Qed.

(** ** Storing *)

Section leasing.
Context (id : Z) (s0 : State).
(** A blob that is in the store under the digest of its descriptor and held by the lease. *)
Definition kept_blob (b : PulledBlob) (s : State) : Prop :=
  cas_descriptor (descriptor b) = Ok (blob_content b) ∧ names_blob (Some id) (digest (blob_content b)) s ∧
  committed_blobs s !! digest (blob_content b) = Some (blob_size (blob_content b)).
Lemma kept_grown b s s' : kept_blob b s → grown (Some id) s s' → kept_blob b s'.
Proof.
  intros (? & ? & ?) Hg. split; [done|]. split; [by eapply names_grown|]. destruct Hg as [Hg _]. by eapply lookup_weaken.
Qed.
Definition holds (bs : list PulledBlob) (s : Pulling) : Prop :=
  sound store quota fl (world s) ∧ grown (Some id) s0 (guarded (world s)) ∧ Forall (λ b, kept_blob b (guarded (world s))) bs.
Lemma holds_nil bs s : holds bs s → holds [] s.
Proof. intros (? & ? & _). by split_and!. Qed.
Lemma idle_holds {A} bs (c : pm A) φ : idle c φ → ensures (holds []) (holds bs) c (λ a s, holds bs s ∧ φ a).
Proof.
  intros Hc s Hs. destruct (Hc s) as [Hw Ha]. unfold holds in *. destruct (c s) as [[a|e] s']; cbn in *; rewrite Hw; [|by apply (holds_nil bs s)].
  split; [done|by apply Ha].
Qed.
Lemma ingest_holds bs d content reads : cas_descriptor d = Ok content → 0 ≤ descriptor_size d →
  ensures (holds []) (holds bs) (in_store (lease_ingest_verified store (mkLease id false) reads content))
    (λ b s, holds (mkPulledBlob d b :: bs) s ∧ calculate (readable reads) = digest b).
Proof.
  intros Hd Hn s (Hs & Hg & Hb). unfold in_store, lease_ingest_verified, usable. cbn [released lease_id].
  assert (blob_size content = descriptor_size d) as Hc.
  { unfold cas_descriptor in Hd. apply rbind_ok in Hd as ([] & _ & Hd). by destruct (digest_from_str _); simplify_eq/=. }
  pose proof (ingest_grows store quota L Hquota fl (guarded (world s)) reads (Some content) (Some id) Hmax ltac:(intros e [= <-]; lia)
    (world s) (conj Hs (reflexivity _))) as Hi.
  destruct (ingest_inner _ _ _ _ _) as [[b|e] w]; cbn.
  - destruct Hi as (Hw & (Eb & _ & He) & Hcb & Hg' & Hl). rewrite <- (He content eq_refl) in *. unfold holds. cbn.
    split_and!; [done|by etrans| |by rewrite Eb]. constructor; [by split_and!|].
    eapply Forall_impl; [done|]. intros b' Hb'. eapply kept_grown; [exact Hb'|done].
  - destruct Hi as [Hw Hg']. split; [done|]. split; [by cbn; etrans|constructor].
Qed.
Lemma store_payload_holds bs v : verified v →
  ensures (holds []) (holds bs) (store_payload store (mkLease id false) v)
    (λ b s, holds (b :: bs) s ∧ descriptor b = payload_descriptor v ∧ calculate (payload v) = digest (blob_content b)).
Proof.
  intros [_ Hn]. unfold store_payload. eapply ensures_bind; [apply idle_holds, idle_lift|]. intros content. apply ensures_pure. intros Hc.
  eapply ensures_bind; [by apply ingest_holds|]. intros b. apply ensures_ret. intros s [Hs He]. split; [done|]. split; [done|].
  cbn [blob_content]. rewrite <- He. f_equal. destruct (payload v) as [|b' chunk]; cbn; [done|by rewrite app_nil_r].
Qed.
Lemma fetch_layer_holds bs image d :
  ensures (holds []) (holds bs) (fetch_layer store image (mkLease id false) d) (λ b s, holds (b :: bs) s ∧ descriptor b = d).
Proof.
  unfold fetch_layer. eapply ensures_bind; [apply idle_holds, idle_send|]. intros response. apply ensures_pure. intros _.
  eapply ensures_bind; [apply idle_holds, idle_lift|]. intros []. apply ensures_pure. intros Hm.
  eapply ensures_bind; [apply idle_holds, idle_lift|]. intros content. apply ensures_pure. intros Hc.
  eapply ensures_bind; [apply ingest_holds; [done|]|].
  - destruct (validate_descriptor_metadata _ _ _ _) as [[]|] eqn:E; [|done]. by eapply metadata_size in E.
  - intros b. apply ensures_ret. by intros s [Hs _].
Qed.
Lemma fetch_layers_holds image ds : ∀ bs,
  ensures (holds []) (holds bs) (fetch_layers store image (mkLease id false) ds)
    (λ layers s, holds (layers ++ bs) s ∧ descriptor <$> layers = ds).
Proof.
  induction ds as [|d ds IH]; intros bs; cbn [fetch_layers]; [by apply ensures_ret|].
  eapply ensures_bind; [apply fetch_layer_holds|]. intros b. apply ensures_pure. intros Hb.
  eapply ensures_bind; [apply IH|]. intros layers. apply ensures_ret. intros s [(Hs & Hg & Hf) Hl]. split; [|cbn; by rewrite Hb, Hl].
  split_and!; [done|done|]. by rewrite <- app_comm_cons, Permutation_middle.
Qed.
End leasing.

(** ** Pulling *)

(** The document that a blob was made from. *)
Definition carries (b : PulledBlob) (bytes : list Z) : Prop :=
  names (descriptor b) bytes ∧ calculate bytes = digest (blob_content b).
Definition image_blobs (image : PulledImage) : list PulledBlob :=
  option_list (image_index image) ++ image_manifest image :: image_configured image :: image_layers image.
(** Each document is the one the document before it names, from the reference on. *)
Record linked (reference : ImageReference) (image : PulledImage) : Prop := mk_linked {
  li_reference : image_reference image = reference;
  li_digest : ∀ d, reference_digest reference = Some d → resolved_digest image = d;
  li_index : ∀ b, image_index image = Some b → ∃ bytes index, carries b bytes ∧ document_of bytes = Some (Index index) ∧
    select_platform index (platform_request p) = Ok (descriptor (image_manifest image));
  li_manifest : ∃ bytes, carries (image_manifest image) bytes ∧ document_of bytes = Some (Manifest (manifest_document image));
  li_config : descriptor (image_configured image) = Registry.config (manifest_document image) ∧
    ∃ bytes, carries (image_configured image) bytes ∧ configuration_of bytes = Some (image_configuration image);
  li_layers : descriptor <$> image_layers image = layers (manifest_document image);
  li_platform : image_os (image_configuration image) = request_os (platform_request p) ∧
    image_architecture (image_configuration image) = request_architecture (platform_request p) ∧
    validate_linux_guest_metadata (image_configuration image) = Ok ();
  li_diff_ids : ∃ ids, layer_diff_ids image = Some ids ∧ length ids = length (image_layers image);
  li_total : max_total_bytes (policy p) < 2 ^ 64 - 1 → sizes (descriptor <$> image_blobs image) ≤ max_total_bytes (policy p)
}.
Lemma sizes_app a b : sizes (a ++ b) = sizes a + sizes b.
Proof. induction a as [|d a IH]; cbn; [done|]. unfold sizes in *. lia. Qed.
Lemma stored_carries v b : verified v → descriptor b = payload_descriptor v → calculate (payload v) = digest (blob_content b) →
  carries b (payload v).
Proof. intros [Hn _] Ed Ec. unfold carries. by rewrite Ed. Qed.
Lemma store_index_holds id s0 index : (∀ root, index = Some root → verified root) →
  ensures (holds id s0 []) (holds id s0 [])
    (match index with Some v => let! b := store_payload store (mkLease id false) v in sret (Some b) | None => sret None end)
    (λ b s, holds id s0 (option_list b) s ∧
       (descriptor <$> b = payload_descriptor <$> index) ∧ ∀ root b', index = Some root → b = Some b' → carries b' (payload root)).
Proof.
  intros Hv. destruct index as [root|]; [|by apply ensures_ret]. specialize (Hv root eq_refl).
  eapply ensures_bind; [by apply store_payload_holds|]. intros b. apply ensures_ret. intros s (Hs & Ed & Ec). split; [done|]. cbn.
  split; [by rewrite Ed|]. intros ? ? [= <-] [= <-]. by apply stored_carries.
Qed.
Lemma pull_with_holds id s0 reference :
  ensures (holds id s0 []) (holds id s0 []) (pull_with store p (mkLease id false) reference)
    (λ image s, linked reference image ∧ image_lease image = mkLease id false ∧ holds id s0 (image_blobs image) s).
Proof.
  unfold pull_with. eapply ensures_bind; [apply idle_holds, resolve_manifest_idle|]. intros [[[index v] m] consumed]. apply ensures_pure.
  intros (Hv & Hm & Hd & Hc & Hi).
  eapply ensures_bind; [apply idle_holds, idle_lift|]. intros total. apply ensures_pure. intros Ht.
  eapply ensures_bind; [apply store_index_holds; intros root Hr; by apply Hi|]. intros ib. eapply ensures_pure. intros [Ei Eb].
  eapply ensures_bind; [by apply store_payload_holds|]. intros mb. apply ensures_pure. intros [Em Hmb].
  eapply ensures_bind; [apply idle_holds, fetch_small_idle|]. intros cv. apply ensures_pure. intros [Ecv Hcv].
  eapply ensures_bind; [apply idle_holds, idle_lift|]. intros c. apply ensures_pure. intros Hpc%parse_configuration_ok.
  eapply ensures_bind; [apply idle_holds, idle_lift|]. intros []. apply ensures_pure. intros (Hos & Har & Hli & Hdi)%configuration_ok.
  eapply ensures_bind; [by apply store_payload_holds|]. intros cb. apply ensures_pure. intros [Ec Hcb].
  eapply ensures_bind; [apply fetch_layers_holds|]. intros ls. apply ensures_ret. intros s [Hs Hl]. split; [|split; [done|]].
  - split; cbn.
    + done.
    + intros d Hr. rewrite <- (Hd d Hr). unfold resolved_digest. cbn. destruct ib, index; cbn in *; congruence.
    + intros b ->. destruct index as [root|]; [|done]. destruct (Hi root eq_refl) as (_ & i & ? & ?). exists (payload root), i.
      split; [by apply Eb|]. by rewrite Em.
    + exists (payload v). split; [by apply stored_carries|done].
    + split; [congruence|]. exists (payload cv). split; [by apply stored_carries|done].
    + done.
    + done.
    + destruct (diff_ids_parse _ (linux_diff_ids _ Hli)) as (ids & Hids & Hlen). exists ids. split; [done|].
      rewrite Hlen. unfold len in Hdi. rewrite <- Hl, length_fmap in Hdi. lia.
    + intros Hlt. apply graph_exact in Ht; [|done]. rewrite (Hc Hlt), <- sizes_app in Ht. etrans; [|exact Ht]. apply Z.eq_le_incl. f_equal.
      unfold image_blobs. cbn. rewrite !fmap_app. cbn. rewrite Em, Ec, Ecv, Hl. destruct ib, index; cbn in *; congruence.
  - destruct Hs as (Hs & Hg & Hb). split_and!; [done|done|]. unfold image_blobs. cbn. 
    rewrite !Forall_app, !Forall_cons in *. tauto.
Qed.

Lemma create_lease_run w : sound store quota fl w → ∃ w', create_lease w = (Ok (mkLease (fresh_lease_id (guarded w)) false), w') ∧
  sound store quota fl w' ∧ committed_blobs (guarded w') = committed_blobs (guarded w) ∧
  leases (guarded w') = <[fresh_lease_id (guarded w) := ∅]> (leases (guarded w)).
Proof.
  intros Hw. pose proof (create_lease_ensures store quota fl w Hw) as Hc. eexists. split; [done|]. by split_and!.
Qed.
(** Without the new lease the leases are those of before. *)
Lemma grown_delete id s s' ls : grown (Some id) s s' → leases s = <[id := ∅]> ls → ls !! id = None → delete id (leases s') = ls.
Proof.
  intros (_ & _ & Hg) El Hn. apply map_eq. intros i. destruct (decide (i = id)) as [->|Hne]; [by rewrite lookup_delete_eq|].
  rewrite lookup_delete_ne, Hg, El, lookup_insert_ne; congruence.
Qed.
End pulling.

(** C8: a pull gives an image whose every blob, the index, the manifest, the configuration and
    the layers, is in the store under the digest its descriptor names, with content of that
    hash and of the size described, and is held by the lease of the image. The documents are
    linked: the root is the one with the digest of the reference, the index selects the
    manifest for the platform, the manifest names the configuration and the layers in their
    order, the configuration is for the platform asked for with a diff id that parses for
    each layer, and together they are within the total the policy allows, if that is below
    the largest number. No blob is lost and no other lease changes, and a pull that fails
    leaves the leases as they were. The number of the new lease is one not in use. *)
Theorem pull_verified `{Host} `{!HostLaws} `{Hashing} `{Registries} `{Documents} store quota p fl reference s :
  layout store → max_committed_bytes store ≤ quota < 2 ^ 64 → 0 ≤ max_blob_size store < 2 ^ 64 - 1 →
  sound store quota fl (world s) → leases (guarded (world s)) !! fresh_lease_id (guarded (world s)) = None →
  match pull store p reference s with
  | (Ok image, s') =>
      linked p reference image ∧ sound store quota fl (world s') ∧
      (∀ b, b ∈ image_blobs image → cas_descriptor (descriptor b) = Ok (blob_content b) ∧
         names_blob (Some (lease_id (image_lease image))) (digest (blob_content b)) (guarded (world s')) ∧
         ∃ bytes, stored store (disk (world s')) (digest (blob_content b)) bytes ∧
           calculate bytes = digest (blob_content b) ∧ len bytes = blob_size (blob_content b)) ∧
      committed_blobs (guarded (world s)) ⊆ committed_blobs (guarded (world s')) ∧
      delete (lease_id (image_lease image)) (leases (guarded (world s'))) = leases (guarded (world s))
  | (Err _, s') =>
      sound store quota fl (world s') ∧ committed_blobs (guarded (world s)) ⊆ committed_blobs (guarded (world s')) ∧
      leases (guarded (world s')) = leases (guarded (world s))
  end.
Proof.
  intros L Hq Hmax Hs Hf. unfold pull, sbind at 1, lift, sread. destruct (ensure_reference_digest reference); [|done].
  destruct (create_lease_run store quota fl (world s) Hs) as (w1 & E1 & Hs1 & Hc1 & Hl1).
  set (id := fresh_lease_id _) in *. unfold sbind, in_store at 1. rewrite E1. cbn [map_err].
  pose proof (pull_with_holds store p quota L Hq Hmax fl id (guarded w1) reference (s <| world := w1 |>)) as Hp.
  specialize (Hp ltac:(by split_and!)). destruct (pull_with _ _ _ _ _) as [[image|e] s2].
  - destruct Hp as (Hlink & -> & Hs2 & Hg & Hb). cbn [lease_id]. pose proof (grown_delete _ _ _ _ Hg Hl1 Hf) as Hd.
    split_and!; [done|done| |by rewrite <- Hc1; apply Hg|done]. intros b Hin.
    rewrite Forall_forall in Hb. destruct (Hb b Hin) as (Hcas & Hn & Hcom). split_and!; [done..|].
    by destruct (so_stored _ _ _ _ Hs2 _ _ Hcom) as (_ & ?).
  - destruct Hp as (Hs2 & Hg & _). pose proof (grown_delete _ _ _ _ Hg Hl1 Hf) as Hd. unfold in_store, drop_lease. cbn [released lease_id].
    pose proof (release_lease_ensures store quota fl id (world s2) Hs2) as Hr. cbn in Hr |- *.
    split_and!; [done|by rewrite <- Hc1; apply Hg|done].
Qed.

(** ** Witnesses *)

Module PullFixture.
Import StoreFixture.
(** An index [1] of a manifest [2] with the configuration [3] and the layer [4]. *)
#[export] Instance no_sha512 : Hashing := λ bytes, bytes.
Definition describing (t : MediaType) (bytes : list Z) : Descriptor := synthetic_descriptor t (Digest_sha256 bytes) (len bytes).
Definition arm64_manifest : Descriptor :=
  mkDescriptorOf OciImageManifest (Digest_sha256 [2]) 1 [] ∅ None (Some (mkPlatform ARM64 LINUX (Some V8) None [] [])) None.
Definition manifest : ImageManifest :=
  mkManifest 2 (Some OciImageManifest) (describing OciImageConfig [3]) [describing OciImageLayerGzip [4]] None None ∅.
Definition configuration : ImageConfiguration :=
  mkImageConfiguration ARM64 LINUX (mkImageConfig [] [] [] [] ∅ []) (mkRootFilesystem (bytes_of "layers") [digest_to_string (calculate [4])]).
#[export] Instance documents : Documents := {|
  json_of _ := JScalar;
  json_ends _ := true;
  document_of bytes :=
    match bytes with
    | [1] => Some (Index (mkIndex 2 (Some OciImageIndex) [arm64_manifest] None None ∅))
    | [2] => Some (Manifest manifest)
    | _ => None
    end;
  configuration_of bytes := match bytes with [3] => Some configuration | _ => None end
|}.
Definition answer (t : MediaType) (named sent : list Z) : RegistryStreamResponse :=
  mkResponse 200 (list_to_map [(CONTENT_LENGTH, [bytes_of "1"]); (CONTENT_TYPE, [as_str t]);
    (REGISTRY_DIGEST, [Digest_to_string (Digest_sha256 named)])]) [Some sent].
(** The registry, which sends [layer] for the layer. *)
Definition serving (layer : list Z) : Registries := λ sent _,
  match sent with
  | [] => Ok (answer OciImageIndex [1] [1])
  | [_] => Ok (answer OciImageManifest [2] [2])
  | [_; _] => Ok (answer OciImageConfig [3] [3])
  | _ => Ok (answer OciImageLayerGzip [4] layer)
  end.
Definition alpine : ImageReference := mkReference DEFAULT_REGISTRY (bytes_of "library/alpine") None (Some (Digest_sha256 [1])).
Definition start : Pulling := mkPulling opened [].
Definition after_pull (layer : list Z) : result PullError PulledImage * Pulling :=
  @pull padding no_sha512 (serving layer) documents store Puller_new alpine start.
Lemma fixture_limit : 0 ≤ max_blob_size store < 2 ^ 64 - 1.
Proof. by vm_compute. Qed.
Lemma no_lease : leases (guarded (world start)) !! fresh_lease_id (guarded (world start)) = None.
Proof. vm_compute. reflexivity. Qed.
Lemma pulled_four : match (after_pull [4]).1 with Ok image => length (image_blobs image) = 4%nat | Err _ => False end.
Proof. vm_compute. reflexivity. Qed.
Lemma refused_five : match (after_pull [5]).1 with Ok _ => False | Err _ => True end.
Proof. vm_compute. exact I. Qed.
End PullFixture.
Import StoreFixture PullFixture.
(** The pull gives the four blobs; with another layer in place of the one named it fails and
    drops its lease. *)
Lemma pull_verified_witness :
  match after_pull [4] with
  | (Ok image, s') => length (image_blobs image) = 4%nat ∧ linked Puller_new alpine image ∧
      sound store (bound store opened) ∅ (world s')
  | (Err _, _) => False
  end ∧
  match after_pull [5] with
  | (Ok _, _) => False
  | (Err _, s') => leases (guarded (world s')) = ∅
  end.
Proof.
  destruct opened_sound as (_ & L & Hb & Hs). split.
  - generalize (pull_verified (H2 := serving [4]) store (bound store opened) Puller_new ∅ alpine start L Hb fixture_limit Hs no_lease).
    fold (after_pull [4]). generalize pulled_four. destruct (after_pull [4]) as [[image|e] s']; [|intros []].
    intros Hr (Hl & Hw & _). split; [exact Hr|]. split; [exact Hl|exact Hw].
  - generalize (pull_verified (H2 := serving [5]) store (bound store opened) Puller_new ∅ alpine start L Hb fixture_limit Hs no_lease).
    fold (after_pull [5]). generalize refused_five. destruct (after_pull [5]) as [[image|e] s']; [intros []|].
    intros _ (_ & _ & Hl). rewrite Hl. vm_compute. reflexivity.
Defined.
